(* ===== verification/_CoqProject ===== *)
-Q . S2P
Prelude.v
Protocol.v
Buffer.v
FrameReader.v
Codec.v
ServiceRegistry.v
Channel.v
Transport.v
RpcServer.v
RpcClient.v
RpcEndToEnd.v
RpcFutures.v
TcpConnection.v
TcpCallback.v
ConnFrame.v
RpcOverTcp.v
Heap.v
TimerQueue.v
Utf8.v
Charconv.v
Rounding.v
JsonValue.v
JsonRep.v
JsonText.v
JsonWriter.v
JsonParser.v
Serializer.v
EventLoop.v
EventLoopThread.v
HttpRequest.v
HttpResponse.v
HttpServer.v
InetAddress.v
Socket.v
ServerStart.v
TcpServer.v
ServerSession.v
AppSession.v
RpcSession.v
Connector.v
TcpClient.v
ClientSession.v
Wire.v
WireMsgpack.v
WireProtobuf.v
WireJson.v
WireBench.v
LoopTimers.v
EchoApp.v
Programs.v
HttpSession.v
EchoSession.v
LoopLifecycle.v
