(* ===== verification/Prelude.v ===== *)
(** * ReactorNet: a verification of the reactor, the RPC stack and the HTTP server

    ReactorNet is a C++17 networking library: a single-threaded event loop per
    thread (epoll, timers, a queue of functors posted by other threads), TCP
    connections, servers and clients on top of it, and two protocols on top of
    those, an RPC protocol (RFC-0001) with raw and JSON payloads and a static HTTP
    server; a benchmark compares five more serialization formats.  This library
    models those parts as Rocq functions and transition
    systems and proves what makes them correct.

    ** The program and its files

    Bytes flow upwards as follows.  [EPollPoller] reports ready descriptors;
    [EventLoop] dispatches them to [Channel]s; a [TcpConnection] reads into its
    input [Buffer] and calls the message callback; [RpcServer] or [RpcClient] cut
    the buffer into frames with [FrameReader] and [Protocol], take the envelope
    apart with [RawCodec], and dispatch through [ServiceRegistry] or to the pending
    call; answers go back through [Transport::send].  [TcpServer] with [Acceptor]
    and [TcpClient] with [Connector] make and destroy the connections;
    [TimerQueue] provides the deadlines.

    - [Prelude]: integers of fixed width, byte strings, list lemmas.  This file.
    - [Protocol] ([rpc/src/protocol.cpp]): header codec and status codes.
    - [Buffer] ([src/Buffer.cpp]): the byte vector with its two indices.
    - [FrameReader] ([rpc/src/frame_reader.cpp]): one frame from the front of a buffer.
    - [Codec] ([rpc/src/raw_codec.cpp]): request and response envelopes.
    - [ServiceRegistry] ([rpc/src/service_registry.cpp]): names to handlers.
    - [Channel] ([src/Channel.cpp], [src/EPollPoller.cpp]): interest masks, their
      kernel registration, and event dispatch.
    - [Transport] ([include/Transport.h]): the abstract connection, as a class of
      operations and a class of laws, with an in-memory instance.
    - [RpcServer] ([rpc/src/rpc_server.cpp]): the message callback of the server,
      over any transport that satisfies the laws.
    - [RpcClient] ([rpc/src/rpc_client.cpp]): calls, responses, timeouts,
      disconnects and connect promises, over the same interface.
    - [RpcEndToEnd]: client and server joined by two byte streams.
    - [RpcFutures] ([rpc/src/rpc_client.cpp]): [AsyncCall], [CallAsync] and [Call]
      from other threads, with their promises, and the destructor.
    - [TcpConnection] ([src/TcpConnection.cpp]): the connection state machine; it
      discharges the laws of [Transport].
    - [TcpCallback]: a message callback written against [Transport] does to a TCP
      connection what its recorded calls do.
    - [ConnFrame]: what a step of a connection leaves alone, for the classes that
      own connections.
    - [RpcOverTcp]: the server on the connection.
    - [Heap], [TimerQueue] ([src/TimerQueue.cpp], [src/Timer.cpp]): the heap
      algorithms and the timers in a memory of raw pointers.
    - [Utf8] ([rpc/src/json_utf8.h]), [Charconv] (the number conversions of the
      C++ library) and [Rounding] (that they fit together), [JsonValue], [JsonRep]
      (the tagged struct of [rpc/include/rpc/json_value.h] as it is laid out),
      [JsonText] (the grammar, with its own tables of escapes, hexadecimal digits
      and white space; it shares with the code the UTF-8 validator, which has its
      own specification, and the conversions of [Charconv]), [JsonWriter],
      [JsonParser], [Serializer]: the payload formats.
    - [EventLoop], [EventLoopThread] ([src/EventLoop.cpp],
      [src/EventLoopThread.cpp]): the loop and its owner as interleaved threads.
    - [HttpRequest], [HttpResponse], [HttpServer] ([src/HttpRequest.cpp],
      [src/HttpResponse.cpp], [example/http_server.cpp]).
    - [InetAddress] ([src/InetAddress.cpp]): addresses and their text.
    - [Socket] ([src/Socket.cpp], [include/Socket.h]): who owns and closes a
      descriptor, on a table of open descriptors.
    - [ServerStart] ([src/Acceptor.cpp], [src/TcpServer.cpp]): construction,
      [start] and [listen] over those sockets.
    - [TcpServer] ([src/TcpServer.cpp], and [src/Acceptor.cpp] in its module
      [Acceptor]): the connection table across loops; [ServerSession] runs it
      together with the connection objects, on the pollers of their loops.
    - [AppSession]: any message callback in such a server, as a class of
      applications with their specification; [RpcSession], [HttpSession] and
      [EchoSession] are its instances, the last two from the command line on.
    - [Connector], [TcpClient] ([src/Connector.cpp], [src/TcpClient.cpp]), and
      [ClientSession], which runs them and the connection together.
    - [Wire] (raw and flat), [WireMsgpack], [WireProtobuf], [WireJson],
      [WireBench] ([bench/serialization_bench.cpp]): the five formats of the
      benchmark and its [main].
    - [EchoApp] ([example/echo_server.cpp], [example/rpc_echo_server.cpp],
      [example/rpc_echo_client.cpp]): the example programs' callbacks.
    - [Programs] (the same files and [example/http_server.cpp]): their [main]
      functions, from the arguments to the running server.
    - [LoopTimers] ([src/EventLoop.cpp], [src/TimerQueue.cpp]): [runAt],
      [runAfter], [runEvery] and [cancelTimer] from any thread.
    - [LoopLifecycle] ([src/EventLoop.cpp], [src/TimerQueue.cpp],
      [src/EPollPoller.cpp]): construction and destruction of a loop.

    ** How the code is represented

    A class is a [Record] of its members, a method a function from the record to
    the next one under the method's name; a few fields record history (what was
    sent, which callbacks ran) and are read only by the theorems.  [None] is an
    abort, a failed assertion, undefined behaviour or exhausted fuel, so a theorem
    that a run gives [Some] excludes all of these.  Out-parameters are components of the
    result.  Answers of the kernel (the result of [write], of [connect], the
    ready events) and of the file system are inputs; where a theorem relies on
    them, the contract is a boolean predicate such as [events_ok] that a witness
    evaluates, or a step relation's premise such as [poll_contract].  User
    callbacks are lists or trees of the calls they make on the object that
    invoked them, so that re-entrance is part of the model.  Calls from other
    threads are separate steps: atomic actions that interleave freely in
    [EventLoop], [EventLoopThread] and [TcpServer], posted functors elsewhere; a
    handler called on a loop is one step, also where several loops share the
    application's state.  Where a call of another thread tests a member and then
    stores it ([shutdown], [forceClose] and [send] of a connection, [start] of a
    server) the test is an input of the step, and the contract says when it is
    current; what happens otherwise is shown by examples next to the theorem
    ([remote_forceClose_race], [start_race]).  The readings of the clock by a timer
    queue are an arbitrary sequence, and the timerfd holds the relative time that
    was computed from one of them.
    Integers are [Z], with [u64], [u32] and [u16] written where the code can wrap
    and explicit checks where signed overflow would be undefined.

    ** What the theorems show

    - Framing and codecs: [decodeHeader] accepts exactly the encodings of headers;
      the frame reader's results do not depend on how the stream was cut into
      reads; the envelope codec is a bijection; the validator accepts exactly
      UTF-8; the JSON parser decides the grammar of RFC 8259 with its depth limit;
      the writer writes every value with valid strings and finite doubles (seventeen
      digits are enough for any), and encoding and decoding a payload is the
      identity, also inside a request.
    - The buffer refines a queue of bytes, as its callers and the kernel see it; the poller's bookkeeping and the
      kernel's interest list mirror the channel.
    - The RPC server is total on every input, answers every well-formed request
      (with a nonzero id and a zero status byte, which it does not check) once and in
      order over any lawful transport, and as a TCP server on all its connections at
      once, whatever the interleaving of its loops; frames of another version or of
      an unknown type and requests with a reserved flag are answered and close the
      connection.
    - The RPC client completes each call exactly once, routes responses by id,
      tolerates responses after a timeout and fails all calls on disconnect.
    - Client and server together: whatever the segmentation in either direction,
      each call completes once with what the registered handler computed; the
      echo programs are an instance, from their command lines to what the client
      prints.  A future is resolved once in every
      interleaving of callers with the loop, and the destructor resolves the rest.
    - The tagged JSON struct is well typed and implements the abstract value.
    - Timers: no dangling pointer, the timerfd set for the first expiration (but
      never to less than 100 microseconds), exactly the due timers run, [cancel] is
      final, and along any execution a timer runs, from its insertion on, at the
      times its call promises.
    - Connections: the state machine, once up and once down, and teardown.
    - The loop: no lost wakeup, functors once and in order, [quit] ends it; the
      thread's destructor only touches a live loop and joins.
    - A loop's destructor uses nothing it has freed and closes what it opened;
      sockets own their descriptor exactly once, however they are moved; a server
      started from any thread comes to listen, and reports the port the kernel chose
      when it was given port 0.
    - The server under all interleavings of its loops: its table, and with the
      connections on their shared pollers the whole life of each of them, from
      [accept] to the destruction of the object, by its own end or by the server's
      destructor; the servers on top (RPC, HTTP, echo) have sent, on every
      connection, exactly the answers to what it has read, and all of them before it
      closes at the end of a stream; the acceptor leaks no
      descriptor; the connector holds what its attempt needs, reports each
      attempt once and delivers only connected sockets; a client makes one
      connection at most and, once it is closed, tears it down.
    - HTTP: requests are delimited exactly, pipelined requests are answered in
      order on any segmentation, targets with a leading slash from under the document
      root, responses are framed by their length.
    - The benchmark: each format gives back what it encoded, its decoders stay
      inside their input and return (JSON when the numbers it reads fit, protobuf when
      no declared length wraps the cursor around, without which it does not), and [main] computes the sizes
      and the sink it reports.
    - Deviations the proofs brought out are theorems too: a lost [quit], a
      half-closed client or connection that aborts, an immediate retry that
      delivers an unconnected socket, a file outside the document root, a name
      collision without worker threads, a cut header line, a server on another
      port than it announces, and others next to
      the theorem whose condition they explain.

    ** Bounds and fuel

    Loops that are not structural have fuel computed from their input: the number
    of readable bytes for message loops (each turn consumes at least one), the
    length of the text for the scanners, the depth limit for the JSON recursion,
    the size of the heap for its sifting, the binary logarithm for decimal
    digits, one turn per byte for the protobuf decoder (seven for an encoded
    record), one more than the length of the input for the skipping of nested
    MessagePack values.  The totality theorems show that it is never exhausted,
    except where a protobuf length wraps around and the source loops forever.
    Printing a [double] tries at most seventeen digits, and scales by at most 700
    powers of ten, which every finite value needs less of.  Clock readings are
    bounded by 2^62 microseconds, and intervals too, so that deadlines stay in
    [int64_t].  Sizes are bounded by 2^60 and streams by [stream_max], so that sums of
    lengths stay below 2^64, as on any machine that could hold them; the server theorems bound the connections by
    [INT_MAX], beyond which [nextConnId_] overflows.

    ** Not modelled

    - The kernel beyond the answers the code looks at: the file system, the
      network, [epoll]; [Socket::read], [write] and [readv], which hand those
      answers through, are inputs of [Buffer] and [TcpConnection].
    - The blocking itself: of [connect] and [Call] the model has the promise and
      what resolves it.
    - Time: deadlines are integers, and the rates the benchmark measures and
      prints are left out, as is the [SIGPIPE] handler.
    - Log output (that of the example programs apart), and allocation failure.
    - Exceptions thrown by functors and timer callbacks; those of RPC handlers
      and of [std::stoi] are modelled.
    - The tests, and the formatting of the benchmark's table. *)
From Stdlib Require Import ZArith Lia.
From Stdlib Require Export Strings.Byte.
From stdpp Require Export base list gmap strings.

#[global] Open Scope Z_scope.
#[export] Set Warnings "-clear-no-such-hyp".

(** ** Machine integers *)

(** [std::size_t] and [uint64_t] arithmetic wraps modulo 2^64, [uint32_t]
    arithmetic modulo 2^32. *)
Definition u64 (z : Z) : Z := z mod 2 ^ 64.
Definition u32 (z : Z) : Z := z mod 2 ^ 32.
Definition u16 (z : Z) : Z := z mod 2 ^ 16.

Lemma u64_small z : 0 <= z < 2 ^ 64 -> u64 z = z.
Proof. intros; apply Z.mod_small; lia. Qed.
Lemma u32_small z : 0 <= z < 2 ^ 32 -> u32 z = z.
Proof. intros; apply Z.mod_small; lia. Qed.
Lemma u16_small z : 0 <= z < 2 ^ 16 -> u16 z = z.
Proof. intros; apply Z.mod_small; lia. Qed.

(** ** Bytes *)

(** A C++ [std::string], [std::string_view] or [char] array. *)
Abbreviation bytes := (list byte).

(** [static_cast<uint8_t>(c)] on a [char]. *)
Definition b2z (b : byte) : Z := Z.of_N (Byte.to_N b).

(** [static_cast<char>(z)]: the low eight bits. *)
Definition z2b (z : Z) : byte :=
  match Byte.of_N (Z.to_N (z mod 256)) with Some b => b | None => x00 end.

Definition str (s : string) : bytes := String.list_byte_of_string s.

(** The size of a C++ container as a [size_t]. *)
Definition len {A} (l : list A) : Z := Z.of_nat (length l).

Lemma b2z_range b : 0 <= b2z b < 256.
Proof. destruct b; cbv; split; congruence. Qed.

Lemma z2b_b2z b : z2b (b2z b) = b.
Proof. destruct b; reflexivity. Qed.

Lemma b2z_z2b z : b2z (z2b z) = z mod 256.
Proof.
  unfold z2b, b2z. pose proof (Z.mod_pos_bound z 256 ltac:(lia)).
  destruct (Byte.of_N _) as [b|] eqn:E.
  - apply Byte.to_of_N in E. rewrite E, Z2N.id; lia.
  - apply Byte.of_N_None_iff in E. lia.
Qed.

Lemma b2z_inj a b : b2z a = b2z b -> a = b.
Proof. intros H. rewrite <- (z2b_b2z a), <- (z2b_b2z b). congruence. Qed.

(** A boolean fact about all bytes, by evaluation. *)
Lemma byte_all (P : Z -> bool) :
  forallb (fun n => P (Z.of_nat n)) (seq 0 256) = true -> forall b, P (b2z b) = true.
Proof.
  intros H b. pose proof (b2z_range b). rewrite forallb_forall in H.
  rewrite <- (Z2Nat.id (b2z b)) by lia. apply (H (Z.to_nat (b2z b))). apply in_seq. lia.
Qed.

#[global] Instance byte_eq_dec : EqDecision byte.
Proof.
  intros a b. destruct (Byte.eqb a b) eqn:E.
  - left. by apply Byte.byte_dec_bl.
  - right. intros ->. by rewrite Byte.byte_dec_lb in E.
Defined.

#[global] Program Instance byte_countable : Countable byte :=
  inj_countable Byte.to_N Byte.of_N _.
Next Obligation. apply Byte.of_to_N. Qed.

(** ** Bit-level lemmas *)

Lemma lor_shiftl_add a b k :
  0 <= k -> 0 <= a < 2 ^ k -> 0 <= b -> Z.lor a (Z.shiftl b k) = a + b * 2 ^ k.
Proof.
  intros Hk Ha Hb. rewrite <- Z.shiftl_mul_pow2 by done.
  rewrite <- Z.lxor_lor, <- Z.add_nocarry_lxor; [done|..];
    apply Z.bits_inj'; intros i Hi;
    rewrite Z.land_spec, Z.shiftl_spec, Z.bits_0 by done;
    (destruct (Z.ltb_spec i k);
      [by rewrite (Z.testbit_neg_r b), andb_false_r by lia|];
     rewrite <- (Z.mod_small a (2 ^ k)), Z.mod_pow2_bits_high by lia; done).
Qed.

Lemma land_255 z : Z.land z 255 = z mod 256.
Proof. apply (Z.land_ones z 8). lia. Qed.

(** ** Lists indexed by [Z] offsets *)

Lemma len_nonneg {A} (l : list A) : 0 <= len l.
Proof. unfold len; lia. Qed.
Lemma len_app {A} (l1 l2 : list A) : len (l1 ++ l2) = len l1 + len l2.
Proof. unfold len. rewrite length_app. lia. Qed.
Lemma len_nil {A} : len (@nil A) = 0.
Proof. done. Qed.
Lemma len_cons {A} (x : A) l : len (x :: l) = 1 + len l.
Proof. unfold len. simpl. lia. Qed.
Lemma len_take {A} n (l : list A) : len (take n l) = Z.min (Z.of_nat n) (len l).
Proof. unfold len. rewrite length_take. lia. Qed.
Lemma len_drop {A} n (l : list A) : len (drop n l) = Z.max 0 (len l - Z.of_nat n).
Proof. unfold len. rewrite length_drop. lia. Qed.
Lemma len_replicate {A} n (x : A) : len (replicate n x) = Z.of_nat n.
Proof. unfold len. by rewrite length_replicate. Qed.

Create Rewrite HintDb rn_len.
#[export] Hint Rewrite @len_app @len_nil @len_cons @len_take @len_drop @len_replicate : rn_len.
#[export] Hint Rewrite @length_app @length_take @length_drop @length_replicate @length_cons @length_nil : rn_len.

Lemma take_min_len {A} n (l : list A) :
  0 <= n -> take (Z.to_nat (Z.min n (len l))) l = take (Z.to_nat n) l.
Proof.
  intros. destruct (Z.le_gt_cases n (len l)); [by rewrite Z.min_l|].
  rewrite Z.min_r, !take_ge; unfold len in *; lia || done.
Qed.

Lemma drop_min_len {A} n (l : list A) :
  0 <= n -> drop (Z.to_nat (Z.min n (len l))) l = drop (Z.to_nat n) l.
Proof.
  intros. destruct (Z.le_gt_cases n (len l)); [by rewrite Z.min_l|].
  rewrite Z.min_r, !drop_ge; unfold len in *; lia || done.
Qed.

(** [slice l off n]: the [n] elements of [l] from [off] on, the range a
    [std::string(ptr + off, n)] constructor copies; [None] is a read outside
    the object. *)
Definition slice {A} (l : list A) (off n : Z) : option (list A) :=
  if (0 <=? off) && (0 <=? n) && (off + n <=? len l)
  then Some (take (Z.to_nat n) (drop (Z.to_nat off) l)) else None.

(** [ptr[i]]; [None] is a read outside the object. *)
Definition at_ {A} (l : list A) (i : Z) : option A :=
  if 0 <=? i then l !! Z.to_nat i else None.

(** Linear arithmetic with [/] and [mod] by constants. *)
Ltac dmlia := Z.div_mod_to_equations; lia.

Ltac solve_len :=
  autorewrite with rn_len in *; unfold len in *; autorewrite with rn_len in *; try lia.

Ltac zbool :=
  repeat match goal with
  | H : context [(?a <? ?b)] |- _ => destruct (Z.ltb_spec a b)
  | H : context [(?a <=? ?b)] |- _ => destruct (Z.leb_spec a b)
  | H : context [(?a =? ?b)] |- _ => destruct (Z.eqb_spec a b)
  | |- context [(?a <? ?b)] => destruct (Z.ltb_spec a b)
  | |- context [(?a <=? ?b)] => destruct (Z.leb_spec a b)
  | |- context [(?a =? ?b)] => destruct (Z.eqb_spec a b)
  end; simpl in *.

(** [std::copy(first, first + n, ptr + off)]: overwrite [len data] elements from
    [off] on; [None] is a write outside the object. *)
Definition store {A} (l : list A) (off : Z) (data : list A) : option (list A) :=
  if (0 <=? off) && (off + len data <=? len l)
  then Some (take (Z.to_nat off) l ++ data ++ drop (Z.to_nat (off + len data)) l) else None.

Lemma slice_Some {A} (l : list A) off n :
  0 <= off -> 0 <= n -> off + n <= len l ->
  slice l off n = Some (take (Z.to_nat n) (drop (Z.to_nat off) l)).
Proof. intros. unfold slice. zbool; try lia; done. Qed.

Lemma slice_app {A} (a b c : list A) off n :
  off = len a -> n = len b -> slice (a ++ b ++ c) off n = Some b.
Proof.
  intros -> ->. rewrite slice_Some by solve_len. unfold len.
  rewrite !Nat2Z.id, drop_app_length, take_app_length. done.
Qed.

Lemma store_app {A} (a b c data : list A) off :
  off = len a -> len data = len b -> store (a ++ b ++ c) off data = Some (a ++ data ++ c).
Proof.
  intros -> E. unfold store. pose proof (len_nonneg a). zbool; try solve_len. simpl.
  rewrite E, (app_assoc a b c), drop_app_length' by solve_len.
  by rewrite <- app_assoc, take_app_length' by solve_len.
Qed.

Lemma at_app_ge {A} (a l : list A) k : 0 <= k -> at_ (a ++ l) (len a + k) = at_ l k.
Proof.
  intros Hk. unfold at_. zbool; try solve_len.
  rewrite lookup_app_r by solve_len. f_equal. solve_len.
Qed.

Lemma at_app_lt {A} (a l : list A) i : i < len a -> at_ (a ++ l) i = at_ a i.
Proof. intros H. unfold at_. zbool; [|done]. rewrite lookup_app_l; [done|]. solve_len. Qed.

Lemma at_is_Some {A} (l : list A) i : 0 <= i < len l -> is_Some (at_ l i).
Proof.
  intros H. unfold at_. zbool; [|lia]. apply lookup_lt_is_Some. unfold len in H; lia.
Qed.

Lemma at_Some_split {A} (l : list A) i x :
  at_ l i = Some x -> exists pre post, l = pre ++ x :: post /\ len pre = i.
Proof.
  unfold at_. zbool; [|done]. intros E.
  exists (take (Z.to_nat i) l), (drop (S (Z.to_nat i)) l). split.
  - by rewrite take_drop_middle.
  - apply lookup_lt_Some in E. solve_len.
Qed.

Lemma slice_eq {A} (l a b c : list A) off n :
  l = a ++ b ++ c -> off = len a -> n = len b -> slice l off n = Some b.
Proof. intros ->. apply slice_app. Qed.

Lemma len_eqb_0 {A} (l : list A) : (len l =? 0) = true <-> l = [].
Proof. destruct l; split; try done. Qed.

(** Evaluate the reads [at_ l i] at a literal index of a list whose first cells
    are known, and continue the option monad with the byte read. *)
Ltac eval_at :=
  repeat match goal with
  | |- context [at_ ?l ?i] =>
      let v := eval lazy in (at_ l i) in
      change (at_ l i) with v; cbn [mbind option_bind]
  end.
