(* ===== verification/Protocol.v ===== *)
(** * Protocol: the 16-byte RFC-0001 frame header *)
From S2P Require Import Prelude.

(** ** [rpc/include/rpc/protocol.h]: enums, header and constants *)

(** [MessageType] and [StatusCode] are [uint8_t] enums: [decodeHeader] casts an
    arbitrary byte into them, so their values range over 0..255. *)
Module MessageType.
Definition kRequest : Z := 1.
Definition kResponse : Z := 2.
End MessageType.

Module StatusCode.
Definition kOk : Z := 0x00.
Definition kUnsupportedVersion : Z := 0x01.
Definition kUnsupportedMsgType : Z := 0x02.
Definition kUnsupportedFlag : Z := 0x03.
Definition kBadRequestId : Z := 0x04.
Definition kBodyTooLarge : Z := 0x05.
Definition kMalformedBody : Z := 0x06.
Definition kUnknownService : Z := 0x07.
Definition kUnknownMethod : Z := 0x08.
Definition kInternalError : Z := 0x09.
Definition kTimeout : Z := 0x0A.
Definition kConnectionClosed : Z := 0x0B.
Definition kBadRequest : Z := 0x0C.
Definition kUnsupportedSerializer : Z := 0x0D.
End StatusCode.

Record MessageHeader := mkHeader {
  magic : Z;
  version : Z;
  type : Z;
  flags : Z;
  status : Z;
  serializerId : Z;
  requestId : Z;
  bodyLen : Z
}.

Definition kMagic : Z := 0x4E52.
Definition kVersion : Z := 0x01.
Definition kHeaderSize : Z := 16.
Definition kSerializerRaw : Z := 0x00.
Definition kSerializerJson : Z := 0x01.
Definition kMaxBodyLen : Z := 16 * 1024 * 1024.

(** [MessageHeader candidate{}]: value-initialised. *)
Definition zeroHeader : MessageHeader := mkHeader 0 0 0 0 0 0 0 0.

#[global] Instance MessageHeader_eq_dec : EqDecision MessageHeader.
Proof. solve_decision. Defined.

(** ** [rpc/src/protocol.cpp] *)

Definition statusToString (s : Z) : string :=
  if s =? StatusCode.kOk then "OK"
  else if s =? StatusCode.kUnsupportedVersion then "UNSUPPORTED_VERSION"
  else if s =? StatusCode.kUnsupportedMsgType then "UNSUPPORTED_MSG_TYPE"
  else if s =? StatusCode.kUnsupportedFlag then "UNSUPPORTED_FLAG"
  else if s =? StatusCode.kBadRequestId then "BAD_REQUEST_ID"
  else if s =? StatusCode.kBodyTooLarge then "BODY_TOO_LARGE"
  else if s =? StatusCode.kMalformedBody then "MALFORMED_BODY"
  else if s =? StatusCode.kUnknownService then "UNKNOWN_SERVICE"
  else if s =? StatusCode.kUnknownMethod then "UNKNOWN_METHOD"
  else if s =? StatusCode.kInternalError then "INTERNAL_ERROR"
  else if s =? StatusCode.kTimeout then "TIMEOUT"
  else if s =? StatusCode.kConnectionClosed then "CONNECTION_CLOSED"
  else if s =? StatusCode.kBadRequest then "BAD_REQUEST"
  else "UNKNOWN_STATUS".

Definition putU16 (value : Z) : bytes :=
  [z2b (Z.land value 0xFF); z2b (Z.land (Z.shiftr value 8) 0xFF)].

Definition putU32 (value : Z) : bytes :=
  [z2b (Z.land value 0xFF);
   z2b (Z.land (Z.shiftr value 8) 0xFF);
   z2b (Z.land (Z.shiftr value 16) 0xFF);
   z2b (Z.land (Z.shiftr value 24) 0xFF)].

Definition getU16 (inp : bytes) (off : Z) : option Z :=
  b0 ← at_ inp off; b1 ← at_ inp (off + 1);
  Some (Z.lor (b2z b0) (u16 (Z.shiftl (b2z b1) 8))).

Definition getU32 (inp : bytes) (off : Z) : option Z :=
  b0 ← at_ inp off; b1 ← at_ inp (off + 1);
  b2 ← at_ inp (off + 2); b3 ← at_ inp (off + 3);
  Some (Z.lor (Z.lor (Z.lor (b2z b0) (u32 (Z.shiftl (b2z b1) 8)))
                     (u32 (Z.shiftl (b2z b2) 16)))
              (u32 (Z.shiftl (b2z b3) 24))).

(** The sixteen bytes [encodeHeader] writes to [out]. *)
Definition encodeHeader (header : MessageHeader) : bytes :=
  putU16 (magic header) ++
  [z2b (version header); z2b (type header); z2b (flags header);
   z2b (status header); z2b (serializerId header); z2b 0] ++
  putU32 (requestId header) ++ putU32 (bodyLen header).

#[global] Arguments encodeHeader : simpl never.

(** [decodeHeader in len out]: [None] as a pointer is [nullptr]; the result
    [None] is a read outside [in].  The returned pair is the [bool] and the
    contents of [*out] afterwards. *)
Definition decodeHeader (inp : option bytes) (length : Z) (out : option MessageHeader)
  : option (bool * option MessageHeader) :=
  match inp, out with
  | Some i, Some _ =>
      if length <? kHeaderSize then Some (false, out) else
      m ← getU16 i 0;
      if negb (m =? kMagic) then Some (false, out) else
      v ← at_ i 2; t ← at_ i 3; f ← at_ i 4; s ← at_ i 5; ser ← at_ i 6;
      rid ← getU32 i 8; bl ← getU32 i 12;
      Some (true, Some (mkHeader m (b2z v) (b2z t) (b2z f) (b2z s) (b2z ser) rid bl))
  | _, _ => Some (false, out)
  end.

(** ** Invariant: every field fits its C++ type *)

Definition header_wf (h : MessageHeader) : Prop :=
  0 <= magic h < 2 ^ 16 /\ 0 <= version h < 256 /\ 0 <= type h < 256 /\
  0 <= flags h < 256 /\ 0 <= status h < 256 /\ 0 <= serializerId h < 256 /\
  0 <= requestId h < 2 ^ 32 /\ 0 <= bodyLen h < 2 ^ 32.

(** ** Little-endian helpers *)

Lemma u16_join b0 b1 :
  Z.lor (b2z b0) (u16 (Z.shiftl (b2z b1) 8)) = b2z b0 + b2z b1 * 2 ^ 8.
Proof.
  pose proof (b2z_range b0); pose proof (b2z_range b1).
  rewrite u16_small by (rewrite Z.shiftl_mul_pow2; lia).
  apply lor_shiftl_add; lia.
Qed.

Lemma u32_join b0 b1 b2 b3 :
  Z.lor (Z.lor (Z.lor (b2z b0) (u32 (Z.shiftl (b2z b1) 8)))
               (u32 (Z.shiftl (b2z b2) 16))) (u32 (Z.shiftl (b2z b3) 24))
  = b2z b0 + b2z b1 * 2 ^ 8 + b2z b2 * 2 ^ 16 + b2z b3 * 2 ^ 24.
Proof.
  pose proof (b2z_range b0); pose proof (b2z_range b1);
  pose proof (b2z_range b2); pose proof (b2z_range b3).
  rewrite !u32_small by (rewrite Z.shiftl_mul_pow2; lia).
  rewrite (lor_shiftl_add (b2z b0)) by lia.
  rewrite (lor_shiftl_add (_ + _)) by lia.
  rewrite lor_shiftl_add; lia.
Qed.

Lemma b2z_lo z : b2z (z2b (Z.land z 0xFF)) = z mod 256.
Proof. by rewrite b2z_z2b, land_255, Z.mod_mod by lia. Qed.

Lemma z2b_lo z b : z mod 256 = b2z b -> z2b (Z.land z 0xFF) = b.
Proof. intros H. apply b2z_inj. by rewrite b2z_lo. Qed.

Lemma putU16_join b0 b1 : putU16 (b2z b0 + b2z b1 * 2 ^ 8) = [b0; b1].
Proof.
  pose proof (b2z_range b0); pose proof (b2z_range b1). unfold putU16.
  rewrite Z.shiftr_div_pow2 by lia.
  f_equal; [|f_equal]; apply z2b_lo; dmlia.
Qed.

Lemma putU32_join b0 b1 b2 b3 :
  putU32 (b2z b0 + b2z b1 * 2 ^ 8 + b2z b2 * 2 ^ 16 + b2z b3 * 2 ^ 24) = [b0; b1; b2; b3].
Proof.
  pose proof (b2z_range b0); pose proof (b2z_range b1);
  pose proof (b2z_range b2); pose proof (b2z_range b3). unfold putU32.
  rewrite !Z.shiftr_div_pow2 by lia.
  f_equal; [|f_equal; [|f_equal; [|f_equal]]]; apply z2b_lo; dmlia.
Qed.

Lemma getU16_app pre v post :
  0 <= v < 2 ^ 16 -> getU16 (pre ++ putU16 v ++ post) (len pre) = Some v.
Proof.
  intros Hv. unfold getU16, putU16.
  rewrite <- (Z.add_0_r (len pre)) at 1. rewrite !at_app_ge by lia. simpl.
  rewrite u16_join, !b2z_lo, Z.shiftr_div_pow2 by lia. f_equal. dmlia.
Qed.

Lemma getU16_0 v post : 0 <= v < 2 ^ 16 -> getU16 (putU16 v ++ post) 0 = Some v.
Proof. apply (getU16_app []). Qed.

Lemma getU32_app pre v post :
  0 <= v < 2 ^ 32 -> getU32 (pre ++ putU32 v ++ post) (len pre) = Some v.
Proof.
  intros Hv. unfold getU32, putU32.
  rewrite <- (Z.add_0_r (len pre)) at 1. rewrite !at_app_ge by lia. simpl.
  rewrite u32_join, !b2z_lo, !Z.shiftr_div_pow2 by lia. f_equal. dmlia.
Qed.

Lemma b2z_u8 z : 0 <= z < 256 -> b2z (z2b z) = z.
Proof. intros. rewrite b2z_z2b, Z.mod_small; lia. Qed.

Lemma encodeHeader_len h : len (encodeHeader h) = 16.
Proof. done. Qed.
Lemma putU16_len v : len (putU16 v) = 2.
Proof. done. Qed.
#[export] Hint Rewrite encodeHeader_len putU16_len : rn_len.

(** ** Functional behaviour of the header codec *)

(** The decoder in terms of the sixteen bytes it reads, the shape the
    theorems below rewrite with. *)
Lemma decodeHeader_long i n o :
  kHeaderSize <= n <= len i ->
  exists b0 b1 b2 b3 b4 b5 b6 b7 r0 r1 r2 r3 l0 l1 l2 l3 rest,
    i = [b0; b1; b2; b3; b4; b5; b6; b7; r0; r1; r2; r3; l0; l1; l2; l3] ++ rest ∧
    decodeHeader (Some i) n (Some o) =
      if b2z b0 + b2z b1 * 2 ^ 8 =? kMagic then
        Some (true, Some (mkHeader (b2z b0 + b2z b1 * 2 ^ 8) (b2z b2) (b2z b3) (b2z b4) (b2z b5) (b2z b6)
          (b2z r0 + b2z r1 * 2 ^ 8 + b2z r2 * 2 ^ 16 + b2z r3 * 2 ^ 24)
          (b2z l0 + b2z l1 * 2 ^ 8 + b2z l2 * 2 ^ 16 + b2z l3 * 2 ^ 24)))
      else Some (false, Some o).
Proof.
  unfold kHeaderSize. intros Hn.
  do 16 (destruct i as [|? i]; [solve_len|]). repeat eexists.
  unfold decodeHeader, getU16, getU32, kHeaderSize.
  rewrite (proj2 (Z.ltb_ge n 16)) by lia. eval_at.
  rewrite u16_join, !u32_join. by destruct (_ =? kMagic).
Qed.

(** The reserved byte is ignored. *)
Lemma decodeHeader_reserved h r rest n o :
  header_wf h -> magic h = kMagic -> kHeaderSize <= n <= len (<[7%nat := r]> (encodeHeader h) ++ rest) ->
  decodeHeader (Some (<[7%nat := r]> (encodeHeader h) ++ rest)) n (Some o) = Some (true, Some h).
Proof.
  intros (?&?&?&?&?&?&?&?) Hm Hn.
  destruct (decodeHeader_long _ n o Hn) as (b0&b1&b2&b3&b4&b5&b6&b7&r0&r1&r2&r3&l0&l1&l2&l3&rs&E&->).
  injection E as <- <- <- <- <- <- <- <- <- <- <- <- <- <- <- <- <-.
  rewrite !b2z_lo, !b2z_u8, !Z.shiftr_div_pow2 by lia.
  destruct h; simpl in *. rewrite Hm; simpl.
  repeat f_equal; dmlia.
Qed.

(** Round trip on the wire: the sixteen bytes [encodeHeader] writes for a
    header with the protocol magic, followed by anything, decode to the same
    header. *)
Lemma decode_encodeHeader h rest n o :
  header_wf h -> magic h = kMagic -> kHeaderSize <= n <= len (encodeHeader h ++ rest) ->
  decodeHeader (Some (encodeHeader h ++ rest)) n (Some o) = Some (true, Some h).
Proof. exact (decodeHeader_reserved h (z2b 0) rest n o). Qed.

(** The decoder is injective up to the reserved byte: a buffer it accepts
    starts with the encoding of the decoded header, except that byte 7 may hold
    anything; and the decoded header fits its C++ field types. *)
Lemma encode_decodeHeader i n o h :
  n <= len i -> decodeHeader (Some i) n (Some o) = Some (true, Some h) ->
  header_wf h /\ magic h = kMagic /\ exists reserved rest,
    i = <[7%nat := reserved]> (encodeHeader h) ++ rest.
Proof.
  intros Hn H.
  assert (kHeaderSize <= n) as Hk.
  { unfold decodeHeader in H. destruct (Z.ltb_spec n kHeaderSize); congruence || lia. }
  destruct (decodeHeader_long i n o ltac:(lia))
    as (b0&b1&b2&b3&b4&b5&b6&b7&r0&r1&r2&r3&l0&l1&l2&l3&r&->&E).
  rewrite E in H. destruct (Z.eqb_spec (b2z b0 + b2z b1 * 2 ^ 8) kMagic); [|congruence].
  injection H as <-. split; [|split; [done|]].
  - repeat match goal with |- context [b2z ?b] => pose proof (b2z_range b); generalize dependent (b2z b); intros end.
    unfold header_wf; simpl. lia.
  - exists b7, r. unfold encodeHeader; cbn [magic version type flags status serializerId requestId bodyLen].
    rewrite putU16_join, !putU32_join, !z2b_b2z. done.
Qed.

(** Memory safety and the failure contract: with [len] bytes readable the
    decoder never reads outside them; it accepts exactly the buffers that hold
    sixteen bytes starting with the magic, and when it rejects it leaves [*out]
    as it was. *)
Lemma decodeHeader_total i n out :
  n <= len i ->
  exists ok out', decodeHeader (Some i) n out = Some (ok, out') /\
    (ok = false -> out' = out) /\
    (ok = true <-> is_Some out /\ kHeaderSize <= n /\ take 2 i = putU16 kMagic).
Proof.
  intros Hn. destruct out as [o|]; [|do 2 eexists; split; [done|]; split; [done|];
    split; [done|intros [[] _]; done]].
  destruct (Z.lt_ge_cases n kHeaderSize) as [H|H].
  { exists false, (Some o). unfold decodeHeader.
    rewrite (proj2 (Z.ltb_lt n kHeaderSize)) by done.
    split_and!; [done..|]. split; [done|lia]. }
  destruct (decodeHeader_long i n o ltac:(lia))
    as (b0&b1&b2&b3&b4&b5&b6&b7&r0&r1&r2&r3&l0&l1&l2&l3&r&->&->).
  destruct (Z.eqb_spec (b2z b0 + b2z b1 * 2 ^ 8) kMagic) as [E|E];
    do 2 eexists; (split; [done|]); (split; [done|]); split; try done.
  - intros _. split; [eauto|]. split; [done|]. rewrite <- E. simpl. by rewrite putU16_join.
  - intros (_ & _ & E'). cbn [take] in E'. injection E' as -> ->. by destruct E.
Qed.

Lemma decodeHeader_some s o :
  kHeaderSize <= len s ->
  decodeHeader (Some s) (len s) (Some o) = Some (false, Some o) \/
  exists h, decodeHeader (Some s) (len s) (Some o) = Some (true, Some h) /\ header_wf h /\ magic h = kMagic.
Proof.
  intros Hs. destruct (decodeHeader_long s (len s) o ltac:(lia))
    as (b0&b1&b2&b3&b4&b5&b6&b7&r0&r1&r2&r3&l0&l1&l2&l3&r&_&E).
  destruct (_ =? kMagic); [right|by left].
  eexists. split; [exact E|].
  destruct (encode_decodeHeader s (len s) o _ ltac:(lia) E) as (? & ? & _). done.
Qed.

(** RFC-0001 section 5.1: the first sixteen bytes of the golden [GetUser]
    request. *)
Example golden_GetUser_header :
  encodeHeader (mkHeader kMagic kVersion MessageType.kRequest 0 StatusCode.kOk kSerializerRaw 1 31)
  = [x52; x4e; x01; x01; x00; x00; x00; x00; x01; x00; x00; x00; x1f; x00; x00; x00].
Proof. reflexivity. Qed.

(** [statusToString] has no case for [kUnsupportedSerializer]: the one
    wire-visible status added last prints as unknown. *)
Lemma statusToString_known s :
  0 <= s -> statusToString s = "UNKNOWN_STATUS" <-> StatusCode.kUnsupportedSerializer <= s.
Proof.
  intros Hs. unfold statusToString, StatusCode.kUnsupportedSerializer.
  repeat match goal with |- context [s =? ?c] => unfold c end.
  split; [zbool; try lia; discriminate|].
  intros. zbool; try lia; done.
Qed.

(** The header codec is exact.  With [n] readable bytes [decodeHeader] reads
    inside them and decides; it yields [h] exactly when the bytes start with the
    sixteen bytes [encodeHeader h] writes, the reserved byte aside, [h] has the
    magic and its fields fit their types; when it rejects, [*out] is left as it
    was. *)
Theorem header_codec_exact i n o :
  n <= len i ->
  exists ok out', decodeHeader (Some i) n (Some o) = Some (ok, Some out') /\
    (ok = false -> out' = o) /\
    forall h, ok = true /\ out' = h <->
      header_wf h /\ magic h = kMagic /\ kHeaderSize <= n /\
      exists reserved rest, i = <[7%nat := reserved]> (encodeHeader h) ++ rest.
Proof.
  intros Hn. destruct (decodeHeader_total i n (Some o) Hn) as (ok & out & E & Hf & Ht).
  assert (exists out', out = Some out') as [out' ->].
  { destruct ok; [|eauto]. destruct (proj1 Ht eq_refl) as (_ & Hk & _).
    destruct (decodeHeader_long i n o ltac:(lia)) as (b0&b1&b2&b3&b4&b5&b6&b7&r0&r1&r2&r3&l0&l1&l2&l3&r&_&E').
    rewrite E in E'. destruct (_ =? kMagic); simplify_eq. eauto. }
  exists ok, out'. split; [done|]. split; [intros Hok; specialize (Hf Hok); congruence|]. intros h. split.
  - intros [-> ->]. destruct (encode_decodeHeader i n o h Hn E) as (? & ? & ?).
    destruct Ht as [Ht _]. by destruct (Ht eq_refl) as (_ & ? & _).
  - intros (Hw & Hm & Hk & r & rest & ->).
    rewrite (decodeHeader_reserved h r rest n o Hw Hm) in E by done. by injection E as <- <-.
Qed.

Lemma header_codec_exact_witness :
  let i := encodeHeader (mkHeader kMagic kVersion MessageType.kRequest 0 StatusCode.kOk kSerializerRaw 1 31) ++ [x61] in
  exists ok out', decodeHeader (Some i) 17 (Some (mkHeader 0 0 0 0 0 0 0 0)) = Some (ok, Some out') /\
    (ok = false -> out' = mkHeader 0 0 0 0 0 0 0 0) /\
    forall h, ok = true /\ out' = h <->
      header_wf h /\ magic h = kMagic /\ kHeaderSize <= 17 /\
      exists reserved rest, i = <[7%nat := reserved]> (encodeHeader h) ++ rest.
Proof. apply header_codec_exact. by vm_compute. Defined.
