(* ===== verification/Buffer.v ===== *)
(** * Buffer: the growable read/write buffer of every connection

    [include/Buffer.h] and [src/Buffer.cpp].  A [Buffer] is one byte vector with
    a prependable, a readable and a writable region delimited by two indices.
    The abstract object it implements is a queue of bytes. *)
From S2P Require Import Prelude.

Definition kCheapPrepend : Z := 8.
Definition kInitialSize : Z := 1024.

Record Buffer := mkBuffer {
  buffer_ : bytes;
  readIndex_ : Z;
  writeIndex_ : Z
}.

(** [std::vector<char>(n)] is zero-filled. *)
Definition Buffer_new (initialSize : Z) : Buffer :=
  mkBuffer (replicate (Z.to_nat (u64 (kCheapPrepend + initialSize))) x00) kCheapPrepend kCheapPrepend.

Definition readableBytes (b : Buffer) : Z := u64 (writeIndex_ b - readIndex_ b).
Definition writableBytes (b : Buffer) : Z := u64 (len (buffer_ b) - writeIndex_ b).
Definition prependableBytes (b : Buffer) : Z := readIndex_ b.

(** [peek()]: the memory from the first readable byte to the end of the vector. *)
Definition peek (b : Buffer) : bytes := drop (Z.to_nat (readIndex_ b)) (buffer_ b).

(** [std::string(peek(), n)]. *)
Definition peekn (b : Buffer) (n : Z) : option bytes := slice (buffer_ b) (readIndex_ b) n.

Definition retrieveAll (b : Buffer) : Buffer :=
  mkBuffer (buffer_ b) kCheapPrepend kCheapPrepend.

Definition retrieve (b : Buffer) (n : Z) : Buffer :=
  if n <? readableBytes b
  then mkBuffer (buffer_ b) (u64 (readIndex_ b + n)) (writeIndex_ b)
  else retrieveAll b.

Definition retrieveAsString (b : Buffer) (n : Z) : option (bytes * Buffer) :=
  let actualLen := Z.min n (readableBytes b) in
  result ← peekn b actualLen;
  Some (result, retrieve b actualLen).

Definition retrieveAllAsString (b : Buffer) : option (bytes * Buffer) :=
  retrieveAsString b (readableBytes b).

(** [buffer_.resize(n)]: truncate, or extend with zero bytes. *)
Definition resize (l : bytes) (n : Z) : bytes :=
  take (Z.to_nat n) l ++ replicate (Z.to_nat n - length l) x00.

Definition makeSpace (b : Buffer) (n : Z) : option Buffer :=
  if u64 (writableBytes b + prependableBytes b) <? u64 (n + kCheapPrepend) then
    Some (mkBuffer (resize (buffer_ b) (u64 (writeIndex_ b + n))) (readIndex_ b) (writeIndex_ b))
  else
    let readable := readableBytes b in
    data ← slice (buffer_ b) (readIndex_ b) (writeIndex_ b - readIndex_ b);
    buf ← store (buffer_ b) kCheapPrepend data;
    Some (mkBuffer buf kCheapPrepend (u64 (kCheapPrepend + readable))).

Definition ensureWritableBytes (b : Buffer) (n : Z) : option Buffer :=
  if writableBytes b <? n then makeSpace b n else Some b.

Definition append (b : Buffer) (data : bytes) : option Buffer :=
  b ← ensureWritableBytes b (len data);
  buf ← store (buffer_ b) (writeIndex_ b) data;
  Some (mkBuffer buf (readIndex_ b) (u64 (writeIndex_ b + len data))).

(** The result of a [read]/[readv] system call: the bytes delivered (none at
    end of file), or [errno]. *)
Inductive io_result (A : Type) :=
| IoErr (errno : Z)
| IoOk (x : A).
Arguments IoErr {A}.
Arguments IoOk {A}.

Definition extrabuf_size : Z := 65536.

(** How many bytes [readCore] offers to [readv]: the writable region, plus the
    64 KiB stack buffer when the region is smaller than that. *)
Definition readCapacity (b : Buffer) : Z :=
  let writable := writableBytes b in
  if writable <? extrabuf_size then writable + extrabuf_size else writable.

(** [readCore]: [rd] is what the kernel answers to the [readv] on the two-element
    vector; the return value is the [ssize_t], the buffer and [*savedErrno].  The
    bytes that do not fit in the writable region are read back from [extrabuf],
    which has no more than 64 KiB. *)
Definition readCore (b : Buffer) (rd : io_result bytes) (savedErrno : Z)
  : option (Z * Buffer * Z) :=
  match rd with
  | IoErr e => Some (-1, b, e)
  | IoOk data =>
      let n := len data in
      let writable := writableBytes b in
      if n <=? writable then
        buf ← store (buffer_ b) (writeIndex_ b) data;
        Some (n, mkBuffer buf (readIndex_ b) (u64 (writeIndex_ b + n)), savedErrno)
      else
        buf ← store (buffer_ b) (writeIndex_ b) (take (Z.to_nat writable) data);
        guard (n - writable <= extrabuf_size);;
        b' ← append (mkBuffer buf (readIndex_ b) (len buf)) (drop (Z.to_nat writable) data);
        Some (n, b', savedErrno)
  end.

(** [writeCore]: [write] is the system call (or [Socket::write]) on the file [k]; it
    is handed the [readableBytes()] bytes at [peek()]. *)
Definition writeCore {K} (write : bytes -> K -> io_result Z * K) (b : Buffer) (savedErrno : Z) (k : K)
  : option (Z * Buffer * Z * K) :=
  data ← slice (peek b) 0 (readableBytes b);
  let '(r, k) := write data k in
  match r with
  | IoErr e => Some (-1, b, e, k)
  | IoOk n => Some (n, retrieve b n, savedErrno, k)
  end.

(** [std::search(peek(), peek() + readable, "\r\n", "\r\n" + 2)] as the offset
    of the first match. *)
Fixpoint search_crlf (l : bytes) : option Z :=
  match l with
  | x0d :: x0a :: _ => Some 0
  | _ :: l' => Z.succ <$> search_crlf l'
  | [] => None
  end.

Definition findCRLF (b : Buffer) : option (option Z) :=
  data ← peekn b (readableBytes b); Some (search_crlf data).

(** ** Abstraction and invariant *)

(** The queue of unread bytes. *)
Definition contents (b : Buffer) : bytes :=
  take (Z.to_nat (writeIndex_ b - readIndex_ b)) (drop (Z.to_nat (readIndex_ b)) (buffer_ b)).

Definition buffer_wf (b : Buffer) : Prop :=
  kCheapPrepend <= readIndex_ b <= writeIndex_ b /\ writeIndex_ b <= len (buffer_ b) < 2 ^ 63.

(** Every well-formed buffer is [prependable ++ readable ++ writable]; the proofs
    below work on that view. *)
Definition layout (a c d : bytes) : Buffer := mkBuffer (a ++ c ++ d) (len a) (len a + len c).

Lemma buffer_view b :
  buffer_wf b -> exists a d, b = layout a (contents b) d /\
    kCheapPrepend <= len a /\ len a + len (contents b) + len d < 2 ^ 63.
Proof.
  destruct b as [buf r w]. unfold buffer_wf, contents, layout, kCheapPrepend; simpl. intros H.
  exists (take (Z.to_nat r) buf), (drop (Z.to_nat w) buf).
  assert (drop (Z.to_nat r) buf =
    take (Z.to_nat (w - r)) (drop (Z.to_nat r) buf) ++ drop (Z.to_nat w) buf) as E.
  { rewrite <- (take_drop (Z.to_nat (w - r)) (drop (Z.to_nat r) buf)) at 1.
    rewrite drop_drop. repeat f_equal. lia. }
  split; [|solve_len]. f_equal; [|solve_len..].
  rewrite <- E. by rewrite take_drop.
Qed.

Lemma layout_contents a c d : contents (layout a c d) = c.
Proof.
  unfold contents, layout; simpl. rewrite drop_app_length' by solve_len.
  by rewrite take_app_length' by solve_len.
Qed.

Lemma layout_wf a c d :
  kCheapPrepend <= len a -> len a + len c + len d < 2 ^ 63 -> buffer_wf (layout a c d).
Proof. unfold buffer_wf, layout, kCheapPrepend; simpl. solve_len. Qed.

Lemma layout_eq a c d b :
  buffer_ b = a ++ c ++ d -> readIndex_ b = len a -> writeIndex_ b = len a + len c ->
  b = layout a c d.
Proof. destruct b; simpl. intros -> -> ->. done. Qed.

Section layout_ops.
Context (a c d : bytes) (Hd : len a + len c + len d < 2 ^ 63).

Lemma layout_readable : readableBytes (layout a c d) = len c.
Proof. unfold readableBytes, layout; simpl. rewrite u64_small; solve_len. Qed.

Lemma layout_writable : writableBytes (layout a c d) = len d.
Proof. unfold writableBytes, layout; simpl. rewrite u64_small; solve_len. Qed.

Lemma layout_peekn n :
  0 <= n <= len c -> peekn (layout a c d) n = Some (take (Z.to_nat n) c).
Proof.
  intros Hn. unfold peekn, layout; simpl. rewrite slice_Some by solve_len.
  rewrite drop_app_length' by solve_len. by rewrite take_app_le by solve_len.
Qed.

End layout_ops.

Lemma readable_contents b : buffer_wf b -> readableBytes b = len (contents b).
Proof.
  intros H. destruct (buffer_view b H) as (a & d & E & _ & ?).
  rewrite E at 1. by rewrite layout_readable.
Qed.

Lemma peekn_contents b n :
  buffer_wf b -> 0 <= n <= readableBytes b -> peekn b n = Some (take (Z.to_nat n) (contents b)).
Proof.
  intros H. destruct (buffer_view b H) as (a & d & E & _ & ?).
  rewrite readable_contents by done. intros. rewrite E at 1. by apply layout_peekn.
Qed.

Lemma peek_contents b :
  buffer_wf b -> exists d, peek b = contents b ++ d.
Proof.
  intros H. destruct (buffer_view b H) as (a & d & E & _ & ?). exists d.
  rewrite E at 1. unfold peek, layout; simpl. rewrite drop_app_length' by solve_len. done.
Qed.

Lemma retrieveAll_spec b : buffer_wf b -> buffer_wf (retrieveAll b) /\ contents (retrieveAll b) = [].
Proof.
  unfold buffer_wf, retrieveAll, contents, kCheapPrepend; simpl. split; [lia|].
  by rewrite Z.sub_diag.
Qed.

Lemma retrieve_spec b n :
  buffer_wf b -> 0 <= n ->
  buffer_wf (retrieve b n) /\ contents (retrieve b n) = drop (Z.to_nat n) (contents b) /\
  buffer_ (retrieve b n) = buffer_ b.
Proof.
  intros H Hn. unfold retrieve. rewrite readable_contents by done.
  destruct (Z.ltb_spec n (len (contents b))) as [Hlt|Hge].
  - assert (len (contents b) = writeIndex_ b - readIndex_ b) as El.
    { unfold contents, buffer_wf, kCheapPrepend in *. solve_len. }
    unfold buffer_wf, kCheapPrepend in *. simpl.
    rewrite u64_small by lia. split; [lia|]. split; [|done].
    unfold contents; simpl. rewrite skipn_firstn_comm, drop_drop.
    f_equal; [lia|f_equal; lia].
  - destruct (retrieveAll_spec b H) as [? ->]. split; [done|]. split; [|done].
    symmetry. apply drop_ge. solve_len.
Qed.

(** [resize] keeps the bytes that fit and never cuts the readable region when it
    grows. *)
Lemma resize_grow l n :
  len l <= n -> resize l n = l ++ replicate (Z.to_nat n - length l) x00.
Proof. intros H. unfold resize. rewrite take_ge; [done|]. solve_len. Qed.

Lemma makeSpace_spec b n :
  buffer_wf b -> writableBytes b < n -> len (buffer_ b) + n < 2 ^ 63 ->
  exists b', makeSpace b n = Some b' /\ buffer_wf b' /\ contents b' = contents b /\
    n <= writableBytes b' /\
    len (buffer_ b') <= Z.max (len (buffer_ b)) (len (contents b) + 2 * n + kCheapPrepend).
Proof.
  intros H. destruct (buffer_view b H) as (a & d & E & Ha & Hlen).
  set (c := contents b) in *. rewrite E. clearbody c. clear E H b.
  rewrite layout_writable by done. intros Hn Hsz. cbn [buffer_ layout] in *.
  unfold makeSpace. rewrite layout_writable by done.
  pose proof (len_nonneg d); pose proof (len_nonneg c). unfold kCheapPrepend in *.
  cbn [prependableBytes readIndex_ writeIndex_ buffer_ layout].
  rewrite !u64_small by solve_len.
  destruct (Z.ltb_spec (len d + len a) (n + 8)) as [Hg|Hg].
  - rewrite resize_grow by solve_len.
    eexists (layout a c (d ++ replicate _ x00)). split.
    { f_equal. apply layout_eq; cbn [buffer_ readIndex_ writeIndex_]; [by rewrite <- !app_assoc|done..]. }
    rewrite layout_contents, layout_writable by solve_len.
    split; [apply layout_wf; unfold kCheapPrepend; solve_len|]. split; [done|]. cbn [buffer_ layout]. solve_len.
  - rewrite (slice_app a c d) by lia. cbn [mbind option_bind].
    unfold store. zbool; [|solve_len..].
    eexists (layout (take 8 (a ++ c ++ d)) c (drop (Z.to_nat (8 + len c)) (a ++ c ++ d))). split.
    { f_equal. rewrite layout_readable, u64_small by solve_len.
      apply layout_eq; cbn [buffer_ readIndex_ writeIndex_]; [done|solve_len..]. }
    rewrite layout_contents, layout_writable by solve_len.
    split; [apply layout_wf; unfold kCheapPrepend; solve_len|]. split; [done|]. cbn [buffer_ layout]. solve_len.
Qed.

Lemma store_writable b data :
  buffer_wf b -> len data <= writableBytes b ->
  exists buf, store (buffer_ b) (writeIndex_ b) data = Some buf /\ len buf = len (buffer_ b) /\
    forall b', buffer_ b' = buf -> readIndex_ b' = readIndex_ b ->
      writeIndex_ b' = writeIndex_ b + len data ->
      buffer_wf b' /\ contents b' = contents b ++ data.
Proof.
  intros H. destruct (buffer_view b H) as (a & d & E & Ha & Hlen).
  set (c := contents b) in *. rewrite E. clearbody c. clear E H b.
  rewrite layout_writable by done. intros Hn. cbn [buffer_ readIndex_ writeIndex_ layout].
  rewrite <- (take_drop (length data) d), !(app_assoc _ _ (_ ++ _)), store_app by solve_len.
  eexists; split; [done|]. split; [solve_len|]. intros b' Hb Hr Hw.
  assert (b' = layout a (c ++ data) (drop (length data) d)) as ->.
  { apply layout_eq; rewrite ?Hb, ?Hr, ?Hw; [by rewrite <- !app_assoc|done|solve_len]. }
  rewrite layout_contents. split; [apply layout_wf; solve_len|done].
Qed.

Lemma ensureWritableBytes_spec b n :
  buffer_wf b -> 0 <= n -> len (buffer_ b) + n < 2 ^ 63 ->
  exists b', ensureWritableBytes b n = Some b' /\ buffer_wf b' /\ contents b' = contents b /\
    n <= writableBytes b' /\
    len (buffer_ b') <= Z.max (len (buffer_ b)) (len (contents b) + 2 * n + kCheapPrepend).
Proof.
  intros H Hn Hsz. unfold ensureWritableBytes.
  destruct (Z.ltb_spec (writableBytes b) n); [by apply makeSpace_spec|].
  exists b. split_and!; try done. lia.
Qed.

(** [append] is enqueue: it never writes outside the vector, keeps the
    layout invariant, adds exactly the given bytes behind the unread ones, and
    grows the vector at most to the unread bytes plus twice the appended ones
    plus the prepend area. *)
Lemma append_spec b data :
  buffer_wf b -> len (buffer_ b) + len data < 2 ^ 63 ->
  exists b', append b data = Some b' /\ buffer_wf b' /\ contents b' = contents b ++ data /\
    len (buffer_ b') <= Z.max (len (buffer_ b)) (len (contents b) + 2 * len data + kCheapPrepend).
Proof.
  intros H Hsz. pose proof (len_nonneg data).
  destruct (ensureWritableBytes_spec b (len data)) as (b1 & E1 & H1 & C1 & W1 & L1); [done..|].
  destruct (store_writable b1 data H1 W1) as (buf & E2 & L2 & K).
  unfold append. rewrite E1; cbn [mbind option_bind]. rewrite E2; cbn [mbind option_bind].
  eexists; split; [done|]. rewrite <- L2 in L1.
  assert (writeIndex_ b1 + len data < 2 ^ 64) by
    (unfold buffer_wf, writableBytes in *; rewrite u64_small in W1; unfold kCheapPrepend in *; lia).
  edestruct (K (mkBuffer buf (readIndex_ b1) (u64 (writeIndex_ b1 + len data)))) as [??]; [done..| |].
  { cbn. apply u64_small. unfold buffer_wf, kCheapPrepend in *; lia. }
  by rewrite C1 in *.
Qed.

(** [readCore] enqueues exactly what the kernel delivered, whether the bytes
    fit in the writable region or spill into the 64 KiB stack buffer, for any
    delivery within the capacity offered to [readv]; an error leaves the buffer
    as it was and stores [errno]. *)
Lemma readCore_spec b rd e0 :
  buffer_wf b ->
  match rd with
  | IoErr e => readCore b rd e0 = Some (-1, b, e)
  | IoOk data => len data <= readCapacity b -> len (buffer_ b) + len data < 2 ^ 63 ->
      exists b', readCore b rd e0 = Some (len data, b', e0) /\ buffer_wf b' /\
        contents b' = contents b ++ data
  end.
Proof.
  intros H. destruct rd as [e|data]; [done|]. intros Hcap Hsz. unfold readCore.
  destruct (Z.leb_spec (len data) (writableBytes b)) as [Hle|Hgt].
  - destruct (store_writable b data H Hle) as (buf & -> & L & K). cbn [mbind option_bind].
    eexists; split; [done|]. apply K; try done. cbn. apply u64_small.
    unfold buffer_wf, kCheapPrepend in *. pose proof (len_nonneg data). lia.
  - assert (0 <= writableBytes b) by (apply Z.mod_pos_bound; lia).
    destruct (store_writable b (take (Z.to_nat (writableBytes b)) data) H) as (buf & -> & L & K);
      [solve_len|]. cbn [mbind option_bind].
    assert (writableBytes b = len (buffer_ b) - writeIndex_ b) as Ew.
    { unfold writableBytes, buffer_wf, kCheapPrepend in *. apply u64_small; lia. }
    destruct (K (mkBuffer buf (readIndex_ b) (len buf))) as [H1 C1]; [done..|cbn; solve_len|].
    assert (len data - writableBytes b <= extrabuf_size) as He.
    { unfold readCapacity in Hcap. revert Hcap. zbool; lia. }
    rewrite option_guard_True by done.
    destruct (append_spec _ (drop (Z.to_nat (writableBytes b)) data) H1) as (b' & -> & H2 & C2 & _);
      [cbn; solve_len|].
    cbn [mbind option_bind]. eexists; split; [done|]. split; [done|].
    rewrite C2, C1, <- app_assoc, take_drop. done.
Qed.

Lemma retrieveAsString_spec b n :
  buffer_wf b -> 0 <= n ->
  exists b', retrieveAsString b n = Some (take (Z.to_nat n) (contents b), b') /\
    buffer_wf b' /\ contents b' = drop (Z.to_nat n) (contents b).
Proof.
  intros H Hn. unfold retrieveAsString. pose proof (len_nonneg (contents b)).
  rewrite readable_contents by done.
  rewrite (peekn_contents b _ H) by (rewrite ?(readable_contents b H); lia). cbn [mbind option_bind].
  destruct (retrieve_spec b (Z.min n (len (contents b)))) as (H1 & C1 & _); [done|lia|].
  rewrite take_min_len by done. eexists; split; [done|]. split; [done|].
  by rewrite C1, drop_min_len by done.
Qed.

Lemma retrieveAllAsString_spec b :
  buffer_wf b -> exists b', retrieveAllAsString b = Some (contents b, b') /\
    buffer_wf b' /\ contents b' = [].
Proof.
  intros H. unfold retrieveAllAsString. rewrite readable_contents by done.
  destruct (retrieveAsString_spec b (len (contents b))) as (b' & -> & Hb & C); [done|apply len_nonneg|].
  exists b'. unfold len in *. rewrite Nat2Z.id, firstn_all, drop_all in *. done.
Qed.

Lemma peek_slice b n :
  buffer_wf b -> 0 <= n <= readableBytes b -> slice (peek b) 0 n = Some (take (Z.to_nat n) (contents b)).
Proof.
  intros H. destruct (peek_contents b H) as [d ->]. rewrite readable_contents by done. intros Hn.
  rewrite slice_Some by solve_len. by rewrite drop_0, take_app_le by solve_len.
Qed.

Lemma peek_readable b : buffer_wf b -> slice (peek b) 0 (readableBytes b) = Some (contents b).
Proof.
  intros H. rewrite peek_slice, readable_contents by (rewrite ?readable_contents by done; solve_len || done).
  unfold len. by rewrite Nat2Z.id, firstn_all.
Qed.

(** [writeCore] hands the kernel the queue and removes what it took. *)
Lemma writeCore_spec {K} (write : bytes -> K -> io_result Z * K) b e0 k :
  buffer_wf b ->
  writeCore write b e0 k =
    let '(r, k') := write (contents b) k in
    match r with IoErr e => Some (-1, b, e, k') | IoOk n => Some (n, retrieve b n, e0, k') end.
Proof. intros H. unfold writeCore. by rewrite peek_readable. Qed.

(** ** Refinement: a [Buffer] is a FIFO queue of bytes *)

(** The calls a connection makes on its buffers, with the answers of the kernel
    for the two that do I/O. *)
Inductive buffer_op :=
| OpAppend (data : bytes)
| OpRetrieve (n : Z)
| OpRetrieveAll
| OpRetrieveAsString (n : Z)
| OpRetrieveAllAsString
| OpReadableBytes
| OpPeek (n : Z)
| OpFindCRLF
| OpReadFd (rd : io_result bytes)
| OpWriteFd (wr : io_result Z).

(** What the caller observes: a returned string or number, the bytes at [peek()],
    the offset found, an [ssize_t] with [errno]; and what the kernel observes of a
    write: the bytes it is handed. *)
Inductive buffer_obs :=
| ObsUnit
| ObsStr (s : bytes)
| ObsNum (n : Z)
| ObsPos (p : option Z)
| ObsRead (n errno : Z)
| ObsWrite (data : bytes) (n errno : Z).

Definition buffer_step (b : Buffer) (op : buffer_op) : option (buffer_obs * Buffer) :=
  match op with
  | OpAppend data => b' ← append b data; Some (ObsUnit, b')
  | OpRetrieve n => Some (ObsUnit, retrieve b n)
  | OpRetrieveAll => Some (ObsUnit, retrieveAll b)
  | OpRetrieveAsString n => '(s, b') ← retrieveAsString b n; Some (ObsStr s, b')
  | OpRetrieveAllAsString => '(s, b') ← retrieveAllAsString b; Some (ObsStr s, b')
  | OpReadableBytes => Some (ObsNum (readableBytes b), b)
  | OpPeek n => s ← slice (peek b) 0 n; Some (ObsStr s, b)
  | OpFindCRLF => p ← findCRLF b; Some (ObsPos p, b)
  | OpReadFd rd => '(n, b', e) ← readCore b rd 0; Some (ObsRead n e, b')
  | OpWriteFd wr =>
      '(n, b', e, handed) ← writeCore (fun data _ => (wr, data)) b 0 [];
      Some (ObsWrite handed n e, b')
  end.

Fixpoint buffer_run (b : Buffer) (ops : list buffer_op) : option (list buffer_obs * Buffer) :=
  match ops with
  | [] => Some ([], b)
  | op :: ops => '(o, b') ← buffer_step b op; '(os, b'') ← buffer_run b' ops; Some (o :: os, b'')
  end.

(** The specification: the same calls on a list of unread bytes. *)
Module Queue.
Definition step (q : bytes) (op : buffer_op) : buffer_obs * bytes :=
  match op with
  | OpAppend data => (ObsUnit, q ++ data)
  | OpRetrieve n => (ObsUnit, drop (Z.to_nat n) q)
  | OpRetrieveAll => (ObsUnit, [])
  | OpRetrieveAsString n => (ObsStr (take (Z.to_nat n) q), drop (Z.to_nat n) q)
  | OpRetrieveAllAsString => (ObsStr q, [])
  | OpReadableBytes => (ObsNum (len q), q)
  | OpPeek n => (ObsStr (take (Z.to_nat n) q), q)
  | OpFindCRLF => (ObsPos (search_crlf q), q)
  | OpReadFd (IoErr e) => (ObsRead (-1) e, q)
  | OpReadFd (IoOk data) => (ObsRead (len data) 0, q ++ data)
  | OpWriteFd (IoErr e) => (ObsWrite q (-1) e, q)
  | OpWriteFd (IoOk n) => (ObsWrite q n 0, drop (Z.to_nat n) q)
  end.

Fixpoint run (q : bytes) (ops : list buffer_op) : list buffer_obs * bytes :=
  match ops with
  | [] => ([], q)
  | op :: ops => let '(o, q') := step q op in let '(os, q'') := run q' ops in (o :: os, q'')
  end.
End Queue.

(** The contract of the calls: non-negative lengths, no look past the readable bytes, a kernel that never delivers
    more than it was offered nor takes more than it was given, and an allocation
    below the vector's [max_size]. *)
Definition op_ok (b : Buffer) (op : buffer_op) : Prop :=
  match op with
  | OpAppend data => len (buffer_ b) + len data < 2 ^ 63
  | OpRetrieve n | OpRetrieveAsString n => 0 <= n
  | OpPeek n => 0 <= n <= readableBytes b
  | OpReadFd (IoOk data) => len data <= readCapacity b /\ len (buffer_ b) + len data < 2 ^ 63
  | OpWriteFd (IoOk n) => 0 <= n <= readableBytes b
  | OpRetrieveAll | OpRetrieveAllAsString | OpReadableBytes | OpFindCRLF | OpReadFd (IoErr _) | OpWriteFd (IoErr _) => True
  end.

Fixpoint ops_ok (b : Buffer) (ops : list buffer_op) : Prop :=
  match ops with
  | [] => True
  | op :: ops => op_ok b op /\ forall o b', buffer_step b op = Some (o, b') -> ops_ok b' ops
  end.

Lemma buffer_step_refines b op :
  buffer_wf b -> op_ok b op ->
  exists o b', buffer_step b op = Some (o, b') /\ buffer_wf b' /\
    Queue.step (contents b) op = (o, contents b').
Proof.
  intros H Hop. destruct op as [data|n| |n| | |n| |[e|data]|[e|n]]; cbn [buffer_step Queue.step op_ok] in *.
  - destruct (append_spec b data H Hop) as (b' & -> & ? & <- & _). eauto.
  - destruct (retrieve_spec b n H Hop) as (? & <- & _). eauto.
  - destruct (retrieveAll_spec b H) as [? E]. rewrite <- E. eauto.
  - destruct (retrieveAsString_spec b n H Hop) as (b' & -> & ? & <-). simpl. eauto.
  - destruct (retrieveAllAsString_spec b H) as (b' & -> & ? & <-). simpl. eauto.
  - rewrite readable_contents by done. eauto.
  - rewrite peek_slice by done. simpl. eauto.
  - unfold findCRLF. rewrite peekn_contents by (rewrite ?readable_contents by done; solve_len || done).
    rewrite readable_contents by done. unfold len. rewrite Nat2Z.id, firstn_all. simpl. eauto.
  - simpl. eauto.
  - destruct (readCore_spec b (IoOk data) 0 H) as (b' & E & ? & <-); [apply Hop..|].
    cbn [readCore] in *. rewrite E. simpl. eauto.
  - rewrite writeCore_spec by done. simpl. eauto.
  - rewrite writeCore_spec by done. destruct (retrieve_spec b n H) as (? & <- & _); [lia|]. simpl. eauto.
Qed.

(** C6: The buffer refines a FIFO byte queue: along every sequence of calls that
    respects the contract, no call reads or writes outside the vector, the
    layout invariant holds throughout, the caller observes exactly what a queue of
    bytes would answer, and a write hands the kernel exactly the queued bytes. *)
Theorem buffer_refines_queue ops b :
  buffer_wf b -> ops_ok b ops ->
  exists os b', buffer_run b ops = Some (os, b') /\ buffer_wf b' /\
    Queue.run (contents b) ops = (os, contents b').
Proof.
  revert b. induction ops as [|op ops IH]; intros b H Hops; simpl; [eauto|].
  destruct Hops as [Hop Hops].
  destruct (buffer_step_refines b op H Hop) as (o & b1 & E1 & H1 & ->).
  destruct (IH b1 H1 (Hops _ _ E1)) as (os & b2 & E2 & H2 & ->).
  rewrite E1; simpl. rewrite E2; simpl. eauto.
Qed.

Lemma buffer_refines_queue_witness :
  exists os b, buffer_run (Buffer_new 4) [OpAppend (str "hello world"); OpRetrieve 6; OpRetrieveAsString 2; OpWriteFd (IoErr 11)]
      = Some (os, b) /\
    Queue.run [] [OpAppend (str "hello world"); OpRetrieve 6; OpRetrieveAsString 2; OpWriteFd (IoErr 11)] = (os, contents b) /\
    contents b = str "rld".
Proof.
  destruct (buffer_refines_queue [OpAppend (str "hello world"); OpRetrieve 6; OpRetrieveAsString 2; OpWriteFd (IoErr 11)]
              (Buffer_new 4)) as (os & b & E & _ & Q).
  - vm_compute. intuition congruence.
  - cbn [ops_ok op_ok]. split; [by vm_compute|]. intros o b E. split; [lia|].
    intros o' b' E'. split; [lia|]. auto.
  - exists os, b. split; [exact E|]. split; [exact Q|]. by vm_compute in Q; injection Q.
Defined.

Lemma Buffer_new_wf n : 0 <= n < 2 ^ 62 -> buffer_wf (Buffer_new n) /\ contents (Buffer_new n) = [].
Proof.
  intros Hn. unfold Buffer_new, buffer_wf, contents, kCheapPrepend; simpl.
  rewrite u64_small by lia. split; [|by rewrite Z.sub_diag]. solve_len.
Qed.

Lemma Buffer_new_size : len (buffer_ (Buffer_new kInitialSize)) = 1032.
Proof. by vm_compute. Qed.
