(* ===== verification/FrameReader.v ===== *)
(** * FrameReader: splitting a TCP byte stream into RFC-0001 frames

    [rpc/include/rpc/frame_reader.h] and [rpc/src/frame_reader.cpp]. *)
From S2P Require Import Prelude Protocol Buffer.

Inductive ParseResult := kOk | kNeedMore | kProtocolError.

#[global] Instance ParseResult_eq_dec : EqDecision ParseResult.
Proof. solve_decision. Defined.

Definition kDefaultMaxFrameSize : Z := 4 * 1024 * 1024.

Record FrameReader := mkFrameReader { maxFrameSize_ : Z }.

Definition setMaxFrameSize (maxFrameSize : Z) : FrameReader :=
  mkFrameReader (Z.max maxFrameSize kHeaderSize).

Definition FrameReader_new (maxFrameSize : Z) : FrameReader := setMaxFrameSize maxFrameSize.

(** [parse buf header body]: a [None] argument is [nullptr]; the outer [None] of
    the result is an access outside the buffer.  The triple holds the pointees
    after the call. *)
Definition parse (fr : FrameReader) (buf : option Buffer) (header : option MessageHeader)
    (body : option bytes)
  : option (ParseResult * (option Buffer * option MessageHeader * option bytes)) :=
  match buf, header, body with
  | Some b, Some _, Some _ =>
      let readable := readableBytes b in
      if readable <? kHeaderSize then Some (kNeedMore, (buf, header, body)) else
      '(ok, candidate) ← decodeHeader (Some (peek b)) readable (Some zeroHeader);
      if negb ok then Some (kProtocolError, (buf, header, body)) else
      candidate ← candidate;
      let maxBodyForFrame := u64 (maxFrameSize_ fr - kHeaderSize) in
      let maxBody := Z.min maxBodyForFrame kMaxBodyLen in
      if maxBody <? bodyLen candidate then Some (kProtocolError, (buf, header, body)) else
      let frameSize := u64 (kHeaderSize + bodyLen candidate) in
      if readable <? frameSize then Some (kNeedMore, (buf, header, body)) else
      body' ← slice (peek b) kHeaderSize (bodyLen candidate);
      Some (kOk, (Some (retrieve b frameSize), Some candidate, Some body'))
  | _, _, _ => Some (kProtocolError, (buf, header, body))
  end.

(** ** Specification on the unread bytes *)

(** The largest body a reader accepts. *)
Definition bodyLimit (fr : FrameReader) : Z :=
  Z.min (maxFrameSize_ fr - kHeaderSize) kMaxBodyLen.

Definition reader_wf (fr : FrameReader) : Prop := kHeaderSize <= maxFrameSize_ fr < 2 ^ 64.

Definition frame : Type := MessageHeader * bytes.

Inductive frame_result :=
| FNeedMore
| FError
| FOk (f : frame) (rest : bytes).

(** What [parse] computes, as a function of the unread bytes alone. *)
Definition parse_bytes (fr : FrameReader) (s : bytes) : frame_result :=
  if len s <? kHeaderSize then FNeedMore else
  match decodeHeader (Some s) (len s) (Some zeroHeader) with
  | Some (true, Some h) =>
      if bodyLimit fr <? bodyLen h then FError
      else if len s <? kHeaderSize + bodyLen h then FNeedMore
      else FOk (h, take (Z.to_nat (bodyLen h)) (drop 16 s)) (drop (Z.to_nat (16 + bodyLen h)) s)
  | _ => FError
  end.

(** The bytes of a frame as a sender writes them. *)
Definition frame_bytes (f : frame) : bytes := encodeHeader f.1 ++ f.2.

#[global] Arguments frame_bytes : simpl never.

(** A frame a well-behaved sender emits and the reader accepts. *)
Definition frame_ok (fr : FrameReader) (f : frame) : Prop :=
  header_wf f.1 /\ magic f.1 = kMagic /\ bodyLen f.1 = len f.2 /\ len f.2 <= bodyLimit fr.

(** [decodeHeader] only looks at the first sixteen bytes. *)
Lemma decodeHeader_prefix s t n m o :
  kHeaderSize <= n -> kHeaderSize <= m -> kHeaderSize <= len s ->
  decodeHeader (Some (s ++ t)) n (Some o) = decodeHeader (Some s) m (Some o).
Proof.
  unfold kHeaderSize. intros Hn Hm Hs. unfold decodeHeader, getU16, getU32, kHeaderSize.
  rewrite !(proj2 (Z.ltb_ge _ 16)) by lia. by rewrite !at_app_lt by lia.
Qed.

Lemma setMaxFrameSize_wf n : 0 <= n < 2 ^ 64 -> reader_wf (setMaxFrameSize n).
Proof. unfold reader_wf, setMaxFrameSize, kHeaderSize; simpl. lia. Qed.

(** [parse] on a buffer is [parse_bytes] on its unread bytes: nothing is consumed
    unless a whole frame is there, and then exactly that frame is. *)
Lemma parse_refines fr b h0 body0 :
  reader_wf fr -> buffer_wf b ->
  match parse_bytes fr (contents b) with
  | FNeedMore => parse fr (Some b) (Some h0) (Some body0) = Some (kNeedMore, (Some b, Some h0, Some body0))
  | FError => parse fr (Some b) (Some h0) (Some body0) = Some (kProtocolError, (Some b, Some h0, Some body0))
  | FOk (h, body) rest => exists b',
      parse fr (Some b) (Some h0) (Some body0) = Some (kOk, (Some b', Some h, Some body)) /\
      buffer_wf b' /\ contents b' = rest /\ buffer_ b' = buffer_ b
  end.
Proof.
  intros Hfr Hb. unfold parse, parse_bytes, bodyLimit. rewrite readable_contents by done.
  destruct (peek_contents b Hb) as [d Hd].
  assert (len (contents b) < 2 ^ 63).
  { destruct (buffer_view b Hb) as (? & ? & _ & _ & ?). solve_len. }
  destruct (Z.ltb_spec (len (contents b)) kHeaderSize) as [|Hs]; [done|].
  rewrite Hd, (decodeHeader_prefix _ _ _ (len (contents b))) by done.
  destruct (decodeHeader_some (contents b) zeroHeader Hs) as [->|(h & -> & Hh & _)]; [done|].
  cbn [mbind option_bind negb]. unfold reader_wf in Hfr. rewrite u64_small by (unfold kHeaderSize in *; lia).
  destruct (Z.ltb_spec (Z.min (maxFrameSize_ fr - kHeaderSize) kMaxBodyLen) (bodyLen h)) as [|Hl]; [done|].
  assert (0 <= bodyLen h) by apply Hh.
  rewrite u64_small by (unfold kMaxBodyLen, kHeaderSize in *; lia).
  destruct (Z.ltb_spec (len (contents b)) (kHeaderSize + bodyLen h)); [done|].
  unfold kHeaderSize in *. rewrite slice_Some by solve_len. cbn [mbind option_bind].
  rewrite drop_app_le, take_app_le by solve_len.
  destruct (retrieve_spec b (16 + bodyLen h) Hb ltac:(lia)) as (? & ? & ?).
  eexists; split; [done|]. done.
Qed.

(** ** Streams: segmentation does not matter *)

(** A verdict other than "need more" does not change when more bytes arrive. *)
Lemma parse_bytes_app fr s t :
  match parse_bytes fr s with
  | FNeedMore => True
  | FError => parse_bytes fr (s ++ t) = FError
  | FOk f rest => parse_bytes fr (s ++ t) = FOk f (rest ++ t)
  end.
Proof.
  unfold parse_bytes. destruct (Z.ltb_spec (len s) kHeaderSize) as [|Hs]; [done|].
  rewrite (proj2 (Z.ltb_ge (len (s ++ t)) kHeaderSize)) by (unfold kHeaderSize in *; solve_len).
  rewrite (decodeHeader_prefix s t _ (len s)) by (unfold kHeaderSize in *; solve_len).
  destruct (decodeHeader_some s zeroHeader Hs) as [->|(h & -> & Hh & _)]; [done|].
  destruct (Z.ltb_spec (bodyLimit fr) (bodyLen h)); [done|].
  destruct (Z.ltb_spec (len s) (kHeaderSize + bodyLen h)); [done|].
  assert (0 <= bodyLen h) by apply Hh. unfold kHeaderSize in *.
  rewrite (proj2 (Z.ltb_ge _ _)) by solve_len.
  rewrite drop_app_le, take_app_le, drop_app_le by solve_len. done.
Qed.

(** A complete frame is consumed whole and makes progress. *)
Lemma parse_bytes_ok fr s h body rest :
  parse_bytes fr s = FOk (h, body) rest ->
  header_wf h /\ magic h = kMagic /\ len body = bodyLen h /\ len body <= bodyLimit fr /\
  exists reserved, s = <[7%nat := reserved]> (encodeHeader h) ++ body ++ rest.
Proof.
  unfold parse_bytes. destruct (Z.ltb_spec (len s) kHeaderSize) as [|Hs]; [done|].
  destruct (decodeHeader_some s zeroHeader Hs) as [->|(h' & E & Hh & Hm)]; [done|].
  rewrite E. destruct (Z.ltb_spec (bodyLimit fr) (bodyLen h')); [done|].
  destruct (Z.ltb_spec (len s) (kHeaderSize + bodyLen h')); [done|].
  intros [= -> <- <-]. assert (0 <= bodyLen h) by apply Hh. unfold kHeaderSize in *.
  destruct (encode_decodeHeader s (len s) zeroHeader h) as (_ & _ & r & rest & Es); [lia|done|].
  assert (length (<[7%nat := r]> (encodeHeader h)) = 16%nat) as L by by rewrite length_insert.
  split_and!; [done|done|solve_len|solve_len|].
  exists r. rewrite Es at 1. f_equal.
  assert (drop 16 s = rest) as E16 by (rewrite Es; apply drop_app_length'; lia).
  replace (Z.to_nat (16 + bodyLen h)) with (16 + Z.to_nat (bodyLen h))%nat by lia.
  by rewrite <- drop_drop, E16, take_drop.
Qed.

(** What a reader extracts from a finite stream: the frames in order, and how it
    ends.  [fuel] bounds the number of frames; every frame has at least sixteen
    bytes, so the length of the stream is enough. *)
Inductive stream_end :=
| EndNeedMore (rest : bytes)
| EndError (rest : bytes)
| EndFuel.

Fixpoint stream (fuel : nat) (fr : FrameReader) (s : bytes) : list frame * stream_end :=
  match parse_bytes fr s with
  | FNeedMore => ([], EndNeedMore s)
  | FError => ([], EndError s)
  | FOk f rest =>
      match fuel with
      | O => ([], EndFuel)
      | S fuel => let '(fs, e) := stream fuel fr rest in (f :: fs, e)
      end
  end.

Definition stream_all (fr : FrameReader) (s : bytes) : list frame * stream_end :=
  stream (length s) fr s.

Lemma parse_bytes_shorter fr s f rest :
  parse_bytes fr s = FOk f rest -> (length rest + 16 <= length s)%nat.
Proof.
  destruct f as [h body]. intros H.
  destruct (parse_bytes_ok fr s h body rest H) as (_ & _ & _ & _ & r & ->).
  rewrite !length_app, length_insert. change (length (encodeHeader h)) with 16%nat. lia.
Qed.

(** More fuel than the length of the stream changes nothing. *)
Lemma stream_fuel fr s n m :
  (length s <= n)%nat -> (length s <= m)%nat -> stream n fr s = stream m fr s.
Proof.
  revert s m. induction n as [|n IH]; intros s m Hn Hm.
  - destruct s; [|simpl in Hn; lia]. by destruct m.
  - destruct (parse_bytes fr s) as [| |f rest] eqn:E.
    1-2: destruct m; simpl; by rewrite E.
    apply parse_bytes_shorter in E as L. destruct m as [|m]; [lia|].
    simpl. rewrite E, (IH rest m) by lia. done.
Qed.

Lemma stream_all_ok fr s f rest :
  parse_bytes fr s = FOk f rest ->
  stream_all fr s = (f :: (stream_all fr rest).1, (stream_all fr rest).2).
Proof.
  intros E. apply parse_bytes_shorter in E as L. unfold stream_all.
  destruct (length s) as [|n] eqn:Hl; [lia|]. simpl. rewrite E.
  rewrite (stream_fuel fr rest n (length rest)) by lia. by destruct (stream _ _ rest).
Qed.

Lemma stream_all_needmore fr s : parse_bytes fr s = FNeedMore -> stream_all fr s = ([], EndNeedMore s).
Proof. intros E. unfold stream_all. destruct (length s); simpl; by rewrite E. Qed.

Lemma stream_all_error fr s : parse_bytes fr s = FError -> stream_all fr s = ([], EndError s).
Proof. intros E. unfold stream_all. destruct (length s); simpl; by rewrite E. Qed.

(** Induction along the frames of a stream. *)
Lemma stream_ind fr (P : bytes -> Prop) :
  (forall s, parse_bytes fr s = FNeedMore -> P s) ->
  (forall s, parse_bytes fr s = FError -> P s) ->
  (forall s f rest, parse_bytes fr s = FOk f rest -> P rest -> P s) ->
  forall s, P s.
Proof.
  intros H1 H2 H3 s. remember (length s) as n eqn:En. revert s En.
  induction n as [n IH] using lt_wf_ind. intros s ->.
  destruct (parse_bytes fr s) as [| |f rest] eqn:E; [by apply H1|by apply H2|].
  apply (H3 s f rest E). apply (IH (length rest)); [|done].
  apply parse_bytes_shorter in E. lia.
Qed.

Lemma stream_all_no_fuel fr s : (stream_all fr s).2 <> EndFuel.
Proof.
  induction s as [s E|s E|s f rest E IH] using (stream_ind fr).
  - by rewrite stream_all_needmore.
  - by rewrite stream_all_error.
  - by rewrite (stream_all_ok _ _ _ _ E).
Qed.

(** What is left over is an incomplete frame, or starts with an invalid one. *)
Lemma stream_all_end fr s :
  match (stream_all fr s).2 with
  | EndNeedMore r => parse_bytes fr r = FNeedMore
  | EndError r => parse_bytes fr r = FError
  | EndFuel => False
  end.
Proof.
  induction s as [s E|s E|s f rest E IH] using (stream_ind fr).
  - by rewrite stream_all_needmore.
  - by rewrite stream_all_error.
  - by rewrite (stream_all_ok _ _ _ _ E).
Qed.

(** Extending a stream extends its frames. *)
Lemma stream_all_app fr s t :
  match stream_all fr s with
  | (fs, EndNeedMore r) =>
      stream_all fr (s ++ t) = (fs ++ (stream_all fr (r ++ t)).1, (stream_all fr (r ++ t)).2)
  | (fs, EndError r) => stream_all fr (s ++ t) = (fs, EndError (r ++ t))
  | (_, EndFuel) => False
  end.
Proof.
  induction s as [s E|s E|s f rest E IH] using (stream_ind fr).
  - rewrite stream_all_needmore by done. by destruct (stream_all fr (s ++ t)).
  - rewrite stream_all_error by done. pose proof (parse_bytes_app fr s t) as A.
    rewrite E in A. by rewrite stream_all_error.
  - rewrite (stream_all_ok _ _ _ _ E). pose proof (parse_bytes_app fr s t) as A.
    rewrite E in A. rewrite (stream_all_ok _ _ _ _ A).
    destruct (stream_all fr rest) as [fs [r|r|]]; simpl in *; by rewrite ?IH.
Qed.

(** The reader across reads: each chunk is appended to what the previous reads
    left over; after an error nothing more is read. *)
Fixpoint feed (fr : FrameReader) (pending : bytes) (chunks : list bytes) : list frame * stream_end :=
  match chunks with
  | [] => ([], EndNeedMore pending)
  | c :: cs =>
      match stream_all fr (pending ++ c) with
      | (fs, EndNeedMore r) => let '(fs', e) := feed fr r cs in (fs ++ fs', e)
      | res => res
      end
  end.

(** Two ends agree if both wait for more behind the same bytes, or both stop at
    an invalid frame (one may have read further behind it). *)
Definition end_agree (e1 e2 : stream_end) : Prop :=
  match e1, e2 with
  | EndNeedMore r1, EndNeedMore r2 => r1 = r2
  | EndError r1, EndError r2 => exists t, r2 = r1 ++ t
  | _, _ => False
  end.

Lemma feed_stream fr pending chunks :
  parse_bytes fr pending = FNeedMore ->
  (feed fr pending chunks).1 = (stream_all fr (pending ++ concat chunks)).1 /\
  end_agree (feed fr pending chunks).2 (stream_all fr (pending ++ concat chunks)).2.
Proof.
  revert pending. induction chunks as [|c cs IH]; intros pending E; cbn [feed concat].
  - by rewrite app_nil_r, stream_all_needmore.
  - rewrite app_assoc. pose proof (stream_all_app fr (pending ++ c) (concat cs)) as A.
    pose proof (stream_all_end fr (pending ++ c)) as N.
    destruct (stream_all fr (pending ++ c)) as [fs [r|r|]]; simpl in *; [|rewrite A; simpl; eauto|done].
    rewrite A. specialize (IH r N). destruct (feed fr r cs), (stream_all fr (r ++ concat cs)).
    simpl in *. destruct IH as [-> ?]. done.
Qed.

(** A sender's frames come back in order, whatever follows. *)
Lemma parse_frame_bytes fr f rest :
  frame_ok fr f -> parse_bytes fr (frame_bytes f ++ rest) = FOk f rest.
Proof.
  destruct f as [h body]. intros (Hh & Hm & Hl & Hb). cbn [fst snd] in *.
  unfold parse_bytes, frame_bytes; cbn [fst snd]. pose proof (len_nonneg body).
  assert (length (encodeHeader h) = 16%nat) as L by done.
  assert (kHeaderSize <= len ((encodeHeader h ++ body) ++ rest)) by (unfold kHeaderSize; solve_len).
  rewrite (proj2 (Z.ltb_ge _ _)) by done.
  rewrite <- app_assoc. rewrite <- app_assoc in H0.
  rewrite decode_encodeHeader by (done || lia).
  rewrite (proj2 (Z.ltb_ge _ _)) by lia.
  rewrite (proj2 (Z.ltb_ge _ _)) by (unfold kHeaderSize; solve_len).
  rewrite Hl. replace (Z.to_nat (16 + len body)) with (16 + length body)%nat by solve_len.
  rewrite <- drop_drop, drop_app_length' by done. unfold len.
  by rewrite Nat2Z.id, take_app_length, drop_app_length.
Qed.

Lemma stream_frames fr fs rest :
  Forall (frame_ok fr) fs ->
  stream_all fr (concat (frame_bytes <$> fs) ++ rest) =
    (fs ++ (stream_all fr rest).1, (stream_all fr rest).2).
Proof.
  induction 1 as [|f fs Hf _ IH]; [simpl; by destruct (stream_all fr rest)|].
  rewrite fmap_cons; cbn [concat]. rewrite <- app_assoc. rewrite (stream_all_ok _ _ _ _ (parse_frame_bytes _ _ _ Hf)), IH. done.
Qed.

(** [consumes fr s fs rest]: the reader takes the frames [fs] off [s] and stands
    before [rest]. *)
Fixpoint consumes (fr : FrameReader) (s : bytes) (fs : list frame) (rest : bytes) : Prop :=
  match fs with
  | [] => s = rest
  | f :: fs => exists s', parse_bytes fr s = FOk f s' /\ consumes fr s' fs rest
  end.

Lemma consumes_frames fr fs rest :
  Forall (frame_ok fr) fs -> consumes fr (concat (frame_bytes <$> fs) ++ rest) fs rest.
Proof.
  induction 1 as [|f fs Hf _ IH]; [done|]. exists (concat (frame_bytes <$> fs) ++ rest). split; [|done].
  rewrite fmap_cons; cbn [concat]. rewrite <- app_assoc. by apply parse_frame_bytes.
Qed.

Definition end_rest (e : stream_end) : bytes :=
  match e with EndNeedMore r | EndError r => r | EndFuel => [] end.

Lemma consumes_stream fr s : consumes fr s (stream_all fr s).1 (end_rest (stream_all fr s).2).
Proof.
  induction s as [s E|s E|s f rest E IH] using (stream_ind fr).
  - by rewrite stream_all_needmore.
  - by rewrite stream_all_error.
  - rewrite (stream_all_ok _ _ _ _ E). by exists rest.
Qed.

Lemma consumes_length fr s fs rest : consumes fr s fs rest -> (16 * length fs + length rest <= length s)%nat.
Proof.
  revert s. induction fs as [|f fs IH]; intros s; simpl; [intros ->; lia|].
  intros (s' & E & H). apply parse_bytes_shorter in E. apply IH in H. lia.
Qed.

Lemma consumes_app fr s fs1 fs2 rest :
  consumes fr s (fs1 ++ fs2) rest <-> exists mid, consumes fr s fs1 mid /\ consumes fr mid fs2 rest.
Proof.
  revert s. induction fs1 as [|f fs1 IH]; intros s; simpl; [naive_solver|].
  setoid_rewrite IH. naive_solver.
Qed.

Lemma feed_frames fr fs partial chunks :
  Forall (frame_ok fr) fs -> parse_bytes fr partial = FNeedMore ->
  concat chunks = concat (frame_bytes <$> fs) ++ partial ->
  feed fr [] chunks = (fs, EndNeedMore partial).
Proof.
  intros Hfs Hp Hc. destruct (feed_stream fr [] chunks) as [E1 E2]; [done|]. simpl in *.
  rewrite Hc, stream_frames, stream_all_needmore in E1, E2 by done. simpl in *.
  rewrite app_nil_r in E1. destruct (feed fr [] chunks) as [fs' [r|r|]]; simpl in *; by subst.
Qed.

(** ** The reader on a connection's buffer *)

(** The loop a protocol runs after every read: parse until no complete frame is
    left.  The result is the frames, the last verdict and the buffer. *)
Fixpoint parse_all (fuel : nat) (fr : FrameReader) (b : Buffer)
  : option (list frame * ParseResult * Buffer) :=
  match fuel with
  | O => None
  | S fuel =>
      '(res, (b, h, body)) ← parse fr (Some b) (Some zeroHeader) (Some []);
      b ← b; h ← h; body ← body;
      match res with
      | kOk => '(fs, res, b) ← parse_all fuel fr b; Some ((h, body) :: fs, res, b)
      | _ => Some ([], res, b)
      end
  end.

(** Reads arriving on a connection: each chunk is appended to the input buffer,
    then all complete frames are parsed; an error stops the reading. *)
Fixpoint read_chunks (fr : FrameReader) (b : Buffer) (chunks : list bytes)
  : option (list frame * ParseResult * Buffer) :=
  match chunks with
  | [] => Some ([], kNeedMore, b)
  | c :: cs =>
      b ← append b c;
      '(fs, res, b) ← parse_all (S (Z.to_nat (readableBytes b))) fr b;
      match res with
      | kNeedMore => '(fs', res, b) ← read_chunks fr b cs; Some (fs ++ fs', res, b)
      | _ => Some (fs, res, b)
      end
  end.

Definition end_result (e : stream_end) : ParseResult :=
  match e with EndNeedMore _ => kNeedMore | _ => kProtocolError end.

Lemma parse_all_stream fr : forall s b fuel,
  reader_wf fr -> buffer_wf b -> contents b = s -> (length s < fuel)%nat ->
  exists b', parse_all fuel fr b = Some ((stream_all fr s).1, end_result (stream_all fr s).2, b') /\
    buffer_wf b' /\ contents b' = end_rest (stream_all fr s).2 /\ buffer_ b' = buffer_ b.
Proof.
  intros s. induction s as [s E|s E|s [h body] rest E IH] using (stream_ind fr);
    intros b fuel Hfr Hb Hc Hf; (destruct fuel as [|fuel]; [lia|]);
    pose proof (parse_refines fr b zeroHeader [] Hfr Hb) as P; rewrite Hc, E in P; cbn [parse_all].
  - rewrite P, stream_all_needmore by done. eauto.
  - rewrite P, stream_all_error by done. eauto.
  - destruct P as (b1 & -> & Hb1 & Hc1 & Hu1). rewrite (stream_all_ok _ _ _ _ E).
    apply parse_bytes_shorter in E. cbn [mbind option_bind].
    destruct (IH b1 fuel) as (b2 & -> & ? & ? & Hu2); try done; [lia|].
    exists b2. rewrite Hu2. done.
Qed.

Lemma read_chunks_feed fr chunks : forall b total,
  reader_wf fr -> buffer_wf b -> len (contents b) + len (concat chunks) <= total ->
  len (buffer_ b) <= 3 * total + 2 ^ 60 -> total < 2 ^ 60 ->
  exists b', read_chunks fr b chunks =
      Some ((feed fr (contents b) chunks).1, end_result (feed fr (contents b) chunks).2, b') /\
    buffer_wf b' /\ contents b' = end_rest (feed fr (contents b) chunks).2.
Proof.
  induction chunks as [|c cs IH]; intros b total Hfr Hb Ht Hsz Hmax; cbn [read_chunks feed concat] in *.
  { by exists b. }
  destruct (append_spec b c Hb) as (b1 & -> & Hb1 & Cb1 & Lb1); [solve_len|].
  cbn [mbind option_bind]. destruct (parse_all_stream fr (contents b1) b1
    (S (Z.to_nat (readableBytes b1)))) as (b2 & -> & Hb2 & Cb2 & Bb2); try done.
  { rewrite readable_contents by done. unfold len. lia. }
  rewrite <- Cb1. pose proof (stream_all_end fr (contents b1)) as He.
  pose proof (consumes_length _ _ _ _ (consumes_stream fr (contents b1))) as Hcs.
  destruct (stream_all fr (contents b1)) as [fs1 [r1|r1|]] eqn:Est; simpl in *; [|by exists b2|done].
  subst r1. destruct (IH b2 total) as (b3 & -> & ? & ?); try done.
  - rewrite Cb1 in *. solve_len.
  - rewrite Bb2. unfold kCheapPrepend in *. solve_len.
  - destruct (feed fr (contents b2) cs). simpl. by exists b3.
Qed.

Lemma read_chunks_fresh fr chunks :
  reader_wf fr -> len (concat chunks) < 2 ^ 60 ->
  exists b', read_chunks fr (Buffer_new kInitialSize) chunks =
      Some ((feed fr [] chunks).1, end_result (feed fr [] chunks).2, b') /\
    contents b' = end_rest (feed fr [] chunks).2.
Proof.
  intros Hfr Hlen. destruct (Buffer_new_wf kInitialSize) as [Hb Cb]; [unfold kInitialSize; lia|].
  destruct (read_chunks_feed fr chunks (Buffer_new kInitialSize) (len (concat chunks)))
    as (b' & E & _ & E'); try done.
  - rewrite Buffer_new_size. pose proof (len_nonneg (concat chunks)). lia.
  - rewrite Cb in E, E'. eauto.
Qed.

(** C7: Framing is independent of how TCP segments the stream: if the chunks read
    so far concatenate to well-formed frames [fs] followed by an incomplete
    frame [partial], the reader has delivered exactly [fs], in order, and the
    connection's buffer holds exactly [partial]. *)
Theorem segmentation_independent fr fs partial chunks :
  reader_wf fr -> Forall (frame_ok fr) fs -> parse_bytes fr partial = FNeedMore ->
  concat chunks = concat (frame_bytes <$> fs) ++ partial -> len (concat chunks) < 2 ^ 60 ->
  exists b, read_chunks fr (Buffer_new kInitialSize) chunks = Some (fs, kNeedMore, b) /\
    contents b = partial.
Proof.
  intros Hfr Hfs Hp Hc Hlen. pose proof (feed_frames fr fs partial chunks Hfs Hp Hc) as E.
  destruct (read_chunks_fresh fr chunks Hfr Hlen) as (b & ? & ?). rewrite E in *. eauto.
Qed.

(** Two one-byte-body frames in three reads, the last one cut inside a header. *)
Definition sample_frame (id : Z) : frame :=
  (mkHeader kMagic kVersion MessageType.kRequest 0 StatusCode.kOk kSerializerRaw id 1, [x41]).

Lemma sample_frame_ok id :
  0 <= id < 2 ^ 32 -> frame_ok (FrameReader_new kDefaultMaxFrameSize) (sample_frame id).
Proof.
  intros Hid. unfold sample_frame. split; [|split; [done|split; [done|by vm_compute]]].
  unfold header_wf; cbn -[Z.pow]. split_and!; try lia; by vm_compute.
Qed.

Lemma segmentation_independent_witness :
  exists b,
    read_chunks (FrameReader_new kDefaultMaxFrameSize) (Buffer_new kInitialSize)
      [take 5 (frame_bytes (sample_frame 1)); drop 5 (frame_bytes (sample_frame 1)) ++ take 3 (frame_bytes (sample_frame 2));
       drop 3 (frame_bytes (sample_frame 2)) ++ [x52; x4e]]
      = Some ([sample_frame 1; sample_frame 2], kNeedMore, b) /\ contents b = [x52; x4e].
Proof.
  apply segmentation_independent; [by vm_compute|repeat constructor; apply sample_frame_ok; lia|by vm_compute..].
Defined.

(** On arbitrary bytes the reader is total and its verdict does not depend on
    the segmentation either: the frames before the first invalid header are the
    same however the bytes are cut, and so is whether it stops in an error. *)
Theorem segmentation_error fr chunks1 chunks2 :
  reader_wf fr -> concat chunks1 = concat chunks2 -> len (concat chunks1) < 2 ^ 60 ->
  exists fs res b1 b2,
    read_chunks fr (Buffer_new kInitialSize) chunks1 = Some (fs, res, b1) /\
    read_chunks fr (Buffer_new kInitialSize) chunks2 = Some (fs, res, b2) /\
    (res = kNeedMore -> contents b1 = contents b2).
Proof.
  intros Hfr Hcat Hlen. destruct (read_chunks_fresh fr chunks1 Hfr Hlen) as (b1 & -> & C1).
  rewrite Hcat in Hlen. destruct (read_chunks_fresh fr chunks2 Hfr Hlen) as (b2 & -> & C2).
  destruct (feed_stream fr [] chunks1) as [F1 G1]; [done|].
  destruct (feed_stream fr [] chunks2) as [F2 G2]; [done|]. rewrite Hcat, <- F2 in F1. rewrite Hcat in G1.
  rewrite F1. destruct (stream_all fr ([] ++ concat chunks2)) as [fs [r|r|]]; simpl in *;
    destruct (feed fr [] chunks1).2, (feed fr [] chunks2).2; simpl in *; try done; subst;
    eexists _, _, b1, b2; split_and!; try done; congruence.
Qed.

(** A frame followed by bytes with a wrong magic, in one read and byte by byte. *)
Lemma segmentation_error_witness :
  exists fs res b1 b2,
    read_chunks (FrameReader_new kDefaultMaxFrameSize) (Buffer_new kInitialSize)
      [frame_bytes (sample_frame 1) ++ replicate 16 x00] = Some (fs, res, b1) /\
    read_chunks (FrameReader_new kDefaultMaxFrameSize) (Buffer_new kInitialSize)
      ((fun x => [x]) <$> (frame_bytes (sample_frame 1) ++ replicate 16 x00)) = Some (fs, res, b2) /\
    (res = kNeedMore -> contents b1 = contents b2).
Proof. apply segmentation_error; by vm_compute. Defined.
