(* ===== verification/Codec.v ===== *)
(** * Codec: the request and response envelopes

    [rpc/include/rpc/codec.h] and [rpc/src/raw_codec.cpp].  A request body is
    [[u16 svc_len][service][u16 method_len][method][payload]]; a response body is
    the payload itself. *)
From S2P Require Import Prelude Protocol.

Record Request := mkRequest {
  service : bytes;
  method : bytes;
  payload : bytes
}.

Record Response := mkResponse {
  resp_status : Z;
  resp_payload : bytes;
  resp_serializerId : Z
}.

(** [Response response;] and [Response{status, ""}]: the member initialisers
    apply to what is not given. *)
Definition Response_new : Response := mkResponse StatusCode.kOk [] kSerializerRaw.
Definition Response_of (st : Z) : Response := mkResponse st [] kSerializerRaw.

#[global] Instance Request_eq_dec : EqDecision Request.
Proof. solve_decision. Defined.
#[global] Instance Response_eq_dec : EqDecision Response.
Proof. solve_decision. Defined.

Module RawCodec.

Definition kMaxNameLen : Z := 2 ^ 16 - 1.

(** [push_back] of the two bytes of [value]. *)
Definition putU16 (out : bytes) (value : Z) : bytes :=
  (out ++ [z2b (Z.land value 0xFF)]) ++ [z2b (Z.land (Z.shiftr value 8) 0xFF)].

Definition getU16 (inp : bytes) (offset : Z) : option Z :=
  b0 ← at_ inp offset; b1 ← at_ inp (offset + 1);
  Some (Z.lor (b2z b0) (u16 (Z.shiftl (b2z b1) 8))).

Definition nameFits (name : bytes) : bool :=
  negb (len name =? 0) && (len name <=? kMaxNameLen).

(** Each method returns its [bool] with the contents of [*out] afterwards;
    [None] as a pointer is [nullptr]. *)
Definition encodeRequest (request : Request) (out : option bytes) : bool * option bytes :=
  match out with
  | None => (false, out)
  | Some _ =>
      if negb (nameFits (service request)) || negb (nameFits (method request))
      then (false, out) else
      let bodyLen := u64 (2 + len (service request) + 2 + len (method request)
                          + len (payload request)) in
      if kMaxBodyLen <? bodyLen then (false, out) else
      let encoded := [] in
      let encoded := putU16 encoded (u16 (len (service request))) in
      let encoded := encoded ++ service request in
      let encoded := putU16 encoded (u16 (len (method request))) in
      let encoded := encoded ++ method request in
      let encoded := encoded ++ payload request in
      (true, Some encoded)
  end.

(** The outer [None] of the result is a read outside [in]. *)
Definition decodeRequest (inp : bytes) (out : option Request) : option (bool * option Request) :=
  match out with
  | None => Some (false, out)
  | Some _ =>
      if (len inp <? 2) || (kMaxBodyLen <? len inp) then Some (false, out) else
      svcLen ← getU16 inp 0;
      if svcLen =? 0 then Some (false, out) else
      if len inp <? 2 + svcLen + 2 then Some (false, out) else
      let methodOffset := 2 + svcLen in
      methodLen ← getU16 inp methodOffset;
      if methodLen =? 0 then Some (false, out) else
      if len inp <? 4 + svcLen + methodLen then Some (false, out) else
      svc ← slice inp 2 svcLen;
      mth ← slice inp (methodOffset + 2) methodLen;
      pay ← slice inp (4 + svcLen + methodLen) (len inp - (4 + svcLen + methodLen));
      Some (true, Some (mkRequest svc mth pay))
  end.

Definition encodeResponse (response : Response) (out : option bytes) : bool * option bytes :=
  match out with
  | None => (false, out)
  | Some _ =>
      if kMaxBodyLen <? len (resp_payload response) then (false, out)
      else (true, Some (resp_payload response))
  end.

(** Only [payload] of [*out] is replaced. *)
Definition decodeResponse (inp : bytes) (out : option Response) : bool * option Response :=
  match out with
  | None => (false, out)
  | Some r =>
      if kMaxBodyLen <? len inp then (false, out)
      else (true, Some (mkResponse (resp_status r) inp (resp_serializerId r)))
  end.

(** ** Correctness *)

(** The envelopes the wire format can carry; [len payload] stands for a real
    [std::string] size. *)
Definition request_fits (r : Request) : Prop :=
  1 <= len (service r) <= kMaxNameLen /\ 1 <= len (method r) <= kMaxNameLen /\
  4 + len (service r) + len (method r) + len (payload r) <= kMaxBodyLen.

Definition request_bytes (r : Request) : bytes :=
  Protocol.putU16 (len (service r)) ++ service r ++
  Protocol.putU16 (len (method r)) ++ method r ++ payload r.

Lemma nameFits_spec name : nameFits name = true <-> 1 <= len name <= kMaxNameLen.
Proof. unfold nameFits. pose proof (len_nonneg name). zbool; split; try done; lia. Qed.

Lemma putU16_app out v : putU16 out v = out ++ Protocol.putU16 v.
Proof. unfold putU16. by rewrite <- app_assoc. Qed.

Lemma getU16_eq inp off : getU16 inp off = Protocol.getU16 inp off.
Proof. done. Qed.

Lemma getU16_total inp off :
  0 <= off -> off + 2 <= len inp ->
  exists v pre post, getU16 inp off = Some v /\ 0 <= v < 2 ^ 16 /\
    inp = pre ++ Protocol.putU16 v ++ post /\ len pre = off.
Proof.
  intros Ho Hl. unfold getU16.
  destruct (at_is_Some inp off) as [b0 E0]; [lia|].
  destruct (at_Some_split _ _ _ E0) as (pre & post & -> & Hp).
  destruct post as [|b1 post]; [solve_len|].
  assert (at_ (pre ++ b0 :: b1 :: post) (off + 1) = Some b1) as E1.
  { rewrite <- Hp, at_app_ge by lia. done. }
  rewrite E0, E1. cbn [mbind option_bind]. rewrite u16_join.
  exists (b2z b0 + b2z b1 * 2 ^ 8), pre, post. rewrite putU16_join.
  pose proof (b2z_range b0); pose proof (b2z_range b1). split_and!; done || lia.
Qed.

(** [encodeRequest] succeeds exactly on the envelopes that fit and then writes
    the documented layout; otherwise [*out] is untouched. *)
Lemma encodeRequest_fits r o :
  request_fits r -> encodeRequest r (Some o) = (true, Some (request_bytes r)).
Proof.
  intros (Hs & Hm & Hb). unfold encodeRequest.
  rewrite !(proj2 (nameFits_spec _)) by done. cbn [negb orb]. unfold kMaxNameLen, kMaxBodyLen in *.
  pose proof (len_nonneg (payload r)).
  rewrite u64_small by lia. rewrite (proj2 (Z.ltb_ge _ _)) by lia.
  rewrite !putU16_app, !u16_small by lia. unfold request_bytes. rewrite app_nil_l. by rewrite <- !app_assoc.
Qed.

Lemma encodeRequest_rejects r o :
  len (payload r) < 2 ^ 63 -> ~ request_fits r -> encodeRequest r (Some o) = (false, Some o).
Proof.
  intros Hp Hn. unfold encodeRequest. pose proof (len_nonneg (payload r)).
  destruct (nameFits (service r)) eqn:Es; [|done].
  destruct (nameFits (method r)) eqn:Em; [|done]. simpl.
  rewrite nameFits_spec in Es, Em. unfold request_fits, kMaxNameLen in *.
  rewrite u64_small by lia. rewrite (proj2 (Z.ltb_lt _ _)); [done|]. lia.
Qed.

Lemma request_bytes_len r :
  len (request_bytes r) = 4 + len (service r) + len (method r) + len (payload r).
Proof. unfold request_bytes. autorewrite with rn_len. lia. Qed.

(** Side conditions of [slice_eq]: reassociate, or compare lengths. *)
Ltac slice_side := first [by rewrite ?app_nil_r, <- ?app_assoc | solve_len].

Lemma decodeRequest_bytes r o :
  request_fits r -> decodeRequest (request_bytes r) (Some o) = Some (true, Some r).
Proof.
  intros (Hs & Hm & Hb). unfold decodeRequest. rewrite request_bytes_len.
  pose proof (len_nonneg (payload r)).
  unfold kMaxNameLen in *. rewrite (proj2 (Z.ltb_ge _ 2)), (proj2 (Z.ltb_ge kMaxBodyLen _)) by lia.
  cbn [orb].
  set (p1 := Protocol.putU16 (len (service r))). set (p2 := Protocol.putU16 (len (method r))).
  assert (request_bytes r = (p1 ++ service r) ++ p2 ++ method r ++ payload r) as E2.
  { unfold request_bytes. fold p1 p2. by rewrite <- !app_assoc. }
  assert (len p1 = 2 /\ len p2 = 2) as [L1 L2] by done.
  assert (getU16 (request_bytes r) 0 = Some (len (service r))) as ->.
  { unfold request_bytes. apply getU16_0. lia. }
  cbn [mbind option_bind]. rewrite (proj2 (Z.eqb_neq _ 0)), (proj2 (Z.ltb_ge _ _)) by lia.
  rewrite E2.
  assert (getU16 ((p1 ++ service r) ++ p2 ++ method r ++ payload r) (2 + len (service r))
          = Some (len (method r))) as ->.
  { replace (2 + len (service r)) with (len (p1 ++ service r)) by solve_len.
    apply getU16_app. lia. }
  cbn [mbind option_bind]. rewrite (proj2 (Z.eqb_neq _ 0)), (proj2 (Z.ltb_ge _ _)) by lia.
  clearbody p1 p2.
  rewrite (slice_eq _ p1 (service r) (p2 ++ method r ++ payload r) 2) by slice_side.
  cbn [mbind option_bind].
  rewrite (slice_eq _ ((p1 ++ service r) ++ p2) (method r) (payload r) (2 + len (service r) + 2))
    by slice_side.
  cbn [mbind option_bind].
  rewrite (slice_eq _ ((p1 ++ service r) ++ p2 ++ method r) (payload r) [])
    by slice_side.
  by destruct r.
Qed.

(** [decodeRequest] never reads outside the body, accepts exactly the encodings
    of envelopes that fit, and leaves [*out] alone otherwise. *)
Lemma decodeRequest_total inp o :
  (exists r, request_fits r /\ inp = request_bytes r /\
     decodeRequest inp (Some o) = Some (true, Some r)) \/
  ((forall r, request_fits r -> inp <> request_bytes r) /\
     decodeRequest inp (Some o) = Some (false, Some o)).
Proof.
  assert ((exists r, request_fits r /\ inp = request_bytes r) \/
          decodeRequest inp (Some o) = Some (false, Some o)) as [(r & Hr & ->)|H].
  2: { left. exists r. split_and!; [done..|]. by apply decodeRequest_bytes. }
  2: { right. split; [|done]. intros r Hr ->. by rewrite decodeRequest_bytes in H. }
  unfold decodeRequest.
  destruct (Z.ltb_spec (len inp) 2); [by right|].
  destruct (Z.ltb_spec kMaxBodyLen (len inp)); [by right|]. cbn [orb].
  destruct (getU16_total inp 0) as (sl & pre & post & -> & Hsl & Ei & Hpre); [lia..|].
  cbn [mbind option_bind]. destruct (Z.eqb_spec sl 0); [by right|].
  destruct (Z.ltb_spec (len inp) (2 + sl + 2)); [by right|].
  destruct (getU16_total inp (2 + sl)) as (ml & pre2 & post2 & -> & Hml & Ei2 & Hpre2); [lia..|].
  cbn [mbind option_bind]. destruct (Z.eqb_spec ml 0); [by right|].
  destruct (Z.ltb_spec (len inp) (4 + sl + ml)); [by right|]. left.
  destruct pre; [|solve_len]. rewrite app_nil_l in Ei.
  assert (pre2 = Protocol.putU16 sl ++ take (Z.to_nat sl) post) as ->.
  { transitivity (take (Z.to_nat (2 + sl)) inp).
    - rewrite Ei2, take_app_length' by solve_len. done.
    - replace (Z.to_nat (2 + sl)) with (2 + Z.to_nat sl)%nat by lia. by rewrite Ei. }
  assert (len (take (Z.to_nat sl) post) = sl) as Hs by (rewrite Ei in *; solve_len).
  exists (mkRequest (take (Z.to_nat sl) post) (take (Z.to_nat ml) post2) (drop (Z.to_nat ml) post2)).
  assert (len (take (Z.to_nat ml) post2) = ml) as Hm by (rewrite Ei2 in *; solve_len).
  unfold request_fits, request_bytes, kMaxNameLen; cbn [service method payload].
  rewrite Hs, Hm, take_drop, app_assoc. split; [|done].
  split_and!; try lia. rewrite Ei2 in *. solve_len.
Qed.

(** Responses: the body is the payload, within the protocol ceiling; status and
    serializer id are not part of it. *)
Lemma response_roundtrip r o r0 b :
  encodeResponse r (Some o) = (true, Some b) ->
  decodeResponse b (Some r0) =
    (true, Some (mkResponse (resp_status r0) (resp_payload r) (resp_serializerId r0))).
Proof.
  unfold encodeResponse, decodeResponse.
  destruct (kMaxBodyLen <? len (resp_payload r)) eqn:E; [done|]. intros [= <-]. by rewrite E.
Qed.

Lemma encodeRequest_inv r b o :
  len (payload r) < 2 ^ 63 -> encodeRequest r (Some o) = (true, Some b) ->
  request_fits r /\ b = request_bytes r.
Proof.
  intros Hp E. assert (request_fits r) as Hr.
  { destruct (decide (1 <= len (service r) <= kMaxNameLen)) as [?|N];
    destruct (decide (1 <= len (method r) <= kMaxNameLen)) as [?|M];
    destruct (decide (4 + len (service r) + len (method r) + len (payload r) <= kMaxBodyLen)) as [?|K];
    try done; rewrite encodeRequest_rejects in E; try done; intros (?&?&?); contradiction. }
  rewrite encodeRequest_fits in E by done. by injection E as <-.
Qed.

(** C33: The request envelope is a bijection between the envelopes that fit and
    their encodings: encoding [r] succeeds with body [b] exactly when decoding
    [b] succeeds with [r], so no two requests share a body and no accepted body
    is ambiguous. *)
Theorem request_codec_bijection r b o o' :
  len (payload r) < 2 ^ 63 ->
  encodeRequest r (Some o) = (true, Some b) <-> decodeRequest b (Some o') = Some (true, Some r).
Proof.
  intros Hp. split.
  - intros E. apply encodeRequest_inv in E as [Hr ->]; [|done]. by apply decodeRequest_bytes.
  - intros E. destruct (decodeRequest_total b o') as [(r' & Hr & -> & E')|[_ E']].
    + rewrite E in E'. injection E' as <-. by apply encodeRequest_fits.
    + by rewrite E in E'.
Qed.

Lemma request_codec_bijection_witness :
  encodeRequest (mkRequest (str "Math") (str "Add") [x01; x02]) (Some []) =
    (true, Some ([x04; x00] ++ str "Math" ++ [x03; x00] ++ str "Add" ++ [x01; x02])) <->
  decodeRequest ([x04; x00] ++ str "Math" ++ [x03; x00] ++ str "Add" ++ [x01; x02]) (Some (mkRequest [] [] [])) =
    Some (true, Some (mkRequest (str "Math") (str "Add") [x01; x02])).
Proof. apply request_codec_bijection. by vm_compute. Defined.

(** Decoding an arbitrary peer-controlled body is memory safe and fails
    cleanly: it never reads outside the body, and a body that is not the
    encoding of a fitting envelope is rejected with [*out] untouched. *)
Theorem decodeRequest_safe inp o :
  exists ok out', decodeRequest inp (Some o) = Some (ok, Some out') /\
    if ok then request_fits out' /\ inp = request_bytes out'
    else out' = o /\ forall r, request_fits r -> inp <> request_bytes r.
Proof.
  destruct (decodeRequest_total inp o) as [(r & ? & ? & ->)|[? ->]].
  - by exists true, r.
  - by exists false, o.
Qed.

End RawCodec.
