(* ===== verification/ServiceRegistry.v ===== *)
(** * ServiceRegistry: service and method name to handler

    [rpc/include/rpc/service_registry.h] and [rpc/src/service_registry.cpp]. *)
From S2P Require Import Prelude Protocol Codec.

Section registry.

(** The application state the handlers work on. *)
Context {W : Type}.

(** [ErasedMethod]: a handler reads the request payload and returns the response
    payload, or throws ([None]); it may change the application state. *)
Definition ErasedMethod : Type := W -> bytes -> option bytes * W.

(** [methods_] and [services_] are hash containers: finite map and set. *)
Record ServiceRegistry := mkRegistry {
  methods_ : gmap bytes ErasedMethod;
  services_ : gset bytes;
  frozen_ : bool
}.

Definition ServiceRegistry_new : ServiceRegistry := mkRegistry ∅ ∅ false.

Definition makeKey (svc mth : bytes) : bytes :=
  let key := [] in
  let key := key ++ svc in
  let key := key ++ str "." in
  key ++ mth.

(** [fn = None] is an empty [std::function]. *)
Definition registerMethod (reg : ServiceRegistry) (svc mth : bytes) (fn : option ErasedMethod)
  : bool * ServiceRegistry :=
  if frozen_ reg || (len svc =? 0) || (len mth =? 0) then (false, reg) else
  match fn with
  | None => (false, reg)
  | Some f =>
      match methods_ reg !! makeKey svc mth with
      | Some _ => (false, reg)
      | None => (true, mkRegistry (<[makeKey svc mth := f]> (methods_ reg))
                         ({[svc]} ∪ services_ reg) (frozen_ reg))
      end
  end.

Definition freeze (reg : ServiceRegistry) : ServiceRegistry :=
  mkRegistry (methods_ reg) (services_ reg) true.

Definition registry_size (reg : ServiceRegistry) : nat := size (methods_ reg).

(** The outcome of [dispatch]: it returns, or the handler's exception passes
    through it.  Either way [*resp] and the application state afterwards. *)
Inductive dispatch_outcome :=
| Returned (found : bool)
| Threw.

Definition dispatch (reg : ServiceRegistry) (w : W) (req : Request) (resp : option Response)
  : dispatch_outcome * option Response * W :=
  match resp with
  | None => (Returned false, resp, w)
  | Some r =>
      match methods_ reg !! makeKey (service req) (method req) with
      | None =>
          let st := if bool_decide (service req ∈ services_ reg)
                    then StatusCode.kUnknownMethod else StatusCode.kUnknownService in
          (Returned false, Some (mkResponse st [] (resp_serializerId r)), w)
      | Some f =>
          let '(res, w') := f w (payload req) in
          match res with
          | Some p => (Returned true, Some (mkResponse StatusCode.kOk p (resp_serializerId r)), w')
          | None => (Threw, Some (mkResponse StatusCode.kOk (resp_payload r) (resp_serializerId r)), w')
          end
      end
  end.

(** ** Registration scripts and the table they build *)

Record registration := mkRegistration {
  reg_service : bytes;
  reg_method : bytes;
  reg_fn : option ErasedMethod
}.

Definition register_all (reg : ServiceRegistry) (rs : list registration) : ServiceRegistry :=
  fold_left (fun reg r => (registerMethod reg (reg_service r) (reg_method r) (reg_fn r)).2) rs reg.

(** A valid registration: non-empty names and a callable. *)
Definition registration_ok (r : registration) : Prop :=
  reg_service r <> [] /\ reg_method r <> [] /\ is_Some (reg_fn r).

(** Invariant: every method's key starts with a registered service name, and no
    registered service is empty. *)
Definition registry_wf (reg : ServiceRegistry) : Prop :=
  (forall k f, methods_ reg !! k = Some f -> exists svc mth,
      k = makeKey svc mth /\ svc ∈ services_ reg /\ svc <> [] /\ mth <> []) /\
  (forall svc, svc ∈ services_ reg -> exists mth f, methods_ reg !! makeKey svc mth = Some f).

Lemma registerMethod_cases reg svc mth fn :
  registerMethod reg svc mth fn = (false, reg) \/
  exists f, fn = Some f /\ frozen_ reg = false /\ svc <> [] /\ mth <> [] /\
    methods_ reg !! makeKey svc mth = None /\
    registerMethod reg svc mth fn =
      (true, mkRegistry (<[makeKey svc mth := f]> (methods_ reg)) ({[svc]} ∪ services_ reg) false).
Proof.
  unfold registerMethod. destruct (frozen_ reg) eqn:Ef; [by left|].
  destruct svc; [by left|]. destruct mth; [by left|]. cbn [orb len length Z.of_nat Z.eqb].
  destruct fn as [f|]; [|by left].
  destruct (methods_ reg !! _) eqn:E; [by left|]. right. exists f. done.
Qed.

Lemma registerMethod_wf reg svc mth fn :
  registry_wf reg -> registry_wf (registerMethod reg svc mth fn).2.
Proof.
  intros [H1 H2]. destruct (registerMethod_cases reg svc mth fn)
    as [->|(f & -> & _ & Hs & Hm & Hn & ->)]; [done|].
  split; cbn [snd methods_ services_].
  - intros k g. rewrite lookup_insert. case_decide as Ek; [|].
    + intros _. exists svc, mth. set_solver.
    + intros (s & m & ? & ? & ? & ?)%H1. exists s, m. set_solver.
  - intros s [->%elem_of_singleton|Hin]%elem_of_union.
    + exists mth, f. apply lookup_insert_eq.
    + destruct (H2 s Hin) as (m & g & Hg). exists m.
      destruct (decide (makeKey svc mth = makeKey s m)) as [->|Hne].
      * exists f. apply lookup_insert_eq.
      * exists g. by rewrite lookup_insert_ne.
Qed.

(** A service name without a dot is determined by the key. *)
Definition dot_free (s : bytes) : Prop := x2e ∉ s.

#[global] Instance dot_free_dec s : Decision (dot_free s).
Proof. unfold dot_free. apply _. Defined.

Lemma makeKey_inj s1 m1 s2 m2 :
  dot_free s1 -> dot_free s2 -> makeKey s1 m1 = makeKey s2 m2 -> s1 = s2 /\ m1 = m2.
Proof.
  unfold makeKey, dot_free; simpl. rewrite <- !app_assoc; simpl.
  revert s2. induction s1 as [|a s1 IH]; intros [|b s2] H1 H2 E; simpl in *.
  - by injection E.
  - injection E as <- _. set_solver.
  - injection E as -> _. set_solver.
  - injection E as <- E. destruct (IH s2) as [-> ->]; [set_solver..|done|done].
Qed.

(** The specification: the first valid registration of the pair. *)
Fixpoint first_match (rs : list registration) (svc mth : bytes) : option ErasedMethod :=
  match rs with
  | [] => None
  | r :: rs =>
      match reg_fn r with
      | Some f => if bool_decide (reg_service r = svc /\ reg_method r = mth /\ svc <> [] /\ mth <> [])
                  then Some f else first_match rs svc mth
      | None => first_match rs svc mth
      end
  end.

Lemma first_match_app rs r svc mth :
  first_match (rs ++ [r]) svc mth =
    match first_match rs svc mth with Some f => Some f | None => first_match [r] svc mth end.
Proof.
  induction rs as [|r' rs IH]; [done|]. cbn [app first_match].
  destruct (reg_fn r'); [|done]. by case_bool_decide.
Qed.

Lemma register_all_snoc reg rs r :
  register_all reg (rs ++ [r]) =
    (registerMethod (register_all reg rs) (reg_service r) (reg_method r) (reg_fn r)).2.
Proof. unfold register_all. by rewrite fold_left_app. Qed.

Lemma register_all_frozen reg rs : frozen_ reg = true -> register_all reg rs = reg.
Proof.
  intros Hf. induction rs as [|r rs IH] using rev_ind; [done|].
  rewrite register_all_snoc, IH. unfold registerMethod. by rewrite Hf.
Qed.

Lemma register_all_unfrozen rs : frozen_ (register_all ServiceRegistry_new rs) = false.
Proof.
  induction rs as [|r rs IH] using rev_ind; [done|]. rewrite register_all_snoc.
  by destruct (registerMethod_cases (register_all ServiceRegistry_new rs) (reg_service r) (reg_method r) (reg_fn r))
    as [->|(f & _ & _ & _ & _ & _ & ->)].
Qed.

Lemma register_lookup reg r svc mth :
  frozen_ reg = false -> dot_free svc -> dot_free (reg_service r) ->
  methods_ (registerMethod reg (reg_service r) (reg_method r) (reg_fn r)).2 !! makeKey svc mth =
    match methods_ reg !! makeKey svc mth with Some f => Some f | None => first_match [r] svc mth end.
Proof.
  intros Hf Hd Hr. destruct r as [s m fn]; cbn [reg_service reg_method reg_fn first_match] in *.
  unfold registerMethod. rewrite Hf. cbn [orb].
  destruct (len s =? 0) eqn:Es; [|destruct (len m =? 0) eqn:Em]; cbn [orb snd];
    [apply len_eqb_0 in Es as ->|apply len_eqb_0 in Em as ->|].
  1-2: destruct (methods_ reg !! _); [done|]; destruct fn; [|done]; case_bool_decide; naive_solver.
  rewrite <- not_true_iff_false, len_eqb_0 in Es, Em.
  destruct fn as [f|]; cbn [snd]; [|by destruct (methods_ reg !! makeKey svc mth)].
  destruct (methods_ reg !! makeKey s m) as [g|] eqn:E; cbn [snd methods_].
  - destruct (methods_ reg !! makeKey svc mth) eqn:E'; [done|].
    case_bool_decide as C; [|done]. destruct C as (<- & <- & _). congruence.
  - rewrite lookup_insert. case_decide as K.
    + apply makeKey_inj in K as [<- <-]; [|done..]. rewrite E, bool_decide_true; naive_solver.
    + destruct (methods_ reg !! makeKey svc mth); [done|]. case_bool_decide; naive_solver.
Qed.

Lemma register_services reg r svc :
  registry_wf reg -> frozen_ reg = false -> dot_free svc -> dot_free (reg_service r) ->
  (forall s, s ∈ services_ reg -> dot_free s) ->
  svc ∈ services_ (registerMethod reg (reg_service r) (reg_method r) (reg_fn r)).2 <->
    svc ∈ services_ reg \/ exists mth f, first_match [r] svc mth = Some f.
Proof.
  intros Hw Hf Hd Hr Hs. destruct r as [s m fn]; cbn [reg_service reg_method reg_fn first_match] in *.
  unfold registerMethod. rewrite Hf. cbn [orb].
  destruct (len s =? 0) eqn:Es; [|destruct (len m =? 0) eqn:Em]; cbn [orb snd];
    [apply len_eqb_0 in Es as ->|apply len_eqb_0 in Em as ->|].
  3: rewrite <- not_true_iff_false, len_eqb_0 in Es, Em.
  1-2: split; [tauto|]; intros [?|(mth & f & H)]; [done|]; destruct fn; [|done];
    case_bool_decide; naive_solver.
  destruct fn as [f|]; [|naive_solver].
  destruct (methods_ reg !! makeKey s m) as [g|] eqn:E; cbn [snd services_].
  - split; [tauto|]. intros [?|(mth & f' & H)]; [done|]. case_bool_decide as C; [|done].
    destruct C as (<- & <- & _ & _).
    destruct (proj1 Hw _ _ E) as (s' & m' & K & Hin & _).
    apply makeKey_inj in K as [-> _]; auto.
  - rewrite elem_of_union, elem_of_singleton. split.
    + intros [->|?]; [right|by left]. exists m, f. by rewrite bool_decide_true.
    + intros [?|(mth & f' & H)]; [tauto|]. case_bool_decide; naive_solver.
Qed.

Lemma register_all_wf rs : registry_wf (register_all ServiceRegistry_new rs).
Proof.
  induction rs as [|r rs IH] using rev_ind; [split; [done|set_solver]|].
  rewrite register_all_snoc. by apply registerMethod_wf.
Qed.

(** The table a registration script builds, for dot-free service names. *)
Lemma register_all_table rs :
  Forall (fun r => dot_free (reg_service r)) rs ->
  let reg := register_all ServiceRegistry_new rs in
  (forall svc, svc ∈ services_ reg -> dot_free svc) /\
  (forall svc mth, dot_free svc -> methods_ reg !! makeKey svc mth = first_match rs svc mth) /\
  (forall svc, dot_free svc ->
     svc ∈ services_ reg <-> exists mth f, first_match rs svc mth = Some f).
Proof.
  induction rs as [|r rs IH] using rev_ind; cbn zeta.
  { intros _. split; [set_solver|]. split; [done|]. intros svc _. simpl. split; [set_solver|].
    by intros (?&?&?). }
  intros [Hrs Hr]%Forall_app. rewrite Forall_singleton in Hr.
  destruct (IH Hrs) as (D & T & S). rewrite register_all_snoc.
  pose proof (register_all_unfrozen rs) as Hf. pose proof (register_all_wf rs) as Hw.
  set (reg := register_all ServiceRegistry_new rs) in *. clearbody reg.
  split_and!.
  - intros svc. destruct (registerMethod_cases reg (reg_service r) (reg_method r) (reg_fn r))
      as [->|(f & _ & _ & _ & _ & _ & ->)]; [exact (D svc)|]. cbn [snd services_].
    intros [->%elem_of_singleton|?]%elem_of_union; [done|by apply D].
  - intros svc mth Hd. rewrite register_lookup, T, first_match_app by done. done.
  - intros svc Hd. rewrite register_services, S by done.
    setoid_rewrite first_match_app. split.
    + intros [(m & f & E)|(m & f & E)].
      * exists m, f. by rewrite E.
      * destruct (first_match rs svc m) as [g|] eqn:E'; [exists m, g|exists m, f]; by rewrite E'.
    + intros (m & f & E). destruct (first_match rs svc m) as [g|] eqn:E'; eauto.
Qed.

(** C35: Functional correctness of routing: after any registration script with
    dot-free service names and the freeze of [RpcServer::start], dispatching a
    request runs the handler of the first valid registration of exactly that
    service and method on exactly the payload; a miss reports
    UNKNOWN_METHOD or UNKNOWN_SERVICE according to whether the service has any
    method, clears the payload and runs nothing. *)
Theorem dispatch_correct rs late w req r0 :
  Forall (fun r => dot_free (reg_service r)) rs -> dot_free (service req) ->
  let reg := register_all (freeze (register_all ServiceRegistry_new rs)) late in
  match first_match rs (service req) (method req) with
  | Some f =>
      dispatch reg w req (Some r0) =
        match f w (payload req) with
        | (Some p, w') => (Returned true, Some (mkResponse StatusCode.kOk p (resp_serializerId r0)), w')
        | (None, w') =>
            (Threw, Some (mkResponse StatusCode.kOk (resp_payload r0) (resp_serializerId r0)), w')
        end
  | None => exists st,
      dispatch reg w req (Some r0) =
        (Returned false, Some (mkResponse st [] (resp_serializerId r0)), w) /\
      ((st = StatusCode.kUnknownMethod /\ exists mth f, first_match rs (service req) mth = Some f) \/
       (st = StatusCode.kUnknownService /\ forall mth, first_match rs (service req) mth = None))
  end.
Proof.
  intros Hrs Hreq. cbn zeta. rewrite register_all_frozen by done.
  destruct (register_all_table rs Hrs) as (_ & T & S). unfold dispatch. cbn [freeze methods_ services_].
  rewrite T by done. destruct (first_match rs (service req) (method req)) as [f|] eqn:E.
  { by destruct (f w (payload req)) as [[p|] w']. }
  eexists; split; [done|]. case_bool_decide as D; rewrite S in D by done; [by left|right].
  split; [done|]. intros mth. destruct (first_match rs (service req) mth) eqn:E'; [|done].
  destruct D; eauto.
Qed.
End registry.

#[global] Arguments ErasedMethod : clear implicits.
#[global] Arguments ServiceRegistry : clear implicits.

(** An echo method, a second registration of the same name that loses, and a
    late one that finds the registry frozen. *)
Lemma dispatch_correct_witness :
  let echo : ErasedMethod Z := fun w p => (Some p, w + 1) in
  let fail : ErasedMethod Z := fun w p => (None, w) in
  let rs := [mkRegistration (str "Echo") (str "Say") (Some echo);
             mkRegistration (str "Echo") (str "Say") (Some fail)] in
  let late := [mkRegistration (str "Echo") (str "Late") (Some echo)] in
  dispatch (register_all (freeze (register_all ServiceRegistry_new rs)) late) 5
    (mkRequest (str "Echo") (str "Say") [x2a]) (Some Response_new)
  = (Returned true, Some (mkResponse StatusCode.kOk [x2a] kSerializerRaw), 6).
Proof.
  intros echo fail rs late.
  pose proof (dispatch_correct rs late 5 (mkRequest (str "Echo") (str "Say") [x2a]) Response_new) as H.
  apply H.
  - by apply (bool_decide_unpack _); vm_compute.
  - by apply (bool_decide_unpack _); vm_compute.
Defined.
