(* ===== verification/Channel.v ===== *)
(** * Channel and EPollPoller: event interest and its kernel registration

    [include/Channel.h], [src/Channel.cpp], [include/EPollPoller.h] and
    [src/EPollPoller.cpp].  A channel keeps the event mask its owner wants; the
    poller mirrors it into the kernel's epoll interest list. *)
From S2P Require Import Prelude.

(** [<sys/epoll.h>]. *)
Definition EPOLLIN : Z := 0x001.
Definition EPOLLPRI : Z := 0x002.
Definition EPOLLOUT : Z := 0x004.
Definition EPOLLERR : Z := 0x008.
Definition EPOLLHUP : Z := 0x010.
Definition EPOLLRDHUP : Z := 0x2000.

Definition kNoneEvent : Z := 0.
Definition kReadEvent : Z := Z.lor EPOLLIN EPOLLPRI.
Definition kWriteEvent : Z := EPOLLOUT.

(** [chan_ptr] is the address of the object, which the poller stores in
    [channels_] and in [epoll_event.data.ptr]. *)
Record Channel := mkChannel {
  chan_ptr : Z;
  fd_ : Z;
  events_ : Z;
  revents_ : Z;
  index_ : Z;
  eventHandling_ : bool;
  addedToLoop_ : bool;
  tied_ : bool
}.

Definition Channel_new (ptr fd : Z) : Channel := mkChannel ptr fd 0 0 (-1) false false false.

Definition set_events (ch : Channel) (ev : Z) : Channel :=
  mkChannel (chan_ptr ch) (fd_ ch) ev (revents_ ch) (index_ ch) (eventHandling_ ch) (addedToLoop_ ch) (tied_ ch).
Definition setRevents (ch : Channel) (rev : Z) : Channel :=
  mkChannel (chan_ptr ch) (fd_ ch) (events_ ch) rev (index_ ch) (eventHandling_ ch) (addedToLoop_ ch) (tied_ ch).
Definition setIndex (ch : Channel) (idx : Z) : Channel :=
  mkChannel (chan_ptr ch) (fd_ ch) (events_ ch) (revents_ ch) idx (eventHandling_ ch) (addedToLoop_ ch) (tied_ ch).
Definition set_eventHandling (ch : Channel) (b : bool) : Channel :=
  mkChannel (chan_ptr ch) (fd_ ch) (events_ ch) (revents_ ch) (index_ ch) b (addedToLoop_ ch) (tied_ ch).
Definition set_addedToLoop (ch : Channel) (b : bool) : Channel :=
  mkChannel (chan_ptr ch) (fd_ ch) (events_ ch) (revents_ ch) (index_ ch) (eventHandling_ ch) b (tied_ ch).
Definition tie (ch : Channel) : Channel :=
  mkChannel (chan_ptr ch) (fd_ ch) (events_ ch) (revents_ ch) (index_ ch) (eventHandling_ ch) (addedToLoop_ ch) true.

Definition isNoneEvent (ch : Channel) : bool := events_ ch =? kNoneEvent.
Definition isReading (ch : Channel) : bool := negb (Z.land (events_ ch) kReadEvent =? 0).
Definition isWriting (ch : Channel) : bool := negb (Z.land (events_ ch) kWriteEvent =? 0).

(** ** The kernel's interest list *)

Inductive epoll_op := EPOLL_CTL_ADD | EPOLL_CTL_MOD | EPOLL_CTL_DEL.

(** An interest list maps a descriptor to its mask and user pointer. *)
Abbreviation interest := (gmap Z (Z * Z)).

(** [epoll_ctl(2)]: ADD of a present descriptor is EEXIST, MOD and DEL of an
    absent one ENOENT; [None] is the failure. *)
Definition epoll_ctl (k : interest) (op : epoll_op) (fd : Z) (ev : Z * Z) : option interest :=
  match op, k !! fd with
  | EPOLL_CTL_ADD, None => Some (<[fd := ev]> k)
  | EPOLL_CTL_MOD, Some _ => Some (<[fd := ev]> k)
  | EPOLL_CTL_DEL, Some _ => Some (delete fd k)
  | _, _ => None
  end.

(** ** [EPollPoller] *)

Definition kInitEventListSize : Z := 16.

Record EPollPoller := mkPoller {
  channels_ : gmap Z Z;          (* fd -> Channel* *)
  kernel_ : interest;            (* what epollfd_ watches *)
  eventListSize_ : Z             (* events_.size() *)
}.

Definition EPollPoller_new : EPollPoller := mkPoller ∅ ∅ kInitEventListSize.

(** [EPollPoller::update]: a failed [epoll_ctl] is only logged. *)
Definition poller_update (p : EPollPoller) (op : epoll_op) (ch : Channel) : EPollPoller :=
  match epoll_ctl (kernel_ p) op (fd_ ch) (events_ ch, chan_ptr ch) with
  | Some k => mkPoller (channels_ p) k (eventListSize_ p)
  | None => p
  end.

Definition updateChannel (p : EPollPoller) (ch : Channel) : EPollPoller * Channel :=
  let index := index_ ch in
  if (index =? -1) || (index =? 0) then
    let p := if index =? -1
             then mkPoller (<[fd_ ch := chan_ptr ch]> (channels_ p)) (kernel_ p) (eventListSize_ p)
             else p in
    let ch := setIndex ch 1 in
    (poller_update p EPOLL_CTL_ADD ch, ch)
  else if isNoneEvent ch then
    (poller_update p EPOLL_CTL_DEL ch, setIndex ch 0)
  else
    (poller_update p EPOLL_CTL_MOD ch, ch).

Definition removeChannel (p : EPollPoller) (ch : Channel) : EPollPoller * Channel :=
  let p := mkPoller (delete (fd_ ch) (channels_ p)) (kernel_ p) (eventListSize_ p) in
  let p := if index_ ch =? 1 then poller_update p EPOLL_CTL_DEL ch else p in
  (p, setIndex ch (-1)).

Definition hasChannel (p : EPollPoller) (ch : Channel) : bool :=
  match channels_ p !! fd_ ch with
  | Some c => c =? chan_ptr ch
  | None => false
  end.

(** [fillActiveChannels]: every reported event is stored in its channel, which
    joins the active list. [None] is a dangling [data.ptr]. *)
Fixpoint fillActiveChannels (chans : gmap Z Channel) (ready : list (Z * Z))
  : option (gmap Z Channel * list Z) :=
  match ready with
  | [] => Some (chans, [])
  | (ptr, ev) :: ready =>
      ch ← chans !! ptr;
      '(chans', act) ← fillActiveChannels (<[ptr := setRevents ch ev]> chans) ready;
      Some (chans', ptr :: act)
  end.

(** [poll]: [ready] is the answer of [epoll_wait]; [None] stands for an error
    (EINTR or worse), which leaves everything as it was. *)
Definition poll (p : EPollPoller) (chans : gmap Z Channel) (ready : option (list (Z * Z)))
  : option (EPollPoller * gmap Z Channel * list Z) :=
  match ready with
  | None => Some (p, chans, [])
  | Some evs =>
      if 0 <? len evs then
        '(chans', act) ← fillActiveChannels chans evs;
        let size' := if len evs =? eventListSize_ p then eventListSize_ p * 2 else eventListSize_ p in
        Some (mkPoller (channels_ p) (kernel_ p) size', chans', act)
      else Some (p, chans, [])
  end.

(** ** Channel operations: [update] and [remove] go through the owner loop *)

Definition chan_update (p : EPollPoller) (ch : Channel) : EPollPoller * Channel :=
  updateChannel p (set_addedToLoop ch true).

Definition enableReading (p : EPollPoller) (ch : Channel) : EPollPoller * Channel :=
  chan_update p (set_events ch (Z.lor (events_ ch) kReadEvent)).
Definition disableReading (p : EPollPoller) (ch : Channel) : EPollPoller * Channel :=
  chan_update p (set_events ch (Z.land (events_ ch) (Z.lnot kReadEvent))).
Definition enableWriting (p : EPollPoller) (ch : Channel) : EPollPoller * Channel :=
  chan_update p (set_events ch (Z.lor (events_ ch) kWriteEvent)).
Definition disableWriting (p : EPollPoller) (ch : Channel) : EPollPoller * Channel :=
  chan_update p (set_events ch (Z.land (events_ ch) (Z.lnot kWriteEvent))).
Definition disableAll (p : EPollPoller) (ch : Channel) : EPollPoller * Channel :=
  chan_update p (set_events ch kNoneEvent).

(** [remove] asserts that no event is watched; [None] is the failed assertion. *)
Definition chan_remove (p : EPollPoller) (ch : Channel) : option (EPollPoller * Channel) :=
  if isNoneEvent ch then Some (removeChannel p (set_addedToLoop ch false)) else None.

(** [~Channel] asserts that the channel is idle and unregistered. *)
Definition chan_destroy_ok (ch : Channel) : bool := negb (eventHandling_ ch) && negb (addedToLoop_ ch).

(** ** Event dispatch *)

Section dispatch.
(** The state the callbacks work on, and where the channel sits in it. *)
Context {S : Type} (chan : S -> Channel) (set_chan : Channel -> S -> S).

(** Unset callbacks are [None]; a callback itself may fail (abort). *)
Record Callbacks := mkCallbacks {
  closeCallback_ : option (S -> option S);
  errorCallback_ : option (S -> option S);
  readCallback_ : option (S -> option S);
  writeCallback_ : option (S -> option S)
}.

Definition run_cb (cb : option (S -> option S)) (s : S) : option S :=
  match cb with Some f => f s | None => Some s end.

Definition has_bits (rev mask : Z) : bool := negb (Z.land rev mask =? 0).

Definition handleEventWithGuard (cbs : Callbacks) (s : S) : option S :=
  let s := set_chan (set_eventHandling (chan s) true) s in
  s ← (if has_bits (revents_ (chan s)) EPOLLHUP && negb (has_bits (revents_ (chan s)) EPOLLIN)
       then run_cb (closeCallback_ cbs) s else Some s);
  s ← (if has_bits (revents_ (chan s)) EPOLLERR
       then run_cb (errorCallback_ cbs) s else Some s);
  s ← (if has_bits (revents_ (chan s)) (Z.lor (Z.lor EPOLLIN EPOLLPRI) EPOLLRDHUP)
       then run_cb (readCallback_ cbs) s else Some s);
  s ← (if has_bits (revents_ (chan s)) EPOLLOUT
       then run_cb (writeCallback_ cbs) s else Some s);
  Some (set_chan (set_eventHandling (chan s) false) s).

(** [handleEvent]: a tied channel only dispatches while its owner is alive. *)
Definition handleEvent (cbs : Callbacks) (owner_alive : bool) (s : S) : option S :=
  if tied_ (chan s) then
    if owner_alive then handleEventWithGuard cbs s else Some s
  else handleEventWithGuard cbs s.
End dispatch.

(** ** The mirror invariant *)

(** The poller's table and the kernel's list agree with the channel: registered
    with exactly the wanted mask when [index_] is 1, absent from the kernel and
    wanting nothing otherwise. *)
Definition chan_inv (p : EPollPoller) (ch : Channel) : Prop :=
  (index_ ch = -1 /\ events_ ch = 0 /\ channels_ p !! fd_ ch = None /\
   kernel_ p !! fd_ ch = None /\ addedToLoop_ ch = false) \/
  (index_ ch = 0 /\ events_ ch = 0 /\ channels_ p !! fd_ ch = Some (chan_ptr ch) /\
   kernel_ p !! fd_ ch = None /\ addedToLoop_ ch = true) \/
  (index_ ch = 1 /\ channels_ p !! fd_ ch = Some (chan_ptr ch) /\
   kernel_ p !! fd_ ch = Some (events_ ch, chan_ptr ch) /\ addedToLoop_ ch = true).

(** Everything about other descriptors is as before. *)
Definition same_elsewhere (fd : Z) (p p' : EPollPoller) : Prop :=
  eventListSize_ p' = eventListSize_ p /\
  forall fd', fd' <> fd -> channels_ p' !! fd' = channels_ p !! fd' /\ kernel_ p' !! fd' = kernel_ p !! fd'.

#[global] Instance same_elsewhere_refl fd : Reflexive (same_elsewhere fd).
Proof. intros p. split; auto. Qed.
#[global] Instance same_elsewhere_trans fd : Transitive (same_elsewhere fd).
Proof. intros p q r [E1 H1] [E2 H2]. split; [congruence|]. intros fd' Hn. destruct (H1 _ Hn), (H2 _ Hn). split; congruence. Qed.

Definition same_channel (ch ch' : Channel) : Prop :=
  chan_ptr ch' = chan_ptr ch /\ fd_ ch' = fd_ ch /\ revents_ ch' = revents_ ch /\
  eventHandling_ ch' = eventHandling_ ch /\ tied_ ch' = tied_ ch.

(** [Channel::update] after the mask was set to [ev]: the channel is registered
    with [ev], or was registered and [ev] is empty and it is withdrawn. *)
Lemma chan_update_spec p ch ev :
  chan_inv p ch ->
  let '(p', ch') := chan_update p (set_events ch ev) in
  chan_inv p' ch' /\ same_elsewhere (fd_ ch) p p' /\ same_channel ch ch' /\ events_ ch' = ev.
Proof.
  unfold chan_inv, chan_update, updateChannel, poller_update, epoll_ctl, same_elsewhere, same_channel, isNoneEvent.
  destruct ch as [ptr fd e0 rev idx eh al td], p as [cs k sz]. simpl.
  intros [(-> & -> & Ec & Ek & ->)|[(-> & -> & Ec & Ek & ->)|(-> & Ec & Ek & ->)]]; simpl;
    rewrite ?Ek; simpl.
  3: destruct (Z.eqb_spec ev kNoneEvent) as [->|?]; simpl; rewrite ?Ek; simpl.
  all: rewrite ?lookup_insert_eq, ?lookup_delete_eq.
  all: split; [first [by left | by right; left | by right; right]|]; split; [split; [done|]; intros fd' ?; by rewrite ?lookup_insert_ne, ?lookup_delete_ne by done|].
  all: done.
Qed.

Lemma chan_remove_spec p ch :
  chan_inv p ch ->
  match chan_remove p ch with
  | Some (p', ch') => events_ ch = 0 /\ chan_inv p' ch' /\ same_elsewhere (fd_ ch) p p' /\
      same_channel ch ch' /\ index_ ch' = -1 /\ events_ ch' = 0
  | None => events_ ch <> 0
  end.
Proof.
  unfold chan_inv, chan_remove, removeChannel, poller_update, epoll_ctl, same_elsewhere, same_channel, isNoneEvent, kNoneEvent.
  destruct ch as [ptr fd e0 rev idx eh al td], p as [cs k sz]. simpl.
  destruct (Z.eqb_spec e0 0) as [->|?]; [|done]. simpl.
  intros [(-> & _ & Ec & Ek & ->)|[(-> & _ & Ec & Ek & ->)|(-> & Ec & Ek & ->)]]; simpl;
    rewrite ?Ek; simpl; rewrite ?lookup_delete_eq.
  all: split; [done|]; split; [first [by left | by right; left | by right; right]|]; split;
    [split; [done|]; intros fd' ?; by rewrite ?lookup_delete_ne by done|]; done.
Qed.

Lemma chan_update_fd p ch : fd_ (chan_update p ch).2 = fd_ ch.
Proof. unfold chan_update, updateChannel. repeat case_match; done. Qed.

Lemma chan_update_revents p ch : revents_ (chan_update p ch).2 = revents_ ch.
Proof. unfold chan_update, updateChannel. repeat case_match; done. Qed.

(** Withdrawing all interest of a channel that wanted something unregisters it. *)
Lemma disableAll_unregisters p ch :
  chan_inv p ch -> events_ ch <> 0 -> kernel_ (disableAll p ch).1 !! fd_ ch = None.
Proof.
  unfold chan_inv. intros [(_ & ? & _)|[(_ & ? & _)|(Ei & _ & Ek & _)]] He; [done..|].
  unfold disableAll, chan_update, updateChannel. cbn. rewrite Ei. cbn.
  unfold poller_update, epoll_ctl. cbn. rewrite Ek. apply lookup_delete_eq.
Qed.

Inductive chan_op := EnableReading | DisableReading | EnableWriting | DisableWriting | DisableAll | Remove.

Definition chan_step (op : chan_op) (st : EPollPoller * Channel) : option (EPollPoller * Channel) :=
  let '(p, ch) := st in
  match op with
  | EnableReading => Some (enableReading p ch)
  | DisableReading => Some (disableReading p ch)
  | EnableWriting => Some (enableWriting p ch)
  | DisableWriting => Some (disableWriting p ch)
  | DisableAll => Some (disableAll p ch)
  | Remove => chan_remove p ch
  end.

Fixpoint chan_run (ops : list chan_op) (st : EPollPoller * Channel) : option (EPollPoller * Channel) :=
  match ops with
  | [] => Some st
  | op :: ops => st' ← chan_step op st; chan_run ops st'
  end.

Lemma chan_step_inv op p ch p' ch' :
  chan_inv p ch -> chan_step op (p, ch) = Some (p', ch') ->
  chan_inv p' ch' /\ same_elsewhere (fd_ ch) p p' /\ same_channel ch ch'.
Proof.
  intros H E.
  assert (forall ev, chan_update p (set_events ch ev) = (p', ch') ->
    chan_inv p' ch' /\ same_elsewhere (fd_ ch) p p' /\ same_channel ch ch') as K.
  { intros ev Ev. pose proof (chan_update_spec p ch ev H) as K. rewrite Ev in K. tauto. }
  destruct op; cbn [chan_step] in E.
  1-5: apply (inj Some) in E; exact (K _ E).
  pose proof (chan_remove_spec p ch H) as R. rewrite E in R. tauto.
Qed.

Lemma chan_run_inv ops : forall p0 ch0,
  chan_inv p0 ch0 ->
  match chan_run ops (p0, ch0) with
  | Some (p, ch) => chan_inv p ch /\ same_elsewhere (fd_ ch0) p0 p /\ fd_ ch = fd_ ch0
  | None => exists ops1 ops2 p ch, ops = ops1 ++ Remove :: ops2 /\
      chan_run ops1 (p0, ch0) = Some (p, ch) /\ isNoneEvent ch = false
  end.
Proof.
  induction ops as [|op ops IH]; intros p0 ch0 H; cbn [chan_run]; [done|].
  destruct (chan_step op (p0, ch0)) as [[p1 ch1]|] eqn:E1; cbn [mbind option_bind].
  - destruct (chan_step_inv _ _ _ _ _ H E1) as (H1 & S1 & (_ & F1 & _)).
    specialize (IH p1 ch1 H1). rewrite F1 in IH. destruct (chan_run ops (p1, ch1)) as [[p ch]|].
    + destruct IH as (? & ? & ?). split_and!; [done|by etrans|done].
    + destruct IH as (ops1 & ops2 & p & ch & -> & E & ?). exists (op :: ops1), ops2, p, ch.
      split_and!; [done| |done]. cbn [chan_run]. by rewrite E1.
  - destruct op; try done. exists [], ops, p0, ch0. split_and!; [done..|].
    pose proof (chan_remove_spec p0 ch0 H) as R. cbn [chan_step] in E1. rewrite E1 in R.
    unfold isNoneEvent, kNoneEvent. by apply Z.eqb_neq.
Qed.

(** Along every sequence of interest changes of a channel on a fresh
    descriptor, the kernel watches the descriptor with exactly the mask the
    channel wants, or does not watch it and the channel wants nothing; the
    poller's table agrees; and no other descriptor's registration is touched.
    The only way to fail the assertions is to remove a channel that still
    wants events. *)
Theorem channel_mirrors_kernel ops p0 ptr fd :
  channels_ p0 !! fd = None -> kernel_ p0 !! fd = None ->
  match chan_run ops (p0, Channel_new ptr fd) with
  | Some (p, ch) => chan_inv p ch /\ same_elsewhere fd p0 p /\ fd_ ch = fd
  | None => exists ops1 ops2 p ch, ops = ops1 ++ Remove :: ops2 /\
      chan_run ops1 (p0, Channel_new ptr fd) = Some (p, ch) /\ isNoneEvent ch = false
  end.
Proof.
  intros Hc Hk. apply (chan_run_inv ops p0 (Channel_new ptr fd)). left. done.
Qed.

Lemma channel_mirrors_kernel_witness :
  let ops := [EnableReading; EnableWriting; DisableWriting; DisableAll; Remove] in
  let p0 := mkPoller ∅ {[3 := (EPOLLIN, 1)]} 16 in
  match chan_run ops (p0, Channel_new 2 7) with
  | Some (p, ch) => chan_inv p ch /\ same_elsewhere 7 p0 p /\ fd_ ch = 7
  | None => False
  end.
Proof.
  pose proof (channel_mirrors_kernel [EnableReading; EnableWriting; DisableWriting; DisableAll; Remove]
    (mkPoller ∅ {[3 := (EPOLLIN, 1)]} 16) 2 7 eq_refl eq_refl) as H.
  cbv zeta. destruct (chan_run _ _) as [[p ch]|] eqn:E; [exact H|].
  clear H. vm_compute in E. discriminate E.
Defined.

#[global] Arguments chan_update : simpl never.
