(* ===== verification/Transport.v ===== *)
(** * Transport: what a connection promises to the protocols above it

    [include/Transport.h] is the abstract byte stream the RPC layer talks to.
    [TransportOps] lists the operations the RPC layer calls on the loop thread,
    [TransportLaws] what it relies on.  The RPC components are verified against
    this interface; [TcpConnection.v] discharges it for the TCP implementation. *)
From S2P Require Import Prelude.

(** [T] is the state of the transport together with the loop that owns it.  An
    operation returns [None] when it aborts. *)
Class TransportOps (T : Type) := {
  connected : T -> bool;
  send : T -> bytes -> option T;
  shutdown : T -> option T;
  forceClose : T -> option T
}.

(** No connection transmits 2^60 bytes; below that no size computation of the
    output path can wrap. *)
Definition stream_max : Z := 2 ^ 60.

(** [t_wf] is the implementation's invariant, [t_out] the bytes accepted for
    transmission so far, in order, and [t_broken] says that the peer is known to
    be unreachable, after which accepted bytes may be lost. *)
Class TransportLaws (T : Type) `{TransportOps T} := {
  t_wf : T -> Prop;
  t_out : T -> bytes;
  t_broken : T -> Prop;
  send_connected : forall t m, t_wf t -> len (t_out t) + len m < stream_max -> connected t = true ->
    exists t', send t m = Some t' /\ t_wf t' /\ connected t' = true /\
      (t_broken t -> t_broken t') /\ len (t_out t') <= len (t_out t) + len m /\
      (t_out t' = t_out t ++ m \/ t_broken t');
  send_closed : forall t m, t_wf t -> connected t = false -> send t m = Some t;
  shutdown_ok : forall t, t_wf t -> exists t', shutdown t = Some t' /\ t_wf t' /\
    connected t' = false /\ t_out t' = t_out t /\ (t_broken t -> t_broken t');
  forceClose_ok : forall t, t_wf t -> exists t', forceClose t = Some t' /\ t_wf t' /\
    connected t' = false /\ t_out t' = t_out t /\ (t_broken t -> t_broken t')
}.

Section extends.
Context {T : Type} `{TransportLaws T}.

(** [conn'] continues [conn]: still open, and the bytes accepted since are
    [out], unless the peer turned out to be gone. *)
Definition extends (conn conn' : T) (out : bytes) : Prop :=
  t_wf conn' /\ connected conn' = true /\ (t_broken conn -> t_broken conn') /\
  len (t_out conn') <= len (t_out conn) + len out /\
  (t_out conn' = t_out conn ++ out \/ t_broken conn').

Lemma extends_refl c : t_wf c -> connected c = true -> extends c c [].
Proof. intros. split_and!; auto; [solve_len|]. left. by rewrite app_nil_r. Qed.

Lemma extends_trans c1 c2 c3 o1 o2 :
  extends c1 c2 o1 -> extends c2 c3 o2 -> extends c1 c3 (o1 ++ o2).
Proof.
  intros (W2 & C2 & B2 & L2 & O2) (W3 & C3 & B3 & L3 & O3). split_and!; try done; [tauto|solve_len|].
  destruct O2 as [E2|?]; [|tauto]. destruct O3 as [E3|?]; [|tauto].
  left. by rewrite E3, E2, app_assoc.
Qed.

Lemma send_extends c m :
  t_wf c -> connected c = true -> len (t_out c) + len m < stream_max -> exists c', send c m = Some c' /\ extends c c' m.
Proof. intros Hw Hc Hr. destruct (send_connected c m) as (c' & E & ?); [done..|]. exists c'. split; [exact E|]. unfold extends. tauto. Qed.
End extends.

(** ** A minimal transport: an unbounded, never failing byte sink *)
Module Sink.
Record t := mk { open : bool; written : bytes }.

#[global] Instance ops : TransportOps t := {
  connected c := open c;
  send c m := Some (if open c then mk true (written c ++ m) else c);
  shutdown c := Some (mk false (written c));
  forceClose c := Some (mk false (written c))
}.

#[global] Instance laws : TransportLaws t.
Proof.
  refine {| t_wf := fun _ => True; t_out := written; t_broken := fun _ => False |}.
  - intros [o w] m _ _ Ho. simpl in *. subst. eexists; split_and!; eauto; simpl; solve_len.
  - intros [o w] m _ Ho. simpl in *. by subst.
  - intros c _. eexists; simpl; eauto 10.
  - intros c _. eexists; simpl; eauto 10.
Defined.
End Sink.
