(* ===== verification/RpcServer.v ===== *)
(** * RpcServer: frames in, responses out

    [rpc/include/rpc/rpc_server.h] and [rpc/src/rpc_server.cpp].  The message
    callback of one connection: it drains the complete frames of the input
    buffer, checks the protocol policy, dispatches requests and answers.
    Diagnostics on [stderr] are not part of the model. *)
From S2P Require Import Prelude Protocol Buffer FrameReader Codec ServiceRegistry Transport.

Section server.
Context {T W : Type} `{TransportOps T}.

Record RpcServer := mkRpcServer {
  registry_ : ServiceRegistry W;
  frameReader_ : FrameReader;
  maxInputBufferSize_ : Z;
  serializerId_ : Z
}.

Definition RpcServer_new : RpcServer :=
  mkRpcServer ServiceRegistry_new (FrameReader_new kDefaultMaxFrameSize) 0 kSerializerRaw.

Definition srv_setMaxFrameSize (s : RpcServer) (n : Z) : RpcServer :=
  mkRpcServer (registry_ s) (setMaxFrameSize n) (maxInputBufferSize_ s) (serializerId_ s).

Definition srv_setMaxInputBufferSize (s : RpcServer) (n : Z) : RpcServer :=
  mkRpcServer (registry_ s) (frameReader_ s)
    (if n =? 0 then 0 else Z.max n kHeaderSize) (serializerId_ s).

Definition srv_setSerializerId (s : RpcServer) (id : Z) : RpcServer :=
  mkRpcServer (registry_ s) (frameReader_ s) (maxInputBufferSize_ s) id.

(** [start] freezes the registry before the listener accepts. *)
Definition srv_start (s : RpcServer) : RpcServer :=
  mkRpcServer (freeze (registry_ s)) (frameReader_ s) (maxInputBufferSize_ s) (serializerId_ s).

Definition sendResponse (conn : T) (reqId : Z) (response : Response) : option T :=
  match RawCodec.encodeResponse response (Some []) with
  | (true, Some body) =>
      let header := mkHeader kMagic kVersion MessageType.kResponse 0 (resp_status response)
                      (resp_serializerId response) reqId (u32 (len body)) in
      send conn (encodeHeader header ++ body)
  | _ => forceClose conn
  end.

Definition rejectAndClose (conn : T) (reqId st : Z) : option T :=
  conn ← sendResponse conn reqId (Response_of st);
  shutdown conn.

Definition handleRequest (s : RpcServer) (conn : T) (header : MessageHeader) (body : bytes) (w : W)
  : option (T * W) :=
  '(ok, request) ← RawCodec.decodeRequest body (Some (mkRequest [] [] []));
  if negb ok then
    conn ← rejectAndClose conn (requestId header) StatusCode.kMalformedBody; Some (conn, w)
  else
    request ← request;
    let '(outcome, resp, w) := dispatch (registry_ s) w request (Some Response_new) in
    response ← match outcome with
               | Returned _ => resp
               | Threw => Some (Response_of StatusCode.kInternalError)
               end;
    let response := mkResponse (resp_status response) (resp_payload response) (serializerId header) in
    conn ← sendResponse conn (requestId header) response;
    Some (conn, w).

(** The checks of the loop body on one complete frame.  The [bool] says whether
    the loop goes on to the next frame. *)
Definition onFrame (s : RpcServer) (conn : T) (header : MessageHeader) (body : bytes) (w : W)
  : option (T * W * bool) :=
  if negb (version header =? kVersion) then
    conn ← rejectAndClose conn (requestId header) StatusCode.kUnsupportedVersion; Some (conn, w, false)
  else if negb (type header =? MessageType.kRequest) then
    conn ← rejectAndClose conn (requestId header) StatusCode.kUnsupportedMsgType; Some (conn, w, false)
  else if negb (flags header =? 0) then
    conn ← rejectAndClose conn (requestId header) StatusCode.kUnsupportedFlag; Some (conn, w, false)
  else if negb (serializerId header =? serializerId_ s) then
    let rejection := mkResponse StatusCode.kUnsupportedSerializer [] (serializerId header) in
    conn ← sendResponse conn (requestId header) rejection; Some (conn, w, true)
  else
    '(conn, w) ← handleRequest s conn header body w; Some (conn, w, true).

(** What the loop does when [parse] stops at an incomplete or invalid frame. *)
Definition onIncomplete (s : RpcServer) (conn : T) (buf : Buffer) : option T :=
  let limit := if negb (maxInputBufferSize_ s =? 0) then maxInputBufferSize_ s
               else maxFrameSize_ (frameReader_ s) in
  if limit <? readableBytes buf then forceClose conn else Some conn.

Definition onProtocolError (conn : T) (buf : Buffer) : option T :=
  if readableBytes buf <? kHeaderSize then forceClose conn else
  '(ok, decoded) ← decodeHeader (Some (peek buf)) (readableBytes buf) (Some zeroHeader);
  if ok : bool then
    decoded ← decoded; rejectAndClose conn (requestId decoded) StatusCode.kBodyTooLarge
  else forceClose conn.

(** The [for (;;)] loop.  Every iteration but the last consumes a frame of at
    least sixteen bytes, so [fuel] above the number of readable bytes is never
    exhausted; [None] is an abort or exhausted fuel. *)
Fixpoint onMessage_loop (fuel : nat) (s : RpcServer) (conn : T) (buf : Buffer) (w : W)
  : option (T * Buffer * W) :=
  match fuel with
  | O => None
  | S fuel =>
      '(result, (buf', header, body)) ← parse (frameReader_ s) (Some buf) (Some zeroHeader) (Some []);
      match result with
      | kNeedMore => buf ← buf'; conn ← onIncomplete s conn buf; Some (conn, buf, w)
      | kProtocolError => buf ← buf'; conn ← onProtocolError conn buf; Some (conn, buf, w)
      | kOk =>
          buf ← buf'; header ← header; body ← body;
          '(conn, w, continue) ← onFrame s conn header body w;
          if continue : bool then onMessage_loop fuel s conn buf w else Some (conn, buf, w)
      end
  end.

Definition srv_onMessage (s : RpcServer) (conn : T) (buf : Buffer) (w : W) : option (T * Buffer * W) :=
  onMessage_loop (S (Z.to_nat (readableBytes buf))) s conn buf w.
End server.

#[global] Arguments RpcServer : clear implicits.

(** ** Specification: one answer per frame *)

Section spec.
Context {W : Type}.

(** The frame that carries response [r] to the request with header [h]. *)
Definition respond (h : MessageHeader) (r : Response) : bytes :=
  encodeHeader (mkHeader kMagic kVersion MessageType.kResponse 0 (resp_status r)
                  (resp_serializerId r) (requestId h) (len (resp_payload r))) ++ resp_payload r.

(** The answer to a frame that leaves the connection open, with the application
    state after it; [None] for a frame the server answers by closing. *)
Definition answer (s : RpcServer W) (w : W) (f : frame) : option (Response * W) :=
  let '(h, body) := f in
  if negb (version h =? kVersion) || negb (type h =? MessageType.kRequest) || negb (flags h =? 0)
  then None
  else if negb (serializerId h =? serializerId_ s)
  then Some (mkResponse StatusCode.kUnsupportedSerializer [] (serializerId h), w)
  else
    '(ok, req) ← RawCodec.decodeRequest body (Some (mkRequest [] [] []));
    if negb ok then None else
    req ← req;
    let '(outcome, resp, w') := dispatch (registry_ s) w req (Some Response_new) in
    r ← match outcome with Returned _ => resp | Threw => Some (Response_of StatusCode.kInternalError) end;
    if kMaxBodyLen <? len (resp_payload r) then None
    else Some (mkResponse (resp_status r) (resp_payload r) (serializerId h), w').

(** A request as [docs/rfc/0001] has its sender write it: the id is not the
    sentinel 0 and the status byte is 0.  The server does not look at either (see
    the findings), so that the theorems speak of such requests only. *)
Definition conforming (f : frame) : Prop := requestId f.1 <> 0 /\ status f.1 = StatusCode.kOk.

(** The answers to a sequence of frames. *)
Fixpoint answer_all (s : RpcServer W) (w : W) (fs : list frame) : option (list bytes * W) :=
  match fs with
  | [] => Some ([], w)
  | f :: fs =>
      '(r, w1) ← answer s w f;
      '(rs, w2) ← answer_all s w1 fs;
      Some (respond f.1 r :: rs, w2)
  end.

Definition server_wf (s : RpcServer W) : Prop := reader_wf (frameReader_ s).

Lemma answer_small s w f r w' :
  answer s w f = Some (r, w') -> len (resp_payload r) <= kMaxBodyLen.
Proof.
  unfold answer. destruct f as [h body].
  destruct (_ || _ || _); [done|]. destruct (negb (_ =? serializerId_ s)).
  { intros [= <- <-]. simpl. unfold kMaxBodyLen. solve_len. }
  destruct (RawCodec.decodeRequest _ _) as [[[] [req|]]|]; try done; cbn [mbind option_bind negb].
  destruct (dispatch (registry_ s) w req (Some Response_new)) as [[o resp] w1].
  destruct (match o with Returned _ => resp | Threw => Some (Response_of StatusCode.kInternalError) end) as [r1|]; [|done]. cbn [mbind option_bind].
  destruct (Z.ltb_spec kMaxBodyLen (len (resp_payload r1))); [done|].
  intros [= <- <-]. done.
Qed.

(** A frame a lawful reply fits into. *)
Definition reply_max : Z := 2 ^ 25.

Lemma respond_len h r : len (resp_payload r) <= kMaxBodyLen -> len (respond h r) < reply_max.
Proof.
  intros Hr. unfold respond. rewrite len_app, encodeHeader_len. unfold kMaxBodyLen, reply_max in *. lia.
Qed.

(** An incomplete frame is smaller than the frame limit. *)
Lemma needmore_bound fr s :
  reader_wf fr -> parse_bytes fr s = FNeedMore -> len s < maxFrameSize_ fr \/ len s < kHeaderSize.
Proof.
  unfold parse_bytes, reader_wf. intros Hfr.
  destruct (Z.ltb_spec (len s) kHeaderSize) as [|Hs]; [by right|].
  destruct (decodeHeader_some s zeroHeader Hs) as [->|(h & -> & Hh & _)]; [done|].
  unfold bodyLimit. destruct (Z.ltb_spec (Z.min (maxFrameSize_ fr - kHeaderSize) kMaxBodyLen) (bodyLen h)); [done|].
  destruct (Z.ltb_spec (len s) (kHeaderSize + bodyLen h)); [|done]. left. lia.
Qed.
End spec.

(** ** Correctness of the message callback *)

Section correctness.
Context {T W : Type} `{TransportLaws T}.
Implicit Types (s : RpcServer W) (conn : T) (w : W).

(** Room for [n] more replies on the connection. *)
Definition room (conn : T) (n : nat) : Prop := len (t_out conn) + Z.of_nat n * reply_max < stream_max.

Lemma sendResponse_open conn h r :
  t_wf conn -> connected conn = true -> len (t_out conn) + len (respond h r) < stream_max ->
  len (resp_payload r) <= kMaxBodyLen ->
  exists conn', sendResponse conn (requestId h) r = Some conn' /\ extends conn conn' (respond h r).
Proof.
  intros Hw Hc Hroom Hr. unfold sendResponse, RawCodec.encodeResponse.
  rewrite (proj2 (Z.ltb_ge _ _)) by done.
  rewrite u32_small by (unfold kMaxBodyLen in *; pose proof (len_nonneg (resp_payload r)); lia).
  by apply send_extends.
Qed.

(** A frame with an answer is answered by one [sendResponse]. *)
Lemma onFrame_sends s conn w h body r w' :
  answer s w (h, body) = Some (r, w') ->
  onFrame s conn h body w = conn ← sendResponse conn (requestId h) r; Some (conn, w', true).
Proof.
  unfold onFrame, answer. intros Ha.
  destruct (version h =? kVersion); [|done]. destruct (type h =? MessageType.kRequest); [|done].
  destruct (flags h =? 0); [|done]. cbn [negb orb] in *.
  destruct (serializerId h =? serializerId_ s) eqn:Es; cbn [negb] in *; [|by injection Ha as <- <-].
  unfold handleRequest. destruct (RawCodec.decodeRequest _ _) as [[[] [req|]]|]; try done.
  cbn [mbind option_bind negb] in *.
  destruct (dispatch (registry_ s) w req (Some Response_new)) as [[o resp] w1].
  destruct (match o with Returned _ => resp | Threw => Some (Response_of StatusCode.kInternalError) end)
    as [r1|]; [|done].
  cbn [mbind option_bind] in *. destruct (kMaxBodyLen <? _); [done|]. injection Ha as <- <-.
  by destruct (sendResponse _ _ _).
Qed.

Lemma onFrame_answer s conn w h body r w' :
  t_wf conn -> connected conn = true -> len (t_out conn) + reply_max < stream_max ->
  answer s w (h, body) = Some (r, w') ->
  exists conn', onFrame s conn h body w = Some (conn', w', true) /\ extends conn conn' (respond h r).
Proof.
  intros Hw Hc Hroom Ha. rewrite (onFrame_sends _ _ _ _ _ _ _ Ha).
  apply answer_small in Ha as Hsm. pose proof (respond_len h r Hsm) as Hlen.
  destruct (sendResponse_open conn h r) as (conn' & -> & Hx); [done|done|lia|done|]. by exists conn'.
Qed.

(** One turn of the loop in terms of the unread bytes. *)
Lemma loop_step s conn w buf fuel :
  server_wf s -> buffer_wf buf ->
  match parse_bytes (frameReader_ s) (contents buf) with
  | FNeedMore => onMessage_loop (S fuel) s conn buf w = conn ← onIncomplete s conn buf; Some (conn, buf, w)
  | FError => onMessage_loop (S fuel) s conn buf w = conn ← onProtocolError conn buf; Some (conn, buf, w)
  | FOk (h, body) rest => exists buf', buffer_wf buf' /\ contents buf' = rest /\ buffer_ buf' = buffer_ buf /\
      onMessage_loop (S fuel) s conn buf w =
        '(conn, w, continue) ← onFrame s conn h body w;
        if continue : bool then onMessage_loop fuel s conn buf' w else Some (conn, buf', w)
  end.
Proof.
  intros Hs Hb. pose proof (parse_refines (frameReader_ s) buf zeroHeader [] Hs Hb) as P.
  cbn [onMessage_loop]. destruct (parse_bytes _ _) as [| |[h body] rest].
  - by rewrite P.
  - by rewrite P.
  - destruct P as (buf' & -> & ? & ? & ?). exists buf'. done.
Qed.

(** Good frames are answered one by one; the loop then stands before [rest]. *)
Lemma loop_answers s fs rest : forall conn w buf fuel replies w',
  server_wf s -> buffer_wf buf -> t_wf conn -> connected conn = true ->
  consumes (frameReader_ s) (contents buf) fs rest -> room conn (length fs) -> answer_all s w fs = Some (replies, w') ->
  exists conn' buf', extends conn conn' (concat replies) /\
    buffer_wf buf' /\ contents buf' = rest /\ buffer_ buf' = buffer_ buf /\
    len (concat replies) <= Z.of_nat (length fs) * reply_max /\
    onMessage_loop (length fs + fuel) s conn buf w = onMessage_loop fuel s conn' buf' w'.
Proof.
  induction fs as [|[h body] fs IH];
    intros conn w buf fuel replies w' Hs Hb Ht Hc Hfs Hroom Ha.
  { injection Ha as <- <-. exists conn, buf. split_and!; try done. apply extends_refl; auto. }
  destruct Hfs as (s1 & Hp & Hfs). cbn [answer_all] in Ha.
  apply bind_Some in Ha as ([r w1] & Ha1 & Ha). apply bind_Some in Ha as ([rs w2] & Ha2 & [= <- <-]).
  unfold room in Hroom. cbn [length] in Hroom.
  destruct (onFrame_answer s conn w h body r w1) as (c1 & E1 & X1); [done|done|unfold reply_max in *; lia|done|].
  pose proof (respond_len h r (answer_small _ _ _ _ _ Ha1)) as Hlen.
  pose proof (loop_step s conn w buf (length fs + fuel) Hs Hb) as St.
  rewrite Hp in St. destruct St as (b1 & Hb1 & <- & Hu1 & St). rewrite E1 in St. cbn [mbind option_bind] in St.
  destruct (IH c1 w1 b1 fuel rs w2) as (c2 & b2 & X2 & ? & ? & Hu2 & ? & E2); try done; try apply X1.
  { destruct X1 as (_ & _ & _ & ? & _). unfold room. lia. }
  exists c2, b2. split_and!; try done; [by eapply extends_trans|by rewrite Hu2|cbn [concat length]; solve_len|].
  rewrite <- E2. exact St.
Qed.
(** ** Totality *)

(** What [onMessage] lets an incomplete frame grow to. *)
Definition input_limit (s : RpcServer W) : Z :=
  if negb (maxInputBufferSize_ s =? 0) then maxInputBufferSize_ s else maxFrameSize_ (frameReader_ s).

(** [conn'] may follow [conn] after at most one more reply. *)
Definition after_reply (conn conn' : T) : Prop :=
  t_wf conn' /\ len (t_out conn') <= len (t_out conn) + reply_max.

Lemma sendResponse_total conn id r :
  t_wf conn -> room conn 1 -> exists conn', sendResponse conn id r = Some conn' /\ after_reply conn conn'.
Proof.
  unfold room, after_reply. intros Hw Hroom. destruct (Z.ltb_spec kMaxBodyLen (len (resp_payload r))) as [L|L].
  - unfold sendResponse, RawCodec.encodeResponse. rewrite (proj2 (Z.ltb_lt _ _)) by done.
    destruct (forceClose_ok conn Hw) as (c & -> & ? & _ & E & _). exists c. rewrite E. split_and!; auto. unfold reply_max; lia.
  - set (h := mkHeader 0 0 0 0 0 0 id 0). pose proof (respond_len h r L) as Hl.
    change id with (requestId h). destruct (connected conn) eqn:Ec.
    + destruct (sendResponse_open conn h r) as (c & -> & Hx & _ & _ & Hn & _); [done|done|lia|done|].
      exists c. split_and!; auto. lia.
    + unfold sendResponse, RawCodec.encodeResponse. rewrite (proj2 (Z.ltb_ge _ _)) by done.
      rewrite send_closed by done. exists conn. split_and!; auto. unfold reply_max; lia.
Qed.

Lemma rejectAndClose_total conn id st :
  t_wf conn -> room conn 1 ->
  exists conn', rejectAndClose conn id st = Some conn' /\ after_reply conn conn' /\ connected conn' = false.
Proof.
  intros Hw Hroom. unfold rejectAndClose.
  destruct (sendResponse_total conn id (Response_of st) Hw Hroom) as (c & -> & W1 & L1).
  cbn [mbind option_bind]. destruct (shutdown_ok c W1) as (c' & -> & ? & ? & E & _).
  exists c'. split_and!; auto. split; [done|]. by rewrite E.
Qed.

Lemma dispatch_response (reg : ServiceRegistry W) w req :
  exists o r w', dispatch reg w req (Some Response_new) = (o, Some r, w').
Proof.
  unfold dispatch. destruct (methods_ reg !! _) as [f|]; [|eauto].
  destruct (f w (payload req)) as [[p|] w']; eauto.
Qed.

Lemma handleRequest_total s conn h body w :
  t_wf conn -> room conn 1 ->
  exists conn' w', handleRequest s conn h body w = Some (conn', w') /\ after_reply conn conn'.
Proof.
  intros Hw Hroom. unfold handleRequest.
  destruct (RawCodec.decodeRequest_total body (mkRequest [] [] [])) as [(req & _ & _ & ->)|[_ ->]];
    cbn [mbind option_bind negb].
  - destruct (dispatch_response (registry_ s) w req) as (o & r & w' & ->).
    set (r' := match o with Returned _ => Some r | Threw => _ end).
    assert (exists r1, r' = Some r1) as [r1 ->] by (destruct o; subst r'; eauto).
    cbn [mbind option_bind].
    edestruct sendResponse_total as (c & -> & Hc); [done..|]. cbn [mbind option_bind]. eauto.
  - edestruct rejectAndClose_total as (c & -> & Hc & _); [done..|]. cbn [mbind option_bind]. eauto.
Qed.

Lemma onFrame_total s conn h body w :
  t_wf conn -> room conn 1 ->
  exists conn' w' k, onFrame s conn h body w = Some (conn', w', k) /\ after_reply conn conn' /\
    (k = false -> connected conn' = false).
Proof.
  intros Hw Hroom. unfold onFrame. repeat case_match;
  lazymatch goal with
  | |- context [rejectAndClose _ _ ?st] =>
      destruct (rejectAndClose_total conn (requestId h) st Hw Hroom) as (c & -> & Hc & Hd)
  | |- context [sendResponse _ _ ?r] =>
      destruct (sendResponse_total conn (requestId h) r Hw Hroom) as (c & -> & Hc)
  | _ => destruct (handleRequest_total s conn h body w Hw Hroom) as (c & w' & -> & Hc)
  end; cbn [mbind option_bind]; eauto 10 with congruence.
Qed.

Lemma onIncomplete_total s conn buf :
  t_wf conn -> exists conn', onIncomplete s conn buf = Some conn' /\ t_wf conn' /\
    (connected conn' = true -> readableBytes buf <= input_limit s).
Proof.
  intros Hw. unfold onIncomplete. fold (input_limit s). destruct (Z.ltb_spec (input_limit s) (readableBytes buf)); [|eauto].
  destruct (forceClose_ok conn Hw) as (c & -> & ? & E & _). exists c. rewrite E. auto with congruence.
Qed.

Lemma onProtocolError_total conn buf :
  t_wf conn -> buffer_wf buf -> room conn 1 ->
  exists conn', onProtocolError conn buf = Some conn' /\ t_wf conn' /\ connected conn' = false.
Proof.
  intros Hw Hb Hroom. unfold onProtocolError. rewrite readable_contents by done.
  destruct (forceClose_ok conn Hw) as (cf & Ef & Wf & Cf & _).
  destruct (peek_contents buf Hb) as [d Hd].
  destruct (Z.ltb_spec (len (contents buf)) kHeaderSize) as [|Hs]; [eauto|].
  rewrite Hd, (decodeHeader_prefix _ _ _ (len (contents buf))) by done.
  destruct (decodeHeader_some (contents buf) zeroHeader Hs) as [->|(h & -> & _)]; cbn [mbind option_bind]; [eauto|].
  destruct (rejectAndClose_total conn (requestId h) StatusCode.kBodyTooLarge Hw Hroom) as (c & -> & [? _] & ?); eauto.
Qed.

(** Any bytes whatsoever: the loop ends with a well-formed buffer, and if it
    leaves the connection to wait for more, an incomplete frame is what is left. *)
Lemma loop_total s : forall bs conn w buf fuel,
  server_wf s -> contents buf = bs -> buffer_wf buf -> t_wf conn ->
  room conn (S (length bs)) -> (length bs < fuel)%nat ->
  exists conn' buf' w', onMessage_loop fuel s conn buf w = Some (conn', buf', w') /\
    t_wf conn' /\ buffer_wf buf' /\
    (connected conn' = true -> parse_bytes (frameReader_ s) (contents buf') = FNeedMore /\
                               len (contents buf') <= input_limit s).
Proof.
  intros bs. induction bs as [bs E|bs E|bs [h body] rest E IH] using (stream_ind (frameReader_ s));
    intros conn w buf fuel Hs Hc Hb Hw Hroom Hf; (destruct fuel as [|fuel]; [lia|]);
    pose proof (loop_step s conn w buf fuel Hs Hb) as St; rewrite Hc, E in St; unfold room in Hroom.
  - rewrite St. destruct (onIncomplete_total s conn buf Hw) as (c & -> & ? & L).
    rewrite readable_contents, Hc in L by done. exists c, buf, w. rewrite Hc. split_and!; auto.
  - rewrite St. destruct (onProtocolError_total conn buf) as (c & -> & ? & D);
      [done..|unfold room, reply_max in *; lia|]. exists c, buf, w. rewrite D. split_and!; auto with congruence.
  - destruct St as (b1 & Hb1 & Hc1 & _ & ->). apply parse_bytes_shorter in E.
    destruct (onFrame_total s conn h body w Hw) as (c1 & w1 & k & -> & [Hw1 Hl1] & D);
      [unfold room, reply_max in *; lia|]. cbn [mbind option_bind].
    destruct k; [|exists c1, b1, w1; rewrite D by done; auto with congruence]. apply IH; try done; [|lia]. unfold room, reply_max in *. lia.
Qed.
(** ** A connection's life: reads, each followed by the message callback *)

Fixpoint serve_reads (s : RpcServer W) (conn : T) (buf : Buffer) (w : W) (chunks : list bytes)
  : option (T * Buffer * W) :=
  match chunks with
  | [] => Some (conn, buf, w)
  | c :: cs =>
      buf ← append buf c;
      '(conn, buf, w) ← srv_onMessage s conn buf w;
      serve_reads s conn buf w cs
  end.

(** The configured limit does not interfere with frames the reader accepts; the
    default configuration (no explicit limit) always satisfies it. *)
Definition limit_ok (s : RpcServer W) : Prop :=
  maxInputBufferSize_ s = 0 \/ maxFrameSize_ (frameReader_ s) <= maxInputBufferSize_ s.

Lemma limit_ok_needmore s bs :
  server_wf s -> limit_ok s -> parse_bytes (frameReader_ s) bs = FNeedMore -> len bs <= input_limit s.
Proof.
  intros Hs Hl Hp. unfold server_wf in Hs. pose proof Hs as [Hs1 _]. apply needmore_bound in Hp; [|done].
  unfold input_limit. destruct (Z.eqb_spec (maxInputBufferSize_ s) 0); cbn [negb];
    destruct Hl; lia.
Qed.

Lemma onMessage_answers s conn w buf fs rest replies w' :
  server_wf s -> limit_ok s -> buffer_wf buf -> t_wf conn -> connected conn = true ->
  stream_all (frameReader_ s) (contents buf) = (fs, EndNeedMore rest) ->
  room conn (length fs) -> answer_all s w fs = Some (replies, w') ->
  exists conn' buf', srv_onMessage s conn buf w = Some (conn', buf', w') /\
    extends conn conn' (concat replies) /\ len (concat replies) <= Z.of_nat (length fs) * reply_max /\
    buffer_wf buf' /\ contents buf' = rest /\ buffer_ buf' = buffer_ buf.
Proof.
  intros Hs Hl Hb Hw Hc Hst Hroom Ha.
  pose proof (consumes_stream (frameReader_ s) (contents buf)) as Hcs.
  pose proof (stream_all_end (frameReader_ s) (contents buf)) as He.
  rewrite Hst in Hcs, He. simpl in Hcs, He. pose proof (consumes_length _ _ _ _ Hcs) as Hn.
  unfold srv_onMessage. rewrite readable_contents by done. unfold len at 1. rewrite Nat2Z.id.
  set (fuel := (length (contents buf) - length fs)%nat).
  replace (S (length (contents buf))) with (length fs + S fuel)%nat by (subst fuel; lia).
  destruct (loop_answers s fs rest conn w buf (S fuel) replies w') as (c & b & ? & ? & Eb & ? & ? & ->); try done.
  exists c, b. split_and!; try done. pose proof (loop_step s c w' b fuel Hs) as St.
  rewrite Eb, He in St. rewrite St by done. unfold onIncomplete. fold (input_limit s).
  rewrite readable_contents, Eb, (proj2 (Z.ltb_ge _ _)); [done| |done].
  by apply limit_ok_needmore.
Qed.

Lemma answer_all_app s w fs1 fs2 replies w' :
  answer_all s w (fs1 ++ fs2) = Some (replies, w') ->
  exists r1 w1 r2, answer_all s w fs1 = Some (r1, w1) /\ answer_all s w1 fs2 = Some (r2, w') /\
    replies = r1 ++ r2.
Proof.
  revert w replies. induction fs1 as [|f fs1 IH]; intros w replies; cbn [answer_all app].
  { intros E. by exists [], w, replies. }
  intros E. apply bind_Some in E as ([r wf] & Ef & E). apply bind_Some in E as ([rs wr] & Er & [= <- <-]).
  destruct (IH _ _ Er) as (r1 & w1 & r2 & E1 & E2 & ->).
  exists (respond f.1 r :: r1), w1, r2. rewrite Ef. cbn [mbind option_bind]. by rewrite E1.
Qed.

Lemma serve_reads_answers s chunks : forall conn w buf fs partial replies w' total,
  server_wf s -> limit_ok s -> buffer_wf buf -> t_wf conn -> connected conn = true ->
  parse_bytes (frameReader_ s) (contents buf) = FNeedMore ->
  feed (frameReader_ s) (contents buf) chunks = (fs, EndNeedMore partial) ->
  room conn (length fs) -> answer_all s w fs = Some (replies, w') ->
  len (contents buf) + len (concat chunks) <= total -> len (buffer_ buf) <= 3 * total + 2 ^ 60 ->
  total < 2 ^ 60 ->
  exists conn' buf', serve_reads s conn buf w chunks = Some (conn', buf', w') /\
    extends conn conn' (concat replies) /\ buffer_wf buf' /\ contents buf' = partial.
Proof.
  induction chunks as [|c cs IH];
    intros conn w buf fs partial replies w' total Hs Hl Hb Hw Hc Hp Hfeed Hroom Ha Ht Hsz Hmax; cbn [feed serve_reads] in *.
  { injection Hfeed as <- <-. injection Ha as <- <-. exists conn, buf. split_and!; try done. by apply extends_refl. }
  cbn [concat] in Ht. destruct (append_spec buf c Hb) as (b1 & -> & Hb1 & Cb1 & Lb1); [solve_len|].
  cbn [mbind option_bind]. rewrite <- Cb1 in Hfeed.
  pose proof (stream_all_end (frameReader_ s) (contents b1)) as He.
  destruct (stream_all (frameReader_ s) (contents b1)) as [fs1 [r1| |]] eqn:Est; try done.
  destruct (feed (frameReader_ s) r1 cs) as [fs2 e2] eqn:Ef. injection Hfeed as <- ->.
  destruct (answer_all_app _ _ _ _ _ _ Ha) as (rs1 & w1 & rs2 & Ha1 & Ha2 & ->).
  unfold room in Hroom. rewrite length_app in Hroom. unfold reply_max in Hroom.
  destruct (onMessage_answers s conn w b1 fs1 r1 rs1 w1) as (c1 & b2 & -> & X1 & L1 & Hb2 & Cb2 & Bb2);
    try done; [unfold room, reply_max; lia|].
  cbn [mbind option_bind]. simpl in He. rewrite <- Cb2 in Ef, He.
  assert (len (contents b2) <= len (contents b1)).
  { pose proof (consumes_stream (frameReader_ s) (contents b1)) as Hcs. rewrite Est in Hcs.
    apply consumes_length in Hcs. simpl in Hcs. rewrite <- Cb2 in Hcs. solve_len. }
  destruct (IH c1 w1 b2 fs2 partial rs2 w' total) as (c2 & b3 & -> & X2 & ? & ?); try done; try apply X1.
  - destruct X1 as (_ & _ & _ & ? & _). unfold room, reply_max in *. lia.
  - rewrite Cb1 in *. solve_len.
  - rewrite Bb2. unfold kCheapPrepend in *. solve_len.
  - exists c2, b3. split_and!; try done. rewrite concat_app. by eapply extends_trans.
Qed.
(** ** Rejections *)

(** The status a frame is refused with before its body is looked at. *)
Definition policy_status (h : MessageHeader) : option Z :=
  if negb (version h =? kVersion) then Some StatusCode.kUnsupportedVersion
  else if negb (type h =? MessageType.kRequest) then Some StatusCode.kUnsupportedMsgType
  else if negb (flags h =? 0) then Some StatusCode.kUnsupportedFlag
  else None.

(** What [docs/rfc/0001], section 7, has refused before the body is looked at: a
    foreign version, an unknown type, and in a request one of the flags defined but
    not implemented, bits 0 and 1.  Bits 2 to 7 are to be ignored, and a response
    sent to a server is not to be answered; the code does neither. *)
Definition refused (h : MessageHeader) : option Z :=
  if negb (version h =? kVersion) then Some StatusCode.kUnsupportedVersion
  else if type h =? MessageType.kResponse then None
  else if negb (type h =? MessageType.kRequest) then Some StatusCode.kUnsupportedMsgType
  else if Z.testbit (flags h) 0 || Z.testbit (flags h) 1 then Some StatusCode.kUnsupportedFlag
  else None.

Lemma refused_policy h st : refused h = Some st -> policy_status h = Some st.
Proof.
  unfold refused, policy_status. destruct (version h =? kVersion); cbn [negb]; [|done].
  destruct (type h =? MessageType.kResponse); [done|]. destruct (type h =? MessageType.kRequest); cbn [negb]; [|done].
  destruct (Z.eqb_spec (flags h) 0) as [->|_]; [done|]. by destruct (_ || _).
Qed.

(** [conn'] is [conn] after the last bytes [out] and a shutdown. *)
Definition closed_after (conn conn' : T) (out : bytes) : Prop :=
  t_wf conn' /\ connected conn' = false /\ (t_broken conn -> t_broken conn') /\
  (t_out conn' = t_out conn ++ out \/ t_broken conn').

Lemma rejectAndClose_open conn h st :
  t_wf conn -> connected conn = true -> room conn 1 ->
  exists conn', rejectAndClose conn (requestId h) st = Some conn' /\
    closed_after conn conn' (respond h (Response_of st)).
Proof.
  unfold room. intros Hw Hc Hroom. unfold rejectAndClose.
  pose proof (respond_len h (Response_of st) ltac:(unfold kMaxBodyLen; simpl; solve_len)) as Hl.
  destruct (sendResponse_open conn h (Response_of st)) as (c & -> & Wc & _ & Bc & _ & Oc); try done; try lia.
  cbn [mbind option_bind]. destruct (shutdown_ok c Wc) as (c' & -> & ? & ? & Eo & Eb).
  exists c'. split; [done|]. split_and!; try done; [tauto|]. rewrite Eo. tauto.
Qed.

Lemma closed_after_extends c1 c2 c3 o1 o2 :
  extends c1 c2 o1 -> closed_after c2 c3 o2 -> closed_after c1 c3 (o1 ++ o2).
Proof.
  intros (_ & _ & B2 & _ & O2) (W3 & C3 & B3 & O3). split_and!; try done; [tauto|].
  destruct O2 as [E2|?]; [|tauto]. destruct O3 as [E3|?]; [|tauto].
  left. by rewrite E3, E2, app_assoc.
Qed.

Lemma onFrame_rejects s conn w h body st :
  policy_status h = Some st ->
  onFrame s conn h body w =
    conn ← rejectAndClose conn (requestId h) st; Some (conn, w, false).
Proof.
  unfold policy_status, onFrame. repeat case_match; naive_solver.
Qed.
(** C22: Total on every input.  Whatever bytes the peer sent and whatever the
    handlers answer, the message callback returns, without touching memory
    outside the buffer, and a connection it leaves open holds no more than an
    incomplete frame that respects the input limit. *)
Theorem onMessage_total s conn w buf :
  server_wf s -> buffer_wf buf -> t_wf conn -> room conn (S (length (contents buf))) ->
  exists conn' buf' w', srv_onMessage s conn buf w = Some (conn', buf', w') /\
    t_wf conn' /\ buffer_wf buf' /\
    (connected conn' = true -> parse_bytes (frameReader_ s) (contents buf') = FNeedMore /\
                               len (contents buf') <= input_limit s).
Proof.
  intros Hs Hb Hw Hroom. unfold srv_onMessage. rewrite readable_contents by done.
  apply (loop_total s (contents buf)); try done. unfold len. lia.
Qed.

(** C5: The RPC server end to end.  However the network cuts a stream of requests
    with a nonzero id and a zero status byte into reads, the server answers every complete request exactly once, in
    order, with the handlers run in that order on the application state, keeps
    the connection open, and keeps exactly the incomplete tail in its buffer.
    (If the peer turns out to be unreachable, only the answers are lost.) *)
Theorem serve_stream s conn w fs partial chunks replies w' :
  server_wf s -> limit_ok s -> t_wf conn -> connected conn = true ->
  Forall (frame_ok (frameReader_ s)) fs -> Forall conforming fs ->
  parse_bytes (frameReader_ s) partial = FNeedMore ->
  concat chunks = concat (frame_bytes <$> fs) ++ partial ->
  len (concat chunks) < 2 ^ 60 -> room conn (length fs) ->
  answer_all s w fs = Some (replies, w') ->
  exists conn' buf', serve_reads s conn (Buffer_new kInitialSize) w chunks = Some (conn', buf', w') /\
    extends conn conn' (concat replies) /\ contents buf' = partial.
Proof.
  intros Hs Hl Hw Hc Hfs _ Hp Hcat Hlen Hroom Ha.
  destruct (Buffer_new_wf kInitialSize) as [Hb Cb]; [unfold kInitialSize; lia|].
  destruct (serve_reads_answers s chunks conn w (Buffer_new kInitialSize) fs partial replies w'
              (len (concat chunks))) as (c & b & ? & ? & _ & ?); try done; rewrite ?Cb; try done.
  - by apply feed_frames.
  - pose proof (len_nonneg (concat chunks)). rewrite Buffer_new_size by done. lia.
  - eauto.
Qed.

(** C39: Protocol violations.  After answering the requests [fs] before it, a frame
    with a foreign version, with a type that is neither request nor response, or a
    request with flag bit 0 or 1 set is answered with the status the protocol
    assigns to the violation and the connection is shut down; what follows it is
    neither dispatched nor answered.  All of them carry a nonzero id and a zero
    status byte. *)
Theorem violation_closes s conn w buf (fs : list frame) h body rest replies w' st :
  server_wf s -> buffer_wf buf -> t_wf conn -> connected conn = true ->
  consumes (frameReader_ s) (contents buf) (fs ++ [(h, body)]) rest ->
  room conn (S (length fs)) -> answer_all s w fs = Some (replies, w') ->
  Forall conforming (fs ++ [(h, body)]) -> refused h = Some st ->
  exists conn' buf', srv_onMessage s conn buf w = Some (conn', buf', w') /\
    closed_after conn conn' (concat replies ++ respond h (Response_of st)) /\ contents buf' = rest.
Proof.
  intros Hs Hb Hw Hc Hcs Hroom Ha _ Hst%refused_policy. pose proof (consumes_length _ _ _ _ Hcs) as Hn.
  rewrite length_app in Hn. cbn [length] in Hn.
  apply consumes_app in Hcs as (mid & Hcs & (rest' & Hp & Hr)).
  cbn [consumes] in Hr. subst rest'.
  unfold room in Hroom. unfold srv_onMessage. rewrite readable_contents by done.
  unfold len at 1. rewrite Nat2Z.id. set (fuel := (length (contents buf) - length fs)%nat).
  replace (S (length (contents buf))) with (length fs + S fuel)%nat by (subst fuel; lia).
  destruct (loop_answers s fs mid conn w buf (S fuel) replies w') as (c & b & X & Hb' & Eb & _ & L & ->);
    try done; [unfold room, reply_max in *; lia|].
  pose proof (loop_step s c w' b fuel Hs Hb') as St. rewrite Eb, Hp in St.
  destruct St as (b2 & _ & Cb2 & _ & ->). rewrite (onFrame_rejects _ _ _ _ _ st) by done.
  destruct (rejectAndClose_open c h st) as (c' & -> & X'); [apply X..| |].
  { destruct X as (_ & _ & _ & ? & _). unfold room, reply_max in *. lia. }
  exists c', b2. split_and!; [done| |done]. by eapply closed_after_extends.
Qed.
(** What a framing error is answered with: nothing if the bytes are not even a
    header of this protocol, [kBodyTooLarge] if they are. *)
Definition framing_reply (rest : bytes) : bytes :=
  match decodeHeader (Some rest) (len rest) (Some zeroHeader) with
  | Some (true, Some h) => respond h (Response_of StatusCode.kBodyTooLarge)
  | _ => []
  end.

Lemma parse_error_long fr bs : parse_bytes fr bs = FError -> kHeaderSize <= len bs.
Proof. unfold parse_bytes. by destruct (Z.ltb_spec (len bs) kHeaderSize). Qed.

Lemma onProtocolError_closes conn buf :
  t_wf conn -> connected conn = true -> buffer_wf buf -> room conn 1 -> kHeaderSize <= len (contents buf) ->
  exists conn', onProtocolError conn buf = Some conn' /\ closed_after conn conn' (framing_reply (contents buf)).
Proof.
  intros Hw Hc Hb Hroom Hs. unfold onProtocolError, framing_reply. rewrite readable_contents by done.
  rewrite (proj2 (Z.ltb_ge _ _)) by done. destruct (peek_contents buf Hb) as [d Hd].
  rewrite Hd, (decodeHeader_prefix _ _ _ (len (contents buf))) by done.
  destruct (decodeHeader_some (contents buf) zeroHeader Hs) as [->|(h & -> & _)]; cbn [mbind option_bind].
  - destruct (forceClose_ok conn Hw) as (c & -> & ? & ? & E & ?). exists c. split; [done|].
    split_and!; try done. left. by rewrite E, app_nil_r.
  - by apply rejectAndClose_open.
Qed.

(** C40: Framing errors.  Bytes that are not a header of this protocol close the
    connection without a reply; a header that declares a body over the limit is
    answered with [kBodyTooLarge] under its own request id.  Either way the
    requests before it were answered and nothing after it is looked at. *)
Theorem framing_error_closes s conn w buf (fs : list frame) rest replies w' :
  server_wf s -> buffer_wf buf -> t_wf conn -> connected conn = true ->
  stream_all (frameReader_ s) (contents buf) = (fs, EndError rest) ->
  room conn (S (length fs)) -> answer_all s w fs = Some (replies, w') ->
  exists conn' buf', srv_onMessage s conn buf w = Some (conn', buf', w') /\
    closed_after conn conn' (concat replies ++ framing_reply rest) /\ contents buf' = rest.
Proof.
  intros Hs Hb Hw Hc Hst Hroom Ha.
  pose proof (consumes_stream (frameReader_ s) (contents buf)) as Hcs.
  pose proof (stream_all_end (frameReader_ s) (contents buf)) as He.
  rewrite Hst in Hcs, He. cbn [fst snd end_rest] in Hcs, He.
  pose proof (consumes_length _ _ _ _ Hcs) as Hn. unfold room in Hroom.
  unfold srv_onMessage. rewrite readable_contents by done.
  unfold len at 1. rewrite Nat2Z.id. set (fuel := (length (contents buf) - length fs)%nat).
  replace (S (length (contents buf))) with (length fs + S fuel)%nat by (subst fuel; lia).
  destruct (loop_answers s fs rest conn w buf (S fuel) replies w') as (c & b & X & Hb' & Eb & _ & L & ->);
    try done; [unfold room, reply_max in *; lia|].
  pose proof (loop_step s c w' b fuel Hs Hb') as St. rewrite Eb, He in St. rewrite St.
  destruct (onProtocolError_closes c b) as (c' & -> & X'); try done; try apply X.
  - destruct X as (_ & _ & _ & ? & _). unfold room, reply_max in *. lia.
  - rewrite Eb. by eapply parse_error_long.
  - rewrite Eb in X'. exists c', b. split_and!; [done| |done]. by eapply closed_after_extends.
Qed.

(** *** A malformed envelope does not stop the loop *)

Lemma onFrame_closed s conn w h body r w' :
  t_wf conn -> connected conn = false -> answer s w (h, body) = Some (r, w') ->
  onFrame s conn h body w = Some (conn, w', true).
Proof.
  intros Hw Hc Ha. rewrite (onFrame_sends _ _ _ _ _ _ _ Ha). apply answer_small in Ha.
  unfold sendResponse, RawCodec.encodeResponse. rewrite (proj2 (Z.ltb_ge _ _)) by done.
  by rewrite send_closed.
Qed.

Lemma loop_closed s fs rest : forall conn w buf fuel replies w',
  server_wf s -> buffer_wf buf -> t_wf conn -> connected conn = false ->
  consumes (frameReader_ s) (contents buf) fs rest -> answer_all s w fs = Some (replies, w') ->
  exists buf', buffer_wf buf' /\ contents buf' = rest /\
    onMessage_loop (length fs + fuel) s conn buf w = onMessage_loop fuel s conn buf' w'.
Proof.
  induction fs as [|[h body] fs IH]; intros conn w buf fuel replies w' Hs Hb Ht Hc Hfs Ha.
  { injection Ha as <- <-. by exists buf. }
  destruct Hfs as (s1 & Hp & Hfs). cbn [answer_all] in Ha.
  apply bind_Some in Ha as ([r w1] & Ha1 & Ha). apply bind_Some in Ha as ([rs w2] & Ha2 & [= <- <-]).
  pose proof (loop_step s conn w buf (length fs + fuel) Hs Hb) as St.
  rewrite Hp in St. destruct St as (b1 & Hb1 & <- & _ & St).
  rewrite (onFrame_closed s conn w h body r w1) in St by done. cbn [mbind option_bind] in St.
  destruct (IH conn w1 b1 fuel rs w2) as (b2 & ? & ? & E2); try done.
  exists b2. split_and!; try done. rewrite <- E2. exact St.
Qed.

(** A request whose envelope does not decode is answered with
    [kMalformedBody] and the connection is shut down, but the loop goes on: the
    handlers of the well-formed requests behind it in the same buffer still run,
    although their answers can no longer be sent. *)
Theorem malformed_body_keeps_dispatching s conn w buf h body (fs : list frame) rest replies w' :
  server_wf s -> limit_ok s -> buffer_wf buf -> t_wf conn -> connected conn = true ->
  stream_all (frameReader_ s) (contents buf) = ((h, body) :: fs, EndNeedMore rest) ->
  room conn 1 -> policy_status h = None -> serializerId h = serializerId_ s ->
  RawCodec.decodeRequest body (Some (mkRequest [] [] [])) = Some (false, Some (mkRequest [] [] [])) ->
  answer_all s w fs = Some (replies, w') ->
  exists conn' buf', srv_onMessage s conn buf w = Some (conn', buf', w') /\
    closed_after conn conn' (respond h (Response_of StatusCode.kMalformedBody)) /\ contents buf' = rest.
Proof.
  intros Hs Hl Hb Hw Hc Hst Hroom Hpol Hser Hdec Ha.
  pose proof (consumes_stream (frameReader_ s) (contents buf)) as Hcs.
  pose proof (stream_all_end (frameReader_ s) (contents buf)) as He.
  rewrite Hst in Hcs, He. cbn [fst snd end_rest] in Hcs, He.
  pose proof (consumes_length _ _ _ _ Hcs) as Hn. cbn [length] in Hn.
  destruct Hcs as (s1 & Hp & Hcs). unfold srv_onMessage. rewrite readable_contents by done.
  unfold len at 1. rewrite Nat2Z.id. set (fuel := (length (contents buf) - length fs - 1)%nat).
  replace (S (length (contents buf))) with (S (length fs + S fuel))%nat by (subst fuel; lia).
  pose proof (loop_step s conn w buf (length fs + S fuel) Hs Hb) as St.
  rewrite Hp in St. destruct St as (b1 & Hb1 & <- & _ & ->).
  destruct (rejectAndClose_open conn h StatusCode.kMalformedBody) as (c & Ec & X); try done.
  assert (onFrame s conn h body w = Some (c, w, true)) as ->.
  { unfold onFrame. unfold policy_status in Hpol. rewrite Hser, Z.eqb_refl.
    repeat case_match; try done. unfold handleRequest. rewrite Hdec. cbn [mbind option_bind negb]. by rewrite Ec. }
  cbn [mbind option_bind]. destruct (loop_closed s fs rest c w b1 (S fuel) replies w')
    as (b2 & Hb2 & Eb & ->); try done; try apply X.
  exists c, b2. split_and!; try done. pose proof (loop_step s c w' b2 fuel Hs Hb2) as St.
  rewrite Eb, He in St. rewrite St. unfold onIncomplete. fold (input_limit s).
  rewrite readable_contents, Eb, (proj2 (Z.ltb_ge _ _)); [done| |done]. by apply limit_ok_needmore.
Qed.
End correctness.

(** ** Concrete runs on the sink transport *)
Module Sample.
(** One service that counts its calls and echoes the payload. *)
Definition echo : ErasedMethod Z := fun w p => (Some p, w + 1).

Definition server : RpcServer Z :=
  mkRpcServer (freeze (registerMethod ServiceRegistry_new (str "Echo") (str "Say") (Some echo)).2)
    (FrameReader_new kDefaultMaxFrameSize) 0 kSerializerRaw.

Definition conn : Sink.t := Sink.mk true [].

Definition frame_of (ty fl id : Z) (body : bytes) : frame :=
  (mkHeader kMagic kVersion ty fl StatusCode.kOk kSerializerRaw id (len body), body).

Definition request (id : Z) (p : bytes) : frame :=
  frame_of MessageType.kRequest 0 id (RawCodec.request_bytes (mkRequest (str "Echo") (str "Say") p)).

Definition buffer_of (bs : bytes) : Buffer := layout (replicate 8 x00) bs [].

Lemma request_frame_ok id p :
  0 <= id < 2 ^ 32 -> len p < 100 -> frame_ok (frameReader_ server) (request id p).
Proof.
  intros Hid Hp. unfold request, frame_of, frame_ok, header_wf. cbn [fst snd].
  rewrite RawCodec.request_bytes_len. cbn [service method payload magic version type flags status
    serializerId requestId bodyLen]. pose proof (len_nonneg p).
  change (len (str "Echo")) with 4. change (len (str "Say")) with 3.
  change (bodyLimit (frameReader_ server)) with 4194288.
  unfold kMagic, kVersion, MessageType.kRequest, StatusCode.kOk, kSerializerRaw. split_and!; lia.
Qed.
End Sample.

(** A request cut in the middle, then a second one and the start of a third. *)
Lemma serve_stream_witness :
  let f1 := Sample.request 1 [x2a] in let f2 := Sample.request 2 [x2b] in
  exists conn' buf',
    serve_reads Sample.server Sample.conn (Buffer_new kInitialSize) 0
      [take 20 (frame_bytes f1); drop 20 (frame_bytes f1) ++ frame_bytes f2 ++ [x52]]
      = Some (conn', buf', 2) /\
    extends Sample.conn conn' (respond f1.1 (mkResponse 0 [x2a] 0) ++ respond f2.1 (mkResponse 0 [x2b] 0)) /\
    contents buf' = [x52].
Proof.
  intros f1 f2.
  pose proof (serve_stream Sample.server Sample.conn 0 [f1; f2] [x52]
    [take 20 (frame_bytes f1); drop 20 (frame_bytes f1) ++ frame_bytes f2 ++ [x52]]
    [respond f1.1 (mkResponse 0 [x2a] 0); respond f2.1 (mkResponse 0 [x2b] 0)] 2) as K.
  change (respond f1.1 (mkResponse 0 [x2a] 0) ++ respond f2.1 (mkResponse 0 [x2b] 0)) with
    (concat [respond f1.1 (mkResponse 0 [x2a] 0); respond f2.1 (mkResponse 0 [x2b] 0)]).
  apply K; [by vm_compute|by left|done|done| |by repeat constructor|by vm_compute|by vm_compute|by vm_compute|by vm_compute|by vm_compute].
  repeat constructor; apply Sample.request_frame_ok; by vm_compute.
Defined.

(** Garbage: sixteen zero bytes. *)
Lemma onMessage_total_witness :
  exists conn' buf' w',
    srv_onMessage Sample.server Sample.conn (Sample.buffer_of (replicate 16 x00)) 0 = Some (conn', buf', w') /\
    t_wf conn' /\ buffer_wf buf' /\
    (connected conn' = true -> parse_bytes (frameReader_ Sample.server) (contents buf') = FNeedMore /\
                               len (contents buf') <= input_limit Sample.server).
Proof. apply onMessage_total; by vm_compute. Defined.

(** A request, a one-way request, and another request. *)
Lemma violation_closes_witness :
  let f1 := Sample.request 1 [x2a] in let f3 := Sample.request 3 [x2c] in
  let bad := Sample.frame_of MessageType.kRequest 2 2 [x00] in
  exists conn' buf',
    srv_onMessage Sample.server Sample.conn
      (Sample.buffer_of (frame_bytes f1 ++ frame_bytes bad ++ frame_bytes f3)) 0 = Some (conn', buf', 1) /\
    closed_after Sample.conn conn'
      (concat [respond f1.1 (mkResponse 0 [x2a] 0)] ++
       respond bad.1 (Response_of StatusCode.kUnsupportedFlag)) /\
    contents buf' = frame_bytes f3.
Proof.
  intros f1 f3 bad. apply (violation_closes Sample.server Sample.conn 0 _ [f1] bad.1 bad.2);
    [by vm_compute|by vm_compute|done|done| |by vm_compute|by vm_compute|by repeat constructor|by vm_compute].
  eexists; split; [by vm_compute|]. eexists; split; by vm_compute.
Defined.

(** A request, then a header that declares a body of 16 MiB. *)
Lemma framing_error_closes_witness :
  let f1 := Sample.request 1 [x2a] in
  let big := encodeHeader (mkHeader kMagic kVersion MessageType.kRequest 0 0 0 9 kMaxBodyLen) in
  exists conn' buf',
    srv_onMessage Sample.server Sample.conn (Sample.buffer_of (frame_bytes f1 ++ big)) 0 = Some (conn', buf', 1) /\
    closed_after Sample.conn conn'
      (concat [respond f1.1 (mkResponse 0 [x2a] 0)] ++ framing_reply big) /\
    contents buf' = big.
Proof.
  intros f1 big.
  apply (framing_error_closes Sample.server Sample.conn 0 _ [f1] big);
    [by vm_compute|by vm_compute|done|done|by vm_compute|by vm_compute|by vm_compute].
Defined.

(** A request with an empty envelope, then a good request: the counter moves. *)
Lemma malformed_body_keeps_dispatching_witness :
  let bad := Sample.frame_of MessageType.kRequest 0 1 [] in let f2 := Sample.request 2 [x2b] in
  exists conn' buf',
    srv_onMessage Sample.server Sample.conn (Sample.buffer_of (frame_bytes bad ++ frame_bytes f2)) 0
      = Some (conn', buf', 1) /\
    closed_after Sample.conn conn' (respond bad.1 (Response_of StatusCode.kMalformedBody)) /\
    contents buf' = [].
Proof.
  intros bad f2.
  apply (malformed_body_keeps_dispatching Sample.server Sample.conn 0 _ bad.1 bad.2 [f2] []
    [respond f2.1 (mkResponse 0 [x2b] 0)]);
    [by vm_compute|by left|by vm_compute|done|done|by vm_compute..].
Defined.
