(* ===== verification/RpcClient.v ===== *)
(** * RpcClient: correlating responses with calls

    [rpc/include/rpc/rpc_client.h] and [rpc/src/rpc_client.cpp].  Everything
    below runs on the loop thread, except [connect], whose critical section and
    wait are modelled as separate steps.

    A completion is user code that runs once, with a response, and may start
    further calls or disconnect before it returns.  It is modelled by the tree of
    what it does: [react r] is the list of client operations it performs when
    called with [r].  Since a completion runs at most once, every execution of
    arbitrary, stateful user callbacks is an execution of such trees.

    Ghost fields record what the user can observe: the calls handed to the loop
    ([started]), the completions run ([completed]), the resolved connect promises
    ([resolved]) and the request ids put on the wire ([sent]). *)
From S2P Require Import Prelude Protocol Buffer FrameReader Codec Transport.

Inductive Completion :=
| mkCompletion (token : Z) (react : Response -> list Action)
with Action :=
| ACall (request : Request) (complete : Completion) (deadline : bool)
| ADisconnect.

Definition token (c : Completion) : Z := let 'mkCompletion t _ := c in t.
Definition react (c : Completion) : Response -> list Action := let 'mkCompletion _ f := c in f.

(** Induction over completions, through the reactions. *)
Section completion_ind.
Variable P : Completion -> Prop.
Variable Q : Action -> Prop.
Hypothesis H1 : forall t f, (forall r, Forall Q (f r)) -> P (mkCompletion t f).
Hypothesis H2 : forall req c d, P c -> Q (ACall req c d).
Hypothesis H3 : Q ADisconnect.

Fixpoint completion_ind' (c : Completion) : P c :=
  match c with
  | mkCompletion t f => H1 t f (fun r =>
      (fix go (l : list Action) : Forall Q l :=
         match l with
         | [] => Forall_nil_2 Q
         | a :: l => Forall_cons_2 Q a l
             (match a with
              | ACall req c d => H2 req c d (completion_ind' c)
              | ADisconnect => H3
              end) (go l)
         end) (f r))
  end.
End completion_ind.

Record PendingCall := mkPending {
  pc_id : Z;
  pc_complete : Completion;
  pc_timer : option Z            (* [TimerId{}] is [None] *)
}.

Definition kMaxRememberedTimeouts : Z := 1024.

Section client.
Context {T : Type} `{TransportOps T}.

Record RpcClient := mkRpcClient {
  cl_frameReader_ : FrameReader;
  cl_serializerId_ : Z;
  connection_ : option T;
  pendings_ : gmap Z PendingCall;
  timedOutIds_ : list Z;
  timedOutIdSet_ : gset Z;
  nextRequestId_ : Z;
  connected_ : bool;
  everConnected_ : bool;
  pendingConnect_ : option Z;    (* the promise, named by its waiter *)
  timers_ : gmap Z Z;            (* the loop's one-shot timers: timer -> request id *)
  nextTimer_ : Z;
  started : list Z;
  completed : list (Z * Response);
  resolved : list (Z * bool);
  sent : list (Z * Z)            (* request id, token *)
}.

(** A step either returns or stops the loop thread: on an assertion or an abort
    of the transport, or because no request id is free, where the source spins. *)
Inductive stop := Aborted | IdsExhausted.

Inductive outcome (A : Type) :=
| Ret (a : A)
| Stop (why : stop) (at_ : RpcClient).
#[global] Arguments Ret {A}.
#[global] Arguments Stop {A}.

Definition obind {A B} (m : outcome A) (f : A -> outcome B) : outcome B :=
  match m with Ret a => f a | Stop why st => Stop why st end.

(** A transport call: [None] aborts. *)
Definition lift (st : RpcClient) (m : option T) : outcome T :=
  match m with Some t => Ret t | None => Stop Aborted st end.
End client.
#[global] Arguments RpcClient : clear implicits.

Declare Scope client_scope.
Delimit Scope client_scope with client.
Notation "x <- m ;; k" := (obind m (fun x => k))
  (at level 100, m at next level, right associativity) : client_scope.
Local Open Scope client_scope.

Section operations.
Context {T : Type} `{TransportOps T}.

Definition set_connection (c : option T) (st : RpcClient T) : RpcClient T :=
  mkRpcClient (cl_frameReader_ st) (cl_serializerId_ st) c (pendings_ st) (timedOutIds_ st)
    (timedOutIdSet_ st) (nextRequestId_ st) (connected_ st) (everConnected_ st)
    (pendingConnect_ st) (timers_ st) (nextTimer_ st) (started st) (completed st)
    (resolved st) (sent st).
Definition set_pendings (m : gmap Z PendingCall) (st : RpcClient T) : RpcClient T :=
  mkRpcClient (cl_frameReader_ st) (cl_serializerId_ st) (connection_ st) m (timedOutIds_ st)
    (timedOutIdSet_ st) (nextRequestId_ st) (connected_ st) (everConnected_ st)
    (pendingConnect_ st) (timers_ st) (nextTimer_ st) (started st) (completed st)
    (resolved st) (sent st).
Definition set_timedOut (ids : list Z) (s : gset Z) (st : RpcClient T) : RpcClient T :=
  mkRpcClient (cl_frameReader_ st) (cl_serializerId_ st) (connection_ st) (pendings_ st) ids s
    (nextRequestId_ st) (connected_ st) (everConnected_ st) (pendingConnect_ st) (timers_ st)
    (nextTimer_ st) (started st) (completed st) (resolved st) (sent st).
Definition set_nextRequestId (n : Z) (st : RpcClient T) : RpcClient T :=
  mkRpcClient (cl_frameReader_ st) (cl_serializerId_ st) (connection_ st) (pendings_ st)
    (timedOutIds_ st) (timedOutIdSet_ st) n (connected_ st) (everConnected_ st)
    (pendingConnect_ st) (timers_ st) (nextTimer_ st) (started st) (completed st)
    (resolved st) (sent st).
Definition set_connected (b ever : bool) (st : RpcClient T) : RpcClient T :=
  mkRpcClient (cl_frameReader_ st) (cl_serializerId_ st) (connection_ st) (pendings_ st)
    (timedOutIds_ st) (timedOutIdSet_ st) (nextRequestId_ st) b ever (pendingConnect_ st)
    (timers_ st) (nextTimer_ st) (started st) (completed st) (resolved st) (sent st).
Definition set_pendingConnect (p : option Z) (st : RpcClient T) : RpcClient T :=
  mkRpcClient (cl_frameReader_ st) (cl_serializerId_ st) (connection_ st) (pendings_ st)
    (timedOutIds_ st) (timedOutIdSet_ st) (nextRequestId_ st) (connected_ st)
    (everConnected_ st) p (timers_ st) (nextTimer_ st) (started st) (completed st)
    (resolved st) (sent st).
Definition set_timers (m : gmap Z Z) (next : Z) (st : RpcClient T) : RpcClient T :=
  mkRpcClient (cl_frameReader_ st) (cl_serializerId_ st) (connection_ st) (pendings_ st)
    (timedOutIds_ st) (timedOutIdSet_ st) (nextRequestId_ st) (connected_ st)
    (everConnected_ st) (pendingConnect_ st) m next (started st) (completed st) (resolved st)
    (sent st).
Definition log_started (tok : Z) (st : RpcClient T) : RpcClient T :=
  mkRpcClient (cl_frameReader_ st) (cl_serializerId_ st) (connection_ st) (pendings_ st)
    (timedOutIds_ st) (timedOutIdSet_ st) (nextRequestId_ st) (connected_ st)
    (everConnected_ st) (pendingConnect_ st) (timers_ st) (nextTimer_ st)
    (started st ++ [tok]) (completed st) (resolved st) (sent st).
Definition log_completed (tok : Z) (r : Response) (st : RpcClient T) : RpcClient T :=
  mkRpcClient (cl_frameReader_ st) (cl_serializerId_ st) (connection_ st) (pendings_ st)
    (timedOutIds_ st) (timedOutIdSet_ st) (nextRequestId_ st) (connected_ st)
    (everConnected_ st) (pendingConnect_ st) (timers_ st) (nextTimer_ st) (started st)
    (completed st ++ [(tok, r)]) (resolved st) (sent st).
Definition log_resolved (w : Z) (b : bool) (st : RpcClient T) : RpcClient T :=
  mkRpcClient (cl_frameReader_ st) (cl_serializerId_ st) (connection_ st) (pendings_ st)
    (timedOutIds_ st) (timedOutIdSet_ st) (nextRequestId_ st) (connected_ st)
    (everConnected_ st) (pendingConnect_ st) (timers_ st) (nextTimer_ st) (started st)
    (completed st) (resolved st ++ [(w, b)]) (sent st).
Definition log_sent (id tok : Z) (st : RpcClient T) : RpcClient T :=
  mkRpcClient (cl_frameReader_ st) (cl_serializerId_ st) (connection_ st) (pendings_ st)
    (timedOutIds_ st) (timedOutIdSet_ st) (nextRequestId_ st) (connected_ st)
    (everConnected_ st) (pendingConnect_ st) (timers_ st) (nextTimer_ st) (started st)
    (completed st) (resolved st) (sent st ++ [(id, tok)]).

Definition connectionClosedResponse : Response := Response_of StatusCode.kConnectionClosed.
Definition badRequestResponse : Response := Response_of StatusCode.kBadRequest.
Definition timeoutResponse : Response := Response_of StatusCode.kTimeout.

Definition RpcClient_new : RpcClient T :=
  mkRpcClient (FrameReader_new kDefaultMaxFrameSize) kSerializerRaw None ∅ [] ∅ 1 false false None
    ∅ 0 [] [] [] [].

Definition cl_setSerializerId (id : Z) (st : RpcClient T) : RpcClient T :=
  mkRpcClient (cl_frameReader_ st) id (connection_ st) (pendings_ st) (timedOutIds_ st)
    (timedOutIdSet_ st) (nextRequestId_ st) (connected_ st) (everConnected_ st)
    (pendingConnect_ st) (timers_ st) (nextTimer_ st) (started st) (completed st) (resolved st) (sent st).

(** [loop_->runAfter] of [onTimeout id], and [loop_->cancelTimer]. *)
Definition runAfter (id : Z) (st : RpcClient T) : Z * RpcClient T :=
  (nextTimer_ st, set_timers (<[nextTimer_ st := id]> (timers_ st)) (nextTimer_ st + 1) st).

Definition cancelTimer (timer : option Z) (st : RpcClient T) : RpcClient T :=
  match timer with
  | Some t => set_timers (delete t (timers_ st)) (nextTimer_ st) st
  | None => st
  end.

(** The [for (;;)] of [allocateRequestId]: [fetch_add] wraps at 32 bits. *)
Fixpoint allocate_loop (fuel : nat) (st : RpcClient T) : outcome (T := T) (Z * RpcClient T) :=
  match fuel with
  | O => Stop IdsExhausted st
  | S fuel =>
      let id := nextRequestId_ st in
      let st := set_nextRequestId (u32 (id + 1)) st in
      if negb (id =? 0) && bool_decide (pendings_ st !! id = None) && bool_decide (id ∉ timedOutIdSet_ st)
      then Ret (id, st)
      else allocate_loop fuel st
  end.

(** The loop inspects each occupied id and zero at most once before it meets a
    free one, so this fuel is only exhausted when every id is taken. *)
Definition allocateRequestId (st : RpcClient T) : outcome (T := T) (Z * RpcClient T) :=
  allocate_loop (S (S (size (pendings_ st) + size (timedOutIdSet_ st)))) st.

Definition disconnect (st : RpcClient T) : outcome (T := T) (RpcClient T) :=
  match connection_ st with
  | Some c => c <- lift st (shutdown c);; Ret (set_connection (Some c) st)
  | None => Ret st
  end.

(** [startCallInLoop]; [run] is the effect of invoking [complete] on the spot. *)
Definition startCall_with (run : Response -> RpcClient T -> outcome (T := T) (RpcClient T))
    (request : Request) (complete : Completion) (deadline : bool) (st : RpcClient T)
  : outcome (T := T) (RpcClient T) :=
  let st := log_started (token complete) st in
  match connection_ st, connected_ st with
  | Some conn, true =>
      match RawCodec.encodeRequest request (Some []) with
      | (true, Some body) =>
          r <- allocateRequestId st;;
          let '(requestId, st) := r in
          let '(timer, st) :=
            if deadline : bool
            then let '(t, st) := runAfter requestId st in (Some t, st)
            else (None, st) in
          let st := set_pendings (<[requestId := mkPending requestId complete timer]> (pendings_ st)) st in
          let header := mkHeader kMagic kVersion MessageType.kRequest 0 StatusCode.kOk
                          (cl_serializerId_ st) requestId (u32 (len body)) in
          conn <- lift st (send conn (encodeHeader header ++ body));;
          Ret (log_sent requestId (token complete) (set_connection (Some conn) st))
      | _ => run badRequestResponse st
      end
  | _, _ => run connectionClosedResponse st
  end.

(** Invoking a completion: it is recorded, then does what its tree says. *)
Fixpoint complete (c : Completion) (r : Response) (st : RpcClient T) : outcome (T := T) (RpcClient T) :=
  match c with
  | mkCompletion tok f =>
      (fix perform (acts : list Action) (st : RpcClient T) : outcome (T := T) (RpcClient T) :=
         match acts with
         | [] => Ret st
         | a :: acts =>
             st <- match a with
                   | ACall request c' deadline => startCall_with (complete c') request c' deadline st
                   | ADisconnect => disconnect st
                   end;;
             perform acts st
         end) (f r) (log_completed tok r st)
  end.

Definition startCallInLoop (request : Request) (c : Completion) (deadline : bool) (st : RpcClient T)
  : outcome (T := T) (RpcClient T) :=
  startCall_with (complete c) request c deadline st.

Definition rememberTimedOut (id : Z) (st : RpcClient T) : outcome (T := T) (RpcClient T) :=
  let evicted :=
    if kMaxRememberedTimeouts <=? Z.of_nat (size (timedOutIdSet_ st)) then
      match timedOutIds_ st with
      | oldest :: ids => Some (ids, timedOutIdSet_ st ∖ {[oldest]})
      | [] => None                          (* [front] of an empty deque *)
      end
    else Some (timedOutIds_ st, timedOutIdSet_ st) in
  match evicted with
  | Some (ids, s) => Ret (set_timedOut (ids ++ [id]) ({[id]} ∪ s) st)
  | None => Stop Aborted st
  end.

Definition wasTimedOut (id : Z) (st : RpcClient T) : bool := bool_decide (id ∈ timedOutIdSet_ st).

Definition onTimeout (id : Z) (st : RpcClient T) : outcome (T := T) (RpcClient T) :=
  match pendings_ st !! id with
  | None => Ret st
  | Some pending =>
      let st := set_pendings (delete id (pendings_ st)) st in
      st <- rememberTimedOut id st;;
      complete (pc_complete pending) timeoutResponse st
  end.

(** The loop runs a due one-shot timer. *)
Definition fireTimer (timer : Z) (st : RpcClient T) : outcome (T := T) (RpcClient T) :=
  match timers_ st !! timer with
  | Some id => onTimeout id (set_timers (delete timer (timers_ st)) (nextTimer_ st) st)
  | None => Ret st
  end.

(** The loop of [failAllPending] over the entries moved out of the table. *)
Fixpoint fail_entries (entries : list (Z * PendingCall)) (st : RpcClient T) : outcome (T := T) (RpcClient T) :=
  match entries with
  | [] => Ret st
  | (_, pc) :: entries =>
      let st := cancelTimer (pc_timer pc) st in
      st <- complete (pc_complete pc) connectionClosedResponse st;;
      fail_entries entries st
  end.

(** The iteration order of the hash table is not specified: [iter] is any
    enumeration of the entries. *)
Variable iter : gmap Z PendingCall -> list (Z * PendingCall).

Definition failAllPending (st : RpcClient T) : outcome (T := T) (RpcClient T) :=
  let pendings := pendings_ st in
  fail_entries (iter pendings) (set_pendings ∅ st).

Definition failConnection (st : RpcClient T) : outcome (T := T) (RpcClient T) :=
  st <- failAllPending st;;
  match connection_ st with
  | Some c => c <- lift st (forceClose c);; Ret (set_connection (Some c) st)
  | None => Ret st
  end.

(** [connectPromise->set_value(b)], if there is one. *)
Definition resolve (promise : option Z) (b : bool) (st : RpcClient T) : RpcClient T :=
  match promise with Some w => log_resolved w b st | None => st end.

Definition cl_onConnection (transport : T) (st : RpcClient T) : outcome (T := T) (RpcClient T) :=
  let connectPromise := pendingConnect_ st in
  let st := set_pendingConnect None st in
  st <- (if connected transport
         then Ret (set_connected true true (set_connection (Some transport) st))
         else failAllPending (set_connected false (everConnected_ st) (set_connection None st)));;
  Ret (resolve connectPromise (connected transport) st).

Definition onConnectError (st : RpcClient T) : RpcClient T :=
  let connectPromise := pendingConnect_ st in
  resolve connectPromise false (set_pendingConnect None st).

(** The part of [connect] before it blocks, run by the thread [waiter]: [None] is
    an assertion failure; the [bool] says whether it goes on to wait for its
    promise. *)
Definition connect (waiter : Z) (st : RpcClient T) : option (bool * RpcClient T) :=
  if connected_ st then Some (false, st) else
  if everConnected_ st then None else
  match pendingConnect_ st with
  | Some _ => None
  | None => Some (true, set_pendingConnect (Some waiter) st)
  end.

(** The body of the message loop on one complete frame; the [bool] says whether
    the loop goes on. *)
Definition cl_onFrame (header : MessageHeader) (body : bytes) (st : RpcClient T)
  : outcome (T := T) (RpcClient T * bool) :=
  let fail := st <- failConnection st;; Ret (st, false) in
  if negb (version header =? kVersion) || negb (type header =? MessageType.kResponse) then fail else
  if negb (serializerId header =? cl_serializerId_ st) then fail else
  let response := mkResponse (status header) [] (serializerId header) in
  match RawCodec.decodeResponse body (Some response) with
  | (true, Some response) =>
      match pendings_ st !! requestId header with
      | None => if wasTimedOut (requestId header) st then Ret (st, true) else fail
      | Some pending =>
          let st := set_pendings (delete (requestId header) (pendings_ st)) st in
          let st := cancelTimer (pc_timer pending) st in
          st <- complete (pc_complete pending) response st;;
          Ret (st, true)
      end
  | _ => fail
  end.

Fixpoint cl_onMessage_loop (fuel : nat) (buf : Buffer) (st : RpcClient T)
  : outcome (T := T) (Buffer * RpcClient T) :=
  match fuel with
  | O => Stop Aborted st
  | S fuel =>
      match parse (cl_frameReader_ st) (Some buf) (Some zeroHeader) (Some []) with
      | Some (kNeedMore, (Some buf, _, _)) => Ret (buf, st)
      | Some (kProtocolError, (Some buf, _, _)) => st <- failConnection st;; Ret (buf, st)
      | Some (kOk, (Some buf, Some header, Some body)) =>
          r <- cl_onFrame header body st;;
          let '(st, continue) := r in
          if continue : bool then cl_onMessage_loop fuel buf st else Ret (buf, st)
      | _ => Stop Aborted st
      end
  end.

Definition cl_onMessage (buf : Buffer) (st : RpcClient T) : outcome (T := T) (Buffer * RpcClient T) :=
  cl_onMessage_loop (S (Z.to_nat (readableBytes buf))) buf st.
End operations.

(** ** Invariant *)

(** Requests user code may pass: their payload is a real [std::string]. *)
Inductive completion_ok : Completion -> Prop :=
| completion_ok_intro t f : (forall r, Forall action_ok (f r)) -> completion_ok (mkCompletion t f)
with action_ok : Action -> Prop :=
| call_ok req c d : len (payload req) < 2 ^ 63 -> completion_ok c -> action_ok (ACall req c d)
| disconnect_ok : action_ok ADisconnect.

(** The armed timers of a collection of calls. *)
Definition armed (es : list PendingCall) : list (Z * Z) :=
  omap (fun pc => t ← pc_timer pc; Some (t, pc_id pc)) es.

Definition unarm (pc : PendingCall) : PendingCall := mkPending (pc_id pc) (pc_complete pc) None.

Section invariant.
Context {T : Type} `{TransportLaws T}.
Implicit Types (st : RpcClient T) (pc : PendingCall).

(** The calls in flight: those in the table, and those [extra] taken out of it
    whose completion is yet to run. *)
Definition entries st (extra : list PendingCall) : list PendingCall :=
  (map_to_list (pendings_ st)).*2 ++ extra.

Record client_inv st (extra : list PendingCall) : Prop := {
  inv_ledger : started st ≡ₚ (completed st).*1 ++ ((fun pc => token (pc_complete pc)) <$> entries st extra);
  inv_timers : map_to_list (timers_ st) ≡ₚ armed (entries st extra);
  inv_fresh : forall t id, timers_ st !! t = Some id -> t < nextTimer_ st;
  inv_ids : map_Forall (fun id pc => pc_id pc = id /\ 0 < id < 2 ^ 32 /\ id ∉ timedOutIdSet_ st) (pendings_ st);
  inv_ok : Forall (fun pc => completion_ok (pc_complete pc)) (entries st extra);
  inv_set : timedOutIdSet_ st = list_to_set (timedOutIds_ st);
  inv_nodup : NoDup (timedOutIds_ st);
  inv_bound : Z.of_nat (length (timedOutIds_ st)) <= kMaxRememberedTimeouts;
  inv_range : Forall (fun id => 0 < id < 2 ^ 32) (timedOutIds_ st);
  inv_next : 0 <= nextRequestId_ st < 2 ^ 32;
  inv_reader : reader_wf (cl_frameReader_ st);
  inv_conn : connected_ st = bool_decide (is_Some (connection_ st));
  inv_transport : forall c, connection_ st = Some c ->
    t_wf c /\ len (t_out c) <= Z.of_nat (length (sent st)) * 2 ^ 25
}.

(** Bounds of the theorems: up to 2^34 requests on one client, so at most 2^59
    bytes on its connection, while request ids wrap after 2^32. *)
Definition in_budget st : Prop := Z.of_nat (length (sent st)) < 2 ^ 34.

(** The only way the loop thread can get stuck: every request id is taken. *)
Definition crowded st : Prop :=
  2 ^ 32 - 1 <= Z.of_nat (size (pendings_ st) + size (timedOutIdSet_ st)).

(** [post π st m Q]: a step [m] from [st] only extends the wire log, and within
    the budget it returns with [Q] or stops because all ids are taken.  [π] is the
    client state in the result. *)
Definition post {A} (π : A -> RpcClient T) st (m : outcome (T := T) A) (Q : A -> Prop) : Prop :=
  match m with
  | Ret a => sent st `prefix_of` sent (π a) /\ (in_budget (π a) -> Q a)
  | Stop _ st' => sent st `prefix_of` sent st' /\ (in_budget st' -> crowded st')
  end.

Lemma in_budget_prefix st st' : sent st `prefix_of` sent st' -> in_budget st' -> in_budget st.
Proof. intros Hp%prefix_length. unfold in_budget. lia. Qed.

Lemma post_bind {A B} (π : A -> RpcClient T) (ρ : B -> RpcClient T) st m f (P : A -> Prop) (Q : B -> Prop) :
  post π st m P ->
  (forall a, sent st `prefix_of` sent (π a) -> (in_budget (π a) -> P a) -> post ρ (π a) (f a) Q) ->
  post ρ st (obind m f) Q.
Proof.
  intros Hm Hf. destruct m as [a|w st']; cbn [obind]; [|done].
  destruct Hm as [Hp Ha]. specialize (Hf a Hp Ha).
  destruct (f a); destruct Hf; split; auto; by etrans.
Qed.

Lemma post_ret {A} (π : A -> RpcClient T) st (a : A) (Q : A -> Prop) :
  sent (π a) = sent st -> (in_budget (π a) -> Q a) -> post π st (Ret a) Q.
Proof. intros E HQ. split; [by rewrite E|done]. Qed.

Lemma post_mono {A} (π : A -> RpcClient T) st m (P Q : A -> Prop) :
  post π st m P -> (forall a, P a -> Q a) -> post π st m Q.
Proof. destruct m; simpl; intuition auto. Qed.

Lemma post_mono_budget {A} (π : A -> RpcClient T) st m (P Q : A -> Prop) :
  post π st m P -> (forall a, in_budget st -> P a -> Q a) -> post π st m Q.
Proof.
  destruct m as [a|]; simpl; [|tauto]. intros [Hp HP] HQ. split; [done|]. intros B.
  apply HQ; [by eapply in_budget_prefix|auto].
Qed.

Lemma post_from {A} (π : A -> RpcClient T) st st' m (Q : A -> Prop) :
  sent st = sent st' -> post π st' m Q -> post π st m Q.
Proof. unfold post. by intros ->. Qed.

(** What a completion cannot touch. *)
Record preserved st st' : Prop := {
  pr_connected : connected_ st' = connected_ st;
  pr_timedOut : timedOutIds_ st' = timedOutIds_ st;
  pr_set : timedOutIdSet_ st' = timedOutIdSet_ st;
  pr_serializer : cl_serializerId_ st' = cl_serializerId_ st;
  pr_reader : cl_frameReader_ st' = cl_frameReader_ st;
  pr_promise : pendingConnect_ st' = pendingConnect_ st /\ resolved st' = resolved st;
  pr_log : completed st `prefix_of` completed st';
  pr_idle : connected_ st = false -> pendings_ st' = pendings_ st
}.

#[local] Instance preserved_refl : Reflexive preserved.
Proof. intros st. split; auto. Qed.

#[local] Instance preserved_trans : Transitive preserved.
Proof.
  intros a b c [A1 A2 A3 A4 A5 [A6 A6'] A7 A8] [B1 B2 B3 B4 B5 [B6 B6'] B7 B8].
  split; try congruence; [split; congruence|by etrans|].
  intros E. rewrite B8, A8 by congruence. done.
Qed.

(** *** Request ids *)

Lemma allocate_spins fuel st st' :
  allocate_loop fuel st = Stop IdsExhausted st' -> 0 <= nextRequestId_ st < 2 ^ 32 ->
  pendings_ st' = pendings_ st /\ timedOutIdSet_ st' = timedOutIdSet_ st /\
  forall i, 0 <= i < Z.of_nat fuel -> (nextRequestId_ st + i) mod 2 ^ 32 ∈ {[0]} ∪ dom (pendings_ st) ∪ timedOutIdSet_ st.
Proof.
  revert st. induction fuel as [|fuel IH]; intros st E Hn; cbn [allocate_loop] in E.
  { injection E as <-. split_and!; auto. lia. }
  destruct (_ && _ && _) eqn:Hb; [done|]. apply IH in E as (Ep & Es & Hi).
  2: { cbn. unfold u32. apply Z.mod_pos_bound. lia. }
  cbn [pendings_ timedOutIdSet_ nextRequestId_ set_nextRequestId] in *. split_and!; auto.
  intros i Hi'. destruct (decide (i = 0)) as [->|].
  - rewrite Z.add_0_r, Z.mod_small by lia.
    rewrite !andb_false_iff, negb_false_iff, Z.eqb_eq, !bool_decide_eq_false in Hb.
    rewrite !elem_of_union, elem_of_singleton, elem_of_dom, <- not_eq_None_Some.
    destruct Hb as [[?|?]|Hb]; [tauto..|]. right. destruct (decide (nextRequestId_ st ∈ timedOutIdSet_ st)); tauto.
  - replace (nextRequestId_ st + i) with (nextRequestId_ st + 1 + (i - 1)) by lia.
    rewrite <- Zplus_mod_idemp_l. apply (Hi (i - 1)). lia.
Qed.

(** A run of [n] consecutive ids inside a set needs a set of [n] elements. *)
Lemma consecutive_ids (n : nat) (start : Z) (X : gset Z) :
  Z.of_nat n <= 2 ^ 32 ->
  (forall i, 0 <= i < Z.of_nat n -> (start + i) mod 2 ^ 32 ∈ X) -> (n <= size X)%nat.
Proof.
  intros Hn Hin. set (ids := (fun i => (start + Z.of_nat i) mod 2 ^ 32) <$> seq 0 n).
  assert (NoDup ids) as Hnd.
  { apply NoDup_fmap_2_strong; [|apply NoDup_seq]. intros x y Hx%elem_of_seq Hy%elem_of_seq E.
    pose proof (Z.div_mod (start + Z.of_nat x) (2 ^ 32)). pose proof (Z.div_mod (start + Z.of_nat y) (2 ^ 32)). nia. }
  assert ((list_to_set ids : gset Z) ⊆ X) as Hs.
  { intros z. rewrite elem_of_list_to_set. unfold ids. rewrite list_elem_of_fmap.
    intros (x & -> & Hx%elem_of_seq). apply Hin. lia. }
  apply subseteq_size in Hs. rewrite size_list_to_set in Hs by done. unfold ids in Hs.
  by rewrite length_fmap, length_seq in Hs.
Qed.

Lemma allocate_returns fuel st :
  0 <= nextRequestId_ st < 2 ^ 32 ->
  match allocate_loop fuel st with
  | Ret (id, st') => exists n, st' = set_nextRequestId n st /\ 0 <= n < 2 ^ 32 /\ 0 < id < 2 ^ 32 /\
      pendings_ st !! id = None /\ id ∉ timedOutIdSet_ st
  | Stop why st' => why = IdsExhausted
  end.
Proof.
  revert st. induction fuel as [|fuel IH]; intros st Hn; cbn [allocate_loop]; [done|].
  assert (0 <= u32 (nextRequestId_ st + 1) < 2 ^ 32) by (unfold u32; apply Z.mod_pos_bound; lia).
  destruct (_ && _ && _) eqn:Hb.
  - rewrite !andb_true_iff, negb_true_iff, Z.eqb_neq, !bool_decide_eq_true in Hb.
    destruct Hb as [[? ?] ?]. exists (u32 (nextRequestId_ st + 1)). cbn in *. split_and!; try done; lia.
  - specialize (IH (set_nextRequestId (u32 (nextRequestId_ st + 1)) st)).
    destruct (allocate_loop fuel _) as [[id st']|]; [|by apply IH].
    destruct IH as (n & -> & ? & ? & ? & ?); [done|]. by exists n.
Qed.

Lemma allocate_shape fuel st :
  match allocate_loop fuel st with
  | Ret (_, st') | Stop _ st' => exists n, st' = set_nextRequestId n st
  end.
Proof.
  revert st. induction fuel as [|fuel IH]; intros st; cbn [allocate_loop]; [by exists (nextRequestId_ st); destruct st|].
  destruct (_ && _ && _); [eauto|]. specialize (IH (set_nextRequestId (u32 (nextRequestId_ st + 1)) st)).
  destruct (allocate_loop fuel _) as [[? ?]|]; destruct IH as [n ->]; by exists n.
Qed.

(** Allocation returns a fresh, non-zero id, unless all are taken. *)
Lemma allocate_ok st extra :
  (in_budget st -> client_inv st extra) ->
  post snd st (allocateRequestId st) (fun p => exists n, p.2 = set_nextRequestId n st /\ 0 <= n < 2 ^ 32 /\
    0 < p.1 < 2 ^ 32 /\ pendings_ st !! p.1 = None /\ p.1 ∉ timedOutIdSet_ st).
Proof.
  intros I. unfold allocateRequestId. set (fuel := S (S _)).
  assert (match allocate_loop fuel st with Ret (_, st') | Stop _ st' => sent st' = sent st end) as Es.
  { pose proof (allocate_shape fuel st) as Hs. destruct (allocate_loop fuel st) as [[??]|]; by destruct Hs as [n ->]. }
  destruct (allocate_loop fuel st) as [[id st']|why st'] eqn:E; unfold post; cbn [snd fst];
    (split; [by rewrite Es|]); intros B; (apply (in_budget_prefix st) in B; [|by rewrite Es]); specialize (I B).
  all: pose proof (allocate_returns fuel st (inv_next _ _ I)) as R; rewrite E in R.
  { done. } subst why.
  apply allocate_spins in E as (Ep & Et & Hi); [|apply I].
  unfold crowded. rewrite Ep, Et. destruct (decide (Z.of_nat fuel <= 2 ^ 32)) as [Hf|Hf]; [|subst fuel; lia].
  apply consecutive_ids in Hi; [|done]. exfalso.
  pose proof (size_union_alt ({[0]} ∪ dom (pendings_ st)) (timedOutIdSet_ st)).
  pose proof (size_union_alt {[0]} (dom (pendings_ st) : gset Z)).
  pose proof (subseteq_size (dom (pendings_ st) ∖ {[0]} : gset Z) (dom (pendings_ st)) ltac:(set_solver)).
  pose proof (subseteq_size (timedOutIdSet_ st ∖ ({[0]} ∪ dom (pendings_ st))) (timedOutIdSet_ st) ltac:(set_solver)).
  rewrite (size_singleton (C := gset Z) 0) in *. rewrite size_dom in *. subst fuel. lia.
Qed.

(** *** The elementary updates *)

Lemma inv_log_started st extra c :
  client_inv st extra -> completion_ok c ->
  client_inv (log_started (token c) st) (mkPending 0 c None :: extra).
Proof.
  intros [] Hc. unfold entries in *. split; auto; cbn [pendings_ started completed timers_ log_started]; unfold entries; cbn [pendings_ log_started].
  - rewrite inv_ledger0, !fmap_app, fmap_cons. simpl. solve_Permutation.
  - rewrite inv_timers0. unfold armed. rewrite !omap_app. done.
  - rewrite Forall_app in *. rewrite Forall_cons. tauto.
Qed.

Lemma inv_log_completed st extra pc r :
  client_inv st (pc :: extra) -> pc_timer pc = None ->
  client_inv (log_completed (token (pc_complete pc)) r st) extra.
Proof.
  intros [] Ht. unfold entries in *. split; auto; cbn [pendings_ started completed timers_ log_completed]; unfold entries; cbn [pendings_ log_completed].
  - rewrite inv_ledger0, !fmap_app, fmap_cons. simpl. solve_Permutation.
  - rewrite inv_timers0. unfold armed. rewrite !omap_app. simpl. by rewrite Ht.
  - rewrite !Forall_app, Forall_cons in *. tauto.
Qed.

Lemma inv_set_connection st extra c :
  client_inv st extra -> is_Some (connection_ st) ->
  t_wf c -> len (t_out c) <= Z.of_nat (length (sent st)) * 2 ^ 25 ->
  client_inv (set_connection (Some c) st) extra.
Proof.
  intros [] Hc Hw. split; auto; cbn.
  - rewrite inv_conn0, !bool_decide_true; auto.
  - by intros ? [= <-].
Qed.

Lemma inv_set_nextRequestId st extra n :
  client_inv st extra -> 0 <= n < 2 ^ 32 -> client_inv (set_nextRequestId n st) extra.
Proof. intros [] Hn. split; auto. Qed.

Lemma inv_sent st extra id tok c :
  client_inv st extra -> is_Some (connection_ st) ->
  t_wf c -> len (t_out c) <= Z.of_nat (S (length (sent st))) * 2 ^ 25 ->
  client_inv (log_sent id tok (set_connection (Some c) st)) extra.
Proof.
  intros [] Hc Hw Hl. split; auto; cbn.
  - rewrite inv_conn0, !bool_decide_true; auto.
  - intros ? [= <-]. rewrite length_app. simpl. split; [done|lia].
Qed.

Lemma inv_take st extra id pc :
  client_inv st extra -> pendings_ st !! id = Some pc ->
  client_inv (set_pendings (delete id (pendings_ st)) st) (pc :: extra).
Proof.
  intros [] Hp. assert (entries (set_pendings (delete id (pendings_ st)) st) (pc :: extra) ≡ₚ entries st extra) as E.
  { unfold entries; cbn [pendings_ set_pendings]. rewrite <- (map_to_list_delete (pendings_ st) id pc Hp).
    simpl. solve_Permutation. }
  split; auto; cbn [pendings_ started completed timers_ set_pendings].
  - by rewrite E.
  - rewrite inv_timers0. unfold armed. by rewrite E.
  - by apply map_Forall_delete.
  - by rewrite E.
Qed.

Lemma inv_insert st extra id c :
  client_inv st (mkPending 0 c None :: extra) -> 0 < id < 2 ^ 32 ->
  pendings_ st !! id = None -> id ∉ timedOutIdSet_ st ->
  client_inv (set_pendings (<[id := mkPending id c None]> (pendings_ st)) st) extra.
Proof.
  intros [] Hid Hn Ht. unfold entries in *.
  assert ((map_to_list (<[id := mkPending id c None]> (pendings_ st))).*2 ≡ₚ
          mkPending id c None :: (map_to_list (pendings_ st)).*2) as E by by rewrite map_to_list_insert.
  split; auto; cbn [pendings_ started completed timers_ set_pendings]; unfold entries; cbn [pendings_ set_pendings].
  - rewrite inv_ledger0, E, !fmap_app, !fmap_cons. simpl. solve_Permutation.
  - rewrite inv_timers0. unfold armed. rewrite E, !omap_app. done.
  - apply map_Forall_insert_2; auto.
  - rewrite E. rewrite !Forall_app, !Forall_cons in *. tauto.
Qed.

Lemma timer_fresh st extra : client_inv st extra -> timers_ st !! nextTimer_ st = None.
Proof.
  intros []. destruct (timers_ st !! nextTimer_ st) eqn:E; [|done]. apply inv_fresh0 in E. lia.
Qed.

Lemma inv_insert_timer st extra id c :
  client_inv st (mkPending 0 c None :: extra) -> 0 < id < 2 ^ 32 ->
  pendings_ st !! id = None -> id ∉ timedOutIdSet_ st ->
  client_inv (set_pendings (<[id := mkPending id c (Some (nextTimer_ st))]> (pendings_ st))
    (set_timers (<[nextTimer_ st := id]> (timers_ st)) (nextTimer_ st + 1) st)) extra.
Proof.
  intros I Hid Hn Ht. pose proof (timer_fresh _ _ I) as Hf. destruct I. unfold entries in *.
  set (pc := mkPending id c (Some (nextTimer_ st))).
  assert ((map_to_list (<[id := pc]> (pendings_ st))).*2 ≡ₚ pc :: (map_to_list (pendings_ st)).*2) as E
    by by rewrite map_to_list_insert.
  split; auto; cbn [pendings_ started completed timers_ nextTimer_ set_pendings set_timers]; unfold entries;
    cbn [pendings_ set_pendings set_timers].
  - rewrite inv_ledger0, E, !fmap_app, !fmap_cons. simpl. solve_Permutation.
  - rewrite map_to_list_insert, inv_timers0 by done. unfold armed. rewrite E, !omap_app. done.
  - intros t id' [[<- <-]|[? ?%inv_fresh0]]%lookup_insert_Some; lia.
  - apply map_Forall_insert_2; auto.
  - rewrite E. rewrite !Forall_app, !Forall_cons in *. tauto.
Qed.

Lemma armed_lookup st extra pc t :
  client_inv st extra -> pc ∈ entries st extra -> pc_timer pc = Some t -> timers_ st !! t = Some (pc_id pc).
Proof.
  intros I Hin Ht. apply elem_of_map_to_list. rewrite (inv_timers _ _ I).
  unfold armed. apply list_elem_of_omap. exists pc. by rewrite Ht.
Qed.

Lemma inv_cancel st extra pc :
  client_inv st (pc :: extra) -> client_inv (cancelTimer (pc_timer pc) st) (unarm pc :: extra).
Proof.
  intros I. unfold cancelTimer. destruct (pc_timer pc) as [t|] eqn:Et.
  - assert (timers_ st !! t = Some (pc_id pc)) as Hl.
    { eapply armed_lookup; [done| |done]. unfold entries. set_solver. }
    destruct I. unfold entries in *.
    split; auto; cbn [pendings_ started completed timers_ nextTimer_ set_timers]; unfold entries; cbn [pendings_ set_timers].
    + rewrite inv_ledger0, !fmap_app, !fmap_cons. done.
    + rewrite <- (map_to_list_delete _ _ _ Hl) in inv_timers0. unfold armed in *.
      rewrite omap_app in *. simpl in *. rewrite Et in inv_timers0. simpl in inv_timers0.
      apply (Permutation_cons_inv (a := (t, pc_id pc))). rewrite inv_timers0. solve_Permutation.
    + intros t' id' [_ ?]%lookup_delete_Some. eauto.
    + rewrite Forall_app, Forall_cons in *. done.
  - destruct I. unfold entries in *. split; auto; unfold entries.
    + rewrite inv_ledger0, !fmap_app, !fmap_cons. done.
    + rewrite inv_timers0. unfold armed. rewrite !omap_app. simpl. by rewrite Et.
    + rewrite Forall_app, Forall_cons in *. done.
Qed.

(** *** Completions and new calls *)

(** Sending on a well-formed transport, open or not. *)
Lemma send_ok st extra c m :
  client_inv st extra -> in_budget st -> connection_ st = Some c -> len m <= 2 ^ 24 + 16 ->
  exists c', send c m = Some c' /\ t_wf c' /\ len (t_out c') <= Z.of_nat (S (length (sent st))) * 2 ^ 25.
Proof.
  unfold in_budget. intros I B Ec Hm. destruct (inv_transport _ _ I c Ec) as [Hw Hl].
  destruct (connected c) eqn:Hc.
  - destruct (send_connected c m) as (c' & -> & ? & _ & _ & ? & _); try done; [unfold stream_max; lia|].
    exists c'. split_and!; auto. lia.
  - rewrite send_closed by done. exists c. split_and!; auto. lia.
Qed.

Lemma shutdown_post st extra :
  (in_budget st -> client_inv st extra) ->
  post id st (disconnect st) (fun st' => client_inv st' extra /\ preserved st st').
Proof.
  intros I. unfold disconnect. destruct (connection_ st) as [c|] eqn:Ec; cycle 1.
  { apply post_ret; [done|]. intros B. split; [auto|done]. }
  destruct (shutdown c) as [c'|] eqn:E; cbn [lift obind].
  - apply post_ret; [done|]. intros B. specialize (I B). destruct (inv_transport _ _ I c Ec) as [Hw Hl].
    destruct (shutdown_ok c Hw) as (c2 & E2 & ? & _ & Eo & _). rewrite E in E2. injection E2 as <-.
    split; [|by split]. apply inv_set_connection; auto. by rewrite Eo.
  - split; [done|]. intros B. specialize (I B). destruct (inv_transport _ _ I c Ec) as [Hw _].
    destruct (shutdown_ok c Hw) as (c2 & E2 & _). congruence.
Qed.

(** [step_ok st m extra]: [m] is a step from [st] that user code may cause. *)
Definition step_ok st (m : outcome (T := T) (RpcClient T)) (extra : list PendingCall) : Prop :=
  post id st m (fun st' => client_inv st' extra /\ preserved st st').

Lemma step_ok_inv st m extra : step_ok st m extra -> post id st m (fun st' => client_inv st' extra).
Proof. intros Hm. eapply post_mono; [exact Hm|]. by intros st' [? _]. Qed.

Lemma step_ok_from st0 st m extra :
  sent st0 = sent st -> preserved st0 st -> step_ok st m extra -> step_ok st0 m extra.
Proof.
  intros E Hp Hm. eapply post_from; [done|]. eapply post_mono; [exact Hm|].
  intros st' [? ?]. split; [done|by etrans].
Qed.

Lemma step_ok_bind st m f extra extra' :
  step_ok st m extra' ->
  (forall st', sent st `prefix_of` sent st' ->
     (in_budget st' -> client_inv st' extra') -> step_ok st' (f st') extra) ->
  step_ok st (obind m f) extra.
Proof.
  intros Hm Hf. destruct m as [st'|why st']; cbn [obind]; [|done]. destruct Hm as [Hp Hst'].
  specialize (Hf st' Hp (fun B => proj1 (Hst' B))). unfold step_ok, post, id in *.
  destruct (f st') as [st2|? st2]; destruct Hf as [Hp' Hq]; (split; [by etrans|]); [|done].
  intros B. destruct (Hq B) as [? ?]. apply (in_budget_prefix _ _ Hp') in B as B'.
  split; [done|]. etrans; [|done]. apply (Hst' B').
Qed.

(** Invoking [c] is a legal step whenever [c] is an unarmed call in flight. *)
Definition run_ok (c : Completion) (run : Response -> RpcClient T -> outcome (T := T) (RpcClient T)) : Prop :=
  forall r st pc extra, pc_complete pc = c -> pc_timer pc = None ->
    (in_budget st -> client_inv st (pc :: extra)) -> step_ok st (run r st) extra.

(** The sending half of [startCallInLoop], from a state [st] with the call [c]
    already on the books. *)
Lemma send_call_ok st extra c conn body id :
  (in_budget st -> client_inv st extra /\ len body <= kMaxBodyLen) -> connection_ st = Some conn ->
  step_ok st (conn <- lift st (send conn (encodeHeader (mkHeader kMagic kVersion MessageType.kRequest 0
      StatusCode.kOk (cl_serializerId_ st) id (u32 (len body))) ++ body));;
    Ret (log_sent id (token c) (set_connection (Some conn) st))) extra.
Proof.
  intros I Ec. set (frame := encodeHeader _ ++ body).
  assert (in_budget st -> exists c2, send conn frame = Some c2 /\ t_wf c2 /\
    len (t_out c2) <= Z.of_nat (S (length (sent st))) * 2 ^ 25) as K.
  { intros B. destruct (I B) as [I' Hb]. apply (send_ok st extra); try done.
    unfold frame. rewrite len_app, encodeHeader_len. unfold kMaxBodyLen in Hb. lia. }
  destruct (send conn frame) as [conn'|] eqn:E; cbn [lift obind].
  - split; [cbn; by eexists|]. intros B. apply (in_budget_prefix st) in B; [|cbn; by eexists].
    destruct (K B) as (c2 & [= <-] & ? & ?), (I B). split; [by apply inv_sent|by split].
  - split; [done|]. intros B. by destruct (K B) as (c2 & ? & _).
Qed.

Lemma startCall_ok run req c deadline st extra :
  run_ok c run ->
  (in_budget st -> client_inv st extra /\ len (payload req) < 2 ^ 63 /\ completion_ok c) ->
  step_ok st (startCall_with run req c deadline st) extra.
Proof.
  intros Hrun I. unfold startCall_with. set (st1 := log_started (token c) st).
  assert (in_budget st1 -> client_inv st1 (mkPending 0 c None :: extra)) as I1.
  { intros B. by apply inv_log_started; apply I. }
  apply (step_ok_from st st1); [done|by split|].
  destruct (connection_ st1) as [conn|] eqn:Ec; [|by apply (Hrun _ _ (mkPending 0 c None))].
  destruct (connected_ st1) eqn:Ed; [|by apply (Hrun _ _ (mkPending 0 c None))].
  destruct (RawCodec.encodeRequest req (Some [])) as [[] [body|]] eqn:Ee; try by apply (Hrun _ _ (mkPending 0 c None)).
  pose proof (allocate_ok st1 _ I1) as Ha. unfold allocateRequestId in Ha |- *.
  pose proof (allocate_shape (S (S (size (pendings_ st1) + size (timedOutIdSet_ st1)))) st1) as Hsh.
  destruct (allocate_loop _ st1) as [[rid st2]|? st2]; cbn [obind]; [|exact Ha].
  destruct Hsh as [n ->]. destruct Ha as [_ Ha]. cbn [fst snd] in Ha.
  assert (in_budget st1 -> client_inv (set_nextRequestId n st1) (mkPending 0 c None :: extra) /\
    0 < rid < 2 ^ 32 /\ pendings_ st1 !! rid = None /\ rid ∉ timedOutIdSet_ st1) as I2.
  { intros B. destruct (Ha B) as (n' & E & Hn & ?). injection E as ->. split; [|done].
    apply inv_set_nextRequestId; auto. }
  clear Ha. set (st2 := set_nextRequestId n st1) in *.
  assert (in_budget st1 -> len body <= kMaxBodyLen) as Hl.
  { intros (_ & Hp & _)%I. apply RawCodec.encodeRequest_inv in Ee as [(_ & _ & Hfit) ->]; [|done].
    rewrite RawCodec.request_bytes_len. lia. }
  destruct deadline; cbn [runAfter].
  - eapply step_ok_from; [| |apply send_call_ok]; [done| |intros B|done].
    + split; try done. intros. congruence.
    + destruct (I2 B) as (? & ? & ? & ?). split; [by apply (inv_insert_timer st2)|by apply Hl].
  - eapply step_ok_from; [| |apply send_call_ok]; [done| |intros B|done].
    + split; try done. intros. congruence.
    + destruct (I2 B) as (? & ? & ? & ?). split; [by apply (inv_insert st2)|by apply Hl].
Qed.

(** What a completion does after it is recorded. *)
Fixpoint perform (acts : list Action) (st : RpcClient T) : outcome (T := T) (RpcClient T) :=
  match acts with
  | [] => Ret st
  | a :: acts =>
      st <- match a with
            | ACall request c deadline => startCallInLoop request c deadline st
            | ADisconnect => disconnect st
            end;;
      perform acts st
  end.

Lemma complete_unfold c r st :
  complete c r st = perform (react c r) (log_completed (token c) r st).
Proof.
  destruct c as [t f]. cbn [complete react token]. generalize (log_completed t r st).
  induction (f r) as [|a acts IH]; intros st'; [done|]. cbn [perform].
  destruct a; unfold startCallInLoop.
  - destruct (startCall_with _ _ _ _ _); cbn [obind]; [apply IH|done].
  - destruct (disconnect _); cbn [obind]; [apply IH|done].
Qed.

Lemma step_ok_ret st extra : (in_budget st -> client_inv st extra) -> step_ok st (Ret st) extra.
Proof. intros I. apply post_ret; [done|]. split; [auto|done]. Qed.

(** Running a completion keeps the books: its call is completed once, the calls
    it starts are pending or completed. *)
Lemma perform_ok acts : forall st extra,
  Forall (fun a => match a with ACall _ c _ => run_ok c (complete c) | ADisconnect => True end) acts ->
  (in_budget st -> client_inv st extra /\ Forall action_ok acts) -> step_ok st (perform acts st) extra.
Proof.
  induction acts as [|a acts IH]; intros st extra Hacts I; cbn [perform].
  { apply step_ok_ret. intros B. by apply I. }
  apply Forall_cons in Hacts as [Ha Hacts]. setoid_rewrite Forall_cons in I.
  eapply (step_ok_bind _ _ _ _ extra).
  - destruct a; [apply startCall_ok|apply shutdown_post]; auto; intros B; destruct (I B) as (? & Hok & _); [|done].
    inversion Hok; auto.
  - intros st' Hp I'. apply IH; [done|]. intros B. split; [auto|].
    apply (in_budget_prefix _ _ Hp) in B. by apply (I B).
Qed.

Lemma complete_ok c : run_ok c (complete c).
Proof.
  induction c as [t f IH|req c d IH|] using completion_ind' with
    (Q := fun a => match a with ACall _ c _ => run_ok c (complete c) | ADisconnect => True end); [|done..].
  intros r st pc extra Epc Ht I. rewrite complete_unfold.
  apply (step_ok_from st (log_completed t r st)); [done|split; try done; by eexists|].
  apply perform_ok; [apply IH|]. intros B. specialize (I B). split.
  - cbn [token]. replace t with (token (pc_complete pc)) by by rewrite Epc. by apply inv_log_completed.
  - pose proof (inv_ok _ _ I) as Hok. unfold entries in Hok. rewrite Forall_app, Forall_cons, Epc in Hok.
    destruct Hok as (_ & Hok & _). inversion Hok; subst. done.
Qed.

(** The completion's own record comes first. *)
Lemma complete_reports r st pc extra st' :
  client_inv st (pc :: extra) -> pc_timer pc = None ->
  complete (pc_complete pc) r st = Ret st' -> in_budget st' ->
  completed st ++ [(token (pc_complete pc), r)] `prefix_of` completed st'.
Proof.
  intros I Ht E B. rewrite complete_unfold in E.
  set (st1 := log_completed (token (pc_complete pc)) r st) in *.
  assert (step_ok st1 (perform (react (pc_complete pc) r) st1) extra) as S.
  { apply perform_ok.
    - apply Forall_forall. intros [] _; [apply complete_ok|done].
    - intros _. split; [by apply inv_log_completed|].
      pose proof (inv_ok _ _ I) as Hok. unfold entries in Hok. rewrite Forall_app, Forall_cons in Hok.
      destruct Hok as (_ & Hok & _). by inversion Hok. }
  rewrite E in S. destruct S as [_ S]. exact (pr_log _ _ (proj2 (S B))).
Qed.

(** *** Timeouts *)

Lemma rememberTimedOut_ok st extra id :
  client_inv st extra -> 0 < id < 2 ^ 32 -> id ∉ timedOutIdSet_ st -> pendings_ st !! id = None ->
  exists ids s, rememberTimedOut id st = Ret (set_timedOut ids s st) /\ id ∈ s /\
    client_inv (set_timedOut ids s st) extra.
Proof.
  intros [] Hid Hn Hp. unfold rememberTimedOut.
  assert (size (timedOutIdSet_ st) = length (timedOutIds_ st)) as Hsz by (by rewrite inv_set0, size_list_to_set).
  rewrite inv_set0, elem_of_list_to_set in Hn. rewrite Hsz.
  assert (forall ids, ids `suffix_of` timedOutIds_ st -> Z.of_nat (length ids) < kMaxRememberedTimeouts ->
    client_inv (set_timedOut (ids ++ [id]) ({[id]} ∪ list_to_set ids) st) extra) as K.
  { intros ids [pre E] Hl.
    assert (forall x, x ∈ ids -> x ∈ timedOutIds_ st) as Hsub by (rewrite E; set_solver).
    split; auto; cbn [pendings_ timedOutIds_ timedOutIdSet_ set_timedOut].
    - intros i pc Hi. destruct (inv_ids0 i pc Hi) as (? & ? & Hnot). split; [done|]. split; [done|].
      assert (i <> id) by congruence. rewrite inv_set0 in Hnot. set_solver.
    - rewrite list_to_set_app_L. simpl. set_solver.
    - rewrite E in inv_nodup0. apply NoDup_app in inv_nodup0 as (_ & _ & ?).
      apply NoDup_app. split_and!; auto; [set_solver|apply NoDup_singleton].
    - rewrite length_app. simpl. lia.
    - rewrite Forall_app. split; [|by constructor]. rewrite E, Forall_app in inv_range0. tauto. }
  destruct (Z.leb_spec kMaxRememberedTimeouts (Z.of_nat (length (timedOutIds_ st)))) as [Hf|Hf].
  - destruct (timedOutIds_ st) as [|oldest ids] eqn:E; [unfold kMaxRememberedTimeouts in Hf; simpl in Hf; lia|].
    exists (ids ++ [id]), ({[id]} ∪ (timedOutIdSet_ st ∖ {[oldest]})). split; [done|]. split; [set_solver|].
    apply NoDup_cons in inv_nodup0 as [Hnot _]. rewrite inv_set0. simpl.
    replace (({[oldest]} ∪ list_to_set ids) ∖ {[oldest]} : gset Z) with (list_to_set ids : gset Z) by set_solver.
    apply K; [by eexists [oldest]|simpl in inv_bound0; lia].
  - exists (timedOutIds_ st ++ [id]), ({[id]} ∪ timedOutIdSet_ st). split; [done|]. split; [set_solver|].
    rewrite inv_set0. apply K; [done|lia].
Qed.

Lemma rememberTimedOut_shape st id :
  match rememberTimedOut id st with
  | Ret st' => exists ids s, st' = set_timedOut ids s st
  | Stop _ st' => st' = st
  end.
Proof.
  unfold rememberTimedOut. destruct (kMaxRememberedTimeouts <=? _); [destruct (timedOutIds_ st)|]; eauto.
Qed.

Lemma take_facts st extra id pc :
  client_inv st extra -> pendings_ st !! id = Some pc ->
  pc_id pc = id /\ 0 < id < 2 ^ 32 /\ (id ∉ timedOutIdSet_ st) /\ completion_ok (pc_complete pc).
Proof.
  intros I Hp. destruct (inv_ids _ _ I id pc Hp) as (? & ? & ?). split_and!; try done; try lia.
  pose proof (inv_ok _ _ I) as Hok. unfold entries in Hok. rewrite Forall_app, !Forall_forall in Hok.
  apply (proj1 Hok). apply list_elem_of_fmap. exists (id, pc). by rewrite elem_of_map_to_list.
Qed.

(** A pending call's timer is the loop's timer for it, and conversely. *)
Lemma timer_owner st t id :
  client_inv st [] -> timers_ st !! t = Some id ->
  exists pc, pendings_ st !! id = Some pc /\ pc_timer pc = Some t.
Proof.
  intros I Ht. apply elem_of_map_to_list in Ht. rewrite (inv_timers _ _ I) in Ht.
  unfold armed in Ht. apply list_elem_of_omap in Ht as (pc & Hin & Hpc).
  destruct (pc_timer pc) as [t'|] eqn:Et; [|done]. injection Hpc as <- <-.
  unfold entries in Hin. rewrite app_nil_r in Hin.
  apply list_elem_of_fmap in Hin as ([id' pc'] & -> & Hin%elem_of_map_to_list).
  destruct (inv_ids _ _ I _ _ Hin) as (E & _). cbn [snd]. rewrite E. eauto.
Qed.

Lemma fireTimer_post st t :
  (in_budget st -> client_inv st []) ->
  post id st (fireTimer t st) (fun st' => client_inv st' []).
Proof.
  intros I. unfold fireTimer. destruct (timers_ st !! t) as [rid|] eqn:Ht; [|by apply post_ret].
  unfold onTimeout. cbn [pendings_ set_timers].
  destruct (pendings_ st !! rid) as [pc|] eqn:Hp; [|apply post_ret; [done|]]; cycle 1.
  { intros B. destruct (timer_owner st t rid (I B) Ht) as (pc & ? & _). congruence. }
  set (st1 := set_pendings _ _). pose proof (rememberTimedOut_shape st1 rid) as Hsh.
  assert (in_budget st -> exists ids s, rememberTimedOut rid st1 = Ret (set_timedOut ids s st1) /\
    client_inv (set_timedOut ids s st1) (unarm pc :: [])) as K.
  { intros B. specialize (I B). destruct (take_facts _ _ _ _ I Hp) as (_ & ? & ? & _).
    destruct (timer_owner st t rid I Ht) as (pc' & Hp' & Et). rewrite Hp in Hp'. injection Hp' as <-.
    destruct (rememberTimedOut_ok st1 (unarm pc :: []) rid) as (ids & s & ? & _ & ?); eauto.
    - pose proof (inv_cancel _ _ _ (inv_take _ _ _ _ I Hp)) as I'. by rewrite Et in I'.
    - apply lookup_delete_eq. }
  destruct (rememberTimedOut rid st1) as [st2|? st2]; cbn [obind].
  - destruct Hsh as (ids & s & ->). apply (post_from _ _ (set_timedOut ids s st1)); [done|].
    apply step_ok_inv, (complete_ok _ _ _ (unarm pc)); [done..|]. intros B. destruct (K B) as (? & ? & E & ?).
    by injection E as <- <-.
  - subst st2. split; [done|]. intros B. by destruct (K B) as (? & ? & ? & _).
Qed.

(** *** Failing everything *)

Lemma fail_entries_ok es : forall st extra,
  (in_budget st -> client_inv st (es.*2 ++ extra)) -> step_ok st (fail_entries es st) extra.
Proof.
  induction es as [|[id pc] es IH]; intros st extra I; cbn [fail_entries]; [by apply step_ok_ret|].
  assert (sent (cancelTimer (pc_timer pc) st) = sent st) as Es by by destruct (pc_timer pc).
  apply (step_ok_from st (cancelTimer (pc_timer pc) st)); [done|destruct (pc_timer pc); by split|].
  apply (step_ok_bind _ _ _ _ (es.*2 ++ extra)); [|intros st' _ I'; by apply IH].
  apply (complete_ok _ _ _ (unarm pc)); [done..|]. intros B. apply inv_cancel, I.
  by apply (in_budget_prefix _ _ (reflexivity _)); unfold in_budget in *; rewrite <- Es.
Qed.

Variable iter : gmap Z PendingCall -> list (Z * PendingCall).
Hypothesis iter_perm : forall m, iter m ≡ₚ map_to_list m.

Lemma inv_clear st extra :
  client_inv st extra -> client_inv (set_pendings ∅ st) ((iter (pendings_ st)).*2 ++ extra).
Proof.
  intros [].
  assert (entries (set_pendings ∅ st) ((iter (pendings_ st)).*2 ++ extra) ≡ₚ entries st extra) as E.
  { unfold entries; cbn [pendings_ set_pendings]. by rewrite map_to_list_empty, iter_perm. }
  split; auto; cbn [pendings_ started completed timers_ set_pendings].
  - by rewrite E.
  - rewrite inv_timers0. unfold armed. by rewrite E.
  - apply map_Forall_empty.
  - by rewrite E.
Qed.

Lemma failAllPending_post st :
  (in_budget st -> client_inv st []) ->
  post id st (failAllPending iter st) (fun st' => client_inv st' [] /\ preserved (set_pendings ∅ st) st').
Proof.
  intros I. unfold failAllPending. apply (post_from _ _ (set_pendings ∅ st)); [done|].
  apply fail_entries_ok. intros B. by apply inv_clear, I.
Qed.

Lemma failConnection_post st :
  (in_budget st -> client_inv st []) ->
  post id st (failConnection iter st) (fun st' => client_inv st' [] /\ preserved (set_pendings ∅ st) st' /\
    forall c, connection_ st' = Some c -> connected c = false).
Proof.
  intros I. unfold failConnection. eapply post_bind; [by apply failAllPending_post|]. intros st1 _ I1.
  unfold id in *. destruct (connection_ st1) as [c|] eqn:Ec; cycle 1.
  { apply post_ret; [done|]. intros B. destruct (I1 B). split_and!; auto. congruence. }
  assert (in_budget st1 -> exists c', forceClose c = Some c' /\ connected c' = false /\
    client_inv (set_connection (Some c') st1) []) as K.
  { intros B. destruct (I1 B) as [I' _]. destruct (inv_transport _ _ I' c Ec) as [Hw Hl].
    destruct (forceClose_ok c Hw) as (c' & -> & ? & ? & Eo & _). exists c'. split_and!; auto.
    apply inv_set_connection; auto. by rewrite Eo. }
  destruct (forceClose c) as [c'|]; cbn [lift obind].
  - apply post_ret; [done|]. intros B. destruct (K B) as (? & [= <-] & ? & ?), (I1 B) as [_ P].
    split_and!; auto; [|by intros ? [= <-]]. etrans; [exact P|by split].
  - split; [done|]. intros B. by destruct (K B) as (? & ? & _).
Qed.

(** *** Connection events *)

Definition transport_ok st (t : T) : Prop :=
  t_wf t /\ len (t_out t) <= Z.of_nat (length (sent st)) * 2 ^ 25.

Lemma cl_onConnection_post st t :
  (in_budget st -> client_inv st [] /\ transport_ok st t) ->
  post id st (cl_onConnection iter t st) (fun st' => client_inv st' [] /\ pendingConnect_ st' = None /\
    connected_ st' = connected t /\ (connected t = false -> pendings_ st' = ∅) /\
    resolved st' = resolved st ++ match pendingConnect_ st with Some w => [(w, connected t)] | None => [] end).
Proof.
  intros I. unfold cl_onConnection.
  set (Q := fun st' : RpcClient T => client_inv st' [] /\ pendingConnect_ st' = None /\
    connected_ st' = connected t /\ (connected t = false -> pendings_ st' = ∅) /\ resolved st' = resolved st).
  eapply (post_bind id _ _ _ _ Q).
  - destruct (connected t) eqn:Ec.
    + apply post_ret; [done|]. intros B. destruct (I B) as [[] [Hw Hl]]. split_and!; try done.
      split; auto; cbn. by intros ? [= <-].
    + set (st1 := set_connected _ _ _). apply (post_from _ _ st1); [done|].
      eapply post_mono; [apply failAllPending_post|].
      * intros B. destruct (I B) as [[] _]. split; auto; cbn. done.
      * intros st' [I' P]. destruct (pr_promise _ _ P). unfold Q. rewrite ?Ec. split_and!; try done.
        -- by rewrite (pr_connected _ _ P).
        -- intros _. by rewrite (pr_idle _ _ P).
  - intros st' _ HQ. unfold id, resolve in *. destruct (pendingConnect_ st) as [w|].
    + apply post_ret; [done|]. intros B. destruct (HQ B) as ([] & ? & ? & ? & E). split_and!; try done.
      cbn. by rewrite E.
    + apply post_ret; [done|]. intros B. destruct (HQ B) as (? & ? & ? & ? & E).
      split_and!; try done. by rewrite app_nil_r.
Qed.

(** *** Messages *)

Lemma cl_onFrame_post h body st :
  (in_budget st -> client_inv st []) ->
  post fst st (cl_onFrame iter h body st)
    (fun p => client_inv p.1 [] /\ cl_frameReader_ p.1 = cl_frameReader_ st).
Proof.
  intros I. unfold cl_onFrame.
  assert (post fst st (st <- failConnection iter st;; Ret (st, false))
    (fun p => client_inv p.1 [] /\ cl_frameReader_ p.1 = cl_frameReader_ st)) as F.
  { eapply post_bind; [by apply failConnection_post|]. intros st' _ I'. unfold id in *. apply post_ret; [done|].
    intros B. destruct (I' B) as (? & P & _). split; [done|]. exact (pr_reader _ _ P). }
  destruct (_ || _); [done|]. destruct (negb _); [done|].
  destruct (RawCodec.decodeResponse body _) as [[] [resp|]]; try done.
  destruct (pendings_ st !! requestId h) as [pc|] eqn:Hp; cycle 1.
  { destruct (wasTimedOut _ st); [|done]. apply post_ret; [done|]. auto. }
  set (st1 := cancelTimer _ _).
  assert (sent st1 = sent st) as Es by (subst st1; by destruct (pc_timer pc)).
  assert (cl_frameReader_ st1 = cl_frameReader_ st) as Er by (subst st1; by destruct (pc_timer pc)).
  apply (post_from _ _ st1); [done|]. eapply post_bind; [apply (complete_ok _ _ _ (unarm pc)); [done..|]|].
  - intros B. apply inv_cancel, inv_take; [|done]. apply I. unfold in_budget in *. by rewrite <- Es.
  - intros st' _ I'. apply post_ret; [done|]. intros B. destruct (I' B) as [? P].
    split; [done|]. by etrans; [exact (pr_reader _ _ P)|].
Qed.

Lemma cl_onMessage_loop_post fuel : forall buf st,
  (in_budget st -> client_inv st [] /\ buffer_wf buf /\ (length (contents buf) < fuel)%nat) ->
  post snd st (cl_onMessage_loop iter fuel buf st)
    (fun p => client_inv p.2 [] /\ buffer_wf p.1 /\ buffer_ p.1 = buffer_ buf).
Proof.
  induction fuel as [|fuel IH]; intros buf st I; cbn [cl_onMessage_loop].
  { split; [done|]. intros (_ & _ & ?)%I. lia. }
  assert (in_budget st -> match parse (cl_frameReader_ st) (Some buf) (Some zeroHeader) (Some []) with
    | Some (kNeedMore, (Some buf', _, _)) | Some (kProtocolError, (Some buf', _, _)) => buf' = buf
    | Some (kOk, (Some buf', Some h, Some body)) =>
        buffer_wf buf' /\ (length (contents buf') < fuel)%nat /\ buffer_ buf' = buffer_ buf
    | _ => False
    end) as K.
  { intros (Hi & Hb & Hf)%I. pose proof (parse_refines _ buf zeroHeader [] (inv_reader _ _ Hi) Hb) as P.
    destruct (parse_bytes _ (contents buf)) as [| |[h body] rest] eqn:E; [by rewrite P..|].
    destruct P as (b' & -> & ? & Hr & ?). apply parse_bytes_shorter in E. rewrite Hr. split_and!; auto. lia. }
  destruct (parse _ _ _ _) as [[[] [[[buf'|] [h|]] [body|]]]|]; try (split; [done|]; by intros B%K).
  1: { eapply post_bind; [apply cl_onFrame_post; intros B; by apply I|].
       intros [st' cont] Hp Hst'; cbn [fst] in *.
       assert (in_budget st' -> client_inv st' [] /\ buffer_wf buf' /\
         (length (contents buf') < fuel)%nat /\ buffer_ buf' = buffer_ buf) as I'.
       { intros B. apply (in_budget_prefix _ _ Hp) in B as B0. destruct (K B0) as (? & ? & ?), (Hst' B). done. }
       destruct cont.
       - eapply post_mono_budget; [apply IH|]; [intros B; by destruct (I' B) as (? & ? & ? & _)|].
         intros [b st2] B (? & ? & E). cbn [fst snd] in *. split_and!; try done. rewrite E. by apply I'.
       - apply post_ret; [done|]. intros B. by destruct (I' B) as (? & ? & _ & ?). }
  1-4: apply post_ret; [done|]; intros B; rewrite (K B); split_and!; try done; by apply I.
  all: eapply post_bind; [apply failConnection_post; intros B; by apply I|].
  all: intros st' Hp Hst'; apply post_ret; [done|]; intros B; apply (in_budget_prefix _ _ Hp) in B as B0.
  all: rewrite (K B0); split_and!; try done; [by apply Hst'|by apply I].
Qed.

(** ** Executions *)

(** What can happen to a client on its loop thread: a call posted by
    [AsyncCall]/[CallAsync]/[Call], a [disconnect], the critical section of
    [connect], the callbacks of [TcpClient], a read, a due timer, I/O on the
    connection by the transport itself, and [setSerializerId]. *)
Inductive event :=
| EvCall (request : Request) (c : Completion) (deadline : bool)
| EvDisconnect
| EvConnect (waiter : Z)
| EvConnection (t : T)
| EvConnectError
| EvRead (chunk : bytes)
| EvTimer (timer : Z)
| EvIo (t : T)
| EvSerializer (id : Z).

Definition client_step (e : event) (p : Buffer * RpcClient T) : outcome (T := T) (Buffer * RpcClient T) :=
  let '(buf, st) := p in
  match e with
  | EvCall request c deadline => st <- startCallInLoop request c deadline st;; Ret (buf, st)
  | EvDisconnect => st <- disconnect st;; Ret (buf, st)
  | EvConnect w => match connect w st with Some (_, st') => Ret (buf, st') | None => Stop Aborted st end
  | EvConnection t => st <- cl_onConnection iter t st;; Ret (buf, st)
  | EvConnectError => Ret (buf, onConnectError st)
  | EvRead chunk => match append buf chunk with Some buf' => cl_onMessage iter buf' st | None => Stop Aborted st end
  | EvTimer t => st <- fireTimer t st;; Ret (buf, st)
  | EvIo t => Ret (buf, set_connection (Some t) st)
  | EvSerializer id => Ret (buf, cl_setSerializerId id st)
  end.

(** The contracts: payloads are real strings, [connect] is called by one thread
    at a time on a client that was never connected, the transport is well formed,
    and the input buffer stays below 2^63 bytes. *)
Definition event_ok (e : event) (p : Buffer * RpcClient T) : Prop :=
  let '(buf, st) := p in
  match e with
  | EvCall request c _ => len (payload request) < 2 ^ 63 /\ completion_ok c
  | EvConnect _ => connected_ st = true \/ (everConnected_ st = false /\ pendingConnect_ st = None)
  | EvConnection t => transport_ok st t
  | EvRead chunk => len (buffer_ buf) + len chunk < 2 ^ 63
  | EvIo t => is_Some (connection_ st) /\ transport_ok st t
  | EvSerializer id => 0 <= id < 256
  | EvDisconnect | EvConnectError | EvTimer _ => True
  end.

Fixpoint client_run (es : list event) (p : Buffer * RpcClient T) : outcome (T := T) (Buffer * RpcClient T) :=
  match es with
  | [] => Ret p
  | e :: es => p <- client_step e p;; client_run es p
  end.

Fixpoint events_ok (es : list event) (p : Buffer * RpcClient T) : Prop :=
  match es with
  | [] => True
  | e :: es => event_ok e p /\ match client_step e p with Ret p' => events_ok es p' | Stop _ _ => True end
  end.

Definition run_inv (p : Buffer * RpcClient T) : Prop := client_inv p.2 [] /\ buffer_wf p.1.

Lemma post_buffer st m buf (P : RpcClient T -> Prop) :
  post id st m P -> (in_budget st -> buffer_wf buf) ->
  (forall st', P st' -> client_inv st' []) ->
  post snd st (st <- m;; Ret (buf, st)) run_inv.
Proof.
  intros Hm Hb HP. eapply post_bind; [exact Hm|]. intros st' Hp I. apply post_ret; [done|].
  intros B. split; [by apply HP, I|]. apply Hb. by eapply in_budget_prefix.
Qed.

Lemma inv_connect st w st' b :
  client_inv st [] -> connect w st = Some (b, st') -> client_inv st' [].
Proof. intros I E. unfold connect in E. repeat case_match; simplify_eq; [done|]. by destruct I. Qed.

Lemma inv_onConnectError st : client_inv st [] -> client_inv (onConnectError st) [].
Proof. intros []. unfold onConnectError, resolve. destruct (pendingConnect_ st); split; auto. Qed.

Lemma client_step_post e p :
  (in_budget p.2 -> run_inv p) -> event_ok e p -> post snd p.2 (client_step e p) run_inv.
Proof.
  destruct p as [buf st]. unfold run_inv. cbn [fst snd]. intros I He.
  destruct e as [req c d| |w|t| |chunk|t|t|id]; cbn [client_step event_ok] in *.
  - eapply post_buffer; [apply startCall_ok; [apply complete_ok|]|intros B; by apply I|by intros ? []].
    intros B. destruct He. split; [by apply I|done].
  - eapply post_buffer; [apply shutdown_post|intros B; by apply I|by intros ? []]. intros B. by apply I.
  - destruct (connect w st) as [[b st']|] eqn:E.
    + apply post_ret; [unfold connect in E; repeat case_match; by simplify_eq|]. intros B.
      assert (in_budget st) as B' by (unfold connect in E; repeat case_match; by simplify_eq).
      split; [|by apply I]. eapply inv_connect; [by apply I|done].
    + exfalso. unfold connect in E. repeat case_match; try done; destruct He as [?|[? ?]]; congruence.
  - eapply post_buffer; [apply cl_onConnection_post|intros B; by apply I|by intros ? []].
    intros B. split; [by apply I|done].
  - apply post_ret; [unfold onConnectError, resolve; by destruct (pendingConnect_ st)|]. intros B.
    assert (in_budget st) as B' by (unfold onConnectError, resolve in B; by destruct (pendingConnect_ st)).
    split; [|by apply I]. by apply inv_onConnectError, I.
  - destruct (append buf chunk) as [b'|] eqn:E.
    + eapply post_mono; [apply cl_onMessage_loop_post|by intros [] (? & ? & _)].
      intros B. destruct (I B) as [? Hb]. destruct (append_spec buf chunk Hb He) as (b2 & E2 & ? & _).
      rewrite E in E2. injection E2 as <-. split_and!; try done. rewrite readable_contents by done. unfold len. lia.
    + split; [done|]. intros [_ Hb]%I. destruct (append_spec buf chunk Hb He) as (b2 & E2 & _). congruence.
  - eapply post_buffer; [apply fireTimer_post|intros B; by apply I|done]. intros B. by apply I.
  - apply post_ret; [done|]. intros B. destruct He as [? [? ?]]. split; [|by apply I].
    apply inv_set_connection; auto. by apply I.
  - apply post_ret; [done|]. intros B. split; [|by apply I]. by destruct (proj1 (I B)).
Qed.

Lemma client_run_post es : forall p,
  (in_budget p.2 -> run_inv p) -> events_ok es p -> post snd p.2 (client_run es p) run_inv.
Proof.
  induction es as [|e es IH]; intros p I He; cbn [client_run]; [by apply post_ret|].
  destruct He as [He Hes]. pose proof (client_step_post e p I He) as Hs.
  destruct (client_step e p) as [p'|]; cbn [obind]; [|done]. destruct Hs as [Hp I'].
  specialize (IH p' I' Hes).
  destruct (client_run es p'); destruct IH; (split; [by etrans|done]).
Qed.

Lemma client_inv_new : client_inv (RpcClient_new (T := T)) [].
Proof.
  split; cbn; try done; try by vm_compute.
  all: constructor.
Qed.

Definition client_init : Buffer * RpcClient T := (Buffer_new kInitialSize, RpcClient_new).

Lemma run_inv_init : run_inv client_init.
Proof. split; [apply client_inv_new|]. by apply Buffer_new_wf. Qed.

(** A state some execution reaches. *)
Definition reachable st : Prop :=
  exists es buf, events_ok es client_init /\ client_run es client_init = Ret (buf, st).

Lemma reachable_inv st : reachable st -> in_budget st -> client_inv st [].
Proof.
  intros (es & buf & He & E) B.
  pose proof (client_run_post es client_init (fun _ => run_inv_init) He) as P.
  rewrite E in P. destruct P as [_ P]. by apply (P B).
Qed.

(** *** A client without a connection never waits *)

Lemma complete_idle c : forall r st,
  connection_ st = None -> exists st', complete c r st = Ret st' /\ connection_ st' = None /\
    pendings_ st' = pendings_ st /\ sent st' = sent st.
Proof.
  induction c as [t f IH|req c d IH|] using completion_ind' with
    (Q := fun a => forall st, connection_ st = None -> exists st', connection_ st' = None /\
       pendings_ st' = pendings_ st /\ sent st' = sent st /\
       match a with ACall req c d => startCallInLoop req c d st | ADisconnect => disconnect st end = Ret st').
  - intros r st Hc. rewrite complete_unfold. cbn [react token]. specialize (IH r).
    assert (connection_ (log_completed t r st) = None) as Hc' by done.
    assert (pendings_ (log_completed t r st) = pendings_ st /\ sent (log_completed t r st) = sent st) as [<- <-] by done.
    generalize dependent (log_completed t r st). clear st Hc.
    induction IH as [|a acts Ha _ IHa]; intros st Hc; cbn [perform]; [eauto|].
    destruct (Ha st Hc) as (st1 & Hc1 & <- & <- & ->). cbn [obind]. by apply IHa.
  - intros st Hc. unfold startCallInLoop, startCall_with. cbn. rewrite Hc.
    destruct (IH connectionClosedResponse (log_started (token c) st) Hc) as (st' & ? & ? & ? & ?). eauto.
  - intros st Hc. unfold disconnect. rewrite Hc. eauto 10.
Qed.

Lemma fail_entries_idle es : forall st,
  connection_ st = None -> exists st', fail_entries es st = Ret st' /\ pendings_ st' = pendings_ st /\ sent st' = sent st.
Proof.
  induction es as [|[id pc] es IH]; intros st Hc; cbn [fail_entries]; [eauto|].
  destruct (complete_idle (pc_complete pc) connectionClosedResponse (cancelTimer (pc_timer pc) st))
    as (st1 & -> & Hc1 & Ep & Es); [by destruct (pc_timer pc)|]. cbn [obind].
  destruct (IH st1 Hc1) as (st' & -> & ? & ?). exists st'. split; [done|].
  rewrite H1, H2, Ep, Es. by destruct (pc_timer pc).
Qed.

(** *** What failing everything reports *)

Lemma fail_entries_reports es : forall st st' extra,
  client_inv st (es.*2 ++ extra) -> fail_entries es st = Ret st' -> in_budget st' ->
  completed st `prefix_of` completed st' /\
  forall rid pc, (rid, pc) ∈ es -> (token (pc_complete pc), connectionClosedResponse) ∈ completed st'.
Proof.
  induction es as [|[rid0 pc0] es IH]; intros st st' extra I E B; cbn [fail_entries] in E.
  { injection E as <-. split; [done|]. by intros ? ? ?%not_elem_of_nil. }
  cbn [fmap list_fmap app snd] in I. apply inv_cancel in I.
  pose proof (complete_ok (pc_complete pc0) connectionClosedResponse _ (unarm pc0) _ eq_refl eq_refl (fun _ => I)) as S.
  destruct (complete (pc_complete pc0) _ _) as [st1|] eqn:Ec; [|done]. cbn [obind] in E. destruct S as [_ HS].
  pose proof (fail_entries_ok es st1 extra (fun B' => proj1 (HS B'))) as F. rewrite E in F. destruct F as [Hp _].
  pose proof (in_budget_prefix _ _ Hp B) as B1.
  pose proof (complete_reports _ _ (unarm pc0) _ _ I eq_refl Ec B1) as R.
  destruct (IH st1 st' extra (proj1 (HS B1)) E B) as [P1 P2].
  assert (completed (cancelTimer (pc_timer pc0) st) = completed st) as E0 by by destruct (pc_timer pc0).
  rewrite E0 in R. split; [etrans; [|exact P1]; etrans; [|exact R]; by eexists|].
  intros rid pc [[= -> ->]|Hin]%elem_of_cons; [|by eapply P2].
  destruct P1 as [k1 ->], R as [k2 ->]. set_solver.
Qed.

(** ** Theorems *)

(** C3: Every call completes exactly once or is still pending, on every execution
    and whatever the callbacks do: the calls started are, as multisets, the calls
    completed plus those in the table.  Pending ids are non-zero 32-bit ids that
    are never among the remembered timeouts, at most 1024 of which are kept; the
    loop's timers are exactly those of pending calls with a deadline.  The loop
    thread never fails an assertion and can only spin if all 2^32 - 1 ids are
    taken. *)
Theorem client_exactly_once es :
  events_ok es client_init ->
  match client_run es client_init with
  | Ret (_, st) => in_budget st ->
      started st ≡ₚ (completed st).*1 ++
        ((fun pc => token (pc_complete pc)) <$> (map_to_list (pendings_ st)).*2) /\
      (forall id pc, pendings_ st !! id = Some pc -> 0 < id < 2 ^ 32 /\ (id ∉ timedOutIdSet_ st)) /\
      Z.of_nat (size (timedOutIdSet_ st)) <= kMaxRememberedTimeouts /\
      (forall t id, timers_ st !! t = Some id <->
         exists pc, pendings_ st !! id = Some pc /\ pc_timer pc = Some t)
  | Stop _ st => in_budget st -> 2 ^ 32 - 1 <= Z.of_nat (size (pendings_ st) + size (timedOutIdSet_ st))
  end.
Proof.
  intros He. pose proof (client_run_post es client_init (fun _ => run_inv_init) He) as P.
  destruct (client_run es client_init) as [[buf st]|]; destruct P as [_ P]; [|done].
  intros [I _]%P. cbn [snd] in I. split_and!.
  - pose proof (inv_ledger _ _ I) as L. unfold entries in L. by rewrite app_nil_r in L.
  - intros rid pc Hp. by destruct (inv_ids _ _ I _ _ Hp) as (_ & ? & ?).
  - rewrite (inv_set _ _ I), size_list_to_set by apply I. apply I.
  - intros t rid. split; [by apply timer_owner|]. intros (pc & Hp & Ht).
    destruct (inv_ids _ _ I _ _ Hp) as (E & _). rewrite <- E in Hp |- *. eapply armed_lookup; [done| |done].
    unfold entries. rewrite app_nil_r. apply list_elem_of_fmap. exists (pc_id pc, pc).
    split; [done|]. by apply elem_of_map_to_list.
Qed.

(** C20: A closed connection leaves no caller waiting: when the transport reports
    that it is down, the callback returns, every call ever started has completed
    exactly once, no timer is armed, and those that were pending were told
    [kConnectionClosed]. *)
Theorem disconnect_resolves_all st t :
  reachable st -> transport_ok st t -> connected t = false -> in_budget st ->
  exists st', cl_onConnection iter t st = Ret st' /\
    started st' ≡ₚ (completed st').*1 /\ pendings_ st' = ∅ /\ timers_ st' = ∅ /\
    forall id pc, pendings_ st !! id = Some pc ->
      (token (pc_complete pc), connectionClosedResponse) ∈ completed st'.
Proof.
  intros Hr Ht Hc B. pose proof (reachable_inv st Hr B) as I.
  pose proof (cl_onConnection_post st t (fun _ => conj I Ht)) as P.
  unfold cl_onConnection in *. rewrite Hc in *. set (st1 := set_connected _ _ _) in *.
  destruct (fail_entries_idle (iter (pendings_ st)) (set_pendings ∅ st1)) as (st2 & E & Ep & Es); [done|].
  unfold failAllPending in *. change (pendings_ st1) with (pendings_ st) in *.
  rewrite E in *. cbn [obind] in *. set (st' := resolve _ _ _) in *. exists st'. split; [done|].
  assert (sent st' = sent st) as Es' by (subst st'; unfold resolve; by destruct (pendingConnect_ st)).
  assert (in_budget st') as B' by (unfold in_budget in *; by rewrite Es').
  destruct P as [_ P]. destruct (P B') as (I' & _ & _ & Hp & _). specialize (Hp eq_refl).
  unfold id in *. split_and!; try done.
  - pose proof (inv_ledger _ _ I') as L. unfold entries in L. rewrite Hp, map_to_list_empty in L. simpl in L.
    by rewrite app_nil_r in L.
  - pose proof (inv_timers _ _ I') as L. unfold entries in L. rewrite Hp, map_to_list_empty in L.
    simpl in L. by apply map_to_list_empty_iff, Permutation_nil_r.
  - intros rid pc Hin. assert (completed st' = completed st2) as -> by (subst st'; unfold resolve; by destruct (pendingConnect_ st)).
    refine (proj2 (fail_entries_reports (iter (pendings_ st)) (set_pendings ∅ st1) st2 [] _ E _) rid pc _).
    + assert (client_inv st1 []) as I1 by (destruct I; split; auto; done). exact (inv_clear _ _ I1).
    + unfold in_budget in *. rewrite Es. exact B.
    + rewrite iter_perm. by apply elem_of_map_to_list.
Qed.

(** A response frame this client is willing to read. *)
Definition response_ok st (h : MessageHeader) (body : bytes) : Prop :=
  version h = kVersion /\ type h = MessageType.kResponse /\ serializerId h = cl_serializerId_ st /\
  len body <= kMaxBodyLen.

Lemma cl_onFrame_ok h body st :
  response_ok st h body ->
  cl_onFrame iter h body st =
    match pendings_ st !! requestId h with
    | None => if wasTimedOut (requestId h) st then Ret (st, true)
              else st <- failConnection iter st;; Ret (st, false)
    | Some pc =>
        st <- complete (pc_complete pc) (mkResponse (status h) body (serializerId h))
                (cancelTimer (pc_timer pc) (set_pendings (delete (requestId h) (pendings_ st)) st));;
        Ret (st, true)
    end.
Proof.
  intros (Hv & Ht & Hs & Hb). unfold cl_onFrame, RawCodec.decodeResponse.
  rewrite Hv, Ht, Hs, !Z.eqb_refl. cbn [negb orb]. by rewrite (proj2 (Z.ltb_ge _ _)).
Qed.

(** Responses are matched by id.  A response whose id is pending completes
    exactly the call registered under that id, with the response's own status,
    payload and format, and the next thing in the log is that completion; a
    response to a remembered timeout changes nothing at all; any other id fails
    every pending call with [kConnectionClosed] and closes the connection. *)
Theorem response_routed st h body :
  reachable st -> response_ok st h body ->
  match cl_onFrame iter h body st with
  | Stop _ st' => in_budget st' -> crowded st'
  | Ret (st', cont) => in_budget st' ->
      match pendings_ st !! requestId h with
      | Some pc => cont = true /\
          completed st ++ [(token (pc_complete pc), mkResponse (status h) body (serializerId h))]
            `prefix_of` completed st'
      | None =>
          if wasTimedOut (requestId h) st then cont = true /\ st' = st
          else cont = false /\ (forall c, connection_ st' = Some c -> connected c = false) /\
            forall id pc, pendings_ st !! id = Some pc ->
              (token (pc_complete pc), connectionClosedResponse) ∈ completed st'
      end
  end.
Proof.
  intros Hr Hok. pose proof (cl_onFrame_post h body st (reachable_inv st Hr)) as P.
  destruct (cl_onFrame iter h body st) as [[st' cont]|] eqn:E; [|by destruct P]. intros B'.
  destruct P as [Hp _]. cbn [fst] in Hp.
  pose proof (reachable_inv st Hr (in_budget_prefix _ _ Hp B')) as I. rewrite cl_onFrame_ok in E by done.
  destruct (pendings_ st !! requestId h) as [pc|] eqn:Hl.
  - destruct (complete _ _ _) as [st2|] eqn:Ec; [|done]. injection E as <- <-. split; [done|].
    pose proof (inv_cancel _ _ _ (inv_take _ _ _ _ I Hl)) as I'.
    pose proof (complete_reports _ _ (unarm pc) _ _ I' eq_refl Ec B') as R.
    by destruct (pc_timer pc).
  - destruct (wasTimedOut _ st); [by injection E as <- <-|].
    pose proof (failConnection_post st (fun _ => I)) as F.
    destruct (failConnection iter st) as [st2|] eqn:Ef; [|done]. injection E as <- <-.
    destruct F as [_ F]. destruct (F B') as (_ & _ & Hc). split_and!; try done.
    unfold failConnection in Ef. destruct (failAllPending iter st) as [st1|] eqn:Ea; [|done]. cbn [obind] in Ef.
    assert (completed st2 = completed st1 /\ sent st2 = sent st1) as [-> Es].
    { destruct (connection_ st1); [|by injection Ef as <-]. destruct (forceClose _); [|done].
      by injection Ef as <-. }
    intros rid pc Hin. refine (proj2 (fail_entries_reports _ _ st1 [] (inv_clear _ _ I) Ea _) rid pc _).
    + unfold in_budget in *. rewrite <- Es. exact B'.
    + rewrite iter_perm. by apply elem_of_map_to_list.
Qed.

(** Deadlines.  When the timer of a pending call fires, that call completes
    with [kTimeout], its id is remembered, and a response that arrives later
    with that id is dropped without any effect, even if the callback started new
    calls. *)
Theorem timeout_then_late_response st t id :
  reachable st -> timers_ st !! t = Some id ->
  match fireTimer t st with
  | Stop _ st' => in_budget st' -> crowded st'
  | Ret st' => in_budget st' ->
      (exists pc, pendings_ st !! id = Some pc /\
         completed st ++ [(token (pc_complete pc), timeoutResponse)] `prefix_of` completed st') /\
      forall h body, requestId h = id -> response_ok st' h body ->
        cl_onFrame iter h body st' = Ret (st', true)
  end.
Proof.
  intros Hr Ht. pose proof (fireTimer_post st t (reachable_inv st Hr)) as P.
  destruct (fireTimer t st) as [st'|] eqn:E; [|by destruct P]. intros B'.
  destruct P as [Hp I']. specialize (I' B'). unfold Datatypes.id in *.
  pose proof (reachable_inv st Hr (in_budget_prefix _ _ Hp B')) as I.
  destruct (timer_owner st t id I Ht) as (pc & Hl & Et). destruct (take_facts _ _ _ _ I Hl) as (_ & ? & ? & _).
  unfold fireTimer in E. rewrite Ht in E. unfold onTimeout in E. cbn [pendings_ set_timers] in E. rewrite Hl in E.
  set (st1 := set_pendings _ _) in E.
  assert (client_inv st1 (unarm pc :: [])) as I1.
  { pose proof (inv_cancel _ _ _ (inv_take _ _ _ _ I Hl)) as I1. by rewrite Et in I1. }
  destruct (rememberTimedOut_ok st1 [unarm pc] id) as (ids & s & E2 & Hin & I2); try done.
  { apply lookup_delete_eq. }
  rewrite E2 in E. cbn [obind] in E.
  pose proof (complete_ok (pc_complete pc) timeoutResponse (set_timedOut ids s st1) (unarm pc) [] eq_refl eq_refl (fun _ => I2)) as S.
  rewrite E in S. destruct S as [_ S]. destruct (S B') as [_ Pr].
  assert (id ∈ timedOutIdSet_ st') as Hin' by by rewrite (pr_set _ _ Pr). split.
  - exists pc. split; [done|]. exact (complete_reports _ _ (unarm pc) _ _ I2 eq_refl E B').
  - intros h body Hid Hok. rewrite cl_onFrame_ok, Hid by done. destruct (pendings_ st' !! id) as [pc'|] eqn:El.
    + destruct (inv_ids _ _ I' _ _ El) as (_ & _ & ?). done.
    + unfold wasTimedOut. by rewrite bool_decide_true.
Qed.
End invariant.

(** ** Concrete executions on the sink transport *)
Module ClientSample.
Definition call (tok : Z) : Completion := mkCompletion tok (fun _ => []).

(** A callback that retries once when the call fails. *)
Definition retrying (tok : Z) (req : Request) : Completion :=
  mkCompletion tok (fun r => if resp_status r =? StatusCode.kOk then [] else [ACall req (call (tok + 100)) false]).

Definition request : Request := mkRequest (str "Echo") (str "Say") [x2a].

Definition transport : Sink.t := Sink.mk true [].

(** Connect, two calls in flight: the first with a deadline and a retry. *)
Definition two_calls : list (event (T := Sink.t)) :=
  [EvConnect 7; EvConnection transport; EvCall request (retrying 1 request) true; EvCall request (call 2) false].

Definition response (id : Z) : MessageHeader :=
  mkHeader kMagic kVersion MessageType.kResponse 0 StatusCode.kOk kSerializerRaw id 1.

Lemma completions_ok : completion_ok (call 2) /\ completion_ok (retrying 1 request).
Proof.
  assert (forall t, completion_ok (call t)) as K by (intros t; constructor; intros r; constructor).
  split; [apply K|]. constructor. intros r. destruct (_ =? _); repeat constructor.
Qed.

(** One event, by evaluation. *)
Ltac run_event :=
  lazymatch goal with
  | |- context [client_step ?it ?e ?p] =>
      let r := eval vm_compute in (client_step it e p) in
      replace (client_step it e p) with r by (vm_compute; reflexivity); cbv beta iota
  end.

Lemma two_calls_ok : events_ok map_to_list two_calls client_init.
Proof.
  destruct completions_ok as [K1 K2]. unfold two_calls. cbn [events_ok].
  split; [right; done|]. run_event. split; [by split; vm_compute|]. run_event.
  split; [split; [by vm_compute|exact K2]|]. run_event. split; [split; [by vm_compute|exact K1]|]. run_event.
  exact I.
Qed.

Definition after_two_calls : RpcClient Sink.t :=
  match client_run map_to_list two_calls client_init with Ret (_, st) => st | Stop _ st => st end.

Lemma after_two_calls_reachable : reachable map_to_list after_two_calls.
Proof.
  destruct (client_run map_to_list two_calls client_init) as [[buf st]|] eqn:E.
  - exists two_calls, buf. split; [exact two_calls_ok|]. unfold after_two_calls. by rewrite E.
  - vm_compute in E. discriminate E.
Qed.
End ClientSample.

Lemma client_exactly_once_witness :
  match client_run map_to_list ClientSample.two_calls client_init with
  | Ret (_, st) => in_budget st ->
      started st ≡ₚ (completed st).*1 ++
        ((fun pc => token (pc_complete pc)) <$> (map_to_list (pendings_ st)).*2) /\
      (forall id pc, pendings_ st !! id = Some pc -> 0 < id < 2 ^ 32 /\ (id ∉ timedOutIdSet_ st)) /\
      Z.of_nat (size (timedOutIdSet_ st)) <= kMaxRememberedTimeouts /\
      (forall t id, timers_ st !! t = Some id <->
         exists pc, pendings_ st !! id = Some pc /\ pc_timer pc = Some t)
  | Stop _ st => in_budget st -> 2 ^ 32 - 1 <= Z.of_nat (size (pendings_ st) + size (timedOutIdSet_ st))
  end.
Proof. apply (client_exactly_once map_to_list (fun _ => reflexivity _)). exact ClientSample.two_calls_ok. Defined.

(** The peer goes away with two calls in flight; the retry of the first fails at
    once. *)
Lemma disconnect_resolves_all_witness :
  exists st', cl_onConnection map_to_list (Sink.mk false []) ClientSample.after_two_calls = Ret st' /\
    started st' ≡ₚ (completed st').*1 /\ pendings_ st' = ∅ /\ timers_ st' = ∅ /\
    forall id pc, pendings_ ClientSample.after_two_calls !! id = Some pc ->
      (token (pc_complete pc), connectionClosedResponse) ∈ completed st'.
Proof.
  apply (disconnect_resolves_all map_to_list (fun _ => reflexivity _));
    [exact ClientSample.after_two_calls_reachable|by split; vm_compute|done|by vm_compute].
Defined.

(** The response to the second call arrives first. *)
Lemma response_routed_witness :
  match cl_onFrame map_to_list (ClientSample.response 2) [x2b] ClientSample.after_two_calls with
  | Stop _ _ => False
  | Ret (st', cont) => cont = true /\
      completed ClientSample.after_two_calls ++ [(2, mkResponse StatusCode.kOk [x2b] kSerializerRaw)]
        `prefix_of` completed st'
  end.
Proof.
  pose proof (response_routed map_to_list (fun _ => reflexivity _) ClientSample.after_two_calls
    (ClientSample.response 2) [x2b] ClientSample.after_two_calls_reachable) as K.
  destruct (pendings_ ClientSample.after_two_calls !! requestId (ClientSample.response 2)) as [pc|] eqn:Ep;
    [|vm_compute in Ep; discriminate Ep].
  assert (token (pc_complete pc) = 2) as Et by (vm_compute in Ep; by injection Ep as <-).
  destruct (cl_onFrame _ _ _ _) as [[st' cont]|] eqn:E; [|vm_compute in E; discriminate E].
  rewrite Et in K. apply K; [by split_and!; vm_compute|]. vm_compute in E. by injection E as <- <-.
Defined.

Lemma timeout_then_late_response_witness :
  match fireTimer 0 ClientSample.after_two_calls with
  | Stop _ st' => in_budget st' -> crowded st'
  | Ret st' => in_budget st' ->
      (exists pc, pendings_ ClientSample.after_two_calls !! 1 = Some pc /\
         completed ClientSample.after_two_calls ++ [(token (pc_complete pc), timeoutResponse)]
           `prefix_of` completed st') /\
      forall h body, requestId h = 1 -> response_ok st' h body ->
        cl_onFrame map_to_list h body st' = Ret (st', true)
  end.
Proof.
  apply (timeout_then_late_response map_to_list (fun _ => reflexivity _));
    [exact ClientSample.after_two_calls_reachable|by vm_compute].
Defined.
