(* ===== verification/RpcEndToEnd.v ===== *)
(** * RpcEndToEnd: a client and a server, wire to wire

    [RpcClient] and [RpcServer] were verified apart, against the transport
    interface.  Here they are put together: the bytes the client's calls write are
    read by the server, and the bytes the server's answers write are read by the
    client, both cut into reads at will. *)
From S2P Require Import Prelude Protocol Buffer FrameReader Codec ServiceRegistry Transport RpcServer RpcClient.

(** A call whose callback only takes note of the response. *)
Record rpc_call := mkCall { c_request : Request; c_token : Z; c_deadline : bool }.

Definition passive (tok : Z) : Completion := mkCompletion tok (fun _ => []).

Lemma passive_ok tok : completion_ok (passive tok).
Proof. constructor. intros r. constructor. Qed.

(** The frames of a call and of its response. *)
Definition request_frame (ser id : Z) (r : Request) : frame :=
  (mkHeader kMagic kVersion MessageType.kRequest 0 StatusCode.kOk ser id (len (RawCodec.request_bytes r)),
   RawCodec.request_bytes r).

Definition response_frame (id : Z) (r : Response) : frame :=
  (mkHeader kMagic kVersion MessageType.kResponse 0 (resp_status r) (resp_serializerId r) id (len (resp_payload r)),
   resp_payload r).

(** ** The server's side *)
Section server_side.
Context {W : Type}.
Implicit Types (s : RpcServer W) (w : W).

(** What the application computes for a request: the handler's answer, or the
    status the registry or an exception gives. *)
Definition result s w (r : Request) : option (Response * W) :=
  let '(outcome, resp, w') := dispatch (registry_ s) w r (Some Response_new) in
  r' ← match outcome with Returned _ => resp | Threw => Some (Response_of StatusCode.kInternalError) end;
  if kMaxBodyLen <? len (resp_payload r') then None
  else Some (mkResponse (resp_status r') (resp_payload r') (serializerId_ s), w').

Fixpoint results s w (rs : list Request) : option (list Response * W) :=
  match rs with
  | [] => Some ([], w)
  | r :: rs => '(p, w1) ← result s w r; '(ps, w2) ← results s w1 rs; Some (p :: ps, w2)
  end.

Lemma answer_request s w id r :
  RawCodec.request_fits r -> answer s w (request_frame (serializerId_ s) id r) = result s w r.
Proof.
  intros Hr. unfold answer, request_frame, result. cbn [version type flags serializerId].
  rewrite !Z.eqb_refl. cbn [negb orb]. rewrite RawCodec.decodeRequest_bytes by done. done.
Qed.

Lemma answer_requests s calls : forall w ids rs w',
  Forall RawCodec.request_fits calls -> length ids = length calls -> results s w calls = Some (rs, w') ->
  answer_all s w (zip_with (request_frame (serializerId_ s)) ids calls) =
    Some (zip_with (fun id r => frame_bytes (response_frame id r)) ids rs, w') /\ length rs = length calls.
Proof.
  induction calls as [|r calls IH]; intros w [|id ids] rs w' Hf Hl Hr; try done; cbn [zip_with answer_all results length] in *; [by simplify_eq|].
  apply Forall_cons in Hf as [Hf Hfs]. apply bind_Some in Hr as ([p w1] & Hp & Hr).
  apply bind_Some in Hr as ([ps w2] & Hps & [= <- <-]). rewrite answer_request, Hp by done. cbn [mbind option_bind].
  destruct (IH w1 ids ps w2) as [-> <-]; [done|lia|done|]. done.
Qed.

Lemma results_length s w rs ps w' : results s w rs = Some (ps, w') -> length ps = length rs.
Proof.
  revert w ps. induction rs as [|r rs IH]; intros w ps Hr; cbn [results] in *; [by simplify_eq|].
  apply bind_Some in Hr as ([p w1] & _ & Hr). apply bind_Some in Hr as ([ps' w2] & Hps & [= <- <-]).
  cbn. f_equal. eauto.
Qed.
End server_side.

(** ** The client's side *)
Section client_side.
Context {T : Type} `{TransportLaws T}.
Implicit Types (st : RpcClient T) (c : T).

Variable iter : gmap Z PendingCall -> list (Z * PendingCall).

Definition call_event (k : rpc_call) : event (T := T) := EvCall (c_request k) (passive (c_token k)) (c_deadline k).

(** A client with room for [n] more calls. *)
Definition spare st (n : nat) : Prop :=
  Z.of_nat (length (sent st) + n) < 2 ^ 34 /\
  Z.of_nat (size (pendings_ st) + size (timedOutIdSet_ st) + n) < 2 ^ 32.

(** Starting one call puts its frame on the wire and its entry in the table. *)
Lemma start_call st c k :
  client_inv st [] -> spare st 1 -> connection_ st = Some c -> connected c = true ->
  RawCodec.request_fits (c_request k) ->
  exists id t st' c', startCallInLoop (c_request k) (passive (c_token k)) (c_deadline k) st = Ret st' /\
    0 < id < 2 ^ 32 /\ pendings_ st !! id = None /\
    pendings_ st' = <[id := mkPending id (passive (c_token k)) t]> (pendings_ st) /\
    connection_ st' = Some c' /\ extends c c' (frame_bytes (request_frame (cl_serializerId_ st) id (c_request k))) /\
    client_inv st' [] /\ length (sent st') = S (length (sent st)) /\ completed st' = completed st /\ preserved st st'.
Proof.
  intros I [Hb Hcr] Ec Hc Hf. assert (in_budget st) as B by (unfold in_budget; lia).
  assert (len (payload (c_request k)) < 2 ^ 63) as Hp.
  { destruct Hf as (_ & _ & Hf). unfold kMaxBodyLen in Hf. pose proof (len_nonneg (service (c_request k))).
    pose proof (len_nonneg (method (c_request k))). lia. }
  pose proof (startCall_ok (complete (passive (c_token k))) (c_request k) (passive (c_token k)) (c_deadline k) st []
    (complete_ok _) (fun _ => conj I (conj Hp (passive_ok _)))) as Hok.
  unfold startCallInLoop. revert Hok. unfold startCall_with. set (st1 := log_started _ st).
  change (connection_ st1) with (connection_ st). change (connected_ st1) with (connected_ st).
  rewrite Ec, (inv_conn _ _ I), Ec, bool_decide_true by done. rewrite RawCodec.encodeRequest_fits by done.
  pose proof (allocate_ok st1 _ (fun _ => inv_log_started st [] (passive (c_token k)) I (passive_ok _))) as Ha.
  destruct (allocateRequestId st1) as [[id st2]|why st2] eqn:E.
  2: { exfalso. destruct Ha as [Hpre Ha]. unfold allocateRequestId in E.
       pose proof (allocate_shape (S (S (size (pendings_ st1) + size (timedOutIdSet_ st1)))) st1) as Hsh.
       rewrite E in Hsh. destruct Hsh as [n ->]. specialize (Ha B). unfold crowded in Ha. cbn in Ha. lia. }
  assert (exists n, st2 = set_nextRequestId n st1) as [n ->].
  { unfold allocateRequestId in E.
    pose proof (allocate_shape (S (S (size (pendings_ st1) + size (timedOutIdSet_ st1)))) st1) as Hsh. by rewrite E in Hsh. }
  destruct Ha as [_ Ha]. destruct (Ha B) as (n' & _ & _ & Hid & Hfree & _). cbn [fst snd obind] in *. clear E Ha.
  destruct (inv_transport _ _ I c Ec) as [Hw Hl].
  destruct (send_extends c (frame_bytes (request_frame (cl_serializerId_ st) id (c_request k)))) as (c' & Es & Hx); [done..| |].
  { unfold frame_bytes, request_frame. cbn [fst snd]. rewrite len_app, encodeHeader_len, RawCodec.request_bytes_len.
    destruct Hf as (_ & _ & Hf). unfold kMaxBodyLen, stream_max in *. lia. }
  assert (u32 (len (RawCodec.request_bytes (c_request k))) = len (RawCodec.request_bytes (c_request k))) as Eu.
  { apply u32_small. rewrite RawCodec.request_bytes_len. destruct Hf as (H1 & H2 & Hf). unfold kMaxBodyLen in *.
    pose proof (len_nonneg (payload (c_request k))). lia. }
  destruct (c_deadline k); cbn [runAfter]; cbn [cl_serializerId_ set_pendings set_timers set_nextRequestId log_started st1];
    rewrite Eu; unfold frame_bytes, request_frame in Es, Hx; cbn [fst snd] in Es, Hx; rewrite Es; cbn [lift obind];
    intros [Hs Hok]; destruct Hok as [I' Pr];
    try (unfold in_budget; cbn; rewrite length_app; cbn; lia).
  - exists id, (Some (nextTimer_ st)). eexists _, c'. split; [done|]. split_and!; try done; try lia. cbn. rewrite length_app. cbn. lia.
  - exists id, None. eexists _, c'. split; [done|]. split_and!; try done; try lia. cbn. rewrite length_app. cbn. lia.
Qed.

(** The table with the entries of the started calls on top of [m]. *)
Definition table (ps : list (Z * PendingCall)) (m : gmap Z PendingCall) : gmap Z PendingCall := list_to_map ps ∪ m.

Definition entry_of (p : Z * PendingCall) (k : rpc_call) : Prop := pc_complete p.2 = passive (c_token k).

Definition ids_free (ps : list (Z * PendingCall)) (m : gmap Z PendingCall) : Prop :=
  NoDup ps.*1 /\ Forall (fun p => 0 < p.1 < 2 ^ 32 /\ m !! p.1 = None) ps.

Lemma table_snoc ps id pc m :
  table ps m !! id = None -> <[id := pc]> (table ps m) = table (ps ++ [(id, pc)]) m.
Proof.
  unfold table. intros [Hl Hm]%lookup_union_None. rewrite list_to_map_app. cbn.
  rewrite insert_union_l. f_equal. apply map_eq. intros i. destruct (decide (i = id)) as [->|].
  - by rewrite lookup_insert_eq, lookup_union_r, lookup_insert_eq.
  - rewrite lookup_insert_ne by done. destruct (list_to_map ps !! i) as [x|] eqn:E; symmetry.
    + by apply lookup_union_Some_l.
    + rewrite lookup_union_r by done. by rewrite lookup_insert_ne.
Qed.

Lemma table_nil m : table [] m = m.
Proof. unfold table. change (list_to_map []) with (∅ : gmap Z PendingCall). by rewrite (left_id_L ∅ (∪)). Qed.

Lemma table_head id pc ps m : table ((id, pc) :: ps) m !! id = Some pc.
Proof. unfold table. cbn. apply lookup_union_Some_l, lookup_insert_eq. Qed.

Lemma table_tail id pc ps m :
  ids_free ((id, pc) :: ps) m -> delete id (table ((id, pc) :: ps) m) = table ps m /\ ids_free ps m.
Proof.
  intros [Hn Hf]. cbn in Hn. apply NoDup_cons in Hn as [Hn Hns]. apply Forall_cons in Hf as [[_ Hm] Hf]. split; [|done].
  unfold table. cbn. rewrite delete_union, delete_insert_eq, (delete_id m id) by done.
  rewrite delete_id; [done|]. by apply not_elem_of_list_to_map_1.
Qed.

(** Starting the calls, one after the other. *)
Lemma start_calls calls : forall st c ps m buf,
  client_inv st [] -> spare st (length calls) -> connection_ st = Some c -> connected c = true ->
  Forall (fun k => RawCodec.request_fits (c_request k)) calls -> pendings_ st = table ps m -> ids_free ps m ->
  exists qs st' c', client_run iter (call_event <$> calls) (buf, st) = Ret (buf, st') /\
    pendings_ st' = table (ps ++ qs) m /\ ids_free (ps ++ qs) m /\ Forall2 entry_of qs calls /\
    connection_ st' = Some c' /\
    extends c c' (concat (zip_with (fun id k => frame_bytes (request_frame (cl_serializerId_ st) id (c_request k))) qs.*1 calls)) /\
    client_inv st' [] /\ in_budget st' /\ completed st' = completed st /\ preserved st st'.
Proof.
  induction calls as [|k calls IH]; intros st c ps m buf I Hsp Ec Hc Hf Hm Hfree; cbn [fmap list_fmap client_run length] in *.
  { exists [], st, c. rewrite app_nil_r. split_and!; try done.
    - apply extends_refl; [by apply (inv_transport _ _ I)|done].
    - destruct Hsp as [Hb _]. unfold in_budget. lia. }
  apply Forall_cons in Hf as [Hf Hfs]. destruct Hsp as [Hb Hcr].
  destruct (start_call st c k I) as (id & t & st1 & c1 & E1 & Hid & Hno & Hm1 & Ec1 & X1 & I1 & Hs1 & Hl1 & Pr1); try done.
  { split; lia. }
  cbn [client_step call_event]. rewrite E1. cbn [obind].
  set (pc := mkPending id (passive (c_token k)) t) in *.
  assert (table ps m !! id = None) as Hno' by by rewrite <- Hm.
  assert (ids_free (ps ++ [(id, pc)]) m) as Hfree1.
  { destruct Hfree as [Hn Hfr]. unfold table in Hno'. apply lookup_union_None in Hno' as [Hl Hml]. split.
    - rewrite fmap_app. apply NoDup_app. split_and!; [done| |apply NoDup_singleton].
      intros x Hx. cbn. rewrite list_elem_of_singleton. intros ->. by apply not_elem_of_list_to_map in Hl.
    - apply Forall_app. split; [done|]. by apply Forall_singleton. }
  destruct (IH st1 c1 (ps ++ [(id, pc)]) m buf) as (qs & st2 & c2 & E2 & Hm2 & Hfree2 & Hq & Ec2 & X2 & I2 & B2 & Hl2 & Pr2); try done.
  - split; [lia|]. rewrite Hm1, map_size_insert_None, (pr_set _ _ Pr1) by done. lia.
  - by destruct X1 as (_ & ? & _).
  - by rewrite Hm1, Hm, table_snoc.
  - exists ((id, pc) :: qs), st2, c2. rewrite (cons_middle (id, pc) ps qs), app_assoc. split_and!; try done.
    + by constructor.
    + cbn [fmap list_fmap zip_with concat fst]. eapply extends_trans; [done|].
      by rewrite (pr_serializer _ _ Pr1) in X2.
    + by rewrite Hl2, Hl1.
    + by eapply preserved_trans.
Qed.

(** ** Reading the responses *)

(** The state after the entries [ps] were completed with the responses [rs]. *)
Fixpoint finish (ps : list (Z * PendingCall)) (rs : list Response) st : RpcClient T :=
  match ps, rs with
  | (id, pc) :: ps, r :: rs =>
      finish ps rs (log_completed (token (pc_complete pc)) r
        (cancelTimer (pc_timer pc) (set_pendings (delete id (pendings_ st)) st)))
  | _, _ => st
  end.

Definition replies (ps : list (Z * PendingCall)) (rs : list Response) : list frame :=
  zip_with (fun p r => response_frame p.1 r) ps rs.

(** A response this client reads. *)
Definition readable st (r : Response) : Prop :=
  0 <= resp_status r < 256 /\ resp_serializerId r = cl_serializerId_ st /\ 0 <= resp_serializerId r < 256 /\
  len (resp_payload r) <= bodyLimit (cl_frameReader_ st).

Definition quiet (p : Z * PendingCall) : Prop := exists tok, pc_complete p.2 = passive tok.

Lemma bodyLimit_max fr : bodyLimit fr <= kMaxBodyLen.
Proof. unfold bodyLimit. lia. Qed.

Lemma frame_completes st id pc r :
  pendings_ st !! id = Some pc -> quiet (id, pc) -> readable st r ->
  cl_onFrame iter (response_frame id r).1 (response_frame id r).2 st = Ret (finish [(id, pc)] [r] st, true).
Proof.
  intros Hp [tok Hq] (Hs & Hser & _ & Hl). cbn in Hq. rewrite cl_onFrame_ok.
  - cbn [response_frame fst snd requestId status serializerId]. rewrite Hp, Hq. cbn. rewrite Hq. by destruct r.
  - split_and!; try done. cbn. pose proof (bodyLimit_max (cl_frameReader_ st)). lia.
Qed.

Lemma finish_app ps qs rs ss st :
  length ps = length rs -> finish (ps ++ qs) (rs ++ ss) st = finish qs ss (finish ps rs st).
Proof.
  revert rs st. induction ps as [|[id pc] ps IH]; intros [|r rs] st Hl; try done. cbn. apply IH. by injection Hl.
Qed.

Lemma cancel_fields timer st :
  pendings_ (cancelTimer timer st) = pendings_ st /\ completed (cancelTimer timer st) = completed st /\
  cl_serializerId_ (cancelTimer timer st) = cl_serializerId_ st /\ cl_frameReader_ (cancelTimer timer st) = cl_frameReader_ st.
Proof. by destruct timer. Qed.

Lemma finish_fields ps : forall rs st qs m,
  length ps = length rs -> pendings_ st = table (ps ++ qs) m -> ids_free (ps ++ qs) m ->
  pendings_ (finish ps rs st) = table qs m /\
  completed (finish ps rs st) = completed st ++ zip ((fun p => token (pc_complete p.2)) <$> ps) rs /\
  cl_serializerId_ (finish ps rs st) = cl_serializerId_ st /\ cl_frameReader_ (finish ps rs st) = cl_frameReader_ st.
Proof.
  induction ps as [|[id pc] ps IH]; intros [|r rs] st qs m Hl Hm Hf; try done.
  { cbn. by rewrite app_nil_r. }
  cbn [finish fmap list_fmap zip_with app] in *. destruct (table_tail _ _ _ _ Hf) as [Hd Hf'].
  destruct (cancel_fields (pc_timer pc) (set_pendings (delete id (pendings_ st)) st)) as (E1 & E2 & E3 & E4).
  destruct (IH rs (log_completed (token (pc_complete pc)) r (cancelTimer (pc_timer pc) (set_pendings (delete id (pendings_ st)) st))) qs m)
    as (-> & -> & -> & ->); [by injection Hl| |done|].
  - cbn. rewrite E1. cbn. by rewrite Hm.
  - cbn. rewrite E2, E3, E4. cbn. split_and!; try done. by rewrite <- app_assoc.
Qed.

Lemma loop_completes ps : forall rs st buf fuel qs m rest,
  length ps = length rs -> reader_wf (cl_frameReader_ st) -> buffer_wf buf ->
  pendings_ st = table (ps ++ qs) m -> ids_free (ps ++ qs) m -> Forall quiet ps -> Forall (readable st) rs ->
  consumes (cl_frameReader_ st) (contents buf) (replies ps rs) rest ->
  exists buf', cl_onMessage_loop iter (length ps + fuel) buf st = cl_onMessage_loop iter fuel buf' (finish ps rs st) /\
    buffer_wf buf' /\ contents buf' = rest /\ buffer_ buf' = buffer_ buf.
Proof.
  induction ps as [|[id pc] ps IH]; intros [|r rs] st buf fuel qs m rest Hl Hr Hb Hm Hf Hq Hrs Hc; try done.
  { cbn in Hc. exists buf. done. }
  cbn [replies zip_with consumes fst] in Hc. destruct Hc as (s1 & Hp & Hc).
  apply Forall_cons in Hq as [Hq Hqs]. apply Forall_cons in Hrs as [Hr1 Hrs].
  pose proof (parse_refines (cl_frameReader_ st) buf zeroHeader [] Hr Hb) as P. rewrite Hp in P.
  destruct (response_frame id r) as [h body] eqn:Ef. destruct P as (b1 & Ep & Hb1 & Hc1 & Hbuf1).
  cbn [length Nat.add cl_onMessage_loop]. rewrite Ep.
  pose proof (frame_completes st id pc r) as F. rewrite Ef in F. cbn [fst snd] in F.
  rewrite F; [|by rewrite Hm; apply table_head|done|done]. cbn [obind].
  destruct (finish_fields [(id, pc)] [r] st (ps ++ qs) m) as (E1 & E2 & E3 & E4); [done..|].
  destruct (table_tail _ _ _ _ Hf) as [_ Hf'].
  destruct (IH rs (finish [(id, pc)] [r] st) b1 fuel qs m rest) as (b2 & -> & Hb2 & Hc2 & Hbuf2); try done.
  - by injection Hl.
  - by rewrite E4.
  - eapply Forall_impl; [exact Hrs|]. unfold readable. by rewrite E3, E4.
  - by rewrite E4, Hc1.
  - exists b2. split_and!; try done. by rewrite Hbuf2.
Qed.

(** One read: the complete responses in the buffer are delivered. *)
Lemma message_completes ps rs st buf qs m rest :
  length ps = length rs -> reader_wf (cl_frameReader_ st) -> buffer_wf buf ->
  pendings_ st = table (ps ++ qs) m -> ids_free (ps ++ qs) m -> Forall quiet ps -> Forall (readable st) rs ->
  stream_all (cl_frameReader_ st) (contents buf) = (replies ps rs, EndNeedMore rest) ->
  exists buf', cl_onMessage iter buf st = Ret (buf', finish ps rs st) /\
    buffer_wf buf' /\ contents buf' = rest /\ buffer_ buf' = buffer_ buf.
Proof.
  intros Hl Hr Hb Hm Hf Hq Hrs Hst.
  pose proof (consumes_stream (cl_frameReader_ st) (contents buf)) as Hcs.
  pose proof (stream_all_end (cl_frameReader_ st) (contents buf)) as He.
  rewrite Hst in Hcs, He. simpl in Hcs, He. pose proof (consumes_length _ _ _ _ Hcs) as Hn.
  assert (length (replies ps rs) = length ps) as Hlr by (unfold replies; rewrite length_zip_with; lia).
  unfold cl_onMessage. rewrite readable_contents by done. unfold len. rewrite Nat2Z.id.
  replace (S (length (contents buf))) with (length ps + S (length (contents buf) - length ps))%nat by lia.
  destruct (loop_completes ps rs st buf (S (length (contents buf) - length ps)) qs m rest) as (b & -> & Hb' & Hc' & Hbuf); try done.
  exists b. split_and!; try done. destruct (finish_fields ps rs st qs m) as (_ & _ & _ & E4); [done..|].
  pose proof (parse_refines (cl_frameReader_ st) b zeroHeader [] Hr Hb') as P. rewrite Hc', He in P.
  cbn [cl_onMessage_loop]. by rewrite E4, P.
Qed.

(** Every read: the responses arrive in any pieces. *)
Lemma reads_complete chunks : forall ps rs st buf m total,
  length ps = length rs -> reader_wf (cl_frameReader_ st) -> buffer_wf buf ->
  pendings_ st = table ps m -> ids_free ps m -> Forall quiet ps -> Forall (readable st) rs ->
  parse_bytes (cl_frameReader_ st) (contents buf) = FNeedMore ->
  feed (cl_frameReader_ st) (contents buf) chunks = (replies ps rs, EndNeedMore []) ->
  len (contents buf) + len (concat chunks) <= total -> len (buffer_ buf) <= 3 * total + 2 ^ 60 -> total < 2 ^ 60 ->
  exists buf', client_run iter (EvRead <$> chunks) (buf, st) = Ret (buf', finish ps rs st) /\ contents buf' = [].
Proof.
  induction chunks as [|c cs IH]; intros ps rs st buf m total Hl Hr Hb Hm Hf Hq Hrs Hp Hfeed Ht Hsz Hmax;
    cbn [feed fmap list_fmap client_run client_step] in *.
  { injection Hfeed as E1 E2. exists buf. destruct ps as [|[id pc] ps], rs; done. }
  cbn [concat] in Ht. destruct (append_spec buf c Hb) as (b1 & -> & Hb1 & Cb1 & Lb1); [solve_len|].
  rewrite <- Cb1 in Hfeed. pose proof (stream_all_end (cl_frameReader_ st) (contents b1)) as He.
  destruct (stream_all (cl_frameReader_ st) (contents b1)) as [fs1 [r1| |]] eqn:Est; try done.
  destruct (feed (cl_frameReader_ st) r1 cs) as [fs2 e2] eqn:Ef. injection Hfeed as E1 ->.
  set (n := length fs1). pose proof (f_equal (take n) E1) as T1. pose proof (f_equal (drop n) E1) as T2.
  unfold replies in T1, T2. rewrite take_app_length', zip_with_take in T1 by done. rewrite drop_app_length', zip_with_drop in T2 by done.
  rewrite <- (take_drop n ps) in Hm, Hf, Hq. rewrite <- (take_drop n rs) in Hrs.
  apply Forall_app in Hq as [Hq1 Hq2]. apply Forall_app in Hrs as [Hrs1 Hrs2].
  destruct (message_completes (take n ps) (take n rs) st b1 (drop n ps) m r1) as (b2 & -> & Hb2 & Cb2 & Bb2); try done.
  { rewrite !length_take. lia. }
  { rewrite Est. unfold replies. by rewrite <- T1. }
  cbn [obind]. destruct (finish_fields (take n ps) (take n rs) st (drop n ps) m) as (F1 & _ & F3 & F4); try done.
  { rewrite !length_take. lia. }
  simpl in He. rewrite <- Cb2 in Ef, He.
  assert (len (contents b2) <= len (contents b1)).
  { pose proof (consumes_stream (cl_frameReader_ st) (contents b1)) as Hcs. rewrite Est in Hcs.
    apply consumes_length in Hcs. simpl in Hcs. rewrite <- Cb2 in Hcs. solve_len. }
  destruct (IH (drop n ps) (drop n rs) (finish (take n ps) (take n rs) st) b2 m total) as (b3 & -> & C3).
  - rewrite !length_drop. lia.
  - by rewrite F4.
  - done.
  - done.
  - destruct Hf as [Hn Hff]. rewrite fmap_app in Hn. apply NoDup_app in Hn as (_ & _ & Hn). apply Forall_app in Hff as [_ Hff]. done.
  - done.
  - eapply Forall_impl; [exact Hrs2|]. unfold readable. by rewrite F3, F4.
  - by rewrite F4.
  - rewrite F4, Ef. unfold replies. by rewrite T2.
  - rewrite Cb1 in *. solve_len.
  - rewrite Bb2. unfold kCheapPrepend in *. solve_len.
  - done.
  - exists b3. split; [|done]. rewrite <- finish_app by (rewrite !length_take; lia). by rewrite !take_drop.
Qed.
End client_side.

(** ** The composition *)
Section end_to_end.
Context {Tc Ts W : Type} `{TransportLaws Tc} `{TransportLaws Ts}.

Variable iter : gmap Z PendingCall -> list (Z * PendingCall).
Hypothesis iter_perm : forall m, iter m ≡ₚ map_to_list m.

Lemma call_frame_ok fr ser id r :
  RawCodec.request_fits r -> len (RawCodec.request_bytes r) <= bodyLimit fr -> 0 <= ser < 256 -> 0 < id < 2 ^ 32 ->
  frame_ok fr (request_frame ser id r).
Proof.
  intros Hf Hl Hs Hid. unfold request_frame, frame_ok, header_wf.
  cbn [fst snd magic version type flags status serializerId requestId bodyLen]. pose proof (bodyLimit_max fr).
  pose proof (len_nonneg (RawCodec.request_bytes r)).
  unfold kMagic, kVersion, MessageType.kRequest, StatusCode.kOk, kMaxBodyLen in *. split_and!; lia.
Qed.

Lemma response_frame_ok (st : RpcClient Tc) id r :
  readable st r -> 0 < id < 2 ^ 32 -> frame_ok (cl_frameReader_ st) (response_frame id r).
Proof.
  intros (Hs & _ & Hser & Hl) Hid. unfold response_frame, frame_ok, header_wf.
  cbn [fst snd magic version type flags status serializerId requestId bodyLen].
  pose proof (bodyLimit_max (cl_frameReader_ st)). pose proof (len_nonneg (resp_payload r)).
  unfold kMagic, kVersion, MessageType.kResponse, kMaxBodyLen in *. split_and!; lia.
Qed.

(** The server's answers are what the client is waiting for. *)
Lemma replies_bytes (ps : list (Z * PendingCall)) (rs : list Response) :
  concat (zip_with (fun id r => frame_bytes (response_frame id r)) ps.*1 rs) = concat (frame_bytes <$> replies ps rs).
Proof.
  f_equal. revert rs. induction ps as [|[id pc] ps IH]; intros [|r rs]; try done. cbn. f_equal. apply IH.
Qed.

Lemma requests_bytes ser (ids : list Z) (calls : list rpc_call) :
  zip_with (fun id k => frame_bytes (request_frame ser id (c_request k))) ids calls =
  frame_bytes <$> zip_with (request_frame ser) ids (c_request <$> calls).
Proof. revert calls. induction ids as [|id ids IH]; intros [|k calls]; try done. cbn. f_equal. apply IH. Qed.

Lemma replies_ok (st : RpcClient Tc) (ps : list (Z * PendingCall)) rs m :
  Forall (readable st) rs -> ids_free ps m -> Forall (frame_ok (cl_frameReader_ st)) (replies ps rs).
Proof.
  intros Hrs [_ Hf]. revert rs Hrs. induction Hf as [|[id pc] ps [Hid _] _ IH]; intros [|r rs] Hrs; try by constructor.
  apply Forall_cons in Hrs as [Hr Hrs]. constructor; [by apply response_frame_ok|by apply IH].
Qed.

Lemma requests_ok fr ser (ps : list (Z * PendingCall)) m (calls : list Request) :
  0 <= ser < 256 -> ids_free ps m ->
  Forall (fun r => RawCodec.request_fits r /\ len (RawCodec.request_bytes r) <= bodyLimit fr) calls ->
  Forall (frame_ok fr) (zip_with (request_frame ser) ps.*1 calls).
Proof.
  intros Hs [_ Hf] Hc. revert calls Hc. induction Hf as [|[id pc] ps [Hid _] _ IH]; intros [|r calls] Hc; try by constructor.
  apply Forall_cons in Hc as [[? ?] Hc]. constructor; [by apply call_frame_ok|by apply IH].
Qed.

Lemma frames_len fr fs : Forall (frame_ok fr) fs -> len (concat (frame_bytes <$> fs)) <= Z.of_nat (length fs) * 2 ^ 25.
Proof.
  induction 1 as [|f fs (_ & _ & _ & Hl) _ IH]; cbn; [rewrite len_nil; lia|]. rewrite len_app. unfold frame_bytes at 1.
  rewrite len_app, encodeHeader_len. pose proof (bodyLimit_max fr). unfold kMaxBodyLen in *. lia.
Qed.

(** What the theorem below concludes: every call of [calls] completes with its
    response of [rs], whatever pieces the bytes arrive in. *)
Definition over_the_wire (s : RpcServer W) w w' (conn : Ts) (st : RpcClient Tc) c buf calls rs : Prop :=
  exists st1 c1 wire, client_run iter (call_event <$> calls) (buf, st) = Ret (buf, st1) /\
    connection_ st1 = Some c1 /\ extends c c1 wire /\
    forall pieces, concat pieces = wire ->
    exists conn' sbuf back, serve_reads s conn (Buffer_new kInitialSize) w pieces = Some (conn', sbuf, w') /\
      extends conn conn' back /\ contents sbuf = [] /\
      forall pieces', concat pieces' = back ->
      exists buf2 st2, client_run iter (EvRead <$> pieces') (buf, st1) = Ret (buf2, st2) /\
        completed st2 = completed st ++ zip (c_token <$> calls) rs /\ pendings_ st2 = pendings_ st /\ contents buf2 = [].

Lemma calls_end_to_end (s : RpcServer W) w w' (conn : Ts) (st : RpcClient Tc) c buf calls rs :
  reachable iter st -> spare st (length calls) -> connection_ st = Some c -> connected c = true ->
  buffer_wf buf -> contents buf = [] -> len (buffer_ buf) <= 2 ^ 60 ->
  server_wf s -> limit_ok s -> t_wf conn -> connected conn = true -> room conn (length calls) ->
  serializerId_ s = cl_serializerId_ st -> 0 <= serializerId_ s < 256 ->
  Forall (fun r => RawCodec.request_fits r /\ len (RawCodec.request_bytes r) <= bodyLimit (frameReader_ s)) (c_request <$> calls) ->
  results s w (c_request <$> calls) = Some (rs, w') -> Forall (readable st) rs ->
  over_the_wire s w w' conn st c buf calls rs.
Proof.
  intros Hre Hsp Ec Hc Hb Hcb Hbl Hs Hlim Hw Hcn Hroom Hser Hser' Hfit Hres Hread.
  assert (in_budget st) as B by (destruct Hsp; unfold in_budget; lia).
  pose proof (reachable_inv iter iter_perm st Hre B) as I.
  assert (Forall RawCodec.request_fits (c_request <$> calls)) as Hf by (eapply Forall_impl; [exact Hfit|naive_solver]).
  destruct (start_calls iter calls st c [] (pendings_ st) buf) as (ps & st1 & c1 & E1 & Hm & Hfree & Hent & Ec1 & X1 & I1 & B1 & Hlog & Pr); try done.
  { exact (proj1 (Forall_fmap _ _ _) Hf). } { by rewrite table_nil. } { split; constructor. }
  cbn [app] in *. rewrite requests_bytes in X1. rewrite <- Hser in X1.
  assert (length ps = length calls) as Hlen by by apply Forall2_length in Hent.
  assert (length rs = length calls) as Hlr by (apply results_length in Hres; by rewrite length_fmap in Hres).
  pose proof (requests_ok (frameReader_ s) (serializerId_ s) ps _ _ Hser' Hfree Hfit) as Hrq.
  assert (Forall (readable st1) rs) as Hread1.
  { eapply Forall_impl; [exact Hread|]. unfold readable. by rewrite (pr_serializer _ _ Pr), (pr_reader _ _ Pr). }
  pose proof (replies_ok st1 ps rs _ Hread1 Hfree) as Hrp.
  eexists st1, c1, _. split; [exact E1|]. split; [done|]. split; [exact X1|]. intros pieces Hpieces.
  destruct (answer_requests s (c_request <$> calls) w ps.*1 rs w' Hf) as [Ha _]; [by rewrite !length_fmap|done|].
  destruct (Buffer_new_wf kInitialSize) as [Hb0 Cb0]; [unfold kInitialSize; lia|].
  pose proof (frames_len _ _ Hrq) as Hlq. rewrite length_zip_with, !length_fmap in Hlq.
  destruct (serve_reads_answers s pieces conn w (Buffer_new kInitialSize) (zip_with (request_frame (serializerId_ s)) ps.*1 (c_request <$> calls))
    [] (zip_with (fun id r => frame_bytes (response_frame id r)) ps.*1 rs) w' (len (concat pieces))) as (conn' & sbuf & Es & Xs & _ & Cs); try done; rewrite ?Cb0; try done.
  { apply feed_frames; [done|done|]. by rewrite app_nil_r. }
  { unfold room in *. rewrite length_zip_with, !length_fmap. lia. }
  { pose proof (len_nonneg (concat pieces)). rewrite Buffer_new_size. lia. }
  { rewrite Hpieces. destruct Hsp. lia. }
  eexists conn', sbuf, _. split; [exact Es|]. split; [exact Xs|]. split; [done|]. intros pieces' Hpieces'. rewrite replies_bytes in Hpieces'.
  pose proof (frames_len _ _ Hrp) as Hlp. unfold replies in Hlp at 2. rewrite length_zip_with in Hlp.
  destruct (reads_complete iter pieces' ps rs st1 buf (pendings_ st) (len (concat pieces'))) as (buf2 & E2 & C2); try done.
  - lia.
  - by apply (inv_reader _ _ I1).
  - clear -Hent. induction Hent as [|p k ps ks Hp _ IH]; constructor; [by eexists|done].
  - by rewrite Hcb.
  - rewrite Hcb. apply feed_frames; [done|done|]. by rewrite app_nil_r.
  - by rewrite Hcb.
  - pose proof (len_nonneg (concat pieces')). lia.
  - rewrite Hpieces'. destruct Hsp. lia.
  - exists buf2, (finish ps rs st1). split; [done|].
    destruct (finish_fields ps rs st1 [] (pendings_ st)) as (F1 & F2 & _); [lia|by rewrite app_nil_r..|].
    split_and!; [|by rewrite F1, table_nil|done].
    rewrite F2, Hlog. do 2 f_equal. clear -Hent. induction Hent as [|p k ps ks Hp _ IH]; [done|]. cbn. rewrite IH. f_equal.
    unfold entry_of in Hp. by rewrite Hp.
Qed.
(** C2: Remote procedure calls, end to end.  A connected client, possibly with other
    calls in flight, starts calls; the bytes they put on its transport reach a
    server in arbitrary pieces; the bytes the server puts on its transport reach
    the client in arbitrary pieces.  Then every call completes exactly once, in
    order, with the response the registered handler computed for its request,
    the handlers having run once each and in that order on the application
    state; the other calls in flight are untouched and no bytes are left over on
    either side. *)
Theorem rpc_end_to_end (s : RpcServer W) w w' (conn : Ts) (st : RpcClient Tc) c buf calls rs :
  reachable iter st -> spare st (length calls) -> connection_ st = Some c -> connected c = true ->
  buffer_wf buf -> contents buf = [] -> len (buffer_ buf) <= 2 ^ 60 ->
  server_wf s -> limit_ok s -> t_wf conn -> connected conn = true -> room conn (length calls) ->
  serializerId_ s = cl_serializerId_ st -> 0 <= serializerId_ s < 256 ->
  Forall (fun r => RawCodec.request_fits r /\ len (RawCodec.request_bytes r) <= bodyLimit (frameReader_ s)) (c_request <$> calls) ->
  results s w (c_request <$> calls) = Some (rs, w') -> Forall (readable st) rs ->
  exists st1 c1 wire, client_run iter (call_event <$> calls) (buf, st) = Ret (buf, st1) /\
    connection_ st1 = Some c1 /\ extends c c1 wire /\
    forall pieces, concat pieces = wire ->
    exists conn' sbuf back, serve_reads s conn (Buffer_new kInitialSize) w pieces = Some (conn', sbuf, w') /\
      extends conn conn' back /\ contents sbuf = [] /\
      forall pieces', concat pieces' = back ->
      exists buf2 st2, client_run iter (EvRead <$> pieces') (buf, st1) = Ret (buf2, st2) /\
        completed st2 = completed st ++ zip (c_token <$> calls) rs /\ pendings_ st2 = pendings_ st /\ contents buf2 = [].
Proof. apply calls_end_to_end. Qed.
End end_to_end.

(** ** A concrete run: an echo server, two calls *)
Module E2ESample.
Definition connect_events : list (event (T := Sink.t)) := [EvConnect 7; EvConnection ClientSample.transport].

Definition client : RpcClient Sink.t :=
  match client_run map_to_list connect_events client_init with Ret (_, st) => st | Stop _ st => st end.

Lemma client_reachable : reachable map_to_list client.
Proof.
  destruct (client_run map_to_list connect_events client_init) as [[buf st]|] eqn:E.
  - exists connect_events, buf. split; [|unfold client; by rewrite E]. unfold connect_events. cbn [events_ok].
    split; [right; done|]. ClientSample.run_event. split; [by split; vm_compute|]. ClientSample.run_event. exact I.
  - vm_compute in E. discriminate E.
Qed.

Definition say (p : bytes) : Request := mkRequest (str "Echo") (str "Say") p.
Definition calls : list rpc_call := [mkCall (say [x2a]) 1 true; mkCall (say [x2b]) 2 false].
End E2ESample.

Lemma rpc_end_to_end_witness :
  exists st1 c1 wire, client_run map_to_list (call_event <$> E2ESample.calls) (Buffer_new kInitialSize, E2ESample.client) =
      Ret (Buffer_new kInitialSize, st1) /\
    connection_ st1 = Some c1 /\ extends ClientSample.transport c1 wire /\
    forall pieces, concat pieces = wire ->
    exists conn' sbuf back, serve_reads RpcServer.Sample.server RpcServer.Sample.conn (Buffer_new kInitialSize) 0 pieces = Some (conn', sbuf, 2) /\
      extends RpcServer.Sample.conn conn' back /\ contents sbuf = [] /\
      forall pieces', concat pieces' = back ->
      exists buf2 st2, client_run map_to_list (EvRead <$> pieces') (Buffer_new kInitialSize, st1) = Ret (buf2, st2) /\
        completed st2 = completed E2ESample.client ++ zip [1; 2] [mkResponse 0 [x2a] 0; mkResponse 0 [x2b] 0] /\
        pendings_ st2 = pendings_ E2ESample.client /\ contents buf2 = [].
Proof.
  apply (rpc_end_to_end map_to_list (fun _ => reflexivity _) RpcServer.Sample.server 0 2 RpcServer.Sample.conn E2ESample.client
    ClientSample.transport (Buffer_new kInitialSize) E2ESample.calls [mkResponse 0 [x2a] 0; mkResponse 0 [x2b] 0]);
    [exact E2ESample.client_reachable|split; by vm_compute|by vm_compute|done|by vm_compute|by vm_compute|by vm_compute
    |by vm_compute|by left|done|done|by vm_compute|by vm_compute|by vm_compute| |by vm_compute|].
  - repeat constructor; by vm_compute.
  - repeat constructor; by vm_compute.
Defined.
