(* ===== verification/RpcFutures.v ===== *)
(** * RpcFutures: calls from other threads, and the end of a client

    The public calls of [rpc/src/rpc_client.cpp]: [AsyncCall] posts to the loop,
    [CallAsync] wraps a promise around it, [Call] waits for that promise, and the
    destructor fails what is left.  A promise is named by a number from 0 on, which is the
    token of the completion that sets it; the callbacks of [AsyncCall] have
    negative tokens. *)
From S2P Require Import Prelude Protocol Buffer FrameReader Codec Transport RpcClient.
Local Open Scope client_scope.

Section calls.
Context {T : Type} `{TransportOps T}.
Variable iter : gmap Z PendingCall -> list (Z * PendingCall).

(** The loop thread's state, the functors posted to the loop, and the number of
    promises made. *)
Record CallSite := mkSite {
  site_ : Buffer * RpcClient T;
  posted_ : list (Request * Completion * bool);
  promises_ : Z
}.

Definition site_new : CallSite := mkSite client_init [] 0.

(** The functor of [AsyncCall] on the loop thread. *)
Definition run_call (call : Request * Completion * bool) (s : CallSite) : outcome (T := T) CallSite :=
  let '(request, complete, deadline) := call in
  p <- client_step iter (EvCall request complete deadline) (site_ s);;
  Ret (mkSite p (posted_ s) (promises_ s)).

(** [AsyncCall]: an empty [std::function] is [None]; of [timeoutSeconds] only the
    sign matters, here in microseconds. *)
Definition AsyncCall (inLoop : bool) (request : Request) (callback : option Completion) (timeout : Z) (s : CallSite)
  : outcome (T := T) CallSite :=
  match callback with
  | None => Stop Aborted (site_ s).2
  | Some callback =>
      let call := (request, callback, 0 <? timeout) in
      if inLoop then run_call call s else Ret (mkSite (site_ s) (posted_ s ++ [call]) (promises_ s))
  end.

(** [CallAsync]: the result names the future. *)
Definition CallAsync (inLoop : bool) (request : Request) (timeout : Z) (s : CallSite) : outcome (T := T) (Z * CallSite) :=
  let promise := promises_ s in
  s <- AsyncCall inLoop request (Some (mkCompletion promise (fun _ => []))) timeout
         (mkSite (site_ s) (posted_ s) (promise + 1));;
  Ret (promise, s).

(** [Call] up to the wait for its future. *)
Definition Call (inLoop : bool) (request : Request) (timeout : Z) (s : CallSite) : outcome (T := T) (Z * CallSite) :=
  if inLoop then Stop Aborted (site_ s).2 else CallAsync false request timeout s.

(** The values [set_value] was called with; a second call would throw. *)
Definition set_values (promise : Z) (st : RpcClient T) : list Response := (filter (fun x => x.1 = promise) (completed st)).*2.

(** [future.get()]: [None] while it blocks. *)
Definition get (promise : Z) (s : CallSite) : option Response := head (set_values promise (site_ s).2).

(** [~RpcClient]; [c'] is the transport after [client_.reset()] took a connected
    one down, which runs the connection callback. *)
Definition cl_destroy (c' : T) (st : RpcClient T) : outcome (T := T) (RpcClient T) :=
  st <- failAllPending iter st;;
  match connection_ st with
  | Some c => if connected c then cl_onConnection iter c' st else Ret st
  | None => Ret st
  end.

(** What can happen: calls from any thread, the loop taking the next posted
    functor, and the other events of the loop. *)
Inductive site_event :=
| SAsyncCall (inLoop : bool) (request : Request) (callback : Completion) (timeout : Z)
| SCallAsync (inLoop : bool) (request : Request) (timeout : Z)
| SCall (request : Request) (timeout : Z)
| SRun
| SLoop (e : event (T := T)).

Definition site_step (e : site_event) (s : CallSite) : outcome (T := T) CallSite :=
  match e with
  | SAsyncCall inLoop request callback timeout => AsyncCall inLoop request (Some callback) timeout s
  | SCallAsync inLoop request timeout => r <- CallAsync inLoop request timeout s;; Ret r.2
  | SCall request timeout => r <- Call false request timeout s;; Ret r.2
  | SRun =>
      match posted_ s with
      | [] => Ret s
      | call :: rest => run_call call (mkSite (site_ s) rest (promises_ s))
      end
  | SLoop e => p <- client_step iter e (site_ s);; Ret (mkSite p (posted_ s) (promises_ s))
  end.

Fixpoint site_run (es : list site_event) (s : CallSite) : outcome (T := T) CallSite :=
  match es with
  | [] => Ret s
  | e :: es => s <- site_step e s;; site_run es s
  end.
End calls.
#[global] Arguments CallSite : clear implicits.

(** The calls a completion makes carry negative tokens. *)
Inductive foreign : Completion -> Prop :=
| foreign_intro t f : (forall r, Forall foreign_act (f r)) -> foreign (mkCompletion t f)
with foreign_act : Action -> Prop :=
| foreign_call req c d : token c < 0 -> foreign c -> foreign_act (ACall req c d)
| foreign_disconnect : foreign_act ADisconnect.

Section once.
Context {T : Type} `{TransportLaws T}.
Implicit Types (st : RpcClient T) (s : CallSite T).

Definition pend_ok st : Prop := map_Forall (fun _ pc => foreign (pc_complete pc)) (pendings_ st).

(** From [st] to [st'] only foreign calls were started. *)
Definition grows st st' : Prop :=
  pend_ok st -> pend_ok st' /\ exists l, started st' = started st ++ l /\ Forall (fun t => t < 0) l.

Definition grows_to {A} (π : A -> RpcClient T) st (m : outcome (T := T) A) : Prop :=
  match m with Ret a => grows st (π a) | Stop _ st' => grows st st' end.

Lemma grows_refl st st' : started st' = started st -> pendings_ st' = pendings_ st -> grows st st'.
Proof. unfold grows, pend_ok. intros -> ->. intros ?. split; [done|]. exists []. by rewrite app_nil_r. Qed.

Lemma grows_trans st1 st2 st3 : grows st1 st2 -> grows st2 st3 -> grows st1 st3.
Proof.
  intros H1 H2 P. destruct (H1 P) as (P2 & l1 & E1 & F1). destruct (H2 P2) as (P3 & l2 & E2 & F2).
  split; [done|]. exists (l1 ++ l2). rewrite E2, E1, app_assoc. split; [done|]. by apply Forall_app.
Qed.

Lemma grows_bind {A B} (π : A -> RpcClient T) (ρ : B -> RpcClient T) st m f :
  grows_to π st m -> (forall a, grows_to ρ (π a) (f a)) -> grows_to ρ st (obind m f).
Proof.
  destruct m as [a|]; cbn; [|done]. intros Hm Hf. specialize (Hf a). unfold grows_to in *.
  destruct (f a); by eapply grows_trans.
Qed.

Lemma grows_from {A} (π : A -> RpcClient T) st st' m : grows st st' -> grows_to π st' m -> grows_to π st m.
Proof. unfold grows_to. destruct m; intros; by eapply grows_trans. Qed.

Lemma grows_delete st id : grows st (set_pendings (delete id (pendings_ st)) st).
Proof.
  intros P. split; [by apply map_Forall_delete|]. exists []. by rewrite app_nil_r.
Qed.

Lemma startCall_grows run req c d st :
  foreign c -> (forall r st', grows_to id st' (run r st')) ->
  grows_to id (log_started (token c) st) (startCall_with run req c d st).
Proof.
  intros Hc Hrun. unfold startCall_with. set (st1 := log_started _ _).
  destruct (connection_ st1) as [conn|]; [|apply Hrun]. destruct (connected_ st1); [|apply Hrun].
  destruct (RawCodec.encodeRequest req (Some [])) as [[] [body|]]; try apply Hrun.
  apply (grows_bind snd).
  - unfold grows_to, allocateRequestId. pose proof (allocate_shape (S (S (size (pendings_ st1) + size (timedOutIdSet_ st1)))) st1) as Hsh.
    destruct (allocate_loop _ st1) as [[? ?]|]; destruct Hsh as [n ->]; by apply grows_refl.
  - intros [rid st2]. cbn [snd].
    assert (forall t st3, grows st3 (set_pendings (<[rid := mkPending rid c t]> (pendings_ st3)) st3)) as Hins.
    { intros t st3 P. split; [by apply map_Forall_insert_2|]. exists []. by rewrite app_nil_r. }
    destruct d; cbn [runAfter];
      [eapply (grows_from _ _ (set_timers (<[nextTimer_ st2 := rid]> (timers_ st2)) (nextTimer_ st2 + 1) st2)); [by apply grows_refl|]|];
      (eapply grows_from; [apply Hins|]);
      destruct (send conn _); cbn; by apply grows_refl.
Qed.

Lemma complete_grows c : foreign c -> forall r st, grows_to id st (complete c r st).
Proof.
  induction c as [t f IH|req c d IH|] using completion_ind' with
    (Q := fun a => foreign_act a -> forall st, grows_to id st
       match a with ACall req c d => startCallInLoop req c d st | ADisconnect => disconnect st end).
  - intros Hf r st. inversion Hf as [? ? Hacts]; subst. rewrite complete_unfold. cbn [react token].
    apply (grows_from _ _ (log_completed t r st)); [by apply grows_refl|]. generalize (log_completed t r st).
    specialize (Hacts r). specialize (IH r). induction IH as [|a acts Ha _ IHa]; intros st1; cbn [perform]; [by apply grows_refl|].
    apply Forall_cons in Hacts as [Hx Hacts]. eapply (grows_bind id); [by apply Ha|]. intros st2. by apply IHa.
  - intros Hf st. inversion Hf; subst. eapply (grows_from _ _ (log_started (token c) st)); [|by apply startCall_grows; auto].
    intros P. split; [done|]. by exists [token c]; repeat constructor.
  - intros _ st. unfold disconnect. destruct (connection_ st) as [c|]; [|by apply grows_refl].
    destruct (shutdown c); by apply grows_refl.
Qed.

Lemma cancel_grows timer st : grows st (cancelTimer timer st).
Proof. destruct timer; by apply grows_refl. Qed.

Lemma entries_grow es : forall st, Forall (fun e => foreign (pc_complete e.2)) es -> grows_to id st (fail_entries es st).
Proof.
  induction es as [|[rid pc] es IH]; intros st Hes; cbn [fail_entries]; [by apply grows_refl|].
  apply Forall_cons in Hes as [He Hes]. eapply grows_from; [apply cancel_grows|].
  eapply (grows_bind id); [by apply complete_grows|]. intros st2. by apply IH.
Qed.

Lemma with_pend {A} (π : A -> RpcClient T) st m : (pend_ok st -> grows_to π st m) -> grows_to π st m.
Proof. unfold grows_to, grows. destruct m; intros Hm P; by apply Hm. Qed.

Variable iter : gmap Z PendingCall -> list (Z * PendingCall).
Hypothesis iter_perm : forall m, iter m ≡ₚ map_to_list m.

Lemma failAll_grows st : grows_to id st (failAllPending iter st).
Proof.
  unfold failAllPending. apply with_pend. intros P. eapply (grows_from _ _ (set_pendings ∅ st)).
  - intros _. split; [apply map_Forall_empty|]. exists []. by rewrite app_nil_r.
  - apply entries_grow. rewrite iter_perm. apply Forall_forall. intros [i pc] Hin%elem_of_map_to_list. cbn. by eapply P.
Qed.

Lemma failConnection_grows st : grows_to id st (failConnection iter st).
Proof.
  unfold failConnection. eapply (grows_bind id); [apply failAll_grows|]. intros st2. unfold id.
  destruct (connection_ st2) as [c|]; [|by apply grows_refl]. destruct (forceClose c); by apply grows_refl.
Qed.

Lemma onFrame_grows h body st : grows_to fst st (cl_onFrame iter h body st).
Proof.
  unfold cl_onFrame. assert (grows_to fst st (st <- failConnection iter st;; Ret (st, false))) as F.
  { eapply (grows_bind id); [apply failConnection_grows|]. intros st2. by apply grows_refl. }
  destruct (_ || _); [done|]. destruct (negb _); [done|].
  destruct (RawCodec.decodeResponse body _) as [[] [resp|]]; try done.
  destruct (pendings_ st !! requestId h) as [pc|] eqn:Hp.
  - apply with_pend. intros P. eapply grows_from; [apply (grows_delete st (requestId h))|].
    eapply grows_from; [apply (cancel_grows (pc_timer pc))|].
    eapply (grows_bind id); [apply complete_grows; by eapply P|]. intros st2. by apply grows_refl.
  - destruct (wasTimedOut _ st); [by apply grows_refl|done].
Qed.

Lemma loop_grows fuel : forall buf st, grows_to snd st (cl_onMessage_loop iter fuel buf st).
Proof.
  induction fuel as [|fuel IH]; intros buf st; cbn [cl_onMessage_loop]; [by apply grows_refl|].
  destruct (parse _ _ _ _) as [[[] [[[buf'|] [h|]] [body|]]]|]; try (by apply grows_refl).
  1: { eapply (grows_bind fst); [apply onFrame_grows|]. intros [st2 cont]. cbn [fst].
       destruct cont; [apply IH|by apply grows_refl]. }
  all: eapply (grows_bind id); [apply failConnection_grows|]; intros st2; by apply grows_refl.
Qed.

Lemma timer_grows t st : grows_to id st (fireTimer t st).
Proof.
  unfold fireTimer. destruct (timers_ st !! t) as [rid|]; [|by apply grows_refl].
  eapply grows_from; [by apply (grows_refl st (set_timers (delete t (timers_ st)) (nextTimer_ st) st))|].
  generalize (set_timers (delete t (timers_ st)) (nextTimer_ st) st). clear st. intros st. unfold onTimeout.
  destruct (pendings_ st !! rid) as [pc|] eqn:Hp; [|by apply grows_refl]. apply with_pend. intros P.
  eapply grows_from; [apply (grows_delete st rid)|]. eapply (grows_bind id); [|intros st2; apply complete_grows; by eapply P].
  unfold rememberTimedOut. repeat case_match; by apply grows_refl.
Qed.

Definition is_call (e : event (T := T)) : bool := match e with EvCall _ _ _ => true | _ => false end.

Lemma step_grows e p : is_call e = false -> grows_to snd p.2 (client_step iter e p).
Proof.
  destruct p as [buf st], e as [req c d| |w|t| |chunk|t|t|id']; cbn [client_step is_call snd]; intros He; try done.
  - eapply (grows_bind id); [|intros st2; by apply grows_refl]. unfold disconnect.
    destruct (connection_ st) as [c|]; [|by apply grows_refl]. destruct (shutdown c); by apply grows_refl.
  - unfold connect. repeat case_match; simplify_eq; by apply grows_refl.
  - eapply (grows_bind id); [|intros st2; by apply grows_refl]. unfold cl_onConnection.
    eapply grows_from; [by apply (grows_refl st (set_pendingConnect None st))|]. eapply (grows_bind id).
    + destruct (connected t); [by apply grows_refl|].
      eapply grows_from; [|apply failAll_grows]. by apply grows_refl.
    + intros st2. unfold id, resolve. destruct (pendingConnect_ st); by apply grows_refl.
  - unfold onConnectError, resolve. destruct (pendingConnect_ st); by apply grows_refl.
  - destruct (append buf chunk); [apply loop_grows|by apply grows_refl].
  - eapply (grows_bind id); [apply timer_grows|]. intros st2. by apply grows_refl.
  - by apply grows_refl.
  - by apply grows_refl.
Qed.

Lemma call_grows req c d p : foreign c ->
  grows_to snd (log_started (token c) p.2) (client_step iter (EvCall req c d) p).
Proof.
  intros Hc. destruct p as [buf st]. cbn [client_step snd].
  eapply (grows_bind id); [|intros st2; by apply grows_refl]. apply startCall_grows; [done|]. intros r st'. by apply complete_grows.
Qed.

(** The contracts of the calls: real strings, callbacks that are not promises. *)
Definition call_ok (call : Request * Completion * bool) : Prop :=
  len (payload call.1.1) < 2 ^ 63 /\ completion_ok call.1.2 /\ foreign call.1.2.

Definition site_event_ok (e : site_event (T := T)) s : Prop :=
  match e with
  | SAsyncCall _ request callback timeout => call_ok (request, callback, 0 <? timeout) /\ token callback < 0
  | SCallAsync _ request _ | SCall request _ => len (payload request) < 2 ^ 63
  | SRun => True
  | SLoop e => is_call e = false /\ event_ok e (site_ s)
  end.

Fixpoint site_events_ok (es : list (site_event (T := T))) s : Prop :=
  match es with
  | [] => True
  | e :: es => site_event_ok e s /\ match site_step iter e s with Ret s' => site_events_ok es s' | Stop _ _ => True end
  end.

Definition call_token (call : Request * Completion * bool) : Z := token call.1.2.

(** The promises made are the tokens of the calls that were posted or started. *)
Definition promised s : list Z := filter (fun t => 0 <= t) (started (site_ s).2 ++ (call_token <$> posted_ s)).

Record site_inv s : Prop := {
  sv_promised : promised s ≡ₚ seqZ 0 (promises_ s);
  sv_count : 0 <= promises_ s;
  sv_pend : pend_ok (site_ s).2;
  sv_posted : Forall call_ok (posted_ s)
}.

Lemma filter_neg (l : list Z) : Forall (fun t => t < 0) l -> filter (fun t => 0 <= t) l = [].
Proof. induction 1 as [|t l Ht _ IH]; [done|]. rewrite filter_cons_False; [done|lia]. Qed.

Lemma promised_grows s p' :
  grows (site_ s).2 p'.2 -> site_inv s -> site_inv (mkSite p' (posted_ s) (promises_ s)).
Proof.
  intros G []. destruct (G sv_pend0) as (P & l & E & Hl). split; try done.
  unfold promised in *. cbn. rewrite E, !filter_app, (filter_neg l), app_nil_r by done. by rewrite filter_app in sv_promised0.
Qed.

(** Starting a call whose token is [0 <= t]: from the books of the posted calls
    to those of the started ones. *)
Lemma promised_call s call p' :
  call_ok call -> grows (log_started (call_token call) (site_ s).2) p'.2 -> pend_ok (site_ s).2 ->
  promised (mkSite p' (posted_ s) (promises_ s)) ≡ₚ
    filter (fun t => 0 <= t) [call_token call] ++ promised s /\ pend_ok p'.2.
Proof.
  intros Hc G P. destruct (G P) as (P' & l & E & Hl). split; [|done].
  unfold promised. cbn [site_ posted_ promises_]. rewrite E. cbn [started log_started].
  rewrite !filter_app, (filter_neg l), app_nil_r by done. solve_Permutation.
Qed.

Lemma run_call_inv call s :
  call_ok call -> site_inv (mkSite (site_ s) (call :: posted_ s) (promises_ s)) ->
  match run_call iter call s with Ret s' => site_inv s' | Stop _ _ => True end.
Proof.
  intros Hc []. destruct call as [[req c] d]. unfold run_call.
  pose proof (call_grows req c d (site_ s) (proj2 (proj2 Hc))) as G.
  destruct (client_step iter _ (site_ s)) as [p'|]; cbn [obind]; [|done]. cbn in G.
  destruct (promised_call s (req, c, d) p' Hc G sv_pend0) as [E P]. split; cbn; try done.
  - rewrite E. rewrite <- sv_promised0. unfold promised. cbn [site_ posted_]. rewrite fmap_cons, !filter_app.
    rewrite (filter_app _ [_] (call_token <$> posted_ s) : filter _ (call_token (req, c, d) :: _) = _). solve_Permutation.
  - by apply Forall_cons in sv_posted0 as [_ ?].
Qed.

Definition st_of s : RpcClient T := (site_ s).2.

Lemma run_call_post call s :
  call_ok call -> (in_budget (st_of s) -> run_inv (site_ s)) ->
  post st_of (st_of s) (run_call iter call s) (fun s' => run_inv (site_ s')).
Proof.
  destruct call as [[req c] d]. intros (Hp & Hc & _) I. unfold run_call. unfold st_of at 2.
  eapply (post_bind snd); [apply client_step_post; [exact iter_perm|done|]|].
  - destruct (site_ s). by split.
  - intros p' _ I'. by apply post_ret.
Qed.

Lemma promise_call_ok request promise timeout :
  len (payload request) < 2 ^ 63 -> call_ok (request, mkCompletion promise (fun _ => []), timeout).
Proof. intros Hp. split; [done|]. split; constructor; intros r; constructor. Qed.

(** A posted or started promise is the next one. *)
Lemma promise_inv s request timeout :
  len (payload request) < 2 ^ 63 -> site_inv s ->
  site_inv (mkSite (site_ s) ((request, mkCompletion (promises_ s) (fun _ => []), timeout) :: posted_ s) (promises_ s + 1)) /\
  site_inv (mkSite (site_ s) (posted_ s ++ [(request, mkCompletion (promises_ s) (fun _ => []), timeout)]) (promises_ s + 1)).
Proof.
  intros Hp []. set (call := (request, _, timeout)). assert (call_ok call) as Hc by by apply promise_call_ok.
  assert (seqZ 0 (promises_ s + 1) = seqZ 0 (promises_ s) ++ [promises_ s]) as Eq.
  { by rewrite seqZ_app by lia. }
  assert (promised (mkSite (site_ s) (call :: posted_ s) (promises_ s + 1)) ≡ₚ seqZ 0 (promises_ s + 1)) as E1.
  { rewrite Eq, <- sv_promised0. unfold promised. cbn [site_ posted_]. rewrite fmap_cons, !filter_app.
    rewrite (filter_app _ [_] (call_token <$> posted_ s) : filter _ (call_token call :: _) = _).
    change (call_token call) with (promises_ s). rewrite (filter_cons_True _ (promises_ s) []) by done. solve_Permutation. }
  split; split; cbn [promises_ site_ posted_]; try done; try lia; [by constructor| |by apply Forall_app; split; [|apply Forall_singleton]].
  rewrite <- E1. unfold promised. cbn [site_ posted_]. apply filter_Permutation. rewrite fmap_app, fmap_cons. solve_Permutation.
Qed.

Lemma async_step inLoop call s s0 :
  call_ok call -> site_ s = site_ s0 -> posted_ s = posted_ s0 -> (in_budget (st_of s0) -> run_inv (site_ s0)) ->
  site_inv (mkSite (site_ s) (call :: posted_ s) (promises_ s)) -> site_inv (mkSite (site_ s) (posted_ s ++ [call]) (promises_ s)) ->
  let m := if inLoop : bool then run_call iter call s else Ret (mkSite (site_ s) (posted_ s ++ [call]) (promises_ s)) in
  post st_of (st_of s0) m (fun s' => run_inv (site_ s')) /\ match m with Ret s' => site_inv s' | Stop _ _ => True end.
Proof.
  intros Hc Es Ep I J1 J2. assert (st_of s = st_of s0) as Est by (unfold st_of; by rewrite Es).
  rewrite <- Es, <- Est in *. destruct inLoop; cbn zeta.
  - split; [by apply run_call_post|by apply run_call_inv].
  - split; [|done]. by apply post_ret.
Qed.

Lemma foreign_inv s call :
  call_ok call -> call_token call < 0 -> site_inv s ->
  site_inv (mkSite (site_ s) (call :: posted_ s) (promises_ s)) /\ site_inv (mkSite (site_ s) (posted_ s ++ [call]) (promises_ s)).
Proof.
  intros Hc Ht []. split; split; cbn [promises_ site_ posted_]; try done; [|by constructor| |by apply Forall_app; split; [|apply Forall_singleton]];
    rewrite <- sv_promised0; unfold promised; cbn [site_ posted_]; rewrite !filter_app, ?fmap_cons, ?fmap_app, ?filter_app.
  - by rewrite filter_cons_False by lia.
  - cbn [fmap list_fmap]. rewrite (filter_cons_False _ (call_token call) []) by lia. by rewrite filter_nil, app_nil_r.
Qed.

Lemma site_step_post e s :
  (in_budget (st_of s) -> run_inv (site_ s)) -> site_inv s -> site_event_ok e s ->
  post st_of (st_of s) (site_step iter e s) (fun s' => run_inv (site_ s')) /\
  match site_step iter e s with Ret s' => site_inv s' | Stop _ _ => True end.
Proof.
  intros I J He. destruct e as [inLoop req cb timeout|inLoop req timeout|req timeout| |e]; cbn [site_step site_event_ok] in *.
  - destruct He as [Hc Ht]. destruct (foreign_inv s (req, cb, 0 <? timeout) Hc Ht J). by apply async_step.
  - destruct (promise_inv s req (0 <? timeout) He J) as [J1 J2]. unfold CallAsync, AsyncCall.
    pose proof (async_step inLoop (req, mkCompletion (promises_ s) (fun _ => []), 0 <? timeout)
      (mkSite (site_ s) (posted_ s) (promises_ s + 1)) s (promise_call_ok _ _ _ He) eq_refl eq_refl I J1 J2) as K.
    cbn zeta in K. cbn [site_ posted_ promises_] in K |- *. destruct (if inLoop then _ else _) as [s'|]; done.
  - destruct (promise_inv s req (0 <? timeout) He J) as [_ J2]. split; [by apply post_ret|done].
  - destruct (posted_ s) as [|call rest] eqn:Ep; [split; [by apply post_ret|done]|].
    assert (call_ok call) as Hc. { pose proof (sv_posted s J) as F. rewrite Ep in F. by apply Forall_cons in F as [? _]. }
    split; [by apply (run_call_post call (mkSite (site_ s) rest (promises_ s)))|].
    apply run_call_inv; [done|]. cbn [site_ posted_ promises_]. rewrite <- Ep. by destruct s.
  - destruct He as [Hcall He]. pose proof (step_grows e (site_ s) Hcall) as G.
    pose proof (client_step_post iter iter_perm e (site_ s) I He) as P.
    destruct (client_step iter e (site_ s)) as [p'|]; cbn [obind]; [|done]. split; [done|]. by apply promised_grows.
Qed.

Lemma site_run_post es : forall s,
  (in_budget (st_of s) -> run_inv (site_ s)) -> site_inv s -> site_events_ok es s ->
  post st_of (st_of s) (site_run iter es s) (fun s' => run_inv (site_ s')) /\
  match site_run iter es s with Ret s' => site_inv s' | Stop _ _ => True end.
Proof.
  induction es as [|e es IH]; intros s I J He; cbn [site_run]; [split; [by apply post_ret|done]|].
  destruct He as [He Hes]. destruct (site_step_post e s I J He) as [P J'].
  destruct (site_step iter e s) as [s1|]; cbn [obind]; [|done]. destruct P as [Hp I'].
  destruct (IH s1 I' J' Hes) as [P2 J2]. split; [|done].
  destruct (site_run iter es s1); destruct P2; (split; [by etrans|done]).
Qed.

Lemma site_new_inv : site_inv site_new.
Proof. by split. Qed.

(** Whose completion sets promise [p]. *)
Lemma promise_place s p :
  site_inv s -> client_inv (st_of s) [] -> 0 <= p < promises_ s ->
  (exists r, set_values p (st_of s) = [r]) \/
  (set_values p (st_of s) = [] /\
   ((exists id pc, pendings_ (st_of s) !! id = Some pc /\ token (pc_complete pc) = p) \/
    (exists call, call ∈ posted_ s /\ call_token call = p))).
Proof.
  intros [J _ _ _] C Hp. pose proof (inv_ledger _ _ C) as L. unfold entries in L. rewrite app_nil_r in L.
  unfold promised in J. fold (st_of s) in J. rewrite L, <- app_assoc in J.
  set (pend := (fun pc => token (pc_complete pc)) <$> _) in J.
  assert (NoDup (filter (fun t => 0 <= t) ((completed (st_of s)).*1 ++ pend ++ (call_token <$> posted_ s)))) as Nd.
  { rewrite J. apply NoDup_seqZ. }
  assert (p ∈ (completed (st_of s)).*1 ++ pend ++ (call_token <$> posted_ s)) as Hin.
  { eapply list_elem_of_filter. rewrite J. apply elem_of_seqZ. lia. }
  rewrite filter_app in Nd. apply NoDup_app in Nd as (Nd1 & Hdis & _).
  assert (NoDup (filter (fun x => x.1 = p) (completed (st_of s))).*1) as Nd2.
  { clear -Nd1 Hp. induction (completed (st_of s)) as [|[t r] l IH]; [constructor|]. rewrite fmap_cons in Nd1. cbn [fst] in Nd1.
    destruct (decide (t = p)) as [->|]; [|rewrite filter_cons_False by done; apply IH; destruct (decide (0 <= t));
      [rewrite filter_cons_True in Nd1 by done; by apply NoDup_cons in Nd1 as [_ ?]|by rewrite filter_cons_False in Nd1]].
    rewrite filter_cons_True by done. rewrite filter_cons_True in Nd1 by lia. apply NoDup_cons in Nd1 as [Hn Nd1]. cbn.
    apply NoDup_cons. split; [|by apply IH]. intros (x & -> & Hx)%list_elem_of_fmap. apply list_elem_of_filter in Hx as [Ex Hx].
    apply Hn, list_elem_of_filter. split; [lia|]. apply list_elem_of_fmap. by exists x. }
  assert (Forall (fun x => x.1 = p) (filter (fun x => x.1 = p) (completed (st_of s)))) as Hall.
  { apply Forall_forall. intros x [Hx _]%list_elem_of_filter. done. }
  unfold set_values. destruct (filter (fun x => x.1 = p) (completed (st_of s))) as [|[t r] [|[t' r'] l]] eqn:Ef.
  - right. split; [done|]. apply elem_of_app in Hin as [Hin|Hin].
    + apply list_elem_of_fmap in Hin as (x & -> & Hx). exfalso. apply (not_elem_of_nil x). rewrite <- Ef.
      by apply list_elem_of_filter.
    + apply elem_of_app in Hin as [Hin|Hin]; [left|right].
      * subst pend. apply list_elem_of_fmap in Hin as (pc & -> & Hx). apply list_elem_of_fmap in Hx as ([i pc'] & -> & Hx).
        apply elem_of_map_to_list in Hx. by exists i, pc'.
      * apply list_elem_of_fmap in Hin as (call & -> & Hx). by exists call.
  - left. by exists r.
  - exfalso. apply Forall_cons in Hall as [E1 Hall]. apply Forall_cons in Hall as [E2 _]. cbn in *. subst.
    apply NoDup_cons in Nd2 as [Hn _]. apply Hn. left.
Qed.

(** C19: A future is resolved exactly once.  With calls from any number of threads,
    on the loop thread and off it, in every interleaving with the loop: no promise
    is set twice ([set_value] would throw), so [get] returns the one response; and
    a promise that is not set yet belongs to a call that waits in the loop's queue
    or in the table of pending calls.  No assertion fails; the loop can only spin
    when all request ids are taken. *)
Theorem futures_once es :
  site_events_ok es site_new ->
  match site_run iter es site_new with
  | Ret s => in_budget (st_of s) -> forall p, 0 <= p < promises_ s ->
      (exists r, set_values p (st_of s) = [r] /\ get p s = Some r) \/
      (get p s = None /\
       ((exists id pc, pendings_ (st_of s) !! id = Some pc /\ token (pc_complete pc) = p) \/
        (exists call, call ∈ posted_ s /\ call_token call = p)))
  | Stop _ st => in_budget st -> crowded st
  end.
Proof.
  intros He. destruct (site_run_post es site_new (fun _ => run_inv_init) site_new_inv He) as [P J].
  destruct (site_run iter es site_new) as [s|]; destruct P as [_ P]; [|done]. intros B p Hp.
  destruct (P B) as [C _]. destruct (promise_place s p J C Hp) as [[r E]|[E Hw]].
  - left. exists r. split; [done|]. unfold get. fold (st_of s). by rewrite E.
  - right. split; [|done]. unfold get. fold (st_of s). by rewrite E.
Qed.

(** C21: The destructor leaves no caller waiting: whatever the callbacks of the failed
    calls start in their turn, if the client then has no connection or one that is
    still connected (and not one that is being shut down, on which calls would stay
    pending), after it every call ever started has completed exactly once, none is
    pending and no timer is armed. *)
Theorem destructor_resolves_all st c' :
  reachable iter st -> transport_ok st c' -> connected c' = false ->
  (forall st1 c, failAllPending iter st = Ret st1 -> connection_ st1 = Some c -> connected c = true) ->
  match cl_destroy iter c' st with
  | Ret st' => in_budget st' -> started st' ≡ₚ (completed st').*1 /\ pendings_ st' = ∅ /\ timers_ st' = ∅
  | Stop _ st' => in_budget st' -> crowded st'
  end.
Proof.
  intros Hr Ht Hc Hup. unfold cl_destroy.
  pose proof (failAllPending_post iter iter_perm st (reachable_inv iter iter_perm st Hr)) as P.
  destruct (failAllPending iter st) as [st1|] eqn:E; cbn [obind]; [|by destruct P]. destruct P as [Hp1 P]. unfold id in *.
  assert (forall st', client_inv st' [] -> pendings_ st' = ∅ ->
    started st' ≡ₚ (completed st').*1 /\ pendings_ st' = ∅ /\ timers_ st' = ∅) as Hdone.
  { intros st' I Hn. split_and!; [|done|].
    - pose proof (inv_ledger _ _ I) as L. unfold entries in L. rewrite Hn, map_to_list_empty in L. simpl in L. by rewrite app_nil_r in L.
    - pose proof (inv_timers _ _ I) as L. unfold entries in L. rewrite Hn, map_to_list_empty in L. simpl in L.
      by apply map_to_list_empty_iff, Permutation_nil_r. }
  destruct (connection_ st1) as [c|] eqn:Ec.
  - rewrite (Hup st1 c) by done.
    pose proof (cl_onConnection_post iter iter_perm st1 c') as Q. destruct (cl_onConnection iter c' st1) as [st2|].
    + destruct Q as [Hp2 Q].
      * intros B. destruct (P B). split; [done|]. destruct Ht as [Hw Hl]. split; [done|]. apply prefix_length in Hp1. lia.
      * unfold id in *. intros B. destruct (Q B) as (I & _ & _ & Hn & _). auto.
    + destruct Q as [_ Q]; [|done]. intros B. destruct (P B). split; [done|]. destruct Ht as [Hw Hl]. split; [done|]. apply prefix_length in Hp1. lia.
  - intros B. destruct (P B) as [I Pr]. apply Hdone; [done|].
    pose proof (inv_conn _ _ I) as Hcn. rewrite Ec, bool_decide_false in Hcn by by intros [? ?].
    rewrite (pr_idle _ _ Pr); [done|]. by rewrite <- (pr_connected _ _ Pr).
Qed.
End once.

(** ** Concrete executions *)
Module FutureSample.
(** A blocking call from another thread, run by the loop after the connection is up. *)
Definition events : list (site_event (T := Sink.t)) :=
  [SLoop (EvConnect 7); SCall ClientSample.request 5; SLoop (EvConnection ClientSample.transport); SRun].

Ltac run_site_event :=
  lazymatch goal with
  | |- context [site_step ?it ?e ?s] =>
      let r := eval vm_compute in (site_step it e s) in
      replace (site_step it e s) with r by (vm_compute; reflexivity); cbv beta iota
  end.

Lemma events_fine : site_events_ok map_to_list events site_new.
Proof.
  unfold events. cbn [site_events_ok]. split; [split; [done|right; done]|]. run_site_event.
  split; [by vm_compute|]. run_site_event. split; [split; [done|by split; vm_compute]|]. run_site_event.
  split; [exact I|]. run_site_event. exact I.
Qed.
End FutureSample.

Lemma futures_once_witness :
  match site_run map_to_list FutureSample.events site_new with
  | Ret s => in_budget (st_of s) -> forall p, 0 <= p < promises_ s ->
      (exists r, set_values p (st_of s) = [r] /\ get p s = Some r) \/
      (get p s = None /\
       ((exists id pc, pendings_ (st_of s) !! id = Some pc /\ token (pc_complete pc) = p) \/
        (exists call, call ∈ posted_ s /\ call_token call = p)))
  | Stop _ st => in_budget st -> crowded st
  end.
Proof. apply (futures_once map_to_list (fun _ => reflexivity _)). exact FutureSample.events_fine. Defined.

Lemma destructor_resolves_all_witness :
  match cl_destroy map_to_list (Sink.mk false []) ClientSample.after_two_calls with
  | Ret st' => in_budget st' -> started st' ≡ₚ (completed st').*1 /\ pendings_ st' = ∅ /\ timers_ st' = ∅
  | Stop _ st' => in_budget st' -> crowded st'
  end.
Proof.
  apply (destructor_resolves_all map_to_list (fun _ => reflexivity _));
    [exact ClientSample.after_two_calls_reachable|by split; vm_compute|done|].
  intros st1 c E Ec. vm_compute in E. injection E as <-. vm_compute in Ec. by injection Ec as <-.
Defined.
