(* ===== verification/TcpConnection.v ===== *)
(** * TcpConnection: one connection on its event loop

    [include/TcpConnection.h] and [src/TcpConnection.cpp], with the parts of
    [EventLoop], [Channel], [Buffer] and [Socket] a connection uses.  All handlers
    run on the loop thread; calls from other threads are modelled by what they
    post to the loop.

    The kernel's answers to the successive [write] calls are a parameter
    [answer_] of the state, constrained by [write(2)]; user callbacks are modelled
    by the operations they perform on the connection.  Ghost fields: the bytes the
    kernel took ([wire_]), the bytes accepted for transmission ([accepted_]),
    whether the peer was found unreachable ([broken_]), and how often the
    connection callback reported up and down and the close callback ran. *)
From S2P Require Import Prelude Buffer Channel Transport.

Inductive StateE := kConnecting | kConnected | kDisconnecting | kDisconnected.

#[global] Instance StateE_eq_dec : EqDecision StateE.
Proof. solve_decision. Defined.

(** The functors a connection queues on its loop. *)
Inductive task :=
| TSend (message : bytes)
| TShutdown
| TForceClose
| TWriteComplete
| TDestroyed.

(** [<errno.h>] on Linux. *)
Definition EAGAIN : Z := 11.
Definition EWOULDBLOCK : Z := EAGAIN.
Definition EPIPE : Z := 32.
Definition ECONNRESET : Z := 104.

Record TcpConnection := mkConn {
  state_ : StateE;
  channel_ : Channel;
  poller_ : EPollPoller;                  (* of the owner loop *)
  inputBuffer_ : Buffer;
  outputBuffer_ : Buffer;
  writeCb_ : bool;                        (* is writeCompleteCallback_ set? *)
  pending_ : list task;                   (* the loop's pendingFunctors_ *)
  answer_ : nat -> Z -> io_result Z;      (* n-th write of so many bytes *)
  nwrites_ : nat;
  wrShut_ : bool;
  wire_ : bytes;
  accepted_ : bytes;
  broken_ : bool;
  ups_ : nat;
  downs_ : nat;
  closes_ : nat
}.

Definition set_state (s : StateE) (c : TcpConnection) : TcpConnection :=
  mkConn s (channel_ c) (poller_ c) (inputBuffer_ c) (outputBuffer_ c) (writeCb_ c) (pending_ c)
    (answer_ c) (nwrites_ c) (wrShut_ c) (wire_ c) (accepted_ c) (broken_ c) (ups_ c)
    (downs_ c) (closes_ c).
Definition set_registration (pc : EPollPoller * Channel) (c : TcpConnection) : TcpConnection :=
  mkConn (state_ c) pc.2 pc.1 (inputBuffer_ c) (outputBuffer_ c) (writeCb_ c) (pending_ c)
    (answer_ c) (nwrites_ c) (wrShut_ c) (wire_ c) (accepted_ c) (broken_ c) (ups_ c)
    (downs_ c) (closes_ c).
Definition set_channel (ch : Channel) (c : TcpConnection) : TcpConnection :=
  mkConn (state_ c) ch (poller_ c) (inputBuffer_ c) (outputBuffer_ c) (writeCb_ c) (pending_ c)
    (answer_ c) (nwrites_ c) (wrShut_ c) (wire_ c) (accepted_ c) (broken_ c) (ups_ c)
    (downs_ c) (closes_ c).
Definition set_input (b : Buffer) (c : TcpConnection) : TcpConnection :=
  mkConn (state_ c) (channel_ c) (poller_ c) b (outputBuffer_ c) (writeCb_ c) (pending_ c)
    (answer_ c) (nwrites_ c) (wrShut_ c) (wire_ c) (accepted_ c) (broken_ c) (ups_ c)
    (downs_ c) (closes_ c).
Definition set_output (b : Buffer) (c : TcpConnection) : TcpConnection :=
  mkConn (state_ c) (channel_ c) (poller_ c) (inputBuffer_ c) b (writeCb_ c) (pending_ c)
    (answer_ c) (nwrites_ c) (wrShut_ c) (wire_ c) (accepted_ c) (broken_ c) (ups_ c)
    (downs_ c) (closes_ c).
Definition queueInLoop (t : task) (c : TcpConnection) : TcpConnection :=
  mkConn (state_ c) (channel_ c) (poller_ c) (inputBuffer_ c) (outputBuffer_ c) (writeCb_ c)
    (pending_ c ++ [t]) (answer_ c) (nwrites_ c) (wrShut_ c) (wire_ c) (accepted_ c)
    (broken_ c) (ups_ c) (downs_ c) (closes_ c).
Definition set_pending (ts : list task) (c : TcpConnection) : TcpConnection :=
  mkConn (state_ c) (channel_ c) (poller_ c) (inputBuffer_ c) (outputBuffer_ c) (writeCb_ c) ts
    (answer_ c) (nwrites_ c) (wrShut_ c) (wire_ c) (accepted_ c) (broken_ c) (ups_ c)
    (downs_ c) (closes_ c).
Definition set_kernel (shut : bool) (wire : bytes) (k : nat) (c : TcpConnection) : TcpConnection :=
  mkConn (state_ c) (channel_ c) (poller_ c) (inputBuffer_ c) (outputBuffer_ c) (writeCb_ c)
    (pending_ c) (answer_ c) k shut wire (accepted_ c) (broken_ c) (ups_ c) (downs_ c)
    (closes_ c).
Definition set_accepted (bs : bytes) (c : TcpConnection) : TcpConnection :=
  mkConn (state_ c) (channel_ c) (poller_ c) (inputBuffer_ c) (outputBuffer_ c) (writeCb_ c)
    (pending_ c) (answer_ c) (nwrites_ c) (wrShut_ c) (wire_ c) bs (broken_ c) (ups_ c)
    (downs_ c) (closes_ c).
Definition set_broken  (c : TcpConnection) : TcpConnection :=
  mkConn (state_ c) (channel_ c) (poller_ c) (inputBuffer_ c) (outputBuffer_ c) (writeCb_ c)
    (pending_ c) (answer_ c) (nwrites_ c) (wrShut_ c) (wire_ c) (accepted_ c) true (ups_ c)
    (downs_ c) (closes_ c).
Definition count_up  (c : TcpConnection) : TcpConnection :=
  mkConn (state_ c) (channel_ c) (poller_ c) (inputBuffer_ c) (outputBuffer_ c) (writeCb_ c)
    (pending_ c) (answer_ c) (nwrites_ c) (wrShut_ c) (wire_ c) (accepted_ c) (broken_ c)
    (S (ups_ c)) (downs_ c) (closes_ c).
Definition count_down  (c : TcpConnection) : TcpConnection :=
  mkConn (state_ c) (channel_ c) (poller_ c) (inputBuffer_ c) (outputBuffer_ c) (writeCb_ c)
    (pending_ c) (answer_ c) (nwrites_ c) (wrShut_ c) (wire_ c) (accepted_ c) (broken_ c)
    (ups_ c) (S (downs_ c)) (closes_ c).
Definition count_close  (c : TcpConnection) : TcpConnection :=
  mkConn (state_ c) (channel_ c) (poller_ c) (inputBuffer_ c) (outputBuffer_ c) (writeCb_ c)
    (pending_ c) (answer_ c) (nwrites_ c) (wrShut_ c) (wire_ c) (accepted_ c) (broken_ c)
    (ups_ c) (downs_ c) (S (closes_ c)).

(** What user code does with a connection from a callback: the message callback
    may also consume input. *)
Inductive act := ASend (message : bytes) | AShutdown | AForceClose | ARetrieve (n : nat).

Inductive callback := OnConnection | OnMessage | OnWriteComplete.

(** [Socket::write]: after [SHUT_WR] the kernel answers EPIPE. *)
Definition socket_write (data : bytes) (c : TcpConnection) : io_result Z * TcpConnection :=
  let r := if wrShut_ c then IoErr EPIPE else answer_ c (nwrites_ c) (len data) in
  let wire := match r with IoOk n => wire_ c ++ take (Z.to_nat n) data | IoErr _ => wire_ c end in
  (r, set_kernel (wrShut_ c) wire (S (nwrites_ c)) c).

Definition socket_shutdownWrite (c : TcpConnection) : TcpConnection :=
  set_kernel true (wire_ c) (nwrites_ c) c.

Definition conn_connected (c : TcpConnection) : bool := bool_decide (state_ c = kConnected).

(** [Channel] operations through the owner loop. *)
Definition conn_enableReading (c : TcpConnection) := set_registration (enableReading (poller_ c) (channel_ c)) c.
Definition conn_enableWriting (c : TcpConnection) := set_registration (enableWriting (poller_ c) (channel_ c)) c.
Definition conn_disableWriting (c : TcpConnection) := set_registration (disableWriting (poller_ c) (channel_ c)) c.
Definition conn_disableAll (c : TcpConnection) := set_registration (disableAll (poller_ c) (channel_ c)) c.

Definition sendInLoop (message : bytes) (c : TcpConnection) : option TcpConnection :=
  if bool_decide (state_ c = kDisconnected) then Some c else
  let '(nwritten, faultError, c) :=
    if negb (isWriting (channel_ c)) && (readableBytes (outputBuffer_ c) =? 0) then
      match socket_write message c with
      | (IoOk n, c) =>
          (n, false, if (len message - n =? 0) && writeCb_ c then queueInLoop TWriteComplete c else c)
      | (IoErr e, c) =>
          (0, negb (e =? EWOULDBLOCK) && negb (e =? EAGAIN) && ((e =? EPIPE) || (e =? ECONNRESET)), c)
      end
    else (0, false, c) in
  let remaining := len message - nwritten in
  let c := if faultError : bool then set_broken c else set_accepted (accepted_ c ++ message) c in
  if negb faultError && (0 <? remaining) then
    out ← append (outputBuffer_ c) (drop (Z.to_nat nwritten) message);
    let c := set_output out c in
    Some (if negb (isWriting (channel_ c)) then conn_enableWriting c else c)
  else Some c.

(** [send] on the loop thread. *)
Definition conn_send (message : bytes) (c : TcpConnection) : option TcpConnection :=
  if bool_decide (state_ c = kConnected) then sendInLoop message c else Some c.

Definition shutdownInLoop (c : TcpConnection) : TcpConnection :=
  if negb (isWriting (channel_ c)) then socket_shutdownWrite c else c.

(** [shutdown] on the loop thread: [runInLoop] runs the functor at once. *)
Definition conn_shutdown (c : TcpConnection) : TcpConnection :=
  if bool_decide (state_ c = kConnected) then shutdownInLoop (set_state kDisconnecting c) else c.

Definition conn_forceClose (c : TcpConnection) : TcpConnection :=
  if bool_decide (state_ c = kConnected) || bool_decide (state_ c = kDisconnecting)
  then queueInLoop TForceClose (set_state kDisconnecting c) else c.

Definition perform_act (a : act) (c : TcpConnection) : option TcpConnection :=
  match a with
  | ASend m => conn_send m c
  | AShutdown => Some (conn_shutdown c)
  | AForceClose => Some (conn_forceClose c)
  | ARetrieve n => Some (set_input (retrieve (inputBuffer_ c) (Z.of_nat n)) c)
  end.

Fixpoint perform (acts : list act) (c : TcpConnection) : option TcpConnection :=
  match acts with
  | [] => Some c
  | a :: acts => c ← perform_act a c; perform acts c
  end.

(** ** Handlers

    [user] lists what the user's callbacks do when the handler calls them. *)

Definition handleClose (user : callback -> list act) (c : TcpConnection) : option TcpConnection :=
  guard (state_ c = kConnected \/ state_ c = kDisconnecting);;
  let c := conn_disableAll (set_state kDisconnected c) in
  c ← perform (user OnConnection) (count_down c);
  Some (count_close c).

(** [rd] is the kernel's answer to the [readv]. *)
Definition handleRead (rd : io_result bytes) (user : callback -> list act) (c : TcpConnection)
  : option TcpConnection :=
  '(n, b, _) ← readCore (inputBuffer_ c) rd 0;
  let c := set_input b c in
  if 0 <? n then perform (user OnMessage) c
  else if n =? 0 then
    if 0 <? readableBytes (outputBuffer_ c) then Some (set_state kDisconnecting c)
    else handleClose user c
  else Some c.

Definition handleWrite (user : callback -> list act) (c : TcpConnection) : option TcpConnection :=
  if isWriting (channel_ c) then
    '(n, out, _, c) ← writeCore socket_write (outputBuffer_ c) 0 c;
    let c := set_output out c in
    if 0 <? n then
      if readableBytes (outputBuffer_ c) =? 0 then
        let c := conn_disableWriting c in
        c ← (if writeCb_ c then perform (user OnWriteComplete) c else Some c);
        Some (if bool_decide (state_ c = kDisconnecting) then shutdownInLoop c else c)
      else Some c
    else Some c
  else Some c.

(** [handleError] only reads and logs [SO_ERROR]. *)
Definition handleError (c : TcpConnection) : option TcpConnection := Some c.

Definition connectEstablished (user : callback -> list act) (c : TcpConnection) : option TcpConnection :=
  guard (state_ c = kConnecting);;
  let c := set_state kConnected c in
  let c := conn_enableReading (set_channel (tie (channel_ c)) c) in
  perform (user OnConnection) (count_up c).

Definition connectDestroyed (user : callback -> list act) (c : TcpConnection) : option TcpConnection :=
  c ← (if bool_decide (state_ c = kConnected) then
         perform (user OnConnection) (count_down (conn_disableAll (set_state kDisconnected c)))
       else Some c);
  pc ← chan_remove (poller_ c) (channel_ c);
  Some (set_registration pc c).

Definition forceCloseInLoop (user : callback -> list act) (c : TcpConnection) : option TcpConnection :=
  if bool_decide (state_ c = kConnected) || bool_decide (state_ c = kDisconnecting)
  then handleClose user c else Some c.

(** The loop runs one queued functor. *)
Definition run_task (t : task) (user : callback -> list act) (c : TcpConnection) : option TcpConnection :=
  match t with
  | TSend m => sendInLoop m c
  | TShutdown => Some (shutdownInLoop c)
  | TForceClose => forceCloseInLoop user c
  | TWriteComplete => perform (user OnWriteComplete) c
  | TDestroyed => connectDestroyed user c
  end.

(** The channel reports [revents]; the connection is alive. *)
Definition conn_handleEvent (revents : Z) (rd : io_result bytes) (user : callback -> list act)
    (c : TcpConnection) : option TcpConnection :=
  handleEvent channel_ set_channel
    (mkCallbacks (Some (handleClose user)) (Some handleError) (Some (handleRead rd user))
       (Some (handleWrite user)))
    true (set_channel (setRevents (channel_ c) revents) c).

(** ** Executions *)

(** What happens to a connection: its establishment, an I/O event, the loop
    running the oldest queued functor, an operation by user code on the loop
    thread, and what calls on other threads do.  Such a call first reads [state_],
    and the loop may run between this read and what follows it: the event carries
    the value [seen].  [RemoteSend] posts the message if the check of [seen] passed;
    [RemoteStore] is the store of a [shutdown] or [forceClose] whose check passed, and
    [RemotePost] the post after the store, again with the loop running in between.
    The owner (server or client) posts the destruction. *)
Inductive conn_event :=
| Established (user : callback -> list act)
| Ready (revents : Z) (rd : io_result bytes) (user : callback -> list act)
| RunTask (user : callback -> list act)
| UserAct (a : act)
| RemoteSend (seen : StateE) (m : bytes)
| RemoteStore (force : bool) (seen : StateE)
| RemotePost (force : bool)
| PostDestroyed.

(** The check of [shutdown] and of [forceClose]. *)
Definition close_check (force : bool) (seen : StateE) : bool :=
  bool_decide (seen = kConnected) || force && bool_decide (seen = kDisconnecting).

Definition conn_step (e : conn_event) (c : TcpConnection) : option TcpConnection :=
  match e with
  | Established user => connectEstablished user c
  | Ready revents rd user => conn_handleEvent revents rd user c
  | RunTask user =>
      match pending_ c with
      | [] => Some c
      | t :: ts => run_task t user (set_pending ts c)
      end
  | UserAct a => perform_act a c
  | RemoteSend seen m => Some (if bool_decide (seen = kConnected) then queueInLoop (TSend m) c else c)
  | RemoteStore force seen => Some (if close_check force seen then set_state kDisconnecting c else c)
  | RemotePost force => Some (queueInLoop (if force : bool then TForceClose else TShutdown) c)
  | PostDestroyed => Some (queueInLoop TDestroyed c)
  end.

Fixpoint conn_run (es : list conn_event) (c : TcpConnection) : option TcpConnection :=
  match es with
  | [] => Some c
  | e :: es => c ← conn_step e c; conn_run es c
  end.

Definition conn_new (ptr fd : Z) (p : EPollPoller) (writeCb : bool) (answer : nat -> Z -> io_result Z)
  : TcpConnection :=
  mkConn kConnecting (Channel_new ptr fd) p (Buffer_new kInitialSize) (Buffer_new kInitialSize) writeCb []
    answer 0 false [] [] false 0 0 0.

(** ** Invariant *)

(** The interest mask a connection has: reading while it is up, writing exactly
    while output is queued. *)
Definition wanted (st : StateE) (out : bytes) : Z :=
  match st with
  | kConnecting | kDisconnected => kNoneEvent
  | kConnected | kDisconnecting =>
      if bool_decide (out = []) then kReadEvent else Z.lor kReadEvent kWriteEvent
  end.

(** The states in which a connection moves bytes. *)
Definition up (c : TcpConnection) : Prop := state_ c = kConnected \/ state_ c = kDisconnecting.

Record conn_inv (c : TcpConnection) : Prop := {
  ci_chan : chan_inv (poller_ c) (channel_ c);
  ci_in : buffer_wf (inputBuffer_ c);
  ci_out : buffer_wf (outputBuffer_ c);
  ci_stream : accepted_ c = wire_ c ++ contents (outputBuffer_ c);
  ci_cap : len (buffer_ (outputBuffer_ c)) <= 3 * len (accepted_ c) + 1032;
  ci_events : events_ (channel_ c) = wanted (state_ c) (contents (outputBuffer_ c));
  ci_idle : ~ up c -> kernel_ (poller_ c) !! fd_ (channel_ c) = None;
  ci_fresh : state_ c = kConnecting -> accepted_ c = [] /\ pending_ c = [];
  ci_shut : wrShut_ c = true -> state_ c = kDisconnected \/
    (state_ c = kDisconnecting /\ contents (outputBuffer_ c) = []);
  ci_tasks : TShutdown ∈ pending_ c -> state_ c = kDisconnecting \/ state_ c = kDisconnected;
  ci_ups : ups_ c = if decide (state_ c = kConnecting) then 0%nat else 1%nat;
  ci_downs : downs_ c = if decide (state_ c = kDisconnected) then 1%nat else 0%nat;
  ci_closes : (closes_ c <= downs_ c)%nat;
  ci_answer : forall k l n, answer_ c k l = IoOk n -> 0 <= n <= l
}.

Lemma wanted_writing c :
  conn_inv c -> isWriting (channel_ c) =
    negb (bool_decide (state_ c = kConnecting)) && negb (bool_decide (state_ c = kDisconnected)) &&
    negb (bool_decide (contents (outputBuffer_ c) = [])).
Proof.
  intros I. unfold isWriting. rewrite (ci_events _ I). unfold wanted.
  destruct (state_ c); rewrite ?bool_decide_true, ?bool_decide_false by done; cbn [negb andb]; try done;
    destruct (bool_decide (contents _ = [])); done.
Qed.

(** The write buffer is consulted as the code does. *)
Lemma output_empty c :
  conn_inv c -> (readableBytes (outputBuffer_ c) =? 0) = bool_decide (contents (outputBuffer_ c) = []).
Proof.
  intros I. rewrite readable_contents by apply I. destruct (contents (outputBuffer_ c)); [done|].
  rewrite bool_decide_false by done. apply Z.eqb_neq. unfold len; simpl. lia.
Qed.

(** Changing the interest mask of a well-registered channel. *)
Lemma update_events c ev :
  chan_inv (poller_ c) (channel_ c) ->
  let c' := set_registration (chan_update (poller_ c) (set_events (channel_ c) ev)) c in
  chan_inv (poller_ c') (channel_ c') /\ events_ (channel_ c') = ev.
Proof.
  intros I. pose proof (chan_update_spec (poller_ c) (channel_ c) ev I) as S.
  destruct (chan_update _ _) as [p ch]. cbn. tauto.
Qed.

Lemma up_wanted c out : up c ->
  wanted (state_ c) out = if bool_decide (out = []) then kReadEvent else Z.lor kReadEvent kWriteEvent.
Proof. by intros [-> | ->]. Qed.

(** The second half of [sendInLoop]: queue what the kernel did not take. *)
Definition enqueue (data : bytes) (c : TcpConnection) : option TcpConnection :=
  if 0 <? len data then
    out ← append (outputBuffer_ c) data;
    let c := set_output out c in
    Some (if negb (isWriting (channel_ c)) then conn_enableWriting c else c)
  else Some c.

(** What the operations on the output side leave alone. *)
Record same_lifecycle (c c' : TcpConnection) : Prop := {
  sl_input : inputBuffer_ c' = inputBuffer_ c;
  sl_ups : ups_ c' = ups_ c;
  sl_downs : downs_ c' = downs_ c;
  sl_closes : closes_ c' = closes_ c;
  sl_answer : answer_ c' = answer_ c;
  sl_cb : writeCb_ c' = writeCb_ c;
  sl_revents : revents_ (channel_ c') = revents_ (channel_ c)
}.

Lemma enqueue_ok c pre data k :
  conn_inv c -> up c -> (pre = [] \/ contents (outputBuffer_ c) = []) -> wrShut_ c = false ->
  len (accepted_ c) + len pre + len data < 2 ^ 60 ->
  exists c', enqueue data (set_accepted (accepted_ c ++ pre ++ data)
                             (set_kernel false (wire_ c ++ pre) k c)) = Some c' /\
    conn_inv c' /\ state_ c' = state_ c /\ accepted_ c' = accepted_ c ++ pre ++ data /\
    broken_ c' = broken_ c /\ same_lifecycle c c'.
Proof.
  intros I U Hpre Hsh Hlen. unfold enqueue. set (c1 := set_accepted _ _).
  assert (accepted_ c ++ pre = (wire_ c ++ pre) ++ contents (outputBuffer_ c)) as Es.
  { rewrite (ci_stream _ I). destruct Hpre as [-> | ->]; by rewrite ?app_nil_r. }
  destruct (Z.ltb_spec 0 (len data)) as [Hd|Hd].
  - destruct (append_spec (outputBuffer_ c) data (ci_out _ I)) as (out & E & Hw & Hc & Hb).
    { pose proof (ci_cap _ I). solve_len. }
    change (outputBuffer_ c1) with (outputBuffer_ c). rewrite E. cbn [mbind option_bind].
    set (c2 := set_output out c1).
    assert (contents out <> []) as Hne by (rewrite Hc; destruct data; [done|by destruct (contents _)]).
    pose proof (wanted_writing c I) as Hwr.
    assert (len (buffer_ out) <= 3 * len (accepted_ c1) + 1032) as Hcap.
    { pose proof (ci_cap _ I). pose proof (ci_stream _ I) as Hs. cbn [accepted_ c1 set_accepted].
      assert (len (contents (outputBuffer_ c)) <= len (accepted_ c)) by (rewrite Hs; solve_len).
      unfold kCheapPrepend in *. solve_len. }
    assert (forall pc, chan_inv pc.1 pc.2 -> events_ pc.2 = Z.lor kReadEvent kWriteEvent ->
      conn_inv (set_registration pc c2)) as K.
    { intros pc H1 H2. destruct I. split; cbn [c2 c1]; try done; cbn.
      - by rewrite Hc, (app_assoc (accepted_ c)), Es, <- (app_assoc (wire_ c ++ pre)).
      - rewrite H2, up_wanted by done. by rewrite bool_decide_false.
      - intros E'. destruct U; cbn in *; congruence. }
    eexists; split; [reflexivity|]. change (channel_ c2) with (channel_ c).
    destruct (isWriting (channel_ c)) eqn:Ew; cbn [negb].
    + split; [|split_and!; try done; by split]. apply (K (poller_ c, channel_ c)); [apply I|]. cbn [snd].
      rewrite (ci_events _ I), up_wanted, bool_decide_false; try done.
      intros E0. rewrite (bool_decide_true _ E0), !andb_false_r in Hwr. done.
    + assert (contents (outputBuffer_ c) = []) as E0.
      { destruct (decide (contents (outputBuffer_ c) = [])) as [|Hn]; [done|].
        rewrite !bool_decide_false in Hwr by (destruct U; congruence). done. }
      destruct (update_events c2 (Z.lor (events_ (channel_ c)) kWriteEvent) (ci_chan _ I)) as [H1 H2].
      split; [|split_and!; try done; split; try done;
        exact (chan_update_revents (poller_ c) (set_events (channel_ c) (Z.lor (events_ (channel_ c)) kWriteEvent)))].
      apply K; [exact H1|]. etrans; [exact H2|].
      rewrite (ci_events _ I), up_wanted, bool_decide_true; done.
  - assert (data = []) as -> by (destruct data; [done|unfold len in Hd; simpl in Hd; lia]).
    exists c1. split_and!; try done.
    destruct I. split; cbn [c1]; try done; cbn.
    + by rewrite app_nil_r.
    + solve_len.
    + intros E. destruct U; congruence.
Qed.

Lemma inv_queue t c :
  conn_inv c -> state_ c <> kConnecting ->
  (t = TShutdown -> state_ c = kDisconnecting \/ state_ c = kDisconnected) -> conn_inv (queueInLoop t c).
Proof.
  intros [] Hs Ht. split; auto; cbn; [by intros ?|].
  intros [?|Hin%list_elem_of_singleton]%elem_of_app; auto.
Qed.

Lemma inv_broken c k : conn_inv c -> conn_inv (set_broken (set_kernel (wrShut_ c) (wire_ c) k c)).
Proof. intros []. split; auto. Qed.

(** The outcome of handing [m] to a connection: accepted whole, or dropped on a
    connection whose peer is gone. *)
Definition took (m : bytes) (c c' : TcpConnection) : Prop :=
  (accepted_ c' = accepted_ c ++ m \/
   accepted_ c' = accepted_ c /\ (broken_ c' = true \/ state_ c = kDisconnected)) /\
  (broken_ c = true -> broken_ c' = true).

Lemma sendInLoop_ok m c :
  conn_inv c -> state_ c <> kConnecting -> len (accepted_ c) + len m < 2 ^ 60 ->
  exists c', sendInLoop m c = Some c' /\ conn_inv c' /\ state_ c' = state_ c /\ took m c c' /\ same_lifecycle c c'.
Proof.
  intros I Hs Hlen. unfold sendInLoop.
  destruct (bool_decide_reflect (state_ c = kDisconnected)) as [Hd|Hd].
  { exists c. split_and!; try done. split; [right; auto|done]. }
  assert (up c) as U by (unfold up; destruct (state_ c); tauto).
  assert (forall pre data k c0, m = pre ++ data -> (pre = [] \/ contents (outputBuffer_ c) = []) ->
    wrShut_ c = false -> (c0 = c \/ c0 = queueInLoop TWriteComplete c) ->
    exists c', enqueue data (set_accepted (accepted_ c0 ++ m) (set_kernel false (wire_ c ++ pre) k c0)) = Some c' /\
      conn_inv c' /\ state_ c' = state_ c /\ took m c c' /\ same_lifecycle c c') as K.
  { intros pre data k c0 -> Hpre Hsh Hc0.
    destruct (enqueue_ok c0 pre data k) as (c' & ? & ? & ? & ? & ? & []);
      try (by destruct Hc0 as [-> | ->]).
    - destruct Hc0 as [-> | ->]; [done|by apply inv_queue].
    - destruct Hc0 as [-> | ->]; cbn; solve_len.
    - exists c'. destruct Hc0 as [-> | ->]; cbn in *; (split_and!; try done; split; auto with congruence). }
  rewrite (wanted_writing c I), output_empty, !(bool_decide_false (state_ c = _)) by done. cbn [negb andb].
  destruct (bool_decide_reflect (contents (outputBuffer_ c) = [])) as [Ho|Ho]; cbn [negb andb].
  - unfold socket_write. destruct (wrShut_ c) eqn:Hsh.
    { cbn. eexists; split; [done|]. split_and!; try done.
      - rewrite <- Hsh. by apply inv_broken.
      - split; [right; auto|done]. }
    destruct (answer_ c (nwrites_ c) (len m)) as [e|n] eqn:Ea.
    + set (fault := negb _ && _ && _). destruct fault; cbn [negb andb].
      * eexists; split; [done|]. split_and!; try done.
        -- rewrite <- Hsh. by apply inv_broken.
        -- split; [right; auto|done].
      * rewrite Z.sub_0_r. destruct (K [] m (S (nwrites_ c)) c) as (c' & E & ?); auto.
        rewrite app_nil_r in E. exists c'. split; [exact E|done].
    + apply (ci_answer _ I) in Ea. cbn [negb andb].
      replace (len m - n) with (len (drop (Z.to_nat n) m)) by solve_len.
      set (cq := if _ && _ then _ else _).
      assert (exists c0, (c0 = c \/ c0 = queueInLoop TWriteComplete c) /\
        cq = set_kernel false (wire_ c ++ take (Z.to_nat n) m) (S (nwrites_ c)) c0) as (c0 & Hc0 & ->).
      { subst cq. destruct (_ && _); [exists (queueInLoop TWriteComplete c)|exists c]; split; eauto. }
      destruct (K (take (Z.to_nat n) m) (drop (Z.to_nat n) m) (S (nwrites_ c)) c0) as (c' & E & ?); auto.
      { by rewrite take_drop. }
      exists c'. split; [exact E|done].
  - rewrite Z.sub_0_r.
    assert (wrShut_ c = false) as Hsh.
    { destruct (wrShut_ c) eqn:E; [|done]. destruct (ci_shut _ I E) as [?|[_ ?]]; done. }
    destruct (K [] m (nwrites_ c) c) as (c' & E & ?); auto. exists c'. split; [|done].
    rewrite <- E. unfold enqueue. cbn [drop]. rewrite app_nil_r. destruct c; cbn in *; by subst.
Qed.

Lemma inv_disconnecting c : conn_inv c -> up c -> conn_inv (set_state kDisconnecting c).
Proof.
  intros [] U. split; cbn; auto.
  - rewrite ci_events0. by destruct U as [-> | ->].
  - intros Hn. destruct Hn. by right.
  - done.
  - intros [E|?]%ci_shut0; [destruct U; congruence|]. tauto.
  - rewrite ci_ups0. destruct U as [-> | ->]; done.
  - rewrite ci_downs0. destruct U as [-> | ->]; done.
Qed.

Lemma inv_shutdownInLoop c :
  conn_inv c -> state_ c = kDisconnecting \/ state_ c = kDisconnected -> conn_inv (shutdownInLoop c).
Proof.
  intros I Hs. unfold shutdownInLoop. destruct (isWriting (channel_ c)) eqn:Ew; cbn [negb]; [done|].
  pose proof (wanted_writing c I) as Hw. rewrite Ew in Hw. destruct I. split; cbn; auto.
  intros _. destruct Hs as [Hs|Hs]; [right|auto]. split; [done|]. rewrite Hs in Hw. simpl in Hw.
  destruct (bool_decide_reflect (contents (outputBuffer_ c) = [])); done.
Qed.

Lemma inv_conn_shutdown c : conn_inv c -> conn_inv (conn_shutdown c).
Proof.
  intros I. unfold conn_shutdown. case_bool_decide as E; [|done].
  apply inv_shutdownInLoop; [|by left]. apply inv_disconnecting; [done|by left].
Qed.

Lemma inv_conn_forceClose c : conn_inv c -> conn_inv (conn_forceClose c).
Proof.
  intros I. unfold conn_forceClose. destruct (_ || _) eqn:E; [|done].
  rewrite orb_true_iff, !bool_decide_eq_true in E. apply inv_queue; [|done..]. by apply inv_disconnecting.
Qed.

Lemma inv_retrieve c n : conn_inv c -> conn_inv (set_input (retrieve (inputBuffer_ c) (Z.of_nat n)) c).
Proof.
  intros []. split; cbn; auto. destruct (retrieve_spec (inputBuffer_ c) (Z.of_nat n) ci_in0) as (? & _); [lia|done].
Qed.

(** ** User code *)

(** What user operations cannot do to a connection: bring it up or down, or undo
    accepted bytes. *)
Record acted (c c' : TcpConnection) : Prop := {
  ac_class : match state_ c with
             | kConnecting => state_ c' = kConnecting
             | kConnected => up c'
             | kDisconnecting => state_ c' = kDisconnecting
             | kDisconnected => state_ c' = kDisconnected
             end;
  ac_prefix : accepted_ c `prefix_of` accepted_ c';
  ac_broken : broken_ c = true -> broken_ c' = true;
  ac_counts : ups_ c' = ups_ c /\ downs_ c' = downs_ c /\ closes_ c' = closes_ c;
  ac_revents : revents_ (channel_ c') = revents_ (channel_ c)
}.

#[global] Instance acted_refl : Reflexive acted.
Proof. intros c. split; auto. unfold up. destruct (state_ c); auto. Qed.

#[global] Instance acted_trans : Transitive acted.
Proof.
  intros a b c [A1 A2 A3 (A4 & A5 & A6) A7] [B1 B2 B3 (B4 & B5 & B6) B7].
  split; auto; [|by etrans|split_and!; congruence|congruence].
  destruct (state_ a); [by rewrite A1 in B1| |by rewrite A1 in B1..].
  destruct A1 as [E|E]; rewrite E in B1; unfold up; auto.
Qed.

Definition act_bytes (a : act) : Z := match a with ASend m => len m | _ => 0 end.
Definition total_send (acts : list act) : Z := foldr (fun a n => act_bytes a + n) 0 acts.

Lemma total_send_nonneg acts : 0 <= total_send acts.
Proof. induction acts as [|[m| | |] acts IH]; simpl; try lia. pose proof (len_nonneg m). lia. Qed.

Lemma acted_send m c c' :
  state_ c' = state_ c -> took m c c' -> same_lifecycle c c' ->
  acted c c' /\ len (accepted_ c') <= len (accepted_ c) + len m.
Proof.
  intros Es [Ht Hb] []. assert (accepted_ c `prefix_of` accepted_ c' /\ len (accepted_ c') <= len (accepted_ c) + len m) as [? ?].
  { destruct Ht as [->|[-> _]]; (split; [by eexists|solve_len]) || (split; [done|solve_len]). }
  split; [|done]. split; auto. rewrite Es. unfold up. destruct (state_ c); auto.
Qed.

Lemma perform_act_ok a c :
  conn_inv c -> len (accepted_ c) + act_bytes a < 2 ^ 60 ->
  exists c', perform_act a c = Some c' /\ conn_inv c' /\ acted c c' /\
    len (accepted_ c') <= len (accepted_ c) + act_bytes a.
Proof.
  intros I Hl. destruct a as [m| | |n]; cbn [perform_act act_bytes] in *.
  - unfold conn_send. case_bool_decide as E.
    + destruct (sendInLoop_ok m c I) as (c' & -> & ? & ? & ? & ?); [congruence|done|].
      destruct (acted_send m c c'); eauto.
    + exists c. split_and!; try done. solve_len.
  - eexists; split; [done|]. split; [by apply inv_conn_shutdown|]. unfold conn_shutdown, shutdownInLoop.
    case_bool_decide as E; [|split; [done|lia]]. split; [|destruct (negb _); cbn; lia].
    destruct (negb _); split; cbn; auto; rewrite E; by right.
  - eexists; split; [done|]. split; [by apply inv_conn_forceClose|]. unfold conn_forceClose.
    destruct (_ || _) eqn:E; [|split; [done|lia]]. split; [|cbn; lia].
    rewrite orb_true_iff, !bool_decide_eq_true in E. split; cbn; auto.
    destruct E as [-> | ->]; [by right|done].
  - eexists; split; [done|]. split; [by apply inv_retrieve|]. split; [|cbn; lia].
    split; cbn; auto. unfold up; cbn. destruct (state_ c); auto.
Qed.

Lemma conn_perform_ok acts : forall c,
  conn_inv c -> len (accepted_ c) + total_send acts < 2 ^ 60 ->
  exists c', perform acts c = Some c' /\ conn_inv c' /\ acted c c' /\
    len (accepted_ c') <= len (accepted_ c) + total_send acts.
Proof.
  induction acts as [|a acts IH]; intros c I Hl; cbn [perform total_send foldr] in *.
  { exists c. split_and!; try done. lia. }
  pose proof (total_send_nonneg acts). unfold total_send in *.
  destruct (perform_act_ok a c I) as (c1 & -> & I1 & A1 & L1); [lia|]. cbn [mbind option_bind].
  destruct (IH c1 I1) as (c2 & -> & I2 & A2 & L2); [lia|].
  exists c2. split_and!; try done; [by etrans|lia].
Qed.

(** ** Handlers preserve the invariant *)

Definition rank (s : StateE) : nat :=
  match s with kConnecting => 0 | kConnected => 1 | kDisconnecting => 2 | kDisconnected => 3 end.

(** A connection only moves forward, and never forgets accepted bytes. *)
Record evolves (c c' : TcpConnection) : Prop := {
  ev_rank : (rank (state_ c) <= rank (state_ c'))%nat;
  ev_prefix : accepted_ c `prefix_of` accepted_ c';
  ev_broken : broken_ c = true -> broken_ c' = true;
  ev_revents : revents_ (channel_ c') = revents_ (channel_ c)
}.

#[global] Instance evolves_refl : Reflexive evolves.
Proof. intros c. by split. Qed.
#[global] Instance evolves_trans : Transitive evolves.
Proof. intros a b c [] []. split; [lia|by etrans|auto|congruence]. Qed.

Lemma acted_evolves c c' : acted c c' -> evolves c c'.
Proof.
  intros [A1 A2 A3 _ A5]. split; auto. destruct (state_ c); try (rewrite A1; simpl; lia).
  destruct A1 as [-> | ->]; simpl; lia.
Qed.

Lemma inv_set_channel c ch :
  conn_inv c -> chan_inv (poller_ c) ch -> events_ ch = events_ (channel_ c) -> fd_ ch = fd_ (channel_ c) ->
  conn_inv (set_channel ch c).
Proof. intros [] H E F. split; cbn; auto; [by rewrite E|by rewrite F]. Qed.

(** Going down: the state of [handleClose] and [connectDestroyed] when they call
    the connection callback. *)
Lemma inv_down c : conn_inv c -> up c -> conn_inv (count_down (conn_disableAll (set_state kDisconnected c))).
Proof.
  intros I U. assert (downs_ c = 0%nat) as Hd by (rewrite (ci_downs _ I); by destruct U as [-> | ->]).
  destruct (update_events (set_state kDisconnected c) kNoneEvent (ci_chan _ I)) as [H1 H2].
  assert (events_ (channel_ c) <> 0) as He.
  { rewrite (ci_events _ I), up_wanted by done. by case_bool_decide. }
  pose proof (disableAll_unregisters (poller_ c) (channel_ c) (ci_chan _ I) He) as Hk.
  pose proof (chan_update_fd (poller_ c) (set_events (channel_ c) kNoneEvent)
    : fd_ (disableAll (poller_ c) (channel_ c)).2 = fd_ (channel_ c)) as Hfd.
  assert (kernel_ (disableAll (poller_ c) (channel_ c)).1 !! fd_ (disableAll (poller_ c) (channel_ c)).2 = None)
    as Hk' by (by rewrite Hfd).
  destruct I. split; try done; cbn; [auto|auto|..].
  - rewrite ci_ups0. by destruct U as [-> | ->].
  - by rewrite Hd.
  - lia.
Qed.

Lemma down_evolves c : up c -> evolves c (count_down (conn_disableAll (set_state kDisconnected c))).
Proof.
  intros U. split; cbn; try done; [destruct U as [-> | ->]; simpl; lia|].
  exact (chan_update_revents (poller_ c) (set_events (channel_ c) kNoneEvent)).
Qed.

Lemma handleClose_ok user c :
  conn_inv c -> up c -> len (accepted_ c) + total_send (user OnConnection) < 2 ^ 60 ->
  exists c', handleClose user c = Some c' /\ conn_inv c' /\ evolves c c' /\ state_ c' = kDisconnected /\
    closes_ c' = 1%nat /\ len (accepted_ c') <= len (accepted_ c) + total_send (user OnConnection).
Proof.
  intros I U Hl. unfold handleClose. case_guard; [|done]. cbn [mbind option_bind].
  set (c1 := count_down _).
  assert (downs_ c = 0%nat) as Hd by (rewrite (ci_downs _ I); by destruct U as [-> | ->]).
  pose proof (ci_closes _ I) as Hcl.
  pose proof (inv_down c I U : conn_inv c1) as I1.
  destruct (conn_perform_ok (user OnConnection) c1 I1) as (c2 & E & I2 & A & L); [done|]. rewrite E. cbn [mbind option_bind].
  pose proof (ac_class _ _ A) as Hs. destruct (ac_counts _ _ A) as (_ & Hd2 & Hc2). cbn in Hs, Hd2, Hc2.
  eexists; split; [done|]. split_and!; try done.
  - destruct I2. split; cbn; auto. rewrite Hc2, Hd2. lia.
  - etrans; [by apply down_evolves|]. etrans; [by apply acted_evolves|by split].
  - cbn. rewrite Hc2. lia.
Qed.

Definition user_total (user : callback -> list act) : Z :=
  total_send (user OnConnection) + total_send (user OnMessage) + total_send (user OnWriteComplete).

(** [readv] delivers at most what it was offered. *)
Definition read_ok (rd : io_result bytes) (c : TcpConnection) : Prop :=
  match rd with
  | IoOk data => len data <= readCapacity (inputBuffer_ c) /\ len (buffer_ (inputBuffer_ c)) + len data < 2 ^ 63
  | IoErr _ => True
  end.

Lemma handleRead_ok rd user c :
  conn_inv c -> up c -> read_ok rd c ->
  len (accepted_ c) + total_send (user OnConnection) + total_send (user OnMessage) < 2 ^ 60 ->
  exists c', handleRead rd user c = Some c' /\ conn_inv c' /\ evolves c c' /\
    len (accepted_ c') <= len (accepted_ c) + total_send (user OnConnection) + total_send (user OnMessage).
Proof.
  intros I U Hrd Hl. unfold handleRead.
  pose proof (total_send_nonneg (user OnConnection)). pose proof (total_send_nonneg (user OnMessage)).
  pose proof (readCore_spec (inputBuffer_ c) rd 0 (ci_in _ I)) as R.
  destruct rd as [e|data]; cbn [read_ok] in Hrd.
  { rewrite R. cbn. eexists; split; [done|]. split_and!; [by destruct I|by split|cbn; lia]. }
  destruct Hrd as [Hcap Hsz]. destruct (R Hcap Hsz) as (b & -> & Hb & _). cbn [mbind option_bind].
  assert (conn_inv (set_input b c)) as I1 by (destruct I; split; auto).
  assert (evolves c (set_input b c)) as E1 by by split.
  destruct (Z.ltb_spec 0 (len data)).
  - destruct (conn_perform_ok (user OnMessage) (set_input b c) I1) as (c' & -> & ? & A & L); [cbn; lia|].
    exists c'. split_and!; try done; [etrans; [exact E1|by apply acted_evolves]|cbn in L; lia].
  - replace (len data =? 0) with true by (symmetry; apply Z.eqb_eq; pose proof (len_nonneg data); lia).
    destruct (Z.ltb_spec 0 (readableBytes (outputBuffer_ (set_input b c)))).
    + eexists; split; [done|]. split_and!; try (cbn; lia); [by apply inv_disconnecting|].
      etrans; [exact E1|]. split; cbn; try done. destruct U as [-> | ->]; simpl; lia.
    + destruct (handleClose_ok user (set_input b c) I1 U) as (c' & -> & ? & ? & _ & _ & L); [cbn; lia|].
      exists c'. split_and!; try done; [by etrans|cbn in L; lia].
Qed.

(** The queue and the kernel after a write of [n] of the queued bytes. *)
Lemma inv_written c n out :
  conn_inv c -> up c -> wrShut_ c = false -> 0 <= n <= len (contents (outputBuffer_ c)) ->
  out = retrieve (outputBuffer_ c) n -> forall pc,
  chan_inv pc.1 pc.2 -> events_ pc.2 = wanted (state_ c) (drop (Z.to_nat n) (contents (outputBuffer_ c))) ->
  conn_inv (set_registration pc (set_output out
    (set_kernel false (wire_ c ++ take (Z.to_nat n) (contents (outputBuffer_ c))) (S (nwrites_ c)) c))) /\
  contents out = drop (Z.to_nat n) (contents (outputBuffer_ c)).
Proof.
  intros I U Hsh Hn -> pc H1 H2.
  destruct (retrieve_spec (outputBuffer_ c) n (ci_out _ I)) as (Hw & Hc & Hb); [lia|].
  split; [|done]. destruct I. split; cbn; try done.
  - by rewrite Hc, <- app_assoc, take_drop.
  - by rewrite Hb.
  - by rewrite Hc.
Qed.

(** [writeTo] offers the kernel exactly the queued bytes. *)
Lemma handleWrite_ok user c :
  conn_inv c -> len (accepted_ c) + total_send (user OnWriteComplete) < 2 ^ 60 ->
  exists c', handleWrite user c = Some c' /\ conn_inv c' /\ evolves c c' /\
    len (accepted_ c') <= len (accepted_ c) + total_send (user OnWriteComplete).
Proof.
  intros I Hl. unfold handleWrite. pose proof (total_send_nonneg (user OnWriteComplete)).
  assert (exists c', Some c = Some c' /\ conn_inv c' /\ evolves c c' /\
    len (accepted_ c') <= len (accepted_ c) + total_send (user OnWriteComplete)) as Same.
  { exists c. split_and!; try done. lia. }
  destruct (isWriting (channel_ c)) eqn:Ew; [|done]. pose proof (wanted_writing c I) as Hw. rewrite Ew in Hw.
  symmetry in Hw. rewrite !andb_true_iff, !negb_true_iff, !bool_decide_eq_false in Hw. destruct Hw as [[Hs1 Hs2] Ho].
  assert (up c) as U by (unfold up; destruct (state_ c); tauto).
  assert (wrShut_ c = false) as Hsh.
  { destruct (wrShut_ c) eqn:E; [|done]. destruct (ci_shut _ I E) as [?|[_ ?]]; done. }
  rewrite writeCore_spec by apply I. unfold socket_write at 1. rewrite Hsh.
  destruct (answer_ c (nwrites_ c) (len (contents (outputBuffer_ c)))) as [e|n] eqn:Ea; cbn [mbind option_bind].
  { cbn. eexists; split; [done|]. split_and!; [|by split|cbn; lia]. destruct I. split; cbn; auto. done. }
  apply (ci_answer _ I) in Ea. set (out := retrieve (outputBuffer_ _) n).
  pose proof (inv_written c n out I U Hsh Ea eq_refl) as W.
  destruct (retrieve_spec (outputBuffer_ c) n (ci_out _ I)) as (Hw & Hc & _); [lia|].
  change (retrieve (outputBuffer_ c) n) with out in Hw, Hc. rewrite readable_contents by done.
  set (c2 := set_output out _) in *.
  assert (contents out <> [] -> conn_inv c2) as Keep.
  { intros Hn. apply (W (poller_ c, channel_ c)); [apply I|]. cbn [snd].
    rewrite (ci_events _ I), !up_wanted, !bool_decide_false; try done. by rewrite <- Hc. }
  assert (evolves c c2) as Ec2 by by split.
  destruct (Z.ltb_spec 0 n) as [Hn|Hn]; cycle 1.
  { eexists; split; [done|]. split_and!; [|done|cbn; lia]. apply Keep. rewrite Hc.
    replace n with 0 by lia. by rewrite drop_0. }
  cbn [outputBuffer_ c2 set_output]. destruct (Z.eqb_spec (len (contents out)) 0) as [H0|H0]; cycle 1.
  { eexists; split; [done|]. split_and!; [|done|cbn; lia]. apply Keep. intros E. by rewrite E in H0. }
  assert (contents out = []) as Eo by (destruct (contents out); [done|unfold len in H0; simpl in H0; lia]).
  destruct (update_events c (Z.land (events_ (channel_ c)) (Z.lnot kWriteEvent)) (ci_chan _ I)) as [H1 H2].
  assert (conn_inv (conn_disableWriting c2)) as I3.
  { apply (W (disableWriting (poller_ c) (channel_ c))); [exact H1|]. etrans; [exact H2|].
    rewrite <- Hc, Eo, (ci_events _ I), !up_wanted, bool_decide_false by done. done. }
  set (c3 := conn_disableWriting c2) in *.
  assert (evolves c c3) as Ec3.
  { split; try done.
    exact (chan_update_revents (poller_ c) (set_events (channel_ c) (Z.land (events_ (channel_ c)) (Z.lnot kWriteEvent)))). }
  assert (exists c4, (if writeCb_ c3 then perform (user OnWriteComplete) c3 else Some c3) = Some c4 /\ conn_inv c4 /\
    evolves c3 c4 /\ len (accepted_ c4) <= len (accepted_ c) + total_send (user OnWriteComplete)) as (c4 & -> & I4 & E4 & L4).
  { destruct (writeCb_ c3).
    - destruct (conn_perform_ok (user OnWriteComplete) c3 I3) as (c4 & ? & ? & ? & ?); [done|].
      exists c4. split_and!; try done. by apply acted_evolves.
    - exists c3. split_and!; try done. cbn. lia. }
  cbn [mbind option_bind]. eexists; split; [done|]. case_bool_decide as Es.
  - split; [apply inv_shutdownInLoop; auto|]. split; [|unfold shutdownInLoop; by destruct (negb _)].
    etrans; [exact Ec3|]. etrans; [exact E4|]. unfold shutdownInLoop. by destruct (negb _); split.
  - split_and!; try done. by etrans.
Qed.

Lemma connectEstablished_ok user c :
  conn_inv c -> state_ c = kConnecting -> len (accepted_ c) + total_send (user OnConnection) < 2 ^ 60 ->
  exists c', connectEstablished user c = Some c' /\ conn_inv c' /\ evolves c c' /\
    len (accepted_ c') <= len (accepted_ c) + total_send (user OnConnection).
Proof.
  intros I Hs Hl. unfold connectEstablished. case_guard; [|done]. cbn [mbind option_bind].
  set (c1 := count_up _). destruct (ci_fresh _ I Hs) as [Ha Hp].
  assert (contents (outputBuffer_ c) = []) as Ho.
  { pose proof (ci_stream _ I) as E. rewrite Ha in E. by destruct (wire_ c). }
  assert (conn_inv c1) as I1.
  { destruct (update_events (set_channel (tie (channel_ c)) c) (Z.lor (events_ (channel_ c)) kReadEvent) (ci_chan _ I))
      as [H1 H2]. destruct I. split; try done; cbn.
    - etrans; [exact H2|]. rewrite ci_events0, Hs, Ho. done.
    - intros Hn. destruct Hn. by left.
    - intros E. apply ci_shut0 in E. rewrite Hs in E. destruct E as [|[]]; done.
    - rewrite Hp. by intros ?%not_elem_of_nil.
    - rewrite ci_ups0, Hs. done.
    - rewrite ci_downs0, Hs. done. }
  destruct (conn_perform_ok (user OnConnection) c1 I1) as (c2 & -> & I2 & A & L); [done|].
  exists c2. split_and!; try done. etrans; [|by apply acted_evolves]. split; cbn; try done; [rewrite Hs; simpl; lia|].
  exact (chan_update_revents (poller_ c) (set_events (tie (channel_ c)) (Z.lor (events_ (channel_ c)) kReadEvent))).
Qed.

(** [remove] succeeds on a connection that is down. *)
Lemma remove_ok c :
  conn_inv c -> ~ up c -> exists pc, chan_remove (poller_ c) (channel_ c) = Some pc /\
    conn_inv (set_registration pc c) /\ revents_ pc.2 = revents_ (channel_ c).
Proof.
  intros I Hu. pose proof (chan_remove_spec (poller_ c) (channel_ c) (ci_chan _ I)) as R.
  assert (events_ (channel_ c) = 0) as He.
  { rewrite (ci_events _ I). unfold up, wanted in *. destruct (state_ c); tauto. }
  destruct (chan_remove (poller_ c) (channel_ c)) as [[p ch]|]; [|done].
  destruct R as (_ & Hi & _ & (_ & Hf & Hr & _) & Hidx & Hev). exists (p, ch). split; [done|]. split; [|done].
  destruct I. split; cbn; auto.
  - by rewrite Hev, <- He, ci_events0.
  - intros _. destruct Hi as [(_ & _ & _ & ? & _)|[(? & _)|(? & _)]]; [done|lia|lia].
Qed.

Lemma connectDestroyed_ok user c :
  conn_inv c -> state_ c <> kDisconnecting -> len (accepted_ c) + total_send (user OnConnection) < 2 ^ 60 ->
  exists c', connectDestroyed user c = Some c' /\ conn_inv c' /\ evolves c c' /\
    len (accepted_ c') <= len (accepted_ c) + total_send (user OnConnection).
Proof.
  intros I Hs Hl. unfold connectDestroyed. pose proof (total_send_nonneg (user OnConnection)).
  assert (exists c1, (if bool_decide (state_ c = kConnected) then
      perform (user OnConnection) (count_down (conn_disableAll (set_state kDisconnected c))) else Some c) = Some c1 /\
    conn_inv c1 /\ evolves c c1 /\ ~ up c1 /\
    len (accepted_ c1) <= len (accepted_ c) + total_send (user OnConnection)) as (c1 & -> & I1 & E1 & U1 & L1).
  { case_bool_decide as E.
    - destruct (conn_perform_ok (user OnConnection) _ (inv_down c I (or_introl E))) as (c1 & -> & ? & A & ?); [done|].
      pose proof (ac_class _ _ A) as Hc. cbn in Hc. exists c1. split_and!; try done.
      + etrans; [apply down_evolves; by left|by apply acted_evolves].
      + unfold up. rewrite Hc. by intros [|].
    - exists c. split_and!; try done; [|lia]. intros [|]; done. }
  cbn [mbind option_bind]. destruct (remove_ok c1 I1 U1) as (pc & -> & ? & ?). cbn [mbind option_bind].
  eexists; split; [done|]. split_and!; try done. etrans; [exact E1|by split].
Qed.

Lemma forceCloseInLoop_ok user c :
  conn_inv c -> len (accepted_ c) + total_send (user OnConnection) < 2 ^ 60 ->
  exists c', forceCloseInLoop user c = Some c' /\ conn_inv c' /\ evolves c c' /\
    len (accepted_ c') <= len (accepted_ c) + total_send (user OnConnection).
Proof.
  intros I Hl. unfold forceCloseInLoop. pose proof (total_send_nonneg (user OnConnection)).
  destruct (_ || _) eqn:E.
  - rewrite orb_true_iff, !bool_decide_eq_true in E.
    destruct (handleClose_ok user c I E Hl) as (c' & ? & ? & ? & _ & _ & ?). eauto.
  - exists c. split_and!; try done. lia.
Qed.

Definition task_bytes (t : task) : Z := match t with TSend m => len m | _ => 0 end.

(** Running the oldest functor; a destruction must not find the connection
    half-closed. *)
Lemma run_task_ok t ts user c :
  conn_inv c -> pending_ c = t :: ts -> (t = TDestroyed -> state_ c <> kDisconnecting) ->
  len (accepted_ c) + user_total user + task_bytes t < 2 ^ 60 ->
  exists c', run_task t user (set_pending ts c) = Some c' /\ conn_inv c' /\ evolves c c'.
Proof.
  intros I Hp Hd Hl. unfold user_total in Hl.
  pose proof (total_send_nonneg (user OnConnection)). pose proof (total_send_nonneg (user OnMessage)).
  pose proof (total_send_nonneg (user OnWriteComplete)). pose proof (len_nonneg (accepted_ c)).
  assert (state_ c <> kConnecting) as Hn by (intros E; destruct (ci_fresh _ I E); congruence).
  assert (conn_inv (set_pending ts c)) as I1.
  { destruct I. split; cbn; auto; [done|]. intros Hin. apply ci_tasks0. rewrite Hp. set_solver. }
  assert (evolves c (set_pending ts c)) as E1 by by split.
  destruct t as [m| | | |]; cbn [run_task task_bytes] in *.
  - destruct (sendInLoop_ok m _ I1) as (c' & -> & ? & ? & ? & ?); [done|cbn; lia|].
    exists c'. split_and!; try done. etrans; [exact E1|]. by apply acted_evolves, (acted_send m).
  - eexists; split; [done|]. split; [apply inv_shutdownInLoop; [done|apply (ci_tasks _ I); rewrite Hp; set_solver]|].
    unfold shutdownInLoop. by destruct (negb _); split.
  - destruct (forceCloseInLoop_ok user _ I1) as (c' & -> & ? & ? & _); [cbn; lia|].
    exists c'. split_and!; try done. by etrans.
  - destruct (conn_perform_ok (user OnWriteComplete) _ I1) as (c' & -> & ? & ? & _); [cbn; lia|].
    exists c'. split_and!; try done. etrans; [exact E1|by apply acted_evolves].
  - destruct (connectDestroyed_ok user _ I1) as (c' & -> & ? & ? & _); [by apply Hd|cbn; lia|].
    exists c'. split_and!; try done. by etrans.
Qed.

(** ** Event dispatch *)

(** What [epoll_wait] may report about a TCP socket: a hang-up without readable
    data comes without any other read event. *)
Definition revents_ok (revents : Z) : Prop :=
  has_bits revents EPOLLHUP = true -> has_bits revents EPOLLIN = false ->
  has_bits revents (Z.lor (Z.lor EPOLLIN EPOLLPRI) EPOLLRDHUP) = false.

Lemma inv_eventHandling c b : conn_inv c -> conn_inv (set_channel (set_eventHandling (channel_ c) b) c).
Proof. intros I. by apply inv_set_channel; [|apply I|..]. Qed.

(** One optional callback of the dispatch. *)
Lemma optional_step (b : bool) (f : TcpConnection -> option TcpConnection) c n :
  conn_inv c -> 0 <= n ->
  (b = true -> exists c', f c = Some c' /\ conn_inv c' /\ evolves c c' /\
     len (accepted_ c') <= len (accepted_ c) + n) ->
  exists c', (if b then run_cb (Some f) c else Some c) = Some c' /\ conn_inv c' /\ evolves c c' /\
    len (accepted_ c') <= len (accepted_ c) + n /\ (b = false -> c' = c).
Proof.
  intros I Hn Hf. destruct b.
  - destruct (Hf eq_refl) as (c' & ? & ? & ? & ?). by exists c'.
  - exists c. split_and!; try done. lia.
Qed.

(** A dispatch is its optional callbacks in order; the read callback does not run
    on a connection the hang-up has closed. *)
Lemma conn_handleEvent_steps revents rd user c :
  conn_inv c -> up c -> revents_ok revents -> read_ok rd c ->
  len (accepted_ c) + 2 * user_total user < 2 ^ 60 ->
  let s1 := set_channel (set_eventHandling (setRevents (channel_ c) revents) true) c in
  let reading := has_bits revents (Z.lor (Z.lor EPOLLIN EPOLLPRI) EPOLLRDHUP) in
  exists s2 s3 s4,
    (if has_bits revents EPOLLHUP && negb (has_bits revents EPOLLIN) then handleClose user s1 else Some s1) = Some s2 /\
    (if reading then handleRead rd user s2 else Some s2) = Some s3 /\ (reading = true -> s2 = s1) /\
    (if has_bits revents EPOLLOUT then handleWrite user s3 else Some s3) = Some s4 /\
    conn_handleEvent revents rd user c = Some (set_channel (set_eventHandling (channel_ s4) false) s4) /\
    conn_inv s2 /\ conn_inv s3 /\ conn_inv s4 /\ evolves s1 s2 /\ evolves s2 s3 /\ evolves s3 s4.
Proof.
  intros I U Hre Hrd Hl s1 b3. unfold user_total in Hl.
  pose proof (total_send_nonneg (user OnConnection)) as N1. pose proof (total_send_nonneg (user OnMessage)) as N2.
  pose proof (total_send_nonneg (user OnWriteComplete)) as N3.
  unfold conn_handleEvent, handleEvent. set (s0 := set_channel (setRevents (channel_ c) revents) c).
  set (cbs := mkCallbacks _ _ _ _).
  replace (if tied_ (channel_ s0) then handleEventWithGuard channel_ set_channel cbs s0
           else handleEventWithGuard channel_ set_channel cbs s0)
    with (handleEventWithGuard channel_ set_channel cbs s0) by by destruct (tied_ _).
  unfold handleEventWithGuard. cbn [closeCallback_ errorCallback_ readCallback_ writeCallback_ cbs].
  change (set_channel (set_eventHandling (channel_ s0) true) s0) with s1.
  assert (conn_inv s1) as I1.
  { apply (inv_eventHandling s0 true), inv_set_channel; [done|apply I|done..]. }
  change (revents_ (channel_ s1)) with revents. change (accepted_ c) with (accepted_ s1) in Hl.
  set (b1 := has_bits revents EPOLLHUP && _).
  destruct (optional_step b1 (handleClose user) s1 (total_send (user OnConnection)) I1 N1)
    as (s2 & Q2 & I2 & E2 & L2 & K2).
  { intros _. destruct (handleClose_ok user s1 I1 U) as (c' & ? & ? & ? & _ & _ & ?); [lia|]. eauto. }
  rewrite Q2. cbn [mbind option_bind]. rewrite (ev_revents _ _ E2). change (revents_ (channel_ s1)) with revents.
  set (b2 := has_bits revents EPOLLERR).
  replace (if b2 then run_cb (Some handleError) s2 else Some s2) with (Some s2) by by destruct b2.
  cbn [mbind option_bind]. rewrite (ev_revents _ _ E2). change (revents_ (channel_ s1)) with revents.
  change (has_bits revents (Z.lor (Z.lor EPOLLIN EPOLLPRI) EPOLLRDHUP)) with b3.
  assert (b3 = true -> s2 = s1) as Hsame.
  { intros Hb3. apply K2. subst b1 b3. destruct (has_bits revents EPOLLHUP) eqn:Hh; [|done].
    destruct (has_bits revents EPOLLIN) eqn:Hi; [done|]. by rewrite Hre in Hb3. }
  destruct (optional_step b3 (handleRead rd user) s2
      (total_send (user OnConnection) + total_send (user OnMessage)) I2 ltac:(lia)) as (s3 & Q3 & I3 & E3 & L3 & _).
  { intros Hb3. rewrite (Hsame Hb3). destruct (handleRead_ok rd user s1 I1 U Hrd) as (c' & ? & ? & ? & ?); [lia|].
    exists c'. split_and!; try done. lia. }
  rewrite Q3. cbn [mbind option_bind]. rewrite (ev_revents _ _ E3), (ev_revents _ _ E2).
  change (revents_ (channel_ s1)) with revents. set (b4 := has_bits revents EPOLLOUT).
  destruct (optional_step b4 (handleWrite user) s3 (total_send (user OnWriteComplete)) I3 N3)
    as (s4 & Q4 & I4 & E4 & L4 & _).
  { intros _. apply handleWrite_ok; [done|lia]. }
  rewrite Q4. exists s2, s3, s4. split_and!; done.
Qed.

Lemma conn_handleEvent_ok revents rd user c :
  conn_inv c -> up c -> revents_ok revents -> read_ok rd c ->
  len (accepted_ c) + 2 * user_total user < 2 ^ 60 ->
  exists c', conn_handleEvent revents rd user c = Some c' /\ conn_inv c' /\
    (rank (state_ c) <= rank (state_ c'))%nat /\ accepted_ c `prefix_of` accepted_ c' /\
    (broken_ c = true -> broken_ c' = true).
Proof.
  intros I U Hre Hrd Hl.
  destruct (conn_handleEvent_steps revents rd user c I U Hre Hrd Hl) as (s2 & s3 & s4 & _ & _ & _ & _ & -> & _ & _ & I4 & E2 & E3 & E4).
  eexists; split; [done|]. split; [by apply inv_eventHandling|]. destruct (transitivity E2 (transitivity E3 E4)). done.
Qed.

(** ** Executions that respect the contracts *)

(** Events come from the kernel only for a registered descriptor; a message is sent
    from another thread only to a connection that has been up; the store of a
    [shutdown] or [forceClose] on another thread does not find that the connection has
    gone down since its check (see [remote_forceClose_race]), and its post follows the
    store; a destruction does not find the connection half-closed; and no connection
    accepts 2^60 bytes. *)
Definition conn_event_ok (e : conn_event) (c : TcpConnection) : Prop :=
  match e with
  | Established user => state_ c = kConnecting /\ len (accepted_ c) + user_total user < 2 ^ 60
  | Ready revents rd user =>
      is_Some (kernel_ (poller_ c) !! fd_ (channel_ c)) /\ revents_ok revents /\ read_ok rd c /\
      len (accepted_ c) + 2 * user_total user < 2 ^ 60
  | RunTask user =>
      match pending_ c with
      | [] => True
      | t :: _ => (t = TDestroyed -> state_ c <> kDisconnecting) /\
                  len (accepted_ c) + user_total user + task_bytes t < 2 ^ 60
      end
  | UserAct a => len (accepted_ c) + act_bytes a < 2 ^ 60
  | RemoteSend seen _ => seen = kConnected -> state_ c <> kConnecting
  | RemoteStore force seen => close_check force seen = true -> up c
  | RemotePost _ => state_ c = kDisconnecting \/ state_ c = kDisconnected
  | PostDestroyed => state_ c <> kConnecting
  end.

Fixpoint conn_events_ok (es : list conn_event) (c : TcpConnection) : Prop :=
  match es with
  | [] => True
  | e :: es => conn_event_ok e c /\ match conn_step e c with Some c' => conn_events_ok es c' | None => True end
  end.

Lemma conn_step_ok e c :
  conn_inv c -> conn_event_ok e c ->
  exists c', conn_step e c = Some c' /\ conn_inv c' /\ (rank (state_ c) <= rank (state_ c'))%nat /\
    accepted_ c `prefix_of` accepted_ c'.
Proof.
  intros I He. destruct e as [user|revents rd user|user|a|seen m|force seen|force|]; cbn [conn_step conn_event_ok] in *.
  - destruct He as [Hs Hl]. unfold user_total in Hl. pose proof (total_send_nonneg (user OnMessage)).
    pose proof (total_send_nonneg (user OnWriteComplete)).
    destruct (connectEstablished_ok user c I Hs) as (c' & ? & ? & [] & _); [lia|]. eauto 10.
  - destruct He as (Hk & Hre & Hrd & Hl).
    assert (up c) as U.
    { assert (up c \/ ~ up c) as [|Hn] by (unfold up; destruct (state_ c); intuition congruence); [done|].
      rewrite (ci_idle _ I Hn) in Hk. by destruct Hk. }
    destruct (conn_handleEvent_ok revents rd user c I U Hre Hrd Hl) as (c' & ? & ? & ? & ? & _). eauto 10.
  - destruct (pending_ c) as [|t ts] eqn:Hp; [eauto 10|]. destruct He as [Hd Hl].
    destruct (run_task_ok t ts user c I Hp Hd Hl) as (c' & ? & ? & []). eauto 10.
  - destruct (perform_act_ok a c I He) as (c' & ? & ? & A & _). destruct (acted_evolves _ _ A). eauto 10.
  - eexists; split; [done|]. case_bool_decide as E; [|eauto]. split_and!; [|done|done].
    apply inv_queue; [done|auto|done].
  - eexists; split; [done|]. destruct (close_check force seen); [|done]. specialize (He eq_refl).
    split_and!; [by apply inv_disconnecting|cbn|done]. destruct He as [-> | ->]; simpl; lia.
  - eexists; split; [done|]. split_and!; [|done|done]. apply inv_queue; [done|destruct He; congruence|auto].
  - eexists; split; [done|]. split_and!; [|done|done]. by apply inv_queue.
Qed.

Lemma conn_run_ok es : forall c,
  conn_inv c -> conn_events_ok es c ->
  exists c', conn_run es c = Some c' /\ conn_inv c' /\ accepted_ c `prefix_of` accepted_ c' /\
    (rank (state_ c) <= rank (state_ c'))%nat.
Proof.
  induction es as [|e es IH]; intros c I He; cbn [conn_run]; [eauto|]. destruct He as [He Hes].
  destruct (conn_step_ok e c I He) as (c1 & E & I1 & R1 & P1). rewrite E in Hes |- *. cbn [mbind option_bind].
  destruct (IH c1 I1 Hes) as (c2 & -> & I2 & P2 & R2). exists c2. split_and!; try done; [by etrans|lia].
Qed.

Lemma conn_events_ok_app es1 es2 c c1 :
  conn_run es1 c = Some c1 -> conn_events_ok (es1 ++ es2) c -> conn_events_ok es1 c /\ conn_events_ok es2 c1.
Proof.
  revert c. induction es1 as [|e es1 IH]; intros c; cbn [conn_run app conn_events_ok]; [by intros [= ->]|].
  destruct (conn_step e c) as [c'|]; [|done]. cbn [mbind option_bind]. intros E [He Hes]. naive_solver.
Qed.

Lemma conn_events_ok_prefix es1 es2 c : conn_events_ok (es1 ++ es2) c -> conn_events_ok es1 c.
Proof.
  revert c. induction es1 as [|e es1 IH]; intros c; cbn [app conn_events_ok]; [done|].
  destruct (conn_step e c); naive_solver.
Qed.

(** Two points of an execution. *)
Lemma conn_run_advances es1 es2 es3 c :
  conn_inv c -> conn_events_ok (es1 ++ es2 ++ es3) c ->
  exists c1 c2, conn_run es1 c = Some c1 /\ conn_run es2 c1 = Some c2 /\ (rank (state_ c1) <= rank (state_ c2))%nat.
Proof.
  intros I He. destruct (conn_run_ok es1 c I) as (c1 & E1 & I1 & _); [by eapply conn_events_ok_prefix|].
  destruct (conn_events_ok_app es1 (es2 ++ es3) c c1 E1 He) as [_ He2].
  destruct (conn_run_ok es2 c1 I1) as (c2 & E2 & _ & _ & R); [by eapply conn_events_ok_prefix|]. eauto.
Qed.

Lemma conn_inv_new ptr fd p wcb answer :
  channels_ p !! fd = None -> kernel_ p !! fd = None -> (forall k l n, answer k l = IoOk n -> 0 <= n <= l) ->
  conn_inv (conn_new ptr fd p wcb answer).
Proof.
  intros Hc Hk Ha. split; cbn; try done.
  - left. done.
  - by intros ?%not_elem_of_nil.
Qed.

(** C36: The connection state machine.  On every execution that respects the
    contracts (among them that the connection does not go down between the check and
    the store of a [shutdown] or [forceClose] on another thread), no assertion fails and: the bytes the kernel took followed by the
    queued ones are exactly the bytes accepted, in order; while the connection is
    up it watches for reading, and for writing exactly when output is queued, and
    when it is not up the kernel does not watch it at all; the write side is shut
    down only when everything accepted is on the wire; between any two points the
    state only advances, from connecting to connected, disconnecting and
    disconnected; and the connection is reported up at most once, down at most once and only after it was up, and
    closed at most once. *)
Theorem conn_lifecycle es ptr fd p wcb answer :
  channels_ p !! fd = None -> kernel_ p !! fd = None -> (forall k l n, answer k l = IoOk n -> 0 <= n <= l) ->
  conn_events_ok es (conn_new ptr fd p wcb answer) ->
  exists c, conn_run es (conn_new ptr fd p wcb answer) = Some c /\
    accepted_ c = wire_ c ++ contents (outputBuffer_ c) /\
    events_ (channel_ c) = wanted (state_ c) (contents (outputBuffer_ c)) /\
    (~ up c -> kernel_ (poller_ c) !! fd_ (channel_ c) = None) /\
    (wrShut_ c = true -> state_ c = kDisconnected \/ state_ c = kDisconnecting /\ wire_ c = accepted_ c) /\
    (closes_ c <= downs_ c <= ups_ c)%nat /\ (ups_ c <= 1)%nat /\
    (state_ c = kDisconnected <-> downs_ c = 1%nat) /\
    forall es1 es2 es3, es = es1 ++ es2 ++ es3 ->
      exists c1 c2, conn_run es1 (conn_new ptr fd p wcb answer) = Some c1 /\ conn_run es2 c1 = Some c2 /\
        (rank (state_ c1) <= rank (state_ c2))%nat.
Proof.
  intros Hc Hk Ha He. pose proof (conn_inv_new ptr fd p wcb answer Hc Hk Ha) as I0.
  destruct (conn_run_ok es _ I0 He) as (c & E & I & _). exists c. destruct I. split_and!; try done.
  - intros [?|[? Ho]]%ci_shut0; [by left|right]. split; [done|]. by rewrite ci_stream0, Ho, app_nil_r.
  - rewrite ci_downs0, ci_ups0. destruct (state_ c); simpl; lia.
  - rewrite ci_ups0. destruct (state_ c); simpl; lia.
  - rewrite ci_downs0. by case_decide.
  - intros es1 es2 es3 ->. by eapply conn_run_advances.
Qed.

(** A kernel that takes at most two bytes per write. *)
Definition two_bytes_kernel (_ : nat) (l : Z) : io_result Z :=
  if l <? 0 then IoErr EAGAIN else IoOk (Z.min l 2).

Lemma two_bytes_kernel_ok k l n : two_bytes_kernel k l = IoOk n -> 0 <= n <= l.
Proof. unfold two_bytes_kernel. destruct (Z.ltb_spec l 0); [done|]. intros [= <-]. lia. Qed.

Definition no_acts (_ : callback) : list act := [].

(** Send five bytes, shut down while they are queued, drain, and close. *)
Definition drain_and_close : list conn_event :=
  [Established no_acts; UserAct (ASend (str "hello")); UserAct AShutdown;
   Ready EPOLLOUT (IoErr EAGAIN) no_acts; Ready EPOLLOUT (IoErr EAGAIN) no_acts;
   Ready EPOLLIN (IoOk []) no_acts; PostDestroyed; RunTask no_acts].

Lemma conn_lifecycle_witness :
  conn_events_ok drain_and_close (conn_new 1 5 EPollPoller_new false two_bytes_kernel) /\
  exists c, conn_run drain_and_close (conn_new 1 5 EPollPoller_new false two_bytes_kernel) = Some c /\
    accepted_ c = wire_ c ++ contents (outputBuffer_ c) /\
    events_ (channel_ c) = wanted (state_ c) (contents (outputBuffer_ c)) /\
    (~ up c -> kernel_ (poller_ c) !! fd_ (channel_ c) = None) /\
    (wrShut_ c = true -> state_ c = kDisconnected \/ state_ c = kDisconnecting /\ wire_ c = accepted_ c) /\
    (closes_ c <= downs_ c <= ups_ c)%nat /\ (ups_ c <= 1)%nat /\
    (state_ c = kDisconnected <-> downs_ c = 1%nat) /\
    forall es1 es2 es3, drain_and_close = es1 ++ es2 ++ es3 ->
      exists c1 c2, conn_run es1 (conn_new 1 5 EPollPoller_new false two_bytes_kernel) = Some c1 /\ conn_run es2 c1 = Some c2 /\
        (rank (state_ c1) <= rank (state_ c2))%nat.
Proof.
  assert (conn_events_ok drain_and_close (conn_new 1 5 EPollPoller_new false two_bytes_kernel)) as He.
  { vm_compute. intuition (try congruence; eauto). }
  split; [exact He|]. apply conn_lifecycle; [done|done|exact two_bytes_kernel_ok|exact He].
Defined.

(** ** Beyond the contracts *)

(** A connection that is half-closed cannot be destroyed: [connectDestroyed]
    only goes down from [kConnected], so in [kDisconnecting], where a server's
    destructor can find it, it runs into the assertion of [Channel::remove]. *)
Theorem destroy_half_closed_aborts user c :
  conn_inv c -> state_ c = kDisconnecting -> connectDestroyed user c = None.
Proof.
  intros I Hs. unfold connectDestroyed. rewrite bool_decide_false by congruence. cbn [mbind option_bind].
  pose proof (chan_remove_spec (poller_ c) (channel_ c) (ci_chan _ I)) as R.
  destruct (chan_remove _ _) as [[p ch]|]; [|done]. destruct R as (E & _).
  rewrite (ci_events _ I), Hs in E. unfold wanted in E. by case_bool_decide.
Qed.

(** The connection of [conn_lifecycle_witness] after the shutdown. *)
Definition half_closed : TcpConnection :=
  default (conn_new 1 5 EPollPoller_new false two_bytes_kernel)
    (conn_run (take 3 drain_and_close) (conn_new 1 5 EPollPoller_new false two_bytes_kernel)).

Lemma half_closed_inv : conn_inv half_closed.
Proof.
  destruct (conn_run_ok (take 3 drain_and_close) (conn_new 1 5 EPollPoller_new false two_bytes_kernel))
    as (c & E & I & _).
  - by apply conn_inv_new; [..|exact two_bytes_kernel_ok].
  - vm_compute. intuition congruence.
  - unfold half_closed. rewrite E. exact I.
Qed.

Lemma destroy_half_closed_aborts_witness : connectDestroyed no_acts half_closed = None.
Proof. apply destroy_half_closed_aborts; [exact half_closed_inv|reflexivity]. Defined.

(** The check of [state_] and the store after it, in [forceClose] and
    [shutdown], are not one atomic step.  If the loop thread closes the
    connection between the two halves of a [forceClose] on another thread, the
    store brings a closed connection back to [kDisconnecting], and the queued
    functor closes it a second time: the connection callback reports down twice
    and the close callback runs twice. *)
Theorem remote_forceClose_race :
  let c0 := conn_new 1 5 EPollPoller_new false two_bytes_kernel in
  exists c1 c2, conn_run [Established no_acts] c0 = Some c1 /\
    state_ c1 = kConnected /\                       (* the other thread reads kConnected *)
    conn_run [Ready EPOLLIN (IoOk []) no_acts;      (* the peer closes: handleClose *)
              RemoteStore true (state_ c1); RemotePost true; (* the other thread stores and posts *)
              RunTask no_acts] c1 = Some c2 /\      (* forceCloseInLoop *)
    downs_ c2 = 2%nat /\ closes_ c2 = 2%nat.
Proof. cbv zeta. do 2 eexists. split; [vm_compute; reflexivity|]. split; [reflexivity|]. by vm_compute. Qed.

(** A message another thread sent while the connection was up is lost if the
    loop thread then shuts down: [shutdown] half-closes the socket at once, ahead
    of the queued message, whose write then fails. *)
Theorem shutdown_overtakes_remote_send :
  let c0 := conn_new 1 5 EPollPoller_new false two_bytes_kernel in
  exists c1 c2, conn_run [Established no_acts; RemoteSend kConnected (str "bye")] c0 = Some c1 /\
    state_ c1 = kConnected /\
    conn_run [UserAct AShutdown; RunTask no_acts] c1 = Some c2 /\
    pending_ c2 = [] /\ wire_ c2 = [] /\ contents (outputBuffer_ c2) = [].
Proof. cbv zeta. do 2 eexists. split; [vm_compute; reflexivity|]. split; [reflexivity|]. by vm_compute. Qed.

(** ** A connection is a transport *)

#[global] Instance tcp_transport_ops : TransportOps TcpConnection := {
  connected := conn_connected;
  send c m := conn_send m c;
  shutdown c := Some (conn_shutdown c);
  forceClose c := Some (conn_forceClose c)
}.

#[global] Instance tcp_transport_laws : TransportLaws TcpConnection.
Proof.
  refine {| t_wf := conn_inv; t_out := accepted_; t_broken := fun c => broken_ c = true |}.
  - intros c m I Hl Hc. cbn [connected tcp_transport_ops] in Hc. unfold conn_connected in Hc.
    apply bool_decide_eq_true in Hc. cbn [send connected tcp_transport_ops]. unfold conn_send, conn_connected.
    rewrite (bool_decide_true _ Hc). destruct (sendInLoop_ok m c I) as (c' & -> & I' & Es & Ht & Hs); [congruence|done|].
    destruct (acted_send m c c' Es Ht Hs) as [_ L]. destruct Ht as [Ht Hb].
    exists c'. rewrite Es, (bool_decide_true _ Hc). split_and!; try done.
    destruct Ht as [?|[_ [?|?]]]; [by left|by right|congruence].
  - intros c m I Hc. cbn in *. unfold conn_connected, conn_send in *. by rewrite Hc.
  - intros c I. cbn. eexists; split; [done|]. split; [by apply inv_conn_shutdown|].
    unfold conn_shutdown, conn_connected, shutdownInLoop.
    destruct (bool_decide_reflect (state_ c = kConnected)) as [E|E]; [by destruct (negb _)|].
    split_and!; try done. by apply bool_decide_false.
  - intros c I. cbn. eexists; split; [done|]. split; [by apply inv_conn_forceClose|].
    unfold conn_forceClose, conn_connected. destruct (_ || _) eqn:E; [done|].
    rewrite orb_false_iff in E. destruct E as [-> _]. done.
Defined.
