(* ===== verification/TcpCallback.v ===== *)
(** * TcpCallback: message callbacks on a TCP connection

    The servers of this repository write their message callback against
    [Transport] ([include/Transport.h]).  Here such a callback is run on a
    transport that records the calls, and what it does to a [TcpConnection] is
    what performing the recorded calls does: so the events of the connection, which
    take the user's calls as a list, cover every callback. *)
From S2P Require Import Prelude Buffer Channel Transport TcpConnection.

(** ** A transport that records *)

Record Trace := mkTrace { tr_closed : bool; tr_log : list act }.

Definition trace_new : Trace := mkTrace false [].

#[global] Instance trace_ops : TransportOps Trace := {
  connected t := negb (tr_closed t);
  send t m := Some (if tr_closed t then t else mkTrace false (tr_log t ++ [ASend m]));
  shutdown t := Some (if tr_closed t then t else mkTrace true (tr_log t ++ [AShutdown]));
  forceClose t := Some (mkTrace true (tr_log t ++ [AForceClose]))
}.

(** What a list of calls sends, and how much input it consumes. *)
Fixpoint sends (acts : list act) : bytes :=
  match acts with
  | [] => []
  | ASend m :: acts => m ++ sends acts
  | _ :: acts => sends acts
  end.

Fixpoint takes (acts : list act) : nat :=
  match acts with
  | [] => 0
  | ARetrieve n :: acts => n + takes acts
  | _ :: acts => takes acts
  end.

Definition is_send (a : act) : bool := match a with ASend _ => true | _ => false end.

Definition on_transport (a : act) : bool := match a with ARetrieve _ => false | _ => true end.

(** Calls that leave the connection open. *)
Definition mild (a : act) : bool := match a with ASend _ | ARetrieve _ => true | AShutdown | AForceClose => false end.

Lemma sends_app l1 l2 : sends (l1 ++ l2) = sends l1 ++ sends l2.
Proof. induction l1 as [|[] l1 IH]; cbn; rewrite ?IH, ?app_assoc; done. Qed.

Lemma takes_app l1 l2 : takes (l1 ++ l2) = (takes l1 + takes l2)%nat.
Proof. induction l1 as [|[] l1 IH]; cbn; rewrite ?IH; lia. Qed.

Lemma is_send_takes l : forallb is_send l = true -> takes l = 0%nat /\ forallb mild l = true.
Proof. induction l as [|[] l IH]; cbn; [done|exact IH|done..]. Qed.

Lemma total_sends acts : total_send acts = len (sends acts).
Proof. unfold total_send. induction acts as [|[] acts IH]; cbn [foldr sends act_bytes]; rewrite ?len_app, ?IH; done. Qed.

#[global] Instance trace_laws : TransportLaws Trace.
Proof.
  refine {| t_wf := fun t => tr_closed t || forallb is_send (tr_log t) = true; t_out := fun t => sends (tr_log t); t_broken := fun _ => False |}.
  - intros [[] l] m; cbn; [done|]. intros Hw _ _. eexists. split; [done|]. cbn. rewrite forallb_app, Hw, sends_app, len_app. cbn.
    rewrite app_nil_r. split_and!; auto. lia.
  - by intros [[] l] m.
  - intros [[] l] Hw; cbn; (eexists; split; [done|]); [done|]. cbn. by rewrite sends_app, app_nil_r.
  - intros [c l] Hw. cbn. eexists. split; [done|]. cbn. by rewrite sends_app, app_nil_r.
Defined.

(** ** Performing the record *)

Lemma perform_app l1 l2 c : perform (l1 ++ l2) c = c ← perform l1 c; perform l2 c.
Proof. revert c. induction l1 as [|a l1 IH]; intros c; cbn; [done|]. destruct (perform_act a c); cbn; [apply IH|done]. Qed.

(** [c] is [c0] after the recorded calls. *)
Definition follows (c0 : TcpConnection) (t : Trace) (c : TcpConnection) : Prop :=
  perform (tr_log t) c0 = Some c /\ forallb on_transport (tr_log t) = true /\ (tr_closed t = true -> state_ c <> kConnected).

Lemma follows_new c : follows c trace_new c.
Proof. done. Qed.

Lemma follows_send c0 t c m c' : follows c0 t c -> send c m = Some c' -> exists t', send t m = Some t' /\ follows c0 t' c'.
Proof.
  intros (Hp & Ho & Hc) E. cbn in *. eexists. split; [done|]. destruct (tr_closed t) eqn:Ht.
  - unfold conn_send in E. rewrite bool_decide_false in E by auto. injection E as <-. split_and!; [done..|by auto].
  - split_and!; cbn; [|by rewrite forallb_app, Ho|done]. rewrite perform_app, Hp. cbn. by rewrite E.
Qed.

Lemma follows_shutdown c0 t c c' : follows c0 t c -> shutdown c = Some c' -> exists t', shutdown t = Some t' /\ follows c0 t' c'.
Proof.
  intros (Hp & Ho & Hc) [= <-]. cbn in *. eexists. split; [done|]. destruct (tr_closed t) eqn:Ht.
  - unfold conn_shutdown. rewrite bool_decide_false by auto. split_and!; [done..|by auto].
  - split_and!; cbn; [by rewrite perform_app, Hp|by rewrite forallb_app, Ho|]. intros _. unfold conn_shutdown, shutdownInLoop. case_bool_decide; [|done].
    by destruct (negb _).
Qed.

Lemma follows_forceClose c0 t c c' : follows c0 t c -> forceClose c = Some c' -> exists t', forceClose t = Some t' /\ follows c0 t' c'.
Proof.
  intros (Hp & Ho & _) [= <-]. cbn in *. eexists. split; [done|]. split_and!; cbn; [by rewrite perform_app, Hp|by rewrite forallb_app, Ho|]. intros _.
  unfold conn_forceClose. destruct (bool_decide_reflect (state_ c = kConnected)); [done|]. cbn. by case_bool_decide.
Qed.

(** *** Callbacks

    A callback follows when its results on the connection are those on the
    record. *)

Definition sim {A B} (R : A -> B -> Prop) (m : option A) (n : option B) : Prop :=
  forall a, m = Some a -> exists b, n = Some b /\ R a b.

Lemma sim_ret {A B} (R : A -> B -> Prop) a b : R a b -> sim R (Some a) (Some b).
Proof. intros Hr a' [= <-]. eauto. Qed.

Lemma sim_bind {A B A' B'} (R : A -> B -> Prop) (S : A' -> B' -> Prop) m n f g :
  sim R m n -> (forall a b, R a b -> sim S (f a) (g b)) -> sim S (m ≫= f) (n ≫= g).
Proof. intros Hm Hf a (x & Hx & Ha)%bind_Some. destruct (Hm x Hx) as (y & -> & Hy). cbn. by apply (Hf x y Hy). Qed.

(** What both compute alike. *)
Lemma sim_same {A A' B'} (S : A' -> B' -> Prop) (m : option A) f g : (forall a, sim S (f a) (g a)) -> sim S (m ≫= f) (m ≫= g).
Proof. intros Hf. apply (sim_bind eq); [intros a ->; eauto|]. intros a ? <-. apply Hf. Qed.

(** The transport follows, the rest of the result is the same. *)
Definition along (c0 : TcpConnection) (c : TcpConnection) (t : Trace) : Prop := follows c0 t c.
Definition along_with {X} (c0 : TcpConnection) (a : TcpConnection * X) (b : Trace * X) : Prop := follows c0 b.1 a.1 /\ a.2 = b.2.
Definition along_with2 {X Y} (c0 : TcpConnection) (a : TcpConnection * X * Y) (b : Trace * X * Y) : Prop :=
  along_with c0 a.1 b.1 /\ a.2 = b.2.

Lemma sim_send c0 c t m : follows c0 t c -> sim (along c0) (send c m) (send t m).
Proof. intros Hf c' E. by apply (follows_send c0 t c). Qed.
Lemma sim_shutdown c0 c t : follows c0 t c -> sim (along c0) (shutdown c) (shutdown t).
Proof. intros Hf c' E. by apply (follows_shutdown c0 t c). Qed.
Lemma sim_forceClose c0 c t : follows c0 t c -> sim (along c0) (forceClose c) (forceClose t).
Proof. intros Hf c' E. by apply (follows_forceClose c0 t c). Qed.

Create HintDb sim.
#[export] Hint Resolve sim_ret sim_send sim_shutdown sim_forceClose : sim.

(** Sending does not look at the input. *)
Lemma send_input b m c : conn_send m (set_input b c) = set_input b <$> conn_send m c.
Proof.
  unfold conn_send. change (state_ (set_input b c)) with (state_ c). destruct (bool_decide _); [|done]. unfold sendInLoop.
  change (state_ (set_input b c)) with (state_ c). destruct (bool_decide _); [done|].
  change (channel_ (set_input b c)) with (channel_ c). change (outputBuffer_ (set_input b c)) with (outputBuffer_ c).
  assert (forall (fault : bool) n c0, (if negb fault && (0 <? len m - n) then
      out ← append (outputBuffer_ (set_input b c0)) (drop (Z.to_nat n) m);
      Some (if negb (isWriting (channel_ (set_output out (set_input b c0)))) then conn_enableWriting (set_output out (set_input b c0))
            else set_output out (set_input b c0))
    else Some (set_input b c0)) =
    set_input b <$> (if negb fault && (0 <? len m - n) then
      out ← append (outputBuffer_ c0) (drop (Z.to_nat n) m);
      Some (if negb (isWriting (channel_ (set_output out c0))) then conn_enableWriting (set_output out c0) else set_output out c0)
    else Some c0)) as Hq.
  { intros fault n c0. destruct (_ && _); [|done]. cbn. destruct (append _ _); cbn; [|done]. by destruct (negb _). }
  destruct (negb (isWriting (channel_ c)) && _); [|apply (Hq false 0 (set_accepted (accepted_ c ++ m) c))].
  unfold socket_write. change (wrShut_ (set_input b c)) with (wrShut_ c). change (answer_ (set_input b c)) with (answer_ c).
  change (nwrites_ (set_input b c)) with (nwrites_ c). destruct (if wrShut_ c then _ else _) as [e|n].
  - set (fault := negb (e =? EWOULDBLOCK) && _ && _). set (c0 := if fault then _ else _).
    rewrite <- (Hq fault 0). subst c0. by destruct fault.
  - set (c1 := set_kernel (wrShut_ c) (wire_ c ++ take (Z.to_nat n) m) (S (nwrites_ c)) c).
    destruct (_ && writeCb_ _); [exact (Hq false n (set_accepted (accepted_ c ++ m) (queueInLoop TWriteComplete c1)))|].
    exact (Hq false n (set_accepted (accepted_ c ++ m) c1)).
Qed.

Lemma perform_input b acts c :
  forallb on_transport acts = true -> perform acts (set_input b c) = set_input b <$> perform acts c.
Proof.
  revert c. induction acts as [|a acts IH]; intros c; cbn; [done|]. intros [Ha Hs]%andb_prop.
  assert (perform_act a (set_input b c) = set_input b <$> perform_act a c) as ->.
  { destruct a; cbn; [apply send_input|f_equal|f_equal|done].
    - unfold conn_shutdown, shutdownInLoop. cbn. case_bool_decide; [|done]. cbn. by destruct (negb _).
    - unfold conn_forceClose. cbn. by destruct (_ || _). }
  destruct (perform_act a c); cbn; [by apply IH|done].
Qed.

(** ** Consuming the input *)

(** The callbacks take from their buffer by [retrieve] only. *)
Inductive retreat : Buffer -> Buffer -> Prop :=
| retreat_refl b : retreat b b
| retreat_step b n b' : 0 <= n -> retreat (retrieve b n) b' -> retreat b b'.

#[export] Hint Resolve retreat_refl : core.

Lemma retrieve_retrieve b n m : buffer_wf b -> 0 <= n -> 0 <= m -> retrieve (retrieve b n) m = retrieve b (n + m).
Proof.
  destruct b as [v r w]. unfold buffer_wf, retrieve, retrieveAll, readableBytes, kCheapPrepend. cbn. intros Hb Hn Hm.
  rewrite (u64_small (w - r)) by lia. destruct (Z.ltb_spec n (w - r)); cbn.
  - rewrite (u64_small (r + n)), (u64_small (w - (r + n))) by lia.
    destruct (Z.ltb_spec m (w - (r + n))), (Z.ltb_spec (n + m) (w - r)); try lia; [|done]. f_equal. f_equal. lia.
  - rewrite !(proj2 (Z.ltb_ge _ _)) by (try change (u64 (8 - 8)) with 0; lia). done.
Qed.

Lemma retrieve_0 b : buffer_wf b -> contents b <> [] -> retrieve b 0 = b.
Proof.
  intros Hb Hne. unfold retrieve. rewrite readable_contents by done. destruct (contents b) as [|x l]; [done|].
  rewrite len_cons, (proj2 (Z.ltb_lt 0 (1 + len l))) by (pose proof (len_nonneg l); lia).
  destruct b as [v r w]. unfold buffer_wf, kCheapPrepend in Hb. cbn in *. f_equal. rewrite u64_small; lia.
Qed.

(** However often a callback retrieves, it amounts to one [retrieve]. *)
Lemma retreat_retrieve b b' :
  retreat b b' -> buffer_wf b -> contents b <> [] ->
  b' = retrieve b (Z.of_nat (length (contents b) - length (contents b'))).
Proof.
  intros Hr Hb Hne. assert (exists n, 0 <= n /\ b' = retrieve b n) as (n & Hn & ->).
  { assert (exists n, 0 <= n /\ (b' = retrieve b n \/ b' = b)) as (n & Hn & [->| ->]).
    { clear Hne. induction Hr as [b|b n b' Hn Hr IH]; [exists 0; split; [lia|by right]|].
      destruct (IH (proj1 (retrieve_spec b n Hb Hn))) as (m & Hm & [->| ->]).
      - exists (n + m). rewrite retrieve_retrieve by done. split; [lia|by left].
      - exists n. auto. }
    - by exists n.
    - exists 0. by rewrite retrieve_0. }
  destruct (retrieve_spec b n Hb Hn) as (_ & -> & _). rewrite length_drop.
  unfold retrieve. rewrite readable_contents by done. unfold len.
  destruct (Z.ltb_spec n (Z.of_nat (length (contents b)))), (Z.ltb_spec (Z.of_nat (length (contents b) - (length (contents b) - Z.to_nat n))) (Z.of_nat (length (contents b))));
    try lia; [|done]. f_equal. f_equal. lia.
Qed.

(** ** Callbacks that leave the connection open *)

Lemma send_quiet m c c' :
  sendInLoop m c = Some c' -> writeCb_ c = false -> inputBuffer_ c' = inputBuffer_ c /\ pending_ c' = pending_ c /\ writeCb_ c' = false.
Proof.
  unfold sendInLoop. intros E Hw. case_bool_decide; [by injection E as <-|].
  destruct (if negb _ && _ then _ else _) as [[n fault] c1] eqn:E1.
  assert (inputBuffer_ c1 = inputBuffer_ c /\ pending_ c1 = pending_ c /\ writeCb_ c1 = false) as H1.
  { destruct (_ && _); [|by injection E1 as <- <- <-]. unfold socket_write in E1.
    destruct (if wrShut_ c then _ else _); injection E1 as <- <- <-; [done|]. cbn. by rewrite Hw, andb_false_r. }
  set (c2 := if fault then _ else _) in E. assert (inputBuffer_ c2 = inputBuffer_ c /\ pending_ c2 = pending_ c /\ writeCb_ c2 = false) as H2
    by (subst c2; by destruct fault). clearbody c2. destruct (negb fault && _); [|by injection E as <-].
  clear E1 H1. destruct (append _ _) as [out|]; cbn [mbind option_bind] in E; [|done].
  destruct (negb (isWriting _)); injection E as <-; exact H2.
Qed.

(** They deliver what they send, in order, and consume what they retrieve. *)
Record delivered (out : bytes) (n : nat) (c c' : TcpConnection) : Prop := {
  dl_inv : conn_inv c';
  dl_state : state_ c' = kConnected;
  dl_input : contents (inputBuffer_ c') = drop n (contents (inputBuffer_ c));
  dl_len : len (accepted_ c') <= len (accepted_ c) + len out;
  dl_out : accepted_ c' = accepted_ c ++ out \/ broken_ c' = true;
  dl_broken : broken_ c = true -> broken_ c' = true;
  dl_pending : pending_ c' = pending_ c;
  dl_cb : writeCb_ c' = false
}.

Lemma delivered_trans o1 n1 o2 n2 c1 c2 c3 :
  delivered o1 n1 c1 c2 -> delivered o2 n2 c2 c3 -> delivered (o1 ++ o2) (n1 + n2) c1 c3.
Proof.
  intros [_ _ Hi1 Hl1 Ho1 Hb1 Hp1 _] [Hv Hs Hi2 Hl2 Ho2 Hb2 Hp2 Hc]. split; try done; [..|auto|congruence].
  - by rewrite Hi2, Hi1, drop_drop.
  - rewrite len_app. lia.
  - destruct Ho1 as [Ho1|?]; [|by auto]. destruct Ho2 as [Ho2|?]; [left|by auto]. by rewrite Ho2, Ho1, app_assoc.
Qed.

Lemma act_mild a c :
  conn_inv c -> state_ c = kConnected -> writeCb_ c = false -> mild a = true -> len (accepted_ c) + act_bytes a < 2 ^ 60 ->
  exists c', perform_act a c = Some c' /\ delivered (sends [a]) (takes [a]) c c'.
Proof.
  intros I Hs Hw Ha Hl. destruct a as [m| | |n]; try done; cbn in *.
  - unfold conn_send. rewrite (bool_decide_true _ Hs).
    destruct (sendInLoop_ok m c I) as (c2 & E & I2 & S2 & [Ht Hbr] & _); [congruence|done|]. exists c2. split; [done|].
    destruct (send_quiet m c c2 E Hw) as (Q1 & Q2 & Q3). rewrite app_nil_r. split; try done; [congruence|by rewrite Q1|..].
    + destruct Ht as [->|[-> _]]; [rewrite len_app; lia|]. pose proof (len_nonneg m). lia.
    + destruct Ht as [?|[_ [?|?]]]; [by left|by right|congruence].
  - eexists. split; [done|]. destruct (retrieve_spec (inputBuffer_ c) (Z.of_nat n)) as (Hb & Cb & _); [apply I|lia|].
    rewrite Nat.add_0_r. split; cbn; try done; [destruct I; split; auto|by rewrite Cb, Nat2Z.id|solve_len|left; by rewrite app_nil_r].
Qed.

Lemma perform_mild acts : forall c,
  conn_inv c -> state_ c = kConnected -> writeCb_ c = false -> forallb mild acts = true ->
  len (accepted_ c) + len (sends acts) < 2 ^ 60 ->
  exists c', perform acts c = Some c' /\ delivered (sends acts) (takes acts) c c'.
Proof.
  induction acts as [|a acts IH]; intros c I Hs Hw Ha Hl; cbn [perform forallb] in *.
  - exists c. split; [done|]. split; try done; cbn; [solve_len|left; by rewrite app_nil_r].
  - apply andb_prop in Ha as [Ha Has]. change (a :: acts) with ([a] ++ acts) in *. rewrite sends_app, takes_app, len_app in *.
    pose proof (total_sends [a]) as Ht. change (total_send [a]) with (act_bytes a + 0) in Ht. pose proof (len_nonneg (sends acts)).
    destruct (act_mild a c I Hs Hw Ha) as (c1 & -> & D1); [lia|]. cbn [mbind option_bind].
    destruct (IH c1) as (c2 & -> & D2); [apply D1..|done|pose proof (dl_len _ _ _ _ D1); lia|].
    exists c2. split; [done|]. by eapply delivered_trans.
Qed.
