(* ===== verification/ConnFrame.v ===== *)
(** * ConnFrame: what a step of a connection leaves alone

    Lemmas on [TcpConnection] for the classes that own connections: an operation
    touches the poller only at the connection's own descriptor, takes the
    connection down only together with its close callback, and posts no
    destruction.  [conn_live] is the state of a connection its owner holds. *)
From S2P Require Import Prelude Buffer Channel TcpConnection.

(** ** The poller *)

Lemma poller_update_local p op ch : same_elsewhere (fd_ ch) p (poller_update p op ch).
Proof.
  unfold poller_update, epoll_ctl. destruct p as [cs k sz]. repeat case_match; simplify_eq/=; try done.
  all: split; [done|]; intros fd' ?; cbn; by rewrite ?lookup_insert_ne, ?lookup_delete_ne by done.
Qed.

Lemma chan_update_local p ch : same_elsewhere (fd_ ch) p (chan_update p ch).1.
Proof.
  unfold chan_update, updateChannel. set (c := set_addedToLoop ch true). change (fd_ ch) with (fd_ c).
  destruct (_ || _); [|destruct (isNoneEvent c); apply poller_update_local]. cbn.
  etrans; [|exact (poller_update_local _ _ (setIndex c 1))]. destruct (_ =? _); [|done].
  split; [done|]. intros fd' ?. cbn. by rewrite lookup_insert_ne.
Qed.

Lemma chan_remove_local p ch p' ch' : chan_remove p ch = Some (p', ch') -> same_elsewhere (fd_ ch) p p' /\ fd_ ch' = fd_ ch.
Proof.
  unfold chan_remove, removeChannel. destruct (isNoneEvent ch); [|done]. intros [= <- <-]. split; [|done].
  set (p1 := mkPoller _ _ _). assert (same_elsewhere (fd_ ch) p p1) as H1.
  { split; [done|]. intros fd' ?. cbn. by rewrite lookup_delete_ne. }
  destruct (_ =? _); [|done]. etrans; [exact H1|]. exact (poller_update_local p1 EPOLL_CTL_DEL (set_addedToLoop ch false)).
Qed.

(** The connection's descriptor is the same and the poller only differs there. *)
Definition confined (c c' : TcpConnection) : Prop :=
  fd_ (channel_ c') = fd_ (channel_ c) /\ same_elsewhere (fd_ (channel_ c)) (poller_ c) (poller_ c').

#[global] Instance confined_preorder : PreOrder confined.
Proof.
  split; [by intros c; split|]. intros a b c [E1 H1] [E2 H2]. rewrite E1 in *. split; [congruence|by etrans].
Qed.

Lemma confined_update c ev : confined c (set_registration (chan_update (poller_ c) (set_events (channel_ c) ev)) c).
Proof.
  split; cbn; [by rewrite chan_update_fd|]. apply (chan_update_local (poller_ c) (set_events (channel_ c) ev)).
Qed.

(** ** What a step of the connection leaves as it was *)

(** Operations of the user's code change none of the counts, start no dispatch
    and post no destruction. *)
Record keeps (c c' : TcpConnection) : Prop := {
  ke_ups : ups_ c' = ups_ c;
  ke_downs : downs_ c' = downs_ c;
  ke_closes : closes_ c' = closes_ c;
  ke_handling : eventHandling_ (channel_ c') = eventHandling_ (channel_ c);
  ke_confined : confined c c';
  ke_posted : TDestroyed ∈ pending_ c' -> TDestroyed ∈ pending_ c
}.

#[global] Instance keeps_preorder : PreOrder keeps.
Proof. split; [by intros c; split|]. intros a b c [] []. split; try congruence; [by etrans|auto]. Qed.

(** A handler may take the connection down, but then also runs the close
    callback. *)
Record tame (c c' : TcpConnection) : Prop := {
  ta_closes : (closes_ c' + downs_ c = closes_ c + downs_ c')%nat;
  ta_handling : eventHandling_ (channel_ c') = eventHandling_ (channel_ c);
  ta_confined : confined c c';
  ta_posted : TDestroyed ∈ pending_ c' -> TDestroyed ∈ pending_ c
}.

#[global] Instance tame_preorder : PreOrder tame.
Proof. split; [by intros c; split|]. intros a b c [] []. split; [lia|congruence|by etrans|auto]. Qed.

(** A record update that leaves counts, channel, poller and queue alone. *)
Ltac frame := split; try done; by split.

Lemma keeps_tame c c' : keeps c c' -> tame c c'.
Proof. intros []. split; [lia|done..]. Qed.

Lemma chan_update_handling p ch : eventHandling_ (chan_update p ch).2 = eventHandling_ ch.
Proof. unfold chan_update, updateChannel. repeat case_match; done. Qed.

Lemma keeps_queue t c : t <> TDestroyed -> keeps c (queueInLoop t c).
Proof. intros Ht. split; cbn; try done. rewrite elem_of_app, list_elem_of_singleton. by intros [?|<-]. Qed.

Lemma keeps_update c ev : keeps c (set_registration (chan_update (poller_ c) (set_events (channel_ c) ev)) c).
Proof. split; try done; [cbn; by rewrite chan_update_handling|apply confined_update]. Qed.

Lemma socket_write_keeps data c r c' : socket_write data c = (r, c') -> keeps c c'.
Proof. intros [= _ <-]. frame. Qed.

Lemma sendInLoop_keeps m c c' : sendInLoop m c = Some c' -> keeps c c'.
Proof.
  unfold sendInLoop. case_bool_decide; [intros [= <-]; done|].
  destruct (if negb _ && _ then _ else _) as [[n fault] c1] eqn:E1.
  assert (keeps c c1) as T1.
  { destruct (_ && _); [|by injection E1 as <- <- <-]. destruct (socket_write m c) as [r cw] eqn:Ew.
    apply socket_write_keeps in Ew. destruct r; injection E1 as <- <- <-; [done|].
    destruct (_ && _); [|done]. etrans; [exact Ew|by apply keeps_queue]. }
  set (c2 := if fault then _ else _). assert (keeps c c2) as T2 by (etrans; [exact T1|]; subst c2; destruct fault; frame).
  clearbody c2. clear E1.
  destruct (negb fault && _); [|by intros [= <-]]. destruct (append _ _) as [out|]; cbn; [|done]. intros [= <-].
  etrans; [exact T2|]. transitivity (set_output out c2); [frame|]. destruct (negb _); [|done].
  apply (keeps_update (set_output out c2)).
Qed.

Lemma shutdownInLoop_keeps c : keeps c (shutdownInLoop c).
Proof. unfold shutdownInLoop, socket_shutdownWrite. destruct (negb _); [frame|done]. Qed.

Lemma shutdown_keeps c : keeps c (conn_shutdown c).
Proof. unfold conn_shutdown. case_bool_decide; [|done]. etrans; [|apply shutdownInLoop_keeps]. frame. Qed.

Lemma forceClose_keeps c : keeps c (conn_forceClose c).
Proof. unfold conn_forceClose. destruct (_ || _); [|done]. etrans; [|by apply keeps_queue]. frame. Qed.

Lemma act_keeps a c c' : perform_act a c = Some c' -> keeps c c'.
Proof.
  destruct a; cbn; [unfold conn_send; case_bool_decide|..].
  - apply sendInLoop_keeps.
  - by intros [= <-].
  - intros [= <-]. apply shutdown_keeps.
  - intros [= <-]. apply forceClose_keeps.
  - intros [= <-]. frame.
Qed.

Lemma perform_keeps acts c c' : perform acts c = Some c' -> keeps c c'.
Proof.
  revert c. induction acts as [|a acts IH]; intros c; cbn; [by intros [= <-]|].
  destruct (perform_act a c) as [c1|] eqn:E; cbn; [|done]. intros E'. etrans; [by eapply act_keeps|by apply IH].
Qed.

Lemma perform_tame acts c c' : perform acts c = Some c' -> tame c c'.
Proof. intros E. by eapply keeps_tame, perform_keeps. Qed.

Lemma handleClose_tame user c c' : handleClose user c = Some c' -> tame c c'.
Proof.
  unfold handleClose. case_guard; cbn [mbind option_bind]; [|done].
  destruct (perform _ _) as [c1|] eqn:E; cbn; [|done]. intros [= <-]. apply perform_tame in E as [H1 H2 H3 H4].
  cbn in *. split; cbn; [lia| | |done].
  - rewrite H2. unfold disableAll. by rewrite chan_update_handling.
  - etrans; [apply (confined_update (set_state kDisconnected c) kNoneEvent)|]. etrans; [|exact H3]. by split.
Qed.

Lemma handleRead_tame rd user c c' : handleRead rd user c = Some c' -> tame c c'.
Proof.
  unfold handleRead. destruct (readCore _ _ _) as [[[n b] e]|]; cbn [mbind option_bind]; [|done]. intros E.
  transitivity (set_input b c); [frame|]. destruct (0 <? n); [by eapply perform_tame|].
  destruct (n =? 0); [|by injection E as <-]. destruct (0 <? _); [|by eapply handleClose_tame].
  injection E as <-. frame.
Qed.

Lemma handleWrite_tame user c c' : handleWrite user c = Some c' -> tame c c'.
Proof.
  unfold handleWrite. destruct (isWriting _); [|by intros [= <-]]. destruct (writeCore _ _ _ _) as [[[[n out] e] c1]|] eqn:Ew; cbn [mbind option_bind]; [|done].
  assert (keeps c c1) as T1.
  { unfold writeCore in Ew. apply bind_Some in Ew as (data & _ & Ew). destruct (socket_write data c) as [r c2] eqn:E1.
    apply socket_write_keeps in E1. destruct r; by injection Ew as _ _ _ <-. }
  assert (keeps c (set_output out c1)) as T2 by (etrans; [exact T1|frame]).
  intros E. apply keeps_tame. destruct (0 <? n); [|by injection E as <-]. destruct (_ =? 0); [|by injection E as <-].
  set (c2 := conn_disableWriting _) in E. assert (keeps c c2) as T3 by (etrans; [exact T2|apply (keeps_update (set_output out c1))]).
  clearbody c2. destruct (if writeCb_ c2 then _ else _) as [c3|] eqn:E3; cbn [mbind option_bind] in E; [|done]. injection E as <-.
  assert (keeps c c3) as T4.
  { etrans; [exact T3|]. destruct (writeCb_ c2); [by eapply perform_keeps|by injection E3 as <-]. }
  case_bool_decide; [|done]. etrans; [exact T4|apply shutdownInLoop_keeps].
Qed.

Lemma handleEvent_tame revents rd user c c' :
  eventHandling_ (channel_ c) = false -> conn_handleEvent revents rd user c = Some c' -> tame c c'.
Proof.
  intros Hh. unfold conn_handleEvent, handleEvent. set (s0 := set_channel _ c). set (cbs := mkCallbacks _ _ _ _). intros E0.
  assert (handleEventWithGuard channel_ set_channel cbs s0 = Some c') as E by (by destruct (tied_ _)). clear E0.
  unfold handleEventWithGuard in E. set (s1 := set_channel _ s0) in E.
  assert (forall b f s s', (forall s s', f s = Some s' -> tame s s') ->
    (if b : bool then run_cb (Some f) s else Some s) = Some s' -> tame s s') as Hopt.
  { intros b f s s' Hf. destruct b; [apply Hf|by intros [= <-]]. }
  repeat match type of E with (?m ≫= _) = _ =>
    let s := fresh "s" in let Es := fresh "Es" in destruct m as [s|] eqn:Es; cbn [mbind option_bind] in E; [|done];
    apply Hopt in Es; [|eauto using handleClose_tame, handleRead_tame, handleWrite_tame;
                        by intros ? ? [= <-]] end.
  injection E as <-.
  pose proof (transitivity Es (transitivity Es0 (transitivity Es1 Es2))) as [H1 _ H2 H3]. split; [done..| |done].
  etrans; [|etrans; [exact H2|by split]]. by split.
Qed.

(** ** The connection of a client *)

(** While the client owns it. *)
Record conn_live (conn : TcpConnection) : Prop := {
  li_inv : conn_inv conn;
  li_up : up conn;
  li_handling : eventHandling_ (channel_ conn) = false;
  li_posted : TDestroyed ∉ pending_ conn
}.

Lemma live_counts conn : conn_live conn -> closes_ conn = 0%nat /\ downs_ conn = 0%nat.
Proof.
  intros [I U _ _]. pose proof (ci_closes _ I). pose proof (ci_downs _ I) as Hd.
  rewrite decide_False in Hd by (destruct U as [-> | ->]; done). lia.
Qed.

Lemma step_tame e c c' :
  eventHandling_ (channel_ c) = false -> TDestroyed ∉ pending_ c ->
  match e with Established _ | PostDestroyed => False | _ => True end ->
  conn_step e c = Some c' -> tame c c'.
Proof.
  intros Hh Hp He E. destruct e as [user|revents rd user|user|a|seen m|force seen|force|]; cbn [conn_step] in E; try done.
  - by eapply handleEvent_tame.
  - destruct (pending_ c) as [|t ts] eqn:Ep; [by injection E as <-|]. apply not_elem_of_cons in Hp as [Hne _].
    transitivity (set_pending ts c); [split; cbn; [lia|done|by split|rewrite Ep; by right]|].
    destruct t; cbn [run_task] in E; [by eapply keeps_tame, sendInLoop_keeps| | |by eapply perform_tame|done].
    + injection E as <-. apply keeps_tame, shutdownInLoop_keeps.
    + unfold forceCloseInLoop in E. destruct (_ || _); [by eapply handleClose_tame|by injection E as <-].
  - by eapply keeps_tame, act_keeps.
  - injection E as <-. case_bool_decide; [|done]. by apply keeps_tame, keeps_queue.
  - injection E as <-. destruct (close_check force seen); [|done]. apply keeps_tame. frame.
  - injection E as <-. apply keeps_tame, keeps_queue. by destruct force.
Qed.

(** Along a step the connection stays up, or goes down and calls back. *)
Lemma live_step e conn :
  conn_live conn -> conn_event_ok e conn -> match e with Established _ | PostDestroyed => False | _ => True end ->
  exists conn', conn_step e conn = Some conn' /\
    (closes_ conn' = 0%nat /\ conn_live conn' \/
     closes_ conn' = 1%nat /\ conn_inv conn' /\ state_ conn' = kDisconnected /\ eventHandling_ (channel_ conn') = false).
Proof.
  intros L He Hne. destruct (live_counts conn L) as [Hc Hd]. destruct L as [I U Hh Hp].
  destruct (conn_step_ok e conn I He) as (conn' & E & I' & Hr & _). exists conn'. split; [done|].
  destruct (step_tame e conn conn' Hh Hp Hne E) as [T1 T2 _ T3]. rewrite Hc, Hd in T1. rewrite Hh in T2.
  pose proof (ci_downs _ I') as Hd'. assert (rank (state_ conn) >= 1)%nat by (destruct U as [-> | ->]; cbn; lia).
  destruct (decide (state_ conn' = kDisconnected)); [right; split_and!; [lia|done..]|left].
  split; [lia|]. split; [done| |done|auto]. unfold up. destruct (state_ conn'); cbn in *; [lia|auto|auto|done].
Qed.

Lemma live_shutdown conn : conn_live conn -> conn_live (conn_shutdown conn).
Proof.
  intros [I U Hh Hp]. destruct (shutdown_keeps conn) as [_ _ _ K1 _ K2]. split; [by apply inv_conn_shutdown| |congruence|auto].
  unfold conn_shutdown, up. case_bool_decide; [|by destruct U; auto]. right. unfold shutdownInLoop. by destruct (negb _).
Qed.

Lemma live_forceClose conn : conn_live conn -> conn_live (conn_forceClose conn).
Proof.
  intros [I U Hh Hp]. destruct (forceClose_keeps conn) as [_ _ _ K1 _ K2]. split; [by apply inv_conn_forceClose| |congruence|auto].
  unfold conn_forceClose, up. by destruct U as [E|E]; rewrite E; right.
Qed.

Lemma live_established ptr fd p wcb answer user :
  channels_ p !! fd = None -> kernel_ p !! fd = None -> (forall k l n, answer k l = IoOk n -> 0 <= n <= l) ->
  user_total user < 2 ^ 60 ->
  exists conn, connectEstablished user (conn_new ptr fd p wcb answer) = Some conn /\ conn_live conn.
Proof.
  intros Hc Hk Ha Hu. set (c0 := conn_new ptr fd p wcb answer). unfold user_total in Hu.
  pose proof (total_send_nonneg (user OnMessage)). pose proof (total_send_nonneg (user OnWriteComplete)).
  destruct (connectEstablished_ok user c0) as (conn & E & I & _); [by apply conn_inv_new|done|change (len (accepted_ c0)) with 0; lia|].
  exists conn. split; [done|]. unfold connectEstablished in E. case_guard; cbn [mbind option_bind] in E; [|done].
  destruct (perform_keeps _ _ _ E) as [K1 K2 _ K4 _ K5]. cbn in K1, K2, K4, K5.
  pose proof (ci_ups _ I) as Hup. pose proof (ci_downs _ I) as Hdn. rewrite K1 in Hup. rewrite K2 in Hdn.
  split; [done| | |].
  - unfold up. destruct (state_ conn); cbn in *; [done|auto|auto|done].
  - rewrite K4. unfold enableReading. by rewrite chan_update_handling.
  - intros Hin%K5. set_solver.
Qed.

(** ** The end of a connection *)

(** The assertions of [~TcpConnection] and of [~Channel]. *)
Definition drop_connection (conn : TcpConnection) : option unit :=
  guard (state_ conn = kDisconnected);;
  guard (chan_destroy_ok (channel_ conn) = true);;
  Some tt.

Lemma drop_connection_ok conn :
  drop_connection conn = Some tt <-> state_ conn = kDisconnected /\ chan_destroy_ok (channel_ conn) = true.
Proof.
  unfold drop_connection. repeat case_guard; cbn; naive_solver.
Qed.

(** On a connection that is down, user code changes nothing but the input. *)
Lemma perform_down acts conn :
  state_ conn = kDisconnected -> exists conn', perform acts conn = Some conn' /\
  channel_ conn' = channel_ conn /\ state_ conn' = kDisconnected /\ pending_ conn' = pending_ conn /\ poller_ conn' = poller_ conn.
Proof.
  revert conn. induction acts as [|a acts IH]; intros conn Hs; cbn; [by exists conn|].
  assert (exists c1, perform_act a conn = Some c1 /\ channel_ c1 = channel_ conn /\
    state_ c1 = kDisconnected /\ pending_ c1 = pending_ conn /\ poller_ c1 = poller_ conn) as (c1 & -> & Hc & Hs1 & Hp & Hpo).
  { destruct a; cbn; unfold conn_send, conn_shutdown, conn_forceClose; rewrite ?Hs; cbn; by eexists. }
  cbn. destruct (IH c1 Hs1) as (c2 & -> & ? & ? & ? & ?). exists c2. split_and!; congruence.
Qed.

(** A removed channel is unknown to the poller and may be destroyed. *)
Lemma removed_ok p ch p' ch' :
  chan_inv p ch -> eventHandling_ ch = false -> chan_remove p ch = Some (p', ch') ->
  chan_destroy_ok ch' = true /\ channels_ p' !! fd_ ch' = None /\ kernel_ p' !! fd_ ch' = None.
Proof.
  intros Hi He E. pose proof (chan_remove_spec p ch Hi) as R. rewrite E in R.
  destruct R as (_ & Hi' & _ & (_ & _ & _ & Heh & _) & Hidx & _). unfold chan_destroy_ok.
  destruct Hi' as [(_ & _ & Hc & Hk & Ha)|[(H & _)|(H & _)]]; [|congruence|congruence]. rewrite Heh, He, Ha. done.
Qed.

Lemma connectDestroyed_releases user conn :
  conn_inv conn -> state_ conn = kConnected \/ state_ conn = kDisconnected ->
  eventHandling_ (channel_ conn) = false -> len (accepted_ conn) + total_send (user OnConnection) < 2 ^ 60 ->
  exists conn', connectDestroyed user conn = Some conn' /\ drop_connection conn' = Some tt /\ pending_ conn' = pending_ conn /\
    channels_ (poller_ conn') !! fd_ (channel_ conn') = None /\ kernel_ (poller_ conn') !! fd_ (channel_ conn') = None.
Proof.
  intros I Hs Heh Hl. destruct (connectDestroyed_ok user conn I) as (conn' & E & _ & _ & _); [destruct Hs; congruence|done|].
  exists conn'. split; [done|]. unfold connectDestroyed in E.
  destruct (if bool_decide _ then _ else _) as [c1|] eqn:E1; [|done]. cbn [mbind option_bind] in E.
  assert (chan_inv (poller_ c1) (channel_ c1) /\ eventHandling_ (channel_ c1) = false /\
    state_ c1 = kDisconnected /\ pending_ c1 = pending_ conn) as (Hi1 & He1 & Hs1 & Hp1).
  { destruct Hs as [Hs|Hs]; rewrite Hs in E1; cbn in E1.
    - change (perform (user OnConnection) (count_down (conn_disableAll (set_state kDisconnected conn))) = Some c1) in E1.
      edestruct (perform_down (user OnConnection)) as (c1' & E1' & Hc1 & Hs1 & Hp1 & Hpo1); [|rewrite E1 in E1'; injection E1' as <-]; [done|].
      pose proof (chan_update_spec (poller_ conn) (channel_ conn) kNoneEvent (ci_chan _ I)) as R.
      rewrite Hc1, Hpo1, Hs1, Hp1. cbn. unfold disableAll. destruct (chan_update _ _) as [p ch].
      destruct R as (R1 & _ & (_ & _ & _ & R2 & _) & _). cbn. rewrite R2. done.
    - injection E1 as <-. split_and!; try done. apply I. }
  destruct (chan_remove (poller_ c1) (channel_ c1)) as [[p ch]|] eqn:Er; [|done]. cbn in E. injection E as <-.
  destruct (removed_ok _ _ _ _ Hi1 He1 Er) as (Hd & Hc & Hk). split_and!; try done.
  unfold drop_connection. cbn. case_guard; [|done]. cbn. case_guard; [done|congruence].
Qed.
