(* ===== verification/RpcOverTcp.v ===== *)
(** * RpcOverTcp: the RPC server on a TCP connection

    The server is verified against the transport interface; here it runs on the
    TCP implementation of that interface. *)
From S2P Require Import Prelude Protocol Buffer FrameReader Codec Channel Transport RpcServer TcpConnection.

(** The RPC server over TCP.  Requests arrive on an established connection,
    cut into reads at will, and the kernel takes the output in pieces of its
    choice: the connection stays open, the handlers run once per request in
    order, and what the kernel took followed by what is still queued is the
    earlier output followed by one response frame per request, in order, unless
    a write has found the peer gone. *)
Theorem rpc_over_tcp {W} (s : RpcServer W) (conn : TcpConnection) w fs partial chunks replies w' :
  server_wf s -> limit_ok s -> conn_inv conn -> state_ conn = kConnected ->
  Forall (frame_ok (frameReader_ s)) fs ->
  parse_bytes (frameReader_ s) partial = FNeedMore ->
  concat chunks = concat (frame_bytes <$> fs) ++ partial ->
  len (concat chunks) < 2 ^ 60 -> len (accepted_ conn) + Z.of_nat (length fs) * 2 ^ 25 < 2 ^ 60 ->
  answer_all s w fs = Some (replies, w') ->
  exists conn' buf', serve_reads s conn (Buffer_new kInitialSize) w chunks = Some (conn', buf', w') /\
    contents buf' = partial /\ conn_inv conn' /\ state_ conn' = kConnected /\
    (wire_ conn' ++ contents (outputBuffer_ conn') =
       wire_ conn ++ contents (outputBuffer_ conn) ++ concat replies \/ broken_ conn' = true).
Proof.
  intros Hs Hl I Hc Hfs Hp Hcat Hlen Hroom Ha.
  destruct (Buffer_new_wf kInitialSize) as [Hb Cb]; [unfold kInitialSize; lia|].
  destruct (serve_reads_answers s chunks conn w (Buffer_new kInitialSize) fs partial replies w'
              (len (concat chunks))) as (c & b & E & X & _ & Eb); try done; rewrite ?Cb; try done.
  - cbn. by apply bool_decide_true.
  - by apply feed_frames.
  - pose proof (len_nonneg (concat chunks)). rewrite Buffer_new_size by done. lia.
  - destruct X as (Hw & Hc' & _ & _ & Ho). cbn in Hw, Hc', Ho. apply bool_decide_eq_true in Hc'.
    exists c, b. split_and!; try done. destruct Ho as [Ho|?]; [left|by right].
    by rewrite <- (ci_stream _ Hw), Ho, (ci_stream _ I), app_assoc.
Qed.

(** An established connection over a kernel that takes two bytes per write. *)
Definition sample_conn : TcpConnection :=
  default (conn_new 1 5 EPollPoller_new false two_bytes_kernel)
    (conn_run [Established no_acts] (conn_new 1 5 EPollPoller_new false two_bytes_kernel)).

Lemma sample_conn_inv : conn_inv sample_conn.
Proof.
  destruct (conn_run_ok [Established no_acts] (conn_new 1 5 EPollPoller_new false two_bytes_kernel))
    as (c & E & I & _).
  - by apply conn_inv_new; [..|exact two_bytes_kernel_ok].
  - vm_compute. intuition congruence.
  - unfold sample_conn. rewrite E. exact I.
Qed.

Lemma rpc_over_tcp_witness :
  let f1 := Sample.request 1 [x2a] in let f2 := Sample.request 2 [x2b] in
  let replies := [respond f1.1 (mkResponse 0 [x2a] 0); respond f2.1 (mkResponse 0 [x2b] 0)] in
  exists conn' buf',
    serve_reads Sample.server sample_conn (Buffer_new kInitialSize) 0
      [take 20 (frame_bytes f1); drop 20 (frame_bytes f1) ++ frame_bytes f2 ++ [x52]] = Some (conn', buf', 2) /\
    contents buf' = [x52] /\ conn_inv conn' /\ state_ conn' = kConnected /\
    (wire_ conn' ++ contents (outputBuffer_ conn') =
       wire_ sample_conn ++ contents (outputBuffer_ sample_conn) ++ concat replies \/ broken_ conn' = true).
Proof.
  intros f1 f2 replies.
  apply (rpc_over_tcp Sample.server sample_conn 0 [f1; f2] [x52]
    [take 20 (frame_bytes f1); drop 20 (frame_bytes f1) ++ frame_bytes f2 ++ [x52]] replies 2);
    [by vm_compute|by left|exact sample_conn_inv|by vm_compute| |by vm_compute|by vm_compute|by vm_compute|by vm_compute|by vm_compute].
  repeat constructor; apply Sample.request_frame_ok; by vm_compute.
Defined.
