(* ===== verification/Heap.v ===== *)
(** * Heap: the binary heap algorithms of the C++ standard library

    [std::push_heap], [std::pop_heap] and [std::make_heap] as [TimerQueue] uses
    them, on a vector ordered by a key with the smallest key in front.  The
    algorithms are the usual ones: a hole is moved towards the root or the leaves
    by exchanging it with its parent or smaller child, and the element travels
    with the hole. *)
From S2P Require Import Prelude.

Section heap.
Context {A : Type} `{Inhabited A} (key : A -> Z).
Implicit Types (l : list A) (i j k : nat).

Definition parent (i : nat) : nat := Nat.div (i - 1) 2.

(** Exchange two elements. *)
Definition swap (l : list A) (i j : nat) : list A := <[i := l !!! j]> (<[j := l !!! i]> l).

(** Move the element at [i] towards the root, not above [top]. *)
Fixpoint sift_up (fuel : nat) (top : nat) (l : list A) (i : nat) : list A :=
  match fuel with
  | O => l
  | S fuel =>
      if bool_decide (top < i)%nat && (key (l !!! i) <? key (l !!! parent i))
      then sift_up fuel top (swap l i (parent i)) (parent i)
      else l
  end.

(** Move the hole at [i] down to a leaf of the first [n] elements, always to the
    child with the smaller key, then let the element climb back to its place. *)
Fixpoint sift_down (fuel : nat) (n top : nat) (l : list A) (i : nat) : list A :=
  match fuel with
  | O => l
  | S fuel =>
      if bool_decide (2 * i + 2 < n)%nat then
        let child := if key (l !!! (2 * i + 1)%nat) <? key (l !!! (2 * i + 2)%nat)
                     then (2 * i + 1)%nat else (2 * i + 2)%nat in
        sift_down fuel n top (swap l i child) child
      else if bool_decide (2 * i + 2 = n)%nat then
        sift_up n top (swap l i (2 * i + 1)) (2 * i + 1)
      else sift_up n top l i
  end.

Definition adjust (n top : nat) (l : list A) : list A := sift_down (S n) n top l top.

(** [push_heap]: the new element is the last one. *)
Definition push_heap (l : list A) : list A := sift_up (length l) 0 l (length l - 1).

(** [pop_heap]: the front goes to the back, the rest is a heap again. *)
Definition pop_heap (l : list A) : list A :=
  let n := length l in
  if bool_decide (1 < n)%nat
  then adjust (n - 1) 0 (swap l 0 (n - 1))
  else l.

(** [make_heap]: adjust every inner node, last to first. *)
Fixpoint make_heap_loop (k : nat) (l : list A) : list A :=
  match k with
  | O => l
  | S k => make_heap_loop k (adjust (length l) k l)
  end.

Definition make_heap (l : list A) : list A :=
  if bool_decide (length l < 2)%nat then l else make_heap_loop (Nat.div (length l) 2) l.

(** ** Permutation *)

Lemma Permutation_insert_swap l i x y : l !! i = Some x -> y :: l ≡ₚ x :: <[i := y]> l.
Proof.
  intros Hx. pose proof (lookup_lt_Some _ _ _ Hx).
  rewrite insert_take_drop by done. rewrite <- (take_drop_middle _ _ _ Hx) at 1. solve_Permutation.
Qed.

Lemma length_swap l i j : length (swap l i j) = length l.
Proof. unfold swap. by rewrite !length_insert. Qed.

Lemma swap_Permutation l i j : (i < length l)%nat -> (j < length l)%nat -> swap l i j ≡ₚ l.
Proof.
  intros Hi Hj. unfold swap. pose proof (list_lookup_lookup_total_lt l i Hi) as Ei.
  pose proof (list_lookup_lookup_total_lt l j Hj) as Ej.
  destruct (decide (i = j)) as [->|Hne].
  { rewrite list_insert_insert_eq, list_insert_id by done. done. }
  apply (Permutation_cons_inv (a := l !!! i)).
  rewrite (Permutation_insert_swap l j (l !!! j) (l !!! i)) by done.
  symmetry. apply Permutation_insert_swap. by rewrite list_lookup_insert_ne.
Qed.

Lemma swap_lookup l i j k : (i < length l)%nat -> (j < length l)%nat ->
  swap l i j !!! k = if decide (k = i) then l !!! j else if decide (k = j) then l !!! i else l !!! k.
Proof.
  intros Hi Hj. unfold swap. destruct (decide (k = i)) as [->|].
  { apply list_lookup_total_insert_eq. by rewrite length_insert. }
  rewrite list_lookup_total_insert_ne by done. destruct (decide (k = j)) as [->|].
  - by apply list_lookup_total_insert_eq.
  - by apply list_lookup_total_insert_ne.
Qed.

(** ** The heap property *)

Lemma parent_child j : (0 < j)%nat -> j = (2 * parent j + 1)%nat \/ j = (2 * parent j + 2)%nat.
Proof.
  intros Hj. unfold parent. pose proof (Nat.div_mod_eq (j - 1) 2). pose proof (Nat.mod_upper_bound (j - 1) 2). lia.
Qed.

Lemma parent_left i : parent (2 * i + 1) = i.
Proof. destruct (parent_child (2 * i + 1)); lia. Qed.
Lemma parent_right i : parent (2 * i + 2) = i.
Proof. destruct (parent_child (2 * i + 2)); lia. Qed.
Lemma parent_lt j : (0 < j)%nat -> (parent j < j)%nat.
Proof. intros Hj. destruct (parent_child j Hj); lia. Qed.

(** Every node of the first [n] whose parent is [k] or later is at least its
    parent. *)
Definition heap_from (k n : nat) (l : list A) : Prop :=
  forall j, (0 < j < n)%nat -> (k <= parent j)%nat -> key (l !!! parent j) <= key (l !!! j).

(** [i] lies in the subtree of [k]. *)
Inductive sub (k : nat) : nat -> Prop :=
| sub_root : sub k k
| sub_child j : (0 < j)%nat -> sub k (parent j) -> sub k j.

Lemma sub_le k i : sub k i -> (k <= i)%nat.
Proof. induction 1 as [|j Hj _ IH]; [done|]. pose proof (parent_lt j Hj). lia. Qed.

Lemma sub_inv k i : sub k i -> i <> k -> (0 < i)%nat /\ sub k (parent i).
Proof. by inversion 1. Qed.

(** The heap except for the edge into [i]; the parent of [i] is below its
    grandchildren through [i]. *)
Definition up_inv (k n : nat) (l : list A) (i : nat) : Prop :=
  sub k i /\ (i < n <= length l)%nat /\
  (forall j, (0 < j < n)%nat -> (k <= parent j)%nat -> j <> i -> key (l !!! parent j) <= key (l !!! j)) /\
  (forall j, (0 < j < n)%nat -> parent j = i -> i <> k -> key (l !!! parent i) <= key (l !!! j)).

(** What an adjustment of the first [n] elements may change. *)
Definition adjusted (n : nat) (l l' : list A) : Prop :=
  l' ≡ₚ l /\ length l' = length l /\ forall j, (n <= j)%nat -> l' !!! j = l !!! j.

Lemma adjusted_refl n l : adjusted n l l.
Proof. done. Qed.

Lemma adjusted_trans n l1 l2 l3 : adjusted n l1 l2 -> adjusted n l2 l3 -> adjusted n l1 l3.
Proof.
  intros (P1 & L1 & K1) (P2 & L2 & K2). split_and!; [by rewrite P2|congruence|].
  intros j Hj. by rewrite K2, K1.
Qed.

Lemma adjusted_swap n l i j : (i < n)%nat -> (j < n)%nat -> (n <= length l)%nat -> adjusted n l (swap l i j).
Proof.
  intros Hi Hj Hn. split_and!; [apply swap_Permutation; lia|apply length_swap|].
  intros m Hm. rewrite swap_lookup by lia. by rewrite !decide_False by lia.
Qed.

Ltac swap_cases :=
  repeat (rewrite swap_lookup by lia);
  repeat match goal with |- context [decide (?a = ?b)] => destruct (decide (a = b)); subst end.

Lemma sift_up_ok fuel : forall k n l i,
  (i <= fuel)%nat -> up_inv k n l i ->
  heap_from k n (sift_up fuel k l i) /\ adjusted n l (sift_up fuel k l i).
Proof.
  induction fuel as [|fuel IH]; intros k n l i Hf (Hs & Hi & He & Hb); cbn [sift_up].
  { split; [|done]. pose proof (sub_le _ _ Hs). intros j Hj Hk. apply He; try done. lia. }
  destruct (bool_decide_reflect (k < i)%nat) as [Hki|Hki]; cbn [andb]; cycle 1.
  { split; [|done]. pose proof (sub_le _ _ Hs). intros j Hj Hk. destruct (decide (j = i)) as [->|]; [|by apply He].
    pose proof (parent_lt i). lia. }
  destruct (sub_inv _ _ Hs) as [Hi0 Hsp]; [lia|]. pose proof (parent_lt i Hi0) as Hpi. pose proof (sub_le _ _ Hsp).
  destruct (Z.ltb_spec (key (l !!! i)) (key (l !!! parent i))) as [Hlt|Hge]; cycle 1.
  { split; [|done]. intros j Hj Hk. destruct (decide (j = i)) as [->|]; [lia|by apply He]. }
  destruct (IH k n (swap l i (parent i)) (parent i)) as [Hh Ha].
  - lia.
  - split_and!; [done|lia|rewrite length_swap; lia|..].
    + intros j Hj Hk Hne. pose proof (parent_lt j). swap_cases; try lia.
      * apply Hb; [lia|done|lia].
      * specialize (He j ltac:(lia) ltac:(lia) ltac:(lia)). rewrite e in He. lia.
      * apply He; [lia|done|done].
    + intros j Hj Hpj Hne. pose proof (parent_lt (parent i)). destruct (sub_inv _ _ Hsp Hne) as [Hp0 Hspp].
      pose proof (sub_le _ _ Hspp). pose proof (parent_lt (parent i) Hp0).
      assert (key (l !!! parent (parent i)) <= key (l !!! parent i)) by (apply He; lia).
      swap_cases; try lia.
      specialize (He j ltac:(lia) ltac:(lia) ltac:(lia)). rewrite Hpj in He. lia.
  - split; [done|]. eapply adjusted_trans; [|done]. apply adjusted_swap; lia.
Qed.

(** The heap except for the edges at the hole [i]. *)
Definition down_inv (k n : nat) (l : list A) (i : nat) : Prop :=
  sub k i /\ (i < n <= length l)%nat /\
  (forall j, (0 < j < n)%nat -> (k <= parent j)%nat -> j <> i -> parent j <> i -> key (l !!! parent j) <= key (l !!! j)) /\
  (forall j, (0 < j < n)%nat -> parent j = i -> i <> k -> key (l !!! parent i) <= key (l !!! j)).

(** Moving the hole to the smallest child [c]. *)
Lemma down_step k n l i c :
  down_inv k n l i -> (0 < c < n)%nat -> parent c = i ->
  (forall j, (0 < j < n)%nat -> parent j = i -> key (l !!! c) <= key (l !!! j)) ->
  down_inv k n (swap l i c) c.
Proof.
  intros (Hs & Hi & He & Hb) Hc Hpc Hmin. pose proof (parent_lt c). pose proof (sub_le _ _ Hs).
  split_and!; [apply sub_child; [lia|by rewrite Hpc]|lia|rewrite length_swap; lia|..].
  - intros j Hj Hk Hne Hnp. pose proof (parent_lt j). swap_cases; try lia.
    + by apply Hmin.
    + apply Hb; [lia|done|lia].
    + apply He; done.
  - intros j Hj Hpj Hne. pose proof (parent_lt j). rewrite Hpc. swap_cases; try lia.
    apply He; lia.
Qed.

Lemma down_leaf k n l i : down_inv k n l i -> (n <= 2 * i + 1)%nat -> up_inv k n l i.
Proof.
  intros (Hs & Hi & He & Hb) Hn. split_and!; try done; [lia|lia|].
  intros j Hj Hk Hne. apply He; try done. intros Hp. destruct (parent_child j); lia.
Qed.

Lemma sift_down_ok fuel : forall k n l i,
  (n <= i + fuel)%nat -> down_inv k n l i ->
  heap_from k n (sift_down fuel n k l i) /\ adjusted n l (sift_down fuel n k l i).
Proof.
  induction fuel as [|fuel IH]; intros k n l i Hf Hd; pose proof Hd as (_ & Hi & _); cbn [sift_down]; [lia|].
  case_bool_decide as H2.
  - set (c := if _ <? _ then _ else _).
    assert ((0 < c < n)%nat /\ parent c = i /\ (i < c)%nat /\
      (forall j, (0 < j < n)%nat -> parent j = i -> key (l !!! c) <= key (l !!! j))) as (Hc & Hp & Hic & Hmin).
    { subst c. destruct (Z.ltb_spec (key (l !!! (2 * i + 1)%nat)) (key (l !!! (2 * i + 2)%nat)));
        rewrite ?parent_left, ?parent_right; (split_and!; try lia);
        intros j Hj Hpj; destruct (parent_child j) as [Ej|Ej]; try lia; rewrite Hpj in Ej; rewrite Ej; lia. }
    destruct (IH k n (swap l i c) c) as [Hh Ha]; [lia|by apply down_step|].
    split; [done|]. eapply adjusted_trans; [|done]. apply adjusted_swap; lia.
  - case_bool_decide as H3.
    + destruct (sift_up_ok n k n (swap l i (2 * i + 1)) (2 * i + 1)) as [Hh Ha]; [lia| |].
      * apply down_leaf; [|lia]. apply down_step; [done|lia|apply parent_left|].
        intros j Hj Hpj. destruct (parent_child j) as [Ej|Ej]; try lia. rewrite Hpj in Ej. rewrite Ej. lia.
      * split; [done|]. eapply adjusted_trans; [|done]. apply adjusted_swap; lia.
    + apply sift_up_ok; [lia|]. apply down_leaf; [done|lia].
Qed.

Lemma adjust_ok k n l :
  (k < n <= length l)%nat -> heap_from (S k) n l ->
  heap_from k n (adjust n k l) /\ adjusted n l (adjust n k l).
Proof.
  intros Hk Hh. apply sift_down_ok; [lia|]. split_and!; [apply sub_root|lia|lia| |done].
  intros j Hj Hp _ Hne. apply Hh; [done|lia].
Qed.

(** *** The library contract *)

Definition heap (l : list A) : Prop := heap_from 0 (length l) l.

(** The front of a heap has the smallest key. *)
Lemma heap_front l x j : heap l -> l !! j = Some x -> key (l !!! 0%nat) <= key x.
Proof.
  intros Hh. revert x. induction j as [j IH] using lt_wf_ind. intros x Hx.
  pose proof (lookup_lt_Some _ _ _ Hx). rewrite <- (list_lookup_total_correct _ _ _ Hx).
  destruct j as [|j]; [done|]. pose proof (parent_lt (S j) ltac:(lia)) as Hp.
  etrans; [|apply Hh; lia]. apply (IH (parent (S j))); [done|]. apply list_lookup_lookup_total_lt. lia.
Qed.

Lemma push_heap_ok l x : heap l -> heap (push_heap (l ++ [x])) /\ push_heap (l ++ [x]) ≡ₚ l ++ [x].
Proof.
  intros Hh. unfold push_heap. set (l' := l ++ [x]).
  assert (length l' = S (length l)) as Hl by (unfold l'; rewrite length_app; simpl; lia).
  destruct (sift_up_ok (length l') 0 (length l') l' (length l' - 1)) as [Hu Ha]; [lia| |].
  - assert (forall m, sub 0 m) as Hsub.
    { intros m. induction m as [[|m] IH] using lt_wf_ind; [apply sub_root|].
      apply sub_child; [lia|]. apply IH. apply parent_lt. lia. }
    split_and!; [apply Hsub|lia|lia|..].
    + intros j Hj _ Hne. pose proof (parent_lt j). unfold l'.
      rewrite !lookup_total_app_l by lia. apply Hh; lia.
    + intros j Hj Hp. pose proof (parent_lt j). lia.
  - destruct Ha as (P & L & _). split; [|done]. unfold heap. by rewrite L.
Qed.

Lemma heap_take l n : (n <= length l)%nat -> heap_from 0 n l -> heap (take n l).
Proof.
  intros Hn Hh j Hj _. rewrite length_take_le in Hj by done. pose proof (parent_lt j).
  rewrite !list_lookup_total_alt, !lookup_take_lt by lia. rewrite <- !list_lookup_total_alt. apply Hh; lia.
Qed.

Lemma pop_heap_ok l :
  heap l -> l <> [] ->
  exists l', pop_heap l = l' ++ [l !!! 0%nat] /\ heap l' /\ l ≡ₚ l !!! 0%nat :: l'.
Proof.
  intros Hh Hne. unfold pop_heap. case_bool_decide as Hn; cycle 1.
  { destruct l as [|x [|y l]]; simpl in Hn; [done| |lia]. exists []. split_and!; try done.
    intros j Hj. simpl in Hj. lia. }
  set (n := length l) in *. set (l1 := swap l 0 (n - 1)).
  assert (length l1 = n) as L1 by apply length_swap.
  destruct (adjust_ok 0 (n - 1) l1) as [Hr (Hp & Hl & Hk)]; [lia| |].
  { intros j Hj Hpj. pose proof (parent_lt j). unfold l1. swap_cases; try lia. apply Hh; lia. }
  set (r := adjust (n - 1) 0 l1) in *. exists (take (n - 1) r).
  assert (r !!! (n - 1)%nat = l !!! 0%nat) as Ef.
  { rewrite Hk by lia. unfold l1. rewrite swap_lookup by lia. by rewrite decide_False, decide_True by lia. }
  assert (r = take (n - 1) r ++ [l !!! 0%nat]) as Er.
  { rewrite <- Ef. rewrite <- (take_drop (n - 1) r) at 1. f_equal.
    assert (r !! (n - 1)%nat = Some (r !!! (n - 1)%nat)) as E by (apply list_lookup_lookup_total_lt; lia).
    rewrite (drop_S _ _ _ E). f_equal. apply drop_ge. lia. }
  split_and!; [done|apply heap_take; [lia|done]|].
  transitivity r; [rewrite Hp; symmetry; unfold l1; apply swap_Permutation; lia|]. rewrite Er at 1. solve_Permutation.
Qed.

Lemma make_heap_loop_ok k : forall l, (2 * k <= length l)%nat -> heap_from k (length l) l ->
  heap (make_heap_loop k l) /\ make_heap_loop k l ≡ₚ l.
Proof.
  induction k as [|k IH]; intros l Hk Hh; cbn [make_heap_loop]; [done|].
  destruct (adjust_ok k (length l) l) as [Hr (Hp & Hl & _)]; [lia|done|].
  destruct (IH (adjust (length l) k l)) as [? E]; [lia|by rewrite Hl|]. split; [done|]. by rewrite E.
Qed.

Lemma make_heap_ok l : heap (make_heap l) /\ make_heap l ≡ₚ l.
Proof.
  unfold make_heap. case_bool_decide as Hn.
  { split; [|done]. intros j Hj. lia. }
  pose proof (Nat.div_mod_eq (length l) 2). pose proof (Nat.mod_upper_bound (length l) 2).
  apply make_heap_loop_ok; [lia|]. intros j Hj Hp. destruct (parent_child j); lia.
Qed.
End heap.
