(* ===== verification/TimerQueue.v ===== *)
(** * TimerQueue: timers of an event loop

    [include/Timer.h], [src/Timer.cpp], [include/TimerQueue.h] and
    [src/TimerQueue.cpp].  Timers are heap-allocated objects reached through raw
    pointers, so the model has the memory of [Timer] objects: following a
    dangling pointer or freeing twice is [None].  Addresses can be reused after a
    [delete]; a handle carries the sequence number as well.

    Times are microseconds of the monotonic clock in an [int64_t]; an addition or
    subtraction that overflows is [None].  The successive readings of the clock on
    the loop's thread, in [handleRead] and before [timerfd_settime], are a sequence of
    the model, arbitrary but for its range.  A [double] interval enters only through
    [interval > 0.0] and its conversion to microseconds, the two fields [repeat_]
    and [delta_] of a timer.  What a timer callback does to the
    queue is given per run as a list of operations; [fired_] is the log of runs. *)
From stdpp Require Import sorting.
From S2P Require Import Prelude Heap.

Record Timer := mkTimer {
  expiration_ : Z;
  repeat_ : bool;
  delta_ : Z;                      (* interval_ in microseconds *)
  sequence_ : Z
}.

(** [TimerId]: pointer and sequence number; [(0, 0)] is the empty handle. *)
Definition TimerId : Type := Z * Z.

(** The order of the [std::set] of handles. *)
Definition TimerIdComparator (lhs rhs : TimerId) : bool :=
  if lhs.1 <? rhs.1 then true
  else if rhs.1 <? lhs.1 then false
  else lhs.2 <? rhs.2.

(** It is a strict order whose equivalence is equality of handles, so that the
    [std::set] is the finite set [gset] of the model. *)
Lemma timer_id_order a b c :
  TimerIdComparator a a = false /\
  (TimerIdComparator a b = true -> TimerIdComparator b c = true -> TimerIdComparator a c = true) /\
  (TimerIdComparator a b = true -> TimerIdComparator b a = false) /\
  (TimerIdComparator a b = false -> TimerIdComparator b a = false -> a = b).
Proof.
  destruct a as [ta sa], b as [tb sb], c as [tc sc]. unfold TimerIdComparator. cbn.
  split_and!; zbool; try done; try lia. intros _ _. f_equal; lia.
Qed.

Definition int64 (x : Z) : option Z := if (- 2 ^ 63 <=? x) && (x <? 2 ^ 63) then Some x else None.

(** [Timestamp::operator+=], after the conversion of the seconds. *)
Definition timestamp_add (when delta : Z) : option Z := int64 (when + delta).

(** [Timer::restart]. *)
Definition restart (t : Timer) (now : Z) : option Timer :=
  if repeat_ t then
    when ← timestamp_add now (delta_ t);
    Some (mkTimer when (repeat_ t) (delta_ t) (sequence_ t))
  else Some (mkTimer 0 (repeat_ t) (delta_ t) (sequence_ t)).

(** [howMuchTimeFromNow]: seconds and nanoseconds, at least 100 microseconds. *)
Definition howMuchTimeFromNow (when now : Z) : option (Z * Z) :=
  us ← int64 (when - now);
  let us := if us <? 100 then 100 else us in
  Some (us ÷ 1000000, Z.rem us 1000000 * 1000).

(** The functors a timer queue posts to its loop. *)
Inductive tq_task :=
| QInsert (timer : Z)
| QCancel (id : TimerId) (allowRetry : bool).

Record TimerQueue := mkTQ {
  mem_ : gmap Z Timer;             (* live Timer objects *)
  s_numCreated_ : Z;
  timers_ : list Z;                (* the heap of pointers *)
  activeTimers_ : gset TimerId;
  callingExpiredTimers_ : bool;
  expiredTimers_ : gset TimerId;
  cancelingTimers_ : gset TimerId;
  armed_ : option (Z * (Z * Z));   (* the it_value timerfd_ was last set to, with the clock reading
                                      it was computed from; None once it has been read *)
  posted_ : list tq_task;          (* the loop's pendingFunctors_ *)
  fired_ : list Z;                 (* sequence numbers of the timers run *)
  clock_ : nat -> Z;               (* the successive readings of the clock *)
  reads_ : nat                     (* how many there have been *)
}.

Definition TimerQueue_new (clock : nat -> Z) : TimerQueue := mkTQ ∅ 0 [] ∅ false ∅ ∅ None [] [] clock 0.

Definition set_mem (m : gmap Z Timer) (q : TimerQueue) : TimerQueue :=
  mkTQ m (s_numCreated_ q) (timers_ q) (activeTimers_ q) (callingExpiredTimers_ q) (expiredTimers_ q)
    (cancelingTimers_ q) (armed_ q) (posted_ q) (fired_ q) (clock_ q) (reads_ q).
Definition set_created (n : Z) (q : TimerQueue) : TimerQueue :=
  mkTQ (mem_ q) n (timers_ q) (activeTimers_ q) (callingExpiredTimers_ q) (expiredTimers_ q)
    (cancelingTimers_ q) (armed_ q) (posted_ q) (fired_ q) (clock_ q) (reads_ q).
Definition set_heap (l : list Z) (act : gset TimerId) (q : TimerQueue) : TimerQueue :=
  mkTQ (mem_ q) (s_numCreated_ q) l act (callingExpiredTimers_ q) (expiredTimers_ q)
    (cancelingTimers_ q) (armed_ q) (posted_ q) (fired_ q) (clock_ q) (reads_ q).
Definition set_batch (calling : bool) (expired canceling : gset TimerId) (q : TimerQueue) : TimerQueue :=
  mkTQ (mem_ q) (s_numCreated_ q) (timers_ q) (activeTimers_ q) calling expired canceling
    (armed_ q) (posted_ q) (fired_ q) (clock_ q) (reads_ q).
Definition set_armed (a : option (Z * (Z * Z))) (q : TimerQueue) : TimerQueue :=
  mkTQ (mem_ q) (s_numCreated_ q) (timers_ q) (activeTimers_ q) (callingExpiredTimers_ q) (expiredTimers_ q)
    (cancelingTimers_ q) a (posted_ q) (fired_ q) (clock_ q) (reads_ q).
Definition set_posted (ts : list tq_task) (q : TimerQueue) : TimerQueue :=
  mkTQ (mem_ q) (s_numCreated_ q) (timers_ q) (activeTimers_ q) (callingExpiredTimers_ q) (expiredTimers_ q)
    (cancelingTimers_ q) (armed_ q) ts (fired_ q) (clock_ q) (reads_ q).
Definition log_fired (s : Z) (q : TimerQueue) : TimerQueue :=
  mkTQ (mem_ q) (s_numCreated_ q) (timers_ q) (activeTimers_ q) (callingExpiredTimers_ q) (expiredTimers_ q)
    (cancelingTimers_ q) (armed_ q) (posted_ q) (fired_ q ++ [s]) (clock_ q) (reads_ q).

Definition set_reads (n : nat) (q : TimerQueue) : TimerQueue :=
  mkTQ (mem_ q) (s_numCreated_ q) (timers_ q) (activeTimers_ q) (callingExpiredTimers_ q) (expiredTimers_ q)
    (cancelingTimers_ q) (armed_ q) (posted_ q) (fired_ q) (clock_ q) n.

(** [Timestamp::now()] *)
Definition read_clock (q : TimerQueue) : Z * TimerQueue := (clock_ q (reads_ q), set_reads (S (reads_ q)) q).

(** [TimerPtrComparator] looks at the expirations; all pointers it may follow
    must be live. *)
Definition expiry (q : TimerQueue) (p : Z) : Z :=
  match mem_ q !! p with Some t => expiration_ t | None => 0 end.

Definition all_live (q : TimerQueue) (ps : list Z) : bool :=
  forallb (fun p => bool_decide (is_Some (mem_ q !! p))) ps.

(** [delete timer]. *)
Definition delete_timer (p : Z) (q : TimerQueue) : option TimerQueue :=
  guard (is_Some (mem_ q !! p));; Some (set_mem (delete p (mem_ q)) q).

(** [timerfd_settime] accepts what [howMuchTimeFromNow] computes. *)
Definition resetTimerfd (when : Z) (q : TimerQueue) : option TimerQueue :=
  let '(now, q) := read_clock q in
  newValue ← howMuchTimeFromNow when now;
  Some (set_armed (Some (now, newValue)) q).

Definition insert_timer (p : Z) (q : TimerQueue) : option TimerQueue :=
  t ← mem_ q !! p;
  let when := expiration_ t in
  earliestChanged ← match timers_ q with
                    | [] => Some true
                    | front :: _ => f ← mem_ q !! front; Some (when <? expiration_ f)
                    end;
  guard (all_live q (timers_ q) = true);;
  let q := set_heap (push_heap (expiry q) (timers_ q ++ [p])) ({[(p, sequence_ t)]} ∪ activeTimers_ q) q in
  if earliestChanged : bool then resetTimerfd when q else Some q.

(** [new Timer] at address [p], chosen by the allocator. *)
Definition new_timer (p when : Z) (repeat : bool) (delta : Z) (q : TimerQueue) : TimerId * TimerQueue :=
  let seq := s_numCreated_ q + 1 in
  ((p, seq), set_mem (<[p := mkTimer when repeat delta seq]> (mem_ q)) (set_created seq q)).

(** [timers_.erase(std::find(...))]. *)
Fixpoint erase_first (p : Z) (l : list Z) : list Z :=
  match l with
  | [] => []
  | x :: l => if x =? p then l else x :: erase_first p l
  end.

Definition cancelInLoop (id : TimerId) (allowRetry : bool) (q : TimerQueue) : option TimerQueue :=
  if bool_decide (id ∈ activeTimers_ q) then
    let '(p, _) := id in
    let rest := erase_first p (timers_ q) in
    heap ← (if bool_decide (p ∈ timers_ q)
            then guard (all_live q rest = true);; Some (make_heap (expiry q) rest)
            else Some (timers_ q));
    delete_timer p (set_heap heap (activeTimers_ q ∖ {[id]}) q)
  else if callingExpiredTimers_ q && bool_decide (id ∈ expiredTimers_ q) then
    Some (set_batch (callingExpiredTimers_ q) (expiredTimers_ q) ({[id]} ∪ cancelingTimers_ q) q)
  else if allowRetry then Some (set_posted (posted_ q ++ [QCancel id false]) q)
  else Some q.

(** The loop of [getExpired]: every turn takes one pointer off the heap. *)
Fixpoint getExpired_loop (fuel : nat) (now : Z) (q : TimerQueue) (expired : list Z)
  : option (list Z * TimerQueue) :=
  match timers_ q with
  | [] => Some (expired, q)
  | front :: _ =>
      t ← mem_ q !! front;
      if expiration_ t <=? now then
        match fuel with
        | O => None
        | S fuel =>
            guard (all_live q (timers_ q) = true);;
            let popped := pop_heap (expiry q) (timers_ q) in
            back ← last popped;
            getExpired_loop fuel now
              (set_heap (removelast popped) (activeTimers_ q ∖ {[(front, sequence_ t)]}) q) (expired ++ [back])
        end
      else Some (expired, q)
  end.

Definition getExpired (now : Z) (q : TimerQueue) : option (list Z * TimerQueue) :=
  getExpired_loop (length (timers_ q)) now q [].

(** What code on the loop thread does with the queue: [addTimer] with the address
    the allocator picks, and [cancel]. *)
Inductive tq_act :=
| TAdd (p when : Z) (repeat : bool) (delta : Z)
| TCancel (id : TimerId).

Definition tq_perform_act (a : tq_act) (q : TimerQueue) : option TimerQueue :=
  match a with
  | TAdd p when repeat delta => insert_timer p (new_timer p when repeat delta q).2
  | TCancel id => cancelInLoop id true q
  end.

Fixpoint tq_perform (acts : list tq_act) (q : TimerQueue) : option TimerQueue :=
  match acts with
  | [] => Some q
  | a :: acts => q ← tq_perform_act a q; tq_perform acts q
  end.

(** The first loop of [reset]. *)
Fixpoint reset_expired (expired : list Z) (now : Z) (q : TimerQueue) : option TimerQueue :=
  match expired with
  | [] => Some q
  | p :: expired =>
      t ← mem_ q !! p;
      let id := (p, sequence_ t) in
      q ← (if bool_decide (id ∈ cancelingTimers_ q) then
             delete_timer p (set_batch (callingExpiredTimers_ q) (expiredTimers_ q) (cancelingTimers_ q ∖ {[id]}) q)
           else if repeat_ t then
             t' ← restart t now; insert_timer p (set_mem (<[p := t']> (mem_ q)) q)
           else delete_timer p q);
      reset_expired expired now q
  end.

Definition reset (expired : list Z) (now : Z) (q : TimerQueue) : option TimerQueue :=
  q ← reset_expired expired now q;
  match timers_ q with
  | [] => Some q
  | front :: _ =>
      t ← mem_ q !! front;
      if 0 <? expiration_ t then resetTimerfd (expiration_ t) q else Some q
  end.

(** The callbacks of the batch, in order; [acts s] is what the callback of timer
    [s] does. *)
Fixpoint run_expired (expired : list Z) (acts : Z -> list tq_act) (q : TimerQueue) : option TimerQueue :=
  match expired with
  | [] => Some q
  | p :: expired =>
      t ← mem_ q !! p;
      q ← tq_perform (acts (sequence_ t)) (log_fired (sequence_ t) q);
      run_expired expired acts q
  end.

(** The handles of the batch. *)
Fixpoint batch_ids (expired : list Z) (q : TimerQueue) : option (gset TimerId) :=
  match expired with
  | [] => Some ∅
  | p :: expired => t ← mem_ q !! p; ids ← batch_ids expired q; Some ({[(p, sequence_ t)]} ∪ ids)
  end.

(** [handleRead], whose reading of the clock is [now]: reading the timerfd disarms
    it. *)
Definition tq_handleRead (now : Z) (acts : Z -> list tq_act) (q : TimerQueue) : option TimerQueue :=
  let q := set_armed None (set_reads (S (reads_ q)) q) in
  '(expired, q) ← getExpired now q;
  ids ← batch_ids expired q;
  q ← run_expired expired acts (set_batch true ids (cancelingTimers_ q) q);
  q ← reset expired now (set_batch false (expiredTimers_ q) (cancelingTimers_ q) q);
  Some (set_batch (callingExpiredTimers_ q) ∅ (cancelingTimers_ q) q).

(** ** Executions: the timerfd becomes readable, code on the loop thread acts,
    other threads add (the object is made at once, the insertion posted) and
    cancel, and the loop runs a posted functor. *)
Inductive tq_event :=
| EvExpire (now : Z) (acts : Z -> list tq_act)
| EvAct (a : tq_act)
| EvRemoteAdd (p when : Z) (repeat : bool) (delta : Z)
| EvRemoteCancel (id : TimerId)
| EvTask.

Definition tq_step (e : tq_event) (q : TimerQueue) : option TimerQueue :=
  match e with
  | EvExpire now acts => tq_handleRead now acts q
  | EvAct a => tq_perform_act a q
  | EvRemoteAdd p when repeat delta =>
      let q := (new_timer p when repeat delta q).2 in Some (set_posted (posted_ q ++ [QInsert p]) q)
  | EvRemoteCancel id => Some (set_posted (posted_ q ++ [QCancel id true]) q)
  | EvTask =>
      match posted_ q with
      | [] => Some q
      | QInsert p :: ts => insert_timer p (set_posted ts q)
      | QCancel id retry :: ts => cancelInLoop id retry (set_posted ts q)
      end
  end.

Fixpoint tq_run (es : list tq_event) (q : TimerQueue) : option TimerQueue :=
  match es with
  | [] => Some q
  | e :: es => q ← tq_step e q; tq_run es q
  end.

(** ** Invariant *)

Lemma heap_ext (key key' : Z -> Z) (l : list Z) :
  (forall x, x ∈ l -> key' x = key x) -> heap key l -> heap key' l.
Proof.
  intros E Hh j Hj Hk. pose proof (parent_lt j).
  assert (forall i, (i < length l)%nat -> key' (l !!! i) = key (l !!! i)) as K.
  { intros i Hi. apply E. by apply list_elem_of_lookup_total_2. }
  rewrite !K by lia. by apply Hh.
Qed.

Definition seq_of (q : TimerQueue) (p : Z) : Z :=
  match mem_ q !! p with Some t => sequence_ t | None => 0 end.

Definition ids_of (q : TimerQueue) (ps : list Z) : gset TimerId :=
  list_to_set ((fun p => (p, seq_of q p)) <$> ps).

(** The timers waiting for their posted insertion. *)
Definition inserting (q : TimerQueue) : list Z :=
  omap (fun t => match t with QInsert p => Some p | QCancel _ _ => None end) (posted_ q).

(** The clock is positive, and microseconds since boot stay far below 2^62; that it
    does not go back is not needed. *)
Definition clock_ok (clock : nat -> Z) : Prop := forall k, 0 < clock k < 2 ^ 62.

(** [batch] are the expired timers [handleRead] has in its hands, [extra] those
    in the hands of a running operation.  Every live [Timer] is in exactly one
    place. *)
Record tq_inv (batch extra : list Z) (q : TimerQueue) : Prop := {
  q_heap : heap (expiry q) (timers_ q);
  q_owned : timers_ q ++ inserting q ++ extra ++ batch ≡ₚ (map_to_list (mem_ q)).*1;
  q_active : activeTimers_ q = ids_of q (timers_ q);
  q_created : 0 <= s_numCreated_ q;
  q_seq : forall p t, mem_ q !! p = Some t -> 0 < sequence_ t <= s_numCreated_ q;
  q_inj : forall p p' t t', mem_ q !! p = Some t -> mem_ q !! p' = Some t' -> sequence_ t = sequence_ t' -> p = p';
  q_valid : forall p t, mem_ q !! p = Some t -> 0 < expiration_ t < 2 ^ 63 /\ 0 <= delta_ t < 2 ^ 62;
  q_clock : clock_ok (clock_ q);
  q_canceling : cancelingTimers_ q ⊆ ids_of q batch;
  q_expired : callingExpiredTimers_ q = true -> expiredTimers_ q = ids_of q batch
}.

Lemma owned_live batch extra q p :
  tq_inv batch extra q -> p ∈ timers_ q ++ inserting q ++ extra ++ batch <-> is_Some (mem_ q !! p).
Proof.
  intros I. rewrite (q_owned _ _ _ I), list_elem_of_fmap. split.
  - intros ([p' t] & -> & Hin%elem_of_map_to_list). eauto.
  - intros [t Ht]. exists (p, t). by rewrite elem_of_map_to_list.
Qed.

Lemma owned_nodup batch extra q :
  tq_inv batch extra q -> NoDup (timers_ q ++ inserting q ++ extra ++ batch).
Proof. intros I. rewrite (q_owned _ _ _ I). apply NoDup_fst_map_to_list. Qed.

Lemma timers_live batch extra q : tq_inv batch extra q -> all_live q (timers_ q) = true.
Proof.
  intros I. unfold all_live. apply forallb_forall. intros p Hp%list_elem_of_In. apply bool_decide_eq_true.
  apply (owned_live _ _ _ _ I). set_solver.
Qed.

Lemma elem_of_ids_of q ps id : id ∈ ids_of q ps <-> id.1 ∈ ps /\ id.2 = seq_of q id.1.
Proof.
  unfold ids_of. rewrite elem_of_list_to_set, list_elem_of_fmap. destruct id as [p s]; simpl. split.
  - intros (x & [= -> ->] & ?). done.
  - intros [? ->]. eauto.
Qed.

(** Handles only depend on the sequence numbers of the timers they name. *)
Lemma ids_of_ext q q' ps : (forall p, p ∈ ps -> seq_of q' p = seq_of q p) -> ids_of q' ps = ids_of q ps.
Proof.
  intros E. apply set_eq. intros [p s]. rewrite !elem_of_ids_of; simpl. split; intros [? ->]; split; auto; by rewrite E.
Qed.

(** *** Insertion *)

(** The timerfd was set, at a reading [t] of the clock, to the time that was left
    until [when], at least 100 microseconds. *)
Definition armed_for (when : Z) (q : TimerQueue) : Prop :=
  exists k s ns, (k < reads_ q)%nat /\ armed_ q = Some (clock_ q k, (s, ns)) /\
    0 <= s /\ 0 <= ns < 1000000000 /\ s * 1000000000 + ns = 1000 * Z.max 100 (when - clock_ q k).

(** The seconds and nanoseconds handed to the kernel denote the time left, and
    never less than 100 microseconds. *)
Lemma howMuchTimeFromNow_exact when now :
  0 < when < 2 ^ 63 -> 0 < now < 2 ^ 62 ->
  exists s ns, howMuchTimeFromNow when now = Some (s, ns) /\
    0 <= s /\ 0 <= ns < 1000000000 /\ s * 1000000000 + ns = 1000 * Z.max 100 (when - now).
Proof.
  intros Hw Hn. unfold howMuchTimeFromNow, int64.
  rewrite (proj2 (Z.leb_le _ _)), (proj2 (Z.ltb_lt _ _)) by lia. cbn [andb mbind option_bind].
  set (us := if when - now <? 100 then 100 else when - now).
  assert (us = Z.max 100 (when - now)) as E by (subst us; destruct (Z.ltb_spec (when - now) 100); lia).
  do 2 eexists. split; [done|]. rewrite Z.quot_div_nonneg, Z.rem_mod_nonneg by lia. rewrite <- E.
  pose proof (Z.div_mod us 1000000). pose proof (Z.mod_pos_bound us 1000000). pose proof (Z.div_pos us 1000000). lia.
Qed.

Lemma resetTimerfd_ok when q :
  clock_ok (clock_ q) -> 0 < when < 2 ^ 63 ->
  exists a, resetTimerfd when q = Some (set_armed a (set_reads (S (reads_ q)) q)) /\
    armed_for when (set_armed a (set_reads (S (reads_ q)) q)).
Proof.
  intros Hc Hw. pose proof (Hc (reads_ q)).
  destruct (howMuchTimeFromNow_exact when (clock_ q (reads_ q))) as (s & ns & E & Hs); [done|lia|].
  unfold resetTimerfd. cbn [read_clock]. rewrite E. eexists. split; [done|]. exists (reads_ q), s, ns. cbn. split; [lia|]. done.
Qed.

Lemma insert_timer_ok batch extra p q :
  tq_inv batch (p :: extra) q ->
  exists q', insert_timer p q = Some q' /\ tq_inv batch extra q' /\ mem_ q' = mem_ q /\
    timers_ q' ≡ₚ p :: timers_ q /\ s_numCreated_ q' = s_numCreated_ q /\ posted_ q' = posted_ q /\ fired_ q' = fired_ q /\
    cancelingTimers_ q' = cancelingTimers_ q /\ expiredTimers_ q' = expiredTimers_ q /\
    callingExpiredTimers_ q' = callingExpiredTimers_ q /\ clock_ q' = clock_ q /\
    (armed_ q' = armed_ q /\ reads_ q' = reads_ q /\ timers_ q <> [] /\ expiry q (timers_ q !!! 0%nat) <= expiry q p \/
     armed_for (expiry q p) q' /\ forall x, x ∈ timers_ q -> expiry q p <= expiry q x).
Proof.
  intros I. unfold insert_timer.
  assert (is_Some (mem_ q !! p)) as [t Ht] by (apply (owned_live _ _ _ _ I); set_solver).
  assert (expiry q p = expiration_ t) as Et by (unfold expiry; by rewrite Ht). rewrite Ht. cbn [mbind option_bind].
  set (b := match timers_ q with [] => true | front :: _ => expiration_ t <? expiry q front end).
  assert (match timers_ q with [] => Some true | front :: _ => f ← mem_ q !! front; Some (expiration_ t <? expiration_ f) end
    = Some b) as ->.
  { subst b. destruct (timers_ q) as [|front l] eqn:El; [done|].
    assert (is_Some (mem_ q !! front)) as [f Hf] by (apply (owned_live _ _ _ _ I); rewrite El; set_solver).
    unfold expiry. by rewrite Hf. }
  cbn [mbind option_bind]. rewrite (timers_live _ _ _ I). case_guard; [|done]. cbn [mbind option_bind].
  destruct (push_heap_ok (expiry q) (timers_ q) p (q_heap _ _ _ I)) as [Hh Hp].
  set (heap' := push_heap _ _) in *. set (q' := set_heap _ _ q).
  assert (timers_ q' ≡ₚ p :: timers_ q) as Hperm by (cbn; rewrite Hp; solve_Permutation).
  assert (tq_inv batch extra q') as I'.
  { destruct I. split; auto.
    - cbn [timers_ q' set_heap mem_]. rewrite <- q_owned0. change (inserting q') with (inserting q).
      cbn in Hperm. rewrite Hperm. solve_Permutation.
    - change (activeTimers_ q') with ({[(p, sequence_ t)]} ∪ activeTimers_ q). rewrite q_active0.
      apply set_eq. intros [x s0]. rewrite elem_of_union, elem_of_singleton, !elem_of_ids_of. cbn [fst snd].
      rewrite Hperm. change (seq_of q' x) with (seq_of q x). rewrite elem_of_cons. split.
      + intros [[= -> ->]|?]; [|tauto]. split; [auto|]. unfold seq_of. by rewrite Ht.
      + intros [[->|?] ->]; [|tauto]. left. unfold seq_of. by rewrite Ht. }
  assert (b = false -> timers_ q <> [] /\ expiry q (timers_ q !!! 0%nat) <= expiry q p) as Bf.
  { subst b. destruct (timers_ q); [done|]. intros ?%Z.ltb_ge. split; [done|]. simpl. lia. }
  assert (b = true -> forall x, x ∈ timers_ q -> expiry q p <= expiry q x) as Bt.
  { intros Hb x [i Hi]%list_elem_of_lookup. pose proof (heap_front _ _ _ _ (q_heap _ _ _ I) Hi) as Hfr.
    subst b. destruct (timers_ q) as [|front l]; [done|]. apply Z.ltb_lt in Hb. simpl in Hfr. lia. }
  destruct (q_valid _ _ _ I _ _ Ht) as [Hv _]. destruct b.
  - destruct (resetTimerfd_ok (expiration_ t) q' (q_clock _ _ _ I') Hv) as (a & -> & Ha).
    eexists; split; [reflexivity|]. split_and!; try done; [by destruct I'|]. right. rewrite Et. rewrite Et in Bt. auto.
  - eexists; split; [reflexivity|]. split_and!; try done. left. split; [done|auto].
Qed.

(** *** Allocation and release *)

Lemma new_timer_ok batch extra p when rep delta q :
  tq_inv batch extra q -> mem_ q !! p = None -> 0 < when < 2 ^ 63 -> 0 <= delta < 2 ^ 62 ->
  tq_inv batch (p :: extra) (new_timer p when rep delta q).2.
Proof.
  intros I Hp Hw Hd. cbn [new_timer snd]. set (t := mkTimer when rep delta (s_numCreated_ q + 1)).
  assert (forall x, x ∈ timers_ q ++ inserting q ++ extra ++ batch -> x <> p) as Hne.
  { intros x Hx ->. apply (owned_live _ _ _ _ I) in Hx. rewrite Hp in Hx. by destruct Hx. }
  set (q' := set_mem _ _).
  assert (forall x, x <> p -> seq_of q' x = seq_of q x) as Hs by (intros x ?; unfold seq_of; cbn; by rewrite lookup_insert_ne).
  destruct I. split.
  - apply (heap_ext (expiry q)); [|done]. intros x Hx. unfold expiry; cbn. rewrite lookup_insert_ne; [done|].
    intros ->. by apply (Hne x); [set_solver|].
  - cbn [timers_ mem_ q' set_mem set_created]. change (inserting q') with (inserting q).
    rewrite map_to_list_insert by done. cbn. rewrite <- q_owned0. solve_Permutation.
  - change (activeTimers_ q') with (activeTimers_ q). rewrite q_active0. symmetry. apply ids_of_ext.
    intros x Hx. apply Hs, Hne. set_solver.
  - cbn. lia.
  - intros x t0. cbn. intros [[<- <-]|[? Hx]]%lookup_insert_Some; cbn.
    + lia.
    + apply q_seq0 in Hx. lia.
  - cbn. intros x y t1 t2 [[<- <-]|[? Hx]]%lookup_insert_Some [[<- <-]|[? Hy]]%lookup_insert_Some E; cbn in *; try done.
    + apply q_seq0 in Hy. lia.
    + apply q_seq0 in Hx. lia.
    + by eapply q_inj0.
  - cbn. intros x t0 [[<- <-]|[? Hx]]%lookup_insert_Some; [done|by eapply q_valid0].
  - done.
  - change (cancelingTimers_ q') with (cancelingTimers_ q). rewrite (ids_of_ext q q'); [done|].
    intros x Hx. apply Hs, Hne. set_solver.
  - cbn. intros Hc. rewrite (q_expired0 Hc). symmetry. apply ids_of_ext. intros x Hx. apply Hs, Hne. set_solver.
Qed.

(** A live timer in the hands of an operation is released. *)
Lemma delete_timer_ok batch extra p q :
  tq_inv batch (p :: extra) q ->
  exists q', delete_timer p q = Some q' /\ tq_inv batch extra q' /\ q' = set_mem (delete p (mem_ q)) q.
Proof.
  intros I. assert (is_Some (mem_ q !! p)) as [t Ht] by (apply (owned_live _ _ _ _ I); set_solver).
  pose proof (owned_nodup _ _ _ I) as Hnd.
  assert (timers_ q ++ inserting q ++ (p :: extra) ++ batch ≡ₚ p :: timers_ q ++ inserting q ++ extra ++ batch) as Ep
    by solve_Permutation.
  rewrite Ep in Hnd. apply NoDup_cons in Hnd as [Hnot _].
  unfold delete_timer. case_guard as Hg; [|rewrite Ht in Hg; by destruct Hg]. cbn [mbind option_bind].
  eexists; split; [done|]. split; [|done]. set (q' := set_mem _ q).
  assert (forall x, x <> p -> seq_of q' x = seq_of q x) as Hs by (intros x ?; unfold seq_of; cbn; by rewrite lookup_delete_ne).
  assert (forall x, x ∈ timers_ q ++ inserting q ++ extra ++ batch -> x <> p) as Hne by (intros x Hx ->; done).
  destruct I. split; auto.
  - apply (heap_ext (expiry q)); [|done]. intros x Hx. unfold expiry; cbn. rewrite lookup_delete_ne; [done|].
    intros ->. apply (Hne x); [set_solver|done].
  - cbn [timers_ mem_ q' set_mem]. change (inserting q') with (inserting q).
    apply (Permutation_cons_inv (a := p)). rewrite <- Ep, q_owned0.
    rewrite <- (map_to_list_delete _ _ _ Ht). done.
  - change (activeTimers_ q') with (activeTimers_ q). rewrite q_active0. symmetry. apply ids_of_ext.
    intros x Hx. apply Hs, Hne. set_solver.
  - cbn. intros x t0 [? Hx]%lookup_delete_Some. by eapply q_seq0.
  - cbn. intros x y t1 t2 [? Hx]%lookup_delete_Some [? Hy]%lookup_delete_Some. by eapply q_inj0.
  - cbn. intros x t0 [? Hx]%lookup_delete_Some. by eapply q_valid0.
  - change (cancelingTimers_ q') with (cancelingTimers_ q). rewrite (ids_of_ext q q'); [done|].
    intros x Hx. apply Hs, Hne. set_solver.
  - cbn. intros Hc. rewrite (q_expired0 Hc). symmetry. apply ids_of_ext. intros x Hx. apply Hs, Hne. set_solver.
Qed.

(** *** Cancellation *)

Lemma erase_first_perm p l : p ∈ l -> l ≡ₚ p :: erase_first p l.
Proof.
  induction l as [|x l IH]; intros Hp; [by apply not_elem_of_nil in Hp|]. cbn [erase_first].
  destruct (Z.eqb_spec x p) as [->|Hne]; [done|]. apply elem_of_cons in Hp as [->|Hp]; [done|].
  rewrite (IH Hp) at 1. solve_Permutation.
Qed.

(** While there are timers the timerfd is set, for the first expiration or an earlier
    time (or for 100 microseconds, when less is left). *)
Definition armed_ok (q : TimerQueue) : Prop :=
  timers_ q <> [] -> exists d, armed_for d q /\ forall x, x ∈ timers_ q -> d <= expiry q x.

Lemma armed_for_same d q q' :
  armed_ q' = armed_ q -> clock_ q' = clock_ q -> reads_ q' = reads_ q -> armed_for d q -> armed_for d q'.
Proof. unfold armed_for. by intros -> -> ->. Qed.

(** Taking [p] out of the heap. *)
Lemma unheap_ok batch extra p q l :
  tq_inv batch extra q -> heap (expiry q) l -> timers_ q ≡ₚ p :: l ->
  tq_inv batch (p :: extra) (set_heap l (activeTimers_ q ∖ {[(p, seq_of q p)]}) q).
Proof.
  intros I Hh Hp. pose proof (owned_nodup _ _ _ I) as Hnd. rewrite Hp in Hnd. cbn [app] in Hnd.
  apply NoDup_cons in Hnd as [Hnot _]. set (q' := set_heap _ _ q).
  destruct I. split; auto.
  - cbn [timers_ mem_ q' set_heap]. change (inserting q') with (inserting q). rewrite <- q_owned0, Hp. solve_Permutation.
  - change (activeTimers_ q') with (activeTimers_ q ∖ {[(p, seq_of q p)]}). rewrite q_active0.
    apply set_eq. intros [x s]. rewrite elem_of_difference, elem_of_singleton, !elem_of_ids_of. cbn [fst snd].
    change (seq_of q' x) with (seq_of q x). change (timers_ q') with l. rewrite Hp, elem_of_cons. split.
    + intros [[[->|?] ->] Hne]; [by destruct Hne|done].
    + intros [Hx ->]. split; [auto|]. intros [= -> _]. apply Hnot. set_solver.
Qed.

Inductive cancel_effect (id : TimerId) (retry : bool) (q q' : TimerQueue) : Prop :=
| CancelHeap : id ∈ activeTimers_ q -> mem_ q' = delete id.1 (mem_ q) -> timers_ q ≡ₚ id.1 :: timers_ q' ->
    activeTimers_ q' = activeTimers_ q ∖ {[id]} -> armed_ q' = armed_ q -> posted_ q' = posted_ q ->
    clock_ q' = clock_ q -> reads_ q' = reads_ q -> cancelingTimers_ q' = cancelingTimers_ q -> cancel_effect id retry q q'
| CancelBatch : id ∉ activeTimers_ q -> callingExpiredTimers_ q = true -> id ∈ expiredTimers_ q ->
    q' = set_batch true (expiredTimers_ q) ({[id]} ∪ cancelingTimers_ q) q -> cancel_effect id retry q q'
| CancelUnknown : id ∉ activeTimers_ q -> (callingExpiredTimers_ q = true -> id ∉ expiredTimers_ q) ->
    q' = set_posted (posted_ q ++ if retry then [QCancel id false] else []) q -> cancel_effect id retry q q'.

Lemma cancelInLoop_ok batch id retry q :
  tq_inv batch [] q ->
  exists q', cancelInLoop id retry q = Some q' /\ tq_inv batch [] q' /\ cancel_effect id retry q q' /\
    callingExpiredTimers_ q' = callingExpiredTimers_ q /\ expiredTimers_ q' = expiredTimers_ q /\
    fired_ q' = fired_ q /\ s_numCreated_ q' = s_numCreated_ q /\
    (forall x, x ∈ batch -> mem_ q' !! x = mem_ q !! x) /\
    cancelingTimers_ q ⊆ cancelingTimers_ q'.
Proof.
  intros I. unfold cancelInLoop. case_bool_decide as Ha.
  - destruct id as [p s]. pose proof Ha as Ha'. rewrite (q_active _ _ _ I), elem_of_ids_of in Ha'.
    cbn [fst snd] in Ha'. destruct Ha' as [Hin Hs]. rewrite bool_decide_true by done.
    pose proof (erase_first_perm p (timers_ q) Hin) as Hp.
    assert (all_live q (erase_first p (timers_ q)) = true) as Hl.
    { unfold all_live. apply forallb_forall. intros x Hx%list_elem_of_In. apply bool_decide_eq_true.
      apply (owned_live _ _ _ _ I). rewrite Hp. set_solver. }
    case_guard; [|done]. cbn [mbind option_bind mret option_ret].
    destruct (make_heap_ok (expiry q) (erase_first p (timers_ q))) as [Hh Hm].
    set (l := make_heap _ _) in *. assert (timers_ q ≡ₚ p :: l) as Hpl by by rewrite Hm.
    pose proof (unheap_ok batch [] p q l I Hh Hpl) as I1. rewrite <- Hs in I1.
    destruct (delete_timer_ok _ _ _ _ I1) as (q' & E & I' & ->). eexists; split; [exact E|].
    split; [done|]. split; [by apply CancelHeap|]. split_and!; try done.
    intros x Hx. cbn. rewrite lookup_delete_ne; [done|]. intros ->.
    pose proof (owned_nodup _ _ _ I) as Hnd. rewrite Hp in Hnd. cbn [app] in Hnd.
    apply NoDup_cons in Hnd as [Hnot _]. set_solver.
  - destruct (callingExpiredTimers_ q) eqn:Ec; cbn [andb]; [case_bool_decide as He|].
    + eexists; split; [done|]. split.
      * destruct I. split; auto. cbn. intros x [->%elem_of_singleton|?]%elem_of_union; [|auto].
        change (id ∈ ids_of q batch). rewrite <- (q_expired0 Ec). done.
      * split; [by apply CancelBatch|]. split_and!; try done. cbn. set_solver.
    + exists (set_posted (posted_ q ++ if retry then [QCancel id false] else []) q).
      split; [destruct retry; [done|rewrite app_nil_r; by destruct q]|]. split.
      * destruct I. split; auto. cbn [timers_ mem_ set_posted]. rewrite <- q_owned0. f_equiv. f_equiv.
        unfold inserting; cbn. rewrite omap_app. destruct retry; cbn; by rewrite app_nil_r.
      * split; [by apply CancelUnknown|]. done.
    + exists (set_posted (posted_ q ++ if retry then [QCancel id false] else []) q).
      split; [destruct retry; [done|rewrite app_nil_r; by destruct q]|]. split.
      * destruct I. split; auto. cbn [timers_ mem_ set_posted]. rewrite <- q_owned0. f_equiv. f_equiv.
        unfold inserting; cbn. rewrite omap_app. destruct retry; cbn; by rewrite app_nil_r.
      * split; [apply CancelUnknown; congruence|]. done.
Qed.

(** *** What a callback does

    The allocator returns an address that holds no live [Timer]; deadlines are
    positive, and intervals nonnegative and below 2^62 microseconds. *)
Definition act_ok (a : tq_act) (q : TimerQueue) : bool :=
  match a with
  | TAdd p when repeat delta =>
      bool_decide (mem_ q !! p = None) && ((0 <? when) && (when <? 2 ^ 63)) && ((0 <=? delta) && (delta <? 2 ^ 62))
  | TCancel _ => true
  end.

Fixpoint acts_ok (acts : list tq_act) (q : TimerQueue) : bool :=
  match acts with
  | [] => true
  | a :: acts => act_ok a q && match tq_perform_act a q with Some q => acts_ok acts q | None => true end
  end.

(** Sequence numbers are never used again: the live timers of [q'] are those of
    [q] or newer than all of [q]. *)
Definition seqs_grow (q q' : TimerQueue) : Prop :=
  s_numCreated_ q <= s_numCreated_ q' /\
  forall p t', mem_ q' !! p = Some t' ->
    (exists t, mem_ q !! p = Some t /\ sequence_ t = sequence_ t') \/ s_numCreated_ q < sequence_ t'.

#[global] Instance seqs_grow_preorder : PreOrder seqs_grow.
Proof.
  split; [intros q; split; [lia|eauto]|]. intros q1 q2 q3 [H1 G1] [H2 G2]. split; [lia|].
  intros p t3 H3. destruct (G2 p t3 H3) as [(t2 & Ht2 & E2)|?]; [|right; lia].
  destruct (G1 p t2 Ht2) as [(t1 & Ht1 & E1)|?]; [left; exists t1; split; [done|congruence]|right; lia].
Qed.

(** What code on the loop thread keeps. *)
Record frame (batch : list Z) (acts : list tq_act) (q q' : TimerQueue) : Prop := {
  f_inv : tq_inv batch [] q';
  f_fired : fired_ q' = fired_ q;
  f_calling : callingExpiredTimers_ q' = callingExpiredTimers_ q;
  f_expired : expiredTimers_ q' = expiredTimers_ q;
  f_batch : forall x, x ∈ batch -> mem_ q' !! x = mem_ q !! x;
  f_armed : armed_ok q -> armed_ok q';
  f_created : seqs_grow q q';
  f_canceling : forall id, id ∈ cancelingTimers_ q' <->
    id ∈ cancelingTimers_ q \/ TCancel id ∈ acts /\ callingExpiredTimers_ q = true /\ id ∈ expiredTimers_ q
}.

Lemma expired_inactive batch extra q id :
  tq_inv batch extra q -> callingExpiredTimers_ q = true -> id ∈ expiredTimers_ q -> id ∉ activeTimers_ q.
Proof.
  intros I Hc He Ha. rewrite (q_expired _ _ _ I Hc), elem_of_ids_of in He. rewrite (q_active _ _ _ I), elem_of_ids_of in Ha.
  pose proof (owned_nodup _ _ _ I) as Hnd. apply NoDup_app in Hnd as (_ & Hd & _).
  apply (Hd id.1); [tauto|]. set_solver.
Qed.

Lemma cancel_frame batch id retry q :
  tq_inv batch [] q -> exists q', cancelInLoop id retry q = Some q' /\ frame batch [TCancel id] q q'.
Proof.
  intros I. destruct (cancelInLoop_ok batch id retry q I) as (q' & E & I' & Hc & H1 & H2 & H3 & H4 & H5 & H6).
  exists q'. split; [done|]. split; auto; [| |].
  - intros Ha. destruct Hc as [Hin Hm Hp _ Hr _ Hcl Hrd _|_ _ _ ->| _ _ ->]; [|done|done]. intros Hne.
    assert (forall x, x ∈ timers_ q' -> expiry q' x = expiry q x) as Ex.
    { intros x Hx. unfold expiry. rewrite Hm, lookup_delete_ne; [done|]. intros <-.
      pose proof (owned_nodup _ _ _ I) as Hnd. rewrite Hp in Hnd. apply NoDup_cons in Hnd as [Hnot _]. set_solver. }
    destruct Ha as (d & Hd & Hle); [intros E0; rewrite E0 in Hp; by apply Permutation_nil_cons in Hp|].
    exists d. split; [by apply (armed_for_same d q)|]. intros x Hx. rewrite (Ex x Hx). apply Hle. rewrite Hp. set_solver.
  - split; [lia|]. intros x t' Hx. left. exists t'. split; [|done].
    destruct Hc as [_ Hm _ _ _ _ _ _ _|_ _ _ ->| _ _ ->]; [|done|done]. rewrite Hm in Hx.
    by apply lookup_delete_Some in Hx as [_ Hx].
  - intros i. rewrite list_elem_of_singleton.
    destruct Hc as [Hin _ _ _ _ _ _ _ ->|Hn Hca He ->| Hn Hca ->].
    + split; [auto|]. intros [?|([= ->] & Hca & He)]; [done|]. by destruct (expired_inactive _ _ _ _ I Hca He).
    + cbn. rewrite elem_of_union, elem_of_singleton. split; [intros [->|?]; auto|]. intros [?|([= ->] & _)]; auto.
    + cbn. split; [auto|]. intros [?|([= ->] & Hc1 & He)]; [done|]. by destruct (Hca Hc1).
Qed.

Lemma insert_armed batch extra p q q' :
  tq_inv batch (p :: extra) q -> insert_timer p q = Some q' -> armed_ok q -> armed_ok q'.
Proof.
  intros I E Ha _. destruct (insert_timer_ok _ _ _ _ I) as (q1 & E1 & I1 & Hm & Hp & _ & _ & _ & _ & _ & _ & Hcl & Hr).
  rewrite E in E1. injection E1 as <-.
  assert (forall x, expiry q' x = expiry q x) as Ex by (intros x; unfold expiry; by rewrite Hm).
  destruct Hr as [(Hr & Hrd & Hne & Hle)|[Hr Hle]].
  - destruct (Ha Hne) as (d & Hd & Hmin). exists d. split; [by apply (armed_for_same d q)|]. intros x. rewrite Hp, Ex, elem_of_cons.
    intros [->|Hx]; [|auto]. etrans; [|apply Hle]. apply Hmin. destruct (timers_ q); [done|]. simpl. set_solver.
  - exists (expiry q p). split; [done|]. intros x. rewrite Hp, Ex, elem_of_cons. intros [->|Hx]; [lia|auto].
Qed.

Lemma act_ok_add p when rep delta q :
  act_ok (TAdd p when rep delta) q = true <-> mem_ q !! p = None /\ 0 < when < 2 ^ 63 /\ 0 <= delta < 2 ^ 62.
Proof. cbn [act_ok]. rewrite !andb_true_iff, bool_decide_eq_true, !Z.ltb_lt, Z.leb_le. tauto. Qed.

Lemma add_frame batch p when rep delta q :
  tq_inv batch [] q -> act_ok (TAdd p when rep delta) q = true ->
  exists q', insert_timer p (new_timer p when rep delta q).2 = Some q' /\ frame batch [TAdd p when rep delta] q q'.
Proof.
  intros I (Hp & Hw & Hd)%act_ok_add.
  pose proof (new_timer_ok batch [] p when rep delta q I Hp Hw Hd) as I1.
  destruct (insert_timer_ok _ _ _ _ I1) as (q' & E & I' & Hm & Hpt & Hn & Hpo & Hf & Hc & He & Hca & _).
  exists q'. split; [done|].
  assert (forall x, is_Some (mem_ q !! x) -> mem_ q' !! x = mem_ q !! x) as Hsame.
  { intros x Hx. rewrite Hm. cbn. rewrite lookup_insert_ne; [done|]. intros <-. rewrite Hp in Hx. by destruct Hx. }
  split; auto.
  - intros x Hx. apply Hsame, (owned_live _ _ _ _ I). set_solver.
  - intros Ha. apply (insert_armed _ _ _ _ _ I1 E). intros Hne. destruct (Ha Hne) as (d & Hd1 & Hmin).
    exists d. split; [done|]. intros x Hx. unfold expiry. rewrite <- Hm, Hsame; [by apply Hmin|].
    apply (owned_live _ _ _ _ I). change (x ∈ timers_ q) in Hx. set_solver.
  - split; [rewrite Hn; cbn; lia|]. intros x t'. rewrite Hm. cbn.
    intros [[<- <-]|[_ Hx]]%lookup_insert_Some; [right; cbn; lia|eauto].
  - intros i. rewrite list_elem_of_singleton, Hc. cbn. split; [auto|]. by intros [?|[? _]].
Qed.

Lemma perform_act_frame batch a q :
  tq_inv batch [] q -> act_ok a q = true -> exists q', tq_perform_act a q = Some q' /\ frame batch [a] q q'.
Proof. destruct a; intros I Ha; [by apply add_frame|by apply cancel_frame]. Qed.

Lemma frame_trans batch a1 a2 q1 q2 q3 :
  frame batch a1 q1 q2 -> frame batch a2 q2 q3 -> frame batch (a1 ++ a2) q1 q3.
Proof.
  intros [] []. split; auto; try congruence; [|by etrans|].
  - intros x Hx. rewrite f_batch1, f_batch0; auto.
  - intros id. rewrite f_canceling1, f_canceling0, f_calling0, f_expired0, elem_of_app. tauto.
Qed.

Lemma frame_refl batch q : tq_inv batch [] q -> frame batch [] q q.
Proof. intros I. split; auto; [done|]. intros id. set_solver. Qed.

Lemma tq_perform_frame batch acts q :
  tq_inv batch [] q -> acts_ok acts q = true -> exists q', tq_perform acts q = Some q' /\ frame batch acts q q'.
Proof.
  revert q; induction acts as [|a acts IH]; intros q I Ha; [eexists; split; [done|by apply frame_refl]|].
  apply andb_prop in Ha as [Ha Has]. destruct (perform_act_frame batch a q I Ha) as (q1 & E1 & F1).
  rewrite E1 in Has. destruct (IH q1 (f_inv _ _ _ _ F1) Has) as (q2 & E2 & F2). exists q2. cbn [tq_perform].
  rewrite E1. cbn. split; [done|]. by apply (frame_trans _ [a] acts _ q1).
Qed.

(** *** Taking the due timers *)

Lemma tq_inv_extra batch extra extra' q : extra ≡ₚ extra' -> tq_inv batch extra q -> tq_inv batch extra' q.
Proof. intros E []. split; auto. by rewrite <- E. Qed.

Lemma getExpired_loop_ok fuel now q acc :
  tq_inv [] acc q -> (length (timers_ q) <= fuel)%nat ->
  exists due q', getExpired_loop fuel now q acc = Some (acc ++ due, q') /\ tq_inv [] (acc ++ due) q' /\
    q' = set_heap (timers_ q') (activeTimers_ q') q /\ timers_ q ≡ₚ due ++ timers_ q' /\
    StronglySorted (fun x y => expiry q x <= expiry q y) due /\
    (forall x, x ∈ due -> expiry q x <= now) /\ (forall x, x ∈ timers_ q' -> now < expiry q x).
Proof.
  revert q acc. induction fuel as [|fuel IH]; intros q acc I Hl.
  - destruct (timers_ q) eqn:El; cbn in Hl; [|lia]. exists [], q. cbn [getExpired_loop]. rewrite El, app_nil_r.
    split_and!; try done; [by destruct q; cbn in *; subst|constructor|set_solver|set_solver].
  - cbn [getExpired_loop]. destruct (timers_ q) as [|front l] eqn:El.
    { exists [], q. rewrite app_nil_r, El. split_and!; try done; [by destruct q; cbn in *; subst|constructor|set_solver|set_solver]. }
    assert (is_Some (mem_ q !! front)) as [t Ht] by (apply (owned_live _ _ _ _ I); rewrite El; set_solver).
    assert (expiry q front = expiration_ t) as Et by (unfold expiry; by rewrite Ht).
    pose proof (q_heap _ _ _ I) as Hh. rewrite El in Hh. pose proof (fun i x H => heap_front (expiry q) _ x i Hh H) as Hfr.
    rewrite Ht. cbn [mbind option_bind]. destruct (Z.leb_spec (expiration_ t) now) as [Hle|Hgt].
    + pose proof (timers_live _ _ _ I) as Hlive. rewrite El in Hlive. case_guard; [|done]. cbn [mbind option_bind].
      destruct (pop_heap_ok (expiry q) (front :: l) Hh) as (l' & -> & Hh' & Hp); [done|]. cbn [lookup_total list_lookup_total] in *. rewrite last_snoc, removelast_last. cbn [mbind option_bind].
      assert (tq_inv [] (acc ++ [front]) (set_heap l' (activeTimers_ q ∖ {[(front, sequence_ t)]}) q)) as I1.
      { apply (tq_inv_extra _ (front :: acc)); [solve_Permutation|].
        assert (sequence_ t = seq_of q front) as -> by (unfold seq_of; by rewrite Ht).
        apply unheap_ok; [done|done|by rewrite El]. }
      apply Permutation_length in Hp as Hlen. cbn in Hlen, Hl.
      destruct (IH _ _ I1) as (due & q' & E & I' & Hq & Hpt & Hs & Hd & Hk); [cbn; lia|]. cbn [timers_ set_heap] in Hpt.
      exists (front :: due), q'. rewrite <- app_assoc in E, I'. split_and!; try done.
      * by rewrite Hp, Hpt.
      * constructor; [done|]. apply Forall_forall. intros x Hx.
        assert (x ∈ front :: l) as [i Hi]%list_elem_of_lookup by (rewrite Hp, Hpt; set_solver). apply (Hfr i x Hi).
      * intros x [->|Hx]%elem_of_cons; [lia|by apply Hd].
    + exists [], q. rewrite app_nil_r. split_and!; try done; [by destruct q; cbn in *; subst|by rewrite El|constructor|set_solver|].
      intros x. rewrite El. intros [i Hi]%list_elem_of_lookup. specialize (Hfr i x Hi). cbn in Hfr. lia.
Qed.

(** *** Running the batch *)

Lemma batch_ids_ok q ps : (forall p, p ∈ ps -> is_Some (mem_ q !! p)) -> batch_ids ps q = Some (ids_of q ps).
Proof.
  induction ps as [|p ps IH]; intros H; [done|]. cbn [batch_ids].
  destruct (H p) as [t Ht]; [set_solver|]. rewrite Ht, IH by set_solver. cbn.
  unfold seq_of. by rewrite Ht.
Qed.

Lemma start_batch due q :
  tq_inv [] due q -> tq_inv due [] (set_batch true (ids_of q due) (cancelingTimers_ q) q).
Proof.
  intros []. split; auto; cbn.
  - rewrite <- q_owned0. change (inserting (set_batch _ _ _ q)) with (inserting q). solve_Permutation.
  - set_solver.
Qed.

(** The allocator's contract for the callbacks of a batch. *)
Fixpoint batch_ok (batch : list Z) (acts : Z -> list tq_act) (q : TimerQueue) : bool :=
  match batch with
  | [] => true
  | p :: batch =>
      acts_ok (acts (seq_of q p)) (log_fired (seq_of q p) q) &&
      match tq_perform (acts (seq_of q p)) (log_fired (seq_of q p) q) with
      | Some q => batch_ok batch acts q
      | None => true
      end
  end.

Lemma run_expired_ok batch rest acts q :
  tq_inv batch [] q -> callingExpiredTimers_ q = true -> rest ⊆ batch -> batch_ok rest acts q = true ->
  exists q', run_expired rest acts q = Some q' /\ tq_inv batch [] q' /\
    fired_ q' = fired_ q ++ (seq_of q <$> rest) /\
    (forall x, x ∈ batch -> mem_ q' !! x = mem_ q !! x) /\ seqs_grow q q' /\
    (forall id, id ∈ cancelingTimers_ q' <-> id ∈ cancelingTimers_ q \/
       id ∈ expiredTimers_ q /\ exists p, p ∈ rest /\ TCancel id ∈ acts (seq_of q p)).
Proof.
  revert q. induction rest as [|p rest IH]; intros q I Hc Hr Hb.
  { exists q. split_and!; try done; [by rewrite app_nil_r|]. intros id. set_solver. }
  cbn [run_expired]. assert (is_Some (mem_ q !! p)) as [t Ht] by (apply (owned_live _ _ _ _ I); set_solver).
  assert (sequence_ t = seq_of q p) as Es by (unfold seq_of; by rewrite Ht).
  rewrite Ht. cbn [mbind option_bind]. rewrite Es. cbn [batch_ok] in Hb. apply andb_prop in Hb as [Ha Hb].
  set (q1 := log_fired _ q) in *. assert (tq_inv batch [] q1) as I1 by (destruct I; split; auto).
  destruct (tq_perform_frame batch _ _ I1 Ha) as (q2 & E2 & F2). rewrite E2 in Hb |- *. cbn [mbind option_bind]. destruct F2.
  assert (forall x, x ∈ batch -> seq_of q2 x = seq_of q x) as Hs by (intros x Hx; unfold seq_of; by rewrite f_batch0).
  destruct (IH q2) as (q' & E' & I' & Hf & Hm & Hn & Hk); [done|by rewrite f_calling0|set_solver|done|].
  exists q'. split_and!; try done.
  - rewrite Hf, f_fired0. cbn [fired_ q1 log_fired]. rewrite <- app_assoc. cbn. f_equal. f_equal.
    apply list_fmap_ext. intros i x Hx%list_elem_of_lookup_2. apply Hs. set_solver.
  - intros x Hx. by rewrite Hm, f_batch0.
  - by etrans; [exact f_created0|].
  - intros id. rewrite Hk, f_canceling0, f_expired0. change (expiredTimers_ q1) with (expiredTimers_ q).
    change (cancelingTimers_ q1) with (cancelingTimers_ q). change (callingExpiredTimers_ q1) with (callingExpiredTimers_ q). split.
    + intros [[?|(? & _ & ?)]|(? & x & ? & Hx)]; [auto|right; split; [done|]; exists p; set_solver|].
      right. split; [done|]. exists x. rewrite <- (Hs x) by set_solver. set_solver.
    + intros [?|(? & x & [->|Hin]%elem_of_cons & Hx)]; [auto|tauto|]. right. split; [done|]. exists x.
      rewrite (Hs x) by set_solver. done.
Qed.

(** *** Rearming *)

Lemma hand_over p rest extra q :
  tq_inv (p :: rest) extra q -> callingExpiredTimers_ q = false -> (p, seq_of q p) ∉ cancelingTimers_ q ->
  tq_inv rest (p :: extra) q.
Proof.
  intros [] Hc Hn. split; auto.
  - rewrite <- q_owned0. solve_Permutation.
  - intros id Hid. pose proof (q_canceling0 id Hid) as H. rewrite elem_of_ids_of in H |- *.
    destruct H as [[Hp|Hp]%elem_of_cons Hs]; [|done]. destruct Hn. destruct id as [x s]; cbn in *. by subst.
  - congruence.
Qed.

(** A repeating timer one interval after [now]. *)
Definition restarted (t : Timer) (now : Z) : Timer := mkTimer (now + delta_ t) (repeat_ t) (delta_ t) (sequence_ t).

Lemma restart_Some t now :
  repeat_ t = true -> 0 < now < 2 ^ 62 -> 0 <= delta_ t < 2 ^ 62 -> restart t now = Some (restarted t now).
Proof.
  intros Hr Hn Hd. unfold restart, timestamp_add, int64. rewrite Hr, (proj2 (Z.leb_le _ _)), (proj2 (Z.ltb_lt _ _)) by lia.
  cbn. unfold restarted. by rewrite Hr.
Qed.

Lemma restart_ok batch extra p t now q :
  tq_inv batch (p :: extra) q -> mem_ q !! p = Some t -> 0 < now < 2 ^ 62 -> repeat_ t = true ->
  tq_inv batch (p :: extra) (set_mem (<[p := restarted t now]> (mem_ q)) q).
Proof.
  intros I Ht Hn Hr. pose proof (owned_nodup _ _ _ I) as Hnd. set (q' := set_mem _ q).
  assert (forall x, seq_of q' x = seq_of q x) as Hs.
  { intros x. unfold seq_of. cbn. destruct (decide (x = p)) as [->|]; [by rewrite lookup_insert_eq, Ht|by rewrite lookup_insert_ne]. }
  assert (forall ps, ids_of q' ps = ids_of q ps) as Hi by (intros ps; by apply ids_of_ext).
  destruct I. split; auto.
  - apply (heap_ext (expiry q)); [|done]. intros x Hx. unfold expiry; cbn. rewrite lookup_insert_ne; [done|].
    intros <-. apply NoDup_app in Hnd as (_ & Hd & _). apply (Hd p Hx). set_solver.
  - cbn [timers_ mem_ q' set_mem]. change (inserting q') with (inserting q). rewrite q_owned0.
    rewrite <- (insert_delete_eq (mem_ q)), map_to_list_insert by apply lookup_delete_eq.
    rewrite <- (map_to_list_delete _ _ _ Ht). done.
  - by rewrite Hi.
  - cbn. intros x t0 [[<- <-]|[? Hx]]%lookup_insert_Some; [exact (q_seq0 p t Ht)|by eapply q_seq0].
  - cbn. intros x y t1 t2 [[<- <-]|[? Hx]]%lookup_insert_Some [[<- <-]|[? Hy]]%lookup_insert_Some; cbn; try done;
      eapply q_inj0; eassumption.
  - cbn. intros x t0 [[<- <-]|[? Hx]]%lookup_insert_Some; [|by eapply q_valid0].
    destruct (q_valid0 p t Ht). cbn. lia.
  - by rewrite Hi.
  - rewrite Hi. done.
Qed.

(** What is left of an expired timer after the batch. *)
Definition after_batch (now : Z) (cancelled : bool) (t : Timer) : option Timer :=
  if cancelled then None else if repeat_ t then Some (restarted t now) else None.

(** One turn of the first loop of [reset]. *)
Lemma reset_one p rest now t q :
  tq_inv (p :: rest) [] q -> callingExpiredTimers_ q = false -> 0 < now < 2 ^ 62 -> mem_ q !! p = Some t ->
  exists q',
    (if bool_decide ((p, sequence_ t) ∈ cancelingTimers_ q) then
       delete_timer p (set_batch (callingExpiredTimers_ q) (expiredTimers_ q) (cancelingTimers_ q ∖ {[(p, sequence_ t)]}) q)
     else if repeat_ t then t' ← restart t now; insert_timer p (set_mem (<[p := t']> (mem_ q)) q)
     else delete_timer p q) = Some q' /\ tq_inv rest [] q' /\
    fired_ q' = fired_ q /\ callingExpiredTimers_ q' = false /\ s_numCreated_ q' = s_numCreated_ q /\
    mem_ q' !! p = after_batch now (bool_decide ((p, sequence_ t) ∈ cancelingTimers_ q)) t /\
    (forall x, x <> p -> mem_ q' !! x = mem_ q !! x) /\ timers_ q ⊆ timers_ q' /\
    (is_Some (mem_ q' !! p) -> p ∈ timers_ q') /\
    (forall id, id.1 <> p -> id ∈ cancelingTimers_ q' <-> id ∈ cancelingTimers_ q).
Proof.
  intros I Hc Hn Ht. assert (sequence_ t = seq_of q p) as Es by (unfold seq_of; by rewrite Ht). unfold after_batch.
  case_bool_decide as Hin.
  - set (q1 := set_batch _ _ _ q).
    assert (tq_inv rest [p] q1) as I1.
    { apply hand_over; [|done|]; [destruct I; split; auto; cbn|].
      { intros id [Hid _]%elem_of_difference. by apply q_canceling0. }
      change (seq_of q1 p) with (seq_of q p). rewrite <- Es. cbn. set_solver. }
    destruct (delete_timer_ok _ _ _ _ I1) as (q' & E & I' & ->). eexists; split; [exact E|]. cbn.
    split_and!; try done; [apply lookup_delete_eq|intros x ?; by rewrite lookup_delete_ne| |].
    + rewrite lookup_delete_eq. by intros [? ?].
    + intros id Hid. rewrite elem_of_difference, elem_of_singleton. split; [tauto|]. intros ?. split; [done|]. by intros ->.
  - assert (tq_inv rest [p] q) as I1 by (apply hand_over; [done|done|by rewrite <- Es]).
    destruct (repeat_ t) eqn:Er.
    + pose proof (restart_ok _ _ _ _ now _ I1 Ht Hn Er) as I2.
      rewrite restart_Some by (done || apply (q_valid _ _ _ I _ _ Ht)). cbn [mbind option_bind].
      destruct (insert_timer_ok _ _ _ _ I2) as (q' & E & I' & Hm & Hp & H1 & H2 & H3 & H4 & H5 & H6 & _ & _).
      eexists; split; [exact E|]. cbn in *. rewrite Hm. split_and!; try done; try congruence.
      * by rewrite lookup_insert_eq.
      * intros x ?. by rewrite lookup_insert_ne.
      * rewrite Hp. set_solver.
      * rewrite Hp. set_solver.
      * rewrite H4. done.
    + destruct (delete_timer_ok _ _ _ _ I1) as (q' & E & I' & ->). eexists; split; [exact E|]. cbn.
      split_and!; try done; [apply lookup_delete_eq|intros x ?; by rewrite lookup_delete_ne|].
      rewrite lookup_delete_eq. by intros [? ?].
Qed.

Lemma reset_expired_ok rest now q :
  tq_inv rest [] q -> callingExpiredTimers_ q = false -> 0 < now < 2 ^ 62 ->
  exists q', reset_expired rest now q = Some q' /\ tq_inv [] [] q' /\ fired_ q' = fired_ q /\
    callingExpiredTimers_ q' = false /\ s_numCreated_ q' = s_numCreated_ q /\
    (forall x, x ∉ rest -> mem_ q' !! x = mem_ q !! x) /\ timers_ q ⊆ timers_ q' /\
    (forall x t, x ∈ rest -> mem_ q !! x = Some t ->
       mem_ q' !! x = after_batch now (bool_decide ((x, sequence_ t) ∈ cancelingTimers_ q)) t /\
       (is_Some (mem_ q' !! x) -> x ∈ timers_ q')).
Proof.
  revert q. induction rest as [|p rest IH]; intros q I Hc Hn.
  { exists q. split_and!; try done. set_solver. }
  cbn [reset_expired]. assert (is_Some (mem_ q !! p)) as [t Ht] by (apply (owned_live _ _ _ _ I); set_solver).
  rewrite Ht. cbn [mbind option_bind].
  destruct (reset_one p rest now t q I Hc Hn Ht) as (q1 & -> & I1 & Hf1 & Hc1 & Hn1 & Hp1 & Hm1 & Ht1 & Hl1 & Hk1).
  cbn [mbind option_bind].
  assert (p ∉ rest) as Hnot.
  { pose proof (owned_nodup _ _ _ I) as Hnd. rewrite !NoDup_app in Hnd. cbn in Hnd. rewrite NoDup_cons in Hnd. tauto. }
  destruct (IH q1 I1 Hc1 Hn) as (q' & -> & I' & Hf & Hc' & Hn' & Hm & Hti & Hb). exists q'. split; [done|].
  split_and!; try done; try congruence.
  - intros x Hx. rewrite Hm, Hm1; set_solver.
  - set_solver.
  - intros x t0 [->|Hx]%elem_of_cons Hx0.
    + assert (t0 = t) as -> by congruence. rewrite (Hm p Hnot). split; [done|]. intros ?. apply Hti. auto.
    + assert (x <> p) as Hne by set_solver. rewrite <- (Hm1 x Hne) in Hx0. destruct (Hb x t0 Hx Hx0) as [-> ?].
      split; [|done]. f_equal. apply bool_decide_ext, (Hk1 (x, sequence_ t0)). done.
Qed.

Lemma reset_ok rest now q :
  tq_inv rest [] q -> callingExpiredTimers_ q = false -> 0 < now < 2 ^ 62 ->
  exists q', reset rest now q = Some q' /\ tq_inv [] [] q' /\ armed_ok q' /\ fired_ q' = fired_ q /\
    callingExpiredTimers_ q' = false /\ s_numCreated_ q' = s_numCreated_ q /\
    (forall x, x ∉ rest -> mem_ q' !! x = mem_ q !! x) /\ timers_ q ⊆ timers_ q' /\
    (forall x t, x ∈ rest -> mem_ q !! x = Some t ->
       mem_ q' !! x = after_batch now (bool_decide ((x, sequence_ t) ∈ cancelingTimers_ q)) t /\
       (is_Some (mem_ q' !! x) -> x ∈ timers_ q')).
Proof.
  intros I Hc Hn. unfold reset. destruct (reset_expired_ok rest now q I Hc Hn) as (q1 & -> & I1 & H1). cbn [mbind option_bind].
  destruct (timers_ q1) as [|front l] eqn:El.
  { exists q1. split_and!; try tauto; [|by rewrite El; tauto|by rewrite El; tauto]. intros ?. congruence. }
  assert (is_Some (mem_ q1 !! front)) as [t Ht] by (apply (owned_live _ _ _ _ I1); rewrite El; set_solver).
  rewrite Ht. cbn [mbind option_bind]. destruct (q_valid _ _ _ I1 _ _ Ht) as [Hv _].
  destruct (Z.ltb_spec 0 (expiration_ t)); [|lia].
  destruct (resetTimerfd_ok (expiration_ t) q1 (q_clock _ _ _ I1) Hv) as (a & -> & Ha). eexists; split; [done|].
  rewrite <- El in H1. split; [by destruct I1|]. split; [|by cbn].
  intros _. exists (expiration_ t). split; [done|]. intros x [i Hi]%list_elem_of_lookup. cbn in Hi.
  pose proof (heap_front _ _ _ _ (q_heap _ _ _ I1) Hi) as Hfr. rewrite El in Hfr. cbn in Hfr.
  unfold expiry in Hfr at 1. rewrite Ht in Hfr. exact Hfr.
Qed.

(** *** The timerfd is readable *)

#[global] Instance tq_act_dec : EqDecision tq_act.
Proof. solve_decision. Defined.

(** Some callback of the batch cancels the handle. *)
Definition batch_cancels (acts : Z -> list tq_act) (q : TimerQueue) (due : list Z) (id : TimerId) : bool :=
  existsb (fun p => bool_decide (TCancel id ∈ acts (seq_of q p))) due.

Lemma batch_cancels_spec acts q due id :
  batch_cancels acts q due id = true <-> exists p, p ∈ due /\ TCancel id ∈ acts (seq_of q p).
Proof.
  unfold batch_cancels. rewrite existsb_exists. split; intros (p & Hp & Hb); exists p.
  - by rewrite list_elem_of_In, bool_decide_eq_true in *.
  - by rewrite <- list_elem_of_In, bool_decide_eq_true.
Qed.

(** What an expiration does: the batch [due], in order. *)
Record expiration (now : Z) (acts : Z -> list tq_act) (q : TimerQueue) (due : list Z) (q' : TimerQueue) : Prop := {
  e_due : due ≡ₚ filter (fun p => expiry q p <= now) (timers_ q);
  e_sorted : StronglySorted (fun x y => expiry q x <= expiry q y) due;
  e_fired : fired_ q' = fired_ q ++ (seq_of q <$> due);
  e_after : forall p t, p ∈ due -> mem_ q !! p = Some t ->
    mem_ q' !! p = after_batch now (batch_cancels acts q due (p, sequence_ t)) t /\
    (is_Some (mem_ q' !! p) -> p ∈ timers_ q')
}.

(** Between two events of the loop no batch is running, and the timerfd is set. *)
Record tq_idle (q : TimerQueue) : Prop := {
  i_inv : tq_inv [] [] q;
  i_calling : callingExpiredTimers_ q = false;
  i_armed : armed_ok q
}.

(** The loop's thread reads the clock of the queue; the allocator and the times are
    as above. *)
Definition event_ok (e : tq_event) (q : TimerQueue) : bool :=
  match e with
  | EvExpire now acts =>
      (now =? clock_ q (reads_ q)) && match getExpired now (set_armed None (set_reads (S (reads_ q)) q)) with
                    | Some (due, q) => batch_ok due acts (set_batch true (ids_of q due) (cancelingTimers_ q) q)
                    | None => true
                    end
  | EvAct a => act_ok a q
  | EvRemoteAdd p when repeat delta => act_ok (TAdd p when repeat delta) q
  | EvRemoteCancel _ | EvTask => true
  end.

Lemma getExpired_ok now q :
  tq_inv [] [] q ->
  exists due q', getExpired now q = Some (due, q') /\ tq_inv [] due q' /\
    q' = set_heap (timers_ q') (activeTimers_ q') q /\
    due ≡ₚ filter (fun p => expiry q p <= now) (timers_ q) /\
    StronglySorted (fun x y => expiry q x <= expiry q y) due.
Proof.
  intros I. destruct (getExpired_loop_ok (length (timers_ q)) now q [] I) as (due & q' & E & I' & Hq & Hp & Hs & Hd & Hk); [lia|].
  exists due, q'. split_and!; try done. rewrite Hp, filter_app.
  assert (filter (fun p => expiry q p <= now) due = due) as ->.
  { clear -Hd. induction due as [|x due IH]; [done|]. rewrite filter_cons_True by (apply Hd; set_solver).
    f_equal. apply IH. intros. apply Hd. set_solver. }
  assert (filter (fun p => expiry q p <= now) (timers_ q') = []) as ->; [|by rewrite app_nil_r].
  clear -Hk. induction (timers_ q') as [|x l IH]; [done|]. rewrite filter_cons_False; [apply IH; set_solver|].
  specialize (Hk x). apply Z.lt_nge. apply Hk. set_solver.
Qed.

Lemma tq_handleRead_ok now acts q :
  tq_inv [] [] q -> event_ok (EvExpire now acts) q = true ->
  exists due q', tq_handleRead now acts q = Some q' /\ tq_idle q' /\ seqs_grow q q' /\ expiration now acts q due q'.
Proof.
  intros I Hok. cbn [event_ok] in Hok. apply andb_prop in Hok as [En%Z.eqb_eq Hb].
  assert (0 < now < 2 ^ 62) as Hn by (pose proof (q_clock _ _ _ I (reads_ q)); lia). unfold tq_handleRead.
  set (q0 := set_armed None _) in *. assert (tq_inv [] [] q0) as I0 by (destruct I; split; auto).
  destruct (getExpired_ok now q0 I0) as (due & q1 & E1 & I1 & Hq1 & Hdue & Hs). rewrite E1 in Hb |- *. cbn [mbind option_bind].
  rewrite batch_ids_ok by (intros p Hp; apply (owned_live _ _ _ _ I1); set_solver). cbn [mbind option_bind].
  pose proof (start_batch due q1 I1) as I2. set (q2 := set_batch _ _ _ q1) in *.
  destruct (run_expired_ok due due acts q2 I2) as (q3 & -> & I3 & Hf3 & Hm3 & Hg3 & Hk3); [done|done|done|]. cbn [mbind option_bind].
  set (q4 := set_batch _ _ _ q3).
  assert (tq_inv due [] q4) as I4 by (destruct I3; split; auto; done).
  destruct (reset_ok due now q4 I4) as (q5 & -> & I5 & Ha5 & Hf5 & Hc5 & Hn5 & Hm5 & Ht5 & Hb5); [done|done|]. cbn [mbind option_bind].
  assert (mem_ q2 = mem_ q) as Em by (cbn; rewrite Hq1; done).
  assert (forall x, seq_of q2 x = seq_of q x) as Es by (intros x; unfold seq_of; by rewrite Em).
  assert (fired_ q2 = fired_ q) as Ef by (cbn; rewrite Hq1; done).
  exists due. eexists. split; [done|]. split; [|split]; [| |split].
  - split; [|done|done]. destruct I5. split; auto.
  - transitivity q2; [split; [cbn; rewrite Hq1; cbn; lia|rewrite Em; eauto]|]. transitivity q4; [exact Hg3|].
    split; [change (s_numCreated_ q4 <= s_numCreated_ q5); lia|]. cbn. intros x t' Hx. destruct (decide (x ∈ due)) as [Hin|Hin]; [|rewrite Hm5 in Hx by done; left; eauto].
    assert (is_Some (mem_ q4 !! x)) as [t Ht] by (apply (owned_live _ _ _ _ I4); set_solver).
    destruct (Hb5 x t Hin Ht) as [Hx' _]. rewrite Hx in Hx'. left. exists t. split; [done|].
    unfold after_batch in Hx'. repeat case_match; simplify_eq. done.
  - exact Hdue.
  - exact Hs.
  - cbn. rewrite Hf5. cbn. rewrite Hf3, Ef. f_equal. apply list_fmap_ext. intros; apply Es.
  - intros p t Hp Ht. cbn. destruct (Hb5 p t Hp) as [-> Hin]; [cbn; rewrite Hm3 by done; by rewrite Em|]. split; [|done]. f_equal.
    apply eq_true_iff_eq. rewrite bool_decide_eq_true, batch_cancels_spec. cbn [cancelingTimers_ q4 set_batch]. rewrite Hk3.
    assert (cancelingTimers_ q2 = ∅) as -> by (cbn; pose proof (q_canceling _ _ _ I1) as Hcan; set_solver).
    split; [intros [?|(_ & x & Hx & Hc)]; [set_solver|]|intros (x & Hx & Hc); right].
    + exists x. by rewrite <- Es.
    + split; [|exists x; by rewrite Es]. change (expiredTimers_ q2) with (ids_of q1 due).
      rewrite elem_of_ids_of. split; [done|]. cbn. unfold seq_of. change (mem_ q1) with (mem_ q2). by rewrite Em, Ht.
Qed.

(** ** Executions *)

Fixpoint events_ok (es : list tq_event) (q : TimerQueue) : bool :=
  match es with
  | [] => true
  | e :: es => event_ok e q && match tq_step e q with Some q => events_ok es q | None => true end
  end.

Lemma post_task_ok batch extra q t (ps : list Z) :
  omap (fun t => match t with QInsert p => Some p | QCancel _ _ => None end) [t] = ps ->
  tq_inv batch (ps ++ extra) q -> tq_inv batch extra (set_posted (posted_ q ++ [t]) q).
Proof.
  intros E []. split; auto. cbn [timers_ mem_ set_posted]. rewrite <- q_owned0.
  unfold inserting; cbn [posted_ set_posted]. rewrite omap_app, E. solve_Permutation.
Qed.

Lemma take_task_ok q t ts (ps : list Z) :
  omap (fun t => match t with QInsert p => Some p | QCancel _ _ => None end) [t] = ps ->
  tq_inv [] [] q -> posted_ q = t :: ts -> tq_inv [] ps (set_posted ts q).
Proof.
  intros E [] Hp. split; auto. cbn [timers_ mem_ set_posted]. rewrite <- q_owned0.
  unfold inserting; cbn [posted_ set_posted]. rewrite Hp. change (t :: ts) with ([t] ++ ts). rewrite omap_app, E. solve_Permutation.
Qed.

Lemma armed_ok_ext q q' :
  timers_ q' = timers_ q -> armed_ q' = armed_ q -> clock_ q' = clock_ q -> reads_ q' = reads_ q -> (forall x, x ∈ timers_ q -> expiry q' x = expiry q x) ->
  armed_ok q -> armed_ok q'.
Proof.
  intros Et Ea Ecl Erd Ex Ha. unfold armed_ok. rewrite Et. intros Hne. destruct (Ha Hne) as (d & Hd & Hm).
  exists d. split; [by apply (armed_for_same d q)|]. intros x Hx. rewrite Ex by done. auto.
Qed.

Lemma frame_idle acts q q' : tq_idle q -> frame [] acts q q' -> tq_idle q' /\ seqs_grow q q'.
Proof. intros [] []. split; [|done]. split; auto. congruence. Qed.

Lemma insert_idle p q q' :
  tq_inv [] [p] q -> callingExpiredTimers_ q = false -> armed_ok q -> insert_timer p q = Some q' -> tq_idle q' /\ seqs_grow q q'.
Proof.
  intros I Hc Ha E. pose proof (insert_armed _ _ _ _ _ I E Ha) as Ha'.
  destruct (insert_timer_ok _ _ _ _ I) as (q1 & E1 & I' & Hm & _ & Hn & _ & _ & _ & _ & Hc' & _).
  rewrite E in E1. injection E1 as <-. split; [split; auto; congruence|]. split; [lia|]. rewrite Hm. eauto.
Qed.

Lemma tq_step_ok e q :
  tq_idle q -> event_ok e q = true -> exists q', tq_step e q = Some q' /\ tq_idle q' /\ seqs_grow q q'.
Proof.
  intros [I Hc Ha] Hok. destruct e as [now acts|a|p when rep delta|id|]; cbn [tq_step].
  - destruct (tq_handleRead_ok now acts q I Hok) as (due & q' & ? & ? & ? & _). eauto.
  - destruct (perform_act_frame [] a q I Hok) as (q' & E & F). exists q'. split; [done|].
    apply (frame_idle [a]); [by split|done].
  - cbn [event_ok] in Hok. apply act_ok_add in Hok as (Hp & Hw & Hd).
    pose proof (new_timer_ok [] [] p when rep delta q I Hp Hw Hd) as I1. eexists; split; [done|]. split; [split|].
    + by apply (post_task_ok _ _ _ _ [p]).
    + done.
    + revert Ha. apply armed_ok_ext; [done..|]. intros x Hx. unfold expiry; cbn. rewrite lookup_insert_ne; [done|].
      intros <-. assert (is_Some (mem_ q !! p)) as [? ?] by (apply (owned_live _ _ _ _ I); set_solver). congruence.
    + split; [cbn; lia|]. cbn. intros x t' [[<- <-]|[_ Hx]]%lookup_insert_Some; [right; cbn; lia|eauto].
  - eexists; split; [done|]. split; [split|]; [by apply (post_task_ok _ _ _ _ [])|done|done|]. split; [cbn; lia|eauto].
  - destruct (posted_ q) as [|[p|id retry] ts] eqn:Ep; [exists q; by split_and!| |].
    + pose proof (take_task_ok q (QInsert p) ts [p] eq_refl I Ep) as I1.
      destruct (insert_timer_ok _ _ _ _ I1) as (q' & E & _). exists q'. split; [done|].
      exact (insert_idle p _ q' I1 Hc Ha E).
    + pose proof (take_task_ok q (QCancel id retry) ts [] eq_refl I Ep) as I1.
      destruct (cancel_frame [] id retry _ I1) as (q' & E & F). exists q'. split; [done|].
      exact (frame_idle [TCancel id] (set_posted ts q) q' (Build_tq_idle (set_posted ts q) I1 Hc Ha) F).
Qed.

Lemma tq_run_ok es q :
  tq_idle q -> events_ok es q = true -> exists q', tq_run es q = Some q' /\ tq_idle q' /\ seqs_grow q q'.
Proof.
  revert q; induction es as [|e es IH]; intros q I Hok; [exists q; by split_and!|].
  apply andb_prop in Hok as [He Hes]. destruct (tq_step_ok e q I He) as (q1 & E1 & I1 & G1). cbn [tq_run].
  rewrite E1 in Hes |- *. destruct (IH q1 I1 Hes) as (q2 & E2 & I2 & G2). exists q2. cbn. split_and!; try done. by etrans.
Qed.

Lemma TimerQueue_new_idle clock : clock_ok clock -> tq_idle (TimerQueue_new clock).
Proof. intros Hc. split; [split| |]; try done. intros Hne. by destruct Hne. Qed.

Lemma tq_reachable_idle clock es q :
  clock_ok clock -> events_ok es (TimerQueue_new clock) = true -> tq_run es (TimerQueue_new clock) = Some q -> tq_idle q.
Proof.
  intros Hcl Hok E. destruct (tq_run_ok es _ (TimerQueue_new_idle clock Hcl) Hok) as (q' & E' & I & _). rewrite E in E'. by injection E' as ->.
Qed.

(** *** Cancelled timers *)

(** The timer numbered [s] is gone. *)
Definition dead (s : Z) (q : TimerQueue) : Prop :=
  s <= s_numCreated_ q /\ forall p t, mem_ q !! p = Some t -> sequence_ t <> s.

Lemma dead_grow s q q' : dead s q -> seqs_grow q q' -> dead s q'.
Proof.
  intros [Hle Hd] [Hn Hg]. split; [lia|]. intros p t' Ht'.
  destruct (Hg p t' Ht') as [(t & Ht & <-)|?]; [by eapply Hd|lia].
Qed.

Lemma tq_step_fired e q q' :
  tq_idle q -> event_ok e q = true -> tq_step e q = Some q' ->
  exists l, fired_ q' = fired_ q ++ l /\ forall s, dead s q -> s ∉ l.
Proof.
  intros [I Hc Ha] Hok E. destruct e as [now acts|a|p when rep delta|id|]; cbn [tq_step] in E.
  - destruct (tq_handleRead_ok now acts q I Hok) as (due & q1 & E1 & _ & _ & []). rewrite E in E1. injection E1 as <-.
    exists (seq_of q <$> due). split; [done|]. intros s [_ Hd] (p & -> & Hp)%list_elem_of_fmap.
    assert (p ∈ timers_ q) as Hin by (rewrite e_due0 in Hp; by apply list_elem_of_filter in Hp as [_ ?]).
    assert (is_Some (mem_ q !! p)) as [t Ht] by (apply (owned_live _ _ _ _ I); set_solver).
    apply (Hd p t Ht). unfold seq_of. by rewrite Ht.
  - destruct (perform_act_frame [] a q I Hok) as (q1 & E1 & []). rewrite E in E1. injection E1 as <-.
    exists []. rewrite app_nil_r. split; [done|set_solver].
  - injection E as <-. exists []. rewrite app_nil_r. split; [done|set_solver].
  - injection E as <-. exists []. rewrite app_nil_r. split; [done|set_solver].
  - exists []. rewrite app_nil_r. split; [|set_solver].
    destruct (posted_ q) as [|[p|id retry] ts] eqn:Ep; [by injection E as <-| |].
    + pose proof (take_task_ok q (QInsert p) ts [p] eq_refl I Ep) as I1.
      destruct (insert_timer_ok _ _ _ _ I1) as (q1 & E1 & _ & _ & _ & _ & _ & Hf & _). rewrite E in E1. by injection E1 as <-.
    + pose proof (take_task_ok q (QCancel id retry) ts [] eq_refl I Ep) as I1.
      destruct (cancel_frame [] id retry _ I1) as (q1 & E1 & []). rewrite E in E1. by injection E1 as <-.
Qed.

Lemma dead_never_fires es s q q' :
  tq_idle q -> dead s q -> events_ok es q = true -> tq_run es q = Some q' ->
  exists l, fired_ q' = fired_ q ++ l /\ s ∉ l.
Proof.
  revert q. induction es as [|e es IH]; intros q I Hd Hok E.
  { injection E as <-. exists []. rewrite app_nil_r. split; [done|set_solver]. }
  apply andb_prop in Hok as [He Hes]. destruct (tq_step_ok e q I He) as (q1 & E1 & I1 & G1). cbn [tq_run] in E.
  rewrite E1 in Hes, E. destruct (tq_step_fired e q q1 I He E1) as (l1 & Hl1 & Hs1).
  destruct (IH q1 I1 (dead_grow _ _ _ Hd G1) Hes E) as (l2 & Hl2 & Hs2).
  exists (l1 ++ l2). split; [by rewrite Hl2, Hl1, app_assoc|]. specialize (Hs1 s Hd). set_solver.
Qed.

Lemma tasks_ok n q : events_ok (replicate n EvTask) q = true.
Proof. revert q; induction n as [|n IH]; intros q; [done|]. cbn [replicate events_ok event_ok andb]. by destruct (tq_step EvTask q). Qed.

(** Removing the object kills its number. *)
Lemma delete_dead batch extra p t q q' :
  tq_inv batch extra q -> mem_ q !! p = Some t -> mem_ q' = delete p (mem_ q) -> s_numCreated_ q' = s_numCreated_ q ->
  dead (sequence_ t) q'.
Proof.
  intros I Ht Hm Hn. destruct (q_seq _ _ _ I p t Ht). split; [lia|]. rewrite Hm. intros x t' [Hne Hx]%lookup_delete_Some E.
  by apply Hne, (q_inj _ _ _ I p x t t').
Qed.

(** A task of the queue leaves timer [p] alone, releases it, or inserts it. *)
Lemma task_keeps q t ts l p tm :
  tq_idle q -> posted_ q = t :: ts -> mem_ q !! p = Some tm -> (p ∈ timers_ q \/ QInsert p ∈ t :: l) ->
  exists q', tq_step EvTask q = Some q' /\ tq_idle q' /\
    (dead (sequence_ tm) q' \/
     (forall r, t = QCancel (p, sequence_ tm) r -> p ∉ timers_ q) /\ mem_ q' !! p = Some tm /\
       ts `prefix_of` posted_ q' /\ (p ∈ timers_ q' \/ QInsert p ∈ l)).
Proof.
  intros Hid Ep Hp Hin. destruct (tq_step_ok EvTask q Hid eq_refl) as (q' & E & I' & _). exists q'.
  split; [done|]. split; [done|]. destruct Hid as [I Hc Ha]. cbn [tq_step] in E. rewrite Ep in E.
  rewrite elem_of_cons in Hin. destruct t as [x|id retry].
  - right. pose proof (take_task_ok q (QInsert x) ts [x] eq_refl I Ep) as I1.
    destruct (insert_timer_ok _ _ _ _ I1) as (q1 & E1 & _ & Hm & Hpt & _ & Hpo & _). rewrite E in E1. injection E1 as <-.
    rewrite Hm, Hpo, Hpt, elem_of_cons. cbn. split_and!; try done. destruct Hin as [?|[[= ->]|?]]; auto.
  - pose proof (take_task_ok q (QCancel id retry) ts [] eq_refl I Ep) as I1.
    destruct (cancelInLoop_ok [] id retry _ I1) as (q1 & E1 & _ & Hce & _ & _ & _ & Hn & _). rewrite E in E1. injection E1 as <-.
    assert (seq_of q p = sequence_ tm) as Es by (unfold seq_of; by rewrite Hp).
    destruct Hce as [Hact Hm Hpt _ _ Hpo _ _ _|_ Hca _ _|Hact _ ->].
    + destruct (decide (id.1 = p)) as [Hip|Hip].
      * left. rewrite Hip in Hm. by apply (delete_dead _ _ p tm _ _ I1).
      * right. cbn in *. rewrite Hm, lookup_delete_ne, Hpo by done. split_and!; try done; [by intros r [= -> ->]|].
        rewrite Hpt, elem_of_cons in Hin. destruct Hin as [[->|?]|[?|?]]; auto; done.
    + cbn in Hca. congruence.
    + right. cbn. split_and!; try done; [|by apply prefix_app_r|destruct Hin as [?|[?|?]]; auto; done].
      intros r [= -> ->] Hpin. apply Hact. cbn. rewrite (q_active _ _ _ I), elem_of_ids_of. by split.
Qed.

Lemma tasks_keep_dead n s q :
  tq_idle q -> dead s q -> exists q', tq_run (replicate n EvTask) q = Some q' /\ tq_idle q' /\ dead s q'.
Proof.
  intros I Hd. destruct (tq_run_ok (replicate n EvTask) q I (tasks_ok n q)) as (q' & E & I' & G).
  exists q'. split_and!; try done. by apply (dead_grow _ q).
Qed.

(** A cancellation waiting behind the insertion takes effect. *)
Lemma drain_cancels pre post r n p tm q :
  tq_idle q -> mem_ q !! p = Some tm -> posted_ q = pre ++ QCancel (p, sequence_ tm) r :: post ->
  (p ∈ timers_ q \/ QInsert p ∈ pre) -> (length pre < n)%nat ->
  exists q', tq_run (replicate n EvTask) q = Some q' /\ tq_idle q' /\ dead (sequence_ tm) q'.
Proof.
  revert n post q. induction pre as [|t pre IH]; intros n post q I Hp Ep Hin Hn; (destruct n as [|n]; [cbn in Hn; lia|]);
    cbn [replicate tq_run app] in *.
  - destruct Hin as [Hin|?]; [|set_solver].
    destruct (task_keeps q _ _ [] p tm I Ep Hp) as (q' & -> & I' & [Hd|(Hnot & _)]); [auto|by apply tasks_keep_dead|].
    by destruct (Hnot r).
  - destruct (task_keeps q _ _ pre p tm I Ep Hp Hin) as (q' & -> & I' & [Hd|(_ & Hp' & [k Hk] & Hin')]);
      cbn [mbind option_bind]; [by apply tasks_keep_dead|].
    apply (IH n (post ++ k) q'); auto; [by rewrite Hk, <- app_assoc|cbn in Hn; lia].
Qed.

(** ** Properties *)

(** C4: Memory safety and the structure of the queue: in every execution that
    respects the allocator, no operation follows a dangling [Timer] pointer, frees
    twice or runs out of fuel; afterwards every live [Timer] is in the heap or
    in a posted insertion, exactly once (no leak), the vector is a heap,
    [activeTimers_] holds the handles of the heap, and while the heap is not empty the
    timerfd is set, relative to a reading of the clock, to the time left until the
    first expiration or an earlier instant, or to 100 microseconds when less is
    left. *)
Theorem timer_queue_safe clock es :
  clock_ok clock -> events_ok es (TimerQueue_new clock) = true ->
  exists q, tq_run es (TimerQueue_new clock) = Some q /\
    heap (expiry q) (timers_ q) /\
    timers_ q ++ inserting q ≡ₚ (map_to_list (mem_ q)).*1 /\ NoDup (timers_ q ++ inserting q) /\
    activeTimers_ q = ids_of q (timers_ q) /\ armed_ok q.
Proof.
  intros Hcl Hok. destruct (tq_run_ok es _ (TimerQueue_new_idle clock Hcl) Hok) as (q & E & [I _ Ha] & _). exists q.
  pose proof (owned_nodup _ _ _ I) as Hnd. destruct I. rewrite !app_nil_r in *. by split_and!.
Qed.

(** C11: An expiration runs exactly the timers that are due, each once, in the
    order of their expirations; then a repeating timer that no callback of the
    batch cancelled is back in the heap, due one interval after [now], and every
    other timer of the batch has been released. *)
Theorem expiry_exact clock es q now acts :
  clock_ok clock -> events_ok es (TimerQueue_new clock) = true -> tq_run es (TimerQueue_new clock) = Some q ->
  event_ok (EvExpire now acts) q = true ->
  exists due q', tq_handleRead now acts q = Some q' /\ expiration now acts q due q'.
Proof.
  intros Hcl Hes Hq Hok. pose proof (tq_reachable_idle clock es q Hcl Hes Hq) as I.
  destruct (tq_handleRead_ok now acts q (i_inv _ I) Hok) as (due & q' & ? & _ & _ & ?). eauto.
Qed.

(** C28: [cancel] is final: whether it comes from the loop's thread or another one,
    and whether the timer is in the heap or its insertion is still posted, once
    the functors posted so far (and the retry) have run the timer is never run
    again, also when its address is given to a new timer. *)
Theorem cancel_final clock es q p t e :
  clock_ok clock -> events_ok es (TimerQueue_new clock) = true -> tq_run es (TimerQueue_new clock) = Some q -> mem_ q !! p = Some t ->
  e = EvAct (TCancel (p, sequence_ t)) \/ e = EvRemoteCancel (p, sequence_ t) ->
  exists q1, tq_run (e :: replicate (S (length (posted_ q))) EvTask) q = Some q1 /\
    forall es' q2, events_ok es' q1 = true -> tq_run es' q1 = Some q2 ->
      exists l, fired_ q2 = fired_ q1 ++ l /\ sequence_ t ∉ l.
Proof.
  intros Hcl Hes Hq Hp He. pose proof (tq_reachable_idle clock es q Hcl Hes Hq) as I.
  assert (exists q1, tq_run (e :: replicate (S (length (posted_ q))) EvTask) q = Some q1 /\ tq_idle q1 /\ dead (sequence_ t) q1)
    as (q1 & E1 & I1 & D1); [|exists q1; split; [done|]; intros; by eapply dead_never_fires].
  assert (p ∈ timers_ q \/ QInsert p ∈ posted_ q) as Hin.
  { assert (p ∈ timers_ q ++ inserting q) as Hin by (pose proof (owned_live _ _ _ p (i_inv _ I)) as Hl;
      rewrite !app_nil_r in Hl; apply Hl; eauto).
    apply elem_of_app in Hin as [?|Hin]; [auto|]. right.
    apply list_elem_of_omap in Hin as ([x|? ?] & Hx & [= ->]). done. }
  destruct (tq_step_ok e q I) as (q0 & E0 & I0 & _); [by destruct He as [-> | ->]|]. cbn [tq_run]. rewrite E0. cbn [mbind option_bind].
  destruct He as [-> | ->]; cbn [tq_step tq_perform_act] in E0.
  - destruct (cancelInLoop_ok [] (p, sequence_ t) true q (i_inv _ I)) as (q1 & E1 & _ & Hce & _ & _ & _ & Hn & _).
    rewrite E0 in E1. injection E1 as <-. destruct Hce as [_ Hm _ _ _ _ _ _ _|_ Hca _ _|_ _ ->].
    + apply tasks_keep_dead; [done|]. by apply (delete_dead _ _ p t _ _ (i_inv _ I)).
    + rewrite (i_calling _ I) in Hca. done.
    + apply (drain_cancels (posted_ q) [] false _ p t); auto.
  - injection E0 as <-. apply (drain_cancels (posted_ q) [] true _ p t); auto.
Qed.

(** *** Witnesses *)

(** Three timers, one added by another thread; the repeating timer 1 cancels
    itself in its second run.  The clock is read every eight microseconds. *)
Definition sample_clock (k : nat) : Z :=
  match k with
  | 0%nat => 5 | 1%nat => 13 | 2%nat => 21 | 3%nat => 29 | 4%nat => 37 | 5%nat => 45 | 6%nat => 53
  | _ => 61
  end.

Lemma sample_clock_ok : clock_ok sample_clock.
Proof. intros k. unfold sample_clock. by repeat (case_match; try lia). Qed.

Definition sample_acts (k : nat) (s : Z) : list tq_act :=
  if (s =? 1) && (k =? 2)%nat then [TCancel (100, 1); TAdd 300 50 false 0] else [].

Definition sample_events : list tq_event :=
  [EvAct (TAdd 100 10 true 5); EvRemoteAdd 200 12 false 0; EvTask; EvAct (TAdd 104 80 false 0);
   EvExpire 13 (sample_acts 1); EvExpire 37 (sample_acts 2); EvRemoteAdd 100 90 true 1].

Definition sample_queue : TimerQueue :=
  default (TimerQueue_new sample_clock) (tq_run sample_events (TimerQueue_new sample_clock)).

Example sample_fired : fired_ sample_queue = [1; 2; 1] /\ armed_ sample_queue = Some (53, (0, 100000)).
Proof. by vm_compute. Qed.

Lemma timer_queue_safe_witness :
  exists q, tq_run sample_events (TimerQueue_new sample_clock) = Some q /\
    heap (expiry q) (timers_ q) /\
    timers_ q ++ inserting q ≡ₚ (map_to_list (mem_ q)).*1 /\ NoDup (timers_ q ++ inserting q) /\
    activeTimers_ q = ids_of q (timers_ q) /\ armed_ok q.
Proof. apply (timer_queue_safe sample_clock sample_events sample_clock_ok). by vm_compute. Defined.

Lemma expiry_exact_witness :
  exists due q', tq_handleRead 61 (sample_acts 3) sample_queue = Some q' /\
    expiration 61 (sample_acts 3) sample_queue due q'.
Proof. apply (expiry_exact sample_clock sample_events sample_queue 61 (sample_acts 3)); [exact sample_clock_ok|by vm_compute..]. Defined.

Lemma cancel_final_witness :
  exists q1, tq_run (EvAct (TCancel (100, 5)) :: replicate 2 EvTask) sample_queue = Some q1 /\
    forall es' q2, events_ok es' q1 = true -> tq_run es' q1 = Some q2 ->
      exists l, fired_ q2 = fired_ q1 ++ l /\ 5 ∉ l.
Proof.
  apply (cancel_final sample_clock sample_events sample_queue 100 (mkTimer 90 true 1 5)); [exact sample_clock_ok|by vm_compute..|by left].
Defined.
