(* ===== verification/Utf8.v ===== *)
(** * Utf8: strict UTF-8 validation and encoding

    [isValidUtf8] of [rpc/src/json_utf8.h] and [appendUtf8] of
    [rpc/src/json_parser.cpp].  The validator accepts exactly the
    concatenations of the encodings of Unicode scalar values. *)
From S2P Require Import Prelude.

(** The [for] loop over the continuation bytes: the code point and what follows. *)
Fixpoint continuation (n : nat) (codePoint : Z) (text : bytes) : option (Z * bytes) :=
  match n with
  | O => Some (codePoint, text)
  | S n =>
      match text with
      | [] => None
      | next :: text =>
          if negb (Z.land (b2z next) 0xC0 =? 0x80) then None
          else continuation n (Z.lor (u32 (Z.shiftl codePoint 6)) (Z.land (b2z next) 0x3F)) text
      end
  end.

(** The length of the sequence a lead byte announces and the bits it carries. *)
Definition lead_info (lead : Z) : option (nat * Z) :=
  if Z.land lead 0xE0 =? 0xC0 then
    if Z.land lead 0x1F <? 2 then None else Some (2%nat, Z.land lead 0x1F)
  else if Z.land lead 0xF0 =? 0xE0 then Some (3%nat, Z.land lead 0x0F)
  else if Z.land lead 0xF8 =? 0xF0 then
    if Z.land lead 0x07 >? 4 then None else Some (4%nat, Z.land lead 0x07)
  else None.

(** One turn of the [while] loop on the nonempty text [c :: text]: what is left,
    [None] for [return false]. *)
Definition utf8_step (c : byte) (text : bytes) : option bytes :=
  let lead := b2z c in
  if lead <? 0x80 then Some text else
  '(length, codePoint) ← lead_info lead;
  if Z.of_nat length >? len (c :: text) then None else
  '(codePoint, text) ← continuation (length - 1) codePoint text;
  if ((length =? 3)%nat && (codePoint <? 0x800)) || ((length =? 4)%nat && (codePoint <? 0x10000)) then None else
  if (0xD800 <=? codePoint) && (codePoint <=? 0xDFFF) then None else
  if codePoint >? 0x10FFFF then None else Some text.

Fixpoint valid_loop (fuel : nat) (text : bytes) : bool :=
  match text with
  | [] => true
  | c :: rest =>
      match fuel with
      | O => false
      | S fuel => match utf8_step c rest with Some text => valid_loop fuel text | None => false end
      end
  end.

(** Every turn takes at least one byte. *)
Definition isValidUtf8 (text : bytes) : bool := valid_loop (length text) text.

(** The bytes [appendUtf8] appends. *)
Definition appendUtf8 (codePoint : Z) : bytes :=
  if codePoint <=? 0x7F then [z2b codePoint]
  else if codePoint <=? 0x7FF then
    [z2b (Z.lor 0xC0 (Z.shiftr codePoint 6)); z2b (Z.lor 0x80 (Z.land codePoint 0x3F))]
  else if codePoint <=? 0xFFFF then
    [z2b (Z.lor 0xE0 (Z.shiftr codePoint 12)); z2b (Z.lor 0x80 (Z.land (Z.shiftr codePoint 6) 0x3F));
     z2b (Z.lor 0x80 (Z.land codePoint 0x3F))]
  else
    [z2b (Z.lor 0xF0 (Z.shiftr codePoint 18)); z2b (Z.lor 0x80 (Z.land (Z.shiftr codePoint 12) 0x3F));
     z2b (Z.lor 0x80 (Z.land (Z.shiftr codePoint 6) 0x3F)); z2b (Z.lor 0x80 (Z.land codePoint 0x3F))].

(** A Unicode scalar value. *)
Definition scalar (c : Z) : Prop := 0 <= c <= 0xD7FF \/ 0xE000 <= c <= 0x10FFFF.

(** ** Bit fields as arithmetic *)

Lemma cont_spec b :
  (Z.land (b2z b) 0xC0 =? 0x80) = (0x80 <=? b2z b) && (b2z b <? 0xC0).
Proof. apply eqb_prop, (byte_all (fun z => eqb (Z.land z 0xC0 =? 0x80) ((0x80 <=? z) && (z <? 0xC0)))). by vm_compute. Qed.

Lemma low6 z : Z.land z 0x3F = z mod 64.
Proof. apply (Z.land_ones z 6). lia. Qed.

Lemma lor_field a k x : 0 <= k -> 0 <= a -> 0 <= x < 2 ^ k -> Z.lor (a * 2 ^ k) x = a * 2 ^ k + x.
Proof. intros. rewrite Z.lor_comm, <- Z.shiftl_mul_pow2, lor_shiftl_add, Z.shiftl_mul_pow2; lia. Qed.

Lemma join6 c b : 0 <= c < 2 ^ 16 -> Z.lor (u32 (Z.shiftl c 6)) (Z.land b 0x3F) = c * 64 + b mod 64.
Proof.
  intros Hc. pose proof (Z.mod_pos_bound b 64 ltac:(lia)). rewrite low6, u32_small; rewrite Z.shiftl_mul_pow2 by lia; [|lia].
  apply (lor_field c 6); lia.
Qed.

(** What a lead byte says. *)
Definition lead_arith (lead : Z) : option (nat * Z) :=
  if (0xC2 <=? lead) && (lead <? 0xE0) then Some (2%nat, lead - 0xC0)
  else if (0xE0 <=? lead) && (lead <? 0xF0) then Some (3%nat, lead - 0xE0)
  else if (0xF0 <=? lead) && (lead <? 0xF5) then Some (4%nat, lead - 0xF0)
  else None.

Lemma lead_info_spec b : 0x80 <= b2z b -> lead_info (b2z b) = lead_arith (b2z b).
Proof.
  intros Hb. pose (P := fun z : Z => implb (0x80 <=? z) (bool_decide (lead_info z = lead_arith z))).
  assert (P (b2z b) = true) as H by (apply byte_all; by vm_compute). unfold P in H.
  rewrite (proj2 (Z.leb_le _ _) Hb) in H. by apply bool_decide_eq_true in H.
Qed.

Lemma lead_info_2 b : 0xC2 <= b2z b < 0xE0 -> lead_info (b2z b) = Some (2%nat, b2z b - 0xC0).
Proof. intros. rewrite lead_info_spec by lia. unfold lead_arith. zbool; try lia. done. Qed.
Lemma lead_info_3 b : 0xE0 <= b2z b < 0xF0 -> lead_info (b2z b) = Some (3%nat, b2z b - 0xE0).
Proof. intros. rewrite lead_info_spec by lia. unfold lead_arith. zbool; try lia. done. Qed.
Lemma lead_info_4 b : 0xF0 <= b2z b < 0xF5 -> lead_info (b2z b) = Some (4%nat, b2z b - 0xF0).
Proof. intros. rewrite lead_info_spec by lia. unfold lead_arith. zbool; try lia. done. Qed.

(** ** The encoder *)

Ltac fields :=
  repeat match goal with
  | |- context [Z.shiftr ?a ?k] => rewrite (Z.shiftr_div_pow2 a k) by lia
  | |- context [Z.land ?a 0x3F] => rewrite (low6 a)
  end.

Lemma appendUtf8_1 c : 0 <= c < 0x80 -> appendUtf8 c = [z2b c].
Proof. intros. unfold appendUtf8. destruct (Z.leb_spec c 0x7F); [done|lia]. Qed.

Lemma appendUtf8_2 l n :
  2 <= l < 32 -> 0 <= n < 64 -> appendUtf8 (l * 64 + n) = [z2b (0xC0 + l); z2b (0x80 + n)].
Proof.
  intros. unfold appendUtf8. destruct (Z.leb_spec (l * 64 + n) 0x7F); [lia|]. destruct (Z.leb_spec (l * 64 + n) 0x7FF); [|lia].
  fields. replace ((l * 64 + n) / 2 ^ 6) with l by dmlia. replace ((l * 64 + n) mod 64) with n by dmlia.
  change (Z.lor 0xC0 l) with (Z.lor (3 * 2 ^ 6) l). change (Z.lor 0x80 n) with (Z.lor (2 * 2 ^ 6) n).
  rewrite !lor_field by lia. done.
Qed.

Lemma appendUtf8_3 l n m :
  0 <= l < 16 -> 0 <= n < 64 -> 0 <= m < 64 -> 0x800 <= (l * 64 + n) * 64 + m ->
  appendUtf8 ((l * 64 + n) * 64 + m) = [z2b (0xE0 + l); z2b (0x80 + n); z2b (0x80 + m)].
Proof.
  intros. set (c := (l * 64 + n) * 64 + m) in *. unfold appendUtf8. destruct (Z.leb_spec c 0x7F); [lia|].
  destruct (Z.leb_spec c 0x7FF); [lia|]. destruct (Z.leb_spec c 0xFFFF); [|lia]. fields.
  replace (c / 2 ^ 12) with l by (subst c; dmlia). replace ((c / 2 ^ 6) mod 64) with n by (subst c; dmlia).
  replace (c mod 64) with m by (subst c; dmlia).
  change (Z.lor 0xE0 l) with (Z.lor (14 * 2 ^ 4) l). change (Z.lor 0x80 n) with (Z.lor (2 * 2 ^ 6) n).
  change (Z.lor 0x80 m) with (Z.lor (2 * 2 ^ 6) m). rewrite !lor_field by lia. done.
Qed.

Lemma appendUtf8_4 l n m k :
  0 <= l < 8 -> 0 <= n < 64 -> 0 <= m < 64 -> 0 <= k < 64 -> 0x10000 <= ((l * 64 + n) * 64 + m) * 64 + k ->
  appendUtf8 (((l * 64 + n) * 64 + m) * 64 + k) = [z2b (0xF0 + l); z2b (0x80 + n); z2b (0x80 + m); z2b (0x80 + k)].
Proof.
  intros. set (c := ((l * 64 + n) * 64 + m) * 64 + k) in *. unfold appendUtf8. destruct (Z.leb_spec c 0x7F); [lia|].
  destruct (Z.leb_spec c 0x7FF); [lia|]. destruct (Z.leb_spec c 0xFFFF); [lia|]. fields.
  replace (c / 2 ^ 18) with l by (subst c; dmlia). replace ((c / 2 ^ 12) mod 64) with n by (subst c; dmlia).
  replace ((c / 2 ^ 6) mod 64) with m by (subst c; dmlia). replace (c mod 64) with k by (subst c; dmlia).
  change (Z.lor 0xF0 l) with (Z.lor (30 * 2 ^ 3) l). change (Z.lor 0x80 n) with (Z.lor (2 * 2 ^ 6) n).
  change (Z.lor 0x80 m) with (Z.lor (2 * 2 ^ 6) m). change (Z.lor 0x80 k) with (Z.lor (2 * 2 ^ 6) k).
  rewrite !lor_field by lia. done.
Qed.

(** The table of RFC 3629. *)
Definition utf8 (c : Z) : bytes :=
  if c <? 0x80 then [z2b c]
  else if c <? 0x800 then [z2b (0xC0 + c / 64); z2b (0x80 + c mod 64)]
  else if c <? 0x10000 then [z2b (0xE0 + c / 64 / 64); z2b (0x80 + c / 64 mod 64); z2b (0x80 + c mod 64)]
  else [z2b (0xF0 + c / 64 / 64 / 64); z2b (0x80 + c / 64 / 64 mod 64); z2b (0x80 + c / 64 mod 64); z2b (0x80 + c mod 64)].

Lemma appendUtf8_utf8 c : 0 <= c < 0x200000 -> appendUtf8 c = utf8 c.
Proof.
  intros Hc. unfold utf8.
  assert (forall x, x = x / 64 * 64 + x mod 64) as Hs by (intros; dmlia).
  destruct (Z.ltb_spec c 0x80); [apply appendUtf8_1; lia|].
  destruct (Z.ltb_spec c 0x800); [rewrite (Hs c) at 1; apply appendUtf8_2; dmlia|].
  destruct (Z.ltb_spec c 0x10000).
  - rewrite (Hs c), (Hs (c / 64)) at 1. apply appendUtf8_3; dmlia.
  - rewrite (Hs c), (Hs (c / 64)), (Hs (c / 64 / 64)) at 1. apply appendUtf8_4; dmlia.
Qed.

(** ** One turn of the validator *)

Definition is_cont (b : byte) : bool := (0x80 <=? b2z b) && (b2z b <? 0xC0).

Lemma is_cont_mod b : is_cont b = true -> b2z b mod 64 = b2z b - 0x80 /\ 0 <= b2z b - 0x80 < 64.
Proof. intros [H1%Z.leb_le H2%Z.ltb_lt]%andb_prop. split; [dmlia|lia]. Qed.

Lemma continuation_S n c b text :
  0 <= c < 2 ^ 16 ->
  continuation (S n) c (b :: text) = if is_cont b then continuation n (c * 64 + b2z b mod 64) text else None.
Proof. intros. cbn [continuation]. rewrite cont_spec, join6 by done. unfold is_cont. by destruct (_ && _). Qed.

Lemma utf8_step_2 c b text :
  0xC2 <= b2z c < 0xE0 -> utf8_step c (b :: text) = if is_cont b then Some text else None.
Proof.
  intros. unfold utf8_step. destruct (Z.ltb_spec (b2z c) 0x80); [lia|]. rewrite lead_info_2 by lia.
  cbn [mbind option_bind]. rewrite Z.gtb_ltb. destruct (Z.ltb_spec (len (c :: b :: text)) (Z.of_nat 2)); [solve_len|].
  cbn [Nat.sub]. rewrite continuation_S by lia. destruct (is_cont b) eqn:Eb; [|done]. apply is_cont_mod in Eb as [-> ?].
  cbn [continuation mbind option_bind Nat.eqb andb orb]. rewrite Z.gtb_ltb. set (cp := _ * 64 + _).
  destruct (Z.leb_spec 0xD800 cp); [subst cp; lia|]. cbn [andb]. destruct (Z.ltb_spec 0x10FFFF cp); [subst cp; lia|done].
Qed.

Lemma utf8_step_3 c b1 b2 text :
  0xE0 <= b2z c < 0xF0 ->
  utf8_step c (b1 :: b2 :: text) =
    if is_cont b1 && is_cont b2 then
      let cp := ((b2z c - 0xE0) * 64 + (b2z b1 - 0x80)) * 64 + (b2z b2 - 0x80) in
      if (cp <? 0x800) || ((0xD800 <=? cp) && (cp <=? 0xDFFF)) then None else Some text
    else None.
Proof.
  intros. unfold utf8_step. destruct (Z.ltb_spec (b2z c) 0x80); [lia|]. rewrite lead_info_3 by lia.
  cbn [mbind option_bind]. rewrite Z.gtb_ltb. destruct (Z.ltb_spec (len (c :: b1 :: b2 :: text)) (Z.of_nat 3)); [solve_len|].
  cbn [Nat.sub]. rewrite continuation_S by lia. destruct (is_cont b1) eqn:E1; [|done]. apply is_cont_mod in E1 as [-> ?].
  rewrite continuation_S by lia. destruct (is_cont b2) eqn:E2; [|done]. apply is_cont_mod in E2 as [-> ?].
  cbn [continuation mbind option_bind Nat.eqb andb orb]. cbv zeta. set (cp := (_ + _) * 64 + _). rewrite Z.gtb_ltb.
  rewrite orb_false_r. destruct (cp <? 0x800); [done|]. cbn [orb]. destruct (_ && _); [done|].
  destruct (Z.ltb_spec 0x10FFFF cp); [subst cp; lia|done].
Qed.

Lemma utf8_step_4 c b1 b2 b3 text :
  0xF0 <= b2z c < 0xF5 ->
  utf8_step c (b1 :: b2 :: b3 :: text) =
    if is_cont b1 && is_cont b2 && is_cont b3 then
      let cp := (((b2z c - 0xF0) * 64 + (b2z b1 - 0x80)) * 64 + (b2z b2 - 0x80)) * 64 + (b2z b3 - 0x80) in
      if (cp <? 0x10000) || (0x10FFFF <? cp) then None else Some text
    else None.
Proof.
  intros. unfold utf8_step. destruct (Z.ltb_spec (b2z c) 0x80); [lia|]. rewrite lead_info_4 by lia.
  cbn [mbind option_bind]. rewrite Z.gtb_ltb. destruct (Z.ltb_spec (len (c :: b1 :: b2 :: b3 :: text)) (Z.of_nat 4)); [solve_len|].
  cbn [Nat.sub]. rewrite continuation_S by lia. destruct (is_cont b1) eqn:E1; [|done]. apply is_cont_mod in E1 as [-> ?].
  rewrite continuation_S by lia. destruct (is_cont b2) eqn:E2; [|done]. apply is_cont_mod in E2 as [-> ?].
  rewrite continuation_S by lia. destruct (is_cont b3) eqn:E3; [|done]. apply is_cont_mod in E3 as [-> ?].
  cbn [continuation mbind option_bind Nat.eqb andb orb]. cbv zeta. set (cp := (_ + _) * 64 + _). rewrite Z.gtb_ltb.
  destruct (Z.ltb_spec cp 0x10000); [done|]. cbn [orb].
  destruct (Z.leb_spec 0xD800 cp); [|lia]. destruct (Z.leb_spec cp 0xDFFF); [lia|]. done.
Qed.

(** A sequence cut short by the end of the text is rejected. *)
Lemma utf8_step_short c text n bits :
  0x80 <= b2z c -> lead_info (b2z c) = Some (n, bits) -> len text + 1 < Z.of_nat n -> utf8_step c text = None.
Proof.
  intros Hc Hl Hn. unfold utf8_step. destruct (Z.ltb_spec (b2z c) 0x80); [lia|]. rewrite Hl. cbn [mbind option_bind].
  rewrite Z.gtb_ltb. destruct (Z.ltb_spec (len (c :: text)) (Z.of_nat n)); [done|solve_len].
Qed.

Lemma z2b_eq b z : b2z b = z -> b = z2b z.
Proof. intros <-. by rewrite z2b_b2z. Qed.

Lemma utf8_step_sound c text rest :
  utf8_step c text = Some rest -> exists cp, scalar cp /\ c :: text = appendUtf8 cp ++ rest.
Proof.
  intros H. pose proof (b2z_range c). unfold scalar.
  destruct (Z.lt_ge_cases (b2z c) 0x80) as [Hc|Hc].
  { unfold utf8_step in H. destruct (Z.ltb_spec (b2z c) 0x80); [|lia]. injection H as <-.
    exists (b2z c). split; [lia|]. rewrite appendUtf8_1 by lia. cbn. by rewrite z2b_b2z. }
  pose proof (lead_info_spec c Hc) as Hl.
  destruct (Z.lt_ge_cases (b2z c) 0xC2) as [?|?].
  { unfold utf8_step in H. rewrite Hl in H. unfold lead_arith in H. zbool; try lia; done. }
  destruct (Z.lt_ge_cases (b2z c) 0xE0) as [?|?].
  { destruct text as [|b1 text]; [by rewrite (utf8_step_short _ _ _ _ Hc (lead_info_2 c ltac:(lia))) in H|].
    rewrite utf8_step_2 in H by lia. destruct (is_cont b1) eqn:E1; [|done]. injection H as <-. apply is_cont_mod in E1 as [_ ?].
    exists ((b2z c - 0xC0) * 64 + (b2z b1 - 0x80)). split; [lia|]. rewrite appendUtf8_2 by lia. cbn.
    f_equal; [|f_equal]; apply z2b_eq; lia. }
  destruct (Z.lt_ge_cases (b2z c) 0xF0) as [?|?].
  { destruct text as [|b1 [|b2 text]]; [by rewrite (utf8_step_short _ _ _ _ Hc (lead_info_3 c ltac:(lia))) in H..|].
    rewrite utf8_step_3 in H by lia. destruct (is_cont b1) eqn:E1; [|done]. destruct (is_cont b2) eqn:E2; [|done].
    cbn [andb] in H. cbv zeta in H. apply is_cont_mod in E1 as [_ ?], E2 as [_ ?].
    set (cp := (_ + _) * 64 + _) in H. destruct (Z.ltb_spec cp 0x800); [done|]. cbn [orb] in H.
    exists cp. split; [destruct (Z.leb_spec 0xD800 cp), (Z.leb_spec cp 0xDFFF); try done; subst cp; lia|].
    subst cp. rewrite appendUtf8_3 by lia. destruct (_ && _); [done|]. injection H as <-. cbn.
    f_equal; [|f_equal; [|f_equal]]; apply z2b_eq; lia. }
  destruct (Z.lt_ge_cases (b2z c) 0xF5) as [?|?].
  { destruct text as [|b1 [|b2 [|b3 text]]]; [by rewrite (utf8_step_short _ _ _ _ Hc (lead_info_4 c ltac:(lia))) in H..|].
    rewrite utf8_step_4 in H by lia. destruct (is_cont b1) eqn:E1; [|done]. destruct (is_cont b2) eqn:E2; [|done].
    destruct (is_cont b3) eqn:E3; [|done]. cbn [andb] in H. cbv zeta in H. apply is_cont_mod in E1 as [_ ?], E2 as [_ ?], E3 as [_ ?].
    set (cp := (_ + _) * 64 + _) in H. destruct (Z.ltb_spec cp 0x10000); [done|]. destruct (Z.ltb_spec 0x10FFFF cp); [done|].
    injection H as <-. exists cp. split; [lia|]. subst cp. rewrite appendUtf8_4 by lia. cbn.
    f_equal; [|f_equal; [|f_equal; [|f_equal]]]; apply z2b_eq; lia. }
  unfold utf8_step in H. rewrite Hl in H. unfold lead_arith in H. zbool; try lia; done.
Qed.

Lemma b2z_z2b_small z : 0 <= z < 256 -> b2z (z2b z) = z.
Proof. intros. rewrite b2z_z2b. by apply Z.mod_small. Qed.

Lemma is_cont_z2b z : 0 <= z < 64 -> is_cont (z2b (0x80 + z)) = true.
Proof. intros. unfold is_cont. rewrite b2z_z2b_small by lia. zbool; try lia; done. Qed.

Lemma utf8_step_complete cp rest :
  scalar cp -> exists c text, appendUtf8 cp = c :: text /\ utf8_step c (text ++ rest) = Some rest.
Proof.
  unfold scalar. intros Hs. destruct (Z.lt_ge_cases cp 0x80).
  { rewrite appendUtf8_1 by lia. exists (z2b cp), []. split; [done|]. unfold utf8_step. rewrite b2z_z2b_small by lia.
    destruct (Z.ltb_spec cp 0x80); [done|lia]. }
  destruct (Z.lt_ge_cases cp 0x800).
  { replace cp with (cp / 64 * 64 + cp mod 64) by dmlia. rewrite appendUtf8_2 by dmlia.
    eexists _, _. split; [done|]. cbn [app]. rewrite utf8_step_2 by (rewrite b2z_z2b_small; dmlia).
    by rewrite is_cont_z2b by dmlia. }
  destruct (Z.lt_ge_cases cp 0x10000).
  { set (l := cp / 4096). set (n := (cp / 64) mod 64). set (m := cp mod 64).
    assert (cp = (l * 64 + n) * 64 + m) as E by (subst l n m; dmlia).
    assert (0 <= l < 16 /\ 0 <= n < 64 /\ 0 <= m < 64) as (? & ? & ?) by (subst l n m; dmlia).
    clearbody l n m. rewrite E, appendUtf8_3 by lia. eexists _, _. split; [done|]. cbn [app].
    rewrite utf8_step_3, !is_cont_z2b by (rewrite ?b2z_z2b_small; lia). cbn [andb]. cbv zeta.
    rewrite !b2z_z2b_small by lia. replace ((0xE0 + l - 0xE0) * 64 + (0x80 + n - 0x80)) with (l * 64 + n) by lia.
    replace ((l * 64 + n) * 64 + (0x80 + m - 0x80)) with cp by lia. zbool; try lia; done. }
  set (l := cp / 262144). set (n := (cp / 4096) mod 64). set (m := (cp / 64) mod 64). set (k := cp mod 64).
  assert (cp = ((l * 64 + n) * 64 + m) * 64 + k) as E by (subst l n m k; dmlia).
  assert (0 <= l < 5 /\ 0 <= n < 64 /\ 0 <= m < 64 /\ 0 <= k < 64) as (? & ? & ? & ?) by (subst l n m k; dmlia).
  clearbody l n m k. rewrite E, appendUtf8_4 by lia. eexists _, _. split; [done|]. cbn [app].
  rewrite utf8_step_4, !is_cont_z2b by (rewrite ?b2z_z2b_small; lia). cbn [andb]. cbv zeta.
  rewrite !b2z_z2b_small by lia. replace ((0xF0 + l - 0xF0) * 64 + (0x80 + n - 0x80)) with (l * 64 + n) by lia.
  replace (((l * 64 + n) * 64 + (0x80 + m - 0x80)) * 64 + (0x80 + k - 0x80)) with cp by lia. zbool; try lia; done.
Qed.

(** ** Whole texts *)

Lemma appendUtf8_length cp : (1 <= length (appendUtf8 cp))%nat.
Proof. unfold appendUtf8. repeat case_match; cbn; lia. Qed.

Lemma valid_loop_sound fuel text :
  valid_loop fuel text = true -> exists cps, Forall scalar cps /\ text = concat (appendUtf8 <$> cps).
Proof.
  revert text. induction fuel as [|fuel IH]; intros [|c text] H; cbn [valid_loop] in H; try done; [by exists []..|].
  destruct (utf8_step c text) as [rest|] eqn:E; [|done]. destruct (IH rest H) as (cps & Hc & ->).
  destruct (utf8_step_sound _ _ _ E) as (cp & Hs & ->). exists (cp :: cps). split; [by constructor|done].
Qed.

Lemma valid_loop_app fuel cp text :
  scalar cp -> (length (appendUtf8 cp ++ text) <= fuel)%nat ->
  valid_loop fuel (appendUtf8 cp ++ text) = valid_loop (fuel - 1) text.
Proof.
  intros Hs Hf. destruct (utf8_step_complete cp text Hs) as (c & t & E & Hstep). rewrite E in Hf |- *. cbn in Hf |- *.
  destruct fuel as [|fuel]; [lia|]. cbn [valid_loop]. rewrite Hstep. f_equal. lia.
Qed.

Lemma valid_loop_complete cps fuel :
  Forall scalar cps -> (length (concat (appendUtf8 <$> cps)) <= fuel)%nat -> valid_loop fuel (concat (appendUtf8 <$> cps)) = true.
Proof.
  intros H. revert fuel. induction H as [|cp cps Hc _ IH]; intros fuel Hf; cbn [fmap list_fmap concat] in *; [by destruct fuel|].
  rewrite valid_loop_app by done. apply IH. rewrite length_app in Hf. pose proof (appendUtf8_length cp). lia.
Qed.

(** C34: [isValidUtf8] accepts exactly the UTF-8 texts: the concatenations of the
    encodings [appendUtf8] gives of Unicode scalar values.  It rejects overlong
    forms, surrogates, code points above U+10FFFF, stray continuation bytes and
    truncated sequences. *)
Theorem utf8_valid_exact text :
  isValidUtf8 text = true <-> exists cps, Forall scalar cps /\ text = concat (appendUtf8 <$> cps).
Proof.
  split; [apply valid_loop_sound|]. intros (cps & H & ->). by apply valid_loop_complete.
Qed.
