(* ===== verification/Charconv.v ===== *)
(** * Charconv: the number conversions of the C++ standard library

    [std::to_chars] and [std::from_chars] for [int64_t] and [double], as the JSON
    writer and parser use them.  A [double] is a [spec_float] of binary64; decimal
    input is rounded to nearest, ties to even, from its exact value.  [to_chars]
    of a [double] follows its specification: the shortest digits that round to the
    value, the closest ones among them, in the shorter of the fixed and the
    scientific style. *)
From Stdlib Require Import SpecFloat.
From S2P Require Import Prelude.

Definition isDigit (c : byte) : bool := (48 <=? b2z c) && (b2z c <=? 57).

(** The longest prefix of digits. *)
Fixpoint scan_digits (s : bytes) : bytes * bytes :=
  match s with
  | c :: s' => if isDigit c then let '(ds, rest) := scan_digits s' in (c :: ds, rest) else ([], s)
  | [] => ([], [])
  end.

Definition digits_val (ds : bytes) : Z := fold_left (fun a d => a * 10 + (b2z d - 48)) ds 0.

Definition digit (n : Z) : byte := z2b (48 + n).

(** The decimal digits of [0 <= n < 10 ^ fuel]. *)
Fixpoint dec (fuel : nat) (n : Z) : bytes :=
  match fuel with
  | O => []
  | S fuel => if n <? 10 then [digit n] else dec fuel (n / 10) ++ [digit (n mod 10)]
  end.

(** All decimal digits of [0 <= n]. *)
Definition decimal (n : Z) : bytes := dec (S (Z.to_nat (Z.log2 n))) n.

(** The value with the unread rest, or the error. *)
Inductive conv (A : Type) :=
| Conv (v : A) (rest : bytes)
| InvalidArgument
| ResultOutOfRange (rest : bytes).
Arguments Conv {A}.
Arguments InvalidArgument {A}.
Arguments ResultOutOfRange {A}.

#[global] Instance conv_eq_dec `{EqDecision A} : EqDecision (conv A).
Proof. solve_decision. Defined.

Definition minus_sign (s : bytes) : bool * bytes :=
  match s with
  | c :: s' => if bool_decide (c = "-"%byte) then (true, s') else (false, s)
  | [] => (false, s)
  end.

Definition int64_min : Z := - 2 ^ 63.
Definition int64_max : Z := 2 ^ 63 - 1.

(** [std::from_chars(first, last, int64_t&)]. *)
Definition from_chars_i64 (s : bytes) : conv Z :=
  let '(neg, t) := minus_sign s in
  let '(ds, rest) := scan_digits t in
  match ds with
  | [] => InvalidArgument
  | _ =>
      let v := if neg : bool then - digits_val ds else digits_val ds in
      if (int64_min <=? v) && (v <=? int64_max) then Conv v rest else ResultOutOfRange rest
  end.

(** [std::to_chars(first, last, int64_t)] and the buffer of [size] bytes. *)
Definition into_buffer (size : Z) (s : bytes) : option bytes :=
  if len s <=? size then Some s else None.

Definition to_chars_i64 (v : Z) : bytes :=
  if v <? 0 then "-"%byte :: dec 20 (- v) else dec 20 v.

(** ** Doubles *)

Abbreviation double := spec_float.

Definition isfinite (d : double) : bool :=
  match d with S754_zero _ | S754_finite _ _ _ => true | _ => false end.

(** Trailing zeros of the decimal mantissa go to the exponent. *)
Fixpoint strip (fuel : nat) (m e : Z) : Z * Z :=
  match fuel with
  | O => (m, e)
  | S fuel => if m mod 10 =? 0 then strip fuel (m / 10) (e + 1) else (m, e)
  end.

(** The [x] with [2 ^ (x - 1) <= a / b < 2 ^ x]. *)
Definition binary_exponent (a b : Z) : Z :=
  let k := Z.log2 a - Z.log2 b in
  if a * 2 ^ Z.max (- k) 0 <? b * 2 ^ Z.max k 0 then k else k + 1.

(** The integer nearest to [x / y], the even one of two. *)
Definition nearest (x y : Z) : Z :=
  let '(m, r) := Z.div_eucl x y in
  if 2 * r <? y then m else if y <? 2 * r then m + 1 else if Z.even m then m else m + 1.

(** [(-1)^neg * a / b] rounded to binary64, [0 < a] and [0 < b]; [None] when the
    magnitude is above the largest finite value or rounds to zero. *)
Definition round_ratio (neg : bool) (a b : Z) : option double :=
  let e := Z.max (-1074) (binary_exponent a b - 53) in
  let m := nearest (a * 2 ^ Z.max (- e) 0) (b * 2 ^ Z.max e 0) in
  let '(m, e) := if m =? 2 ^ 53 then (2 ^ 52, e + 1) else (m, e) in
  match m with
  | Zpos p => if e <=? 971 then Some (S754_finite neg p e) else None
  | _ => None
  end.

(** [(-1)^neg * m * 10^e] rounded, [0 < m]. The two bounds only keep the powers of
    ten small: beyond them the result is known. *)
Definition round_decimal (neg : bool) (m e : Z) : option double :=
  if (if 0 <=? e then 1100 <? Z.log2 m + 3 * e else Z.log2 m + 1 + 3 * e <? -1100) then None
  else round_ratio neg (m * 10 ^ Z.max e 0) (10 ^ Z.max (- e) 0).

Definition decimal_to_double (neg : bool) (ds : bytes) (e : Z) : option double :=
  let m := digits_val ds in
  if m =? 0 then Some (S754_zero neg) else
  let '(m, e) := strip (length ds) m e in round_decimal neg m e.

(** The exponent part [e[+-]ddd], when there is one. *)
Definition scan_exponent (s : bytes) : Z * bytes :=
  match s with
  | c :: t =>
      if bool_decide (c = "e"%byte) || bool_decide (c = "E"%byte) then
        let '(neg, t) := match t with
                         | d :: t' => if bool_decide (d = "-"%byte) then (true, t')
                                      else if bool_decide (d = "+"%byte) then (false, t') else (false, t)
                         | [] => (false, t)
                         end in
        match scan_digits t with
        | ([], _) => (0, s)
        | (ds, rest) => (if neg : bool then - digits_val ds else digits_val ds, rest)
        end
      else (0, s)
  | [] => (0, s)
  end.

(** The fraction [.ddd], when there is one. *)
Definition scan_fraction (s : bytes) : bytes * bytes :=
  match s with
  | c :: t => if bool_decide (c = "."%byte) then scan_digits t else ([], s)
  | [] => ([], s)
  end.

(** [std::from_chars(first, last, double&)] on decimal input (the parser never
    hands it [inf] or [nan]). *)
Definition from_chars_double (s : bytes) : conv double :=
  let '(neg, t) := minus_sign s in
  let '(ds1, t1) := scan_digits t in
  let '(ds2, t2) := scan_fraction t1 in
  match ds1 ++ ds2 with
  | [] => InvalidArgument
  | ds =>
      let '(x, rest) := scan_exponent t2 in
      match decimal_to_double neg ds (x - len ds2) with
      | Some d => Conv d rest
      | None => ResultOutOfRange rest
      end
  end.

(** *** Shortest digits *)

(** The integers next to [num / den / 10 ^ q], the closest first. *)
Definition neighbours (num den q : Z) : list Z :=
  let a := num * 10 ^ Z.max (- q) 0 in
  let b := den * 10 ^ Z.max q 0 in
  let lo := a / b in
  if 2 * (a - lo * b) <=? b then [lo; lo + 1] else [lo + 1; lo].

(** The number of decimal digits of the integer part of [a / b], when positive. *)
Fixpoint magnitude (fuel : nat) (a b : Z) (k : Z) : Z :=
  match fuel with
  | O => k
  | S fuel =>
      if b * 10 <=? a then magnitude fuel a (b * 10) (k + 1)
      else if a <? b then magnitude fuel (a * 10) b (k - 1) else k
  end.

#[global] Instance spec_float_eq_dec : EqDecision spec_float.
Proof. solve_decision. Defined.

Definition gives (d : double) (neg : bool) (q m : Z) : bool :=
  (0 <? m) && bool_decide (round_decimal neg m q = Some d).

(** The fewest digits, at most 17, that give [d] back. *)
Fixpoint shortest (turns : nat) (n : Z) (d : double) (neg : bool) (num den k : Z) : option (Z * Z) :=
  match turns with
  | O => None
  | S turns =>
      let q := k + 1 - n in
      match List.find (gives d neg q) (neighbours num den q) with
      | Some m => Some (m, q)
      | None => shortest turns (n + 1) d neg num den k
      end
  end.

Definition scientific (ds : bytes) (x : Z) : bytes :=
  match ds with
  | [] => []
  | d :: ds =>
      d :: (match ds with [] => [] | _ => "."%byte :: ds end) ++
      "e"%byte :: (if x <? 0 then "-"%byte else "+"%byte) ::
      (if Z.abs x <? 10 then "0"%byte :: dec 3 (Z.abs x) else dec 3 (Z.abs x))
  end.

Definition fixed (ds : bytes) (q integer : Z) : bytes :=
  let n := len ds in
  if 0 <=? q then decimal integer
  else if 0 <? n + q then take (Z.to_nat (n + q)) ds ++ "."%byte :: drop (Z.to_nat (n + q)) ds
  else "0"%byte :: "."%byte :: replicate (Z.to_nat (- (n + q))) "0"%byte ++ ds.

(** [std::to_chars(first, last, double)] of a finite value. *)
Definition to_chars_double (d : double) : option bytes :=
  match d with
  | S754_zero s => Some (if s then ["-"%byte; "0"%byte] else ["0"%byte])
  | S754_finite s m e =>
      let num := Zpos m * 2 ^ Z.max e 0 in
      let den := 2 ^ Z.max (- e) 0 in
      '(m, q) ← shortest 17 1 d s num den (magnitude 700 num den 0);
      let '(m, q) := strip 20 m q in
      let ds := decimal m in
      let f := fixed ds q (num / den) in
      let x := scientific ds (q + len ds - 1) in
      Some ((if s : bool then ["-"%byte] else []) ++ (if len f <=? len x then f else x))
  | _ => None
  end.

(** ** Digits *)

Definition all_digits (ds : bytes) : Prop := Forall (fun c => isDigit c = true) ds.

(** The text does not go on with a digit. *)
Definition no_digit (s : bytes) : Prop := match s with c :: _ => isDigit c = false | [] => True end.

Lemma isDigit_spec c : isDigit c = true <-> 48 <= b2z c <= 57.
Proof. unfold isDigit. rewrite andb_true_iff, !Z.leb_le. done. Qed.

Lemma b2z_digit n : 0 <= n < 10 -> b2z (digit n) = 48 + n.
Proof. intros. unfold digit. rewrite b2z_z2b. apply Z.mod_small. lia. Qed.

Lemma isDigit_digit n : 0 <= n < 10 -> isDigit (digit n) = true.
Proof. intros. apply isDigit_spec. rewrite b2z_digit; lia. Qed.

Lemma scan_digits_app ds rest : all_digits ds -> no_digit rest -> scan_digits (ds ++ rest) = (ds, rest).
Proof.
  intros Hd Hr. induction Hd as [|c ds Hc _ IH]; cbn.
  - destruct rest as [|c rest]; [done|]. cbn in *. by rewrite Hr.
  - by rewrite Hc, IH.
Qed.

Lemma scan_digits_split s ds rest : scan_digits s = (ds, rest) -> s = ds ++ rest /\ all_digits ds /\ no_digit rest.
Proof.
  revert ds rest. induction s as [|c s IH]; intros ds rest H; cbn in H; [by injection H as <- <-; split_and!; [|constructor|]|].
  destruct (isDigit c) eqn:Ec; [|injection H as <- <-; split_and!; [done|constructor|exact Ec]].
  destruct (scan_digits s) as [ds' rest'] eqn:Es. injection H as <- <-. destruct (IH _ _ eq_refl) as (-> & Hd & Hn).
  split_and!; [done|by constructor|done].
Qed.

Lemma digits_val_app ds ds' :
  digits_val (ds ++ ds') = digits_val ds * 10 ^ len ds' + digits_val ds'.
Proof.
  unfold digits_val. rewrite fold_left_app. generalize (fold_left (fun a d => a * 10 + (b2z d - 48)) ds 0). intros a.
  assert (forall b, fold_left (fun a d => a * 10 + (b2z d - 48)) ds' b
                    = b * 10 ^ len ds' + fold_left (fun a d => a * 10 + (b2z d - 48)) ds' 0) as H; [|apply H].
  clear a. induction ds' as [|d ds' IH]; intros b; [rewrite len_nil; cbn [fold_left]; lia|]. cbn [fold_left].
  rewrite IH, (IH (0 * 10 + _)), len_cons, Z.pow_add_r, Z.pow_1_r by (pose proof (len_nonneg ds'); lia). ring.
Qed.

Lemma digits_val_snoc ds n : 0 <= n < 10 -> digits_val (ds ++ [digit n]) = digits_val ds * 10 + n.
Proof. intros. rewrite digits_val_app. unfold digits_val at 2. cbn [fold_left]. rewrite b2z_digit by done. change (len [digit n]) with 1. lia. Qed.

Lemma digits_val_nonneg ds : all_digits ds -> 0 <= digits_val ds.
Proof.
  induction ds as [|c ds IH] using rev_ind; [done|]. intros [Hd Hc]%Forall_app. rewrite digits_val_app.
  specialize (IH Hd). apply Forall_singleton, isDigit_spec in Hc. unfold digits_val at 2. cbn [fold_left].
  change (len [c]) with 1. lia.
Qed.

Lemma dec_val fuel n : 0 <= n < 10 ^ Z.of_nat fuel -> digits_val (dec fuel n) = n.
Proof.
  revert n. induction fuel as [|fuel IH]; intros n Hn; [cbn in *; lia|]. cbn [dec]. destruct (Z.ltb_spec n 10).
  - unfold digits_val; cbn [fold_left]. rewrite b2z_digit; lia.
  - rewrite digits_val_snoc by dmlia. rewrite IH; [dmlia|]. rewrite Nat2Z.inj_succ, Z.pow_succ_r in Hn by lia. dmlia.
Qed.

Lemma dec_digits fuel n : 0 <= n -> all_digits (dec fuel n).
Proof.
  revert n. induction fuel as [|fuel IH]; intros n Hn; [constructor|]. cbn [dec]. destruct (Z.ltb_spec n 10).
  - apply Forall_singleton. apply isDigit_digit. lia.
  - apply Forall_app. split; [apply IH; dmlia|]. apply Forall_singleton, isDigit_digit. dmlia.
Qed.

(** No leading zeros. *)
Lemma dec_head fuel n :
  0 < n < 10 ^ Z.of_nat fuel -> exists c ds, dec fuel n = c :: ds /\ 49 <= b2z c <= 57 /\ all_digits ds.
Proof.
  revert n. induction fuel as [|fuel IH]; intros n Hn; [cbn in *; lia|]. cbn [dec]. destruct (Z.ltb_spec n 10).
  - exists (digit n), []. rewrite b2z_digit by lia. split_and!; [done|lia|lia|constructor].
  - rewrite Nat2Z.inj_succ, Z.pow_succ_r in Hn by lia. destruct (IH (n / 10)) as (c & ds & -> & Hc & Hds); [dmlia|].
    exists c, (ds ++ [digit (n mod 10)]). split_and!; [done|lia|lia|]. apply Forall_app. split; [done|].
    apply Forall_singleton, isDigit_digit. dmlia.
Qed.

Lemma decimal_fuel n : 0 <= n -> n < 10 ^ Z.of_nat (S (Z.to_nat (Z.log2 n))).
Proof.
  intros Hn. pose proof (Z.log2_nonneg n). rewrite Nat2Z.inj_succ, Z2Nat.id by lia.
  destruct (Z.eq_dec n 0) as [->|]; [done|]. pose proof (Z.log2_spec n ltac:(lia)) as [_ H2].
  apply (Z.lt_le_trans _ _ _ H2), Z.pow_le_mono_l. lia.
Qed.

Lemma decimal_head n : 0 < n -> exists c ds, decimal n = c :: ds /\ 49 <= b2z c <= 57 /\ all_digits ds.
Proof. intros Hn. apply dec_head. split; [done|]. apply decimal_fuel. lia. Qed.

Lemma minus_sign_digit c s : 48 <= b2z c <= 57 -> minus_sign (c :: s) = (false, c :: s).
Proof. intros. unfold minus_sign. rewrite bool_decide_false; [done|]. intros ->. assert (b2z "-"%byte = 45) by done. lia. Qed.

(** ** Integers *)

Lemma in_i64 v : int64_min <= v <= int64_max -> (int64_min <=? v) && (v <=? int64_max) = true.
Proof. intros. apply andb_true_intro. rewrite !Z.leb_le. done. Qed.

(** [from_chars] gets back what [to_chars] wrote. *)
Lemma i64_roundtrip v rest :
  int64_min <= v <= int64_max -> no_digit rest -> from_chars_i64 (to_chars_i64 v ++ rest) = Conv v rest.
Proof.
  intros Hv Hr. pose proof (in_i64 v Hv) as Hin. unfold int64_min, int64_max in Hv. unfold from_chars_i64, to_chars_i64.
  assert (forall n, 0 <= n <= 2 ^ 63 -> digits_val (dec 20 n) = n /\ exists c ds, dec 20 n = c :: ds /\ 48 <= b2z c <= 57) as Hd.
  { intros n Hn. assert (2 ^ 63 < 10 ^ Z.of_nat 20) by (vm_compute; done). split; [apply dec_val; lia|].
    destruct (Z.eq_dec n 0) as [->|]; [exists (digit 0), []; split; [vm_compute; reflexivity|rewrite b2z_digit; lia]|]. destruct (dec_head 20 n) as (c & ds & E & ? & _); [lia|].
    exists c, ds. split; [done|lia]. }
  destruct (Z.ltb_spec v 0).
  - destruct (Hd (- v)) as (Hval & c & ds & E & _); [lia|]. cbn [app minus_sign]. rewrite bool_decide_true by done.
    rewrite scan_digits_app by (exact Hr || (apply dec_digits; lia)). rewrite Hval, Z.opp_involutive. by rewrite E, Hin.
  - destruct (Hd v) as (Hval & c & ds & E & Hc); [lia|]. rewrite E. cbn [app]. rewrite minus_sign_digit by done.
    change (c :: ds ++ rest) with ((c :: ds) ++ rest). rewrite <- E.
    rewrite scan_digits_app by (exact Hr || (apply dec_digits; lia)). by rewrite Hval, E, Hin.
Qed.
