(* ===== verification/Rounding.v ===== *)
(** * Rounding: decimal digits and doubles

    The two number conversions of [Charconv] fit together: [round_ratio] gives a
    [double] for every ratio close to it, whatever its representation; seventeen
    digits are always close enough, so that [to_chars] of a finite [double] has a
    result of bounded length; and the digits it prints round to the value. *)
From Stdlib Require Import SpecFloat.
From S2P Require Import Prelude Charconv.

(** ** Powers with a common shift *)

(** [a / b] against [base ^ k], with the sign of [k] moved into a shift [K]. *)
Lemma scale_pow base a b k K :
  0 < base -> 0 <= K -> 0 <= K + k ->
  exists c, 0 < c /\ a * base ^ K = c * (a * base ^ Z.max (- k) 0) /\ b * base ^ (K + k) = c * (b * base ^ Z.max k 0).
Proof.
  intros Hb HK Hk. exists (base ^ (K - Z.max (- k) 0)). split; [apply Z.pow_pos_nonneg; lia|]. split.
  - replace K with (K - Z.max (- k) 0 + Z.max (- k) 0) at 1 by lia. rewrite Z.pow_add_r by lia. ring.
  - replace (K + k) with (K - Z.max (- k) 0 + Z.max k 0) by lia. rewrite Z.pow_add_r by lia. ring.
Qed.

Lemma pow_split base x y : 0 <= x -> 0 <= y -> base ^ (x + y) = base ^ x * base ^ y.
Proof. intros. by apply Z.pow_add_r. Qed.

(** ** The nearest integer *)

Lemma nearest_near x y n : 0 < y -> - y < 2 * (x - n * y) < y -> nearest x y = n.
Proof.
  intros Hy Hn. unfold nearest. pose proof (Z.div_mod x y ltac:(lia)) as E. pose proof (Z.mod_pos_bound x y Hy) as Hr.
  unfold Z.div, Z.modulo in E, Hr. destruct (Z.div_eucl x y) as [m r].
  assert (m = n \/ m = n - 1) as [-> | ->] by nia.
  - destruct (Z.ltb_spec (2 * r) y); [done|]. nia.
  - destruct (Z.ltb_spec (2 * r) y); [nia|]. destruct (Z.ltb_spec y (2 * r)); nia.
Qed.

Lemma nearest_scale c x y : 0 < c -> 0 < y -> nearest (c * x) (c * y) = nearest x y.
Proof.
  intros Hc Hy. unfold nearest.
  pose proof (Z.div_mul_cancel_l x y c ltac:(lia) ltac:(lia)) as Ed. pose proof (Z.mul_mod_distr_l x y c ltac:(lia) ltac:(lia)) as Em.
  unfold Z.div, Z.modulo in Ed, Em. destruct (Z.div_eucl x y) as [m r]. destruct (Z.div_eucl (c * x) (c * y)) as [m' r'].
  subst m' r'. replace (2 * (c * r)) with (c * (2 * r)) by ring.
  destruct (Z.ltb_spec (c * (2 * r)) (c * y)), (Z.ltb_spec (2 * r) y); try done; try nia.
  destruct (Z.ltb_spec (c * y) (c * (2 * r))), (Z.ltb_spec y (2 * r)); try done; nia.
Qed.

(** ** The binary exponent *)

Lemma pow_lt_inv base x y : 1 < base -> 0 <= y -> base ^ x < base ^ y -> x < y.
Proof. intros ? ? H. by apply Z.pow_lt_mono_r_iff in H. Qed.

Lemma binary_exponent_spec a b K :
  0 < a -> 0 < b -> 0 <= K -> 0 <= K + binary_exponent a b - 1 ->
  b * 2 ^ (K + binary_exponent a b - 1) <= a * 2 ^ K < b * 2 ^ (K + binary_exponent a b).
Proof.
  intros Ha Hb HK. unfold binary_exponent. set (k := Z.log2 a - Z.log2 b).
  pose proof (Z.log2_spec a Ha) as [La Ua]. pose proof (Z.log2_spec b Hb) as [Lb Ub].
  pose proof (Z.log2_nonneg a). pose proof (Z.log2_nonneg b). set (la := Z.log2 a) in *. set (lb := Z.log2 b) in *.
  pose proof (Z.pow_pos_nonneg 2 K ltac:(lia) HK) as PK.
  destruct (Z.ltb_spec (a * 2 ^ Z.max (- k) 0) (b * 2 ^ Z.max k 0)) as [T|T]; intros Hk.
  - destruct (scale_pow 2 a b k K) as (c & Hc & Ea & Eb); [lia..|]. split; [|rewrite Ea, Eb; nia].
    transitivity (2 ^ (lb + 1) * 2 ^ (K + k - 1)); [apply Z.mul_le_mono_nonneg_r; [apply Z.pow_nonneg|]; lia|].
    rewrite <- Z.pow_add_r by lia. replace (lb + 1 + (K + k - 1)) with (la + K) by lia. rewrite Z.pow_add_r by lia. nia.
  - destruct (scale_pow 2 a b k K) as (c & Hc & Ea & Eb); [lia..|]. replace (K + (k + 1) - 1) with (K + k) by lia.
    split; [rewrite Ea, Eb; nia|].
    apply (Z.lt_le_trans _ (2 ^ (la + 1) * 2 ^ K)); [nia|]. rewrite <- Z.pow_add_r by lia.
    replace (la + 1 + K) with (lb + (K + (k + 1))) by lia. rewrite Z.pow_add_r by lia.
    apply Z.mul_le_mono_nonneg_r; [apply Z.pow_nonneg|]; lia.
Qed.

Lemma binary_exponent_unique a b K x :
  0 < a -> 0 < b -> 0 <= K -> 0 <= K + x - 1 -> b * 2 ^ (K + x - 1) <= a * 2 ^ K < b * 2 ^ (K + x) -> binary_exponent a b = x.
Proof.
  intros Ha Hb HK Hx [L U]. set (E := binary_exponent a b). set (j := Z.abs E).
  destruct (binary_exponent_spec a b (K + j + 1)) as [L' U']; [lia..|]. fold E in L', U'.
  assert (b * 2 ^ (K + x - 1 + (j + 1)) <= a * 2 ^ (K + (j + 1)) < b * 2 ^ (K + x + (j + 1))) as [L2 U2].
  { rewrite !(pow_split 2 _ (j + 1)), !Z.mul_assoc by lia. pose proof (Z.pow_pos_nonneg 2 (j + 1)). nia. }
  replace (K + (j + 1)) with (K + j + 1) in * by lia.
  assert (K + x - 1 + (j + 1) < K + j + 1 + E) by (apply (pow_lt_inv 2); [lia..|]; nia).
  assert (K + j + 1 + E - 1 < K + x + (j + 1)) by (apply (pow_lt_inv 2); [lia..|]; nia). lia.
Qed.

Lemma binary_exponent_scale c a b : 0 < c -> 0 < a -> 0 < b -> binary_exponent (c * a) (c * b) = binary_exponent a b.
Proof.
  intros Hc Ha Hb. set (K := Z.abs (binary_exponent a b) + 1).
  destruct (binary_exponent_spec a b K) as [L U]; [lia..|].
  apply (binary_exponent_unique _ _ K); [nia|nia|lia..|]. rewrite <- !Z.mul_assoc. nia.
Qed.

(** ** Rounding *)

(** Rounding depends on the ratio alone. *)
Lemma round_ratio_scale neg c a b : 0 < c -> 0 < a -> 0 < b -> round_ratio neg (c * a) (c * b) = round_ratio neg a b.
Proof.
  intros Hc Ha Hb. unfold round_ratio. rewrite binary_exponent_scale by done. set (e := Z.max _ _).
  rewrite <- !Z.mul_assoc, nearest_scale; [done|done|]. pose proof (Z.pow_pos_nonneg 2 (Z.max e 0)). lia.
Qed.

Lemma round_ratio_eq neg a b a' b' :
  0 < a -> 0 < b -> 0 < a' -> 0 < b' -> a * b' = a' * b -> round_ratio neg a b = round_ratio neg a' b'.
Proof.
  intros Ha Hb Ha' Hb' E. rewrite <- (round_ratio_scale neg b' a b), <- (round_ratio_scale neg b a' b') by done.
  f_equal; lia.
Qed.

Lemma nearest_shift a b e K :
  0 < b -> 0 <= K -> 0 <= K + e -> nearest (a * 2 ^ Z.max (- e) 0) (b * 2 ^ Z.max e 0) = nearest (a * 2 ^ K) (b * 2 ^ (K + e)).
Proof.
  intros Hb HK He. destruct (scale_pow 2 a b e K) as (c & Hc & -> & ->); [lia..|].
  rewrite nearest_scale; [done|done|]. pose proof (Z.pow_pos_nonneg 2 (Z.max e 0)). nia.
Qed.

(** The mantissa and exponent of a finite binary64 value. *)
Definition binary64 (m e : Z) : Prop := 0 < m < 2 ^ 53 /\ -1074 <= e <= 971 /\ (2 ^ 52 <= m \/ e = -1074).

Lemma digits2_pos_size m : digits2_pos m = Pos.size m.
Proof. induction m as [m IH|m IH|]; cbn [digits2_pos Pos.size]; by rewrite ?IH. Qed.

Lemma valid_binary64 s m e : valid_binary 53 1024 (S754_finite s m e) = true -> binary64 (Zpos m) e.
Proof.
  cbn [valid_binary]. unfold bounded, canonical_mantissa, fexp, emin. rewrite digits2_pos_size.
  intros [He%Zeq_bool_eq Hle%Zle_bool_imp_le]%andb_prop.
  pose proof (Pos.size_gt m) as Hg. pose proof (Pos.size_le m) as Hl.
  assert (Zpos m < 2 ^ Zpos (Pos.size m)) by (rewrite <- Pos2Z.inj_pow; lia).
  assert (2 ^ Zpos (Pos.size m) <= 2 * Zpos m) by (rewrite <- Pos2Z.inj_pow; lia).
  set (n := Zpos (Pos.size m)) in *. assert (n <= 53) as Hn by lia.
  pose proof (Z.pow_le_mono_r 2 n 53 ltac:(lia) Hn). split; [lia|]. split; [lia|].
  destruct (Z.eq_dec e (-1074)) as [|Hne]; [by right|left]. assert (n = 53) as E by lia. rewrite E in *. lia.
Qed.

Section near.
Context (a b m e K : Z).
Hypotheses (Ha : 0 < a) (Hb : 0 < b) (Hv : binary64 m e) (HK : 0 <= K) (HKe : 0 <= K + e - 1).
Let X := a * 2 ^ K.
Let Y := b * 2 ^ (K + e).
Hypothesis Hnear : 2 * 10 ^ 16 * Z.abs (X - m * Y) <= m * Y.

Lemma shift_Y x : 0 <= x -> b * 2 ^ (K + (e + x)) = 2 ^ x * Y.
Proof. intros. subst Y. replace (K + (e + x)) with (K + e + x) by lia. rewrite Z.pow_add_r by lia. ring. Qed.

Lemma Y_pos : 0 < Y.
Proof. subst Y. pose proof (Z.pow_pos_nonneg 2 (K + e)). nia. Qed.

(** The ratio has the exponent of the value next to it, or is just below a power
    of two. *)
Lemma near_exponent :
  let x := Z.max (-1074) (binary_exponent a b - 53) in x = e \/ x = e - 1 /\ m = 2 ^ 52.
Proof.
  pose proof Y_pos as HY. destruct Hv as (Hm & He & Hc). cbn zeta.
  pose proof (shift_Y 51 ltac:(lia)) as E51. pose proof (shift_Y 52 ltac:(lia)) as E52. pose proof (shift_Y 53 ltac:(lia)) as E53.
  assert (X < 2 ^ 53 * Y) as HU by nia.
  destruct (Z.lt_ge_cases m (2 ^ 52)) as [Hsub|Hnorm].
  - left. assert (X < 2 ^ 52 * Y) as HX by nia. destruct (Z.le_gt_cases (binary_exponent a b) (e + 52)); [lia|].
    destruct (binary_exponent_spec a b K) as [L _]; [lia..|].
    pose proof (Z.pow_le_mono_r 2 (K + (e + 52)) (K + binary_exponent a b - 1)). subst X. nia.
  - destruct (Z.le_gt_cases (2 ^ 52 * Y) X) as [HX|HX].
    + left. rewrite (binary_exponent_unique a b K (e + 53)); [lia|done|done|lia|lia|].
      replace (K + (e + 53) - 1) with (K + (e + 52)) by lia. rewrite E52, E53. done.
    + assert (m = 2 ^ 52) as Em by nia.
      rewrite (binary_exponent_unique a b K (e + 52)); [lia|done|done|lia|lia|].
      replace (K + (e + 52) - 1) with (K + (e + 51)) by lia. rewrite E51, E52. fold X. nia.
Qed.

Lemma round_near neg : round_ratio neg a b = Some (S754_finite neg (Z.to_pos m) e).
Proof.
  pose proof Y_pos as HY. destruct Hv as (Hm & He & Hc). unfold round_ratio. destruct near_exponent as [-> |[-> Em]].
  - rewrite (nearest_shift a b e K) by lia. rewrite (nearest_near _ _ m) by (fold X Y; lia || nia).
    rewrite (proj2 (Z.eqb_neq m _)) by lia. destruct m; try lia. by rewrite (proj2 (Z.leb_le e _)) by lia.
  - rewrite (nearest_shift a b (e - 1) K) by lia. pose proof (Z.pow_succ_r 2 (K + (e - 1)) ltac:(lia)) as Ep.
    replace (Z.succ (K + (e - 1))) with (K + e) in Ep by lia. set (Y' := b * 2 ^ (K + (e - 1))).
    assert (Y = 2 * Y') as EY by (subst Y Y'; rewrite Ep; ring).
    rewrite (nearest_near _ _ (2 ^ 53)) by (fold X; lia || nia). rewrite Z.eqb_refl. replace (e - 1 + 1) with e by lia.
    rewrite (proj2 (Z.leb_le e _)) by lia. by rewrite Em.
Qed.
End near.

(** Within a part in 2 * 10^16 of the value. *)
Lemma round_ratio_near neg a b m e :
  binary64 m e -> 0 < a -> 0 < b ->
  2 * 10 ^ 16 * Z.abs (a * 2 ^ Z.max (- e) 0 - m * 2 ^ Z.max e 0 * b) <= m * 2 ^ Z.max e 0 * b ->
  round_ratio neg a b = Some (S754_finite neg (Z.to_pos m) e).
Proof.
  intros Hv Ha Hb Hn. pose proof Hv as (Hm & He & _). destruct (scale_pow 2 a b e 1100) as (c & Hc & Ea & Eb); [lia..|].
  apply (round_near a b m e 1100); [done..|lia|lia|]. rewrite Ea, Eb.
  set (x := a * _) in *. set (y := 2 ^ Z.max e 0) in *.
  replace (c * x - m * (c * (b * y))) with (c * (x - m * y * b)) by ring. rewrite Z.abs_mul, (Z.abs_eq c) by lia. nia.
Qed.

Lemma round_ratio_exact neg a b m e :
  binary64 m e -> 0 < a -> 0 < b -> a * 2 ^ Z.max (- e) 0 = m * 2 ^ Z.max e 0 * b ->
  round_ratio neg a b = Some (S754_finite neg (Z.to_pos m) e).
Proof.
  intros Hv Ha Hb E. apply round_ratio_near; [done..|]. rewrite E, Z.sub_diag.
  pose proof Hv as (Hm & _). pose proof (Z.pow_pos_nonneg 2 (Z.max e 0)). cbn [Z.abs]. nia.
Qed.

Lemma round_ratio_large neg a b : 0 < b -> 2 ^ 1024 * b <= a -> round_ratio neg a b = None.
Proof.
  intros Hb Hl. assert (0 < a) as Ha by nia. unfold round_ratio.
  assert (1025 <= binary_exponent a b) as HE.
  { destruct (Z.le_gt_cases 1025 (binary_exponent a b)) as [|Hlt]; [done|exfalso].
    set (K := Z.abs (binary_exponent a b) + 1). destruct (binary_exponent_spec a b K) as [_ U]; [lia..|].
    pose proof (Z.pow_le_mono_r 2 (K + binary_exponent a b) (K + 1024) ltac:(lia) ltac:(lia)) as Hp.
    rewrite (Z.pow_add_r 2 K 1024) in Hp by lia. pose proof (Z.pow_pos_nonneg 2 K ltac:(lia) ltac:(lia)) as HP.
    apply (Z.mul_le_mono_nonneg_l _ _ b) in Hp; [|lia]. apply (Z.mul_le_mono_nonneg_r _ _ (2 ^ K)) in Hl; lia. }
  cbv zeta. set (e := Z.max (-1074) _). assert (971 < e) by lia. set (m := nearest _ _). destruct (m =? 2 ^ 53).
  - by rewrite (proj2 (Z.leb_gt (e + 1) _)) by lia.
  - destruct m; [done| |done]. by rewrite (proj2 (Z.leb_gt e _)) by lia.
Qed.

Lemma round_ratio_small neg a b : 0 < a -> a * 2 ^ 1075 < b -> round_ratio neg a b = None.
Proof.
  intros Ha Hs. assert (0 < b) as Hb by nia. unfold round_ratio.
  assert (Z.max (-1074) (binary_exponent a b - 53) = -1074) as ->.
  { destruct (Z.le_gt_cases (binary_exponent a b) (-1021)) as [|Hlt]; [lia|exfalso].
    set (K := Z.abs (binary_exponent a b) + 1022). destruct (binary_exponent_spec a b K) as [L _]; [lia..|].
    pose proof (Z.pow_le_mono_r 2 (K - 1021) (K + binary_exponent a b - 1)).
    replace (2 ^ K) with (2 ^ (K - 1021) * 2 ^ 1021) in L by (rewrite <- Z.pow_add_r by lia; f_equal; lia).
    pose proof (Z.pow_pos_nonneg 2 (K - 1021)). assert (2 ^ 1021 < 2 ^ 1075) by by vm_compute. nia. }
  rewrite (nearest_near _ _ 0); [done| |]; change (Z.max (-1074) 0) with 0; change (Z.max (- -1074) 0) with 1074.
  - lia.
  - replace (2 ^ 1075) with (2 * 2 ^ 1074) in Hs by by vm_compute. assert (0 < 2 ^ 1074) by by vm_compute. nia.
Qed.

(** The two bounds of [round_decimal] change nothing. *)
Lemma round_decimal_ratio neg m e :
  0 < m -> round_decimal neg m e = round_ratio neg (m * 10 ^ Z.max e 0) (10 ^ Z.max (- e) 0).
Proof.
  intros Hm. unfold round_decimal. pose proof (Z.log2_spec m Hm) as [L U]. pose proof (Z.log2_nonneg m).
  assert (forall k, 0 <= k -> 2 ^ (3 * k) <= 10 ^ k) as Hp.
  { intros k Hk. rewrite Z.pow_mul_r by lia. apply Z.pow_le_mono_l. lia. }
  destruct (Z.leb_spec 0 e) as [He|He].
  - destruct (Z.ltb_spec 1100 (Z.log2 m + 3 * e)) as [Hb|]; [|done]. symmetry. rewrite (Z.max_l e), (Z.max_r (- e)) by lia.
    apply round_ratio_large; [done|]. rewrite Z.mul_1_r. specialize (Hp e He).
    transitivity (2 ^ (Z.log2 m + 3 * e)); [apply Z.pow_le_mono_r; lia|]. rewrite Z.pow_add_r by lia.
    apply Z.mul_le_mono_nonneg; try lia; by apply Z.pow_nonneg.
  - destruct (Z.ltb_spec (Z.log2 m + 1 + 3 * e) (-1100)) as [Hb|]; [|done]. symmetry. rewrite (Z.max_r e), (Z.max_l (- e)) by lia.
    rewrite Z.mul_1_r. apply round_ratio_small; [done|]. specialize (Hp (- e) ltac:(lia)).
    apply (Z.lt_le_trans _ (2 ^ Z.succ (Z.log2 m) * 2 ^ 1075)); [by apply Z.mul_lt_mono_pos_r|].
    rewrite <- Z.pow_add_r by lia. transitivity (2 ^ (3 * - e)); [apply Z.pow_le_mono_r; lia|done].
Qed.

(** The value decides, not its digits. *)
Lemma round_decimal_shift neg m q q' :
  0 < m -> q <= q' -> round_decimal neg (m * 10 ^ (q' - q)) q = round_decimal neg m q'.
Proof.
  intros Hm Hq. assert (0 < 10 ^ (q' - q)) by (apply Z.pow_pos_nonneg; lia).
  assert (forall k, 0 < 10 ^ Z.max k 0) as P by (intros k; apply Z.pow_pos_nonneg; lia).
  rewrite !round_decimal_ratio by nia. pose proof (P q). pose proof (P q'). apply round_ratio_eq; try nia; [apply P..|].
  rewrite <- !Z.mul_assoc, <- !Z.pow_add_r by lia. do 2 f_equal. lia.
Qed.

Lemma strip_value fuel m e :
  0 < m -> let '(m', e') := strip fuel m e in 0 < m' /\ e <= e' <= e + Z.of_nat fuel /\ m = m' * 10 ^ (e' - e).
Proof.
  revert m e. induction fuel as [|fuel IH]; intros m e Hm; cbn [strip]; [rewrite Z.sub_diag; lia|].
  destruct (Z.eqb_spec (m mod 10) 0) as [H0|]; [|rewrite Z.sub_diag; lia].
  assert (0 < m / 10) as Hd by dmlia. specialize (IH (m / 10) (e + 1) Hd). destruct (strip _ _ _) as [m' e'].
  destruct IH as (? & ? & E). split; [done|]. split; [lia|].
  replace (e' - e) with (Z.succ (e' - (e + 1))) by lia. rewrite Z.pow_succ_r by lia. dmlia.
Qed.

Lemma round_decimal_strip neg fuel m e :
  0 < m -> round_decimal neg (strip fuel m e).1 (strip fuel m e).2 = round_decimal neg m e.
Proof.
  intros Hm. pose proof (strip_value fuel m e Hm) as Hs. destruct (strip fuel m e) as [m' e']. destruct Hs as (? & ? & ->).
  cbn [fst snd]. symmetry. apply round_decimal_shift; lia.
Qed.

Lemma decimal_to_double_round neg ds e :
  0 < digits_val ds -> decimal_to_double neg ds e = round_decimal neg (digits_val ds) e.
Proof.
  intros Hd. unfold decimal_to_double. rewrite (proj2 (Z.eqb_neq _ 0)) by lia.
  rewrite <- (round_decimal_strip neg (length ds)) by done. by destruct (strip _ _ _).
Qed.

(** ** Shortest digits *)

Lemma magnitude_up fuel : forall a b k,
  0 < b <= a -> a < b * 10 ^ (Z.of_nat fuel + 1) ->
  exists j, 0 <= j <= Z.of_nat fuel /\ magnitude fuel a b k = k + j /\ b * 10 ^ j <= a < b * 10 ^ (j + 1).
Proof.
  induction fuel as [|fuel IH]; intros a b k Hb Ha; cbn [magnitude].
  - exists 0. cbn in *. lia.
  - destruct (Z.leb_spec (b * 10) a) as [Hle|Hgt].
    + rewrite Nat2Z.inj_succ in Ha. replace (Z.succ (Z.of_nat fuel) + 1) with (1 + (Z.of_nat fuel + 1)) in Ha by lia.
      rewrite pow_split, Z.mul_assoc in Ha by lia. destruct (IH a (b * 10) (k + 1)) as (j & Hj & -> & L & U); [lia|done|].
      exists (1 + j). rewrite <- Z.add_assoc, !pow_split, !Z.mul_assoc in * by lia. split; [lia|]. split; [lia|]. lia.
    + rewrite (proj2 (Z.ltb_ge a b)) by lia. exists 0. cbn. lia.
Qed.

Lemma magnitude_down fuel : forall a b k,
  0 < a < b -> b <= a * 10 ^ Z.of_nat fuel ->
  exists j, 0 < j <= Z.of_nat fuel /\ magnitude fuel a b k = k - j /\ b <= a * 10 ^ j < b * 10.
Proof.
  induction fuel as [|fuel IH]; intros a b k Ha Hb; cbn [magnitude]; [cbn in Hb; lia|].
  rewrite (proj2 (Z.leb_gt (b * 10) a)), (proj2 (Z.ltb_lt a b)) by lia.
  destruct (Z.lt_ge_cases (a * 10) b) as [Hlt|Hge].
  - rewrite Nat2Z.inj_succ in Hb. replace (Z.succ (Z.of_nat fuel)) with (1 + Z.of_nat fuel) in Hb by lia.
    rewrite pow_split, Z.mul_assoc in Hb by lia. destruct (IH (a * 10) b (k - 1)) as (j & Hj & -> & L & U); [lia|done|].
    exists (1 + j). rewrite pow_split, Z.mul_assoc by lia. split; [lia|]. split; [lia|]. done.
  - exists 1. split; [lia|]. split; [|lia].
    destruct fuel as [|fuel]; cbn [magnitude]; [lia|].
    rewrite (proj2 (Z.leb_gt (b * 10) (a * 10))), (proj2 (Z.ltb_ge (a * 10) b)) by lia. lia.
Qed.

(** [num / den] and its decimal exponent [k]. *)
Definition decimal_exponent (num den k : Z) : Prop :=
  forall K, 0 <= K -> 0 <= K + k -> den * 10 ^ (K + k) <= num * 10 ^ K < den * 10 ^ (K + k + 1).

Lemma magnitude_spec fuel num den :
  0 < num -> 0 < den -> num < den * 10 ^ (Z.of_nat fuel + 1) -> den <= num * 10 ^ Z.of_nat fuel ->
  decimal_exponent num den (magnitude fuel num den 0) /\ Z.abs (magnitude fuel num den 0) <= Z.of_nat fuel.
Proof.
  intros Hn Hd Hu Hl. destruct (Z.le_gt_cases den num) as [Hle|Hgt].
  - destruct (magnitude_up fuel num den 0) as (j & Hj & -> & L & U); [lia|done|].
    split; [|lia]. intros K HK Hk. rewrite Z.add_0_l in *. rewrite <- !Z.add_assoc, !(pow_split 10 K) by lia.
    pose proof (Z.pow_pos_nonneg 10 K ltac:(lia) HK). nia.
  - destruct (magnitude_down fuel num den 0) as (j & Hj & -> & L & U); [lia|done|].
    split; [|lia]. intros K HK Hk. rewrite Z.sub_0_l in *.
    replace (10 ^ K) with (10 ^ (K + - j) * 10 ^ j) by (rewrite <- Z.pow_add_r by lia; f_equal; lia).
    rewrite (pow_split 10 (K + - j) 1), Z.pow_1_r by lia. pose proof (Z.pow_pos_nonneg 10 (K + - j) ltac:(lia) Hk). nia.
Qed.

Section digits.
Context (neg : bool) (mm : positive) (ee k : Z).
Hypothesis Hv : binary64 (Zpos mm) ee.
Let d : double := S754_finite neg mm ee.
Let num : Z := Zpos mm * 2 ^ Z.max ee 0.
Let den : Z := 2 ^ Z.max (- ee) 0.
Hypothesis Hk : decimal_exponent num den k.

Lemma num_pos : 0 < num.
Proof. subst num. pose proof (Z.pow_pos_nonneg 2 (Z.max ee 0)). nia. Qed.

Lemma den_pos : 0 < den.
Proof. subst den. apply Z.pow_pos_nonneg; lia. Qed.

Lemma neighbours_head q c rest :
  neighbours num den q = c :: rest ->
  2 * Z.abs (num * 10 ^ Z.max (- q) 0 - c * (den * 10 ^ Z.max q 0)) <= den * 10 ^ Z.max q 0.
Proof.
  unfold neighbours. set (a := num * _). set (b := den * _).
  assert (0 < b) as Hb by (pose proof den_pos; subst b; pose proof (Z.pow_pos_nonneg 10 (Z.max q 0)); nia).
  pose proof (Z.div_mod a b ltac:(lia)). pose proof (Z.mod_pos_bound a b Hb).
  destruct (Z.leb_spec (2 * (a - a / b * b)) b); intros [= <- _]; nia.
Qed.

Lemma neighbours_range n q c : q = k + 1 - n -> 0 < n -> c ∈ neighbours num den q -> 10 ^ (n - 1) <= c <= 10 ^ n.
Proof.
  intros Eq Hn Hc. pose proof num_pos. pose proof den_pos.
  assert (10 ^ (n - 1) <= num * 10 ^ Z.max (- q) 0 / (den * 10 ^ Z.max q 0) < 10 ^ n) as Hlo.
  { set (K := Z.abs q + n + Z.abs k). destruct (scale_pow 10 num den q K) as (c0 & Hc0 & Ea & Eb); [lia..|].
    destruct (Hk K) as [L U]; [lia..|]. replace (K + k) with (K + q + (n - 1)) in L by lia.
    replace (K + k + 1) with (K + q + n) in U by lia. rewrite pow_split, Z.mul_assoc, Ea, Eb in * by lia.
    set (a := num * 10 ^ Z.max (- q) 0) in *. set (b := den * 10 ^ Z.max q 0) in *.
    assert (0 < b) by (subst b; pose proof (Z.pow_pos_nonneg 10 (Z.max q 0)); nia).
    split; [apply Z.div_le_lower_bound|apply Z.div_lt_upper_bound]; nia. }
  unfold neighbours in Hc. destruct (_ <=? _) in Hc; apply elem_of_cons in Hc as [->|Hc%list_elem_of_singleton]; lia.
Qed.

(** Seventeen digits are enough. *)
Lemma seventeen c rest : neighbours num den (k + 1 - 17) = c :: rest -> gives d neg (k + 1 - 17) c = true.
Proof.
  intros E. set (q := k + 1 - 17) in *. pose proof num_pos. pose proof den_pos as Hd.
  assert (10 ^ (17 - 1) <= c <= 10 ^ 17) as Hc by (apply (neighbours_range 17 q); [done|lia|rewrite E; by left]).
  pose proof (neighbours_head q c rest E) as Hn. unfold gives. rewrite (proj2 (Z.ltb_lt 0 c)) by lia. apply bool_decide_eq_true.
  assert (0 < 10 ^ Z.max q 0) as Hp by (apply Z.pow_pos_nonneg; lia).
  assert (0 < 10 ^ Z.max (- q) 0) as Hp' by (apply Z.pow_pos_nonneg; lia).
  assert (10 ^ 16 * (den * 10 ^ Z.max q 0) <= num * 10 ^ Z.max (- q) 0) as Hbig.
  { destruct (scale_pow 10 num den q (Z.abs q + Z.abs k)) as (c0 & Hc0 & Ea & Eb); [lia..|].
    destruct (Hk (Z.abs q + Z.abs k)) as [L _]; [lia..|].
    replace (Z.abs q + Z.abs k + k) with (Z.abs q + Z.abs k + q + 16) in L by lia.
    rewrite pow_split, Z.mul_assoc, Ea, Eb in L by lia. nia. }
  rewrite round_decimal_ratio by lia. apply (round_ratio_near neg _ _ (Zpos mm) ee); [done|nia|done|].
  fold num den. set (P := 10 ^ Z.max q 0) in *. set (B := 10 ^ Z.max (- q) 0) in *.
  replace (c * P * den - num * B) with (- (num * B - c * (den * P))) by ring. rewrite Z.abs_opp. lia.
Qed.

Lemma shortest_total turns n :
  (0 < turns)%nat -> n + Z.of_nat turns = 18 -> 0 < n ->
  exists m q n', shortest turns n d neg num den k = Some (m, q) /\ n <= n' <= 17 /\ q = k + 1 - n' /\
    0 < m <= 10 ^ n' /\ round_decimal neg m q = Some d.
Proof.
  revert n. induction turns as [|turns IH]; intros n Ht En Hn; [lia|]. cbn [shortest].
  destruct (List.find _ _) as [m|] eqn:Ef.
  - apply List.find_some in Ef as [Hin Hg]. apply list_elem_of_In in Hin.
    apply andb_prop in Hg as [Hm%Z.ltb_lt Hg%bool_decide_eq_true].
    exists m, (k + 1 - n), n. pose proof (neighbours_range n _ m eq_refl Hn Hin). split_and!; (done || lia).
  - destruct turns as [|turns].
    + exfalso. replace n with 17 in Ef by lia. destruct (neighbours num den (k + 1 - 17)) as [|c rest] eqn:E.
      { unfold neighbours in E. by destruct (_ <=? _) in E. }
      cbn [List.find] in Ef. by rewrite (seventeen c rest E) in Ef.
    + destruct (IH (n + 1)) as (m & q & n' & E & ? & ? & ?); [lia..|]. exists m, q, n'. split; [done|]. split; [lia|]. done.
Qed.

(** A decimal without a fraction rounds to a double without one. *)
Lemma integer_exact m q : 0 < m -> 0 <= q -> round_decimal neg m q = Some d -> num / den * den = num /\ 0 < num / den.
Proof.
  clear k Hk. intros Hm Hq. rewrite round_decimal_ratio by done. rewrite (Z.max_l q), (Z.max_r (- q)) by lia. set (c := m * 10 ^ q).
  assert (0 < c) as Hc by (subst c; pose proof (Z.pow_pos_nonneg 10 q); nia). change (10 ^ 0) with 1. intros E.
  pose proof num_pos. pose proof den_pos.
  assert (exists i, num = i * den) as [i Ei]; [|rewrite Ei, Z.div_mul by lia; nia].
  destruct (Z.le_gt_cases 0 ee) as [He|He]; [exists num; subst den; rewrite Z.max_r by lia; lia|]. exists c.
  subst num den. rewrite Z.max_r, Z.max_l by lia. change (2 ^ 0) with 1. rewrite Z.mul_1_r. revert E. unfold round_ratio. cbv zeta.
  set (e := Z.max (-1074) _). subst d.
  assert (e < 0 -> nearest (c * 2 ^ Z.max (- e) 0) (1 * 2 ^ Z.max e 0) = c * 2 ^ (- e)) as Hnear.
  { intros. rewrite (Z.max_l (- e)), (Z.max_r e) by lia. apply nearest_near; cbn; lia. }
  destruct (Z.eqb_spec (nearest (c * 2 ^ Z.max (- e) 0) (1 * 2 ^ Z.max e 0)) (2 ^ 53)) as [Hcarry|_].
  - destruct (e + 1 <=? 971); [|done]. intros [= <- <-]. rewrite Hnear in Hcarry by lia.
    replace (- e) with (Z.succ (- (e + 1))) in Hcarry by lia. rewrite Z.pow_succ_r in Hcarry by lia.
    change (2 ^ 53) with (2 * 4503599627370496) in Hcarry. lia.
  - destruct (nearest _ _) as [|p|] eqn:En; [done| |done]. destruct (e <=? 971); [|done]. intros [= <- <-].
    by apply Hnear.
Qed.

Lemma integer_round m q :
  0 < m -> 0 <= q -> round_decimal neg m q = Some d -> 0 < num / den /\ round_decimal neg (num / den) 0 = Some d.
Proof.
  clear k Hk. intros Hm Hq E. destruct (integer_exact m q Hm Hq E) as [Ei Hi]. split; [done|].
  rewrite round_decimal_ratio by done. change (10 ^ Z.max 0 0) with 1. change (10 ^ Z.max (- 0) 0) with 1.
  rewrite Z.mul_1_r. apply (round_ratio_exact neg _ _ (Zpos mm) ee); [done..|lia].
Qed.
End digits.

(** The digits [to_chars] prints: they exist, are few, and round to the value. *)
Lemma double_digits neg mm ee :
  let d := S754_finite neg mm ee in
  let num := Zpos mm * 2 ^ Z.max ee 0 in
  let den := 2 ^ Z.max (- ee) 0 in
  binary64 (Zpos mm) ee ->
  exists m0 q0 m q, shortest 17 1 d neg num den (magnitude 700 num den 0) = Some (m0, q0) /\ strip 20 m0 q0 = (m, q) /\
    0 < m < 10 ^ 18 /\ Z.abs q < 900 /\ round_decimal neg m q = Some d.
Proof.
  intros d num den Hv. pose proof Hv as (Hm & He & _).
  pose proof (num_pos mm ee) as Hn. pose proof (den_pos mm ee) as Hd. fold num in Hn. fold den in Hd.
  destruct (magnitude_spec 700 num den Hn Hd) as [Hk Hb].
  - apply (Z.lt_le_trans _ (2 ^ 53 * 2 ^ 971)).
    { subst num. apply (Z.lt_le_trans _ (2 ^ 53 * 2 ^ Z.max ee 0)).
      - apply Z.mul_lt_mono_pos_r; [apply Z.pow_pos_nonneg|]; lia.
      - apply Z.mul_le_mono_nonneg_l; [lia|apply Z.pow_le_mono_r; lia]. }
    transitivity (1 * 10 ^ (Z.of_nat 700 + 1)); [by vm_compute|]. apply Z.mul_le_mono_nonneg_r; [by vm_compute|lia].
  - transitivity (2 ^ 1074); [apply Z.pow_le_mono_r; lia|].
    transitivity (1 * 10 ^ Z.of_nat 700); [by vm_compute|]. apply Z.mul_le_mono_nonneg_r; [by vm_compute|lia].
  - destruct (shortest_total neg mm ee _ Hv Hk 17 1) as (m0 & q0 & n & E & Hn' & Eq & Hm0 & Hr); [lia..|].
    pose proof (strip_value 20 m0 q0 ltac:(lia)) as Hs. pose proof (round_decimal_strip neg 20 m0 q0 ltac:(lia)) as Hrs.
    destruct (strip 20 m0 q0) as [m q] eqn:Es. destruct Hs as (Hmp & Hq & Em). exists m0, q0, m, q.
    split; [done|]. split; [done|]. split; [|split; [lia|exact (eq_trans Hrs Hr)]].
    pose proof (Z.pow_le_mono_r 10 n 17 ltac:(lia) ltac:(lia)). pose proof (Z.pow_pos_nonneg 10 (q - q0) ltac:(lia) ltac:(lia)). nia.
Qed.

(** ** Texts *)

Lemma decimal_digits_val n : 0 <= n -> digits_val (decimal n) = n.
Proof. intros Hn. apply dec_val. split; [done|by apply decimal_fuel]. Qed.

Lemma dec_short fuel n j : 0 <= n < 10 ^ Z.of_nat (S j) -> (length (dec fuel n) <= S j)%nat.
Proof.
  revert n j. induction fuel as [|fuel IH]; intros n j Hn; cbn [dec]; [cbn; lia|]. destruct (Z.ltb_spec n 10); [cbn; lia|].
  destruct j as [|j]; [cbn in Hn; lia|]. rewrite Nat2Z.inj_succ, Z.pow_succ_r in Hn by lia.
  rewrite length_app. cbn [length]. specialize (IH (n / 10) j ltac:(dmlia)). lia.
Qed.

Lemma scientific_len ds x : ds <> [] -> len (scientific ds x) <= len ds + 7.
Proof.
  intros Hne. destruct ds as [|d ds]; [done|]. unfold scientific, len. cbn [length]. rewrite length_app.
  assert (forall n, length (dec 3 n) <= 3)%nat as Hd.
  { intros n. cbn [dec]. repeat case_match; cbn; lia. }
  specialize (Hd (Z.abs x)). destruct ds, (Z.abs x <? 10); cbn [length app] in *; lia.
Qed.

(** One tenth, the least and the greatest positive value, and a power of two. *)
Example to_chars_samples :
  to_chars_double (S754_finite false 7205759403792794 (-56)) = Some (str "0.1") /\
  to_chars_double (S754_finite true 1 (-1074)) = Some (str "-5e-324") /\
  to_chars_double (S754_finite false 9007199254740991 971) = Some (str "1.7976931348623157e+308") /\
  to_chars_double (S754_finite false 4503599627370496 8) = Some (str "1152921504606846976").
Proof. by vm_compute. Qed.
