(* ===== verification/JsonValue.v ===== *)
(** * JsonValue: the payload object model

    [rpc/include/rpc/json_value.h].  The tagged struct is an inductive type, one
    constructor per [Type], numbers split by [isInteger_]; the accessors' type
    assertions are pattern matches.  Objects are association lists in insertion
    order and may hold a key twice. *)
From Stdlib Require Import SpecFloat.
From S2P Require Import Prelude Charconv.

Local Unset Elimination Schemes.
Inductive JsonValue :=
| JNull
| JBool (b : bool)
| JInteger (z : Z)
| JNumber (d : double)
| JString (s : bytes)
| JArray (elements : list JsonValue)
| JObject (fields : list (bytes * JsonValue)).
Local Set Elimination Schemes.

Section induction.
Variable P : JsonValue -> Prop.
Hypothesis Hnull : P JNull.
Hypothesis Hbool : forall b, P (JBool b).
Hypothesis Hint : forall z, P (JInteger z).
Hypothesis Hnum : forall d, P (JNumber d).
Hypothesis Hstr : forall s, P (JString s).
Hypothesis Harr : forall l, Forall P l -> P (JArray l).
Hypothesis Hobj : forall l, Forall (fun kv => P kv.2) l -> P (JObject l).

(** Induction that reaches the values inside containers. *)
Fixpoint json_ind' (v : JsonValue) : P v :=
  match v with
  | JNull => Hnull
  | JBool b => Hbool b
  | JInteger z => Hint z
  | JNumber d => Hnum d
  | JString s => Hstr s
  | JArray l => Harr l ((fix go (l : list JsonValue) : Forall P l :=
      match l with [] => Forall_nil_2 _ | v :: l => Forall_cons_2 _ _ _ (json_ind' v) (go l) end) l)
  | JObject l => Hobj l ((fix go (l : list (bytes * JsonValue)) : Forall (fun kv => P kv.2) l :=
      match l with [] => Forall_nil_2 _ | kv :: l => Forall_cons_2 _ _ _ (json_ind' kv.2) (go l) end) l)
  end.
End induction.

(** [find]: the first entry with the key. *)
Fixpoint find (key : bytes) (fields : list (bytes * JsonValue)) : option JsonValue :=
  match fields with
  | [] => None
  | (k, v) :: fields => if bool_decide (k = key) then Some v else find key fields
  end.

(** [value[key] = x] on an object: [operator[]] gives a reference to the first
    entry with the key, after appending a null one when there is none. *)
Fixpoint assign_existing (key : bytes) (x : JsonValue) (fields : list (bytes * JsonValue)) : list (bytes * JsonValue) :=
  match fields with
  | [] => []
  | (k, v) :: fields => if bool_decide (k = key) then (k, x) :: fields else (k, v) :: assign_existing key x fields
  end.

Definition subscript (key : bytes) (fields : list (bytes * JsonValue)) : list (bytes * JsonValue) :=
  match find key fields with
  | Some _ => fields
  | None => fields ++ [(key, JNull)]
  end.

Definition assign (key : bytes) (x : JsonValue) (fields : list (bytes * JsonValue)) : list (bytes * JsonValue) :=
  assign_existing key x (subscript key fields).

(** [operator==]; doubles compare as IEEE numbers. *)
Fixpoint json_eqb (a b : JsonValue) : bool :=
  match a, b with
  | JNull, JNull => true
  | JBool a, JBool b => eqb a b
  | JInteger a, JInteger b => a =? b
  | JNumber a, JNumber b => SFeqb a b
  | JString a, JString b => bool_decide (a = b)
  | JArray a, JArray b =>
      (fix go (a b : list JsonValue) : bool :=
         match a, b with
         | [], [] => true
         | x :: a, y :: b => json_eqb x y && go a b
         | _, _ => false
         end) a b
  | JObject a, JObject b =>
      (fix go (a b : list (bytes * JsonValue)) : bool :=
         match a, b with
         | [], [] => true
         | (k, x) :: a, (k', y) :: b => bool_decide (k = k') && json_eqb x y && go a b
         | _, _ => false
         end) a b
  | _, _ => false
  end.

(** How deep containers nest. *)
Fixpoint nesting (v : JsonValue) : nat :=
  match v with
  | JArray l => S (max_list_with nesting l)
  | JObject l => S (max_list_with (fun kv => nesting kv.2) l)
  | _ => O
  end.

(** ** Object fields *)

Lemma find_assign_existing key key' x fields :
  is_Some (find key fields) ->
  find key' (assign_existing key x fields) = if bool_decide (key' = key) then Some x else find key' fields.
Proof.
  induction fields as [|[k v] fields IH]; cbn; [by intros [? ?]|]. destruct (decide (k = key)) as [->|Hk].
  - rewrite (bool_decide_true (key = key)) by done. intros _. cbn. by destruct (decide (key' = key)) as [->|];
      [rewrite !bool_decide_true|rewrite !bool_decide_false by congruence].
  - rewrite (bool_decide_false (k = key)) by done. intros H. cbn. rewrite IH by done.
    by repeat case_bool_decide; try congruence.
Qed.

Lemma find_app key fields fields' :
  find key (fields ++ fields') = match find key fields with Some v => Some v | None => find key fields' end.
Proof. induction fields as [|[k v] fields IH]; [done|]. cbn. by case_bool_decide. Qed.

Lemma assign_existing_keys key x fields : (assign_existing key x fields).*1 = fields.*1.
Proof. induction fields as [|[k v] fields IH]; [done|]. cbn. case_bool_decide; cbn; [done|]. by rewrite IH. Qed.

(** Assigning a field is a map update, and keeps the insertion order: a new key
    goes to the end. *)
Lemma assign_find key key' x fields :
  find key' (assign key x fields) = (if bool_decide (key' = key) then Some x else find key' fields) /\
  (assign key x fields).*1 = fields.*1 ++ (if find key fields is Some _ then [] else [key]).
Proof.
  unfold assign, subscript. destruct (find key fields) as [v|] eqn:E.
  - rewrite find_assign_existing, assign_existing_keys, app_nil_r by eauto. done.
  - rewrite find_assign_existing, find_app, assign_existing_keys, fmap_app.
    + split; [|done]. cbn. destruct (find key' fields) eqn:E'; repeat case_bool_decide; congruence.
    + rewrite find_app, E. cbn. rewrite bool_decide_true by done. eauto.
Qed.

(** ** Equality *)

(** No NaN anywhere inside. *)
Fixpoint nan_free (v : JsonValue) : bool :=
  match v with
  | JNumber S754_nan => false
  | JArray l => forallb nan_free l
  | JObject l => forallb (fun kv => nan_free kv.2) l
  | _ => true
  end.

Lemma SFeqb_refl d : d <> S754_nan -> SFeqb d d = true.
Proof.
  unfold SFeqb, SFcompare. destruct d as [s|s| |s m e]; try done; [by destruct s|].
  rewrite Z.compare_refl, Pos.compare_cont_refl. by destruct s.
Qed.

Lemma json_eqb_refl v : nan_free v = true -> json_eqb v v = true.
Proof.
  induction v as [|b|z|d|s|l IH|l IH] using json_ind'; cbn; intros H; try done.
  - by destruct b.
  - apply Z.eqb_refl.
  - apply SFeqb_refl. by intros ->.
  - by apply bool_decide_true.
  - induction IH as [|v l Hv _ IHl]; [done|]. cbn in H. apply andb_prop in H as [H1 H2]. by rewrite Hv, IHl.
  - induction IH as [|[k v] l Hv _ IHl]; [done|]. cbn in H. apply andb_prop in H as [H1 H2].
    cbn in Hv. by rewrite bool_decide_true, Hv, IHl.
Qed.
