(* ===== verification/JsonRep.v ===== *)
(** * JsonRep: the struct behind [JsonValue]

    [rpc/include/rpc/json_value.h] as it is laid out: one struct with a tag and
    a member for every type.  The factories, the accessors in debug builds
    (where the assertion aborts: [None]) and in release builds, the field and
    element accesses and [operator==] are translated here; the theorems relate
    them to the inductive type of [JsonValue.v], with which the serializers are
    verified. *)
From Stdlib Require Import SpecFloat.
From S2P Require Import Prelude Charconv JsonValue.

Inductive Type_ := kNull | kBool | kNumber | kString | kArray | kObject.

#[global] Instance Type_eq_dec : EqDecision Type_.
Proof. solve_decision. Defined.

Local Unset Elimination Schemes.
Inductive Rep := mkRep {
  type_ : Type_;
  bool_ : bool;
  integer_ : Z;
  number_ : double;
  isInteger_ : bool;
  string_ : bytes;
  array_ : list Rep;
  object_ : list (bytes * Rep)
}.
Local Set Elimination Schemes.

(** ** Construction *)

Definition zero : double := S754_zero false.

(** The member initialisers. *)
Definition Rep_null : Rep := mkRep kNull false 0 zero false [] [] [].
Definition Rep_string (value : bytes) : Rep := mkRep kString false 0 zero false value [] [].
(** From [const char *]; [None] is [nullptr]. *)
Definition Rep_cstr (value : option bytes) : Rep :=
  Rep_string (match value with Some s => s | None => [] end).
Definition makeBool (value : bool) : Rep := mkRep kBool value 0 zero false [] [] [].
Definition makeInteger (value : Z) : Rep := mkRep kNumber false value zero true [] [] [].
Definition makeNumber (value : double) : Rep := mkRep kNumber false 0 value false [] [] [].
Definition makeArray : Rep := mkRep kArray false 0 zero false [] [] [].
Definition makeObject : Rep := mkRep kObject false 0 zero false [] [] [].

(** ** Access *)

Definition isA (t : Type_) (v : Rep) : bool := bool_decide (type_ v = t).

(** [assert(cond); return x;]: [checked] is a debug build. *)
Definition guarded {A} (checked cond : bool) (x : A) : option A :=
  if checked && negb cond then None else Some x.

Definition asBool (checked : bool) (v : Rep) : option bool := guarded checked (isA kBool v) (bool_ v).
Definition asInt (checked : bool) (v : Rep) : option Z :=
  guarded checked (isA kNumber v && isInteger_ v) (integer_ v).
Definition asNumber (to_double : Z -> double) (checked : bool) (v : Rep) : option double :=
  guarded checked (isA kNumber v) (if isInteger_ v then to_double (integer_ v) else number_ v).
Definition asString (checked : bool) (v : Rep) : option bytes := guarded checked (isA kString v) (string_ v).
Definition asArray (checked : bool) (v : Rep) : option (list Rep) := guarded checked (isA kArray v) (array_ v).
Definition asObject (checked : bool) (v : Rep) : option (list (bytes * Rep)) :=
  guarded checked (isA kObject v) (object_ v).

(** The scan of [find]: the position of the entry the pointer refers to. *)
Fixpoint find_entry (key : bytes) (l : list (bytes * Rep)) : option nat :=
  match l with
  | [] => None
  | (k, _) :: l => if bool_decide (k = key) then Some O else S <$> find_entry key l
  end.
Definition find_rep (v : Rep) (key : bytes) : option (option nat) :=
  if isA kObject v then Some (find_entry key (object_ v)) else None.

Definition set_array (l : list Rep) (v : Rep) : Rep :=
  mkRep (type_ v) (bool_ v) (integer_ v) (number_ v) (isInteger_ v) (string_ v) l (object_ v).
Definition set_object (l : list (bytes * Rep)) (v : Rep) : Rep :=
  mkRep (type_ v) (bool_ v) (integer_ v) (number_ v) (isInteger_ v) (string_ v) (array_ v) l.

(** [operator[](const std::string &)]: the object, and the entry referred to. *)
Definition subscript_key (v : Rep) (key : bytes) : option (Rep * nat) :=
  r ← find_rep v key;
  match r with
  | Some i => Some (v, i)
  | None => Some (set_object (object_ v ++ [(key, Rep_null)]) v, length (object_ v))
  end.

(** [operator[](size_t)]; [None] is also an index past the end. *)
Definition subscript_index (v : Rep) (i : nat) : option Rep :=
  if isA kArray v then array_ v !! i else None.

(** [v[key] = x], [v[i] = x] and [v.asArray().push_back(x)]. *)
Definition assign_key (v : Rep) (key : bytes) (x : Rep) : option Rep :=
  '(v, i) ← subscript_key v key;
  Some (set_object (alter (fun kv => (kv.1, x)) i (object_ v)) v).
Definition assign_index (v : Rep) (i : nat) (x : Rep) : option Rep :=
  _ ← subscript_index v i; Some (set_array (<[i := x]> (array_ v)) v).
Definition push_back (v x : Rep) : option Rep :=
  l ← asArray true v; Some (set_array (l ++ [x]) v).

Fixpoint rep_eqb (a b : Rep) : bool :=
  if negb (bool_decide (type_ a = type_ b)) then false else
  match type_ a with
  | kNull => true
  | kBool => eqb (bool_ a) (bool_ b)
  | kNumber =>
      if negb (eqb (isInteger_ a) (isInteger_ b)) then false
      else if isInteger_ a then integer_ a =? integer_ b else SFeqb (number_ a) (number_ b)
  | kString => bool_decide (string_ a = string_ b)
  | kArray =>
      (fix go (a b : list Rep) : bool :=
         match a, b with
         | [], [] => true
         | x :: a, y :: b => rep_eqb x y && go a b
         | _, _ => false
         end) (array_ a) (array_ b)
  | kObject =>
      (fix go (a b : list (bytes * Rep)) : bool :=
         match a, b with
         | [], [] => true
         | (k, x) :: a, (k', y) :: b => bool_decide (k = k') && rep_eqb x y && go a b
         | _, _ => false
         end) (object_ a) (object_ b)
  end.

(** ** What a struct stands for *)

Fixpoint denote (v : Rep) : JsonValue :=
  match type_ v with
  | kNull => JNull
  | kBool => JBool (bool_ v)
  | kNumber => if isInteger_ v then JInteger (integer_ v) else JNumber (number_ v)
  | kString => JString (string_ v)
  | kArray => JArray ((fix go (l : list Rep) : list JsonValue :=
      match l with [] => [] | x :: l => denote x :: go l end) (array_ v))
  | kObject => JObject ((fix go (l : list (bytes * Rep)) : list (bytes * JsonValue) :=
      match l with [] => [] | (k, x) :: l => (k, denote x) :: go l end) (object_ v))
  end.

Section rep_induction.
Variable P : Rep -> Prop.
Hypothesis H : forall t b z d i s l o, Forall P l -> Forall (fun kv => P kv.2) o -> P (mkRep t b z d i s l o).

Fixpoint rep_ind' (v : Rep) : P v :=
  match v with
  | mkRep t b z d i s l o => H t b z d i s l o
      ((fix go (l : list Rep) : Forall P l :=
          match l with [] => Forall_nil_2 _ | x :: l => Forall_cons_2 _ _ _ (rep_ind' x) (go l) end) l)
      ((fix go (l : list (bytes * Rep)) : Forall (fun kv => P kv.2) l :=
          match l with [] => Forall_nil_2 _ | kv :: l => Forall_cons_2 _ _ _ (rep_ind' kv.2) (go l) end) o)
  end.
End rep_induction.

Definition dentry (kv : bytes * Rep) : bytes * JsonValue := (kv.1, denote kv.2).

Lemma denote_array v : type_ v = kArray -> denote v = JArray (denote <$> array_ v).
Proof. destruct v. cbn. by intros ->. Qed.

Lemma denote_object v : type_ v = kObject -> denote v = JObject (dentry <$> object_ v).
Proof.
  destruct v as [t b z d i s l o]. cbn. intros ->. f_equal. induction o as [|[k x] o IH]; [done|]. cbn. by f_equal.
Qed.

(** [operator==] compares what the structs stand for. *)
Lemma rep_eqb_denote a : forall b, rep_eqb a b = json_eqb (denote a) (denote b).
Proof.
  induction a as [t b z d i s l o Hl Ho] using rep_ind'. intros [t' b' z' d' i' s' l' o'].
  destruct t, t'; try done; cbn.
  all: try (by destruct i'). all: try (by destruct i).
  - by destruct i, i'.
  - change (bool_decide (kArray = kArray)) with true. cbn [negb].
    revert l'. induction Hl as [|x l Hx _ IH]; intros [|y l']; try done. by rewrite Hx, IH.
  - change (bool_decide (kObject = kObject)) with true. cbn [negb].
    revert o'. induction Ho as [|[k x] o Hx _ IH]; intros [|[k' y] o']; try done. cbn in Hx. by rewrite Hx, IH.
Qed.

Lemma find_entry_denote key l :
  find key (dentry <$> l) = match find_entry key l with Some i => denote ∘ snd <$> l !! i | None => None end.
Proof.
  induction l as [|[k x] l IH]; [done|]. cbn. case_bool_decide; [done|]. rewrite IH. by destruct (find_entry key l).
Qed.

Lemma find_entry_lt key l i : find_entry key l = Some i -> exists x, l !! i = Some (key, x).
Proof.
  revert i. induction l as [|[k x] l IH]; intros i; cbn; [done|]. case_bool_decide; [intros [= <-]; subst; eauto|].
  intros (j & Hj & ->)%fmap_Some. by apply IH.
Qed.

Lemma assign_existing_denote key x l i :
  find_entry key l = Some i ->
  dentry <$> alter (fun kv => (kv.1, x)) i l = assign_existing key (denote x) (dentry <$> l).
Proof.
  revert i. induction l as [|[k y] l IH]; intros i; cbn; [done|]. case_bool_decide; [by intros [= <-]|].
  intros (j & Hj & ->)%fmap_Some. cbn. f_equal. by apply IH.
Qed.

Lemma find_entry_app key l l' :
  find_entry key l = None -> find_entry key (l ++ l') = Nat.add (length l) <$> find_entry key l'.
Proof.
  induction l as [|[k x] l IH]; cbn; [by destruct (find_entry key l')|]. case_bool_decide; [done|].
  intros Hn%fmap_None. rewrite IH by done. by destruct (find_entry key l').
Qed.

(** [v[key] = x] assigns the field of the object it stands for. *)
Lemma assign_key_denote v key x :
  type_ v = kObject ->
  exists v', assign_key v key x = Some v' /\ type_ v' = kObject /\
    denote v' = JObject (assign key (denote x) (dentry <$> object_ v)).
Proof.
  intros Ht. unfold assign_key, subscript_key, find_rep, isA. rewrite Ht. cbn.
  unfold assign, subscript. rewrite find_entry_denote.
  destruct (find_entry key (object_ v)) as [i|] eqn:E; cbn.
  - destruct (find_entry_lt _ _ _ E) as [y Hy]. rewrite Hy. cbn. eexists. split; [done|]. split; [done|].
    rewrite denote_object by done. cbn. f_equal. by apply assign_existing_denote.
  - eexists. split; [done|]. split; [done|]. rewrite denote_object by done. cbn. f_equal.
    rewrite (assign_existing_denote key); [by rewrite fmap_app|].
    rewrite find_entry_app by done. cbn. rewrite bool_decide_true by done. cbn. f_equal. lia.
Qed.

(** [v[key]] refers to the entry of the key, the last one if it was missing. *)
Lemma subscript_key_denote v key :
  type_ v = kObject ->
  exists v' i y, subscript_key v key = Some (v', i) /\ object_ v' !! i = Some (key, y) /\
    match find key (dentry <$> object_ v) with
    | Some z => v' = v /\ denote y = z
    | None => y = Rep_null /\ denote v' = JObject ((dentry <$> object_ v) ++ [(key, JNull)])
    end.
Proof.
  intros Ht. unfold subscript_key, find_rep, isA. rewrite Ht, find_entry_denote. cbn.
  destruct (find_entry key (object_ v)) as [i|] eqn:E.
  - destruct (find_entry_lt _ _ _ E) as [y Hy]. exists v, i, y. by rewrite Hy.
  - eexists _, _, Rep_null. split; [done|]. cbn [object_ set_object].
    split; [by apply list_lookup_middle|]. split; [done|].
    rewrite denote_object by done. cbn [object_ set_object]. by rewrite fmap_app.
Qed.

(** ** Well-formed structs *)

(** Only the members of the tag are set, all the way down. *)
Local Unset Elimination Schemes.
Inductive tidy : Rep -> Prop :=
| tidy_null : tidy Rep_null
| tidy_bool b : tidy (makeBool b)
| tidy_integer z : int64_min <= z <= int64_max -> tidy (makeInteger z)
| tidy_number d : tidy (makeNumber d)
| tidy_string s : tidy (Rep_string s)
| tidy_array l : Forall tidy l -> tidy (set_array l makeArray)
| tidy_object o : Forall (fun kv => tidy kv.2) o -> tidy (set_object o makeObject).
Local Set Elimination Schemes.

(** The values a program can build through the public interface of a debug build,
    where every access is to the right type.  [asArray()] and [asObject()] return
    references, through which the vector can be given any elements that are
    themselves built, duplicate keys included; [json_parser.cpp] appends its fields
    in this way. *)
Inductive built : Rep -> Prop :=
| built_null : built Rep_null
| built_cstr s : built (Rep_cstr s)
| built_string s : built (Rep_string s)
| built_bool b : built (makeBool b)
| built_integer z : int64_min <= z <= int64_max -> built (makeInteger z)
| built_number d : built (makeNumber d)
| built_array : built makeArray
| built_object : built makeObject
| built_assign_key v key x v' : built v -> built x -> assign_key v key x = Some v' -> built v'
| built_assign_index v i x v' : built v -> built x -> assign_index v i x = Some v' -> built v'
| built_push v x v' : built v -> built x -> push_back v x = Some v' -> built v'
| built_through_array v l l' :
    built v -> asArray true v = Some l -> (forall i x, l' !! i = Some x -> built x) -> built (set_array l' v)
| built_through_object v o o' :
    built v -> asObject true v = Some o -> (forall i key x, o' !! i = Some (key, x) -> built x) -> built (set_object o' v)
| built_element v i x : built v -> subscript_index v i = Some x -> built x
| built_field v i x key : built v -> type_ v = kObject -> object_ v !! i = Some (key, x) -> built x.

Lemma tidy_as_array v : tidy v -> type_ v = kArray -> exists l, v = set_array l makeArray /\ Forall tidy l.
Proof. intros [] Ht; try done. eauto. Qed.
Lemma tidy_as_object v : tidy v -> type_ v = kObject -> exists o, v = set_object o makeObject /\ Forall (fun kv => tidy kv.2) o.
Proof. intros [] Ht; try done. eauto. Qed.

Lemma isA_true t v : isA t v = true <-> type_ v = t.
Proof. apply bool_decide_eq_true. Qed.

Lemma built_tidy v : built v -> tidy v.
Proof.
  induction 1 as [|s|s|b|z Hz|d| | |v key x v' _ Hv _ Hx E|v i x v' _ Hv _ Hx E|v x v' _ Hv _ Hx E|v l l' _ Hv E _ Hl'|v o o' _ Hv E _ Ho'|v i x _ Hv E|v i x key _ Hv Ht E].
  1-8: try (constructor; done).
  - unfold assign_key, subscript_key, find_rep in E. destruct (isA kObject v) eqn:Ht; [|done]. apply isA_true in Ht.
    destruct (tidy_as_object v Hv Ht) as (o & -> & Ho). cbn in E.
    assert (Forall (fun kv => tidy kv.2) (o ++ [(key, Rep_null)])) as Ho'.
    { apply Forall_app. split; [done|]. constructor; [constructor|done]. }
    destruct (find_entry key o) as [i|]; injection E as <-; cbn; apply (tidy_object _), Forall_alter; try done.
  - unfold assign_index, subscript_index in E. destruct (isA kArray v) eqn:Ht; [|done]. apply isA_true in Ht.
    destruct (tidy_as_array v Hv Ht) as (l & -> & Hl). cbn in E. destruct (l !! i); [|done]. injection E as <-.
    apply (tidy_array _). by apply Forall_insert.
  - unfold push_back, asArray, guarded in E. destruct (isA kArray v) eqn:Ht; [|done]. apply isA_true in Ht.
    destruct (tidy_as_array v Hv Ht) as (l & -> & Hl). injection E as <-. apply (tidy_array _).
    apply Forall_app. split; [done|by constructor].
  - unfold asArray, guarded in E. destruct (isA kArray v) eqn:Ht; [|done]. apply isA_true in Ht.
    destruct (tidy_as_array v Hv Ht) as (l0 & -> & _). apply (tidy_array l'), Forall_lookup. exact Hl'.
  - unfold asObject, guarded in E. destruct (isA kObject v) eqn:Ht; [|done]. apply isA_true in Ht.
    destruct (tidy_as_object v Hv Ht) as (o0 & -> & _). apply (tidy_object o'), Forall_lookup. intros i [key x]. exact (Ho' i key x).
  - unfold subscript_index in E. destruct (isA kArray v) eqn:Ht; [|done]. apply isA_true in Ht.
    destruct (tidy_as_array v Hv Ht) as (l & -> & Hl). exact (Forall_lookup_1 _ _ _ _ Hl E).
  - destruct (tidy_as_object v Hv Ht) as (o & -> & Ho). exact (Forall_lookup_1 _ _ _ _ Ho E).
Qed.

(** C25: The tagged struct is well typed: every value a program can build through
    the public interface sets only the members its tag selects, so each
    accessor returns the value of the type in a debug build, aborts exactly on
    the other types, and in a release build returns that member's default for
    them, as the header says. *)
Theorem json_struct_typed v to_double :
  built v ->
  tidy v /\
  asBool true v = match denote v with JBool b => Some b | _ => None end /\
  asBool false v = Some (match denote v with JBool b => b | _ => false end) /\
  asInt true v = match denote v with JInteger z => Some z | _ => None end /\
  asInt false v = Some (match denote v with JInteger z => z | _ => 0 end) /\
  asNumber to_double true v =
    match denote v with JInteger z => Some (to_double z) | JNumber d => Some d | _ => None end /\
  asNumber to_double false v =
    Some (match denote v with JInteger z => to_double z | JNumber d => d | _ => zero end) /\
  asString true v = match denote v with JString s => Some s | _ => None end /\
  asString false v = Some (match denote v with JString s => s | _ => [] end) /\
  asArray true v = match denote v with JArray _ => Some (array_ v) | _ => None end /\
  asArray false v = Some (if isA kArray v then array_ v else []) /\
  asObject true v = match denote v with JObject _ => Some (object_ v) | _ => None end /\
  asObject false v = Some (if isA kObject v then object_ v else []) /\
  (forall l, denote v = JArray l -> denote <$> array_ v = l) /\
  (forall o, denote v = JObject o -> dentry <$> object_ v = o).
Proof.
  intros Hb%built_tidy. split; [done|]. destruct Hb; try (split_and!; done).
  - rewrite denote_array by done. split_and!; try done. by intros l' [= <-].
  - rewrite denote_object by done. split_and!; try done. by intros o' [= <-].
Qed.

Lemma json_struct_typed_witness : asInt false (makeBool true) = Some 0 /\ asInt true (makeBool true) = None.
Proof.
  destruct (json_struct_typed (makeBool true) (fun _ => zero) (built_bool true)) as (_ & _ & _ & H1 & H2 & _).
  split; [exact H2|exact H1].
Defined.

(** C24: The struct implements the abstract value: comparing, looking a field up,
    subscripting by key (which refers to the first entry with the key and leaves the
    object as it was, or appends an entry with the value null and refers to that),
    assigning a field, indexing and assigning an element and appending one act on
    the value the struct stands for, duplicate keys included, and never fail an
    assertion on the right type. *)
Theorem json_struct_refines a b key x :
  rep_eqb a b = json_eqb (denote a) (denote b) /\
  (type_ a = kObject -> exists fields, denote a = JObject fields /\
     (exists r, find_rep a key = Some r /\
        find key fields = match r with Some i => denote ∘ snd <$> object_ a !! i | None => None end) /\
     (exists a' i y, subscript_key a key = Some (a', i) /\ object_ a' !! i = Some (key, y) /\
        match find key fields with
        | Some z => a' = a /\ denote y = z
        | None => y = Rep_null /\ denote a' = JObject (fields ++ [(key, JNull)])
        end) /\
     exists a', assign_key a key x = Some a' /\ denote a' = JObject (assign key (denote x) fields)) /\
  (type_ a = kArray -> exists elements, denote a = JArray elements /\
     (forall i, denote <$> subscript_index a i = elements !! i) /\
     (forall i y, elements !! i = Some y ->
        exists a', assign_index a i x = Some a' /\ denote a' = JArray (<[i := denote x]> elements)) /\
     exists a', push_back a x = Some a' /\ denote a' = JArray (elements ++ [denote x])).
Proof.
  split; [apply rep_eqb_denote|]. split; intros Ht.
  - exists (dentry <$> object_ a). split; [by apply denote_object|]. split; [|split; [by apply subscript_key_denote|]].
    + exists (find_entry key (object_ a)). unfold find_rep, isA. rewrite Ht. split; [done|]. apply find_entry_denote.
    + destruct (assign_key_denote a key x Ht) as (a' & ? & _ & ?). eauto.
  - exists (denote <$> array_ a). split; [by apply denote_array|].
    unfold assign_index, push_back, asArray, guarded, subscript_index, isA. rewrite Ht. cbn. split_and!.
    + intros i. by rewrite list_lookup_fmap.
    + intros i y Hy. rewrite list_lookup_fmap in Hy. destruct (array_ a !! i); [|done]. eexists. split; [done|].
      rewrite denote_array by done. cbn. by rewrite list_fmap_insert.
    + eexists. split; [done|]. rewrite denote_array by done. cbn. by rewrite fmap_app.
Qed.

Lemma json_struct_refines_witness :
  exists a', assign_key makeObject (str "k") (makeBool true) = Some a' /\ denote a' = JObject [(str "k", JBool true)].
Proof.
  destruct (json_struct_refines makeObject Rep_null (str "k") (makeBool true)) as (_ & Ho & _).
  destruct (Ho eq_refl) as (fields & E & _ & _ & a' & Ea & Ed). exists a'. split; [exact Ea|].
  rewrite Ed. cbn in E. injection E as <-. reflexivity.
Defined.
