(* ===== verification/JsonText.v ===== *)
(** * JsonText: the JSON grammar

    What a JSON text (RFC 8259) denotes: numbers as literals with their decimal
    value, strings with escapes, values by recursion on the value.  The tables of
    escapes, hexadecimal digits and white space are those of the RFC, not of the
    parser; shared with the code are the UTF-8 validator and the conversion of
    decimal digits to a [double].  Three number conversions the code leaves to the
    standard library are shown to agree with the literals' values. *)
From Stdlib Require Import SpecFloat.
From S2P Require Import Prelude Charconv Utf8 JsonValue.

(** ** Numbers *)

Record number_lit := mkLit {
  n_neg : bool;
  n_int : bytes;
  n_frac : bytes;                          (* digits after the point, if any *)
  n_exp : option (byte * bytes * bytes)    (* [e] or [E], sign, digits *)
}.

Definition frac_text (ds : bytes) : bytes := match ds with [] => [] | _ => "."%byte :: ds end.
Definition exp_text (x : option (byte * bytes * bytes)) : bytes :=
  match x with None => [] | Some (e, sg, ds) => e :: sg ++ ds end.

Definition number_text (l : number_lit) : bytes :=
  (if n_neg l then ["-"%byte] else []) ++ n_int l ++ frac_text (n_frac l) ++ exp_text (n_exp l).

(** No leading zeros. *)
Definition int_ok (ds : bytes) : Prop :=
  ds = ["0"%byte] \/ exists d ds', ds = d :: ds' /\ 49 <= b2z d <= 57 /\ all_digits ds'.

Definition exp_ok (x : option (byte * bytes * bytes)) : Prop :=
  match x with
  | None => True
  | Some (e, sg, ds) => (e = "e"%byte \/ e = "E"%byte) /\ (sg = [] \/ sg = ["+"%byte] \/ sg = ["-"%byte]) /\
                        ds <> [] /\ all_digits ds
  end.

Definition number_ok (l : number_lit) : Prop :=
  int_ok (n_int l) /\ all_digits (n_frac l) /\ exp_ok (n_exp l).

Definition exp_value (x : option (byte * bytes * bytes)) : Z :=
  match x with
  | None => 0
  | Some (_, sg, ds) => if bool_decide (sg = ["-"%byte]) then - digits_val ds else digits_val ds
  end.

Definition floating (l : number_lit) : bool :=
  negb (bool_decide (n_frac l = []) && bool_decide (n_exp l = None)).

Definition int_value (l : number_lit) : Z :=
  if n_neg l then - digits_val (n_int l) else digits_val (n_int l).

Definition double_value (l : number_lit) : option double :=
  decimal_to_double (n_neg l) (n_int l ++ n_frac l) (exp_value (n_exp l) - len (n_frac l)).

(** An integer that fits stays one; anything else is the nearest double. *)
Definition number_denotes (l : number_lit) : option JsonValue :=
  if negb (floating l) && ((int64_min <=? int_value l) && (int_value l <=? int64_max))
  then Some (JInteger (int_value l))
  else JNumber <$> double_value l.

Definition jnumber (v : JsonValue) (s : bytes) : Prop :=
  exists l, number_ok l /\ s = number_text l /\ number_denotes l = Some v.

(** ** Strings *)

(** The value of a hexadecimal digit. *)
Definition hex_value (c : byte) (v : Z) : Prop :=
  0 <= v /\ (str "0123456789abcdef" !! Z.to_nat v = Some c \/ str "0123456789ABCDEF" !! Z.to_nat v = Some c).

(** Four hexadecimal digits. *)
Definition hex4 (h : bytes) (cp : Z) : Prop :=
  exists h1 h2 h3 h4 v1 v2 v3 v4, h = [h1; h2; h3; h4] /\
    hex_value h1 v1 /\ hex_value h2 v2 /\ hex_value h3 v3 /\ hex_value h4 v4 /\
    cp = v1 * 4096 + v2 * 256 + v3 * 16 + v4.

(** The escapes of two characters: the letter and what it stands for. *)
Definition escapes : list (byte * byte) :=
  [(x22, x22); ("\"%byte, "\"%byte); ("/"%byte, "/"%byte); ("b"%byte, x08); ("f"%byte, x0c); ("n"%byte, x0a);
   ("r"%byte, x0d); ("t"%byte, x09)].

Definition plain (c : byte) : Prop := 0x20 <= b2z c /\ c <> x22 /\ c <> "\"%byte.

(** The characters between the quotation marks and the text they denote. *)
Inductive jchars : bytes -> bytes -> Prop :=
| chars_nil : jchars [] []
| chars_plain c s t : plain c -> jchars s t -> jchars (c :: s) (c :: t)
| chars_escape e c s t : (e, c) ∈ escapes -> jchars s t -> jchars ("\"%byte :: e :: s) (c :: t)
| chars_unicode h cp s t : hex4 h cp -> ~ 0xD800 <= cp <= 0xDFFF -> jchars s t ->
    jchars ("\"%byte :: "u"%byte :: h ++ s) (utf8 cp ++ t)
| chars_pair h hi l lo s t : hex4 h hi -> hex4 l lo -> 0xD800 <= hi <= 0xDBFF -> 0xDC00 <= lo <= 0xDFFF -> jchars s t ->
    jchars ("\"%byte :: "u"%byte :: h ++ "\"%byte :: "u"%byte :: l ++ s)
           (utf8 (0x10000 + (hi - 0xD800) * 1024 + (lo - 0xDC00)) ++ t).

Definition jstring (t s : bytes) : Prop :=
  exists body, s = x22 :: body ++ [x22] /\ jchars body t /\ isValidUtf8 t = true.

(** ** Values *)

Definition is_ws (c : byte) : bool :=
  bool_decide (c ∈ [" "%byte; x09; x0a; x0d]).

Definition ws (s : bytes) : Prop := Forall (fun c => is_ws c = true) s.

(** Items with white space around them, separated by commas. *)
Definition jlist {A} (R : A -> bytes -> Prop) : list A -> bytes -> Prop :=
  fix go (l : list A) (s : bytes) : Prop :=
    match l with
    | [] => False
    | v :: l => exists w1 t w2, ws w1 /\ R v t /\ ws w2 /\
        match l with
        | [] => s = w1 ++ t ++ w2
        | _ => exists rest, s = w1 ++ t ++ w2 ++ ","%byte :: rest /\ go l rest
        end
    end.

(** Empty containers hold white space only. *)
Definition jbody {A} (R : A -> bytes -> Prop) (l : list A) (s : bytes) : Prop :=
  match l with [] => ws s | _ => jlist R l s end.

Definition jmember (R : JsonValue -> bytes -> Prop) (kv : bytes * JsonValue) (s : bytes) : Prop :=
  exists k w1 w2 t, jstring kv.1 k /\ ws w1 /\ ws w2 /\ R kv.2 t /\ s = k ++ w1 ++ ":"%byte :: w2 ++ t.

Fixpoint jvalue (v : JsonValue) (s : bytes) : Prop :=
  match v with
  | JNull => s = str "null"
  | JBool b => s = str (if b then "true" else "false")
  | JInteger _ | JNumber _ => jnumber v s
  | JString t => jstring t s
  | JArray l => exists body, s = "["%byte :: body ++ ["]"%byte] /\ jbody jvalue l body
  | JObject l => exists body, s = "{"%byte :: body ++ ["}"%byte] /\ jbody (jmember jvalue) l body
  end.

(** A JSON text. *)
Definition jtext (v : JsonValue) (s : bytes) : Prop :=
  exists w1 t w2, s = w1 ++ t ++ w2 /\ ws w1 /\ jvalue v t /\ ws w2.

(** ** Literals and the standard conversions *)

Lemma int_ok_cons ds : int_ok ds -> exists d ds', ds = d :: ds' /\ 48 <= b2z d <= 57 /\ all_digits ds.
Proof.
  intros [->|(d & ds' & -> & Hd & Hds)].
  - exists "0"%byte, []. split; [done|]. split; [by vm_compute|]. by apply Forall_singleton.
  - exists d, ds'. split; [done|]. split; [lia|]. constructor; [|done]. apply isDigit_spec. lia.
Qed.

Lemma no_digit_frac fr x : exp_ok x -> no_digit (frac_text fr ++ exp_text x).
Proof.
  destruct fr; [|done]. destruct x as [[[e sg] ds]|]; [|done]. by intros [[-> | ->] _].
Qed.

Lemma no_digit_exp x : exp_ok x -> no_digit (exp_text x).
Proof. exact (no_digit_frac [] x). Qed.

Lemma scan_fraction_lit fr x :
  all_digits fr -> exp_ok x -> scan_fraction (frac_text fr ++ exp_text x) = (fr, exp_text x).
Proof.
  intros Hf Hx. destruct fr as [|d fr].
  - destruct x as [[[e sg] ds]|]; [|done]. by destruct Hx as [[-> | ->] _].
  - unfold scan_fraction. cbn [frac_text app]. rewrite bool_decide_true by done.
    apply (scan_digits_app (d :: fr)); [done|by apply no_digit_exp].
Qed.

Lemma scan_exponent_lit x : exp_ok x -> scan_exponent (exp_text x) = (exp_value x, []).
Proof.
  destruct x as [[[e sg] ds]|]; [|done]. intros (He & Hsg & Hne & Hds). cbn [exp_text]. unfold scan_exponent.
  assert (bool_decide (e = "e"%byte) || bool_decide (e = "E"%byte) = true) as -> by (destruct He as [-> | ->]; done).
  pose proof (scan_digits_app ds [] Hds I) as E. rewrite app_nil_r in E. destruct ds as [|d ds]; [done|].
  assert (d <> "-"%byte /\ d <> "+"%byte) as [? ?].
  { apply Forall_inv, isDigit_spec in Hds. assert (b2z "-"%byte = 45) by done. assert (b2z "+"%byte = 43) by done.
    split; intros ->; lia. }
  destruct Hsg as [-> |[-> | ->]]; cbn [app exp_value].
  - rewrite (bool_decide_false (d = _)), (bool_decide_false (d = _)), E by done. done.
  - rewrite (bool_decide_false ("+"%byte = "-"%byte)), (bool_decide_true ("+"%byte = "+"%byte)), E by done. done.
  - rewrite (bool_decide_true ("-"%byte = "-"%byte)), E by done. done.
Qed.

Lemma minus_sign_lit neg ds rest :
  int_ok ds -> minus_sign ((if neg : bool then ["-"%byte] else []) ++ ds ++ rest) = (neg, ds ++ rest).
Proof.
  intros Hi. destruct (int_ok_cons ds Hi) as (d & ds' & -> & Hd & _).
  destruct neg; cbn [app]; [unfold minus_sign; by rewrite bool_decide_true|by apply minus_sign_digit].
Qed.

Lemma from_chars_double_lit l :
  number_ok l ->
  from_chars_double (number_text l) =
    match double_value l with Some d => Conv d [] | None => ResultOutOfRange [] end.
Proof.
  intros (Hi & Hf & Hx). unfold from_chars_double, number_text. rewrite minus_sign_lit by done.
  destruct (int_ok_cons _ Hi) as (d & ds & E & _ & Hd).
  rewrite scan_digits_app by (done || by apply no_digit_frac). rewrite scan_fraction_lit, scan_exponent_lit by done.
  unfold double_value. rewrite E. done.
Qed.

Lemma from_chars_i64_lit l :
  number_ok l -> floating l = false ->
  from_chars_i64 (number_text l) =
    if (int64_min <=? int_value l) && (int_value l <=? int64_max) then Conv (int_value l) [] else ResultOutOfRange [].
Proof.
  intros (Hi & _ & _) Hfl. unfold floating in Hfl. apply negb_false_iff, andb_prop in Hfl as [Hf Hx].
  apply bool_decide_eq_true in Hf, Hx. unfold from_chars_i64, number_text. rewrite Hf, Hx. cbn [frac_text exp_text app].
  rewrite minus_sign_lit by done. destruct (int_ok_cons _ Hi) as (d & ds & E & _ & Hd).
  rewrite scan_digits_app by done. unfold int_value. rewrite E. done.
Qed.

(** A zero after the point does not change the value. *)
Lemma double_value_point_zero neg ds :
  all_digits ds -> double_value (mkLit neg ds ["0"%byte] None) = double_value (mkLit neg ds [] None).
Proof.
  intros Hd. unfold double_value, decimal_to_double. cbn [n_neg n_int n_frac n_exp exp_value]. rewrite app_nil_r.
  assert (digits_val (ds ++ ["0"%byte]) = digits_val ds * 10) as ->.
  { pose proof (digits_val_snoc ds 0 ltac:(lia)) as E. change (digit 0) with "0"%byte in E. lia. }
  change (len ["0"%byte]) with 1. change (len (@nil byte)) with 0. destruct (Z.eqb_spec (digits_val ds) 0) as [->|Hz]; [done|].
  destruct (Z.eqb_spec (digits_val ds * 10) 0); [lia|].
  replace (length (ds ++ ["0"%byte])) with (S (length ds)) by (rewrite length_app; cbn; lia). cbn [strip].
  rewrite Z.mod_mul, Z.div_mul by lia. done.
Qed.

(** ** White space *)

Lemma ws_nil : ws [].
Proof. constructor. Qed.

#[export] Hint Resolve ws_nil : core.

(** What may follow a value inside a text. *)
Definition follow (s : bytes) : Prop :=
  match s with
  | [] => True
  | c :: _ => is_ws c = true \/ c = ","%byte \/ c = "]"%byte \/ c = "}"%byte
  end.

Lemma follow_ws w c s : ws w -> (c = ","%byte \/ c = "]"%byte \/ c = "}"%byte) -> follow (w ++ c :: s).
Proof. intros Hw Hc. destruct Hw as [|b w Hb _]; cbn; tauto. Qed.

Lemma follow_ws_end w : ws w -> follow w.
Proof. intros Hw. destruct Hw as [|b w Hb _]; cbn; tauto. Qed.

Lemma is_ws_cases c : is_ws c = true -> c = " "%byte \/ c = x09 \/ c = x0a \/ c = x0d.
Proof. unfold is_ws. rewrite bool_decide_eq_true. set_solver. Qed.

(** The first character of a value is none of the separators. *)
Definition value_head (s : bytes) : Prop :=
  match s with [] => False | c :: _ => is_ws c = false /\ c <> "]"%byte /\ c <> "}"%byte end.

(** ** Depth *)

(** Entering the containers of [v] from [depth] stays within [maxDepth]. *)
Definition fits (depth maxDepth : Z) (v : JsonValue) : Prop :=
  nesting v = O \/ depth + Z.of_nat (nesting v) <= maxDepth.

Lemma fits_max {A} (f : A -> JsonValue) depth maxDepth l :
  depth < maxDepth -> Forall (fun x => fits (depth + 1) maxDepth (f x)) l <->
  depth + Z.of_nat (S (max_list_with (fun x => nesting (f x)) l)) <= maxDepth.
Proof.
  intros Hd. induction l as [|x l IH]; cbn [max_list_with]; [split; [lia|constructor]|].
  rewrite Forall_cons, IH. unfold fits. lia.
Qed.

Lemma fits_array depth maxDepth l :
  fits depth maxDepth (JArray l) <-> depth < maxDepth /\ Forall (fits (depth + 1) maxDepth) l.
Proof.
  pose proof (fits_max (fun v => v) depth maxDepth l) as H. unfold fits at 1. cbn [nesting]. split.
  - intros [?|?]; [lia|]. split; [lia|]. apply H; [lia|done].
  - intros [Hd Hf]. right. by apply H.
Qed.

Lemma fits_object depth maxDepth (l : list (bytes * JsonValue)) :
  fits depth maxDepth (JObject l) <-> depth < maxDepth /\ Forall (fun kv => fits (depth + 1) maxDepth kv.2) l.
Proof.
  pose proof (fits_max snd depth maxDepth l) as H. unfold fits at 1. cbn [nesting]. split.
  - intros [?|?]; [lia|]. split; [lia|]. apply H; [lia|done].
  - intros [Hd Hf]. right. by apply H.
Qed.
