(* ===== verification/JsonWriter.v ===== *)
(** * JsonWriter: values to text

    [rpc/src/json_writer.cpp].  Each function gives the bytes it appends to
    [*out], [None] for [return false]; what a failed call has already appended
    goes to a local string that [write] drops. *)
From Stdlib Require Import SpecFloat.
From S2P Require Import Prelude Charconv Rounding Utf8 JsonValue JsonText.

Definition kHex : bytes := str "0123456789abcdef".

Definition hex_char (n : Z) : byte := nth (Z.to_nat n) kHex x00.

(** The [switch] on one character. *)
Definition escape_char (raw : byte) : bytes :=
  if bool_decide (raw = x22) then ["\"%byte; x22]
  else if bool_decide (raw = "\"%byte) then ["\"%byte; "\"%byte]
  else if bool_decide (raw = x08) then ["\"%byte; "b"%byte]
  else if bool_decide (raw = x0c) then ["\"%byte; "f"%byte]
  else if bool_decide (raw = x0a) then ["\"%byte; "n"%byte]
  else if bool_decide (raw = x0d) then ["\"%byte; "r"%byte]
  else if bool_decide (raw = x09) then ["\"%byte; "t"%byte]
  else
    let c := b2z raw in
    if c <? 0x20 then
      ["\"%byte; "u"%byte; "0"%byte; "0"%byte; hex_char (Z.shiftr c 4); hex_char (Z.land c 0x0F)]
    else [raw].

Definition writeString (text : bytes) : option bytes :=
  if negb (isValidUtf8 text) then None
  else Some (x22 :: concat (escape_char <$> text) ++ [x22]).

Definition fraction_or_exponent (c : byte) : bool :=
  bool_decide (c = "."%byte) || bool_decide (c = "e"%byte) || bool_decide (c = "E"%byte).

(** [char buffer[64]] *)
Definition writeNumber (value : JsonValue) : option bytes :=
  match value with
  | JInteger z => into_buffer 64 (to_chars_i64 z)
  | JNumber number =>
      if negb (isfinite number) then None else
      text ← to_chars_double number;
      text ← into_buffer 64 text;
      Some (text ++ if existsb fraction_or_exponent text then [] else ["."%byte; "0"%byte])
  | _ => None
  end.

(** The loop over the elements of a container, with the commas. *)
Definition write_list {A} (write : A -> option bytes) : bool -> list A -> option bytes :=
  fix go (first : bool) (l : list A) : option bytes :=
    match l with
    | [] => Some []
    | x :: l =>
        s ← write x;
        rest ← go false l;
        Some ((if first then [] else [","%byte]) ++ s ++ rest)
    end.

Fixpoint writeValue (value : JsonValue) (depth maxDepth : Z) : option bytes :=
  match value with
  | JNull => Some (str "null")
  | JBool b => Some (str (if b then "true" else "false"))
  | JInteger _ | JNumber _ => writeNumber value
  | JString s => writeString s
  | JArray array =>
      if maxDepth <=? depth then None else
      body ← write_list (fun v => writeValue v (depth + 1) maxDepth) true array;
      Some ("["%byte :: body ++ ["]"%byte])
  | JObject object =>
      if maxDepth <=? depth then None else
      body ← write_list (fun kv =>
        key ← writeString kv.1; v ← writeValue kv.2 (depth + 1) maxDepth; Some (key ++ ":"%byte :: v)) true object;
      Some ("{"%byte :: body ++ ["}"%byte])
  end.

(** [JsonWriter::write]: the returned [bool] and [*out] afterwards. *)
Definition write (maxDepth : Z) (value : JsonValue) (out : option bytes) : bool * option bytes :=
  match out with
  | None => (false, None)
  | Some _ =>
      match writeValue value 0 maxDepth with
      | Some encoded => (true, Some encoded)
      | None => (false, out)
      end
  end.

(** The overload that returns a string. *)
Definition write_string (maxDepth : Z) (value : JsonValue) : bytes :=
  match write maxDepth value (Some []) with
  | (true, Some encoded) => encoded
  | _ => []
  end.

(** ** Strings *)

Lemma hex_char_value n : 0 <= n < 16 -> hex_value (hex_char n) n.
Proof.
  intros Hn. split; [lia|]. left. unfold hex_char. rewrite nth_lookup.
  destruct (lookup_lt_is_Some_2 kHex (Z.to_nat n)) as [c E]; [cbn; lia|]. by rewrite E.
Qed.

Lemma jchars_escape c s t : jchars s t -> jchars (escape_char c ++ s) (c :: t).
Proof.
  intros H. unfold escape_char.
  repeat (case_bool_decide; [subst; apply chars_escape; [unfold escapes; set_solver|done]|]).
  destruct (Z.ltb_spec (b2z c) 0x20) as [Hc|Hc]; [|by apply chars_plain].
  pose proof (b2z_range c). rewrite Z.shiftr_div_pow2 by lia. change 0x0F with (Z.ones 4). rewrite Z.land_ones by lia.
  assert (c :: t = utf8 (b2z c) ++ t) as -> by (rewrite <- appendUtf8_utf8, appendUtf8_1, z2b_b2z by lia; done).
  apply (chars_unicode ["0"%byte; "0"%byte; hex_char (b2z c / 2 ^ 4); hex_char (b2z c mod 2 ^ 4)]); [|lia|done].
  exists "0"%byte, "0"%byte, (hex_char (b2z c / 2 ^ 4)), (hex_char (b2z c mod 2 ^ 4)), 0, 0, (b2z c / 2 ^ 4), (b2z c mod 2 ^ 4).
  split_and!; [done|by split; [|left]..|apply hex_char_value; dmlia|apply hex_char_value; dmlia|dmlia].
Qed.

Lemma writeString_sound text s : writeString text = Some s -> jstring text s.
Proof.
  unfold writeString. destruct (isValidUtf8 text) eqn:Hv; [|done]. intros [= <-]. exists (concat (escape_char <$> text)).
  split; [done|]. split; [|done]. clear Hv. induction text as [|c text IH]; [constructor|]. by apply jchars_escape.
Qed.

(** ** Numbers *)

Lemma int_ok_decimal n : 0 <= n -> int_ok (decimal n).
Proof.
  intros Hn. destruct (Z.eq_dec n 0) as [->|]; [by left|]. right. apply decimal_head. lia.
Qed.

Lemma digit_plain d : isDigit d = true -> fraction_or_exponent d = false.
Proof.
  rewrite isDigit_spec. intros H. unfold fraction_or_exponent.
  assert (b2z "."%byte = 46) by done. assert (b2z "e"%byte = 101) by done. assert (b2z "E"%byte = 69) by done.
  rewrite !bool_decide_false; [done|..]; intros ->; lia.
Qed.

Lemma digits_plain ds : all_digits ds -> existsb fraction_or_exponent ds = false.
Proof. induction 1 as [|d ds Hd _ IH]; [done|]. cbn. by rewrite digit_plain. Qed.

(** The test of the writer tells the floating literals. *)
Lemma existsb_floating l : number_ok l -> existsb fraction_or_exponent (number_text l) = floating l.
Proof.
  intros (Hi & Hf & Hx). destruct (int_ok_cons _ Hi) as (_ & _ & _ & _ & Hd). unfold number_text, floating.
  rewrite !existsb_app, (digits_plain _ Hd).
  assert (existsb fraction_or_exponent (if n_neg l then ["-"%byte] else []) = false) as -> by by destruct (n_neg l).
  destruct (n_frac l); cbn [frac_text existsb orb]; [|by rewrite bool_decide_false].
  rewrite bool_decide_true by done. destruct (n_exp l) as [[[e sg] ds]|]; [|done].
  destruct Hx as [He _]. cbn. by destruct He as [-> | ->].
Qed.

Lemma dec_nonempty fuel n : dec (S fuel) n <> [].
Proof. cbn [dec]. destruct (n <? 10); [done|]. by destruct (dec fuel (n / 10)). Qed.

Lemma exponent_digits x :
  exp_ok (Some ("e"%byte, [if x <? 0 then "-"%byte else "+"%byte],
    if Z.abs x <? 10 then "0"%byte :: dec 3 (Z.abs x) else dec 3 (Z.abs x))).
Proof.
  split; [by left|]. split; [destruct (x <? 0); auto|]. pose proof (dec_digits 3 (Z.abs x) ltac:(lia)) as Hd.
  destruct (Z.abs x <? 10); split; try done; [by constructor|apply dec_nonempty].
Qed.

Lemma exponent_value x :
  Z.abs x < 1000 ->
  exp_value (Some ("e"%byte, [if x <? 0 then "-"%byte else "+"%byte],
    if Z.abs x <? 10 then "0"%byte :: dec 3 (Z.abs x) else dec 3 (Z.abs x))) = x.
Proof.
  intros Hx. cbn [exp_value].
  assert (digits_val (if Z.abs x <? 10 then "0"%byte :: dec 3 (Z.abs x) else dec 3 (Z.abs x)) = Z.abs x) as ->.
  { pose proof (dec_val 3 (Z.abs x) ltac:(cbn; lia)) as E. by destruct (_ <? _). }
  destruct (Z.ltb_spec x 0); [rewrite bool_decide_true by done|rewrite bool_decide_false by done]; lia.
Qed.

Lemma decimal_to_double_decimal neg m q : 0 < m -> decimal_to_double neg (decimal m) q = round_decimal neg m q.
Proof. intros Hm. by rewrite decimal_to_double_round, decimal_digits_val by (rewrite ?decimal_digits_val; lia). Qed.

(** The two styles are literals of the digits' value. *)
Lemma scientific_lit neg m q :
  0 < m -> Z.abs (q + len (decimal m) - 1) < 1000 ->
  exists l, number_ok l /\ double_value l = round_decimal neg m q /\
    (if neg : bool then ["-"%byte] else []) ++ scientific (decimal m) (q + len (decimal m) - 1) = number_text l.
Proof.
  intros Hm Hx. rewrite <- (decimal_to_double_decimal neg) by done. pose proof (exponent_value _ Hx) as Ex.
  destruct (decimal_head m Hm) as (d & ds & E & Hd & Hds). rewrite E in *. set (x := q + len (d :: ds) - 1) in *.
  exists (mkLit neg [d] ds (Some ("e"%byte, [if x <? 0 then "-"%byte else "+"%byte],
    if Z.abs x <? 10 then "0"%byte :: dec 3 (Z.abs x) else dec 3 (Z.abs x)))). split_and!.
  - split; [right; exists d, []; split; [done|split; [done|constructor]]|]. split; [done|]. apply exponent_digits.
  - unfold double_value. cbn [n_neg n_int n_frac n_exp app]. rewrite Ex. f_equal. subst x. rewrite len_cons. lia.
  - unfold number_text, scientific. cbn [n_neg n_int n_frac n_exp exp_text app]. done.
Qed.

Lemma digits_val_zeros n ds : digits_val (replicate n "0"%byte ++ ds) = digits_val ds.
Proof.
  rewrite digits_val_app. assert (digits_val (replicate n "0"%byte) = 0) as ->; [|done].
  induction n as [|n IH]; [done|]. exact IH.
Qed.

Lemma fixed_lit neg m q integer :
  0 < m -> (0 <= q -> 0 < integer /\ round_decimal neg integer 0 = round_decimal neg m q) ->
  exists l, number_ok l /\ double_value l = round_decimal neg m q /\
    (if neg : bool then ["-"%byte] else []) ++ fixed (decimal m) q integer = number_text l.
Proof.
  intros Hm Hint. destruct (decimal_head m Hm) as (d & ds & E & Hd & Hds). unfold fixed.
  destruct (Z.leb_spec 0 q).
  { destruct Hint as [Hi <-]; [done|]. exists (mkLit neg (decimal integer) [] None).
    split_and!; [split_and!; [apply int_ok_decimal; lia|constructor|done]| |].
    - rewrite <- decimal_to_double_decimal by done. unfold double_value. cbn [n_neg n_int n_frac n_exp exp_value].
      by rewrite app_nil_r.
    - unfold number_text; cbn; by rewrite app_nil_r. }
  assert (all_digits (decimal m)) as Hall by (rewrite E; constructor; [apply isDigit_spec; lia|done]).
  rewrite <- (decimal_to_double_decimal neg) by done.
  destruct (Z.ltb_spec 0 (len (decimal m) + q)) as [Hk|Hk].
  - set (k := Z.to_nat (len (decimal m) + q)).
    assert (0 < k < length (decimal m))%nat as [Hk0 Hk1] by (unfold k, len in *; lia).
    assert (len (decimal m) - Z.of_nat k = - q) as Hq by (unfold k, len in *; lia). clearbody k.
    exists (mkLit neg (take k (decimal m)) (drop k (decimal m)) None). split; [split; [|split]|split].
    + right. rewrite E. destruct k as [|k]; [lia|]. cbn. exists d, (take k ds). split; [done|]. split; [done|]. by apply Forall_take.
    + by apply Forall_drop.
    + done.
    + unfold double_value. cbn [n_neg n_int n_frac n_exp exp_value]. rewrite take_drop. f_equal.
      unfold len in *. rewrite length_drop. lia.
    + unfold number_text. cbn [n_neg n_int n_frac n_exp exp_text]. rewrite app_nil_r.
      destruct (drop k (decimal m)) eqn:Ed; [|done]. apply (f_equal length) in Ed. rewrite length_drop, length_nil in Ed. lia.
  - set (z := Z.to_nat (- (len (decimal m) + q))). exists (mkLit neg ["0"%byte] (replicate z "0"%byte ++ decimal m) None).
    split; [split; [|split]|split].
    + by left.
    + apply Forall_app. split; [by apply Forall_replicate|done].
    + done.
    + unfold double_value. cbn [n_neg n_int n_frac n_exp exp_value].
      change (["0"%byte] ++ replicate z "0"%byte ++ decimal m) with (replicate (S z) "0"%byte ++ decimal m).
      rewrite !decimal_to_double_round, digits_val_zeros by (rewrite ?digits_val_zeros, decimal_digits_val; lia). f_equal.
      unfold z, len in *. rewrite length_app, length_replicate. lia.
    + unfold number_text. cbn [n_neg n_int n_frac n_exp exp_text]. rewrite app_nil_r.
      destruct (replicate _ _ ++ decimal m) eqn:Ed; [|done]. by rewrite E in Ed; destruct (replicate _ _).
Qed.

(** Every finite [double] has a text of at most 64 bytes, a literal of its value. *)
Lemma to_chars_double_lit d :
  isfinite d = true -> valid_binary 53 1024 d = true ->
  exists l, number_ok l /\ to_chars_double d = Some (number_text l) /\ len (number_text l) <= 64 /\ double_value l = Some d.
Proof.
  destruct d as [sg| | |sg mm ee]; try done; intros _.
  - intros _. exists (mkLit sg ["0"%byte] [] None). split; [|by destruct sg].
    split; [by left|]. split; [constructor|done].
  - intros Hv%valid_binary64. destruct (double_digits sg mm ee Hv) as (m0 & q0 & m & q & Es & Est & Hm & Hq & Hr).
    unfold to_chars_double. rewrite Es. cbn [mbind option_bind]. rewrite Est. set (num := Zpos mm * 2 ^ Z.max ee 0) in *. set (den := 2 ^ Z.max (- ee) 0) in *.
    assert (len (decimal m) <= 18) as Hlen by (unfold len; pose proof (dec_short (S (Z.to_nat (Z.log2 m))) m 17 ltac:(cbn; lia)); unfold decimal; lia).
    pose proof (len_nonneg (decimal m)).
    assert (decimal m <> []) as Hne by (destruct (decimal_head m ltac:(lia)) as (? & ? & -> & _); done).
    pose proof (scientific_len (decimal m) (q + len (decimal m) - 1) Hne) as Hsl.
    destruct (fixed_lit sg m q (num / den)) as (lf & Hlf & Vf & Ef); [lia| |].
    { intros H0. destruct (integer_round sg mm ee Hv m q) as [Hp Hi]; [lia|exact H0|exact Hr|]. split; [exact Hp|]. exact (eq_trans Hi (eq_sym Hr)). }
    destruct (scientific_lit sg m q) as (ls & Hls & Vs & Es'); [lia..|].
    set (sign := if sg then _ else _) in *. assert (len sign <= 1) by (subst sign; by destruct sg).
    destruct (Z.leb_spec (len (fixed (decimal m) q (num / den))) (len (scientific (decimal m) (q + len (decimal m) - 1)))).
    + exists lf. rewrite <- Ef, len_app, Vf. split_and!; (done || lia).
    + exists ls. rewrite <- Es', len_app, Vs. split_and!; (done || lia).
Qed.

Lemma writeNumber_double d :
  valid_binary 53 1024 d = true -> isfinite d = true ->
  exists s, writeNumber (JNumber d) = Some s /\ jnumber (JNumber d) s.
Proof.
  intros Hvb Hfin. destruct (to_chars_double_lit d Hfin Hvb) as (l & Hl & E & Hlen & Hv).
  unfold writeNumber. rewrite Hfin, E. cbn [negb mbind option_bind]. unfold into_buffer. rewrite (proj2 (Z.leb_le _ _) Hlen).
  cbn [mbind option_bind]. eexists. split; [done|]. rewrite existsb_floating by done. destruct (floating l) eqn:Hf.
  - exists l. split; [done|]. rewrite app_nil_r. split; [done|]. unfold number_denotes. by rewrite Hf, Hv.
  - destruct l as [neg ds fr x]. unfold floating in Hf. cbn in Hf. apply negb_false_iff, andb_prop in Hf as [Hf Hx].
    apply bool_decide_eq_true in Hf, Hx. subst fr x. exists (mkLit neg ds ["0"%byte] None). destruct Hl as (Hi & _ & _).
    destruct (int_ok_cons _ Hi) as (_ & _ & _ & _ & Hd). split; [|split].
    + split; [done|]. split; [by apply Forall_singleton|done].
    + unfold number_text. cbn. by rewrite app_nil_r, <- app_assoc.
    + unfold number_denotes. assert (floating (mkLit neg ds ["0"%byte] None) = true) as -> by done. cbn [andb negb].
      by rewrite double_value_point_zero, Hv.
Qed.

Lemma writeNumber_integer z s : int64_min <= z <= int64_max -> writeNumber (JInteger z) = Some s -> jnumber (JInteger z) s.
Proof.
  intros Hz. pose proof (in_i64 z Hz) as Hin. unfold writeNumber, into_buffer. destruct (len _ <=? 64); [|done]. intros [= <-].
  unfold int64_min, int64_max in Hz.
  assert (forall n, 0 <= n <= 2 ^ 63 -> int_ok (dec 20 n) /\ digits_val (dec 20 n) = n) as Hdec.
  { intros n Hn. assert (2 ^ 63 < 10 ^ Z.of_nat 20) by (vm_compute; done). split; [|apply dec_val; lia].
    destruct (Z.eq_dec n 0) as [->|]; [left; vm_compute; reflexivity|]. right. apply dec_head. lia. }
  unfold to_chars_i64. destruct (Z.ltb_spec z 0).
  - destruct (Hdec (- z)) as [Hi Hv]; [lia|]. exists (mkLit true (dec 20 (- z)) [] None). split; [|split].
    + split; [done|]. split; [constructor|done].
    + unfold number_text. cbn [n_neg n_int n_frac n_exp frac_text exp_text]. by rewrite !app_nil_r.
    + unfold number_denotes, int_value. cbn [n_neg n_int n_frac n_exp floating]. rewrite Hv, Z.opp_involutive, Hin. done.
  - destruct (Hdec z) as [Hi Hv]; [lia|]. exists (mkLit false (dec 20 z) [] None). split; [|split].
    + split; [done|]. split; [constructor|done].
    + unfold number_text. cbn [n_neg n_int n_frac n_exp frac_text exp_text]. by rewrite !app_nil_r.
    + unfold number_denotes, int_value. cbn [n_neg n_int n_frac n_exp floating]. rewrite Hv, Hin. done.
Qed.

(** ** Values *)

Lemma forallb_Forall_iff {A} (f : A -> bool) l : forallb f l = true <-> Forall (fun x => f x = true) l.
Proof. rewrite forallb_forall, Forall_forall. setoid_rewrite list_elem_of_In. done. Qed.

(** The integers of a value fit [int64_t], and its doubles are binary64. *)
Fixpoint typed (v : JsonValue) : bool :=
  match v with
  | JInteger z => (int64_min <=? z) && (z <=? int64_max)
  | JNumber d => valid_binary 53 1024 d
  | JArray l => forallb typed l
  | JObject l => forallb (fun kv => typed kv.2) l
  | _ => true
  end.

(** Values that JSON can spell: strings are UTF-8 and doubles finite. *)
Fixpoint encodable (v : JsonValue) : bool :=
  match v with
  | JNumber d => isfinite d
  | JString s => isValidUtf8 s
  | JArray l => forallb encodable l
  | JObject l => forallb (fun kv => isValidUtf8 kv.1 && encodable kv.2) l
  | _ => true
  end.

Lemma write_list_first {A} (w : A -> option bytes) x l :
  write_list w false (x :: l) = cons ","%byte <$> write_list w true (x :: l).
Proof. cbn. destruct (w x); [|done]. cbn. by destruct (write_list w false l). Qed.

Lemma write_list_sound {A} (w : A -> option bytes) (R : A -> bytes -> Prop) l body :
  Forall (fun x => forall s, w x = Some s -> R x s) l -> write_list w true l = Some body -> jbody R l body.
Proof.
  intros H. destruct l as [|x l]; [intros [= <-]; apply ws_nil|]. cbn [jbody].
  revert x body H. induction l as [|y l IH]; intros x body H E; apply Forall_cons in H as [Hx Hl]; cbn in E.
  - destruct (w x) as [s|] eqn:Ex; [|done]. injection E as <-. exists [], s, []. split_and!; auto.
  - destruct (w x) as [s|] eqn:Ex; [|done]. cbn [mbind option_bind] in E. change (w y ≫= _) with (write_list w false (y :: l)) in E.
    rewrite write_list_first in E. destruct (write_list w true (y :: l)) as [rest|] eqn:Er; [|done]. injection E as <-.
    exists [], s, []. split_and!; auto. exists rest. split; [done|]. by apply IH.
Qed.

Lemma bind_Some_is_Some {A B} (m : option A) (f : A -> B) : is_Some (m ≫= fun x => Some (f x)) <-> is_Some m.
Proof. destruct m; cbn; split; intros [? ?]; try done; by eexists. Qed.

Lemma write_list_is_Some {A} (w : A -> option bytes) b l :
  is_Some (write_list w b l) <-> Forall (fun x => is_Some (w x)) l.
Proof.
  revert b. induction l as [|x l IH]; intros b; [split; [constructor|by eexists]|]. cbn. rewrite Forall_cons, <- (IH false).
  destruct (w x) as [s|]; cbn; [|split; [by intros [? ?]|by intros [[? ?] _]]].
  rewrite bind_Some_is_Some. split; [|by intros [_ ?]]. split; [by eexists|done].
Qed.

(** What the writer writes is a JSON text of the value. *)
Lemma writeValue_sound v depth maxDepth s :
  typed v = true -> writeValue v depth maxDepth = Some s -> jvalue v s.
Proof.
  revert depth s. induction v as [|b|z|d|t|l IH|l IH] using json_ind'; intros depth s Ht E; cbn in Ht; cbn [writeValue] in E.
  - by injection E as <-.
  - by injection E as <-.
  - apply writeNumber_integer; [|done]. apply andb_prop in Ht as [?%Z.leb_le ?%Z.leb_le]. done.
  - destruct (isfinite d) eqn:Hf; [|unfold writeNumber in E; by rewrite Hf in E].
    destruct (writeNumber_double d Ht Hf) as (s' & E' & ?). by rewrite E in E'; injection E' as <-.
  - by apply writeString_sound.
  - destruct (_ <=? _); [done|]. destruct (write_list _ true l) as [body|] eqn:El; [|done]. injection E as <-.
    exists body. split; [done|]. revert El. apply write_list_sound.
    rewrite forallb_forall in Ht. rewrite Forall_forall in IH |- *. intros v Hv s E. apply (IH v Hv (depth + 1)); [|done].
    apply Ht. by apply list_elem_of_In.
  - destruct (_ <=? _); [done|]. destruct (write_list _ true l) as [body|] eqn:El; [|done]. injection E as <-.
    exists body. split; [done|]. revert El. apply write_list_sound.
    rewrite forallb_forall in Ht. rewrite Forall_forall in IH |- *. intros [k v] Hv s E. cbn [fst snd] in E.
    destruct (writeString k) as [ks|] eqn:Ek; [|done]. cbn [mbind option_bind] in E.
    destruct (writeValue v _ _) as [vs|] eqn:Ev; [|done]. injection E as <-.
    exists ks, [], [], vs. split_and!; auto; [by apply writeString_sound|]. apply (IH (k, v) Hv (depth + 1)); [|done].
    apply (Ht (k, v)). by apply list_elem_of_In.
Qed.

Lemma to_chars_i64_short z : len (to_chars_i64 z) <= 64.
Proof.
  assert (forall fuel n, length (dec fuel n) <= fuel)%nat as Hlen.
  { induction fuel as [|fuel IH]; intros n; cbn [dec]; [cbn; lia|]. destruct (n <? 10); [cbn; lia|].
    rewrite length_app. specialize (IH (n / 10)). cbn [length]. lia. }
  unfold to_chars_i64, len. destruct (z <? 0); cbn [length]; [pose proof (Hlen 20%nat (- z))|pose proof (Hlen 20%nat z)]; lia.
Qed.

(** The writer succeeds exactly on the encodable values that fit the depth. *)
Lemma writeValue_exact v depth maxDepth :
  typed v = true ->
  is_Some (writeValue v depth maxDepth) <-> encodable v = true /\ fits depth maxDepth v.
Proof.
  assert (forall A (x : option A) (P Q : Prop), is_Some x -> P -> Q -> is_Some x <-> P /\ Q) as Hall by (intros; tauto).
  revert depth. induction v as [|b|z|d|t|l IH|l IH] using json_ind'; intros depth Ht.
  - apply Hall; [by eexists|done|by left].
  - apply Hall; [by eexists|done|by left].
  - apply Hall; [|done|by left]. cbn [writeValue writeNumber]. unfold into_buffer.
    rewrite (proj2 (Z.leb_le _ _) (to_chars_i64_short z)). by eexists.
  - cbn [writeValue encodable]. destruct (isfinite d) eqn:Hf.
    + destruct (writeNumber_double d Ht Hf) as (s & -> & _). apply Hall; [by eexists|done|by left].
    + unfold writeNumber. rewrite Hf. split; [by intros [? ?]|by intros [? _]].
  - cbn [writeValue encodable]. unfold writeString. destruct (isValidUtf8 t); cbn [negb].
    + apply Hall; [by eexists|done|by left].
    + split; [by intros [? ?]|by intros [? _]].
  - rewrite fits_array. cbn [writeValue encodable]. rewrite forallb_Forall_iff.
    destruct (Z.leb_spec maxDepth depth); [split; [by intros [? ?]|lia]|].
    rewrite bind_Some_is_Some, write_list_is_Some.
    assert (Forall (fun v => is_Some (writeValue v (depth + 1) maxDepth)) l <->
            Forall (fun v => encodable v = true /\ fits (depth + 1) maxDepth v) l) as ->.
    { cbn [typed] in Ht. rewrite forallb_Forall_iff in Ht. rewrite !Forall_forall in *.
      split; intros H' v Hv; apply (IH v Hv (depth + 1) (Ht v Hv)), (H' v Hv). }
    rewrite Forall_and. tauto.
  - rewrite fits_object. cbn [writeValue encodable]. rewrite forallb_Forall_iff.
    destruct (Z.leb_spec maxDepth depth); [split; [by intros [? ?]|lia]|].
    rewrite bind_Some_is_Some, write_list_is_Some.
    assert (Forall (fun kv => is_Some (key ← writeString kv.1; v ← writeValue kv.2 (depth + 1) maxDepth; Some (key ++ ":"%byte :: v))) l <->
            Forall (fun kv => isValidUtf8 kv.1 && encodable kv.2 = true /\ fits (depth + 1) maxDepth kv.2) l) as ->.
    { cbn [typed] in Ht. rewrite forallb_Forall_iff in Ht. rewrite !Forall_forall in *.
      split; intros H' kv Hv; specialize (H' kv Hv); specialize (IH kv Hv (depth + 1) (Ht kv Hv));
        unfold writeString in *; destruct (isValidUtf8 kv.1); cbn in *; rewrite ?bind_Some_is_Some in *; try tauto.
      - by destruct H'.
      - by destruct H'. }
    rewrite Forall_and. tauto.
Qed.
