(* ===== verification/JsonParser.v ===== *)
(** * JsonParser: text to values

    [rpc/src/json_parser.cpp].  The cursor [pos_] of the [Reader] is represented
    by the text that is left, [in_.substr(pos_)]: [pos_ >= in_.size()] is [[]] and
    [++pos_] is the tail.  Loops have fuel from the length of that text, and the
    recursion of [parseValue] has the fuel [stack], one unit per nested call;
    [OutOfFuel] is shown to be unreachable. *)
From Stdlib Require Import SpecFloat.
From S2P Require Import Prelude Charconv Utf8 JsonValue JsonText.

Inductive res (A : Type) :=
| Ok (a : A) (rest : bytes)
| Reject
| OutOfFuel.
Arguments Ok {A}.
Arguments Reject {A}.
Arguments OutOfFuel {A}.

Definition rbind {A B} (m : res A) (k : A -> bytes -> res B) : res B :=
  match m with Ok a rest => k a rest | Reject => Reject | OutOfFuel => OutOfFuel end.

Fixpoint skipWhitespace (s : bytes) : bytes :=
  match s with
  | c :: s' =>
      if negb (bool_decide (c = " "%byte)) && negb (bool_decide (c = x09)) && negb (bool_decide (c = x0a)) &&
         negb (bool_decide (c = x0d))
      then s else skipWhitespace s'
  | [] => []
  end.

Definition consume (literal s : bytes) : option bytes :=
  if bool_decide (take (length literal) s = literal) then Some (drop (length literal) s) else None.

(** ** Numbers *)

Definition scan_int (s : bytes) : option bytes :=
  match s with
  | [] => None
  | c :: t =>
      if bool_decide (c = "0"%byte) then
        match t with d :: _ => if isDigit d then None else Some t | [] => Some t end
      else if (49 <=? b2z c) && (b2z c <=? 57) then Some (scan_digits s).2
      else None
  end.

Definition some_digits (s : bytes) : option bytes :=
  match s with d :: _ => if isDigit d then Some (scan_digits s).2 else None | [] => None end.

Definition scan_frac (s : bytes) : option (bool * bytes) :=
  match s with
  | c :: t => if bool_decide (c = "."%byte) then s ← some_digits t; Some (true, s) else Some (false, s)
  | [] => Some (false, s)
  end.

Definition scan_exp (s : bytes) : option (bool * bytes) :=
  match s with
  | c :: t =>
      if bool_decide (c = "e"%byte) || bool_decide (c = "E"%byte) then
        let t := match t with
                 | d :: t' => if bool_decide (d = "+"%byte) || bool_decide (d = "-"%byte) then t' else t
                 | [] => t
                 end in
        s ← some_digits t; Some (true, s)
      else Some (false, s)
  | [] => Some (false, s)
  end.

(** The scan of [parseNumber]: [isFloating] and what follows the number. *)
Definition scan_number (s : bytes) : option (bool * bytes) :=
  let '(_, t) := minus_sign s in
  t ← scan_int t;
  '(f1, t) ← scan_frac t;
  '(f2, t) ← scan_exp t;
  Some (f1 || f2, t).

Definition convert_double (text rest : bytes) : res JsonValue :=
  match from_chars_double text with
  | Conv number [] => if negb (isfinite number) then Reject else Ok (JNumber number) rest
  | _ => Reject
  end.

Definition parseNumber (s : bytes) : res JsonValue :=
  match scan_number s with
  | None => Reject
  | Some (isFloating, rest) =>
      let text := take (length s - length rest) s in
      if negb isFloating then
        match from_chars_i64 text with
        | Conv integer [] => Ok (JInteger integer) rest
        | _ => convert_double text rest
        end
      else convert_double text rest
  end.

(** ** Strings *)

Definition hexDigit (c : byte) : Z :=
  let z := b2z c in
  if (48 <=? z) && (z <=? 57) then z - 48
  else if (97 <=? z) && (z <=? 102) then z - 97 + 10
  else if (65 <=? z) && (z <=? 70) then z - 65 + 10
  else -1.

Fixpoint hex_loop (n : nat) (value : Z) (s : bytes) : option (Z * bytes) :=
  match n with
  | O => Some (value, s)
  | S n =>
      match s with
      | [] => None
      | c :: s =>
          let digit := hexDigit c in
          if digit <? 0 then None else hex_loop n (Z.lor (u32 (Z.shiftl value 4)) digit) s
      end
  end.

Definition readHex4 (s : bytes) : option (Z * bytes) :=
  if len s <? 4 then None else hex_loop 4 0 s.

(** The bytes appended to the text and what follows the escape. *)
Definition parseUnicodeEscape (s : bytes) : option (bytes * bytes) :=
  '(codePoint, s) ← readHex4 s;
  if (0xD800 <=? codePoint) && (codePoint <=? 0xDBFF) then
    match s with
    | b :: u :: s =>
        if bool_decide (b = "\"%byte) && bool_decide (u = "u"%byte) then
          '(low, s) ← readHex4 s;
          if (low <? 0xDC00) || (0xDFFF <? low) then None
          else Some (appendUtf8 (u32 (0x10000 + Z.shiftl (codePoint - 0xD800) 10 + (low - 0xDC00))), s)
        else None
    | _ => None
    end
  else if (0xDC00 <=? codePoint) && (codePoint <=? 0xDFFF) then None
  else Some (appendUtf8 codePoint, s).

(** The cases of the [switch] but ['u']. *)
Definition simple_escape (c : byte) : option byte :=
  if bool_decide (c = x22) then Some x22          (* quotation mark *)
  else if bool_decide (c = "\"%byte) then Some "\"%byte
  else if bool_decide (c = "/"%byte) then Some "/"%byte
  else if bool_decide (c = "b"%byte) then Some x08
  else if bool_decide (c = "f"%byte) then Some x0c
  else if bool_decide (c = "n"%byte) then Some x0a
  else if bool_decide (c = "r"%byte) then Some x0d
  else if bool_decide (c = "t"%byte) then Some x09
  else None.

Definition parseEscape (s : bytes) : option (bytes * bytes) :=
  match s with
  | [] => None
  | e :: s =>
      match simple_escape e with
      | Some c => Some ([c], s)
      | None => if bool_decide (e = "u"%byte) then parseUnicodeEscape s else None
      end
  end.

Fixpoint string_loop (fuel : nat) (s text : bytes) : res bytes :=
  match s with
  | [] => Reject
  | c :: s =>
      match fuel with
      | O => OutOfFuel
      | S fuel =>
          if bool_decide (c = x22) then if isValidUtf8 text then Ok text s else Reject
          else if bool_decide (c = "\"%byte) then
            match parseEscape s with
            | Some (t, s) => string_loop fuel s (text ++ t)
            | None => Reject
            end
          else if b2z c <? 0x20 then Reject
          else string_loop fuel s (text ++ [c])
      end
  end.

Definition parseString (s : bytes) : res bytes :=
  match s with
  | c :: s => if bool_decide (c = x22) then string_loop (length s) s [] else Reject
  | [] => Reject
  end.

(** ** Containers, given how to parse what is inside *)

(** The [while (true)] loop of a container: an item, then a comma, the closing
    bracket or an error. *)
Section items.
Context {A : Type}.
Variable parseItem : bytes -> res A.
Variable close : byte.

Fixpoint items_loop (fuel : nat) (s : bytes) (items : list A) : res (list A) :=
  match fuel with
  | O => OutOfFuel
  | S fuel =>
      rbind (parseItem (skipWhitespace s)) (fun item s =>
      match skipWhitespace s with
      | [] => Reject
      | c :: s =>
          if bool_decide (c = ","%byte) then items_loop fuel s (items ++ [item])
          else if bool_decide (c = close) then Ok (items ++ [item]) s
          else Reject
      end)
  end.

(** [s] starts at the opening bracket. *)
Definition parse_container (mk : list A -> JsonValue) (depth maxDepth : Z) (s : bytes) : res JsonValue :=
  if maxDepth <=? depth then Reject else
  let s := skipWhitespace (tail s) in
  let loop := rbind (items_loop (S (length s)) s []) (fun items s => Ok (mk items) s) in
  match s with
  | c :: rest => if bool_decide (c = close) then Ok (mk []) rest else loop
  | [] => loop
  end.
End items.

(** The body of the loop of [parseObject]: a key, a colon and a value. *)
Definition parseMember (parseElement : bytes -> res JsonValue) (s : bytes) : res (bytes * JsonValue) :=
  rbind (parseString s) (fun key s =>
  match skipWhitespace s with
  | c :: s => if bool_decide (c = ":"%byte)
              then rbind (parseElement (skipWhitespace s)) (fun value s => Ok (key, value) s)
              else Reject
  | [] => Reject
  end).

(** [parseElement] is [parseValue (depth + 1)]. *)
Definition parseArray (parseElement : bytes -> res JsonValue) (depth maxDepth : Z) (s : bytes) : res JsonValue :=
  parse_container parseElement "]"%byte JArray depth maxDepth s.

Definition parseObject (parseElement : bytes -> res JsonValue) (depth maxDepth : Z) (s : bytes) : res JsonValue :=
  parse_container (parseMember parseElement) "}"%byte JObject depth maxDepth s.

Definition literal (text : bytes) (v : JsonValue) (s : bytes) : res JsonValue :=
  match consume text s with Some s => Ok v s | None => Reject end.

Fixpoint parseValue (stack : nat) (maxDepth depth : Z) (s : bytes) : res JsonValue :=
  match stack with
  | O => OutOfFuel
  | S stack =>
      match s with
      | [] => Reject
      | c :: _ =>
          if bool_decide (c = "n"%byte) then literal (str "null") JNull s
          else if bool_decide (c = "t"%byte) then literal (str "true") (JBool true) s
          else if bool_decide (c = "f"%byte) then literal (str "false") (JBool false) s
          else if bool_decide (c = x22) then rbind (parseString s) (fun text s => Ok (JString text) s)
          else if bool_decide (c = "["%byte) then parseArray (parseValue stack maxDepth (depth + 1)) depth maxDepth s
          else if bool_decide (c = "{"%byte) then parseObject (parseValue stack maxDepth (depth + 1)) depth maxDepth s
          else parseNumber s
      end
  end.

(** [Reader::parse]: at most [maxDepth + 1] nested calls of [parseValue]. *)
Definition reader_parse (maxDepth : Z) (input : bytes) : res JsonValue :=
  rbind (parseValue (S (Z.to_nat maxDepth)) maxDepth 0 (skipWhitespace input)) (fun value s =>
  match skipWhitespace s with [] => Ok value [] | _ => Reject end).

(** [JsonParser::parse]: the returned [bool] and [*out] afterwards; [None] is
    exhausted fuel. *)
Definition parse (maxDepth : Z) (input : bytes) (out : option JsonValue) : option (bool * option JsonValue) :=
  match out with
  | None => Some (false, None)
  | Some _ =>
      match reader_parse maxDepth input with
      | Ok value _ => Some (true, Some value)
      | Reject => Some (false, out)
      | OutOfFuel => None
      end
  end.

(** ** White space *)

Definition no_ws (s : bytes) : Prop := match s with c :: _ => is_ws c = false | [] => True end.

Lemma skip_cons c s : skipWhitespace (c :: s) = if is_ws c then skipWhitespace s else c :: s.
Proof.
  cbn [skipWhitespace]. destruct (is_ws c) eqn:Hc.
  - by apply is_ws_cases in Hc as [->|[->|[->| ->]]].
  - unfold is_ws in Hc. apply bool_decide_eq_false in Hc. by rewrite !bool_decide_false by set_solver.
Qed.

Lemma skip_split s : exists w, s = w ++ skipWhitespace s /\ ws w /\ no_ws (skipWhitespace s).
Proof.
  induction s as [|c s (w & E & Hw & Hn)]; [by exists []|]. rewrite skip_cons. destruct (is_ws c) eqn:Hc.
  - exists (c :: w). split; [cbn; by rewrite <- E|]. split; [by constructor|done].
  - by exists [].
Qed.

Lemma skip_app w s : ws w -> no_ws s -> skipWhitespace (w ++ s) = s.
Proof.
  intros Hw Hs. induction Hw as [|c w Hc _ IH]; cbn [app]; [|by rewrite skip_cons, Hc].
  destruct s as [|c s]; [done|]. by rewrite skip_cons, Hs.
Qed.

(** ** Numbers: the scanner and the literals *)

(** The text goes on with something that cannot extend a number. *)
Definition number_stops (s : bytes) : Prop :=
  match s with
  | [] => True
  | c :: _ => isDigit c = false /\ c <> "."%byte /\ c <> "e"%byte /\ c <> "E"%byte
  end.

Lemma follow_stops s : follow s -> number_stops s.
Proof.
  destruct s as [|c s]; [done|]. cbn. intros [H|H].
  - apply is_ws_cases in H as [->|[->|[->| ->]]]; done.
  - destruct H as [->|[->| ->]]; done.
Qed.

Lemma scan_int_sound s rest : scan_int s = Some rest -> exists ds, s = ds ++ rest /\ int_ok ds /\ no_digit rest.
Proof.
  destruct s as [|c s]; [done|]. cbn [scan_int]. case_bool_decide as Hc.
  - subst c. intros E. assert (rest = s /\ no_digit s) as [-> Hn].
    { destruct s as [|d s]; [by injection E as <-|]. cbn. destruct (isDigit d); [done|]. by injection E as <-. }
    exists ["0"%byte]. split; [done|]. split; [by left|done].
  - destruct (_ && _) eqn:Hr; [|done]. destruct (scan_digits (c :: s)) as [ds t] eqn:E. cbn [snd]. intros [= ->].
    destruct (scan_digits_split _ _ _ E) as (Es & Hds & Hn). exists ds. split; [done|]. split; [|done]. right.
    apply andb_prop in Hr as [?%Z.leb_le ?%Z.leb_le]. destruct ds as [|d ds].
    + cbn in Es. subst rest. exfalso. apply not_true_iff_false in Hn. apply Hn, isDigit_spec. lia.
    + injection Es as -> _. exists d, ds. split; [done|]. split; [lia|]. by apply Forall_inv_tail in Hds.
Qed.

Lemma scan_int_complete ds rest : int_ok ds -> no_digit rest -> scan_int (ds ++ rest) = Some rest.
Proof.
  intros [->|(d & ds' & -> & Hd & Hds)] Hr.
  - cbn. destruct rest as [|c rest]; [done|]. cbn in Hr. by rewrite Hr.
  - cbn [scan_int app]. rewrite bool_decide_false; [|intros ->; assert (b2z "0"%byte = 48) by done; lia].
    rewrite (proj2 (Z.leb_le _ _)), (proj2 (Z.leb_le _ _)) by lia. cbn [andb].
    change (d :: ds' ++ rest) with ((d :: ds') ++ rest). rewrite scan_digits_app; [done|constructor|done]; [|done].
    apply isDigit_spec. lia.
Qed.

Lemma some_digits_sound s rest :
  some_digits s = Some rest -> exists ds, s = ds ++ rest /\ ds <> [] /\ all_digits ds /\ no_digit rest.
Proof.
  destruct s as [|c s]; [done|]. unfold some_digits. destruct (isDigit c) eqn:Hc; [|done].
  destruct (scan_digits (c :: s)) as [ds t] eqn:E. cbn [snd]. intros [= ->]. destruct (scan_digits_split _ _ _ E) as (Es & Hds & Hn).
  exists ds. split_and!; try done. intros ->. cbn in Es. subst rest. cbn in Hn. congruence.
Qed.

Lemma some_digits_complete ds rest :
  ds <> [] -> all_digits ds -> no_digit rest -> some_digits (ds ++ rest) = Some rest.
Proof.
  intros Hne Hd Hr. destruct ds as [|d ds]; [done|]. unfold some_digits. cbn [app].
  pose proof (Forall_inv Hd) as ->. change (d :: ds ++ rest) with ((d :: ds) ++ rest). by rewrite scan_digits_app.
Qed.

Lemma scan_frac_sound s f rest :
  scan_frac s = Some (f, rest) ->
  exists fr, s = frac_text fr ++ rest /\ all_digits fr /\ f = negb (bool_decide (fr = [])) /\ (no_digit s -> no_digit rest).
Proof.
  destruct s as [|c s]; cbn [scan_frac].
  - intros [= <- <-]. exists []. split_and!; try done. constructor.
  - case_bool_decide as Hc.
    + destruct (some_digits s) as [t|] eqn:E; [|done]. intros [= <- <-]. subst c.
      destruct (some_digits_sound _ _ E) as (ds & -> & Hne & Hd & Hn). exists ds. split; [by destruct ds|].
      split_and!; try done. by rewrite bool_decide_false.
    + intros [= <- <-]. exists []. split_and!; try done. constructor.
Qed.

Lemma scan_frac_complete fr rest :
  all_digits fr -> no_digit rest -> (fr = [] -> forall c t, rest = c :: t -> c <> "."%byte) ->
  scan_frac (frac_text fr ++ rest) = Some (negb (bool_decide (fr = [])), rest).
Proof.
  intros Hf Hr Hdot. destruct fr as [|d fr].
  - cbn [frac_text app]. rewrite bool_decide_true by done. destruct rest as [|c rest]; [done|]. cbn [scan_frac].
    rewrite bool_decide_false; [done|]. by apply (Hdot eq_refl c rest).
  - cbn [frac_text scan_frac app]. rewrite bool_decide_true by done.
    change (d :: fr ++ rest) with ((d :: fr) ++ rest). rewrite some_digits_complete by done.
    by rewrite bool_decide_false.
Qed.

Lemma scan_exp_sound s f rest :
  scan_exp s = Some (f, rest) -> exists x, s = exp_text x ++ rest /\ exp_ok x /\ f = negb (bool_decide (x = None)).
Proof.
  destruct s as [|c s]; cbn [scan_exp].
  - intros [= <- <-]. by exists None.
  - destruct (bool_decide (c = "e"%byte) || bool_decide (c = "E"%byte)) eqn:Hc; [|intros [= <- <-]; by exists None].
    rewrite orb_true_iff, !bool_decide_eq_true in Hc.
    set (t := match s with [] => s | _ => _ end). destruct (some_digits t) as [r|] eqn:E; [|done]. intros [= <- <-].
    destruct (some_digits_sound _ _ E) as (ds & Et & Hne & Hd & _).
    assert (exists sg, s = sg ++ t /\ (sg = [] \/ sg = ["+"%byte] \/ sg = ["-"%byte])) as (sg & Es & Hsg).
    { subst t. destruct s as [|d s]; [exists []; auto|]. destruct (_ || _) eqn:Ho; [|exists []; auto].
      rewrite orb_true_iff, !bool_decide_eq_true in Ho. exists [d]. split; [done|]. destruct Ho as [-> | ->]; auto. }
    exists (Some (c, sg, ds)). split; [cbn; by rewrite Es, Et, app_assoc|]. done.
Qed.

Lemma scan_exp_complete x rest :
  exp_ok x -> no_digit rest -> (x = None -> forall c t, rest = c :: t -> c <> "e"%byte /\ c <> "E"%byte) ->
  scan_exp (exp_text x ++ rest) = Some (negb (bool_decide (x = None)), rest).
Proof.
  intros Hx Hr He. destruct x as [[[e sg] ds]|]; cbn [exp_text app].
  - destruct Hx as (Hc & Hsg & Hne & Hd). cbn [scan_exp].
    assert (bool_decide (e = "e"%byte) || bool_decide (e = "E"%byte) = true) as -> by (destruct Hc as [-> | ->]; done).
    set (t := match _ with [] => _ | _ => _ end). assert (t = ds ++ rest) as ->; [|rewrite some_digits_complete by done; done].
    subst t. destruct ds as [|d ds]; [done|]. destruct Hsg as [->|[->| ->]]; [|done|done]. cbn [app].
    apply Forall_inv, isDigit_spec in Hd. assert (b2z "+"%byte = 43) by done. assert (b2z "-"%byte = 45) by done.
    rewrite !bool_decide_false by (intros ->; lia). done.
  - destruct rest as [|c rest]; [done|]. cbn [scan_exp]. destruct (He eq_refl c rest eq_refl).
    rewrite (bool_decide_false (c = "e"%byte)), (bool_decide_false (c = "E"%byte)) by done. by rewrite bool_decide_true.
Qed.

Lemma scan_number_sound s f rest :
  scan_number s = Some (f, rest) -> exists l, number_ok l /\ s = number_text l ++ rest /\ floating l = f.
Proof.
  unfold scan_number. destruct (minus_sign s) as [neg t0] eqn:Em.
  assert (s = (if neg then ["-"%byte] else []) ++ t0) as ->.
  { unfold minus_sign in Em. destruct s as [|c s]; [by injection Em as <- <-|]. case_bool_decide; injection Em as <- <-; by subst. }
  destruct (scan_int t0) as [t1|] eqn:E1; [|done]. cbn [mbind option_bind].
  destruct (scan_frac t1) as [[f1 t2]|] eqn:E2; [|done]. cbn [mbind option_bind].
  destruct (scan_exp t2) as [[f2 t3]|] eqn:E3; [|done]. intros [= <- <-].
  destruct (scan_int_sound _ _ E1) as (ds & -> & Hds & _). destruct (scan_frac_sound _ _ _ E2) as (fr & -> & Hfr & -> & _).
  destruct (scan_exp_sound _ _ _ E3) as (x & -> & Hx & ->). exists (mkLit neg ds fr x).
  split; [done|]. split; [unfold number_text; cbn; by rewrite <- !app_assoc|]. unfold floating; cbn. by rewrite negb_andb.
Qed.

Lemma scan_number_complete l rest :
  number_ok l -> number_stops rest -> scan_number (number_text l ++ rest) = Some (floating l, rest).
Proof.
  destruct l as [neg ds fr x]. intros (Hi & Hf & Hx) Hr. unfold scan_number, number_text, floating. cbn [n_neg n_int n_frac n_exp] in *.
  assert (no_digit rest) as Hnr by (destruct rest as [|c rest]; [done|]; cbn in *; tauto).
  assert (no_digit (exp_text x ++ rest)) as Hnx.
  { destruct x as [[[e sg] es]|]; [|done]. by destruct Hx as [[-> | ->] _]. }
  rewrite <- !app_assoc, minus_sign_lit by done. rewrite scan_int_complete; [cbn [mbind option_bind]|done|by destruct fr].
  rewrite scan_frac_complete; [cbn [mbind option_bind]|done|done|].
  - rewrite scan_exp_complete; [cbn [mbind option_bind]; by rewrite negb_andb|done|done|].
    intros -> c t ->. cbn in Hr. tauto.
  - intros -> c t E. destruct x as [[[e sg] es]|]; cbn in E.
    + injection E as -> _. by destruct Hx as [[-> | ->] _].
    + subst rest. cbn in Hr. tauto.
Qed.

Lemma decimal_to_double_finite neg ds e d : decimal_to_double neg ds e = Some d -> isfinite d = true.
Proof.
  unfold decimal_to_double. destruct (_ =? 0); [by intros [= <-]|]. destruct (strip _ _ _) as [m x]. unfold round_decimal.
  destruct (if 0 <=? x then _ else _); [done|]. unfold round_ratio. cbv zeta. destruct (if _ =? _ then _ else _) as [p y].
  destruct p; [done| |done]. by destruct (y <=? 971); intros [= <-].
Qed.

Lemma convert_double_lit l rest :
  number_ok l ->
  convert_double (number_text l) rest = match double_value l with Some d => Ok (JNumber d) rest | None => Reject end.
Proof.
  intros Hl. unfold convert_double. rewrite from_chars_double_lit by done.
  destruct (double_value l) as [d|] eqn:E; [|done]. by rewrite (decimal_to_double_finite _ _ _ _ E).
Qed.

(** [parseNumber] in terms of the literal it scans. *)
Lemma parseNumber_lit l rest s :
  number_ok l -> s = number_text l ++ rest -> scan_number s = Some (floating l, rest) ->
  parseNumber s = match number_denotes l with Some v => Ok v rest | None => Reject end.
Proof.
  intros Hl -> E. unfold parseNumber. rewrite E.
  replace (length (number_text l ++ rest) - length rest)%nat with (length (number_text l)) by (rewrite length_app; lia).
  rewrite take_app_length. unfold number_denotes. rewrite convert_double_lit by done.
  destruct (floating l) eqn:Hf; cbn [negb andb]; [by destruct (double_value l)|].
  rewrite from_chars_i64_lit by done. destruct (_ && _); [done|]. by destruct (double_value l).
Qed.

Lemma parseNumber_sound s v rest : parseNumber s = Ok v rest -> exists t, s = t ++ rest /\ jnumber v t.
Proof.
  intros H. destruct (scan_number s) as [[f r]|] eqn:E; [|unfold parseNumber in H; by rewrite E in H].
  destruct (scan_number_sound _ _ _ E) as (l & Hl & Es & <-). rewrite (parseNumber_lit l r s Hl Es E) in H.
  destruct (number_denotes l) as [v'|] eqn:Ed; [|done]. injection H as <- <-. exists (number_text l). split; [done|]. by exists l.
Qed.

Lemma parseNumber_complete v t rest : jnumber v t -> follow rest -> parseNumber (t ++ rest) = Ok v rest.
Proof.
  intros (l & Hl & -> & Hd) Hr. rewrite (parseNumber_lit l rest _ Hl eq_refl), Hd; [done|].
  apply scan_number_complete; [done|by apply follow_stops].
Qed.

Lemma parseNumber_total s : parseNumber s <> OutOfFuel.
Proof.
  unfold parseNumber, convert_double. destruct (scan_number s) as [[f r]|]; [|done].
  repeat case_match; done.
Qed.

(** ** Strings *)

Lemma hex_value_digit c v : hex_value c v <-> 0 <= v /\ hexDigit c = v.
Proof.
  assert (forall n, str "0123456789abcdef" !! n = Some c \/ str "0123456789ABCDEF" !! n = Some c -> hexDigit c = Z.of_nat n) as H1.
  { intros n. do 16 (destruct n as [|n]; [by intros [[= <-]|[= <-]]|]). by intros [?|?]. }
  split; [intros [Hv H%H1]; lia|]. intros [Hv <-]. split; [done|]. clear H1. revert Hv.
  destruct c; vm_compute; intros Hv; solve [by destruct Hv | by left | by right].
Qed.

Lemma escapes_simple e c : (e, c) ∈ escapes <-> simple_escape e = Some c.
Proof.
  unfold escapes, simple_escape. rewrite !elem_of_cons, elem_of_nil. split.
  - intros H. destruct_or? H; try done; injection H as -> ->; reflexivity.
  - repeat (case_bool_decide; [intros [= <-]; subst; tauto|]). done.
Qed.

Lemma hexDigit_range c : hexDigit c < 16.
Proof. unfold hexDigit. zbool; lia. Qed.

Lemma hex_value_range c v : hex_value c v -> 0 <= v < 16.
Proof. intros [? <-]%hex_value_digit. pose proof (hexDigit_range c). lia. Qed.

Lemma hex_step v d : 0 <= v < 2 ^ 24 -> 0 <= d < 16 -> Z.lor (u32 (Z.shiftl v 4)) d = v * 16 + d.
Proof. intros. rewrite u32_small; rewrite Z.shiftl_mul_pow2 by lia; [|lia]. apply (lor_field v 4); lia. Qed.

Lemma readHex4_spec s cp rest : readHex4 s = Some (cp, rest) <-> exists h, s = h ++ rest /\ hex4 h cp.
Proof.
  split.
  - unfold readHex4. destruct (Z.ltb_spec (len s) 4); [done|].
    destruct s as [|h1 [|h2 [|h3 [|h4 s]]]]; try solve_len. cbn [hex_loop].
    pose proof (hexDigit_range h1). pose proof (hexDigit_range h2). pose proof (hexDigit_range h3). pose proof (hexDigit_range h4).
    destruct (Z.ltb_spec (hexDigit h1) 0); [done|]. destruct (Z.ltb_spec (hexDigit h2) 0); [done|].
    destruct (Z.ltb_spec (hexDigit h3) 0); [done|]. destruct (Z.ltb_spec (hexDigit h4) 0); [done|].
    rewrite (hex_step 0 (hexDigit h1)) by lia. rewrite (hex_step _ (hexDigit h2)) by lia.
    rewrite (hex_step _ (hexDigit h3)) by lia. rewrite (hex_step _ (hexDigit h4)) by lia. intros [= <- <-]. exists [h1; h2; h3; h4]. split; [done|].
    exists h1, h2, h3, h4, (hexDigit h1), (hexDigit h2), (hexDigit h3), (hexDigit h4).
    split_and!; try (by apply hex_value_digit); [done|lia].
  - intros (h & -> & h1 & h2 & h3 & h4 & v1 & v2 & v3 & v4 & -> & H1 & H2 & H3 & H4 & ->). unfold readHex4.
    apply hex_value_digit in H1 as [? <-], H2 as [? <-], H3 as [? <-], H4 as [? <-].
    pose proof (hexDigit_range h1). pose proof (hexDigit_range h2). pose proof (hexDigit_range h3). pose proof (hexDigit_range h4).
    destruct (Z.ltb_spec (len ([h1; h2; h3; h4] ++ rest)) 4) as [Hl|_]; [pose proof (len_nonneg rest); solve_len|].
    cbn [app hex_loop]. rewrite !(proj2 (Z.ltb_ge _ 0)) by lia. rewrite (hex_step 0 (hexDigit h1)) by lia. rewrite (hex_step _ (hexDigit h2)) by lia.
    rewrite (hex_step _ (hexDigit h3)) by lia. rewrite (hex_step _ (hexDigit h4)) by lia.
    f_equal. f_equal. lia.
Qed.

Lemma surrogates hi lo :
  0xD800 <= hi <= 0xDBFF -> 0xDC00 <= lo <= 0xDFFF ->
  u32 (0x10000 + Z.shiftl (hi - 0xD800) 10 + (lo - 0xDC00)) = 0x10000 + (hi - 0xD800) * 1024 + (lo - 0xDC00).
Proof. intros. rewrite Z.shiftl_mul_pow2 by lia. rewrite u32_small; lia. Qed.

Lemma hex4_range h cp : hex4 h cp -> 0 <= cp < 0x10000.
Proof.
  intros (h1 & h2 & h3 & h4 & v1 & v2 & v3 & v4 & -> & H1%hex_value_range & H2%hex_value_range & H3%hex_value_range &
    H4%hex_value_range & ->). lia.
Qed.

Lemma parseEscape_sound s t rest :
  parseEscape s = Some (t, rest) ->
  exists e, s = e ++ rest /\ e <> [] /\ forall s' t', jchars s' t' -> jchars ("\"%byte :: e ++ s') (t ++ t').
Proof.
  destruct s as [|e s]; [done|]. cbn [parseEscape]. destruct (simple_escape e) as [c|] eqn:Ee.
  { intros [= <- <-]. exists [e]. split_and!; try done. intros s' t' H. by apply chars_escape; [apply escapes_simple|]. }
  case_bool_decide as Hu; [subst e|done]. unfold parseUnicodeEscape.
  destruct (readHex4 s) as [[cp s1]|] eqn:E1; [|done]. cbn [mbind option_bind].
  apply readHex4_spec in E1 as (h & -> & Hh). pose proof (hex4_range _ _ Hh).
  destruct (_ && _) eqn:Hhi.
  - destruct s1 as [|b [|u s2]]; [done..|]. destruct (bool_decide (b = _) && bool_decide (u = _)) eqn:Hbu; [|done].
    apply andb_prop in Hbu as [->%bool_decide_eq_true ->%bool_decide_eq_true].
    destruct (readHex4 s2) as [[lo s3]|] eqn:E2; [|done]. cbn [mbind option_bind].
    apply readHex4_spec in E2 as (h' & -> & Hh'). destruct (_ || _) eqn:Hlo; [done|]. intros [= <- <-].
    apply andb_prop in Hhi as [?%Z.leb_le ?%Z.leb_le]. apply orb_false_iff in Hlo as [?%Z.ltb_ge ?%Z.ltb_ge].
    rewrite surrogates, appendUtf8_utf8 by lia. exists ("u"%byte :: h ++ "\"%byte :: "u"%byte :: h').
    split; [cbn; by rewrite <- app_assoc|]. split; [done|]. intros s' t' H'.
    assert (("\"%byte :: ("u"%byte :: h ++ "\"%byte :: "u"%byte :: h') ++ s') =
            "\"%byte :: "u"%byte :: h ++ "\"%byte :: "u"%byte :: h' ++ s') as -> by (cbn; by rewrite <- app_assoc).
    by apply chars_pair.
  - destruct ((0xDC00 <=? cp) && (cp <=? 0xDFFF)) eqn:Hlo; [done|]. rewrite appendUtf8_utf8 by lia. intros [= <- <-]. exists ("u"%byte :: h). split_and!; try done.
    intros s' t' H'. apply (chars_unicode h cp s' t' Hh); [|done].
    rewrite !andb_false_iff, !Z.leb_gt in *. lia.
Qed.

Lemma string_loop_sound fuel s text r rest :
  string_loop fuel s text = Ok r rest ->
  exists body t, s = body ++ x22 :: rest /\ jchars body t /\ r = text ++ t /\ isValidUtf8 r = true.
Proof.
  revert s text. induction fuel as [|fuel IH]; intros [|c s] text; cbn [string_loop]; try done.
  case_bool_decide as Hq.
  - destruct (isValidUtf8 text) eqn:Hv; [|done]. intros [= <- <-]. subst c. exists [], []. rewrite app_nil_r.
    split_and!; try done. constructor.
  - case_bool_decide as Hb.
    + destruct (parseEscape s) as [[t s1]|] eqn:E; [|done]. intros H. subst c.
      destruct (parseEscape_sound _ _ _ E) as (e & -> & _ & Hj). destruct (IH _ _ H) as (body & t' & -> & Hc & -> & Hv).
      exists ("\"%byte :: e ++ body), (t ++ t'). split_and!; [cbn; by rewrite <- app_assoc|by apply Hj|by rewrite app_assoc|done].
    + destruct (Z.ltb_spec (b2z c) 0x20); [done|]. intros H'. destruct (IH _ _ H') as (body & t & -> & Hc & -> & Hv).
      exists (c :: body), (c :: t). split_and!; [done|by apply chars_plain|by rewrite <- app_assoc|done].
Qed.

Lemma string_loop_complete body t fuel text rest :
  jchars body t -> isValidUtf8 (text ++ t) = true -> (length body < fuel)%nat ->
  string_loop fuel (body ++ x22 :: rest) text = Ok (text ++ t) rest.
Proof.
  intros H. revert fuel text.
  induction H as [|c s t (Hc & Hq & Hb) _ IH|e c s t He _ IH|h cp s t Hh Hs _ IH|h hi l lo s t Hh Hl Hhi Hlo _ IH];
    intros fuel text Hv Hf; (destruct fuel as [|fuel]; [cbn in Hf; lia|]); cbn [app string_loop].
  - rewrite bool_decide_true by done. rewrite app_nil_r in *. by rewrite Hv.
  - rewrite (bool_decide_false (c = x22)), (bool_decide_false (c = "\"%byte)) by done.
    destruct (Z.ltb_spec (b2z c) 0x20); [lia|]. rewrite IH; [by rewrite <- app_assoc|by rewrite <- app_assoc|cbn in Hf; lia].
  - rewrite bool_decide_false, bool_decide_true by done. cbn [parseEscape]. apply escapes_simple in He. rewrite He.
    rewrite IH; [by rewrite <- app_assoc|by rewrite <- app_assoc|cbn in Hf; lia].
  - rewrite bool_decide_false, bool_decide_true by done. cbn [parseEscape]. change (simple_escape "u"%byte) with (@None byte).
    cbn [parseEscape]. rewrite bool_decide_true by done. unfold parseUnicodeEscape.
    rewrite (proj2 (readHex4_spec _ cp (s ++ x22 :: rest))) by (exists h; by rewrite <- app_assoc). cbn [mbind option_bind].
    assert ((0xD800 <=? cp) && (cp <=? 0xDBFF) = false) as -> by (rewrite andb_false_iff, !Z.leb_gt; lia).
    assert ((0xDC00 <=? cp) && (cp <=? 0xDFFF) = false) as -> by (rewrite andb_false_iff, !Z.leb_gt; lia).
    rewrite appendUtf8_utf8 by (pose proof (hex4_range _ _ Hh); lia). rewrite IH; [by rewrite <- app_assoc|by rewrite <- app_assoc|cbn in Hf; rewrite length_app in Hf; lia].
  - rewrite bool_decide_false, bool_decide_true by done. cbn [parseEscape]. change (simple_escape "u"%byte) with (@None byte).
    cbn [parseEscape]. rewrite bool_decide_true by done. unfold parseUnicodeEscape.
    rewrite (proj2 (readHex4_spec _ hi ("\"%byte :: "u"%byte :: l ++ s ++ x22 :: rest)))
      by (exists h; split; [by rewrite <- !app_assoc; cbn; rewrite <- app_assoc|done]). cbn [mbind option_bind].
    rewrite !(proj2 (Z.leb_le _ _)) by lia. cbn [andb]. rewrite !bool_decide_true by done. cbn [andb].
    rewrite (proj2 (readHex4_spec _ lo (s ++ x22 :: rest))) by (by exists l). cbn [mbind option_bind].
    rewrite !(proj2 (Z.ltb_ge _ _)) by lia. cbn [orb]. rewrite surrogates by done. rewrite appendUtf8_utf8 by lia.
    rewrite IH; [by rewrite <- app_assoc|by rewrite <- app_assoc|].
    cbn in Hf. rewrite length_app in Hf. cbn in Hf. rewrite length_app in Hf. lia.
Qed.

Lemma string_loop_total fuel s text : (length s <= fuel)%nat -> string_loop fuel s text <> OutOfFuel.
Proof.
  revert s text. induction fuel as [|fuel IH]; intros [|c s] text Hf; cbn [string_loop]; try done; [cbn in Hf; lia|].
  cbn in Hf. destruct (bool_decide (c = x22)); [by destruct (isValidUtf8 text)|].
  destruct (bool_decide (c = "\"%byte)).
  - destruct (parseEscape s) as [[t s1]|] eqn:E; [|done]. apply IH.
    destruct (parseEscape_sound _ _ _ E) as (e & -> & _ & _). rewrite length_app in Hf. lia.
  - destruct (b2z c <? 0x20); [done|]. apply IH. lia.
Qed.

Lemma parseString_sound s t rest : parseString s = Ok t rest -> exists k, s = k ++ rest /\ jstring t k.
Proof.
  destruct s as [|c s]; [done|]. cbn [parseString]. case_bool_decide as Hc; [|done]. intros H.
  destruct (string_loop_sound _ _ _ _ _ H) as (body & t' & -> & Hj & -> & Hv). subst c.
  exists (x22 :: body ++ [x22]). split; [cbn; by rewrite <- app_assoc|]. by exists body.
Qed.

Lemma parseString_complete t k rest : jstring t k -> parseString (k ++ rest) = Ok t rest.
Proof.
  intros (body & -> & Hj & Hv). cbn [app parseString]. rewrite bool_decide_true by done. rewrite <- app_assoc. cbn [app].
  apply (string_loop_complete body t _ [] rest Hj Hv). rewrite length_app. cbn. lia.
Qed.

Lemma parseString_total s : parseString s <> OutOfFuel.
Proof. destruct s as [|c s]; [done|]. cbn [parseString]. case_bool_decide; [|done]. by apply string_loop_total. Qed.

(** ** Containers *)

Lemma jlist_and {A} (P : A -> bytes -> Prop) (Q : A -> Prop) l s :
  jlist (fun v t => P v t /\ Q v) l s <-> jlist P l s /\ Forall Q l.
Proof.
  revert s. induction l as [|v l IH]; intros s; [by split; [|intros [? _]]|]. rewrite Forall_cons. split.
  - intros (w1 & t & w2 & H1 & [HP HQ] & H2 & Hl). destruct l as [|v' l].
    + split; [|done]. exists w1, t, w2. done.
    + destruct Hl as (rest & -> & [Hl HF]%IH). split; [|done]. exists w1, t, w2. split_and!; try done. by exists rest.
  - intros [(w1 & t & w2 & H1 & HP & H2 & Hl) [HQ HF]]. exists w1, t, w2. split_and!; try done.
    destruct l as [|v' l]; [done|]. destruct Hl as (rest & -> & Hl). exists rest. split; [done|]. by apply IH.
Qed.

Lemma value_head_app s s' : value_head s -> no_ws (s ++ s').
Proof. destruct s; [done|]. by intros [? _]. Qed.

Section items_correct.
Context {A : Type} (parseItem : bytes -> res A) (R : A -> bytes -> Prop) (close : byte).
Hypothesis close_ok : close = "]"%byte \/ close = "}"%byte.
Hypothesis item_head : forall a t, R a t -> value_head t.
Hypothesis item_sound : forall s a rest, parseItem s = Ok a rest -> exists t, s = t ++ rest /\ R a t.

Lemma close_not_ws : is_ws close = false /\ close <> ","%byte.
Proof. destruct close_ok as [-> | ->]; done. Qed.

Lemma items_loop_sound fuel s items l rest :
  items_loop parseItem close fuel s items = Ok l rest ->
  exists l' body, l = items ++ l' /\ s = body ++ close :: rest /\ jlist R l' body.
Proof.
  revert s items. induction fuel as [|fuel IH]; intros s items; cbn [items_loop]; [done|].
  destruct (skip_split s) as (w1 & E1 & Hw1 & _). destruct (parseItem (skipWhitespace s)) as [a s2| |] eqn:Ei; try done.
  cbn [rbind]. destruct (item_sound _ _ _ Ei) as (t & Et & Ht). rewrite Et in E1.
  destruct (skip_split s2) as (w2 & E2 & Hw2 & _). destruct (skipWhitespace s2) as [|c s3]; [done|]. subst s2.
  case_bool_decide as Hc; [|case_bool_decide as Hc'; [|done]].
  - intros H. subst c. destruct (IH _ _ H) as (l' & body & -> & -> & Hl).
    exists (a :: l'), (w1 ++ t ++ w2 ++ ","%byte :: body). split; [by rewrite <- app_assoc|].
    split; [rewrite E1; by rewrite <- !app_assoc|]. exists w1, t, w2. split_and!; try done.
    destruct l' as [|x l']; [done|]. by exists body.
  - intros [= <- <-]. subst c. exists [a], (w1 ++ t ++ w2). split; [done|].
    split; [rewrite E1; by rewrite <- !app_assoc|]. exists w1, t, w2. split_and!; done.
Qed.

Hypothesis item_complete : forall a t rest, R a t -> follow rest -> parseItem (t ++ rest) = Ok a rest.

Lemma items_loop_complete l fuel body rest items :
  jlist R l body -> (length l <= fuel)%nat ->
  items_loop parseItem close fuel (body ++ close :: rest) items = Ok (items ++ l) rest.
Proof.
  destruct close_not_ws as [Hcw Hcc]. revert fuel body items. induction l as [|a l IH]; intros fuel body items H Hf; [done|].
  destruct fuel as [|fuel]; [cbn in Hf; lia|]. cbn [items_loop].
  destruct H as (w1 & t & w2 & Hw1 & Ht & Hw2 & Hl). destruct l as [|a' l].
  - subst body. rewrite <- !app_assoc, skip_app by (done || by apply value_head_app, (item_head a)).
    rewrite (item_complete a t); [|done|apply follow_ws; [done|tauto]]. cbn [rbind]. rewrite skip_app by done.
    rewrite bool_decide_false, bool_decide_true by done. done.
  - destruct Hl as (body' & -> & Hl). rewrite <- !app_assoc, skip_app by (done || by apply value_head_app, (item_head a)).
    rewrite (item_complete a t); [|done|apply follow_ws; auto]. cbn [rbind app]. rewrite skip_app by done.
    rewrite bool_decide_true by done. rewrite IH; [by rewrite <- app_assoc|done|cbn in *; lia].
Qed.

Hypothesis item_total : forall s, parseItem s <> OutOfFuel.

Lemma items_loop_total fuel s items : (length s < fuel)%nat -> items_loop parseItem close fuel s items <> OutOfFuel.
Proof.
  revert s items. induction fuel as [|fuel IH]; intros s items Hf; [lia|]. cbn [items_loop].
  destruct (skip_split s) as (w1 & E1 & _ & _). destruct (parseItem (skipWhitespace s)) as [a s2| |] eqn:Ei; try done;
    [|by apply item_total in Ei].
  cbn [rbind]. destruct (item_sound _ _ _ Ei) as (t & Et & _). destruct (skip_split s2) as (w2 & E2 & _ & _).
  destruct (skipWhitespace s2) as [|c s3]; [done|]. destruct (bool_decide (c = ","%byte)); [|by case_bool_decide]. apply IH.
  apply (f_equal length) in E1, Et, E2. rewrite !length_app in *. cbn in *. lia.
Qed.

Lemma jlist_length l body : jlist R l body -> (length l <= length body)%nat.
Proof.
  revert body. induction l as [|a l IH]; intros body H; [cbn; lia|]. destruct H as (w1 & t & w2 & _ & Ht & _ & Hl).
  assert (1 <= length t)%nat by (apply item_head in Ht; destruct t; [done|cbn; lia]). destruct l as [|a' l].
  - subst body. rewrite !length_app. cbn. lia.
  - destruct Hl as (body' & -> & Hl). apply IH in Hl. rewrite !length_app. cbn in *. lia.
Qed.

(** The three facts about a container. *)
Lemma container_sound mk depth maxDepth o s v rest :
  head s = Some o -> parse_container parseItem close mk depth maxDepth s = Ok v rest ->
  depth < maxDepth /\ exists l body, v = mk l /\ s = o :: body ++ close :: rest /\ jbody R l body.
Proof.
  intros Ho. destruct s as [|o' s]; [done|]. injection Ho as ->. unfold parse_container. cbn [tail].
  destruct (Z.leb_spec maxDepth depth); [done|]. destruct (skip_split s) as (w & E & Hw & _). revert E. generalize (skipWhitespace s). intros s1 E.
  assert (rbind (items_loop parseItem close (S (length s1)) s1 []) (fun items s => Ok (mk items) s) = Ok v rest ->
    depth < maxDepth /\ exists l body, v = mk l /\ o :: s = o :: body ++ close :: rest /\ jbody R l body) as Hloop.
  { intros H'. destruct (items_loop _ _ _ _ _) as [l r| |] eqn:El; try done. cbn in H'. injection H' as <- <-.
    destruct (items_loop_sound _ _ _ _ _ El) as (l' & body & -> & Eb & Hl). split; [done|]. exists l', (w ++ body).
    split; [done|]. split; [rewrite E, Eb; by rewrite <- app_assoc|]. destruct l' as [|a l']; [done|].
    destruct Hl as (w1 & t & w2 & Hw1 & Ht & Hw2 & Hl). exists (w ++ w1), t, w2. split; [by apply Forall_app|].
    split_and!; try done. destruct l'; [by subst; rewrite <- !app_assoc|].
    destruct Hl as (r' & -> & ?). exists r'. by rewrite <- !app_assoc. }
  destruct s1 as [|c s2]; [exact Hloop|]. case_bool_decide as Hc; [|exact Hloop]. intros [= <- <-]. subst c.
  split; [done|]. exists [], w. split; [done|]. split; [by rewrite E|done].
Qed.

Lemma jlist_trim l body :
  l <> [] -> jlist R l body -> exists w body', body = w ++ body' /\ ws w /\ value_head body' /\ jlist R l body'.
Proof.
  intros Hne H. destruct l as [|a l]; [done|]. destruct H as (w1 & t & w2 & Hw1 & Ht & Hw2 & Hl).
  pose proof (item_head _ _ Ht) as Hh. assert (forall s, value_head (t ++ s)) as Hh' by (intros s; by destruct t).
  destruct l as [|a' l].
  - subst body. exists w1, (t ++ w2). split_and!; try done. exists [], t, w2. split_and!; auto.
  - destruct Hl as (r & -> & Hl). exists w1, (t ++ w2 ++ ","%byte :: r). split_and!; try done.
    exists [], t, w2. split_and!; auto. by exists r.
Qed.

Lemma container_complete mk depth maxDepth o l body rest :
  depth < maxDepth -> jbody R l body ->
  parse_container parseItem close mk depth maxDepth (o :: body ++ close :: rest) = Ok (mk l) rest.
Proof.
  intros Hd Hb. destruct close_not_ws as [Hcw Hcc]. unfold parse_container. cbn [tail].
  destruct (Z.leb_spec maxDepth depth); [lia|]. destruct l as [|a l].
  - rewrite skip_app by done. by rewrite bool_decide_true.
  - destruct (jlist_trim (a :: l) body) as (w & body' & -> & Hw & Hh & Hl); [done|done|].
    rewrite <- app_assoc, skip_app by (done || by apply value_head_app).
    pose proof (jlist_length _ _ Hl) as Hlen. rewrite (items_loop_complete (a :: l)); [|done|rewrite length_app; lia].
    destruct body' as [|c body']; [done|]. cbn [app]. rewrite bool_decide_false; [done|].
    destruct Hh as (_ & ? & ?). destruct close_ok; congruence.
Qed.

Lemma container_total mk depth maxDepth s : parse_container parseItem close mk depth maxDepth s <> OutOfFuel.
Proof.
  unfold parse_container. destruct (maxDepth <=? depth); [done|]. set (s1 := skipWhitespace _).
  assert (rbind (items_loop parseItem close (S (length s1)) s1 []) (fun items s => Ok (mk items) s) <> OutOfFuel) as Hl.
  { destruct (items_loop _ _ _ _ _) eqn:El; try done. apply items_loop_total in El; [done|lia]. }
  destruct s1; [exact Hl|]. by case_bool_decide.
Qed.
End items_correct.

(** ** Members *)

Lemma jstring_head t s : jstring t s -> value_head s.
Proof. by intros (body & -> & _). Qed.

Section members.
Variable parseElement : bytes -> res JsonValue.
Variable R : JsonValue -> bytes -> Prop.
Hypothesis element_head : forall v t, R v t -> value_head t.
Hypothesis element_sound : forall s v rest, parseElement s = Ok v rest -> exists t, s = t ++ rest /\ R v t.

Lemma member_sound s kv rest : parseMember parseElement s = Ok kv rest -> exists t, s = t ++ rest /\ jmember R kv t.
Proof.
  unfold parseMember. destruct (parseString s) as [k s1| |] eqn:Ek; try done. cbn [rbind].
  destruct (parseString_sound _ _ _ Ek) as (tk & -> & Hk). destruct (skip_split s1) as (w1 & E1 & Hw1 & _).
  destruct (skipWhitespace s1) as [|c s2]; [done|]. case_bool_decide as Hc; [subst c|done].
  destruct (skip_split s2) as (w2 & E2 & Hw2 & _). destruct (parseElement (skipWhitespace s2)) as [v s3| |] eqn:Ev; try done.
  cbn [rbind]. intros [= <- <-]. destruct (element_sound _ _ _ Ev) as (tv & Et & Hv).
  exists (tk ++ w1 ++ ":"%byte :: w2 ++ tv). split.
  - rewrite E1, E2, Et. by rewrite <- !app_assoc, <- app_comm_cons, <- app_assoc.
  - exists tk, w1, w2, tv. done.
Qed.

Lemma member_complete kv t rest :
  (forall v t rest, R v t -> follow rest -> parseElement (t ++ rest) = Ok v rest) ->
  jmember R kv t -> follow rest -> parseMember parseElement (t ++ rest) = Ok kv rest.
Proof.
  intros element_complete (k & w1 & w2 & tv & Hk & Hw1 & Hw2 & Hv & ->) Hf. unfold parseMember.
  rewrite <- app_assoc, (parseString_complete _ _ _ Hk). cbn [rbind]. rewrite <- app_assoc, skip_app by done. cbn [app].
  rewrite bool_decide_true by done. rewrite <- app_assoc, skip_app by (done || by apply value_head_app, (element_head kv.2)).
  rewrite (element_complete kv.2 tv) by done. cbn [rbind]. by destruct kv.
Qed.

Lemma member_total s : (forall s, parseElement s <> OutOfFuel) -> parseMember parseElement s <> OutOfFuel.
Proof.
  intros Ht. unfold parseMember. destruct (parseString s) eqn:Ek; cbn [rbind]; try done; [|by apply parseString_total in Ek].
  destruct (skipWhitespace _) as [|c s2]; [done|]. case_bool_decide; [|done].
  destruct (parseElement _) eqn:Ev; try done. by apply Ht in Ev.
Qed.
End members.

Lemma jmember_head R kv t : jmember R kv t -> value_head t.
Proof. intros (k & w1 & w2 & tv & Hk & _ & _ & _ & ->). apply jstring_head in Hk. by destruct k. Qed.

(** ** Values *)

Lemma jnumber_head v t : jnumber v t -> exists c t', t = c :: t' /\ (c = "-"%byte \/ isDigit c = true).
Proof.
  intros (l & (Hi & _) & -> & _). unfold number_text. destruct (n_neg l); [by eexists _, _; split; [|left]|].
  destruct (int_ok_cons _ Hi) as (d & ds & -> & Hd & _). eexists _, _. split; [done|]. right. by apply isDigit_spec.
Qed.

(** A property of the characters that start a number. *)
Lemma number_char (P : byte -> Prop) c :
  (c = "-"%byte \/ isDigit c = true) -> P "-"%byte -> (forall k, (k < 10)%nat -> P (digit (Z.of_nat k))) -> P c.
Proof.
  intros [->|H] Hm Hd; [done|]. apply isDigit_spec in H. replace c with (digit (Z.of_nat (Z.to_nat (b2z c - 48)))).
  - apply Hd. lia.
  - rewrite Z2Nat.id by lia. unfold digit. replace (48 + (b2z c - 48)) with (b2z c) by lia. apply z2b_b2z.
Qed.

Lemma jvalue_head v t : jvalue v t -> value_head t.
Proof.
  assert (forall c s, c = "-"%byte \/ isDigit c = true -> value_head (c :: s)) as Hnum.
  { intros c s Hc. apply (number_char (fun c => value_head (c :: s)) c Hc); [done|]. intros k Hk.
    do 10 (destruct k as [|k]; [done|]). lia. }
  destruct v; cbn [jvalue].
  - by intros ->.
  - intros ->. by destruct b.
  - intros H. destruct (jnumber_head _ _ H) as (c & t' & -> & Hc). by apply Hnum.
  - intros H. destruct (jnumber_head _ _ H) as (c & t' & -> & Hc). by apply Hnum.
  - apply jstring_head.
  - by intros (body & -> & _).
  - by intros (body & -> & _).
Qed.

Lemma literal_sound text v s v' rest : literal text v s = Ok v' rest -> v' = v /\ s = text ++ rest.
Proof.
  unfold literal, consume. case_bool_decide as H; [|done]. intros [= <- <-]. split; [done|].
  rewrite <- H at 1. by rewrite take_drop.
Qed.

Lemma literal_complete text v rest : literal text v (text ++ rest) = Ok v rest.
Proof. unfold literal, consume. by rewrite take_app_length, bool_decide_true, drop_app_length. Qed.

Lemma literal_total text v s : literal text v s <> OutOfFuel.
Proof. unfold literal. by destruct (consume text s). Qed.

(** The elements of a container at [depth]. *)
Definition inner (maxDepth depth : Z) (v : JsonValue) (t : bytes) : Prop := jvalue v t /\ fits (depth + 1) maxDepth v.

Lemma jbody_and {A} (P : A -> bytes -> Prop) (Q : A -> Prop) l s :
  jbody (fun v t => P v t /\ Q v) l s <-> jbody P l s /\ Forall Q l.
Proof. destruct l; [by split; [|intros [? _]]|]. apply jlist_and. Qed.

Lemma jmember_inner maxDepth depth kv t :
  jmember (inner maxDepth depth) kv t <-> jmember jvalue kv t /\ fits (depth + 1) maxDepth kv.2.
Proof.
  unfold jmember, inner. split.
  - intros (k & w1 & w2 & tv & ? & ? & ? & [? ?] & ->). split; [|done]. by exists k, w1, w2, tv.
  - intros [(k & w1 & w2 & tv & ? & ? & ? & ? & ->) ?]. by exists k, w1, w2, tv.
Qed.

Lemma jlist_mono {A} (P Q : A -> bytes -> Prop) l s : (forall a t, P a t -> Q a t) -> jlist P l s -> jlist Q l s.
Proof.
  intros E. revert s. induction l as [|a l IH]; intros s; [done|]. intros (w1 & t & w2 & ? & ? & ? & Hl).
  exists w1, t, w2. split_and!; auto. destruct l; [done|]. destruct Hl as (r & -> & Hl). exists r. auto.
Qed.

Lemma jbody_members maxDepth depth l s :
  jbody (jmember (inner maxDepth depth)) l s <->
  jbody (jmember jvalue) l s /\ Forall (fun kv : bytes * JsonValue => fits (depth + 1) maxDepth kv.2) l.
Proof.
  rewrite <- jbody_and. destruct l; [done|]. split; apply jlist_mono; intros; by apply jmember_inner.
Qed.

Lemma parseValue_sound stack maxDepth depth s v rest :
  parseValue stack maxDepth depth s = Ok v rest -> exists t, s = t ++ rest /\ jvalue v t /\ fits depth maxDepth v.
Proof.
  revert depth s v rest. induction stack as [|stack IH]; intros depth s v rest; [done|]. cbn [parseValue].
  destruct s as [|c s]; [done|]. assert (forall v, nesting v = O -> fits depth maxDepth v) as H0 by (intros; by left).
  assert (forall s v rest, parseValue stack maxDepth (depth + 1) s = Ok v rest -> exists t, s = t ++ rest /\ inner maxDepth depth v t) as IH'.
  { intros s' v' rest' H'. destruct (IH _ _ _ _ H') as (t & ? & ?). by exists t. }
  assert (forall text w, nesting w = O -> jvalue w text -> literal text w (c :: s) = Ok v rest ->
    exists t, c :: s = t ++ rest /\ jvalue v t /\ fits depth maxDepth v) as Hlit.
  { intros text w Hw Hj [-> ->]%literal_sound. exists text. auto. }
  case_bool_decide; [by apply Hlit|]. case_bool_decide; [by apply Hlit|]. case_bool_decide; [by apply Hlit|].
  case_bool_decide as Hc; [|case_bool_decide as Ha; [|case_bool_decide as Ho]].
  - destruct (parseString (c :: s)) as [t r| |] eqn:E; try done. cbn [rbind]. intros [= <- <-].
    destruct (parseString_sound _ _ _ E) as (k & -> & Hk). exists k. auto.
  - intros Hp. subst c. apply (container_sound _ (inner maxDepth depth) _ ) with (o := "["%byte) in Hp as (Hd & l & body & -> & E & Hb);
      [|exact IH'|done].
    exists ("["%byte :: body ++ ["]"%byte]). apply jbody_and in Hb as [Hb HF].
    split; [rewrite E; cbn; by rewrite <- app_assoc|]. split; [by exists body|]. by apply fits_array.
  - intros Hp. subst c. apply (container_sound _ (jmember (inner maxDepth depth)) _ ) with (o := "{"%byte) in Hp as (Hd & l & body & -> & E & Hb);
      [|intros s' kv r'; by apply member_sound|done].
    exists ("{"%byte :: body ++ ["}"%byte]). apply jbody_members in Hb as [Hb HF].
    split; [rewrite E; cbn; by rewrite <- app_assoc|]. split; [by exists body|]. by apply fits_object.
  - intros Hp. destruct (parseNumber_sound _ _ _ Hp) as (t & -> & Hn). exists t. split; [done|].
    assert (nesting v = O /\ jvalue v t) as [? ?]; [|auto].
    pose proof Hn as (l & _ & _ & Hd). unfold number_denotes in Hd. destruct (_ && _).
    + by injection Hd as <-.
    + destruct (double_value l); [|done]. by injection Hd as <-.
Qed.

Lemma parseValue_number v t stack maxDepth depth rest :
  jnumber v t -> follow rest -> parseValue (S stack) maxDepth depth (t ++ rest) = Ok v rest.
Proof.
  intros Hn Hf. pose proof (parseNumber_complete v t rest Hn Hf) as Hp.
  destruct (jnumber_head _ _ Hn) as (c & t' & -> & Hc). cbn [app parseValue] in *.
  assert (c <> "n"%byte /\ c <> "t"%byte /\ c <> "f"%byte /\ c <> x22 /\ c <> "["%byte /\ c <> "{"%byte) as (? & ? & ? & ? & ? & ?).
  { apply (number_char (fun c => c <> "n"%byte /\ c <> "t"%byte /\ c <> "f"%byte /\ c <> x22 /\ c <> "["%byte /\ c <> "{"%byte) c Hc);
      [done|]. intros k Hk. do 10 (destruct k as [|k]; [done|]). lia. }
  by do 6 (rewrite bool_decide_false by done).
Qed.

(** A value whose text the parser reads back at any depth that admits it. *)
Definition parses (maxDepth : Z) (v : JsonValue) : Prop :=
  forall t stack depth rest, jvalue v t -> fits depth maxDepth v -> (nesting v < stack)%nat -> follow rest ->
    parseValue stack maxDepth depth (t ++ rest) = Ok v rest.

Lemma nesting_lt {A} (f : A -> JsonValue) l n :
  (max_list_with (fun x => nesting (f x)) l < n)%nat -> Forall (fun x => (nesting (f x) < n)%nat) l.
Proof. induction l as [|x l IH]; intros H; [constructor|]. cbn in H. constructor; [lia|]. apply IH. lia. Qed.

Lemma parseValue_complete maxDepth v : parses maxDepth v.
Proof.
  induction v as [|b|z|d|s|l IH|l IH] using json_ind'; intros t stack depth rest Hv Hd Hs Hf;
    (destruct stack as [|stack]; [lia|]); cbn [jvalue] in Hv.
  - subst t. exact (literal_complete (str "null") JNull rest).
  - subst t. destruct b; [exact (literal_complete (str "true") _ rest)|exact (literal_complete (str "false") _ rest)].
  - by apply parseValue_number.
  - by apply parseValue_number.
  - pose proof (parseString_complete s t rest Hv) as Hp. destruct Hv as (body & -> & _).
    cbn [app parseValue]. rewrite bool_decide_false, bool_decide_false, bool_decide_false, bool_decide_true by done.
    cbn [app] in Hp. by rewrite Hp.
  - destruct Hv as (body & -> & Hb). apply fits_array in Hd as [Hlt Hd]. cbn [app parseValue]. rewrite <- app_assoc. cbn [app].
    do 4 (rewrite bool_decide_false by done). rewrite bool_decide_true by done. cbn [nesting] in Hs.
    apply (container_complete _ (fun v t => jvalue v t /\ (fits (depth + 1) maxDepth v /\ (nesting v < stack)%nat /\ parses maxDepth v)));
      [by left|by intros v t [Hj%jvalue_head _]|by intros v t r (Hj & Hfit & Hn & Hp) Hr; apply Hp|done|].
    apply jbody_and. split; [done|]. rewrite !Forall_and. split_and!; [done| |done].
    apply (nesting_lt (fun v => v)), Nat.succ_lt_mono, Hs.
  - destruct Hv as (body & -> & Hb). apply fits_object in Hd as [Hlt Hd]. cbn [app parseValue]. rewrite <- app_assoc. cbn [app].
    do 5 (rewrite bool_decide_false by done). rewrite bool_decide_true by done. cbn [nesting] in Hs.
    apply (container_complete _ (fun kv t => jmember jvalue kv t /\
      (fits (depth + 1) maxDepth kv.2 /\ (nesting kv.2 < stack)%nat /\ parses maxDepth kv.2)));
      [by right|by intros kv t [Hj%jmember_head _]| |done|].
    + intros kv t r (Hj & Hfit & Hn & Hp) Hr.
      apply (member_complete _ (fun v t => jvalue v t /\ (fits (depth + 1) maxDepth v /\ (nesting v < stack)%nat /\ parses maxDepth v)));
        [by intros v t' [Hj'%jvalue_head _]|by intros v t' r' (? & ? & ? & Hp') ?; apply Hp'| |done].
      destruct Hj as (k & w1 & w2 & tv & ? & ? & ? & ? & ->). by exists k, w1, w2, tv.
    + apply jbody_and. split; [done|]. rewrite !Forall_and. split_and!; [done| |done].
      apply (nesting_lt snd), Nat.succ_lt_mono, Hs.
Qed.

Lemma parse_container_deep {A} (parseItem : bytes -> res A) close mk depth maxDepth s :
  maxDepth <= depth -> parse_container parseItem close mk depth maxDepth s = Reject.
Proof. intros H. unfold parse_container. by rewrite (proj2 (Z.leb_le _ _) H). Qed.

Lemma parseValue_total stack maxDepth depth s :
  (stack <> O) -> maxDepth < depth + Z.of_nat stack -> parseValue stack maxDepth depth s <> OutOfFuel.
Proof.
  revert depth s. induction stack as [|stack IH]; intros depth s Hz Hs; [done|]. cbn [parseValue]. destruct s as [|c s]; [done|].
  repeat (case_bool_decide; [try apply literal_total|]); [|unfold parseArray|unfold parseObject|apply parseNumber_total].
  - destruct (parseString _) eqn:E; try done. by apply parseString_total in E.
  - destruct (Z.le_gt_cases maxDepth depth) as [Hd|Hd]; [by rewrite parse_container_deep|].
    apply (container_total _ (inner maxDepth depth)); [|intros s'; apply IH; lia].
    intros s' v rest Hp. destruct (parseValue_sound _ _ _ _ _ _ Hp) as (t & ? & ?). by exists t.
  - destruct (Z.le_gt_cases maxDepth depth) as [Hd|Hd]; [by rewrite parse_container_deep|].
    apply (container_total _ (jmember (inner maxDepth depth))); [|intros s'; apply member_total; intros s''; apply IH; lia].
    intros s' kv rest. apply member_sound. intros s'' v r Hp.
    destruct (parseValue_sound _ _ _ _ _ _ Hp) as (t & ? & ?). by exists t.
Qed.

(** ** The parser *)

Lemma reader_parse_complete maxDepth v s : jtext v s -> fits 0 maxDepth v -> reader_parse maxDepth s = Ok v [].
Proof.
  intros (w1 & t & w2 & -> & Hw1 & Hv & Hw2) Hf. unfold reader_parse.
  rewrite skip_app by (done || by apply value_head_app, (jvalue_head v)).
  rewrite (parseValue_complete maxDepth v t); [|done|done|destruct Hf; lia|by apply follow_ws_end].
  cbn [rbind]. rewrite <- (app_nil_r w2), skip_app; done.
Qed.

Lemma reader_parse_sound maxDepth v s rest : reader_parse maxDepth s = Ok v rest -> jtext v s /\ fits 0 maxDepth v.
Proof.
  unfold reader_parse. destruct (parseValue _ _ _ _) as [v' s1| |] eqn:E; try done. cbn [rbind].
  destruct (skip_split s1) as (w2 & E2 & Hw2 & _). destruct (skipWhitespace s1); [|done]. intros [= <- <-].
  destruct (parseValue_sound _ _ _ _ _ _ E) as (t & Et & Hv & Hf). split; [|done].
  destruct (skip_split s) as (w1 & E1 & Hw1 & _). exists w1, t, w2. rewrite app_nil_r in E2. by subst s1; rewrite Et in E1.
Qed.

Lemma reader_parse_total maxDepth s : reader_parse maxDepth s <> OutOfFuel.
Proof.
  unfold reader_parse. destruct (parseValue _ _ _ _) as [v s1| |] eqn:E; cbn [rbind]; [|done|].
  - by destruct (skipWhitespace s1).
  - apply parseValue_total in E; [done|done|lia].
Qed.

Lemma parse_accepts maxDepth input o v :
  parse maxDepth input (Some o) = Some (true, Some v) <-> jtext v input /\ fits 0 maxDepth v.
Proof.
  unfold parse. split.
  - destruct (reader_parse _ _) as [v' r| |] eqn:E; try done. intros [= <-]. by apply reader_parse_sound in E.
  - intros [Hj Hf]. by rewrite (reader_parse_complete _ _ _ Hj Hf).
Qed.

(** C8: The parser decides the grammar: on every input it returns; it accepts
    with the value [v] exactly when the input is a JSON text of RFC 8259 that
    denotes [v] (strings decoded and valid UTF-8, numbers [int64] where they
    fit and the nearest double otherwise) whose containers nest at most
    [maxDepth] deep; and when it rejects, [*out] is untouched. *)
Theorem parse_exact maxDepth input o :
  (forall v, parse maxDepth input (Some o) = Some (true, Some v) <->
     jtext v input /\ (nesting v = O \/ Z.of_nat (nesting v) <= maxDepth)) /\
  ((exists v, parse maxDepth input (Some o) = Some (true, Some v)) \/
   parse maxDepth input (Some o) = Some (false, Some o)).
Proof.
  split; [exact (parse_accepts maxDepth input o)|]. unfold parse. pose proof (reader_parse_total maxDepth input).
  destruct (reader_parse _ _) as [v r| |]; [left; by exists v|by right|done].
Qed.
