(* ===== verification/Serializer.v ===== *)
(** * Serializer: payload values and payload bytes

    [rpc/include/rpc/serializer.h], [rpc/src/raw_serializer.cpp] and
    [rpc/src/json_serializer.cpp].  The abstract class is a typeclass over the
    serializer's state, its failure contract a second typeclass of laws that the
    two implementations discharge and that the envelope theorem relies on. *)
From Stdlib Require Import SpecFloat.
From S2P Require Import Prelude Protocol Codec Utf8 Charconv JsonValue JsonText JsonWriter JsonParser.

(** The pure virtual functions.  [encode] and [decode] return the [bool] and
    [*out] afterwards; an outer [None] of [decode] is exhausted fuel. *)
Class Serializer (self : Type) := {
  serializer_name : self -> bytes;
  serializer_id : self -> Z;
  encode : self -> JsonValue -> option bytes -> bool * option bytes;
  decode : self -> bytes -> option JsonValue -> option (bool * option JsonValue)
}.

Record RawSerializer := mkRawSerializer {}.

Record JsonSerializer := mkJsonSerializer { maxDepth_ : Z }.

Definition kDefaultMaxDepth : Z := 64.

Definition raw_encode (s : RawSerializer) (value : JsonValue) (out : option bytes) : bool * option bytes :=
  match out, value with
  | Some _, JString text => if kMaxBodyLen <? len text then (false, out) else (true, Some text)
  | _, _ => (false, out)
  end.

Definition raw_decode (s : RawSerializer) (inp : bytes) (out : option JsonValue) : option (bool * option JsonValue) :=
  match out with
  | None => Some (false, out)
  | Some _ => if kMaxBodyLen <? len inp then Some (false, out) else Some (true, Some (JString inp))
  end.

Definition json_encode (s : JsonSerializer) (value : JsonValue) (out : option bytes) : bool * option bytes :=
  match out with
  | None => (false, out)
  | Some _ =>
      match write (maxDepth_ s) value (Some []) with
      | (true, Some encoded) => if kMaxBodyLen <? len encoded then (false, out) else (true, Some encoded)
      | _ => (false, out)
      end
  end.

Definition json_decode (s : JsonSerializer) (inp : bytes) (out : option JsonValue) : option (bool * option JsonValue) :=
  match out with
  | None => Some (false, out)
  | Some _ => if kMaxBodyLen <? len inp then Some (false, out) else parse (maxDepth_ s) inp out
  end.

#[global] Instance raw_serializer : Serializer RawSerializer := {|
  serializer_name _ := str "raw";
  serializer_id _ := kSerializerRaw;
  encode := raw_encode;
  decode := raw_decode
|}.

#[global] Instance json_serializer : Serializer JsonSerializer := {|
  serializer_name _ := str "json";
  serializer_id _ := kSerializerJson;
  encode := json_encode;
  decode := json_decode
|}.

(** ** The contract of [serializer.h] *)

Class SerializerLaws (self : Type) `{Serializer self} := {
  (** A failing call leaves [*out] alone; success gives a body that a frame can hold. *)
  encode_contract : forall s v o,
    (exists b, encode s v (Some o) = (true, Some b) /\ len b <= kMaxBodyLen) \/ encode s v (Some o) = (false, Some o);
  decode_contract : forall s b o,
    (exists v, decode s b (Some o) = Some (true, Some v)) \/ decode s b (Some o) = Some (false, Some o);
  null_out : forall s v b, encode s v None = (false, None) /\ decode s b None = Some (false, None);
  (** Bodies above the protocol's ceiling are refused. *)
  decode_ceiling : forall s b o, kMaxBodyLen < len b -> decode s b (Some o) = Some (false, Some o);
  (** What is encoded is what is decoded. *)
  payload_roundtrip : forall s v o o' b,
    typed v = true -> encode s v (Some o) = (true, Some b) -> decode s b (Some o') = Some (true, Some v)
}.

#[global] Instance raw_laws : SerializerLaws RawSerializer.
Proof.
  split; cbn [encode decode raw_serializer].
  - intros s v o. destruct v; try (by right). cbn. destruct (Z.ltb_spec kMaxBodyLen (len s0)); [by right|left; by exists s0].
  - intros s b o. unfold raw_decode. destruct (_ <? _); [by right|left; by eexists].
  - done.
  - intros s b o H. unfold raw_decode. by rewrite (proj2 (Z.ltb_lt _ _) H).
  - intros s v o o' b _. destruct v; try done. cbn. destruct (kMaxBodyLen <? len s0) eqn:E; [done|].
    intros [= <-]. unfold raw_decode. by rewrite E.
Qed.

Lemma json_encode_inv s v o b :
  json_encode s v (Some o) = (true, Some b) <-> writeValue v 0 (maxDepth_ s) = Some b /\ len b <= kMaxBodyLen.
Proof.
  unfold json_encode, write. destruct (writeValue v 0 _) as [t|]; [|split; [done|by intros [? _]]].
  destruct (Z.ltb_spec kMaxBodyLen (len t)); split; try done; [intros [[= <-] ?]; lia|by intros [= <-]|by intros [[= <-] _]].
Qed.

Lemma jvalue_jtext v t : jvalue v t -> jtext v t.
Proof. intros H. exists [], t, []. rewrite app_nil_r. split_and!; (done || apply ws_nil). Qed.

#[global] Instance json_laws : SerializerLaws JsonSerializer.
Proof.
  split; cbn [encode decode json_serializer].
  - intros s v o. unfold json_encode. destruct (write _ _ _) as [[|] [t|]]; try (by right).
    destruct (Z.ltb_spec kMaxBodyLen (len t)); [by right|left; by exists t].
  - intros s b o. unfold json_decode. destruct (_ <? _); [by right|]. unfold parse.
    pose proof (reader_parse_total (maxDepth_ s) b). destruct (reader_parse _ _) as [v r| |]; [left; by exists v|by right|done].
  - done.
  - intros s b o H. unfold json_decode. by rewrite (proj2 (Z.ltb_lt _ _) H).
  - intros s v o o' b Ht [E Hl]%json_encode_inv. unfold json_decode. rewrite (proj2 (Z.ltb_ge _ _)) by done.
    apply parse_accepts. split; [by eapply jvalue_jtext, writeValue_sound|]. by apply (writeValue_exact v 0 (maxDepth_ s) Ht); exists b.
Qed.

(** ** Correctness *)

(** C9: JSON payloads survive the wire: for a value whose integers are [int64_t]
    and whose doubles are binary64, [encode] succeeds exactly when every string is
    valid UTF-8 and every double finite, the containers nest at most [maxDepth] deep and the
    text is at most [kMaxBodyLen] bytes; the text is a JSON text of the value;
    [decode] gives the same value back; and a failing [encode] leaves [*out]
    untouched. *)
Theorem json_roundtrip s v o o' :
  typed v = true ->
  (is_Some (writeValue v 0 (maxDepth_ s)) <->
    encodable v = true /\ (nesting v = O \/ Z.of_nat (nesting v) <= maxDepth_ s)) /\
  match json_encode s v (Some o) with
  | (true, out) => exists b, out = Some b /\ writeValue v 0 (maxDepth_ s) = Some b /\ len b <= kMaxBodyLen /\
      jtext v b /\ json_decode s b (Some o') = Some (true, Some v)
  | (false, out) => out = Some o /\
      (forall b, writeValue v 0 (maxDepth_ s) = Some b -> kMaxBodyLen < len b)
  end.
Proof.
  intros Ht. split; [by apply writeValue_exact|]. destruct (encode_contract s v o) as [(b & E & _)|E]; cbn [encode json_serializer] in E.
  - rewrite E. exists b. pose proof (payload_roundtrip s v o o' b Ht E) as Hd. apply json_encode_inv in E as [E Hl].
    split_and!; try done. by eapply jvalue_jtext, writeValue_sound.
  - rewrite E. split; [done|]. intros b Eb. destruct (Z.lt_ge_cases kMaxBodyLen (len b)); [done|].
    pose proof (proj2 (json_encode_inv s v o b) (conj Eb ltac:(done))). congruence.
Qed.

Definition sample_payload : JsonValue :=
  JObject [(str "id", JInteger (-7)); (str "tags", JArray [JString [xc3; xa9; x00]; JBool true; JNull]);
           (str "ratio", JNumber (S754_finite false 6755399441055744 (-52)))].

Lemma json_roundtrip_witness :
  let s := mkJsonSerializer kDefaultMaxDepth in
  json_encode s sample_payload (Some []) =
    (true, Some (str "{" ++ [x22] ++ str "id" ++ [x22] ++ str ":-7," ++ [x22] ++ str "tags" ++ [x22] ++ str ":[" ++
      [x22; xc3; xa9] ++ str "\u0000" ++ [x22] ++ str ",true,null]," ++ [x22] ++ str "ratio" ++ [x22] ++ str ":1.5}")) /\
  match json_encode s sample_payload (Some []) with
  | (true, out) => exists b, out = Some b /\ writeValue sample_payload 0 (maxDepth_ s) = Some b /\ len b <= kMaxBodyLen /\
      jtext sample_payload b /\ json_decode s b (Some JNull) = Some (true, Some sample_payload)
  | (false, out) => out = Some [] /\ (forall b, writeValue sample_payload 0 (maxDepth_ s) = Some b -> kMaxBodyLen < len b)
  end.
Proof.
  intros s. split; [by vm_compute|]. assert (typed sample_payload = true) as Ht by by vm_compute.
  destruct (json_roundtrip s sample_payload [] JNull Ht) as [_ H]. exact H.
Defined.

Section end_to_end.
Context {self : Type} `{SerializerLaws self}.

(** Whatever the serializer, a payload reaches the method as it left the
    caller: if [encode] produced the payload of a request and the request
    envelope was encoded, then decoding the envelope and the payload gives the
    service, the method and the value that were sent. *)
Theorem request_payload_end_to_end s v o svc mth o1 body o2 o3 wire :
  typed v = true ->
  encode s v (Some o) = (true, Some body) ->
  RawCodec.encodeRequest (mkRequest svc mth body) (Some o1) = (true, Some wire) ->
  RawCodec.decodeRequest wire (Some o2) = Some (true, Some (mkRequest svc mth body)) /\
  decode s body (Some o3) = Some (true, Some v) /\ len wire <= kMaxBodyLen.
Proof.
  intros Ht Ee Er. assert (len body <= kMaxBodyLen) as Hb.
  { destruct (encode_contract s v o) as [(b & E & ?)|E]; rewrite E in Ee; by simplify_eq. }
  apply RawCodec.encodeRequest_inv in Er as [Hf ->]; [|cbn; unfold kMaxBodyLen in Hb; lia].
  split_and!; [by apply RawCodec.decodeRequest_bytes|by apply (payload_roundtrip s v o)|].
  destruct Hf as (? & ? & ?). unfold RawCodec.request_bytes. cbn [service method payload] in *. rewrite !len_app, !putU16_len. lia.
Qed.
End end_to_end.

Lemma request_payload_end_to_end_witness :
  let s := mkJsonSerializer kDefaultMaxDepth in
  let body := str "[1,true]" in
  let r := mkRequest (str "Echo") (str "Echo") body in
  RawCodec.decodeRequest (RawCodec.request_bytes r) (Some (mkRequest [] [] [])) = Some (true, Some r) /\
  decode s body (Some JNull) = Some (true, Some (JArray [JInteger 1; JBool true])) /\
  len (RawCodec.request_bytes r) <= kMaxBodyLen.
Proof.
  exact (request_payload_end_to_end (mkJsonSerializer kDefaultMaxDepth) (JArray [JInteger 1; JBool true]) []
    (str "Echo") (str "Echo") [] (str "[1,true]") (mkRequest [] [] []) JNull _ eq_refl eq_refl eq_refl).
Defined.
