(* ===== verification/EventLoop.v ===== *)
(** * EventLoop: the loop, its task queue and its wakeup

    [include/EventLoop.h] and [src/EventLoop.cpp].  One thread runs [loop()];
    any thread may call [queueInLoop], [runInLoop] and [quit].  The model is a
    transition system whose steps are the atomic pieces of those functions: the
    push under [mutex_], the store to [quit_], the write to the eventfd, the
    swap.  Steps of different threads interleave freely.

    Callbacks are trees of the calls they make on the loop.  A functor that
    throws is outside the model: it would leave [loop()]. *)
From stdpp Require Import relations.
From S2P Require Import Prelude.

(** ** User code *)

Inductive Functor := mkFunctor (id : Z) (body : list Op)
with Op :=
| QueueInLoop (f : Functor)
| RunInLoop (f : Functor)
| Quit.

Definition functor_body (f : Functor) : list Op := let 'mkFunctor _ body := f in body.

(** What a thread has still to execute. *)
Inductive instr :=
| IPush (f : Functor)      (* [pendingFunctors_.push_back(std::move(cb))] under the lock *)
| IWakeQueued              (* [if (!isInLoopThread() || callingPendingFunctors_) wakeup();] *)
| IQuit                    (* [quit_ = true] *)
| IWakeQuit                (* [if (!isInLoopThread()) wakeup();] *)
| ICall (f : Functor)      (* [cb()] *)
| IDrain.                  (* the read of [handleWakeup] *)

Definition queueInLoop (f : Functor) : list instr := [IPush f; IWakeQueued].

Definition quit : list instr := [IQuit; IWakeQuit].

Definition runInLoop (inLoop : bool) (f : Functor) : list instr :=
  if inLoop then [ICall f] else queueInLoop f.

Definition op_code (inLoop : bool) (op : Op) : list instr :=
  match op with
  | QueueInLoop f => queueInLoop f
  | RunInLoop f => runInLoop inLoop f
  | Quit => quit
  end.

Definition call_code (f : Functor) : list instr := flat_map (op_code true) (functor_body f).

(** A ready channel: the wakeup channel or one whose handlers make some calls. *)
Inductive event := EvWakeup | EvIo (calls : list Op).

Definition event_code (e : event) : list instr :=
  match e with
  | EvWakeup => [IDrain]
  | EvIo calls => flat_map (op_code true) calls
  end.

(** ** The loop *)

(** Where the loop thread is: outside [loop()], at the test of [while], in
    [poll], in the loop over [activeChannels_], at [doPendingFunctors], in the
    loop over the functors it swapped out. *)
Inductive place :=
| AtIdle | AtTop | AtPoll
| AtEvents (active : list event)
| AtSwap
| AtFunctors (functors : list Functor).

(** The object, the eventfd's counter, the loop thread ([at_place] and the rest
    [code] of the callback it is in) and the calls other threads are in.
    [posted] and [ran] record the pushes and the functors taken from the queue;
    [early] counts the pending functors that the loop thread itself pushed
    outside [loop()]. *)
Record EventLoop := mkEventLoop {
  looping_ : bool;
  quit_ : bool;
  eventHandling_ : bool;
  callingPendingFunctors_ : bool;
  iteration_ : Z;
  pendingFunctors_ : list Functor;
  wakeups : Z;
  at_place : place;
  code : list instr;
  calls : list (list instr);
  posted : list Functor;
  ran : list Functor;
  early : nat
}.

Definition EventLoop_new : EventLoop :=
  mkEventLoop false false false false 0 [] 0 AtIdle [] [] [] [] 0.

Definition set_code (c : list instr) (s : EventLoop) : EventLoop :=
  mkEventLoop (looping_ s) (quit_ s) (eventHandling_ s) (callingPendingFunctors_ s) (iteration_ s)
    (pendingFunctors_ s) (wakeups s) (at_place s) c (calls s) (posted s) (ran s) (early s).

Definition set_calls (l : list (list instr)) (s : EventLoop) : EventLoop :=
  mkEventLoop (looping_ s) (quit_ s) (eventHandling_ s) (callingPendingFunctors_ s) (iteration_ s)
    (pendingFunctors_ s) (wakeups s) (at_place s) (code s) l (posted s) (ran s) (early s).

Definition set_wakeups (n : Z) (s : EventLoop) : EventLoop :=
  mkEventLoop (looping_ s) (quit_ s) (eventHandling_ s) (callingPendingFunctors_ s) (iteration_ s)
    (pendingFunctors_ s) n (at_place s) (code s) (calls s) (posted s) (ran s) (early s).

Definition set_quit (s : EventLoop) : EventLoop :=
  mkEventLoop (looping_ s) true (eventHandling_ s) (callingPendingFunctors_ s) (iteration_ s)
    (pendingFunctors_ s) (wakeups s) (at_place s) (code s) (calls s) (posted s) (ran s) (early s).

Definition is_idle (s : EventLoop) : bool := if at_place s is AtIdle then true else false.

Definition push (inLoop : bool) (f : Functor) (s : EventLoop) : EventLoop :=
  mkEventLoop (looping_ s) (quit_ s) (eventHandling_ s) (callingPendingFunctors_ s) (iteration_ s)
    (pendingFunctors_ s ++ [f]) (wakeups s) (at_place s) (code s) (calls s) (posted s ++ [f]) (ran s)
    (if inLoop && is_idle s then S (early s) else early s).

Definition eventfd_max : Z := 2 ^ 64 - 2.

(** The write of 8 bytes to a non-blocking eventfd: it adds one, or fails when
    the counter would exceed its maximum. *)
Definition wakeup (s : EventLoop) : EventLoop :=
  if wakeups s + 1 <=? eventfd_max then set_wakeups (wakeups s + 1) s else s.

(** The read: it takes the whole counter, or fails when it is zero. *)
Definition handleWakeup (s : EventLoop) : EventLoop := set_wakeups 0 s.

(** One instruction: the state after it and the instructions it puts in front
    of the rest. *)
Definition exec (inLoop : bool) (i : instr) (s : EventLoop) : EventLoop * list instr :=
  match i with
  | IPush f => (push inLoop f s, [])
  | IWakeQueued => (if negb inLoop || callingPendingFunctors_ s then wakeup s else s, [])
  | IQuit => (set_quit s, [])
  | IWakeQuit => (if negb inLoop then wakeup s else s, [])
  | ICall f => (s, call_code f)
  | IDrain => (handleWakeup s, [])
  end.

(** [loop()] from its entry to the test of [while]. *)
Definition enter_loop (s : EventLoop) : EventLoop :=
  mkEventLoop true false (eventHandling_ s) (callingPendingFunctors_ s) (iteration_ s)
    (pendingFunctors_ s) (wakeups s) AtTop (code s) (calls s) (posted s) (ran s) (early s).

Definition leave_loop (s : EventLoop) : EventLoop :=
  mkEventLoop false (quit_ s) (eventHandling_ s) (callingPendingFunctors_ s) (iteration_ s)
    (pendingFunctors_ s) (wakeups s) AtIdle (code s) (calls s) (posted s) (ran s) (early s).

Definition set_place (p : place) (handling calling : bool) (s : EventLoop) : EventLoop :=
  mkEventLoop (looping_ s) (quit_ s) handling calling (iteration_ s)
    (pendingFunctors_ s) (wakeups s) p (code s) (calls s) (posted s) (ran s) (early s).

(** [poll] returns with [activeChannels_ = ready]. *)
Definition poll_return (ready : list event) (s : EventLoop) : EventLoop :=
  mkEventLoop (looping_ s) (quit_ s) true (callingPendingFunctors_ s) (iteration_ s + 1)
    (pendingFunctors_ s) (wakeups s) (AtEvents ready) (code s) (calls s) (posted s) (ran s) (early s).

(** [doPendingFunctors] up to the end of its critical section. *)
Definition swap_functors (s : EventLoop) : EventLoop :=
  mkEventLoop (looping_ s) (quit_ s) (eventHandling_ s) true (iteration_ s)
    [] (wakeups s) (AtFunctors (pendingFunctors_ s)) (code s) (calls s) (posted s) (ran s) 0.

Definition start_functor (f : Functor) (fs : list Functor) (s : EventLoop) : EventLoop :=
  mkEventLoop (looping_ s) (quit_ s) (eventHandling_ s) (callingPendingFunctors_ s) (iteration_ s)
    (pendingFunctors_ s) (wakeups s) (AtFunctors fs) (call_code f) (calls s) (posted s) (ran s ++ [f]) (early s).

(** A step of the loop thread other than the return of [poll]; [None] when
    there is none. *)
Definition loop_step (s : EventLoop) : option EventLoop :=
  match code s with
  | i :: rest => let '(s', c) := exec true i s in Some (set_code (c ++ rest) s')
  | [] =>
      match at_place s with
      | AtIdle | AtPoll => None
      | AtTop => Some (if quit_ s then leave_loop s else set_place AtPoll (eventHandling_ s) (callingPendingFunctors_ s) s)
      | AtEvents [] => Some (set_place AtSwap false (callingPendingFunctors_ s) s)
      | AtEvents (e :: es) => Some (set_code (event_code e) (set_place (AtEvents es) (eventHandling_ s) (callingPendingFunctors_ s) s))
      | AtSwap => Some (swap_functors s)
      | AtFunctors [] => Some (set_place AtTop (eventHandling_ s) false s)
      | AtFunctors (f :: fs) => Some (start_functor f fs s)
      end
  end.

(** What the poller may report: readiness is level-triggered, so with a count on
    the eventfd [poll] returns at once with some channel, and the wakeup channel
    is only reported with a count.  Without any it waits, for [kPollTimeMs] at
    most. *)
Definition poll_contract (ready : list event) (s : EventLoop) : Prop :=
  (0 < wakeups s -> ready <> []) /\ (EvWakeup ∈ ready -> 0 < wakeups s).

(** A step of another thread that is inside a call. *)
Definition remote_step (n : nat) (s : EventLoop) : option EventLoop :=
  match calls s !! n with
  | Some (i :: rest) => let '(s', c) := exec false i s in Some (set_calls (<[n := c ++ rest]> (calls s)) s')
  | _ => None
  end.

Definition start_call (op : Op) (s : EventLoop) : EventLoop := set_calls (calls s ++ [op_code false op]) s.

Inductive step : EventLoop -> EventLoop -> Prop :=
| step_loop s s' : loop_step s = Some s' -> step s s'
| step_poll ready s : at_place s = AtPoll -> code s = [] -> poll_contract ready s -> step s (poll_return ready s)
| step_enter s : at_place s = AtIdle -> code s = [] -> step s (enter_loop s)
| step_idle op s : at_place s = AtIdle -> code s = [] -> step s (set_code (op_code true op) s)
| step_call op s : step s (start_call op s)
| step_remote n s s' : remote_step n s = Some s' -> step s s'.

Definition reachable (s : EventLoop) : Prop := rtc step EventLoop_new s.

(** ** The invariant *)

(** A push is followed by its wakeup test, a store to [quit_] by its own. *)
Fixpoint paired (c : list instr) : Prop :=
  match c with
  | [] => True
  | i :: rest =>
      match i with
      | IPush _ => head rest = Some IWakeQueued
      | IQuit => head rest = Some IWakeQuit
      | _ => True
      end /\ paired rest
  end.

Definition is_drain (i : instr) : bool := if i is IDrain then true else false.
Definition remote_instr (i : instr) : bool := match i with ICall _ | IDrain => false | _ => true end.

(** Places from which the thread can come to wait in [poll] without taking the
    queue first. *)
Definition exposed (p : place) : bool := match p with AtEvents _ | AtSwap => false | _ => true end.

(** A wakeup that some thread has still to perform. *)
Definition owed (i : instr) (s : EventLoop) : Prop :=
  (exists c, c ∈ calls s /\ i ∈ c) \/ (callingPendingFunctors_ s = true /\ i ∈ code s).

Definition batch (s : EventLoop) : list Functor := if at_place s is AtFunctors fs then fs else [].

Record loop_inv (s : EventLoop) : Prop := {
  li_fifo : posted s = ran s ++ batch s ++ pendingFunctors_ s;
  li_looping : looping_ s = negb (is_idle s);
  li_handling : eventHandling_ s = (if at_place s is AtEvents _ then true else false);
  li_calling : callingPendingFunctors_ s = (if at_place s is AtFunctors _ then true else false);
  li_code : match at_place s with AtTop | AtPoll | AtSwap => code s = [] | _ => True end;
  li_paired : paired (code s) /\ Forall paired (calls s);
  li_remote : Forall (fun c => forallb remote_instr c = true) (calls s);
  li_drain : existsb is_drain (code s) = true -> exposed (at_place s) = false;
  li_wakeups : 0 <= wakeups s <= eventfd_max;
  li_early : (early s <= length (pendingFunctors_ s))%nat;
  li_pending : exposed (at_place s) = true -> (early s < length (pendingFunctors_ s))%nat ->
    0 < wakeups s \/ owed IWakeQueued s;
  li_quit : at_place s = AtPoll -> quit_ s = true -> 0 < wakeups s \/ owed IWakeQuit s
}.

Lemma paired_app c c' : paired c -> paired c' -> paired (c ++ c').
Proof.
  intros Hc Hc'. induction c as [|i c IH]; [done|]. destruct Hc as [Hi Hc]. cbn. split; [|by apply IH].
  by destruct i, c.
Qed.

Lemma op_code_paired b op : paired (op_code b op).
Proof. destruct op, b; cbn; auto. Qed.

Lemma ops_paired ops : paired (flat_map (op_code true) ops).
Proof. induction ops as [|op ops IH]; [done|]. apply paired_app; [apply op_code_paired|done]. Qed.

Lemma op_code_remote op : forallb remote_instr (op_code false op) = true.
Proof. by destruct op. Qed.

Lemma ops_no_drain ops : existsb is_drain (flat_map (op_code true) ops) = false.
Proof. induction ops as [|op ops IH]; [done|]. cbn. rewrite existsb_app, IH. by destruct op. Qed.

Lemma wakeup_pos s :
  0 <= wakeups s <= eventfd_max -> exists w, wakeup s = set_wakeups w s /\ 0 < w <= eventfd_max.
Proof.
  intros H. unfold wakeup. destruct (Z.leb_spec (wakeups s + 1) eventfd_max); [eexists; split; [done|lia]|].
  exists (wakeups s). split; [by destruct s|unfold eventfd_max in *; lia].
Qed.

(** The step of a thread inside a call leaves every wakeup owed, but its own. *)
Lemma calls_insert (l : list (list instr)) n i rest j :
  l !! n = Some (i :: rest) -> j <> i -> (exists c, c ∈ l /\ j ∈ c) -> exists c, c ∈ <[n := rest]> l /\ j ∈ c.
Proof.
  intros Hn Hj (c & Hc & Hjc). apply list_elem_of_lookup in Hc as [m Hm]. destruct (decide (m = n)) as [->|Hmn].
  - rewrite Hn in Hm. injection Hm as <-. exists rest. apply elem_of_cons in Hjc as [?|?]; [done|]. split; [|done].
    apply (list_elem_of_lookup_2 _ n), list_lookup_insert_eq. by eapply lookup_lt_Some.
  - exists c. split; [|done]. apply (list_elem_of_lookup_2 _ m). by rewrite list_lookup_insert_ne.
Qed.

Lemma head_elem {A} (l : list A) x : head l = Some x -> x ∈ l.
Proof. destruct l; [done|]. intros [= ->]. left. Qed.

Lemma remote_step_inv n s s' : loop_inv s -> remote_step n s = Some s' -> loop_inv s'.
Proof.
  intros [Hf ? ? ? ? [Hp Hps] Hr ? Hw He Hpend Hq] E. unfold remote_step in E.
  destruct (calls s !! n) as [[|i rest]|] eqn:En; [done| |done].
  pose proof (lookup_lt_Some _ _ _ En) as Hn.
  pose proof (Forall_lookup_1 _ _ _ _ Hr En) as Hri. pose proof (Forall_lookup_1 _ _ _ _ Hps En) as [Hpi Hprest].
  apply andb_prop in Hri as [Hri Hrrest].
  assert (rest ∈ <[n := rest]> (calls s)) as Hin by (apply (list_elem_of_lookup_2 _ n); by apply list_lookup_insert_eq).
  pose proof (Forall_insert _ _ n rest Hps Hprest) as Hps'.
  pose proof (Forall_insert (fun c => forallb remote_instr c = true) _ n rest Hr Hrrest) as Hr'.
  destruct (wakeup_pos s Hw) as (w & Ew & Hpos).
  assert (forall j, j <> i -> owed j s -> (exists c, c ∈ <[n := rest]> (calls s) /\ j ∈ c) \/
    (callingPendingFunctors_ s = true /\ j ∈ code s)) as Howed.
  { intros j Hj [Hc|Hc]; [left; by eapply calls_insert|by right]. }
  destruct i; try done; cbn in E; injection E as <-; rewrite ?Ew; constructor; cbn; try done;
    try (intros; left; lia); try lia.
  - rewrite Hf, <- !app_assoc. done.
  - rewrite length_app. lia.
  - intros _ _. right. left. exists rest. split; [done|]. by apply head_elem.
  - intros Hpl Hqt. destruct (Hq Hpl Hqt) as [?|Ho]; [by left|right; by apply Howed].
  - intros Hex Hl. destruct (Hpend Hex Hl) as [?|Ho]; [by left|right; by apply Howed].
  - intros _ _. right. left. exists rest. split; [done|]. by apply head_elem.
Qed.

(** An instruction of the loop thread. *)
Lemma code_step_inv i rest s s' :
  loop_inv s -> code s = i :: rest -> loop_step s = Some s' -> loop_inv s'.
Proof.
  intros [Hf ? ? Hcall Hc [Hp Hps] Hr Hd Hw He Hpend Hq] Ec E. unfold loop_step in E. rewrite Ec in *.
  destruct Hp as [Hpi Hprest]. destruct (wakeup_pos s Hw) as (w & Ew & Hpos).
  assert (forall c, match at_place s with AtTop | AtPoll | AtSwap => c = @nil instr | _ => True end) as Hcode by by destruct (at_place s).
  assert (at_place s <> AtPoll) as Hnp by by destruct (at_place s).
  assert (existsb is_drain rest = true -> exposed (at_place s) = false) as Hd'.
  { intros Hr'. apply Hd. cbn. by rewrite Hr', orb_true_r. }
  assert (forall j c, j <> i \/ callingPendingFunctors_ s = false -> owed j s -> (exists c, c ∈ calls s /\ j ∈ c) \/
    (callingPendingFunctors_ s = true /\ j ∈ c ++ rest)) as Howed.
  { intros j c Hj [Hc'|[? Hc']]; [by left|right]. rewrite Ec in Hc'. split; [done|]. rewrite elem_of_app.
    destruct Hj; [|congruence]. apply elem_of_cons in Hc' as [?|?]; [done|by right]. }
  destruct i; cbn in E; rewrite ?Ew in E.
  - injection E as <-. constructor; cbn; try done; try exact (Hcode _); try (intros Hx; by destruct (Hnp Hx)).
    + rewrite Hf, <- !app_assoc. done.
    + rewrite length_app. destruct (is_idle s); cbn; lia.
    + intros Hex. rewrite length_app. destruct (is_idle s) eqn:Ei.
      * intros Hl. destruct (Hpend Hex) as [?|Ho]; [cbn in Hl; lia|by left|right]. by apply (Howed _ []); [left|].
      * intros _. right. right. split; [|by apply head_elem]. cbn. rewrite Hcall. unfold is_idle in Ei. by destruct (at_place s).
  - destruct (callingPendingFunctors_ s) eqn:Ecall; injection E as <-; constructor; cbn; try done; try exact (Hcode _); try (intros Hx; by destruct (Hnp Hx)); try (intros; left; lia); try lia; try congruence.
    intros Hex Hl. destruct (Hpend Hex Hl) as [?|Ho]; [by left|right]. destruct (Howed _ [] (or_intror eq_refl) Ho) as [?|[? _]]; [by left|done].
  - injection E as <-. constructor; cbn; try done; try exact (Hcode _); try (intros Hx; by destruct (Hnp Hx)).
    intros Hex Hl. destruct (Hpend Hex Hl) as [?|Ho]; [by left|right]. by apply (Howed _ []); [left|].
  - injection E as <-. constructor; cbn; try done; try exact (Hcode _); try (intros Hx; by destruct (Hnp Hx)).
    intros Hex Hl. destruct (Hpend Hex Hl) as [?|Ho]; [by left|right]. by apply (Howed _ []); [left|].
  - injection E as <-. constructor; cbn; try done; try exact (Hcode _); try (intros Hx; by destruct (Hnp Hx)).
    + split; [|done]. apply paired_app; [apply ops_paired|done].
    + unfold call_code. by rewrite existsb_app, ops_no_drain.
    + intros Hex Hl. destruct (Hpend Hex Hl) as [?|Ho]; [by left|right]. by apply Howed; [left|].
  - injection E as <-. constructor; cbn; try done; try exact (Hcode _); try (intros Hx; by destruct (Hnp Hx)); try lia; intros Hex; by rewrite Hd in Hex.
Qed.

Lemma loop_step_inv s s' : loop_inv s -> loop_step s = Some s' -> loop_inv s'.
Proof.
  intros H E. destruct (code s) as [|i rest] eqn:Ec; [|by eapply code_step_inv].
  destruct H as [Hf ? ? Hcall Hc [Hp Hps] Hr Hd Hw He Hpend Hq]. unfold loop_step in E. rewrite Ec in *.
  unfold batch, is_idle in *. destruct (at_place s) as [| | |[|e es]| |[|f fs]] eqn:Ep; try done.
  - destruct (quit_ s) eqn:Eq; injection E as <-; constructor; cbn; rewrite ?Ec; try done; congruence.
  - injection E as <-. constructor; cbn; rewrite ?Ec; try done.
  - injection E as <-. constructor; cbn; rewrite ?Ec; try done. split; [|done]. destruct e; [done|apply ops_paired].
  - injection E as <-. constructor; cbn; rewrite ?Ec; try done; [|lia]. by rewrite app_nil_r.
  - injection E as <-. constructor; cbn; rewrite ?Ec; try done.
    intros Hex Hl. destruct (Hpend Hex Hl) as [?|[Ho|[_ Ho]]]; [by left|right; by left|]. rewrite Ec in Ho. by apply elem_of_nil in Ho.
  - injection E as <-. constructor; cbn; rewrite ?Ec; try done.
    + unfold batch. cbn. by rewrite Hf, <- !app_assoc.
    + split; [apply ops_paired|done].
    + unfold call_code. by rewrite ops_no_drain.
    + intros Hex Hl. destruct (Hpend Hex Hl) as [?|[Ho|[_ Ho]]]; [by left|right; by left|]. rewrite Ec in Ho. by apply elem_of_nil in Ho.
Qed.

Lemma loop_system_inv s s' : loop_inv s -> step s s' -> loop_inv s'.
Proof.
  intros H Hs. destruct Hs as [s s' E|ready s Ep Ec _|s Ep Ec|op s Ep Ec|op s|n s s' E];
    [exact (loop_step_inv _ _ H E)| | | | |exact (remote_step_inv _ _ _ H E)].
  all: destruct H as [Hf ? ? Hcall Hc [Hp Hps] Hr Hd Hw He Hpend Hq]; unfold batch, is_idle in *.
  - rewrite Ep in *. constructor; cbn; rewrite ?Ec; try done.
  - rewrite Ep in *. constructor; cbn; rewrite ?Ec; try done.
  - rewrite Ep in *. constructor; cbn; unfold batch, is_idle; cbn; rewrite ?Ep; try done.
    + split; [apply op_code_paired|done].
    + destruct op; done.
    + intros Hex Hl. destruct (Hpend Hex Hl) as [?|[Ho|[Ho _]]]; [by left|right; by left|congruence].
  - assert (forall i, owed i s -> owed i (start_call op s)) as Howed.
    { intros i [(c & Hc1 & Hc2)|Ho]; [left|by right]. exists c. split; [|done]. cbn. apply elem_of_app. by left. }
    constructor; cbn; try done.
    + split; [done|]. apply Forall_app. split; [done|]. constructor; [apply op_code_paired|done].
    + apply Forall_app. split; [done|]. constructor; [apply op_code_remote|done].
    + intros Hex Hl. destruct (Hpend Hex Hl) as [?|Ho]; [by left|right; by apply Howed].
    + intros Hex Hl. destruct (Hq Hex Hl) as [?|Ho]; [by left|right; by apply Howed].
Qed.

Lemma loop_reachable_inv s : reachable s -> loop_inv s.
Proof.
  intros H. assert (loop_inv EventLoop_new) as H0.
  { constructor; cbn; try done; try lia. }
  revert H0. induction H as [|s1 s2 s3 H12 _ IH]; [done|]. intros H1. apply IH. by eapply loop_system_inv.
Qed.

(** ** Progress *)

(** The loop thread by itself, [n] steps. *)
Fixpoint loop_steps (n : nat) (s : EventLoop) : option EventLoop :=
  match n with
  | O => Some s
  | S n => s' ← loop_step s; loop_steps n s'
  end.

Lemma loop_steps_app n m s s1 s2 :
  loop_steps n s = Some s1 -> loop_steps m s1 = Some s2 -> loop_steps (n + m) s = Some s2.
Proof.
  revert s. induction n as [|n IH]; intros s; cbn; [by intros [= ->]|].
  destruct (loop_step s) as [s'|]; [|done]. apply IH.
Qed.

(** A bound on the instructions a callback executes. *)
Fixpoint functor_size (f : Functor) : nat :=
  match f with mkFunctor _ body => S (list_sum (map op_size body)) end
with op_size (op : Op) : nat :=
  match op with RunInLoop f => functor_size f | _ => 2 end.

Definition instr_size (i : instr) : nat := if i is ICall f then functor_size f else 1.
Definition code_size (c : list instr) : nat := list_sum (map instr_size c).

Lemma call_code_size f : (S (code_size (call_code f)) = functor_size f)%nat.
Proof.
  destruct f as [id body]. change (functor_size (mkFunctor id body)) with (S (list_sum (map op_size body))).
  f_equal. unfold code_size, call_code. cbn [functor_body]. induction body as [|op body IH]; [done|].
  cbn [map flat_map]. rewrite map_app, list_sum_app, IH.
  change (list_sum (op_size op :: map op_size body)) with (op_size op + list_sum (map op_size body))%nat.
  f_equal. destruct op; [done| |done]. apply Nat.add_0_r.
Qed.

(** Only the queue, [quit_] and the eventfd change while a callback runs. *)
Record callback_frame (s s' : EventLoop) : Prop := {
  cf_ran : ran s' = ran s;
  cf_pending : pendingFunctors_ s `prefix_of` pendingFunctors_ s';
  cf_quit : quit_ s = true -> quit_ s' = true;
  cf_iteration : iteration_ s' = iteration_ s
}.

Lemma callback_frame_refl s : callback_frame s s.
Proof. by constructor. Qed.

Lemma callback_frame_trans s1 s2 s3 : callback_frame s1 s2 -> callback_frame s2 s3 -> callback_frame s1 s3.
Proof. intros [] []. constructor; try congruence; [by etrans|auto]. Qed.

Lemma exec_frame b i s s' c : exec b i s = (s', c) -> callback_frame s s' /\ at_place s' = at_place s.
Proof.
  assert (callback_frame s (wakeup s) /\ at_place (wakeup s) = at_place s) as Hw.
  { unfold wakeup. destruct (_ <=? _); by split_and!. }
  assert (callback_frame s s /\ at_place s = at_place s) as Hr by by split_and!.
  destruct i; cbn; intros [= <- <-]; try done; [|by destruct (_ || _)|by destruct b].
  split; [|done]. constructor; try done. cbn. by eexists.
Qed.

(** A callback comes to its end. *)
Lemma code_runs s :
  exists n s', loop_steps n s = Some s' /\ code s' = [] /\ at_place s' = at_place s /\ callback_frame s s'.
Proof.
  remember (code_size (code s)) as m eqn:Em. revert s Em.
  induction (lt_wf m) as [m _ IH]. intros s ->. destruct (code s) as [|i rest] eqn:Ec.
  { exists O, s. split_and!; try done. }
  destruct (exec true i s) as [s1 c] eqn:Ex. pose proof (exec_frame _ _ _ _ _ Ex) as [Hfr Hpl].
  set (s2 := set_code (c ++ rest) s1). assert (loop_step s = Some s2) as Hstep by (unfold loop_step; by rewrite Ec, Ex).
  assert (code_size (code s2) < code_size (i :: rest))%nat as Hlt.
  { unfold s2, code_size. cbn [code set_code map]. rewrite map_app, list_sum_app.
    change (list_sum (instr_size i :: map instr_size rest)) with (instr_size i + list_sum (map instr_size rest))%nat.
    destruct i; cbn in Ex; injection Ex as <- <-; try (cbn; lia).
    pose proof (call_code_size f). unfold code_size in *. cbn. lia. }
  destruct (IH _ Hlt s2 eq_refl) as (n & s' & Hn & Hc & Hp & Hf'). exists (S n), s'.
  split; [cbn; by rewrite Hstep|]. split; [done|]. split; [by rewrite Hp|]. eapply callback_frame_trans; [|exact Hf']. by destruct Hfr.
Qed.

Lemma loop_steps_cons n s s1 s2 : loop_step s = Some s1 -> loop_steps n s1 = Some s2 -> loop_steps (S n) s = Some s2.
Proof. intros E H. cbn. by rewrite E. Qed.

Lemma events_run es s :
  at_place s = AtEvents es -> code s = [] ->
  exists n s', loop_steps n s = Some s' /\ code s' = [] /\ at_place s' = AtSwap /\ callback_frame s s'.
Proof.
  revert s. induction es as [|e es IH]; intros s Hp Hc.
  - exists 1%nat. eexists. split; [cbn; unfold loop_step; by rewrite Hc, Hp|]. split_and!; try done.
  - set (s1 := set_code (event_code e) (set_place (AtEvents es) (eventHandling_ s) (callingPendingFunctors_ s) s)).
    assert (loop_step s = Some s1) as H1 by (unfold loop_step; by rewrite Hc, Hp).
    destruct (code_runs s1) as (n & s2 & Hn & Hc2 & Hp2 & Hf2). destruct (IH s2) as (m & s3 & Hm & ? & ? & Hf3); [done|done|].
    exists (S (n + m)), s3. split; [eapply loop_steps_cons, loop_steps_app; done|]. split_and!; try done.
    apply (callback_frame_trans s s1); [by constructor|]. by eapply callback_frame_trans.
Qed.

Lemma functors_run fs s :
  at_place s = AtFunctors fs -> code s = [] ->
  exists n s', loop_steps n s = Some s' /\ code s' = [] /\ at_place s' = AtTop /\ ran s' = ran s ++ fs /\
    (quit_ s = true -> quit_ s' = true) /\ iteration_ s' = iteration_ s.
Proof.
  revert s. induction fs as [|f fs IH]; intros s Hp Hc.
  - exists 1%nat. eexists. split; [cbn; unfold loop_step; by rewrite Hc, Hp|]. split_and!; try done. cbn. by rewrite app_nil_r.
  - assert (loop_step s = Some (start_functor f fs s)) as H1 by (unfold loop_step; by rewrite Hc, Hp).
    destruct (code_runs (start_functor f fs s)) as (n & s2 & Hn & Hc2 & Hp2 & [Hr2 _ Hq2 Hi2]).
    destruct (IH s2) as (m & s3 & Hm & ? & ? & Hr3 & ? & Hi3); [done|done|].
    exists (S (n + m)), s3. split; [eapply loop_steps_cons, loop_steps_app; done|]. split_and!; try done; auto.
    + rewrite Hr3, Hr2. cbn. by rewrite <- app_assoc.
    + by rewrite Hi3, Hi2.
Qed.

(** The rest of an iteration: every functor pending now is run. *)
Lemma iteration_runs es s :
  at_place s = AtEvents es -> code s = [] ->
  exists n s', loop_steps n s = Some s' /\ code s' = [] /\ at_place s' = AtTop /\
    ran s ++ pendingFunctors_ s `prefix_of` ran s' /\ (quit_ s = true -> quit_ s' = true) /\ iteration_ s' = iteration_ s.
Proof.
  intros Hp Hc. destruct (events_run es s Hp Hc) as (n & s1 & Hn & Hc1 & Hp1 & [Hr1 [extra Hx] Hq1 Hi1]).
  assert (loop_step s1 = Some (swap_functors s1)) as Hsw by (unfold loop_step; by rewrite Hc1, Hp1).
  destruct (functors_run (pendingFunctors_ s1) (swap_functors s1)) as (m & s2 & Hm & Hc2 & Hp2 & Hr2 & Hq2 & Hi2); [done|done|].
  exists (n + S m)%nat, s2. split; [eapply loop_steps_app; [done|by eapply loop_steps_cons]|]. split_and!; try done; auto.
  - exists extra. rewrite Hr2. cbn. by rewrite Hr1, Hx, app_assoc.
  - rewrite Hi2. done.
Qed.

(** A thread that is inside [loop()] and not in [poll] comes back to the test
    of [while]. *)
Lemma returns_to_top s :
  looping_ s = true -> loop_inv s -> at_place s <> AtPoll ->
  exists n s', loop_steps n s = Some s' /\ code s' = [] /\ at_place s' = AtTop /\ (quit_ s = true -> quit_ s' = true).
Proof.
  intros Hl Hi Hnp. destruct (code_runs s) as (n & s1 & Hn & Hc1 & Hp1 & [_ _ Hq1 _]).
  destruct (at_place s) as [| | |es| |fs] eqn:Ep; try done.
  - rewrite (li_looping _ Hi) in Hl. unfold is_idle in Hl. by rewrite Ep in Hl.
  - by exists n, s1.
  - destruct (iteration_runs es s1) as (m & s2 & Hm & ? & ? & _ & Hq2 & _); [done..|].
    exists (n + m)%nat, s2. split; [by eapply loop_steps_app|]. auto.
  - assert (loop_step s1 = Some (swap_functors s1)) as Hsw by (unfold loop_step; by rewrite Hc1, Hp1).
    destruct (functors_run (pendingFunctors_ s1) (swap_functors s1)) as (m & s2 & Hm & Hc2 & Hp2 & _ & Hq2 & _); [done|done|].
    exists (n + S m)%nat, s2. split; [eapply loop_steps_app; [done|by eapply loop_steps_cons]|]. auto.
  - destruct (functors_run fs s1) as (m & s2 & Hm & ? & ? & _ & Hq2 & _); [done..|].
    exists (n + m)%nat, s2. split; [by eapply loop_steps_app|]. auto.
Qed.

Lemma top_quits s : code s = [] -> at_place s = AtTop -> quit_ s = true -> loop_step s = Some (leave_loop s).
Proof. intros Hc Hp Hq. unfold loop_step. by rewrite Hc, Hp, Hq. Qed.

(** ** Correctness *)

(** C10: No wakeup is lost: whatever the interleaving of the loop thread with any
    number of threads calling [queueInLoop], [runInLoop] and [quit], when the
    loop thread waits in [poll] and the other threads' calls have returned,
    then the eventfd has a count (so [poll] returns at once) if a functor other
    than those the loop thread queued outside [loop()] is pending, or if
    [quit_] is set. *)
Theorem no_lost_wakeup s :
  reachable s -> at_place s = AtPoll -> Forall (fun c => c = []) (calls s) ->
  ((early s < length (pendingFunctors_ s))%nat -> 0 < wakeups s) /\ (quit_ s = true -> 0 < wakeups s).
Proof.
  intros Hr Hp Hq. apply loop_reachable_inv in Hr as Hi.
  assert (forall i, ~ owed i s) as Hno.
  { intros i [(c & Hc & Hic)|[_ Hic]].
    - rewrite Forall_forall in Hq. rewrite (Hq c Hc) in Hic. by apply elem_of_nil in Hic.
    - pose proof (li_code _ Hi) as Hc. rewrite Hp in Hc. rewrite Hc in Hic. by apply elem_of_nil in Hic. }
  split; intros H.
  - destruct (li_pending _ Hi) as [?|Ho]; [by rewrite Hp|done|done|by apply Hno in Ho].
  - destruct (li_quit _ Hi Hp H) as [?|Ho]; [done|by apply Hno in Ho].
Qed.

(** C26: Functors run exactly once, in the order of the pushes: what was pushed is
    always what ran, followed by the rest of the batch being run, followed by
    the queue; and when [poll] returns, with whatever channels, the loop thread
    comes to the end of that iteration having run everything that was pending,
    in that order. *)
Theorem functors_run_in_order s :
  reachable s ->
  posted s = ran s ++ batch s ++ pendingFunctors_ s /\
  (at_place s = AtPoll -> forall ready, exists n s', loop_steps n (poll_return ready s) = Some s' /\
     at_place s' = AtTop /\ iteration_ s' = iteration_ s + 1 /\ ran s ++ pendingFunctors_ s `prefix_of` ran s').
Proof.
  intros Hr%loop_reachable_inv. split; [apply Hr|]. intros Hp ready.
  assert (code s = []) as Hc by (pose proof (li_code _ Hr) as Hc; by rewrite Hp in Hc).
  destruct (iteration_runs ready (poll_return ready s)) as (n & s' & Hn & _ & Hp' & Hx & _ & Hi); [done|done|].
  by exists n, s'.
Qed.

(** [quit()] ends the loop: once [quit_] is set while the thread is inside
    [loop()], [loop()] returns after finitely many of its own steps, through at
    most one more return of [poll]. *)
Theorem quit_stops s :
  reachable s -> looping_ s = true -> quit_ s = true ->
  (at_place s <> AtPoll -> exists n s', loop_steps n s = Some s' /\ looping_ s' = false /\ at_place s' = AtIdle) /\
  (at_place s = AtPoll -> forall ready, exists n s',
     loop_steps n (poll_return ready s) = Some s' /\ looping_ s' = false /\ at_place s' = AtIdle).
Proof.
  intros Hr%loop_reachable_inv Hl Hq. split.
  - intros Hnp. destruct (returns_to_top s Hl Hr Hnp) as (n & s1 & Hn & Hc & Hp & Hq1).
    exists (n + 1)%nat, (leave_loop s1). split; [|done]. eapply loop_steps_app; [done|].
    eapply loop_steps_cons; [apply top_quits; auto|done].
  - intros Hp ready. assert (code s = []) as Hc by (pose proof (li_code _ Hr) as Hc; by rewrite Hp in Hc).
    destruct (iteration_runs ready (poll_return ready s)) as (n & s1 & Hn & Hc1 & Hp1 & _ & Hq1 & _); [done|done|].
    exists (n + 1)%nat, (leave_loop s1). split; [|done]. eapply loop_steps_app; [done|].
    eapply loop_steps_cons; [apply top_quits; auto|done].
Qed.

(** ** Executions as lists of actions *)

Inductive action :=
| ALoop | APoll (ready : list event) | AEnter | AIdle (op : Op) | ACall (op : Op) | ARemote (n : nat).

Definition is_wakeup (e : event) : bool := if e is EvWakeup then true else false.

Definition poll_allowed (ready : list event) (s : EventLoop) : bool :=
  ((wakeups s <=? 0) || negb (length ready =? 0)%nat) && (negb (existsb is_wakeup ready) || (0 <? wakeups s)).

Definition no_code (s : EventLoop) : bool := if code s is [] then true else false.

Definition act (a : action) (s : EventLoop) : option EventLoop :=
  match a with
  | ALoop => loop_step s
  | APoll ready => if at_place s is AtPoll then if no_code s && poll_allowed ready s then Some (poll_return ready s) else None else None
  | AEnter => if is_idle s && no_code s then Some (enter_loop s) else None
  | AIdle op => if is_idle s && no_code s then Some (set_code (op_code true op) s) else None
  | ACall op => Some (start_call op s)
  | ARemote n => remote_step n s
  end.

Fixpoint acts (l : list action) (s : EventLoop) : option EventLoop :=
  match l with
  | [] => Some s
  | a :: l => s' ← act a s; acts l s'
  end.

Lemma idle_ready s : is_idle s && no_code s = true -> at_place s = AtIdle /\ code s = [].
Proof. unfold is_idle, no_code. by destruct (at_place s), (code s). Qed.

Lemma act_step a s s' : act a s = Some s' -> step s s'.
Proof.
  destruct a as [|ready| |op|op|n]; cbn.
  - apply step_loop.
  - destruct (at_place s) eqn:Ep; try done. destruct (no_code s) eqn:Ec; [|done]. cbn.
    destruct (poll_allowed ready s) eqn:Ea; [|done]. intros [= <-]. unfold no_code in Ec.
    apply step_poll; [done|by destruct (code s)|]. apply andb_prop in Ea as [H1 H2]. split.
    + intros Hw. apply orb_prop in H1 as [?%Z.leb_le|H1]; [lia|]. by intros ->.
    + intros Hin. apply orb_prop in H2 as [H2|?%Z.ltb_lt]; [|done]. apply negb_true_iff in H2. exfalso.
      apply not_true_iff_false in H2. apply H2, existsb_exists. exists EvWakeup. split; [by apply list_elem_of_In|done].
  - destruct (is_idle s && no_code s) eqn:E; [|done]. apply idle_ready in E as [? ?]. intros [= <-]. by apply step_enter.
  - destruct (is_idle s && no_code s) eqn:E; [|done]. apply idle_ready in E as [? ?]. intros [= <-]. by apply step_idle.
  - intros [= <-]. apply step_call.
  - apply step_remote.
Qed.

Lemma acts_reachable l s s' : reachable s -> acts l s = Some s' -> reachable s'.
Proof.
  revert s. induction l as [|a l IH]; intros s Hr; cbn; [by intros [= <-]|].
  destruct (act a s) as [s1|] eqn:E; [|done]. apply IH. eapply rtc_r; [done|by eapply act_step].
Qed.

Definition after (l : list action) : EventLoop := default EventLoop_new (acts l EventLoop_new).

Lemma after_reachable l : reachable (after l).
Proof.
  unfold after. destruct (acts l EventLoop_new) as [s|] eqn:E; cbn; [|constructor].
  by apply (acts_reachable l EventLoop_new); [constructor|].
Qed.

(** Two functors posted by other threads while the loop waits, the first of
    which posts a third. *)
Definition task (id : Z) : Functor := mkFunctor id [].
Definition two_posts : list action :=
  [AEnter; ALoop; ACall (QueueInLoop (mkFunctor 1 [QueueInLoop (task 3)])); ACall (RunInLoop (task 2));
   ARemote 0; ARemote 1; ARemote 1; ARemote 0].

Lemma no_lost_wakeup_witness :
  length (pendingFunctors_ (after two_posts)) = 2%nat /\ 0 < wakeups (after two_posts).
Proof.
  split; [by vm_compute|]. apply (proj1 (no_lost_wakeup (after two_posts) (after_reachable _) eq_refl ltac:(by repeat constructor))).
  vm_compute. lia.
Defined.

Lemma functors_run_in_order_witness :
  posted (after two_posts) = ran (after two_posts) ++ batch (after two_posts) ++ pendingFunctors_ (after two_posts) /\
  length (posted (after two_posts)) = 2%nat /\
  exists n s', loop_steps n (poll_return [EvWakeup] (after two_posts)) = Some s' /\
    at_place s' = AtTop /\ iteration_ s' = iteration_ (after two_posts) + 1 /\
    ran (after two_posts) ++ pendingFunctors_ (after two_posts) `prefix_of` ran s'.
Proof.
  destruct (functors_run_in_order (after two_posts) (after_reachable _)) as [H1 H2].
  split; [exact H1|]. split; [by vm_compute|]. exact (H2 eq_refl [EvWakeup]).
Defined.

Definition quit_while_waiting : list action := [AEnter; ALoop; ACall Quit; ARemote 0; ARemote 0].

Lemma quit_stops_witness :
  quit_ (after quit_while_waiting) = true /\
  exists n s', loop_steps n (poll_return [EvWakeup] (after quit_while_waiting)) = Some s' /\
    looping_ s' = false /\ at_place s' = AtIdle.
Proof.
  split; [by vm_compute|].
  exact (proj2 (quit_stops (after quit_while_waiting) (after_reachable _) eq_refl eq_refl) eq_refl [EvWakeup]).
Defined.

(** The exception is real: a functor that the loop thread queues before it
    enters [loop()] wakes nobody, so the loop waits in [poll] with the functor
    pending, no call in progress and no count on the eventfd. *)
Theorem early_post_waits :
  exists s, reachable s /\ at_place s = AtPoll /\ calls s = [] /\ posted s = [task 1] /\
    pendingFunctors_ s = [task 1] /\ wakeups s = 0 /\ poll_contract [] s.
Proof.
  exists (after [AIdle (QueueInLoop (task 1)); ALoop; ALoop; AEnter; ALoop]).
  split; [apply after_reachable|]. split_and!; try done. split; [by vm_compute|by intros ?%elem_of_nil].
Qed.
