(* ===== verification/EventLoopThread.v ===== *)
(** * EventLoopThread: a thread that owns an event loop

    [include/EventLoopThread.h] and [src/EventLoopThread.cpp].  Two threads: the
    owner, which calls [startLoop()] and later the destructor, and the thread it
    starts, which creates the [EventLoop], publishes it, runs it and destroys it.
    The states are the program points of the two between their critical sections
    on [mutex_]; the loop itself is the transition system of [EventLoop]. *)
From stdpp Require Import relations.
From S2P Require Import Prelude EventLoop.

Inductive owner_pc :=
| ONew          (* constructed *)
| OStarting     (* in [startLoop], waiting for [loop_] *)
| OStarted      (* [startLoop] returned *)
| ODtor         (* in the destructor, before the lock *)
| OQuit (n : nat) (* holds [mutex_] and is inside [loop_->quit()], call [n] of the loop *)
| OJoin         (* at [thread_->join()] *)
| ODone.

Inductive thread_pc :=
| TNone         (* not started *)
| TNew          (* before [make_unique<EventLoop>()] *)
| TPublish      (* before the critical section that sets [loop_] *)
| TCalling      (* about to call [loop->loop()] *)
| TLooping
| TClear        (* [loop()] returned; before the critical section that destroys the loop *)
| TExited.

(** [loop_] is whether the pointer is set; [object] the [EventLoop] while it is
    alive. *)
Record EventLoopThread := mkThread {
  loop_ : bool;
  exiting_ : bool;
  object : option EventLoop;
  owner : owner_pc;
  thread : thread_pc
}.

Definition EventLoopThread_new : EventLoopThread := mkThread false false None ONew TNone.

(** The owner is between locking and unlocking [mutex_]. *)
Definition locked (t : EventLoopThread) : bool := if owner t is OQuit _ then true else false.

Definition set_owner (o : owner_pc) (t : EventLoopThread) : EventLoopThread :=
  mkThread (loop_ t) (exiting_ t) (object t) o (thread t).

Definition set_object (s : EventLoop) (t : EventLoopThread) : EventLoopThread :=
  mkThread (loop_ t) (exiting_ t) (Some s) (owner t) (thread t).

Definition set_thread (p : thread_pc) (t : EventLoopThread) : EventLoopThread :=
  mkThread (loop_ t) (exiting_ t) (object t) (owner t) p.

(** [startLoop] up to the wait. *)
Definition startLoop (t : EventLoopThread) : EventLoopThread := set_thread TNew (set_owner OStarting t).

(** [~EventLoopThread] up to the lock. *)
Definition destroy (t : EventLoopThread) : EventLoopThread :=
  mkThread (loop_ t) true (object t) ODtor (thread t).

(** The end of an event-loop step: [loop()] has returned when the loop is idle. *)
Definition ran_loop (s : EventLoop) (t : EventLoopThread) : EventLoopThread :=
  set_thread (if is_idle s then TClear else TLooping) (set_object s t).

(** Channels of the loop whose callbacks make no calls on it. *)
Definition silent (e : event) : bool := match e with EvIo (_ :: _) => false | _ => true end.

(** The steps; [busy] says whether the loop has users: other threads calling it
    and callbacks that do. *)
Inductive tstep (busy : bool) : EventLoopThread -> EventLoopThread -> Prop :=
| ts_start t : owner t = ONew -> tstep busy t (startLoop t)
| ts_create t : thread t = TNew -> tstep busy t (set_thread TPublish (set_object EventLoop_new t))
| ts_publish t : thread t = TPublish -> locked t = false ->
    tstep busy t (mkThread true (exiting_ t) (object t) (owner t) TCalling)
| ts_started t : owner t = OStarting -> loop_ t = true -> tstep busy t (set_owner OStarted t)
| ts_enter t s : thread t = TCalling -> object t = Some s -> tstep busy t (set_thread TLooping (set_object (enter_loop s) t))
| ts_loop t s s' : thread t = TLooping -> object t = Some s -> loop_step s = Some s' -> tstep busy t (ran_loop s' t)
| ts_poll t s ready : thread t = TLooping -> object t = Some s -> at_place s = AtPoll -> code s = [] ->
    poll_contract ready s -> busy = true \/ forallb silent ready = true -> tstep busy t (set_object (poll_return ready s) t)
| ts_clear t : thread t = TClear -> locked t = false -> tstep busy t (mkThread false (exiting_ t) None (owner t) TExited)
| ts_call t s op : busy = true -> object t = Some s -> tstep busy t (set_object (start_call op s) t)
| ts_remote t s s' n : busy = true -> object t = Some s -> remote_step n s = Some s' -> tstep busy t (set_object s' t)
| ts_destroy t : owner t = ONew \/ owner t = OStarted -> tstep busy t (destroy t)
| ts_lock_none t : owner t = ODtor -> loop_ t = false -> tstep busy t (set_owner OJoin t)
| ts_lock t s : owner t = ODtor -> loop_ t = true -> object t = Some s ->
    tstep busy t (set_owner (OQuit (length (calls s))) (set_object (start_call Quit s) t))
| ts_quit t n s s' : owner t = OQuit n -> object t = Some s -> remote_step n s = Some s' -> tstep busy t (set_object s' t)
| ts_unlock t n s : owner t = OQuit n -> object t = Some s -> calls s !! n = Some [] -> tstep busy t (set_owner OJoin t)
| ts_join t : owner t = OJoin -> thread t = TNone \/ thread t = TExited -> tstep busy t (set_owner ODone t).

Definition treachable (busy : bool) (t : EventLoopThread) : Prop := rtc (tstep busy) EventLoopThread_new t.

(** ** The invariant *)

Definition alive (p : thread_pc) : bool := match p with TPublish | TCalling | TLooping | TClear => true | _ => false end.
Definition published (p : thread_pc) : bool := match p with TCalling | TLooping | TClear => true | _ => false end.

(** What the thread's position says about the loop. *)
Definition object_at (p : thread_pc) (s : EventLoop) : Prop :=
  match p with
  | TPublish | TCalling => at_place s = AtIdle /\ code s = []
  | TLooping => at_place s <> AtIdle
  | TClear => at_place s = AtIdle
  | _ => True
  end.

Record thread_inv (t : EventLoopThread) : Prop := {
  ti_loop : loop_ t = published (thread t);
  ti_object : match object t with
    | Some s => alive (thread t) = true /\ reachable s /\ object_at (thread t) s
    | None => alive (thread t) = false
    end;
  ti_owner : match owner t with
    | ONew => thread t = TNone
    | OStarting | OStarted => thread t <> TNone
    | OQuit n => loop_ t = true /\ exists s, object t = Some s /\ is_Some (calls s !! n)
    | ODone => thread t = TNone \/ thread t = TExited
    | _ => True
    end
}.

(** The loop thread's steps other than entering and leaving [loop()] keep it
    where it is. *)
Lemma remote_step_place n s s' : remote_step n s = Some s' -> at_place s' = at_place s /\ code s' = code s.
Proof.
  unfold remote_step. destruct (calls s !! n) as [[|i rest]|]; try done.
  destruct (exec false i s) as [s1 c] eqn:E. intros [= <-]. cbn.
  destruct i; cbn in E; injection E as <- <-; try done; unfold wakeup; by destruct (_ <=? _).
Qed.

Lemma remote_step_calls n s s' m : remote_step n s = Some s' -> is_Some (calls s !! m) -> is_Some (calls s' !! m).
Proof.
  unfold remote_step. destruct (calls s !! n) as [[|i rest]|]; try done.
  destruct (exec false i s) as [s1 c] eqn:E. intros [= <-]. cbn. rewrite !lookup_lt_is_Some, length_insert. done.
Qed.

Lemma loop_step_calls s s' : loop_step s = Some s' -> calls s' = calls s.
Proof.
  unfold loop_step. destruct (code s) as [|i rest].
  - destruct (at_place s) as [| | |[|e es]| |[|f fs]]; try done; intros [= <-]; try done. by destruct (quit_ s).
  - destruct (exec true i s) as [s1 c] eqn:E. intros [= <-]. cbn.
    destruct i; cbn in E; injection E as <- <-; try done. destruct (callingPendingFunctors_ s); [|done].
    unfold wakeup. by destruct (_ <=? _).
Qed.

(** A step of the loop object, at an unchanged or another live position. *)
Lemma inv_move p t s s' :
  thread_inv t -> object t = Some s -> alive p = true -> published p = published (thread t) -> reachable s' -> object_at p s' ->
  (forall m, is_Some (calls s !! m) -> is_Some (calls s' !! m)) -> thread_inv (set_thread p (set_object s' t)).
Proof.
  intros [Hl Ho Hw] Es Ha Hp Hr Hat Hc. rewrite Es in Ho. destruct Ho as (Hat' & _ & _). constructor; cbn; [congruence|done|].
  destruct (owner t); try done.
  - rewrite Hw in Hat'. done.
  - by destruct p.
  - by destruct p.
  - destruct Hw as (? & s0 & Es' & Hn). split; [done|]. exists s'. split; [done|]. apply Hc. congruence.
  - destruct Hw as [E|E]; by rewrite E in Hat'.
Qed.

Lemma set_thread_same t s : set_thread (thread t) (set_object s t) = set_object s t.
Proof. by destruct t. Qed.

Lemma inv_object t s s' :
  thread_inv t -> object t = Some s -> step s s' -> object_at (thread t) s' ->
  (forall m, is_Some (calls s !! m) -> is_Some (calls s' !! m)) -> thread_inv (set_object s' t).
Proof.
  intros H Es Hstep Hat Hc. pose proof (ti_object _ H) as Ho. rewrite Es in Ho. destruct Ho as (? & ? & _).
  rewrite <- set_thread_same. apply (inv_move _ _ s); try done. by eapply rtc_r.
Qed.

Lemma object_at_ext p s s' : at_place s' = at_place s -> code s' = code s -> object_at p s -> object_at p s'.
Proof. intros Hp Hc. unfold object_at. by rewrite Hp, Hc. Qed.

Lemma start_call_calls op s m : is_Some (calls s !! m) -> is_Some (calls (start_call op s) !! m).
Proof. cbn. rewrite !lookup_lt_is_Some, length_app. lia. Qed.

Lemma inv_start_call t s op : thread_inv t -> object t = Some s -> thread_inv (set_object (start_call op s) t).
Proof.
  intros H Es. pose proof (ti_object _ H) as Ho. rewrite Es in Ho. destruct Ho as (_ & _ & Hat).
  apply (inv_object t s); auto using step_call, start_call_calls.
Qed.

Lemma inv_remote_step t s s' n : thread_inv t -> object t = Some s -> remote_step n s = Some s' -> thread_inv (set_object s' t).
Proof.
  intros H Es E. pose proof (ti_object _ H) as Ho. rewrite Es in Ho. destruct Ho as (_ & _ & Hat).
  destruct (remote_step_place _ _ _ E) as [Hp Hc].
  apply (inv_object t s); eauto using step_remote, remote_step_calls, object_at_ext.
Qed.

Lemma inv_loop_step t s s' :
  thread_inv t -> thread t = TLooping -> object t = Some s -> step s s' -> calls s' = calls s -> thread_inv (ran_loop s' t).
Proof.
  intros H Ht Es E Hc. pose proof (ti_object _ H) as Ho. rewrite Es in Ho. destruct Ho as (_ & Hr & Hat).
  apply (inv_move _ _ s); try done.
  - by destruct (is_idle s').
  - rewrite Ht. by destruct (is_idle s').
  - by eapply rtc_r.
  - unfold is_idle. by destruct (at_place s') eqn:Ep; cbn; rewrite Ep.
  - intros m. by rewrite Hc.
Qed.

Lemma thread_step_inv busy t t' : thread_inv t -> tstep busy t t' -> thread_inv t'.
Proof.
  intros H Hs. pose proof H as [Hl Ho Hw].
  destruct Hs as [t Eo|t Et|t Et Hm|t Eo Elo|t s Et Es|t s s' Et Es E|t s ready Et Es Ep Ec Hpc _|t Et Hm|t s op _ Es|t s s' n _ Es E
    |t Eo|t Eo Elo|t s Eo Elo Es|t n s s' Eo Es E|t n s Eo Es E|t Eo Et].
  - rewrite Eo in Hw. constructor; cbn; [|destruct (object t); cbn in Ho|done]; by rewrite Hw in *.
  - rewrite Et in *. constructor; cbn; [done|split_and!; try done; constructor|].
    destruct (owner t); try done; [|by destruct Hw]. destruct Hw as (? & _). cbn in *; congruence.
  - rewrite Et in *. unfold locked in Hm. constructor; cbn; [done|by destruct (object t)|].
    destruct (owner t); try done. by destruct Hw.
  - rewrite Eo in *. by constructor.
  - rewrite Es in Ho. pose proof Ho as (Ha & Hr & Hat). rewrite Et in Hat. destruct Hat as [Hp Hc].
    apply (inv_move _ _ s); try done; [by rewrite Et|]. eapply rtc_r; [done|]. by apply step_enter.
  - eapply (inv_loop_step t s); eauto using step_loop, loop_step_calls.
  - rewrite <- set_thread_same, Et. apply (inv_loop_step t s); try done. by apply step_poll.
  - unfold locked in Hm. constructor; cbn; try done. destruct (owner t); try done; [by rewrite Hw in Et|by right].
  - by apply (inv_start_call t s).
  - by eapply inv_remote_step.
  - by constructor.
  - by constructor.
  - destruct (inv_start_call t s Quit H Es) as [? ? ?]. constructor; cbn in *; try done. split; [done|].
    exists (start_call Quit s). split; [done|]. cbn. apply lookup_lt_is_Some. rewrite length_app. cbn. lia.
  - by eapply inv_remote_step.
  - by constructor.
  - by constructor.
Qed.

Lemma thread_reachable_inv busy t : treachable busy t -> thread_inv t.
Proof.
  intros H. assert (thread_inv EventLoopThread_new) as H0 by by constructor.
  revert H0. induction H as [|t1 t2 t3 H12 _ IH]; [done|]. intros H1. apply IH. by eapply thread_step_inv.
Qed.

(** C27: The destructor never touches a dead loop: whenever the owner is inside
    [loop_->quit()], under any interleaving with the loop's thread and with other
    users of the loop, the [EventLoop] is alive; and when the destructor has
    returned, the loop is destroyed and its thread has ended or was never
    started. *)
Theorem quit_on_live_loop busy t :
  treachable busy t ->
  (forall n, owner t = OQuit n -> exists s, object t = Some s /\ reachable s /\ is_Some (calls s !! n)) /\
  (owner t = ODone -> object t = None /\ loop_ t = false /\ (thread t = TNone \/ thread t = TExited)).
Proof.
  intros [Hl Ho Hw]%thread_reachable_inv. split.
  - intros n En. rewrite En in Hw. destruct Hw as (_ & s & Es & Hn). exists s. rewrite Es in Ho. destruct Ho as (_ & ? & _). done.
  - intros Ed. rewrite Ed in Hw. destruct (object t).
    + destruct Ho as [Ha _]. by destruct Hw as [E|E]; rewrite E in Ha.
    + rewrite Hl. split_and!; try done. by destruct Hw as [-> | ->].
Qed.

(** ** Joining *)

Lemma loop_step_idle s s' : loop_step s = Some s' -> at_place s = AtIdle -> at_place s' = AtIdle.
Proof.
  intros E Hp. unfold loop_step in E. destruct (code s) as [|i rest]; [by rewrite Hp in E|].
  destruct (exec true i s) as [s1 c] eqn:Ex. injection E as <-. cbn.
  by destruct (exec_frame _ _ _ _ _ Ex) as [_ ->].
Qed.

Lemma loop_steps_idle n s s' : loop_steps n s = Some s' -> at_place s = AtIdle -> at_place s' = AtIdle.
Proof.
  revert s. induction n as [|n IH]; intros s; cbn; [by intros [= ->]|]. destruct (loop_step s) as [s1|] eqn:E; [|done].
  intros Hn Hp. eapply IH; [done|]. by eapply loop_step_idle.
Qed.

Lemma ran_loop_running s t : at_place s <> AtIdle -> thread t = TLooping -> ran_loop s t = set_object s t.
Proof.
  intros Hp Ht. unfold ran_loop. assert (is_idle s = false) as -> by (unfold is_idle; by destruct (at_place s)).
  by rewrite <- Ht, set_thread_same.
Qed.

(** The loop thread's own steps, as steps of the two-thread system. *)
Lemma lift_steps busy n t s s' :
  thread t = TLooping -> object t = Some s -> loop_steps n s = Some s' -> at_place s' <> AtIdle ->
  rtc (tstep busy) t (set_object s' t).
Proof.
  revert t s. induction n as [|n IH]; intros t s Ht Es E Hp; cbn in E.
  - injection E as <-. destruct t. cbn in *. rewrite Es. constructor.
  - destruct (loop_step s) as [s1|] eqn:E1; [|done]. eapply rtc_l; [by apply (ts_loop _ t s s1)|].
    rewrite ran_loop_running; [|by intros Hi; destruct Hp; eapply loop_steps_idle|done].
    change (set_object s' t) with (set_object s' (set_object s1 t)). by apply (IH _ s1).
Qed.

Lemma top_joins t s :
  owner t = OJoin -> thread t = TLooping -> object t = Some s -> code s = [] -> at_place s = AtTop -> quit_ s = true ->
  exists t', rtc (tstep false) t t' /\ owner t' = ODone.
Proof.
  intros Eo Et Es Hc Hp Hq. pose proof (top_quits s Hc Hp Hq) as E. eexists. split.
  - eapply rtc_l; [by apply (ts_loop _ t s (leave_loop s))|]. eapply rtc_l; [by apply ts_clear; cbn; unfold locked; cbn; rewrite ?Eo|].
    eapply rtc_l; [|constructor]. apply ts_join; [done|by right].
  - done.
Qed.

(** C38: Once [quit()] has reached a running loop, the destructor's [join()]
    returns: the loop's thread can finish by its own steps, without help from
    any user of the loop. *)
Theorem destructor_joins busy t s :
  treachable busy t -> owner t = OJoin -> thread t = TLooping -> object t = Some s -> quit_ s = true ->
  exists t', rtc (tstep false) t t' /\ owner t' = ODone.
Proof.
  intros Hr Eo Et Es Hq. apply thread_reachable_inv, ti_object in Hr. rewrite Es in Hr. destruct Hr as (_ & Hr & Hat).
  rewrite Et in Hat. cbn in Hat. apply loop_reachable_inv in Hr as Hi.
  assert (looping_ s = true) as Hl by (rewrite (li_looping _ Hi); unfold is_idle; by destruct (at_place s)).
  assert (at_place s = AtPoll \/ at_place s <> AtPoll) as [Hp|Hp] by (destruct (at_place s); auto).
  - assert (code s = []) as Hc by (pose proof (li_code _ Hi) as Hc; by rewrite Hp in Hc).
    set (ready := if 0 <? wakeups s then [EvWakeup] else []).
    destruct (iteration_runs ready (poll_return ready s)) as (n & s1 & Hn & Hc1 & Hp1 & _ & Hq1 & _); [done|done|].
    assert (poll_contract ready s /\ forallb silent ready = true) as [Hpc Hsi].
    { unfold ready, poll_contract. destruct (Z.ltb_spec 0 (wakeups s)); split_and!; try done; [lia|by intros ?%elem_of_nil]. }
    destruct (top_joins (set_object s1 t) s1) as (t' & Hrtc & Ed); try done; [by apply Hq1|]. exists t'. split; [|done].
    eapply rtc_l; [apply (ts_poll _ t s ready); auto|]. etrans; [|exact Hrtc].
    change (set_object s1 t) with (set_object s1 (set_object (poll_return ready s) t)).
    eapply lift_steps; [done|done|done|by rewrite Hp1].
  - destruct (returns_to_top s Hl Hi Hp) as (n & s1 & Hn & Hc1 & Hp1 & Hq1).
    destruct (top_joins (set_object s1 t) s1) as (t' & Hrtc & Ed); try done; [by apply Hq1|]. exists t'. split; [|done].
    etrans; [|exact Hrtc]. eapply lift_steps; [done|done|done|by rewrite Hp1].
Qed.

(** ** A quit before the loop runs *)

(** The loop thread goes round with nothing to do and [quit_] clear. *)
Record hung (t : EventLoopThread) : Prop := {
  hu_owner : owner t = OJoin;
  hu_thread : thread t = TLooping;
  hu_object : exists s, object t = Some s /\ quit_ s = false /\ pendingFunctors_ s = [] /\ batch s = [] /\ at_place s <> AtIdle /\
    forallb is_drain (code s) = true /\ (if at_place s is AtEvents es then forallb silent es = true else True)
}.

Lemma hung_step t t' : hung t -> tstep false t t' -> hung t'.
Proof.
  intros [Eo Et (s & Es & Hq & Hpend & Hb & Hni & Hc & Hev)] Hs.
  destruct Hs as [| | | | |t s0 s1 _ Es0 E|t s0 ready _ Es0 Ep Ec Hpc Hsi|t Et'| | |t Eo'| | | | |t _ Et']; try congruence.
  - rewrite Es in Es0. injection Es0 as <-. unfold loop_step in E. destruct (code s) as [|i rest] eqn:Ecode.
    + unfold batch in Hb. destruct (at_place s) as [| | |[|e es]| |[|f fs]] eqn:Ep; try done; rewrite ?Hq in E; injection E as <-;
        (constructor; [done|done|]); eexists; (split; [done|]); cbn; unfold batch; cbn; rewrite ?Ecode; split_and!; try done.
      * apply andb_prop in Hev as [He _]. by destruct e as [|[|]].
      * by apply andb_prop in Hev as [_ He].
    + apply andb_prop in Hc as [Hi Hc]. destruct i; try done. injection E as <-. rewrite ran_loop_running by done.
      constructor; [done|done|]. eexists. split; [done|]. by split_and!.
  - rewrite Es in Es0. injection Es0 as <-. destruct Hsi as [?|Hsi]; [done|]. constructor; [done|done|].
    eexists. split; [done|]. cbn. rewrite Ec. by split_and!.
  - destruct Eo'; congruence.
  - destruct Et'; congruence.
Qed.

(** The owner starts the thread and destroys it before the thread has entered
    [loop()]. *)
Definition quitting : EventLoopThread :=
  mkThread true true (Some (start_call Quit EventLoop_new)) (OQuit 0) TCalling.

Lemma quitting_reachable : treachable false quitting.
Proof.
  eapply rtc_l; [by apply ts_start|]. eapply rtc_l; [by apply ts_create|]. eapply rtc_l; [by apply ts_publish|].
  eapply rtc_l; [by apply ts_started|]. eapply rtc_l; [by apply ts_destroy; right|].
  eapply rtc_l; [by eapply ts_lock|]. constructor.
Qed.

Definition quit_delivered : EventLoop := after [ACall Quit; ARemote 0; ARemote 0].

(** A quit that comes before [loop()] is lost, and the destructor hangs:
    [loop()] clears [quit_] on entry, so when the owner destroys the object
    between the publication of [loop_] and that entry, it ends in [join()] on a
    thread that never leaves [loop()]: as long as no user of the loop calls
    [quit()], no sequence of steps gets the owner out of [join()]. *)
Theorem destructor_can_hang :
  exists t, treachable false t /\ owner t = OJoin /\
    (exists s, object t = Some s /\ posted s = [] /\ calls s = [[]] /\ 0 < wakeups s) /\
    forall t', rtc (tstep false) t t' -> owner t' = OJoin /\ thread t' = TLooping.
Proof.
  exists (mkThread true true (Some (enter_loop quit_delivered)) OJoin TLooping). split_and!; [|done|by eexists|].
  - unfold treachable. etrans; [exact quitting_reachable|]. eapply rtc_l; [by eapply (ts_quit _ _ 0)|]. eapply rtc_l; [by eapply (ts_quit _ _ 0)|].
    eapply rtc_l; [by eapply (ts_unlock _ _ 0)|]. eapply rtc_l; [by apply ts_enter|]. constructor.
  - intros t' H. assert (hung t') as [? ? _]; [|done]. revert H.
    assert (hung (mkThread true true (Some (enter_loop quit_delivered)) OJoin TLooping)) as H0.
    { constructor; [done|done|]. eexists. split; [done|]. by split_and!. }
    revert H0. generalize (mkThread true true (Some (enter_loop quit_delivered)) OJoin TLooping). intros t H0 H.
    induction H as [|t1 t2 t3 H12 _ IH]; [done|]. apply IH. by eapply hung_step.
Qed.

Lemma quit_on_live_loop_witness :
  (exists s, object quitting = Some s /\ reachable s /\ is_Some (calls s !! 0%nat)) /\
  (owner quitting = ODone -> object quitting = None /\ loop_ quitting = false /\ (thread quitting = TNone \/ thread quitting = TExited)).
Proof. destruct (quit_on_live_loop false quitting quitting_reachable) as [H1 H2]. split; [exact (H1 0%nat eq_refl)|exact H2]. Defined.

(** The loop is running when the owner destroys the object. *)
Definition joining : EventLoopThread :=
  mkThread true true (Some (after [AEnter; ACall Quit; ARemote 0; ARemote 0])) OJoin TLooping.

Lemma joining_reachable : treachable false joining.
Proof.
  eapply rtc_l; [by apply ts_start|]. eapply rtc_l; [by apply ts_create|]. eapply rtc_l; [by apply ts_publish|].
  eapply rtc_l; [by apply ts_started|]. eapply rtc_l; [by eapply ts_enter|]. eapply rtc_l; [by apply ts_destroy; right|].
  eapply rtc_l; [by eapply ts_lock|]. eapply rtc_l; [by eapply (ts_quit _ _ 0)|]. eapply rtc_l; [by eapply (ts_quit _ _ 0)|].
  eapply rtc_l; [by eapply (ts_unlock _ _ 0)|]. constructor.
Qed.

Lemma destructor_joins_witness : exists t', rtc (tstep false) joining t' /\ owner t' = ODone.
Proof. exact (destructor_joins false joining _ joining_reachable eq_refl eq_refl eq_refl eq_refl). Defined.
