(* ===== verification/HttpRequest.v ===== *)
(** * HttpRequest: the request parser

    [include/HttpRequest.h] and [src/HttpRequest.cpp].  The parser works on the
    bytes between two pointers; [std::stoi] throws on a malformed number and
    nobody catches it, so a parse has three outcomes. *)
From S2P Require Import Prelude Charconv.

Inductive Method := kInvalid | kGet.

Record HttpRequest := mkHttpRequest {
  method_ : Method;
  path_ : bytes;
  query_ : bytes;
  headers_ : gmap bytes bytes;
  majorVersion_ : Z;
  minorVersion_ : Z
}.

Definition HttpRequest_new : HttpRequest := mkHttpRequest kInvalid [] [] ∅ 1 0.

(** The returned [bool] with the object afterwards, or an exception. *)
Inductive http_outcome :=
| Parsed (ok : bool) (r : HttpRequest)
| Uncaught.

(** ** Strings *)

(** [std::search] and [std::string::find]: the offset of the first match. *)
Fixpoint starts_with (pat l : bytes) : bool :=
  match pat, l with
  | [], _ => true
  | p :: pat, c :: l => bool_decide (p = c) && starts_with pat l
  | _ :: _, [] => false
  end.

Fixpoint search (pat l : bytes) : option nat :=
  if starts_with pat l then Some O
  else match l with [] => None | _ :: l => S <$> search pat l end.

Definition crlf : bytes := [x0d; x0a].

(** White space for [operator>>] and [std::stoi] in the C locale. *)
Definition isspace (c : byte) : bool := ((9 <=? b2z c) && (b2z c <=? 13)) || (b2z c =? 32).

Fixpoint drop_while (p : byte -> bool) (s : bytes) : bytes :=
  match s with c :: s' => if p c then drop_while p s' else s | [] => [] end.

Fixpoint take_while (p : byte -> bool) (s : bytes) : bytes :=
  match s with c :: s' => if p c then c :: take_while p s' else [] | [] => [] end.

(** [iss >> word]: the word and what is left; [None] when the extraction fails. *)
Definition extract (s : bytes) : option (bytes * bytes) :=
  match drop_while isspace s with
  | [] => None
  | s => Some (take_while (fun c => negb (isspace c)) s, drop_while (fun c => negb (isspace c)) s)
  end.

(** [std::stoi]; [None] is an exception. *)
Definition stoi (s : bytes) : option Z :=
  let '(negative, s) :=
    match drop_while isspace s with
    | c :: s => if bool_decide (c = "-"%byte) then (true, s) else if bool_decide (c = "+"%byte) then (false, s) else (false, c :: s)
    | [] => (false, [])
    end in
  match fst (scan_digits s) with
  | [] => None
  | ds =>
      let v := if negative : bool then - digits_val ds else digits_val ds in
      if (- 2 ^ 31 <=? v) && (v <=? 2 ^ 31 - 1) then Some v else None
  end.

(** ** The parser *)

Definition hexToInt (c : byte) : Z :=
  if (b2z "0"%byte <=? b2z c) && (b2z c <=? b2z "9"%byte) then b2z c - b2z "0"%byte
  else if (b2z "a"%byte <=? b2z c) && (b2z c <=? b2z "f"%byte) then b2z c - b2z "a"%byte + 10
  else if (b2z "A"%byte <=? b2z c) && (b2z c <=? b2z "F"%byte) then b2z c - b2z "A"%byte + 10
  else -1.

Fixpoint urlDecode (input : bytes) : bytes :=
  match input with
  | [] => []
  | c :: rest =>
      if bool_decide (c = "%"%byte) then
        match rest with
        | high :: low :: rest' =>
            let h := hexToInt high in
            let l := hexToInt low in
            if (0 <=? h) && (0 <=? l) then z2b (Z.lor (Z.shiftl h 4) l) :: urlDecode rest'
            else "%"%byte :: urlDecode rest
        | _ => c :: urlDecode rest
        end
      else if bool_decide (c = "+"%byte) then " "%byte :: urlDecode rest
      else c :: urlDecode rest
  end.

Definition set_path (p : bytes) (r : HttpRequest) : HttpRequest :=
  mkHttpRequest (method_ r) p (query_ r) (headers_ r) (majorVersion_ r) (minorVersion_ r).

(** The version part of [parseRequestLine]; [None] is an exception. *)
Definition parseVersion (version : bytes) (r : HttpRequest) : option HttpRequest :=
  if (5 <=? len version) && bool_decide (take 5 version = str "HTTP/") then
    let verStr := drop 5 version in
    match search [x2e] verStr with
    | Some dotPos =>
        major ← stoi (take dotPos verStr);
        minor ← stoi (drop (S dotPos) verStr);
        Some (mkHttpRequest (method_ r) (path_ r) (query_ r) (headers_ r) major minor)
    | None => Some r
    end
  else Some r.

Definition parseRequestLine (requestLine : bytes) (r : HttpRequest) : http_outcome :=
  match '(method, s) ← extract requestLine; '(path, s) ← extract s; '(version, _) ← extract s; Some (method, path, version) with
  | None => Parsed false r
  | Some (method, path, version) =>
      if negb (bool_decide (method = str "GET"))
      then Parsed false (mkHttpRequest kInvalid (path_ r) (query_ r) (headers_ r) (majorVersion_ r) (minorVersion_ r))
      else
        let '(query, path) :=
          match search (str "?") path with
          | Some queryPos => (drop (S queryPos) path, take queryPos path)
          | None => (query_ r, path)
          end in
        let path := urlDecode path in
        let r := mkHttpRequest kGet path query (headers_ r) (majorVersion_ r) (minorVersion_ r) in
        match search (str "..") path with
        | Some _ => Parsed false r
        | None =>
            let r := if bool_decide (path = str "/") then set_path (str "/index.html") r else r in
            match parseVersion version r with
            | Some r => Parsed true r
            | None => Uncaught
            end
        end
  end.

Definition is_blank (c : byte) : bool := bool_decide (c = " "%byte) || bool_decide (c = x09).

(** The two [erase] calls; with nothing but blanks both positions are [npos] and
    the string becomes empty. *)
Definition trim (s : bytes) : bytes := rev (drop_while is_blank (rev (drop_while is_blank s))).

(** One header line. *)
Definition parseHeader (line : bytes) (r : HttpRequest) : HttpRequest :=
  match search (str ":") line with
  | Some colonPos =>
      mkHttpRequest (method_ r) (path_ r) (query_ r)
        (<[trim (take colonPos line) := trim (drop (S colonPos) line)]> (headers_ r)) (majorVersion_ r) (minorVersion_ r)
  | None => r
  end.

(** [parseHeaders]; the loop is bounded by the bytes left. *)
Fixpoint headers_loop (fuel : nat) (data : bytes) (r : HttpRequest) : option (bool * HttpRequest) :=
  match fuel with
  | O => None
  | S fuel =>
      match data with
      | [] => Some (false, r)
      | _ =>
          match search crlf data with
          | None => Some (false, r)
          | Some O => Some (true, r)
          | Some n => headers_loop fuel (drop (n + 2) data) (parseHeader (take n data) r)
          end
      end
  end.

Definition parseHeaders (data : bytes) (r : HttpRequest) : option (bool * HttpRequest) :=
  headers_loop (S (length data)) data r.

Definition parseRequest (data : bytes) (r : HttpRequest) : option http_outcome :=
  match search crlf data with
  | None => Some (Parsed false r)
  | Some n =>
      match parseRequestLine (take n data) r with
      | Parsed true r =>
          '(ok, r) ← parseHeaders (drop (n + 2) data) r;
          Some (Parsed ok r)
      | outcome => Some outcome
      end
  end.

Definition getHeader (r : HttpRequest) (field : bytes) : bytes := default [] (headers_ r !! field).

(** ** Searching *)

Lemma starts_with_spec pat l : starts_with pat l = true <-> exists t, l = pat ++ t.
Proof.
  revert l. induction pat as [|p pat IH]; intros l; cbn; [split; eauto|].
  destruct l as [|c l]; [split; [done|by intros [t ?]]|]. rewrite andb_true_iff, bool_decide_eq_true, IH. split.
  - intros [-> [t ->]]. by exists t.
  - intros [t [= -> ->]]. eauto.
Qed.

Lemma search_Some pat l n :
  search pat l = Some n <-> starts_with pat (drop n l) = true /\ forall m, (m < n)%nat -> starts_with pat (drop m l) = false.
Proof.
  revert n. induction l as [|c l IH]; intros n; cbn [search].
  - rewrite drop_nil. destruct (starts_with pat []) eqn:E.
    + split; [intros [= <-]; split; [done|lia]|]. intros [_ H]. destruct n; [done|]. specialize (H O ltac:(lia)). cbn in H. congruence.
    + split; [done|]. by intros [? _].
  - destruct (starts_with pat (c :: l)) eqn:E.
    + split; [intros [= <-]; split; [done|lia]|]. intros [_ H]. destruct n; [done|]. specialize (H O ltac:(lia)). cbn in H. congruence.
    + rewrite fmap_Some. split.
      * intros (k & [H1 H2]%IH & ->). split; [done|]. intros [|m] Hm; [done|]. apply H2. lia.
      * intros [H1 H2]. destruct n as [|n]; [cbn in H1; congruence|]. exists n. split; [|done]. apply IH. split; [done|].
        intros m Hm. by apply (H2 (S m) ltac:(lia)).
Qed.

Lemma search_None pat l : pat <> [] -> search pat l = None <-> forall m, starts_with pat (drop m l) = false.
Proof.
  intros Hp. split.
  - intros E m. destruct (starts_with pat (drop m l)) eqn:Em; [|done]. exfalso. revert l E Em.
    induction m as [|m IH]; intros l E Em.
    + rewrite drop_0 in Em. destruct l; cbn [search] in E; by rewrite Em in E.
    + destruct l as [|c l]; [by destruct pat|]. cbn [search] in E. destruct (starts_with pat (c :: l)); [done|].
      apply fmap_None in E. by apply (IH l).
  - intros H. destruct (search pat l) as [n|] eqn:E; [|done]. apply search_Some in E as [E _]. by rewrite H in E.
Qed.

(** Where nothing matches before [k], the search may start at [k]. *)
Lemma search_skip pat l k :
  (forall m, (m < k)%nat -> starts_with pat (drop m l) = false) -> search pat l = Nat.add k <$> search pat (drop k l).
Proof.
  intros H. destruct (search pat (drop k l)) as [n|] eqn:E; cbn.
  - apply search_Some in E as [E1 E2]. rewrite drop_drop in E1. apply search_Some. split; [done|]. intros m Hm.
    destruct (decide (m < k)%nat) as [?|?]; [by apply H|]. specialize (E2 (m - k)%nat ltac:(lia)). rewrite drop_drop in E2.
    by replace (k + (m - k))%nat with m in E2 by lia.
  - destruct (search pat l) as [n|] eqn:En; [|done]. apply search_Some in En as [En _]. exfalso.
    destruct (decide (n < k)%nat) as [Hn|Hn]; [by rewrite H in En|].
    assert (starts_with pat (drop (n - k) (drop k l)) = true) as Hs by (rewrite drop_drop; by replace (k + (n - k))%nat with n by lia).
    destruct pat as [|p pat]; [destruct (drop k l); done|]. rewrite (proj1 (search_None (p :: pat) _ ltac:(done)) E) in Hs. done.
Qed.

(** A line: no line end inside. *)
Definition clean (line : bytes) : Prop := search crlf line = None.

Lemma crlf_in_line line rest m :
  clean line -> (m < length line)%nat -> starts_with crlf (drop m (line ++ crlf ++ rest)) = false.
Proof.
  intros Hc Hm. rewrite drop_app_le by lia. pose proof (proj1 (search_None crlf line ltac:(done)) Hc m) as Hn.
  destruct (drop m line) as [|a [|b l]] eqn:E.
  - apply (f_equal length) in E. rewrite length_drop in E. cbn in E. lia.
  - cbn. rewrite (bool_decide_false (x0a = x0d)) by done. by rewrite andb_false_r.
  - exact Hn.
Qed.

Lemma search_line line rest : clean line -> search crlf (line ++ crlf ++ rest) = Some (length line).
Proof.
  intros Hc. apply search_Some. split; [by rewrite drop_app_length|]. intros m Hm. by apply crlf_in_line.
Qed.

Lemma search_line_sound data n :
  search crlf data = Some n -> exists line rest, data = line ++ crlf ++ rest /\ clean line /\ length line = n.
Proof.
  intros [H1 H2]%search_Some. apply starts_with_spec in H1 as [t Ht]. exists (take n data), t.
  assert (n <= length data)%nat as Hn.
  { destruct (decide (n <= length data)%nat); [done|]. rewrite drop_ge in Ht by lia. done. }
  split; [by rewrite <- Ht, take_drop|]. split; [|rewrite length_take; lia].
  apply search_None; [done|]. intros m. destruct (decide (m < n)%nat) as [Hm|Hm].
  - specialize (H2 m Hm). destruct (starts_with crlf (drop m (take n data))) eqn:E; [|done].
    apply starts_with_spec in E as [t' E]. rewrite <- (take_drop n data), drop_app_le, E in H2 by (rewrite length_take; lia). done.
  - rewrite drop_ge; [done|]. rewrite length_take. lia.
Qed.

(** ** The text of a request *)

Definition header_block (hs : list bytes) : bytes := concat (map (fun h => h ++ crlf) hs) ++ crlf.

(** The request line, the header lines, the empty line. *)
Definition http_text (first : bytes) (hs : list bytes) : bytes := first ++ crlf ++ header_block hs.

Definition header_line (h : bytes) : Prop := h <> [] /\ clean h.

Definition add_headers (hs : list bytes) (r : HttpRequest) : HttpRequest := foldl (fun r h => parseHeader h r) r hs.

Lemma header_block_cons h hs rest : header_block (h :: hs) ++ rest = h ++ crlf ++ header_block hs ++ rest.
Proof. unfold header_block. cbn [map concat]. by rewrite <- !app_assoc. Qed.

Lemma headers_loop_complete hs rest fuel r :
  Forall header_line hs -> (length hs < fuel)%nat ->
  headers_loop fuel (header_block hs ++ rest) r = Some (true, add_headers hs r).
Proof.
  intros Hh. revert fuel r. induction Hh as [|h hs [Hne Hc] _ IH]; intros [|fuel] r Hf; cbn [length] in Hf; try lia; [done|].
  rewrite header_block_cons. cbn [headers_loop]. rewrite search_line by done. destruct h as [|c h]; [done|].
  cbn [app]. cbn [length].
  change (add_headers ((c :: h) :: hs) r) with (add_headers hs (parseHeader (c :: h) r)). rewrite <- (IH fuel) by lia. f_equal.
  - change (c :: h ++ crlf ++ header_block hs ++ rest) with ((c :: h) ++ crlf ++ header_block hs ++ rest).
    rewrite app_assoc, drop_app_length'; [done|]. rewrite length_app. cbn. lia.
  - change (c :: h ++ crlf ++ header_block hs ++ rest) with ((c :: h) ++ crlf ++ header_block hs ++ rest).
    by rewrite take_app_length' by done.
Qed.

Lemma headers_loop_sound fuel data r r' :
  headers_loop fuel data r = Some (true, r') ->
  exists hs rest, data = header_block hs ++ rest /\ Forall header_line hs /\ r' = add_headers hs r.
Proof.
  revert data r. induction fuel as [|fuel IH]; intros data r; cbn [headers_loop]; [done|].
  destruct data as [|c data]; [done|]. destruct (search crlf (c :: data)) as [n|] eqn:E; [|done].
  apply search_line_sound in E as (line & rest & Ed & Hc & Hn). rewrite Ed. destruct n as [|n].
  - intros [= <-]. destruct line; [|done]. exists [], rest. by split_and!.
  - rewrite app_assoc, drop_app_length' by (rewrite length_app; cbn; lia).
    rewrite <- app_assoc, take_app_length' by done. intros H.
    destruct (IH _ _ H) as (hs & rest' & -> & Hh & ->). exists (line :: hs), rest'. split; [by rewrite header_block_cons|].
    split; [|done]. constructor; [|done]. split; [by intros ->|done].
Qed.

Lemma headers_loop_total fuel data r : (length data < fuel)%nat -> is_Some (headers_loop fuel data r).
Proof.
  revert data r. induction fuel as [|fuel IH]; intros data r Hf; [lia|]. cbn [headers_loop].
  destruct data as [|c data]; [eauto|]. destruct (search crlf (c :: data)) as [[|n]|]; [eauto| |eauto].
  apply IH. rewrite length_drop. cbn in *. lia.
Qed.

Lemma length_header_block hs : (length hs + 2 <= length (header_block hs))%nat.
Proof.
  unfold header_block. rewrite length_app. induction hs as [|h hs IH]; cbn; [lia|]. rewrite !length_app in *. cbn in *. lia.
Qed.

Lemma parseRequest_first first rest r :
  clean first ->
  parseRequest (first ++ crlf ++ rest) r =
    match parseRequestLine first r with
    | Parsed true r => '(ok, r) ← parseHeaders rest r; Some (Parsed ok r)
    | outcome => Some outcome
    end.
Proof.
  intros Hc. unfold parseRequest. rewrite search_line by done.
  rewrite take_app_length' by done. rewrite app_assoc, drop_app_length' by (rewrite length_app; cbn; lia). done.
Qed.

Lemma parseRequest_text first hs rest r r1 :
  clean first -> Forall header_line hs -> parseRequestLine first r = Parsed true r1 ->
  parseRequest (http_text first hs ++ rest) r = Some (Parsed true (add_headers hs r1)).
Proof.
  intros Hc Hh E. unfold http_text. rewrite <- !app_assoc, parseRequest_first, E by done. unfold parseHeaders.
  rewrite headers_loop_complete; [done|done|]. rewrite length_app. pose proof (length_header_block hs). lia.
Qed.

Lemma parseRequest_sound data r r' :
  parseRequest data r = Some (Parsed true r') ->
  exists first hs rest r1, data = http_text first hs ++ rest /\ clean first /\ Forall header_line hs /\
    parseRequestLine first r = Parsed true r1 /\ r' = add_headers hs r1.
Proof.
  unfold parseRequest. destruct (search crlf data) as [n|] eqn:E; [|done].
  apply search_line_sound in E as (first & rest & -> & Hc & <-). rewrite take_app_length' by done.
  rewrite app_assoc, drop_app_length' by (rewrite length_app; cbn; lia).
  destruct (parseRequestLine first r) as [[|] r1|] eqn:E1; [|done|done]. unfold parseHeaders.
  destruct (headers_loop _ rest r1) as [[ok r2]|] eqn:E2; [|done]. cbn [mbind option_bind]. intros [= -> <-].
  destruct (headers_loop_sound _ _ _ _ E2) as (hs & rest' & -> & Hh & ->). exists first, hs, rest', r1. split_and!; try done.
  unfold http_text. by rewrite <- !app_assoc.
Qed.

Lemma parseRequest_total data r : is_Some (parseRequest data r).
Proof.
  unfold parseRequest. destruct (search crlf data) as [n|]; [|eauto].
  destruct (parseRequestLine (take n data) r) as [[|] r1|]; [|eauto|eauto]. unfold parseHeaders.
  destruct (headers_loop_total (S (length (drop (n + 2) data))) (drop (n + 2) data) r1) as [[ok r2] E]; [lia|].
  rewrite E. cbn. eauto.
Qed.

(** ** The end of the header block *)

Lemma starts_with_crlf2 l : starts_with crlf l = false -> starts_with (crlf ++ crlf) l = false.
Proof.
  intros H. destruct (starts_with (crlf ++ crlf) l) eqn:E; [|done]. apply starts_with_spec in E as [t ->].
  by rewrite <- H.
Qed.

Lemma search_blank hs line rest :
  clean line -> Forall header_line hs ->
  search (crlf ++ crlf) (line ++ crlf ++ header_block hs ++ rest) = Some (length (line ++ crlf ++ header_block hs) - 4)%nat.
Proof.
  intros Hl Hh. revert line Hl. induction Hh as [|h hs [Hne Hc] Hhs IH]; intros line Hl.
  - apply search_Some. rewrite length_app. cbn [length header_block map concat app crlf].
    replace (length line + 4 - 4)%nat with (length line) by lia. split; [by rewrite drop_app_length|].
    intros m Hm. apply starts_with_crlf2. by apply (crlf_in_line line (crlf ++ rest)).
  - rewrite header_block_cons. rewrite (search_skip _ _ (length line + 2)%nat).
    + rewrite app_assoc, drop_app_length' by (rewrite length_app; cbn; lia). rewrite IH by done. cbn [fmap option_fmap option_map].
      f_equal. pose proof (length_header_block hs). unfold header_block in *. cbn [map concat].
      rewrite !length_app in *. cbn [length crlf] in *. lia.
    + intros m Hm. destruct (decide (m < length line)%nat) as [?|?]; [apply starts_with_crlf2; by apply crlf_in_line|].
      rewrite drop_app_ge by lia. destruct (m - length line)%nat as [|[|k]] eqn:Ek; [| |lia]; cbn [drop crlf app].
      * destruct (starts_with (crlf ++ crlf) (x0d :: x0a :: h ++ crlf ++ header_block hs ++ rest)) eqn:E; [|done].
        apply starts_with_spec in E as [t E]. cbn in E. injection E as E.
        pose proof (search_line h (header_block hs ++ rest) Hc) as Hs. cbn in Hs. rewrite E in Hs. cbn in Hs. injection Hs as Hs. by destruct h.
      * done.
Qed.

(** ** What an accepted request looks like *)

Lemma parseVersion_keeps version r r' : parseVersion version r = Some r' -> method_ r' = method_ r /\ path_ r' = path_ r.
Proof.
  unfold parseVersion. destruct (_ && _); [|by intros [= <-]]. destruct (search _ _) as [n|]; [|by intros [= <-]].
  destruct (stoi (take n _)); [|done]. cbn [mbind option_bind]. destruct (stoi (drop (S n) _)); [|done]. by intros [= <-].
Qed.

Lemma parseRequestLine_path line r r' :
  parseRequestLine line r = Parsed true r' ->
  method_ r' = kGet /\ search (str "..") (path_ r') = None /\ path_ r' <> str "/".
Proof.
  unfold parseRequestLine. destruct (_ ≫= _) as [[[m p] v]|]; [|done]. destruct (negb _); [done|].
  destruct (match search (str "?") p with Some queryPos => _ | None => _ end) as [q p']. cbn zeta.
  destruct (search (str "..") (urlDecode p')) eqn:Ed; [done|].
  destruct (parseVersion v _) as [r1|] eqn:Ev; [|done]. intros [= <-]. apply parseVersion_keeps in Ev as [-> ->].
  case_bool_decide as Hp; [by split_and!|]. by split_and!.
Qed.

Lemma add_headers_path hs r : method_ (add_headers hs r) = method_ r /\ path_ (add_headers hs r) = path_ r.
Proof.
  revert r. induction hs as [|h hs IH]; intros r; [done|].
  change (add_headers (h :: hs) r) with (add_headers hs (parseHeader h r)). destruct (IH (parseHeader h r)) as [-> ->].
  unfold parseHeader. by destruct (search _ h).
Qed.

(** A part of a request that is not yet complete is neither accepted nor does it
    throw. *)
Lemma parseRequest_prefix first hs p more r r1 :
  clean first -> Forall header_line hs -> parseRequestLine first r = Parsed true r1 ->
  p ++ more = http_text first hs -> more <> [] ->
  exists r', parseRequest p r = Some (Parsed false r').
Proof.
  intros Hc Hh E Hp Hm. destruct (parseRequest_total p r) as [o Eo]. destruct o as [[|] r'|]; [|by exists r'|].
  - exfalso. apply parseRequest_sound in Eo as (first' & hs' & rest & r2 & -> & Hc' & Hh' & _ & _).
    pose proof (search_blank hs first [] Hc Hh) as S1. pose proof (search_blank hs' first' (rest ++ more) Hc' Hh') as S2.
    rewrite app_nil_r in S1. change (first ++ crlf ++ header_block hs) with (http_text first hs) in S1.
    rewrite <- Hp in S1. unfold http_text in S1 at 1. rewrite <- !app_assoc in S1. rewrite S1 in S2. injection S2 as S2.
    unfold http_text in S2. rewrite !length_app in S2. pose proof (length_header_block hs'). destruct more; [done|].
    cbn [length crlf] in S2. lia.
  - exfalso. unfold parseRequest in Eo. destruct (search crlf p) as [n|] eqn:En; [|done].
    apply search_line_sound in En as (line & rest & -> & Hl & <-). rewrite take_app_length' in Eo by done.
    unfold http_text in Hp. rewrite <- !app_assoc in Hp.
    pose proof (search_line line (rest ++ more) Hl) as S1. rewrite Hp, search_line in S1 by done. injection S1 as S1.
    apply app_inj_1 in Hp as [-> _]; [|done]. rewrite E in Eo.
    destruct (parseHeaders _ r1) as [[ok r2]|]; done.
Qed.

(** ** URL decoding *)

Definition hex_digit (n : Z) : byte := nth (Z.to_nat n) (str "0123456789ABCDEF") x00.

(** Percent-encoding, leaving the bytes of [keep] alone. *)
Definition urlEncode (keep : byte -> bool) (s : bytes) : bytes :=
  flat_map (fun c => if keep c then [c] else ["%"%byte; hex_digit (b2z c / 16); hex_digit (b2z c mod 16)]) s.

Lemma hex_digits_back c :
  0 <= hexToInt (hex_digit (b2z c / 16)) /\ 0 <= hexToInt (hex_digit (b2z c mod 16)) /\
  z2b (Z.lor (Z.shiftl (hexToInt (hex_digit (b2z c / 16))) 4) (hexToInt (hex_digit (b2z c mod 16)))) = c.
Proof.
  pose proof (byte_all (fun n => (0 <=? hexToInt (hex_digit (n / 16))) && (0 <=? hexToInt (hex_digit (n mod 16))) &&
    (Z.lor (Z.shiftl (hexToInt (hex_digit (n / 16))) 4) (hexToInt (hex_digit (n mod 16))) =? n)) ltac:(by vm_compute) c) as H.
  cbv beta in H. apply andb_prop in H as [[H1%Z.leb_le H2%Z.leb_le]%andb_prop H3%Z.eqb_eq]. split_and!; [done|done|].
  rewrite H3. apply z2b_b2z.
Qed.

(** [urlDecode] undoes percent-encoding: whatever set of bytes other than
    ['%'] and ['+'] an encoder leaves alone, every byte string comes back. *)
Theorem urlDecode_encode keep s :
  keep "%"%byte = false -> keep "+"%byte = false -> urlDecode (urlEncode keep s) = s.
Proof.
  intros H1 H2. induction s as [|c s IH]; [done|]. unfold urlEncode. cbn [flat_map].
  change (flat_map _ s) with (urlEncode keep s). destruct (keep c) eqn:Ek.
  - cbn. rewrite bool_decide_false by (intros ->; congruence). rewrite bool_decide_false by (intros ->; congruence). by rewrite IH.
  - cbn [app urlDecode]. rewrite bool_decide_true by done. destruct (hex_digits_back c) as (Hh & Hl & Hb).
    rewrite (proj2 (Z.leb_le _ _) Hh), (proj2 (Z.leb_le _ _) Hl). cbn [andb]. by rewrite Hb, IH.
Qed.

Lemma urlDecode_encode_witness :
  urlDecode (urlEncode isDigit (str "a/b c1")) = str "a/b c1" /\ urlEncode isDigit (str "/b1") = str "%2F%621".
Proof. split; [by apply urlDecode_encode|by vm_compute]. Defined.

(** ** Correctness *)

(** The request parser is exact about where a request ends: on every input it
    returns or throws; it accepts exactly the inputs that start with a request
    line it accepts, header lines and an empty line, with the headers those lines
    give; and then the first empty line in the input is the one that ends this
    request, so the caller's own search for it finds the same place. *)
Theorem request_framing data r' :
  is_Some (parseRequest data HttpRequest_new) /\
  (parseRequest data HttpRequest_new = Some (Parsed true r') <->
   exists first hs rest r1, data = http_text first hs ++ rest /\ clean first /\ Forall header_line hs /\
     parseRequestLine first HttpRequest_new = Parsed true r1 /\ r' = add_headers hs r1 /\
     search (crlf ++ crlf) data = Some (length (http_text first hs) - 4)%nat).
Proof.
  split; [apply parseRequest_total|]. split.
  - intros (first & hs & rest & r1 & -> & Hc & Hh & E & ->)%parseRequest_sound. exists first, hs, rest, r1. split_and!; try done.
    unfold http_text at 1. rewrite <- !app_assoc. by apply search_blank.
  - intros (first & hs & rest & r1 & -> & Hc & Hh & E & -> & _). by apply parseRequest_text.
Qed.

(** No directory climbing: whatever bytes a client sends, an accepted request
    is a GET whose decoded path contains no two consecutive dots, and the bare
    root has become the index page. *)
Theorem path_has_no_dotdot data r' :
  parseRequest data HttpRequest_new = Some (Parsed true r') ->
  method_ r' = kGet /\ (forall a b, path_ r' <> a ++ str ".." ++ b) /\ path_ r' <> str "/".
Proof.
  intros (first & hs & rest & r1 & -> & _ & _ & E & ->)%parseRequest_sound. destruct (add_headers_path hs r1) as [-> ->].
  destruct (parseRequestLine_path _ _ _ E) as (Hm & Hd & Hs). split_and!; try done. intros a b Hp.
  pose proof (proj1 (search_None (str "..") _ ltac:(done)) Hd (length a)) as Hn. rewrite Hp, drop_app_length in Hn. done.
Qed.

Definition sample_request : bytes := http_text (str "GET /%69ndex.html?q=1 HTTP/1.1") [].
Definition sample_parsed : HttpRequest := mkHttpRequest kGet (str "/index.html") (str "q=1") ∅ 1 1.

Lemma path_has_no_dotdot_witness :
  parseRequest sample_request HttpRequest_new = Some (Parsed true sample_parsed) /\
  method_ sample_parsed = kGet /\ (forall a b, path_ sample_parsed <> a ++ str ".." ++ b) /\ path_ sample_parsed <> str "/".
Proof. split; [by vm_compute|]. apply (path_has_no_dotdot sample_request). by vm_compute. Defined.
