(* ===== verification/HttpResponse.v ===== *)
(** * HttpResponse: the response writer

    [include/HttpResponse.h] and [src/HttpResponse.cpp].  The lines go through
    [snprintf] into 256 bytes: a longer line is cut, its line end included. *)
From S2P Require Import Prelude Buffer Charconv HttpRequest.

Definition k200Ok : Z := 200.
Definition k400BadRequest : Z := 400.
Definition k404NotFound : Z := 404.
Definition k500InternalServerError : Z := 500.

(** [std::map] as its entries in key order. *)
Record HttpResponse := mkHttpResponse {
  statusCode_ : Z;
  statusMessage_ : bytes;
  rheaders_ : list (bytes * bytes);
  body_ : bytes;
  closeConnection_ : bool
}.

Definition HttpResponse_new (close : bool) : HttpResponse := mkHttpResponse k200Ok [] [] [] close.

(** [operator<] of [std::string]. *)
Fixpoint bytes_ltb (a b : bytes) : bool :=
  match a, b with
  | _, [] => false
  | [], _ :: _ => true
  | x :: a, y :: b => if b2z x <? b2z y then true else if b2z y <? b2z x then false else bytes_ltb a b
  end.

Fixpoint map_assign (key value : bytes) (m : list (bytes * bytes)) : list (bytes * bytes) :=
  match m with
  | [] => [(key, value)]
  | (k, v) :: m' =>
      if bytes_ltb key k then (key, value) :: m
      else if bytes_ltb k key then (k, v) :: map_assign key value m'
      else (k, value) :: m'
  end.

Definition setStatusCode (code : Z) (r : HttpResponse) : HttpResponse :=
  mkHttpResponse code (statusMessage_ r) (rheaders_ r) (body_ r) (closeConnection_ r).

Definition setStatusMessage (message : bytes) (r : HttpResponse) : HttpResponse :=
  mkHttpResponse (statusCode_ r) message (rheaders_ r) (body_ r) (closeConnection_ r).

Definition setCloseConnection (close : bool) (r : HttpResponse) : HttpResponse :=
  mkHttpResponse (statusCode_ r) (statusMessage_ r) (rheaders_ r) (body_ r) close.

Definition addHeader (key value : bytes) (r : HttpResponse) : HttpResponse :=
  mkHttpResponse (statusCode_ r) (statusMessage_ r) (map_assign key value (rheaders_ r)) (body_ r) (closeConnection_ r).

Definition setContentType (contentType : bytes) (r : HttpResponse) : HttpResponse :=
  addHeader (str "Content-Type") contentType r.

Definition setBody (body : bytes) (r : HttpResponse) : HttpResponse :=
  mkHttpResponse (statusCode_ r) (statusMessage_ r) (rheaders_ r) body (closeConnection_ r).

Definition statusMessageForCode (code : Z) : bytes :=
  if code =? k200Ok then str "OK"
  else if code =? k400BadRequest then str "Bad Request"
  else if code =? k404NotFound then str "Not Found"
  else if code =? k500InternalServerError then str "Internal Server Error"
  else str "Unknown".

(** [c_str()] read as a C string. *)
Definition c_str (s : bytes) : bytes := take_while (fun c => negb (bool_decide (c = x00))) s.

(** What [snprintf] into [char buf[256]] leaves in [buf]. *)
Definition snprintf_buf (text : bytes) : bytes := take 255 text.

Definition status_line (r : HttpResponse) : bytes :=
  let msg := if bool_decide (statusMessage_ r = []) then statusMessageForCode (statusCode_ r) else statusMessage_ r in
  str "HTTP/1.1 " ++ decimal (statusCode_ r) ++ str " " ++ c_str msg ++ crlf.

Definition length_line (r : HttpResponse) : bytes := str "Content-Length: " ++ decimal (len (body_ r)) ++ crlf.

Definition header_text (h : bytes * bytes) : bytes := c_str h.1 ++ str ": " ++ c_str h.2 ++ crlf.

Fixpoint append_headers (output : Buffer) (headers : list (bytes * bytes)) : option Buffer :=
  match headers with
  | [] => Some output
  | h :: headers => output ← append output (snprintf_buf (header_text h)); append_headers output headers
  end.

Definition appendToBuffer (r : HttpResponse) (output : Buffer) : option Buffer :=
  output ← append output (snprintf_buf (status_line r));
  output ← (if closeConnection_ r then append output (str "Connection: close" ++ crlf) else Some output);
  output ← append output (snprintf_buf (length_line r));
  output ← append_headers output (rheaders_ r);
  output ← append output crlf;
  append output (body_ r).

(** ** Correctness *)

(** The pieces, in order. *)
Definition pieces (r : HttpResponse) : list bytes :=
  snprintf_buf (status_line r) :: (if closeConnection_ r then [str "Connection: close" ++ crlf] else []) ++
  snprintf_buf (length_line r) :: map (fun h => snprintf_buf (header_text h)) (rheaders_ r) ++ [crlf; body_ r].

Fixpoint append_all (output : Buffer) (l : list bytes) : option Buffer :=
  match l with
  | [] => Some output
  | c :: l => output ← append output c; append_all output l
  end.

Lemma append_all_app output l l' : append_all output (l ++ l') = output ← append_all output l; append_all output l'.
Proof. revert output. induction l as [|c l IH]; intros output; cbn; [done|]. destruct (append output c); cbn; [apply IH|done]. Qed.

Lemma append_headers_all output hs : append_headers output hs = append_all output (map (fun h => snprintf_buf (header_text h)) hs).
Proof. revert output. induction hs as [|h hs IH]; intros output; cbn; [done|]. destruct (append output _); cbn; [apply IH|done]. Qed.

Lemma appendToBuffer_pieces r output : appendToBuffer r output = append_all output (pieces r).
Proof.
  unfold appendToBuffer, pieces. cbn [append_all]. destruct (append output _) as [b1|]; [|done]. cbn [mbind option_bind].
  rewrite append_all_app. destruct (closeConnection_ r); cbn [append_all mbind option_bind].
  - destruct (append b1 (str "Connection: close" ++ crlf)) as [b2|]; [|done]. cbn [mbind option_bind].
    destruct (append b2 _) as [b3|]; [|done]. cbn [mbind option_bind]. rewrite append_headers_all, append_all_app.
    destruct (append_all b3 _) as [b4|]; [|done]. cbn. destruct (append b4 crlf) as [b5|]; [|done]. cbn. by destruct (append b5 _).
  - destruct (append b1 _) as [b3|]; [|done]. cbn [mbind option_bind]. rewrite append_headers_all, append_all_app.
    destruct (append_all b3 _) as [b4|]; [|done]. cbn. destruct (append b4 crlf) as [b5|]; [|done]. cbn. by destruct (append b5 _).
Qed.

Lemma append_all_spec l output total :
  buffer_wf output -> len (contents output) + len (concat l) <= total -> total < 2 ^ 60 -> len (buffer_ output) <= 3 * total + 2 ^ 60 ->
  exists b', append_all output l = Some b' /\ buffer_wf b' /\ contents b' = contents output ++ concat l.
Proof.
  revert output. induction l as [|c l IH]; intros output Hb Ht Hmax Hs; cbn [append_all concat] in *.
  - exists output. by rewrite app_nil_r.
  - rewrite len_app in Ht. pose proof (len_nonneg c). pose proof (len_nonneg (concat l)). pose proof (len_nonneg (contents output)).
    destruct (append_spec output c Hb) as (b1 & -> & Hb1 & Cb1 & Lb1); [lia|]. cbn [mbind option_bind].
    destruct (IH b1) as (b2 & -> & Hb2 & Cb2); try done.
    + rewrite Cb1, len_app. lia.
    + unfold kCheapPrepend in Lb1. lia.
    + exists b2. split_and!; try done. by rewrite Cb2, Cb1, <- app_assoc.
Qed.

Definition response_bytes (r : HttpResponse) : bytes := concat (pieces r).

Lemma appendToBuffer_spec r :
  len (response_bytes r) < 2 ^ 60 ->
  exists b, appendToBuffer r (Buffer_new kInitialSize) = Some b /\ buffer_wf b /\ contents b = response_bytes r.
Proof.
  intros Hr. rewrite appendToBuffer_pieces. destruct (Buffer_new_wf kInitialSize) as [Hb Cb]; [unfold kInitialSize; lia|].
  pose proof (len_nonneg (response_bytes r)). pose proof Buffer_new_size.
  destruct (append_all_spec (pieces r) (Buffer_new kInitialSize) (len (response_bytes r))) as (b & E & Hb' & Cb').
  - done.
  - rewrite Cb. unfold response_bytes. solve_len.
  - done.
  - lia.
  - exists b. rewrite Cb in Cb'. done.
Qed.

(** Lines that fit the buffer. *)
Definition short_lines (r : HttpResponse) : Prop :=
  len (status_line r) <= 255 /\ Forall (fun h => len (header_text h) <= 255) (rheaders_ r) /\ len (body_ r) < 2 ^ 64.

Lemma snprintf_buf_short text : len text <= 255 -> snprintf_buf text = text.
Proof. intros H. unfold snprintf_buf. apply take_ge. unfold len in H. lia. Qed.

Lemma dec_length fuel n k : 0 <= n < 10 ^ Z.of_nat (S k) -> (length (dec fuel n) <= S k)%nat.
Proof.
  revert n k. induction fuel as [|fuel IH]; intros n k Hn; cbn [dec]; [cbn; lia|].
  destruct (Z.ltb_spec n 10); [cbn; lia|]. destruct k as [|k]; [cbn in Hn; lia|]. rewrite length_app. cbn [length].
  enough (length (dec fuel (n / 10)) <= S k)%nat by lia. apply IH.
  rewrite (Nat2Z.inj_succ (S k)), Z.pow_succ_r in Hn by lia. split; [apply Z.div_pos; lia|apply Z.div_lt_upper_bound; lia].
Qed.

Lemma length_line_short r : len (body_ r) < 2 ^ 64 -> len (length_line r) <= 255.
Proof.
  intros H. unfold length_line. rewrite !len_app. unfold decimal.
  pose proof (dec_length (S (Z.to_nat (Z.log2 (len (body_ r))))) (len (body_ r)) 19) as Hd.
  pose proof (len_nonneg (body_ r)). specialize (Hd ltac:(lia)). change (len (str "Content-Length: ")) with 16. change (len crlf) with 2.
  unfold len in *. lia.
Qed.

(** The lines of the head without their line ends. *)
Definition status_text (r : HttpResponse) : bytes :=
  str "HTTP/1.1 " ++ decimal (statusCode_ r) ++ str " " ++
  c_str (if bool_decide (statusMessage_ r = []) then statusMessageForCode (statusCode_ r) else statusMessage_ r).

Definition head_lines (r : HttpResponse) : list bytes :=
  (if closeConnection_ r then [str "Connection: close"] else []) ++
  (str "Content-Length: " ++ decimal (len (body_ r))) :: map (fun h => c_str h.1 ++ str ": " ++ c_str h.2) (rheaders_ r).

(** Neither the status message nor a header smuggles in a line end. *)
Definition head_clean (r : HttpResponse) : Prop :=
  clean (status_text r) /\ Forall (fun h => clean (c_str h.1 ++ str ": " ++ c_str h.2)) (rheaders_ r).

Lemma digits_clean p ds : all_digits ds -> search [x0d] p = None -> clean (p ++ ds).
Proof.
  intros Hd Hp. apply search_None; [done|]. intros m.
  destruct (starts_with crlf (drop m (p ++ ds))) eqn:E; [|done]. exfalso. apply starts_with_spec in E as [t E].
  assert (x0d ∈ p ++ ds) as Hin.
  { rewrite <- (take_drop m (p ++ ds)), E. apply elem_of_app. right. left. }
  apply elem_of_app in Hin as [Hin|Hin].
  - apply list_elem_of_lookup in Hin as [i Hi]. pose proof (proj1 (search_None [x0d] p ltac:(done)) Hp i) as Hn.
    rewrite (drop_S _ _ _ Hi) in Hn. done.
  - unfold all_digits in Hd. rewrite Forall_forall in Hd. by specialize (Hd _ Hin).
Qed.

Lemma response_bytes_text r : short_lines r -> response_bytes r = http_text (status_text r) (head_lines r) ++ body_ r.
Proof.
  intros (Hs & Hh & Hb). unfold response_bytes, pieces. rewrite (snprintf_buf_short (status_line r)) by done.
  rewrite (snprintf_buf_short (length_line r)) by by apply length_line_short.
  assert (concat (map (fun h => snprintf_buf (header_text h)) (rheaders_ r)) =
    concat (map (fun h => h ++ crlf) (map (fun h => c_str h.1 ++ str ": " ++ c_str h.2) (rheaders_ r)))) as Eh.
  { induction Hh as [|h hs Hh _ IH]; [done|]. cbn [map concat]. rewrite snprintf_buf_short, IH by done. unfold header_text.
    by rewrite <- !app_assoc. }
  unfold http_text, header_block, head_lines, status_line, length_line, status_text. cbn [concat].
  rewrite !concat_app, !map_app, !concat_app. cbn [map concat]. rewrite concat_app. rewrite Eh. cbn [concat].
  rewrite !app_nil_r. destruct (closeConnection_ r); cbn [concat map]; rewrite ?app_nil_r, <- !app_assoc; done.
Qed.

Lemma head_lines_ok r : head_clean r -> Forall header_line (head_lines r).
Proof.
  intros [_ Hh]. unfold head_lines. apply Forall_app. split; [destruct (closeConnection_ r); [|constructor]; constructor; [by split|constructor]|].
  constructor; [split; [done|]|].
  - apply digits_clean; [|done]. apply dec_digits. apply len_nonneg.
  - apply Forall_map. eapply Forall_impl; [exact Hh|]. intros [k v] Hc. cbn [fst snd] in *. split; [|done].
    intros E%(f_equal length). rewrite !length_app in E. change (length (str ": ")) with 2%nat in E. cbn in E. lia.
Qed.

(** A response can be taken apart again: when no line of the head exceeds
    the 255 bytes of the formatting buffer and no header carries a line end, the
    bytes written are a status line, header lines, an empty line and the body;
    the first empty line in them is that one, so what follows it is the body;
    and the [Content-Length] line announces exactly its length. *)
Theorem response_framed r :
  short_lines r -> head_clean r -> len (response_bytes r) < 2 ^ 60 ->
  (exists b, appendToBuffer r (Buffer_new kInitialSize) = Some b /\ contents b = response_bytes r) /\
  exists n, search (crlf ++ crlf) (response_bytes r) = Some n /\ drop (n + 4) (response_bytes r) = body_ r /\
    response_bytes r = http_text (status_text r) (head_lines r) ++ body_ r /\
    (str "Content-Length: " ++ decimal (len (body_ r))) ∈ head_lines r /\ digits_val (decimal (len (body_ r))) = len (body_ r).
Proof.
  intros Hs Hc Hl. split; [destruct (appendToBuffer_spec r Hl) as (b & ? & _ & ?); by exists b|].
  exists (length (http_text (status_text r) (head_lines r)) - 4)%nat. rewrite (response_bytes_text r Hs).
  split; [unfold http_text at 1; rewrite <- !app_assoc; apply search_blank; [apply Hc|by apply head_lines_ok]|].
  split_and!; [|done| |].
  - apply drop_app_length'. unfold http_text. rewrite !length_app. pose proof (length_header_block (head_lines r)). cbn. lia.
  - unfold head_lines. apply elem_of_app. right. left.
  - apply dec_val. split; [apply len_nonneg|]. apply decimal_fuel. apply len_nonneg.
Qed.

Definition sample_response : HttpResponse :=
  setBody (str "hello") (setContentType (str "text/plain") (HttpResponse_new true)).

Lemma response_framed_witness :
  exists n, search (crlf ++ crlf) (response_bytes sample_response) = Some n /\
    drop (n + 4) (response_bytes sample_response) = str "hello".
Proof.
  destruct (response_framed sample_response) as [_ (n & Hn & Hd & _)].
  - split_and!; [by vm_compute|repeat constructor; by vm_compute|by vm_compute].
  - split; [by vm_compute|repeat constructor; by vm_compute].
  - by vm_compute.
  - exists n. split; [exact Hn|exact Hd].
Defined.

Definition long_header_response : HttpResponse :=
  setBody (str "hello") (addHeader (str "X-Token") (replicate 300 "a"%byte) (HttpResponse_new false)).

(** The cut is real: a header line above 255 bytes loses its line end, and
    the empty line with it, so the response has no end of head at all and a
    client waits for one or takes the body for a header. *)
Theorem long_header_cut :
  head_clean long_header_response /\ search (crlf ++ crlf) (response_bytes long_header_response) = None /\
  exists b, appendToBuffer long_header_response (Buffer_new kInitialSize) = Some b /\ contents b = response_bytes long_header_response.
Proof.
  split; [split; [by vm_compute|repeat constructor; by vm_compute]|]. split; [by vm_compute|].
  destruct (appendToBuffer_spec long_header_response) as (b & ? & _ & ?); [by vm_compute|]. by exists b.
Qed.
