(* ===== verification/HttpServer.v ===== *)
(** * HttpServer: the static file server on a transport

    [example/http_server.cpp].  The message callback answers every complete
    request in the input buffer.  The file system is a parameter: the contents of
    a file that opens.  An exception that leaves the callback ends the process. *)
From S2P Require Import Prelude Buffer Charconv Transport HttpRequest HttpResponse.

Section server.
Context {T : Type} `{TransportOps T}.
(** What [std::ifstream] reads from the file with this name. *)
Variable file : bytes -> option bytes.

Record HttpServer := mkHttpServer { docRoot_ : bytes }.

Definition ends_with (suffix path : bytes) : bool :=
  (len suffix <=? len path) && bool_decide (drop (length path - length suffix) path = suffix).

Definition getMimeType (path : bytes) : bytes :=
  if ends_with (str ".html") path then str "text/html"
  else if ends_with (str ".css") path then str "text/css"
  else if ends_with (str ".js") path then str "application/javascript"
  else if ends_with (str ".png") path then str "image/png"
  else if ends_with (str ".jpg") path then str "image/jpeg"
  else if ends_with (str ".svg") path then str "image/svg+xml"
  else if ends_with (str ".ico") path then str "image/x-icon"
  else if ends_with (str ".json") path then str "application/json"
  else if ends_with (str ".txt") path then str "text/plain"
  else str "application/octet-stream".

Definition notFoundBody : bytes :=
  str "<html><head><title>404 Not Found</title></head>" ++
  str "<body><h1>404 Not Found</h1><p>" ++
  str "The requested URL was not found on this server." ++
  str "</p></body></html>".

(** The response to a request; the file name ends at its first NUL. *)
Definition reply (s : HttpServer) (req : HttpRequest) : HttpResponse :=
  let filePath := c_str (docRoot_ s ++ path_ req) in
  match file filePath with
  | Some content => setBody content (setContentType (getMimeType (path_ req)) (setStatusCode k200Ok (HttpResponse_new false)))
  | None => setBody notFoundBody (setContentType (str "text/html") (setStatusCode k404NotFound (HttpResponse_new false)))
  end.

Inductive served := Served (conn : T) (buf : Buffer) | Terminated.

(** [onMessage]; every turn but the last consumes at least four bytes.  [None]
    is an abort or exhausted fuel. *)
Fixpoint http_loop (fuel : nat) (s : HttpServer) (conn : T) (buf : Buffer) : option served :=
  match fuel with
  | O => None
  | S fuel =>
      data ← peekn buf (readableBytes buf);
      outcome ← parseRequest data HttpRequest_new;
      match outcome with
      | Uncaught => Some Terminated
      | Parsed false _ => Some (Served conn buf)
      | Parsed true req =>
          match search (crlf ++ crlf) data with
          | None => Some (Served conn buf)
          | Some headerEnd =>
              let buf := retrieve buf (Z.of_nat headerEnd + 4) in
              responseBuf ← appendToBuffer (reply s req) (Buffer_new kInitialSize);
              '(text, _) ← retrieveAllAsString responseBuf;
              conn ← send conn text;
              http_loop fuel s conn buf
          end
      end
  end.

Definition http_onMessage (s : HttpServer) (conn : T) (buf : Buffer) : option served :=
  http_loop (S (Z.to_nat (readableBytes buf))) s conn buf.

(** Reads, each followed by the message callback. *)
Fixpoint http_reads (s : HttpServer) (conn : T) (buf : Buffer) (chunks : list bytes) : option served :=
  match chunks with
  | [] => Some (Served conn buf)
  | c :: cs =>
      buf ← append buf c;
      r ← http_onMessage s conn buf;
      match r with
      | Served conn buf => http_reads s conn buf cs
      | Terminated => Some Terminated
      end
  end.
End server.

(** ** Specification *)

(** A request as its lines, with what the parser makes of the request line. *)
Record http_request := mkReq { rq_first : bytes; rq_headers : list bytes; rq_line : HttpRequest }.

Definition request_ok (q : http_request) : Prop :=
  clean (rq_first q) /\ Forall header_line (rq_headers q) /\
  parseRequestLine (rq_first q) HttpRequest_new = Parsed true (rq_line q).

Definition request_text (q : http_request) : bytes := http_text (rq_first q) (rq_headers q).
Definition request_value (q : http_request) : HttpRequest := add_headers (rq_headers q) (rq_line q).

Definition texts (qs : list http_request) : bytes := concat (map request_text qs).

Lemma request_text_size q : (4 <= length (request_text q))%nat.
Proof. unfold request_text, http_text. rewrite !length_app. pose proof (length_header_block (rq_headers q)). cbn. lia. Qed.

(** *** The file a request names *)

(** The target, without its query and decoded, begins with a slash. *)
Definition rooted (q : http_request) : Prop := exists p, path_ (rq_line q) = "/"%byte :: p.

(** The name [f] is that of [root] followed by a path that does not climb. *)
Definition under (root f : bytes) : Prop := exists p, f = root ++ "/"%byte :: p /\ forall a b, "/"%byte :: p <> a ++ str ".." ++ b.

Lemma c_str_app s1 s2 : Forall (fun c => c <> x00) s1 -> c_str (s1 ++ s2) = s1 ++ c_str s2.
Proof. intros Hs. unfold c_str. induction Hs as [|c s1 Hc _ IH]; [done|]. cbn. rewrite bool_decide_false by done. cbn. by rewrite IH. Qed.

Lemma c_str_prefix s : exists t, s = c_str s ++ t.
Proof.
  unfold c_str. induction s as [|c s [t IH]]; [by exists []|]. cbn. destruct (negb _); [|by exists (c :: s)].
  exists t. cbn. by rewrite <- IH.
Qed.

(** A rooted request names a file under the document root. *)
Lemma rooted_under s q :
  Forall (fun c => c <> x00) (docRoot_ s) -> request_ok q -> rooted q ->
  under (docRoot_ s) (c_str (docRoot_ s ++ path_ (request_value q))).
Proof.
  intros Hz (_ & _ & Hl) [p Hp]. apply parseRequestLine_path in Hl as (_ & Hd & _).
  unfold request_value. rewrite (proj2 (add_headers_path _ _)), Hp, c_str_app by done. rewrite Hp in Hd.
  change (c_str ("/"%byte :: p)) with ("/"%byte :: c_str p). eexists. split; [done|]. intros a b E.
  destruct (c_str_prefix p) as [t Et].
  pose proof (proj1 (search_None (str "..") _ ltac:(done)) Hd (length a)) as Hn.
  rewrite Et, app_comm_cons, E, <- app_assoc, drop_app_length in Hn. done.
Qed.

Section correctness.
Context {T : Type} `{TransportLaws T}.
Variable file : bytes -> option bytes.

Definition http_answer (s : HttpServer) (q : http_request) : bytes := response_bytes (reply file s (request_value q)).
Definition answers (s : HttpServer) (qs : list http_request) : bytes := concat (map (http_answer s) qs).

(** One complete request. *)
Lemma loop_request s conn buf q rest fuel :
  request_ok q -> buffer_wf buf -> contents buf = request_text q ++ rest -> t_wf conn -> connected conn = true ->
  len (t_out conn) + len (http_answer s q) < stream_max ->
  exists conn' buf', extends conn conn' (http_answer s q) /\ buffer_wf buf' /\ contents buf' = rest /\ buffer_ buf' = buffer_ buf /\
    http_loop file (S fuel) s conn buf = http_loop file fuel s conn' buf'.
Proof.
  intros (Hc & Hh & Hl) Hb Cb Hw Hcon Hroom. cbn [http_loop].
  rewrite readable_contents by done. pose proof (len_nonneg (contents buf)).
  rewrite peekn_contents by (done || rewrite ?readable_contents by done; lia). cbn [mbind option_bind].
  rewrite take_ge by (unfold len; lia). rewrite Cb. unfold request_text. rewrite (parseRequest_text _ _ _ _ _ Hc Hh Hl). cbn [mbind option_bind].
  unfold http_text at 1. rewrite <- !app_assoc, search_blank by done.
  change (rq_first q ++ crlf ++ header_block (rq_headers q)) with (request_text q).
  pose proof (request_text_size q). replace (Z.of_nat (length (request_text q) - 4) + 4) with (len (request_text q)) by (unfold len; lia).
  destruct (retrieve_spec buf (len (request_text q)) Hb (len_nonneg _)) as (Hb' & Cb' & Sb').
  change (add_headers (rq_headers q) (rq_line q)) with (request_value q).
  destruct (appendToBuffer_spec (reply file s (request_value q))) as (rb & -> & Hrb & Crb).
  { pose proof (len_nonneg (t_out conn)). unfold http_answer, stream_max in Hroom. lia. }
  cbn [mbind option_bind]. destruct (retrieveAllAsString_spec rb Hrb) as (rb' & -> & _ & _). cbn [mbind option_bind]. rewrite Crb.
  destruct (send_extends conn (http_answer s q) Hw Hcon Hroom) as (conn' & Es & Hx). unfold http_answer in Es at 1. rewrite Es.
  cbn [mbind option_bind]. exists conn', (retrieve buf (len (request_text q))). split_and!; try done.
  rewrite Cb', Cb. unfold len. rewrite Nat2Z.id. by rewrite drop_app_length.
Qed.

Lemma loop_partial s conn buf q more fuel :
  request_ok q -> buffer_wf buf -> contents buf ++ more = request_text q -> more <> [] ->
  http_loop file (S fuel) s conn buf = Some (Served conn buf).
Proof.
  intros (Hc & Hh & Hl) Hb Cb Hm. cbn [http_loop]. rewrite readable_contents by done. pose proof (len_nonneg (contents buf)).
  rewrite peekn_contents by (done || rewrite ?readable_contents by done; lia). cbn [mbind option_bind].
  rewrite take_ge by (unfold len; lia).
  destruct (parseRequest_prefix _ _ _ _ _ _ Hc Hh Hl Cb Hm) as [r' ->]. done.
Qed.

Lemma loop_empty s conn buf fuel : buffer_wf buf -> contents buf = [] -> http_loop file (S fuel) s conn buf = Some (Served conn buf).
Proof.
  intros Hb Cb. cbn [http_loop]. rewrite readable_contents by done.
  rewrite peekn_contents by (done || rewrite ?readable_contents by done; rewrite ?Cb; solve_len). by rewrite Cb.
Qed.

(** The callback answers the requests that are complete and keeps the rest. *)
Lemma http_loop_answers s qs : forall fuel conn buf more,
  Forall request_ok qs -> buffer_wf buf -> contents buf ++ more = texts qs -> (length (contents buf) < fuel)%nat ->
  t_wf conn -> connected conn = true -> len (t_out conn) + len (answers s qs) < stream_max ->
  exists done qs' conn' buf', qs = done ++ qs' /\ http_loop file fuel s conn buf = Some (Served conn' buf') /\
    extends conn conn' (answers s done) /\ buffer_wf buf' /\ contents buf' ++ more = texts qs' /\ buffer_ buf' = buffer_ buf /\
    (more = [] -> qs' = []).
Proof.
  induction qs as [|q qs IH]; intros fuel conn buf more Hok Hb Cb Hf Hw Hc Hroom; (destruct fuel as [|fuel]; [lia|]).
  - apply app_nil in Cb as [Cb ->]. exists [], [], conn, buf. rewrite loop_empty by done. split_and!; try done; [by apply extends_refl|].
    by rewrite Cb.
  - apply Forall_cons in Hok as [Hq Hqs]. unfold texts in Cb. cbn [map concat] in Cb. unfold answers in Hroom. cbn [map concat] in Hroom.
    rewrite len_app in Hroom. pose proof (len_nonneg (concat (map (http_answer s) qs))).
    destruct (decide (length (request_text q) <= length (contents buf))%nat) as [Hge|Hlt].
    + assert (contents buf = request_text q ++ drop (length (request_text q)) (contents buf)) as Eb.
      { rewrite <- (take_drop (length (request_text q)) (contents buf)) at 1. f_equal.
        apply (f_equal (take (length (request_text q)))) in Cb. rewrite take_app_le, take_app_length in Cb by done. done. }
      destruct (loop_request s conn buf q _ fuel Hq Hb Eb Hw Hc) as (c1 & b1 & Hx & Hb1 & Cb1 & Sb1 & ->); [lia|].
      destruct (IH fuel c1 b1 more) as (dn & qs' & c2 & b2 & -> & -> & Hx2 & Hb2 & Cb2 & Sb2 & Hm); try done.
      * rewrite Cb1. rewrite Eb in Cb. rewrite <- app_assoc in Cb. by apply app_inv_head in Cb.
      * rewrite Cb1, length_drop. pose proof (request_text_size q). lia.
      * apply Hx.
      * apply Hx.
      * destruct Hx as (_ & _ & _ & Hl & _). unfold answers. lia.
      * exists (q :: dn), qs', c2, b2. split_and!; try done; [|by rewrite Sb2].
        unfold answers. cbn [map concat]. by eapply extends_trans.
    + exists [], (q :: qs), conn, buf. split_and!; try done; [|by apply extends_refl|].
      * apply (loop_partial s conn buf q (drop (length (contents buf)) (request_text q))); [done|done| |].
        -- rewrite <- (take_drop (length (contents buf)) (request_text q)) at 2. f_equal.
           apply (f_equal (take (length (contents buf)))) in Cb. rewrite take_app_length, take_app_le in Cb by lia. done.
        -- intros E%(f_equal length). rewrite length_drop in E. cbn in E. lia.
      * intros ->. rewrite app_nil_r in Cb. rewrite Cb in Hlt. rewrite length_app in Hlt. lia.
Qed.

Lemma reads_answers s chunks : forall conn buf qs total,
  Forall request_ok qs -> buffer_wf buf -> contents buf ++ concat chunks = texts qs -> (chunks = [] -> qs = []) ->
  len (texts qs) <= total -> total < 2 ^ 60 -> len (buffer_ buf) <= 3 * total + 2 ^ 60 ->
  t_wf conn -> connected conn = true -> len (t_out conn) + len (answers s qs) < stream_max ->
  exists conn' buf', http_reads file s conn buf chunks = Some (Served conn' buf') /\
    extends conn conn' (answers s qs) /\ contents buf' = [].
Proof.
  induction chunks as [|c cs IH]; intros conn buf qs total Hok Hb Cb Hl Ht Hmax Hs Hw Hc Hroom; cbn [http_reads].
  - rewrite (Hl eq_refl) in *. apply app_nil in Cb as [Cb _]. exists conn, buf. split_and!; try done. by apply extends_refl.
  - cbn [concat] in Cb. pose proof (f_equal len Cb) as Lb. rewrite !len_app in Lb.
    pose proof (len_nonneg c). pose proof (len_nonneg (concat cs)). pose proof (len_nonneg (contents buf)).
    destruct (append_spec buf c Hb) as (b1 & -> & Hb1 & Cb1 & Lb1); [lia|]. cbn [mbind option_bind]. unfold kCheapPrepend in Lb1.
    rewrite app_assoc, <- Cb1 in Cb. unfold http_onMessage.
    destruct (http_loop_answers s qs (S (Z.to_nat (readableBytes b1))) conn b1 (concat cs)) as
      (dn & qs' & c1 & b2 & -> & -> & Hx & Hb2 & Cb2 & Sb2 & Hm); try done.
    { rewrite readable_contents by done. unfold len. lia. }
    cbn [mbind option_bind]. apply Forall_app in Hok as [_ Hok]. unfold answers, texts in *. rewrite !map_app, !concat_app, !len_app in *.
    pose proof (len_nonneg (concat (map request_text dn))). pose proof Hx as (Hw1 & Hc1 & _ & Ho1 & _).
    destruct (IH c1 b2 qs' total) as (c2 & b3 & -> & Hx2 & Cb3); try done; [|lia|by rewrite Sb2; lia|lia|].
    + intros ->. by apply Hm.
    + exists c2, b3. split_and!; try done. by eapply extends_trans.
Qed.

Lemma texts_nil qs : texts qs = [] -> qs = [].
Proof.
  destruct qs as [|q qs]; [done|]. unfold texts. cbn [map concat]. intros [E _]%app_nil.
  pose proof (request_text_size q) as Hs. rewrite E in Hs. cbn in Hs. lia.
Qed.

(** Pipelined requests on any segmentation: however the network cuts the
    text of a sequence of well-formed requests into reads, the server answers
    each of them once, in order, with the file under the document root (or the
    404 page), and has consumed the whole input. *)
Theorem http_pipeline s conn qs chunks :
  Forall request_ok qs -> concat chunks = texts qs -> len (texts qs) < 2 ^ 60 ->
  t_wf conn -> connected conn = true -> len (t_out conn) + len (answers s qs) < stream_max ->
  exists conn' buf', http_reads file s conn (Buffer_new kInitialSize) chunks = Some (Served conn' buf') /\
    extends conn conn' (answers s qs) /\ contents buf' = [].
Proof.
  intros Hok Hcat Hlen Hw Hc Hroom. destruct (Buffer_new_wf kInitialSize) as [Hb Cb]; [unfold kInitialSize; lia|].
  pose proof (len_nonneg (texts qs)). pose proof Buffer_new_size.
  apply (reads_answers s chunks conn (Buffer_new kInitialSize) qs (len (texts qs))); try done; [|lia].
  intros ->. apply texts_nil. by rewrite <- Hcat.
Qed.

Lemma loop_malformed s conn buf first rest r fuel :
  clean first -> parseRequestLine first HttpRequest_new = Parsed false r -> buffer_wf buf -> contents buf = first ++ crlf ++ rest ->
  http_loop file (S fuel) s conn buf = Some (Served conn buf).
Proof.
  intros Hc Hl Hb Cb. cbn [http_loop]. rewrite readable_contents by done. pose proof (len_nonneg (contents buf)).
  rewrite peekn_contents by (done || rewrite ?readable_contents by done; lia). cbn [mbind option_bind].
  rewrite take_ge by (unfold len; lia). rewrite Cb, parseRequest_first, Hl by done. done.
Qed.

Lemma reads_malformed s conn first r chunks : forall buf rest total,
  clean first -> parseRequestLine first HttpRequest_new = Parsed false r -> buffer_wf buf -> contents buf = first ++ crlf ++ rest ->
  len (contents buf) + len (concat chunks) <= total -> total < 2 ^ 60 -> len (buffer_ buf) <= 3 * total + 2 ^ 60 ->
  exists buf', http_reads file s conn buf chunks = Some (Served conn buf') /\ contents buf' = contents buf ++ concat chunks.
Proof.
  induction chunks as [|c cs IH]; intros buf rest total Hc Hl Hb Cb Ht Hmax Hs; cbn [http_reads concat] in *.
  - exists buf. by rewrite app_nil_r.
  - rewrite len_app in Ht. pose proof (len_nonneg c). pose proof (len_nonneg (concat cs)). pose proof (len_nonneg (contents buf)).
    destruct (append_spec buf c Hb) as (b1 & -> & Hb1 & Cb1 & Lb1); [lia|]. cbn [mbind option_bind]. unfold kCheapPrepend in Lb1.
    assert (contents b1 = first ++ crlf ++ rest ++ c) as E1 by (rewrite Cb1, Cb, <- !app_assoc; done).
    unfold http_onMessage. rewrite (loop_malformed s conn b1 first (rest ++ c) r) by done. cbn [mbind option_bind].
    destruct (IH b1 (rest ++ c) total) as (b2 & -> & Cb2); try done; [rewrite Cb1, len_app; lia|lia|].
    exists b2. split; [done|]. by rewrite Cb2, Cb1, <- app_assoc.
Qed.

(** A request line the parser refuses (another method, a missing word, a path
    with two dots) is taken for an incomplete request: whatever arrives after it,
    nothing is ever answered, the connection is not closed, and the input buffer
    keeps every byte. *)
Theorem refused_request_stalls s conn first r chunks :
  clean first -> parseRequestLine first HttpRequest_new = Parsed false r -> len first + len (concat chunks) < 2 ^ 59 ->
  exists buf', http_reads file s conn (Buffer_new kInitialSize) ((first ++ crlf) :: chunks) = Some (Served conn buf') /\
    contents buf' = first ++ crlf ++ concat chunks.
Proof.
  intros Hc Hl Hlen. destruct (Buffer_new_wf kInitialSize) as [Hb Cb]; [unfold kInitialSize; lia|]. cbn [http_reads].
  pose proof (len_nonneg first). pose proof (len_nonneg (concat chunks)). pose proof Buffer_new_size.
  destruct (append_spec (Buffer_new kInitialSize) (first ++ crlf) Hb) as (b1 & -> & Hb1 & Cb1 & Lb1); [rewrite len_app; change (len crlf) with 2; lia|].
  rewrite Cb in *. cbn [app] in Cb1. cbn [mbind option_bind]. unfold http_onMessage. rewrite len_app in Lb1. change (len crlf) with 2 in Lb1. change (len (@nil byte)) with 0 in Lb1.
  unfold kCheapPrepend in Lb1.
  rewrite (loop_malformed s conn b1 first [] r) by (done || by rewrite app_nil_r). cbn [mbind option_bind].
  destruct (reads_malformed s conn first r chunks b1 [] (len first + 2 + len (concat chunks))) as (b2 & -> & Cb2); try done.
  - rewrite Cb1, len_app. change (len crlf) with 2. lia.
  - lia.
  - lia.
  - exists b2. split; [done|]. by rewrite Cb2, Cb1, <- app_assoc.
Qed.

(** One request can end the process: a version that [std::stoi] cannot read
    throws out of the message callback, whatever the files, the document root
    and the connection. *)
Theorem bad_version_terminates s conn :
  http_reads file s conn (Buffer_new kInitialSize) [http_text (str "GET / HTTP/one.one") []] = Some Terminated.
Proof. by vm_compute. Qed.
End correctness.

(** A request whose target has no leading slash. *)
Definition sibling_request : http_request :=
  mkReq (str "GET -private/key HTTP/1.1") [] (mkHttpRequest kGet (str "-private/key") [] ∅ 1 1).

(** The document root can be left without two dots: the target is appended to
    the root as it is and need not start with a slash, so a server for
    [/srv/www] serves files of its sibling [/srv/www-private]. *)
Theorem docroot_escape file :
  request_ok sibling_request /\
  forall content, file (str "/srv/www-private/key") = Some content ->
    body_ (reply file (mkHttpServer (str "/srv/www")) (request_value sibling_request)) = content /\
    statusCode_ (reply file (mkHttpServer (str "/srv/www")) (request_value sibling_request)) = k200Ok.
Proof.
  split; [split_and!; [by vm_compute|constructor|by vm_compute]|]. intros content Hf. unfold reply.
  change (c_str (docRoot_ (mkHttpServer (str "/srv/www")) ++ path_ (request_value sibling_request))) with (str "/srv/www-private/key").
  by rewrite Hf.
Qed.

(** ** Samples *)

Definition sample_files (name : bytes) : option bytes :=
  if bool_decide (name = str "/www/index.html") then Some (str "<p>hi</p>") else None.
Definition sample_server : HttpServer := mkHttpServer (str "/www").
Definition get_root : http_request :=
  mkReq (str "GET / HTTP/1.1") [str "Host: h"] (mkHttpRequest kGet (str "/index.html") [] ∅ 1 1).
Definition get_missing : http_request :=
  mkReq (str "GET /a.css HTTP/1.0") [] (mkHttpRequest kGet (str "/a.css") [] ∅ 1 0).

Lemma http_pipeline_witness :
  exists conn' buf',
    http_reads sample_files sample_server (Sink.mk true []) (Buffer_new kInitialSize)
      [take 7 (texts [get_root; get_missing]); drop 7 (texts [get_root; get_missing])] = Some (Served conn' buf') /\
    extends (Sink.mk true []) conn' (answers sample_files sample_server [get_root; get_missing]) /\ contents buf' = [].
Proof.
  apply (http_pipeline sample_files sample_server (Sink.mk true []) [get_root; get_missing]); try done.
  - repeat constructor; by vm_compute.
Defined.

Lemma refused_request_stalls_witness :
  exists buf', http_reads sample_files sample_server (Sink.mk true []) (Buffer_new kInitialSize)
      [str "POST /form HTTP/1.1" ++ crlf; crlf; texts [get_root]] = Some (Served (Sink.mk true []) buf') /\
    contents buf' = str "POST /form HTTP/1.1" ++ crlf ++ concat [crlf; texts [get_root]].
Proof. apply (refused_request_stalls sample_files sample_server (Sink.mk true []) (str "POST /form HTTP/1.1") HttpRequest_new [crlf; texts [get_root]]); by vm_compute. Defined.
