(* ===== verification/InetAddress.v ===== *)
(** * InetAddress: IPv4 socket addresses

    [src/InetAddress.cpp].  A [sockaddr_in] is its 32-bit address and its port, both
    in host order; [inet_ntop] writes the four bytes in dotted decimal.  [inet_pton]
    is a parameter: the theorem that uses it assumes that it reads back what
    [inet_ntop] wrote. *)
From S2P Require Import Prelude Charconv.

Record InetAddress := mkInetAddress { sin_addr : Z; sin_port : Z }.

Definition INADDR_ANY : Z := 0.
Definition INADDR_LOOPBACK : Z := 2130706433.

Definition inet_octet (a : Z) (shift : Z) : Z := Z.land (Z.shiftr a shift) 255.

Definition inet_ntop (a : Z) : bytes :=
  decimal (inet_octet a 24) ++ str "." ++ decimal (inet_octet a 16) ++ str "." ++
  decimal (inet_octet a 8) ++ str "." ++ decimal (inet_octet a 0).

(** The constructor. *)
Definition InetAddress_new (inet_pton : bytes -> option Z) (port : Z) (ip : bytes) (loopbackOnly : bool) : InetAddress :=
  mkInetAddress
    (if loopbackOnly then INADDR_LOOPBACK
     else if bool_decide (ip = []) || bool_decide (ip = str "INADDR_ANY") then INADDR_ANY
     else match inet_pton ip with Some a => a | None => INADDR_ANY end)
    (u16 port).

Definition toIp (a : InetAddress) : bytes := inet_ntop (sin_addr a).
Definition toPort (a : InetAddress) : Z := sin_port a.

(** [toIpPort]; [result] has room for 127 bytes. *)
Definition toIpPort (a : InetAddress) : bytes := take 127 (inet_ntop (sin_addr a) ++ str ":" ++ decimal (sin_port a)).

Definition addr_ok (a : InetAddress) : bool :=
  (0 <=? sin_addr a) && (sin_addr a <? 2 ^ 32) && (0 <=? sin_port a) && (sin_port a <? 2 ^ 16).

(** ** The text of an address *)

Lemma dec_len fuel n d : 0 <= n < 10 ^ Z.of_nat d -> (0 < d)%nat -> len (dec fuel n) <= Z.of_nat d.
Proof.
  revert n d. induction fuel as [|fuel IH]; intros n d Hn Hd; [cbn [dec]; rewrite len_nil; lia|]. cbn [dec]. destruct (Z.ltb_spec n 10).
  - change (len [digit n]) with 1. lia.
  - destruct d as [|[|d]]; [lia|cbn in *; lia|]. rewrite len_app. change (len [digit (n mod 10)]) with 1.
    rewrite Nat2Z.inj_succ, Z.pow_succ_r in Hn by lia. specialize (IH (n / 10) (S d) ltac:(dmlia) ltac:(lia)). lia.
Qed.

Lemma decimal_len n d : 0 <= n < 10 ^ Z.of_nat d -> (0 < d)%nat -> len (decimal n) <= Z.of_nat d.
Proof. apply dec_len. Qed.

Lemma decimal_inj n n' : 0 <= n -> 0 <= n' -> decimal n = decimal n' -> n = n'.
Proof.
  intros Hn Hn' H. apply (f_equal digits_val) in H. unfold decimal in H.
  rewrite !dec_val in H by (split; [done|by apply decimal_fuel]). done.
Qed.

Lemma decimal_no c n : 0 <= n -> isDigit c = false -> c ∉ decimal n.
Proof.
  intros Hn Hc Hin. pose proof (dec_digits (S (Z.to_nat (Z.log2 n))) n Hn) as Hd.
  apply list.Forall_forall with (x := c) in Hd; [congruence|done].
Qed.

Lemma octet_range a k : 0 <= inet_octet a k < 256.
Proof. unfold inet_octet. rewrite land_255. apply Z.mod_pos_bound. lia. Qed.

Lemma ntop_len a : len (inet_ntop a) <= 15.
Proof.
  unfold inet_ntop. rewrite !len_app. change (len (str ".")) with 1.
  pose proof (fun k => decimal_len (inet_octet a k) 3 ltac:(pose proof (octet_range a k); lia) ltac:(lia)) as H.
  pose proof (H 24). pose proof (H 16). pose proof (H 8). pose proof (H 0). lia.
Qed.

Lemma ipPort_text a :
  addr_ok a = true -> toIpPort a = inet_ntop (sin_addr a) ++ str ":" ++ decimal (sin_port a) /\ len (toIpPort a) <= 21.
Proof.
  unfold addr_ok. rewrite !andb_true_iff, !Z.leb_le, !Z.ltb_lt. intros Ha.
  pose proof (ntop_len (sin_addr a)). pose proof (decimal_len (sin_port a) 5 ltac:(lia) ltac:(lia)).
  assert (toIpPort a = inet_ntop (sin_addr a) ++ str ":" ++ decimal (sin_port a)) as ->.
  { unfold toIpPort. apply take_ge. rewrite !length_app. change (length (str ":")) with 1%nat. unfold len in *. lia. }
  split; [done|]. rewrite !len_app. change (len (str ":")) with 1. lia.
Qed.

Lemma ipPort_no c a :
  addr_ok a = true -> isDigit c = false -> c <> "."%byte -> c <> ":"%byte -> c ∉ toIpPort a.
Proof.
  intros Ha Hc Hdot Hcol. destruct (ipPort_text a Ha) as [-> _].
  unfold addr_ok in Ha. rewrite !andb_true_iff, !Z.leb_le, !Z.ltb_lt in Ha. unfold inet_ntop.
  pose proof (fun k => decimal_no c (inet_octet (sin_addr a) k) ltac:(pose proof (octet_range (sin_addr a) k); lia) Hc).
  pose proof (decimal_no c (sin_port a) ltac:(lia) Hc).
  assert (c ∉ str ".") by (cbn; by rewrite list_elem_of_singleton).
  assert (c ∉ str ":") by (cbn; by rewrite list_elem_of_singleton).
  rewrite !elem_of_app. naive_solver.
Qed.

(** An address survives being written as text and read back. *)
Theorem address_roundtrip inet_pton a :
  (forall x, 0 <= x < 2 ^ 32 -> inet_pton (inet_ntop x) = Some x) -> addr_ok a = true ->
  InetAddress_new inet_pton (toPort a) (toIp a) false = a.
Proof.
  unfold addr_ok. rewrite !andb_true_iff, !Z.leb_le, !Z.ltb_lt. intros Hp Ha. destruct a as [a p]; cbn [sin_addr sin_port] in *.
  unfold InetAddress_new, toIp, toPort. cbn [sin_addr sin_port]. rewrite Hp, u16_small by lia.
  assert (exists c l, inet_ntop a = c :: l /\ isDigit c = true) as (c & l & E & Hc).
  { unfold inet_ntop. set (o := inet_octet a 24). pose proof (octet_range a 24 : 0 <= o < 256).
    pose proof (dec_digits (S (Z.to_nat (Z.log2 o))) o ltac:(lia) : all_digits (decimal o)) as Hd.
    destruct (decimal o) as [|c l] eqn:E.
    - pose proof (dec_val (S (Z.to_nat (Z.log2 o))) o) as Hv. unfold decimal in E. rewrite E in Hv.
      cbv [digits_val fold_left] in Hv. pose proof (decimal_fuel o ltac:(lia)). rewrite <- Hv in E by lia. done.
    - apply Forall_cons in Hd as [Hd _]. by eexists _, _. }
  rewrite E, !bool_decide_false; [done| |done]. intros [= -> _]. done.
Qed.
