(* ===== verification/Socket.v ===== *)
(** * Socket: descriptor ownership and the socket system calls

    [include/Socket.h] and [src/Socket.cpp].  A [Socket] object is its
    [sockfd_]; the kernel is the table of open descriptors.  The answer of a
    system call is an argument ([inl] a result, [inr] an errno), constrained
    only by what the manual pages promise.  [None] is [std::abort]. *)
From S2P Require Import Prelude InetAddress.

Inductive sockopt := SO_REUSEADDR | SO_REUSEPORT | TCP_NODELAY | SO_KEEPALIVE.

#[global] Instance sockopt_eq_dec : EqDecision sockopt.
Proof. solve_decision. Defined.

(** What the kernel keeps for an open descriptor. *)
Record Desc := mkDesc {
  d_flags : Z;
  d_opt : sockopt -> bool;
  d_local : option InetAddress;
  d_listening : bool;
  d_shutWr : bool
}.

Definition O_NONBLOCK : Z := 2048.
Definition EINTR : Z := 4.
Definition EBADF : Z := 9.
Definition EAGAIN : Z := 11.

Definition newDesc : Desc := mkDesc O_NONBLOCK (fun _ => false) None false false.

(** [w_closes] records every [::close] with whether its descriptor was open,
    [w_cerr] the messages printed. *)
Record World := mkWorld {
  w_open : gmap Z Desc;
  w_closes : list (Z * bool);
  w_cerr : list bytes
}.

Definition reply (A : Type) : Type := A + Z.

Definition set_open (m : gmap Z Desc) (w : World) : World := mkWorld m (w_closes w) (w_cerr w).
Definition say (s : bytes) (w : World) : World := mkWorld (w_open w) (w_closes w) (w_cerr w ++ [s]).
Definition update (fd : Z) (f : Desc -> Desc) (w : World) : World := set_open (alter f fd (w_open w)) w.

(** [::close(fd)]: Linux releases the descriptor also when it reports an error. *)
Definition sys_close (fd : Z) (w : World) : World :=
  mkWorld (delete fd (w_open w)) (w_closes w ++ [(fd, bool_decide (is_Some (w_open w !! fd)))]) (w_cerr w).

(** ** The members of [Socket] *)

Definition Socket_new (r : reply Z) (w : World) : option (Z * World) :=
  match r with
  | inl fd => Some (fd, set_open (<[fd := newDesc]> (w_open w)) w)
  | inr _ => None
  end.

(** [Socket::close]: [sockfd_] afterwards. *)
Definition close (r : reply unit) (sockfd : Z) (w : World) : Z * World :=
  if 0 <=? sockfd then
    let w := sys_close sockfd w in
    let w := match r with inl _ => w | inr _ => say (str "[Socket] close failed") w end in
    (-1, w)
  else (sockfd, w).

(** The move constructor: the new object and the one moved from. *)
Definition move_new (other : Z) : Z * Z := (other, -1).

(** [operator=(Socket &&)] on the objects at [this] and [other], which may be one
    and the same; [m] gives the [sockfd_] of the object at an address. *)
Definition move_assign (r : reply unit) (this other : nat) (m : gmap nat Z) (w : World)
  : option (gmap nat Z * World) :=
  sockfd ← m !! this; sockfd' ← m !! other;
  if bool_decide (this = other) then Some (m, w) else
  let '(_, w) := close r sockfd w in
  Some (<[this := sockfd']> (<[other := -1]> m), w).

(** The address a socket gets: [::bind] with port 0 assigns a [free] port. *)
Definition bound_addr (addr : InetAddress) (free : Z) : InetAddress :=
  if sin_port addr =? 0 then mkInetAddress (sin_addr addr) free else addr.

(** [bind]; a successful answer carries the free port the kernel has at hand. *)
Definition bind (r : reply Z) (addr : InetAddress) (sockfd : Z) (w : World) : option World :=
  match r with
  | inl free =>
      Some (update sockfd (fun d => mkDesc (d_flags d) (d_opt d) (Some (bound_addr addr free)) (d_listening d) (d_shutWr d)) w)
  | inr _ => None
  end.

(** [getLocalAddr]: [getsockname] reports what [::bind] has assigned, the any
    address and port 0 on a socket that is not bound. *)
Definition getLocalAddr (r : reply unit) (sockfd : Z) (out : InetAddress) (w : World) : bool * InetAddress * World :=
  match r, w_open w !! sockfd with
  | inl _, Some d => (true, default (mkInetAddress INADDR_ANY 0) (d_local d), w)
  | _, _ => (false, out, say (str "[Socket] getsockname failed") w)
  end.

Definition listen (r : reply unit) (sockfd : Z) (w : World) : option World :=
  match r with
  | inl _ => Some (update sockfd (fun d => mkDesc (d_flags d) (d_opt d) (d_local d) true (d_shutWr d)) w)
  | inr _ => None
  end.

(** [accept]: the descriptor or -1, [*peerAddr] afterwards. *)
Definition accept (r : reply (Z * InetAddress)) (peer : InetAddress) (w : World) : Z * InetAddress * World :=
  match r with
  | inl (connfd, addr) => (connfd, addr, set_open (<[connfd := newDesc]> (w_open w)) w)
  | inr e =>
      (-1, peer, if negb (e =? EAGAIN) && negb (e =? EINTR) then say (str "[Socket] accept failed") w else w)
  end.

(** [setReuseAddr], [setReusePort], [setTcpNoDelay], [setKeepAlive]. *)
Definition setOption (r : reply unit) (o : sockopt) (on : bool) (sockfd : Z) (w : World) : World :=
  match r with
  | inl _ =>
      update sockfd (fun d => mkDesc (d_flags d) (fun o' => if decide (o' = o) then on else d_opt d o')
                                     (d_local d) (d_listening d) (d_shutWr d)) w
  | inr _ => say (str "[Socket] setsockopt failed") w
  end.

(** The two [fcntl] calls. *)
Definition setNonBlocking (r1 : reply Z) (r2 : reply unit) (sockfd : Z) (w : World) : World :=
  match r1 with
  | inr _ => say (str "[Socket] fcntl F_GETFL failed") w
  | inl flags =>
      match r2 with
      | inl _ => update sockfd (fun d => mkDesc (Z.lor flags O_NONBLOCK) (d_opt d) (d_local d) (d_listening d) (d_shutWr d)) w
      | inr _ => say (str "[Socket] fcntl F_SETFL O_NONBLOCK failed") w
      end
  end.

Definition shutdownWrite (r : reply unit) (sockfd : Z) (w : World) : World :=
  match r with
  | inl _ => update sockfd (fun d => mkDesc (d_flags d) (d_opt d) (d_local d) (d_listening d) true) w
  | inr _ => say (str "[Socket] shutdownWrite failed") w
  end.

(** ** Programs that use sockets *)

(** The live [Socket] objects by address, the descriptors the program holds as
    plain integers (from [accept]), and the kernel. *)
Record Prog := mkProg { objs : gmap nat Z; raw : gset Z; world : World }.

Definition prog0 : Prog := mkProg ∅ ∅ (mkWorld ∅ [] []).

Inductive op :=
| OpNew (a : nat) (r : reply Z)                       (* [Socket a;] *)
| OpAdopt (a : nat) (fd : Z)                          (* [Socket a(fd);] *)
| OpMove (a b : nat)                                  (* [Socket a(std::move(b));] *)
| OpAssign (r : reply unit) (a b : nat)               (* [a = std::move(b);] *)
| OpClose (r : reply unit) (a : nat)
| OpDestroy (r : reply unit) (a : nat)                (* [~Socket] *)
| OpBind (r : reply Z) (addr : InetAddress) (a : nat)
| OpListen (r : reply unit) (a : nat)
| OpAccept (r : reply (Z * InetAddress)) (a : nat)
| OpOption (r : reply unit) (o : sockopt) (on : bool) (a : nat)
| OpNonBlocking (r1 : reply Z) (r2 : reply unit) (a : nat)
| OpShutdown (r : reply unit) (a : nat)
| OpCloseRaw (fd : Z).                                (* [::close(fd)] *)

(** [None] is an abort, or the use of an object that does not exist. *)
Definition exec (o : op) (p : Prog) : option Prog :=
  match o with
  | OpNew a r => '(fd, w) ← Socket_new r (world p); Some (mkProg (<[a := fd]> (objs p)) (raw p) w)
  | OpAdopt a fd => Some (mkProg (<[a := fd]> (objs p)) (raw p ∖ {[fd]}) (world p))
  | OpMove a b =>
      fb ← objs p !! b;
      let '(fa, fb) := move_new fb in Some (mkProg (<[a := fa]> (<[b := fb]> (objs p))) (raw p) (world p))
  | OpAssign r a b =>
      '(m, w) ← move_assign r a b (objs p) (world p); Some (mkProg m (raw p) w)
  | OpClose r a =>
      fa ← objs p !! a; let '(fa, w) := close r fa (world p) in Some (mkProg (<[a := fa]> (objs p)) (raw p) w)
  | OpDestroy r a =>
      fa ← objs p !! a; let '(_, w) := close r fa (world p) in Some (mkProg (delete a (objs p)) (raw p) w)
  | OpBind r addr a => fa ← objs p !! a; w ← bind r addr fa (world p); Some (mkProg (objs p) (raw p) w)
  | OpListen r a => fa ← objs p !! a; w ← listen r fa (world p); Some (mkProg (objs p) (raw p) w)
  | OpAccept r a =>
      _ ← objs p !! a;
      let '(fd, _, w) := accept r (mkInetAddress 0 0) (world p) in
      Some (mkProg (objs p) (if 0 <=? fd then {[fd]} ∪ raw p else raw p) w)
  | OpOption r o on a => fa ← objs p !! a; Some (mkProg (objs p) (raw p) (setOption r o on fa (world p)))
  | OpNonBlocking r1 r2 a => fa ← objs p !! a; Some (mkProg (objs p) (raw p) (setNonBlocking r1 r2 fa (world p)))
  | OpShutdown r a => fa ← objs p !! a; Some (mkProg (objs p) (raw p) (shutdownWrite r fa (world p)))
  | OpCloseRaw fd => Some (mkProg (objs p) (raw p ∖ {[fd]}) (sys_close fd (world p)))
  end.

Fixpoint execs (l : list op) (p : Prog) : option Prog :=
  match l with [] => Some p | o :: l => p ← exec o p; execs l p end.

(** The kernel returns an unused descriptor; the program constructs at a free
    address, and wraps or closes by hand only descriptors it holds. *)
Definition is_none {A} (o : option A) : bool := match o with None => true | Some _ => false end.
Definition fresh_fd (fd : Z) (p : Prog) : bool := (0 <=? fd) && is_none (w_open (world p) !! fd).

Definition op_ok (o : op) (p : Prog) : bool :=
  match o with
  | OpNew a r => is_none (objs p !! a) && match r with inl fd => fresh_fd fd p | inr _ => true end
  | OpAdopt a fd => is_none (objs p !! a) && bool_decide (fd ∈ raw p)
  | OpMove a _ => is_none (objs p !! a)
  | OpAccept r _ => match r with inl (fd, _) => fresh_fd fd p | inr _ => true end
  | OpCloseRaw fd => bool_decide (fd ∈ raw p)
  | _ => true
  end.

Fixpoint ops_ok (l : list op) (p : Prog) : bool :=
  match l with
  | [] => true
  | o :: l => op_ok o p && match exec o p with Some p => ops_ok l p | None => true end
  end.

(** ** Ownership *)

(** Every open descriptor has exactly one owner: one object, or the program. *)
Record owned (p : Prog) : Prop := {
  own_obj : forall a fd, objs p !! a = Some fd -> fd = -1 \/ 0 <= fd /\ is_Some (w_open (world p) !! fd) /\ fd ∉ raw p;
  own_inj : forall a b fd, objs p !! a = Some fd -> objs p !! b = Some fd -> 0 <= fd -> a = b;
  own_raw : forall fd, fd ∈ raw p -> 0 <= fd /\ is_Some (w_open (world p) !! fd);
  own_open : forall fd, is_Some (w_open (world p) !! fd) -> 0 <= fd /\ (fd ∈ raw p \/ exists a, objs p !! a = Some fd);
  own_closes : Forall (fun c => c.2 = true) (w_closes (world p))
}.

Lemma owned_0 : owned prog0.
Proof.
  split; cbn; try set_solver.
  intros fd [? H]. by rewrite lookup_empty in H.
Qed.

(** The operations that only change an open descriptor's attributes. *)
Lemma owned_same p w :
  owned p -> (forall fd, is_Some (w_open w !! fd) <-> is_Some (w_open (world p) !! fd)) ->
  w_closes w = w_closes (world p) -> owned (mkProg (objs p) (raw p) w).
Proof.
  intros [H1 H2 H3 H4 H5] Ho Hc. split; cbn; [|done| | |by rewrite Hc].
  - intros a fd Ha. rewrite Ho. by apply (H1 a).
  - intros fd Hr. rewrite Ho. by apply H3.
  - intros fd Hf. rewrite Ho in Hf. by apply H4.
Qed.

Lemma update_open fd f w k : is_Some (w_open (update fd f w) !! k) <-> is_Some (w_open w !! k).
Proof.
  unfold update, set_open. cbn. destruct (decide (fd = k)) as [->|]; [|by rewrite lookup_alter_ne].
  rewrite lookup_alter_eq. apply fmap_is_Some.
Qed.

Lemma is_none_spec {A} (o : option A) : is_none o = true <-> o = None.
Proof. by destruct o. Qed.

Lemma fresh_spec fd p : fresh_fd fd p = true <-> 0 <= fd /\ w_open (world p) !! fd = None.
Proof. unfold fresh_fd. by rewrite andb_true_iff, Z.leb_le, is_none_spec. Qed.

(** Giving a new descriptor an owner. *)
Lemma owned_fresh p fd w :
  fresh_fd fd p = true -> owned p -> w_open w = <[fd := newDesc]> (w_open (world p)) -> w_closes w = w_closes (world p) ->
  owned (mkProg (objs p) ({[fd]} ∪ raw p) w).
Proof.
  intros [Hf0 Hf]%fresh_spec [H1 H2 H3 H4 H5] Ho Hc. split; cbn; rewrite ?Ho, ?Hc; [|done| | |done].
  - intros a k Ha. destruct (H1 a k Ha) as [->|(? & [d Hd] & ?)]; [by left|]. right. split; [done|].
    assert (k <> fd) by congruence. rewrite lookup_insert_ne by done. split; [eauto|set_solver].
  - intros k [->%elem_of_singleton|Hk]%elem_of_union; [rewrite lookup_insert_eq; eauto|].
    destruct (H3 k Hk) as [? [d Hd]]. assert (k <> fd) by congruence. rewrite lookup_insert_ne by done. eauto.
  - intros k. destruct (decide (k = fd)) as [->|]; [set_solver|]. rewrite lookup_insert_ne by done.
    intros [? [?|?]]%H4; (split; [done|]); [set_solver|by right].
Qed.

(** An object takes over a descriptor the program holds. *)
Lemma owned_adopt p a fd :
  objs p !! a = None -> fd ∈ raw p -> owned p -> owned (mkProg (<[a := fd]> (objs p)) (raw p ∖ {[fd]}) (world p)).
Proof.
  intros Ha Hr [H1 H2 H3 H4 H5]. split; cbn; [..|done].
  - intros b k. rewrite lookup_insert_Some. intros [[<- <-]|[? Hb]].
    + right. destruct (H3 fd Hr). split_and!; [done..|set_solver].
    + destruct (H1 b k Hb) as [->|(? & ? & ?)]; [by left|right]. split_and!; [done..|set_solver].
  - intros b c k. rewrite !lookup_insert_Some. intros [[<- <-]|[? Hb]] [[<- ?]|[? Hc]] Hk; try done.
    + exfalso. destruct (H1 c fd Hc) as [->|(? & ? & ?)]; [lia|done].
    + subst k. exfalso. destruct (H1 b fd Hb) as [->|(? & ? & ?)]; [lia|done].
    + by eapply H2.
  - intros k Hk. apply H3. set_solver.
  - intros k Hk. destruct (H4 k Hk) as [? Ho]. split; [done|]. destruct (decide (k = fd)) as [->|].
    + right. exists a. apply lookup_insert_eq.
    + destruct Ho as [?|[b Hb]]; [left; set_solver|]. right. exists b. rewrite lookup_insert_ne; [done|]. congruence.
Qed.

(** The program closes a descriptor it holds. *)
Lemma owned_close_raw p fd :
  fd ∈ raw p -> owned p -> owned (mkProg (objs p) (raw p ∖ {[fd]}) (sys_close fd (world p))).
Proof.
  intros Hr [H1 H2 H3 H4 H5]. split; cbn; [|done|..].
  - intros a k Ha. destruct (H1 a k Ha) as [->|(? & ? & ?)]; [by left|right].
    assert (k <> fd) by set_solver. rewrite lookup_delete_ne by done. split_and!; [done..|set_solver].
  - intros k Hk. assert (k <> fd) by set_solver. rewrite lookup_delete_ne by done. apply H3. set_solver.
  - intros k [d Hd]. apply lookup_delete_Some in Hd as [? Hd].
    destruct (H4 k ltac:(eauto)) as [? [?|?]]; (split; [done|]); [left; set_solver|by right].
  - apply Forall_app. split; [done|]. constructor; [|constructor]. cbn. apply bool_decide_true, H3, Hr.
Qed.

(** An object gives its descriptor up to the program (the inverse of adopting). *)
Lemma owned_release p a fd :
  objs p !! a = Some fd -> 0 <= fd -> owned p -> owned (mkProg (<[a := -1]> (objs p)) ({[fd]} ∪ raw p) (world p)).
Proof.
  intros Ha Hfd [H1 H2 H3 H4 H5]. split; cbn; [..|done].
  - intros b k. rewrite lookup_insert_Some. intros [[<- <-]|[? Hb]]; [by left|].
    destruct (H1 b k Hb) as [->|(? & ? & ?)]; [by left|right]. split_and!; [done..|].
    assert (k <> fd) by (intros ->; by pose proof (H2 a b fd Ha Hb Hfd)). set_solver.
  - intros b c k. rewrite !lookup_insert_Some. intros [[<- <-]|[? Hb]] [[<- ?]|[? Hc]] Hk; try done; try lia. by eapply H2.
  - intros k [->%elem_of_singleton|Hk]%elem_of_union; [|by apply H3]. by destruct (H1 a fd Ha) as [->|(? & ? & ?)].
  - intros k Hk. destruct (H4 k Hk) as [? [?|[b Hb]]]; (split; [done|]); [left; set_solver|].
    destruct (decide (b = a)) as [->|]; [left; set_solver|]. right. exists b. by rewrite lookup_insert_ne.
Qed.

(** Objects without a descriptor come and go freely. *)
Lemma owned_dead p a : objs p !! a = None -> owned p -> owned (mkProg (<[a := -1]> (objs p)) (raw p) (world p)).
Proof.
  intros Ha [H1 H2 H3 H4 H5]. split; cbn; [| |done| |done].
  - intros b k. rewrite lookup_insert_Some. intros [[<- <-]|[? Hb]]; [by left|by apply (H1 b)].
  - intros b c k. rewrite !lookup_insert_Some. intros [[<- <-]|[? Hb]] [[<- ?]|[? Hc]] Hk; try done; try lia. by eapply H2.
  - intros k Hk. destruct (H4 k Hk) as [? [?|[b Hb]]]; (split; [done|]); [by left|]. right. exists b.
    rewrite lookup_insert_ne; [done|congruence].
Qed.

Lemma owned_drop p a : objs p !! a = Some (-1) -> owned p -> owned (mkProg (delete a (objs p)) (raw p) (world p)).
Proof.
  intros Ha [H1 H2 H3 H4 H5]. split; cbn; [| |done| |done].
  - intros b k [? Hb]%lookup_delete_Some. by apply (H1 b).
  - intros b c k [? Hb]%lookup_delete_Some [? Hc]%lookup_delete_Some. by apply H2.
  - intros k Hk. destruct (H4 k Hk) as [? [?|[b Hb]]]; (split; [done|]); [by left|]. right. exists b.
    rewrite lookup_delete_ne; [done|]. intros ->. assert (k = -1) by congruence. lia.
Qed.

(** [Socket::close] on a live object leaves it without a descriptor. *)
Lemma owned_close p a fd r fd' w :
  objs p !! a = Some fd -> close r fd (world p) = (fd', w) -> owned p ->
  fd' = -1 /\ owned (mkProg (<[a := -1]> (objs p)) (raw p) w).
Proof.
  intros Ha Hc Ho. unfold close in Hc. destruct (Z.leb_spec 0 fd) as [Hfd|Hfd].
  - injection Hc as <- <-. split; [done|].
    pose proof (owned_release p a fd Ha Hfd Ho) as H1. apply (owned_close_raw _ fd) in H1; [|set_solver]. cbn in H1.
    replace (({[fd]} ∪ raw p) ∖ {[fd]}) with (raw p) in H1.
    2: { destruct (own_obj p Ho a fd Ha) as [->|(_ & _ & ?)]; [lia|]. set_solver. }
    destruct r; [done|]. by apply (owned_same _ (say _ _) H1).
  - injection Hc as <- <-. assert (fd = -1) as -> by (destruct (own_obj p Ho a fd Ha); lia). split; [done|].
    rewrite insert_id by done. by destruct p.
Qed.

Lemma owned_move p a b fb :
  objs p !! a = None -> objs p !! b = Some fb -> owned p ->
  owned (mkProg (<[a := fb]> (<[b := -1]> (objs p))) (raw p) (world p)).
Proof.
  intros Ha Hb Ho. assert (a <> b) by congruence.
  destruct (own_obj p Ho b fb Hb) as [->|(Hfb & _ & Hr)].
  - rewrite (insert_id (objs p) b) by done. by apply owned_dead.
  - pose proof (owned_release p b fb Hb Hfb Ho) as H1.
    apply (owned_adopt _ a fb) in H1; [|cbn; by rewrite lookup_insert_ne|set_solver]. cbn in H1.
    by replace (({[fb]} ∪ raw p) ∖ {[fb]}) with (raw p) in H1 by set_solver.
Qed.

(** Every operation keeps the descriptors owned. *)
Lemma exec_owned o p p' : op_ok o p = true -> exec o p = Some p' -> owned p -> owned p'.
Proof.
  intros Hok E Ho. destruct o; cbn [exec op_ok] in *;
    rewrite ?andb_true_iff, ?is_none_spec, ?bool_decide_eq_true in Hok;
    repeat match goal with H : context [objs p !! ?a ≫= _] |- _ =>
      let Ea := fresh "Ea" in destruct (objs p !! a) eqn:Ea; cbn [mbind option_bind] in H; [|done] end.
  - destruct Hok as [Ha Hf]. destruct r as [fd|]; [|done]. injection E as <-.
    pose proof (owned_fresh p fd (set_open (<[fd := newDesc]> (w_open (world p))) (world p))
      Hf Ho eq_refl eq_refl) as H1.
    apply (owned_adopt _ a fd) in H1; [|done|set_solver]. cbn in H1.
    replace (({[fd]} ∪ raw p) ∖ {[fd]}) with (raw p) in H1; [done|].
    assert (fd ∉ raw p); [|set_solver]. intros Hr. destruct (own_raw p Ho fd Hr) as [_ [d Hd]].
    apply fresh_spec in Hf as [_ Hf]. congruence.
  - destruct Hok. injection E as <-. by apply owned_adopt.
  - injection E as <-. by apply owned_move.
  - unfold move_assign in E. destruct (objs p !! a) as [z|] eqn:Ea; [|done]. cbn in E.
    destruct (objs p !! b) as [z0|] eqn:Eb; [|done]. cbn in E.
    case_bool_decide; [injection E as <-; by destruct p|].
    destruct (close r z (world p)) as [fa w] eqn:Ec. injection E as <-.
    destruct (owned_close p a z r fa w) as [-> H1]; [done..|].
    apply (owned_drop _ a) in H1; [|apply lookup_insert_eq]. cbn in H1. rewrite delete_insert_eq in H1.
    apply (owned_move _ a b z0) in H1; [|apply lookup_delete_eq|cbn; by rewrite lookup_delete_ne]. cbn in H1.
    by rewrite <- delete_insert_ne, insert_delete_eq in H1 by done.
  - destruct (close r z (world p)) as [fa w] eqn:Ec. injection E as <-.
    by destruct (owned_close p a z r fa w) as [-> H1].
  - destruct (close r z (world p)) as [fa w] eqn:Ec. injection E as <-.
    destruct (owned_close p a z r fa w) as [-> H1]; [done..|].
    apply (owned_drop _ a) in H1; [|apply lookup_insert_eq]. cbn in H1. by rewrite delete_insert_eq in H1.
  - destruct r; [|done]. injection E as <-. apply owned_same; [done|intros; apply update_open|done].
  - destruct r; [|done]. injection E as <-. apply owned_same; [done|intros; apply update_open|done].
  - destruct r as [[fd addr]|e]; cbn [accept] in E.
    + pose proof (proj1 (proj1 (fresh_spec fd p) Hok)) as H0. rewrite (proj2 (Z.leb_le 0 fd) H0) in E.
      injection E as <-. by apply owned_fresh.
    + injection E as <-. apply owned_same; [done|..]; by destruct (_ && _).
  - injection E as <-. destruct r; apply owned_same; try done. intros; apply update_open.
  - injection E as <-. unfold setNonBlocking. destruct r1, r2; apply owned_same; try done. intros; apply update_open.
  - injection E as <-. destruct r; apply owned_same; try done. intros; apply update_open.
  - injection E as <-. by apply owned_close_raw.
Qed.

Lemma execs_owned l : forall p p', ops_ok l p = true -> execs l p = Some p' -> owned p -> owned p'.
Proof.
  induction l as [|o l IH]; intros p p' Hok E Ho; cbn in *; [by injection E as <-|].
  apply andb_true_iff in Hok as [H1 H2]. destruct (exec o p) as [p1|] eqn:E1; [|done]. cbn in E.
  eapply IH; [done..|]. by eapply exec_owned.
Qed.

(** C29: Descriptor ownership: however a program constructs, moves, move-assigns
    (to itself included), closes and destroys [Socket] objects, every [::close]
    hits an open descriptor (none is closed twice), no two objects hold the
    same descriptor, every open descriptor is held by an object or by the
    program itself, and once the objects are gone and the program holds none,
    no descriptor is left open. *)
Theorem descriptors_owned_once l p :
  ops_ok l prog0 = true -> execs l prog0 = Some p ->
  Forall (fun c => c.2 = true) (w_closes (world p)) /\
  (forall a b fd, objs p !! a = Some fd -> objs p !! b = Some fd -> 0 <= fd -> a = b) /\
  (forall fd, is_Some (w_open (world p) !! fd) <->
     fd ∈ raw p \/ exists a, objs p !! a = Some fd /\ 0 <= fd) /\
  (objs p = ∅ -> raw p = ∅ -> w_open (world p) = ∅).
Proof.
  intros Hok E. pose proof (execs_owned l _ _ Hok E owned_0) as Ho.
  assert (Hiff : forall fd, is_Some (w_open (world p) !! fd) <->
     fd ∈ raw p \/ exists a, objs p !! a = Some fd /\ 0 <= fd).
  { intros fd. split.
    - intros [H0 [?|[a Ha]]]%(own_open p Ho); [by left|right; eauto].
    - intros [Hr|(a & Ha & H0)]; [by apply (own_raw p Ho)|]. by destruct (own_obj p Ho a fd Ha) as [->|(_ & ? & _)]. }
  split_and!; [apply (own_closes p Ho)|apply (own_inj p Ho)|done|].
  intros Hobj Hraw. apply map_empty. intros fd. apply eq_None_not_Some. rewrite Hiff, Hraw, Hobj.
  intros [?|(a & Ha & _)]; [set_solver|]. by rewrite lookup_empty in Ha.
Qed.

(** A listener accepts a connection, hands it on by move, and both go away. *)
Definition sample_ops : list op :=
  [OpNew 0 (inl 3); OpOption (inl tt) SO_REUSEADDR true 0; OpBind (inl 40000) (mkInetAddress 0 80) 0;
   OpListen (inl tt) 0; OpAccept (inl (5, mkInetAddress 1 9)) 0; OpAdopt 1 5; OpMove 2 1; OpAssign (inl tt) 2 2;
   OpDestroy (inl tt) 1; OpDestroy (inl tt) 2; OpDestroy (inr 5) 0].

Lemma descriptors_owned_once_witness :
  exists p, execs sample_ops prog0 = Some p /\ Forall (fun c => c.2 = true) (w_closes (world p)).
Proof.
  destruct (execs sample_ops prog0) as [p|] eqn:E.
  - exists p. split; [done|]. apply (descriptors_owned_once sample_ops p); [vm_compute; reflexivity|done].
  - exfalso. assert (match execs sample_ops prog0 with Some _ => true | None => false end = true) as H
      by (vm_compute; reflexivity). by rewrite E in H.
Defined.
