(* ===== verification/ServerStart.v ===== *)
(** * ServerStart: bringing a server up and down

    The constructor, [listen], [listenAddress] and destructor of
    [src/Acceptor.cpp] over the sockets of [Socket.v], and [setThreadNum],
    [start], [getAllLoops] and [listenAddress] of [src/TcpServer.cpp].  Loop
    [0] is the base loop, worker loops are numbered from [1] in the order in
    which [startLoop] returned them.  [None] is an abort, a failed assertion or
    the use of a destroyed acceptor. *)
From S2P Require Import Prelude InetAddress Socket.

(** ** The acceptor's own state *)

Record Listener := mkListener {
  l_fd : Z;               (* [acceptSocket_.sockfd_] *)
  l_idle : Z;             (* [idleFd_] *)
  l_reading : bool;       (* the events of [acceptChannel_] *)
  l_added : bool;         (* [acceptChannel_.addedToLoop_] *)
  l_listening : bool      (* [listening_] *)
}.

(** The answers to [socket], [open], two [setsockopt] and [bind]. *)
Record setup := mkSetup {
  r_socket : reply Z; r_open : reply Z; r_addr : reply unit; r_port : reply unit; r_bind : reply Z
}.

(** [::open("/dev/null", O_RDONLY | O_CLOEXEC)] *)
Definition sys_open (r : reply Z) (w : World) : Z * World :=
  match r with
  | inl fd => (fd, set_open (<[fd := mkDesc 0 (fun _ => false) None false false]> (w_open w)) w)
  | inr _ => (-1, w)
  end.

Definition Listener_new (s : setup) (listenAddr : InetAddress) (w : World) : option (Listener * World) :=
  '(fd, w) ← Socket_new (r_socket s) w;
  let '(idle, w) := sys_open (r_open s) w in
  let w := setOption (r_addr s) SO_REUSEADDR true fd w in
  let w := setOption (r_port s) SO_REUSEPORT true fd w in
  w ← bind (r_bind s) listenAddr fd w;
  Some (mkListener fd idle false false false, w).

(** [Acceptor::listen], on the base loop. *)
Definition Listener_listen (r : reply unit) (l : Listener) (w : World) : option (Listener * World) :=
  w ← listen r (l_fd l) w;
  Some (mkListener (l_fd l) (l_idle l) true true true, w).

(** [Acceptor::listenAddress]: the default address when [getsockname] fails. *)
Definition Listener_address (r : reply unit) (l : Listener) (w : World) : InetAddress :=
  (getLocalAddr r (l_fd l) (mkInetAddress INADDR_ANY 0) w).1.2.

(** [~Acceptor]: the body, then the members' destructors, the channel before
    the socket. *)
Definition Listener_destroy (r : reply unit) (l : Listener) (w : World) : option World :=
  let l := mkListener (l_fd l) (l_idle l) false true (l_listening l) in           (* disableAll *)
  if l_reading l then None else                                                   (* remove *)
  let l := mkListener (l_fd l) (l_idle l) false false (l_listening l) in
  let w := if 0 <=? l_idle l then sys_close (l_idle l) w else w in
  if l_added l then None else                                                     (* ~Channel *)
  Some (close r (l_fd l) w).2.

(** ** The server's start-up state *)

(** [pending] counts the functors [Acceptor::listen] in the base loop's queue;
    [initialised] lists the loops [threadInitCallback_] saw. *)
Record Server := mkServer {
  started_ : bool;
  threadNum_ : Z;
  subLoops_ : list nat;
  initialised : list nat;
  listener : Listener;
  pending : nat;
  sworld : World
}.

Definition Server_new (s : setup) (listenAddr : InetAddress) (w : World) : option Server :=
  '(l, w) ← Listener_new s listenAddr w; Some (mkServer false 0 [] [] l 0 w).

Definition setThreadNum (n : Z) (s : Server) : option Server :=
  if started_ s then None
  else Some (mkServer (started_ s) n (subLoops_ s) (initialised s) (listener s) (pending s) (sworld s)).

(** [for (int i = 0; i < threadNum_; ++i)] *)
Fixpoint startThreads (n : nat) (callback : bool) (s : Server) : Server :=
  match n with
  | O => s
  | S n =>
      let subLoop := S (length (subLoops_ s)) in
      startThreads n callback
        (mkServer (started_ s) (threadNum_ s) (subLoops_ s ++ [subLoop])
           (if callback then initialised s ++ [subLoop] else initialised s) (listener s) (pending s) (sworld s))
  end.

Definition run_listen (r : reply unit) (s : Server) : option Server :=
  '(l, w) ← Listener_listen r (listener s) (sworld s);
  Some (mkServer (started_ s) (threadNum_ s) (subLoops_ s) (initialised s) l (pending s) w).

(** [start], called on the base loop's thread or on another one.  The test of
    [started_] and the store after it are two accesses: [seen] is what the test has
    read, and another thread may have stored since.  [r] answers [::listen] when it
    runs at once. *)
Definition start (seen onBase callback : bool) (r : reply unit) (s : Server) : option Server :=
  let s :=
    if seen then s else
    let s := mkServer true (threadNum_ s) (subLoops_ s) (initialised s) (listener s) (pending s) (sworld s) in
    if 0 <? threadNum_ s then startThreads (Z.to_nat (threadNum_ s)) callback s else s in
  if l_listening (listener s) then Some s
  else if onBase then run_listen r s
  else Some (mkServer (started_ s) (threadNum_ s) (subLoops_ s) (initialised s) (listener s) (S (pending s)) (sworld s)).

(** The base loop runs one queued [Acceptor::listen]. *)
Definition run_pending (r : reply unit) (s : Server) : option Server :=
  match pending s with
  | O => Some s
  | S n => run_listen r (mkServer (started_ s) (threadNum_ s) (subLoops_ s) (initialised s) (listener s) n (sworld s))
  end.

Definition getAllLoops (s : Server) : list nat := 0%nat :: subLoops_ s.

(** [listenAddress] and [listenPort], on the base loop's thread. *)
Definition listenAddress (r : reply unit) (s : Server) : InetAddress := Listener_address r (listener s) (sworld s).
Definition listenPort (r : reply unit) (s : Server) : Z := toPort (listenAddress r s).

Inductive start_event := SetThreads (n : Z) | Start (seen onBase callback : bool) (r : reply unit) | RunPending (r : reply unit).

Definition start_step (e : start_event) (s : Server) : option Server :=
  match e with
  | SetThreads n => setThreadNum n s
  | Start seen onBase callback r => start seen onBase callback r s
  | RunPending r => run_pending r s
  end.

Fixpoint start_run (es : list start_event) (s : Server) : option Server :=
  match es with [] => Some s | e :: es => s ← start_step e s; start_run es s end.

(** [setThreadNum] comes before [start], calls of [start] do not overlap, so that
    the test of one sees the store of the other, and [::listen] succeeds. *)
Definition ok_reply {A} (r : reply A) : bool := match r with inl _ => true | inr _ => false end.
Definition start_event_ok (started : bool) (e : start_event) : bool :=
  match e with
  | SetThreads _ => negb started
  | Start seen _ _ r => eqb seen started && ok_reply r
  | RunPending r => ok_reply r
  end.
Fixpoint start_events_ok (started : bool) (es : list start_event) : bool :=
  match es with
  | [] => true
  | e :: es => start_event_ok started e && start_events_ok (started || match e with Start _ _ _ _ => true | _ => false end) es
  end.

(** ** Invariant *)

(** The listening descriptor as the kernel sees it. *)
Definition listener_desc (s : Server) (addr : InetAddress) (d : Desc) : Prop :=
  w_open (sworld s) !! l_fd (listener s) = Some d /\ d_local d = Some addr /\
  d_opt d SO_REUSEADDR = true /\ d_opt d SO_REUSEPORT = true /\
  d_listening d = l_listening (listener s).

Record start_inv (addr : InetAddress) (fd idle : Z) (s : Server) : Prop := {
  si_desc : exists d, listener_desc s addr d;
  si_fds : l_fd (listener s) = fd /\ l_idle (listener s) = idle;
  si_loops : subLoops_ s = if started_ s then seq 1 (Z.to_nat (threadNum_ s)) else [];
  si_reading : l_reading (listener s) = l_listening (listener s);
  si_open : forall k, is_Some (w_open (sworld s) !! k) -> k = fd \/ k = idle
}.

(** A started server listens, or will once the base loop has run its queue. *)
Definition will_listen (s : Server) : Prop :=
  started_ s = true -> l_listening (listener s) = true \/ (0 < pending s)%nat.

Lemma startThreads_spec n callback s :
  startThreads n callback s =
  mkServer (started_ s) (threadNum_ s) (subLoops_ s ++ seq (S (length (subLoops_ s))) n)
    (if callback then initialised s ++ seq (S (length (subLoops_ s))) n else initialised s)
    (listener s) (pending s) (sworld s).
Proof.
  revert s. induction n as [|n IH]; intros s; cbn [startThreads seq].
  - rewrite !app_nil_r. by destruct s, callback.
  - rewrite IH. cbn. rewrite length_app, <- !app_assoc. cbn. rewrite Nat.add_1_r. by destruct callback; rewrite <- ?app_assoc.
Qed.

Lemma run_listen_inv addr fd idle r s :
  ok_reply r = true -> start_inv addr fd idle s ->
  exists s', run_listen r s = Some s' /\ start_inv addr fd idle s' /\ l_listening (listener s') = true /\
    started_ s' = started_ s.
Proof.
  intros Hr [(d & Hd & Hl & Ha & Hp & Hg) [Hf Hi] Hs Hrd Ho]. destruct r as [[]|]; [|done].
  unfold run_listen, Listener_listen, listen. cbn. eexists. split; [done|]. split; [|done].
  split; cbn; [..|done|].
  - exists (mkDesc (d_flags d) (d_opt d) (d_local d) true (d_shutWr d)). split_and!; cbn; try done.
    rewrite lookup_alter_eq, Hd. done.
  - done.
  - done.
  - intros k Hk. apply Ho. by apply (update_open (l_fd (listener s))) in Hk.
Qed.

Definition is_start (e : start_event) : bool := match e with Start _ _ _ _ => true | _ => false end.

(** The part of [start] before the listening check. *)
Lemma started_inv addr fd idle callback s :
  start_inv addr fd idle s ->
  let s1 := mkServer true (threadNum_ s) (subLoops_ s) (initialised s) (listener s) (pending s) (sworld s) in
  let s2 := if started_ s then s
            else if 0 <? threadNum_ s1 then startThreads (Z.to_nat (threadNum_ s1)) callback s1 else s1 in
  start_inv addr fd idle s2 /\ started_ s2 = true.
Proof.
  intros Hi s1 s2. unfold s2. destruct (started_ s) eqn:Hs; [done|]. destruct Hi as [H1 H2 H3 H4 H5].
  rewrite Hs in H3. cbn. destruct (Z.ltb_spec 0 (threadNum_ s)).
  - rewrite startThreads_spec. cbn. split; [|done]. split; cbn; try done. by rewrite H3.
  - split; [|done]. split; cbn; try done. rewrite H3. by replace (Z.to_nat (threadNum_ s)) with 0%nat by lia.
Qed.

Lemma start_step_inv addr fd idle e s :
  start_event_ok (started_ s) e = true -> start_inv addr fd idle s -> will_listen s ->
  exists s', start_step e s = Some s' /\ start_inv addr fd idle s' /\ will_listen s' /\
    started_ s' = started_ s || is_start e.
Proof.
  intros Hok Hi Hw. destruct e as [n|seen onBase callback r|r]; cbn [start_step start_event_ok is_start] in *.
  - unfold setThreadNum. destruct (started_ s) eqn:Hs; [done|]. eexists. split; [done|].
    destruct Hi as [H1 H2 H3 H4 H5]. rewrite Hs in *. split; [by split|]. by split; [|cbn].
  - apply andb_prop in Hok as [->%eqb_prop Hok]. rewrite orb_true_r. unfold start.
    destruct (started_inv addr fd idle callback s Hi) as [Hi2 Hs2]. cbv zeta in Hi2, Hs2.
    set (s2 := if started_ s then s else _) in *. clearbody s2.
    destruct (l_listening (listener s2)) eqn:Hl.
    { exists s2. split_and!; [done..|by left|done]. }
    destruct onBase.
    + destruct (run_listen_inv addr fd idle r s2 Hok Hi2) as (s' & -> & Hi' & Hl' & Hst).
      exists s'. split_and!; [done..|by left|congruence].
    + eexists. split; [done|]. split; [|split; [intros _; right; cbn; lia|done]]. by destruct Hi2; split.
  - unfold run_pending. rewrite orb_false_r. destruct (pending s) as [|n]; [by exists s|].
    destruct (run_listen_inv addr fd idle r
      (mkServer (started_ s) (threadNum_ s) (subLoops_ s) (initialised s) (listener s) n (sworld s)) Hok)
      as (s' & -> & Hi' & Hl' & Hst); [by destruct Hi; split|].
    exists s'. split_and!; [done..|by left|done].
Qed.

Lemma start_run_inv addr fd idle es : forall s,
  start_events_ok (started_ s) es = true -> start_inv addr fd idle s -> will_listen s ->
  exists s', start_run es s = Some s' /\ start_inv addr fd idle s' /\ will_listen s' /\
    started_ s' = started_ s || existsb is_start es.
Proof.
  induction es as [|e es IH]; intros s Hok Hi Hw; cbn [start_events_ok start_run existsb] in *.
  { exists s. by rewrite orb_false_r. }
  apply andb_true_iff in Hok as [H1 H2].
  destruct (start_step_inv addr fd idle e s H1 Hi Hw) as (s1 & -> & Hi1 & Hw1 & Hs1). cbn [mbind option_bind].
  destruct (IH s1) as (s' & -> & Hi' & Hw' & Hs'); [by rewrite Hs1|done..|].
  exists s'. by rewrite Hs', Hs1, orb_assoc.
Qed.

(** All the constructor's calls succeed, with two different descriptors; [free] is
    the port a socket bound with port 0 gets. *)
Definition setup_ok (fd idle free : Z) : setup := mkSetup (inl fd) (inl idle) (inl tt) (inl tt) (inl free).
Definition world0 : World := mkWorld ∅ [] [].

Lemma alter_open (m : gmap Z Desc) f fd k : is_Some (alter f fd m !! k) <-> is_Some (m !! k).
Proof. apply (update_open fd f (mkWorld m [] [])). Qed.

Lemma Server_new_inv addr fd idle free :
  fd <> idle ->
  exists s, Server_new (setup_ok fd idle free) addr world0 = Some s /\ start_inv (bound_addr addr free) fd idle s /\ started_ s = false.
Proof.
  intros Hne. eexists. split; [done|]. split; [|done]. split; cbn; try done.
  - exists (mkDesc O_NONBLOCK (fun o => if decide (o = SO_REUSEPORT) then true
        else if decide (o = SO_REUSEADDR) then true else false) (Some (bound_addr addr free)) false false).
    split_and!; cbn; try done. rewrite !lookup_alter_eq, lookup_insert_ne, lookup_insert_eq by done. done.
  - intros k Hk. rewrite !alter_open in Hk. destruct (decide (k = idle)); [by right|].
    rewrite lookup_insert_ne in Hk by done. destruct (decide (k = fd)); [by left|].
    rewrite lookup_insert_ne, lookup_empty in Hk by done. by destruct Hk.
Qed.

(** Destroying it closes both descriptors. *)
Lemma Listener_destroy_spec addr fd idle s :
  0 <= fd -> 0 <= idle -> start_inv addr fd idle s ->
  exists w, Listener_destroy (inl tt) (listener s) (sworld s) = Some w /\ w_open w = ∅ /\
    w_closes w = w_closes (sworld s) ++ [(idle, bool_decide (is_Some (w_open (sworld s) !! idle)));
                                         (fd, bool_decide (is_Some (delete idle (w_open (sworld s)) !! fd)))].
Proof.
  intros Hf Hd [_ [<- <-] _ _ Ho]. unfold Listener_destroy, close. cbn.
  rewrite (proj2 (Z.leb_le _ _) Hf), (proj2 (Z.leb_le _ _) Hd). eexists. split; [done|]. cbn.
  split; [|by rewrite <- app_assoc]. apply map_empty. intros k.
  destruct (decide (k = l_fd (listener s))) as [->|]; [apply lookup_delete_eq|]. rewrite lookup_delete_ne by done.
  destruct (decide (k = l_idle (listener s))) as [->|]; [apply lookup_delete_eq|]. rewrite lookup_delete_ne by done.
  apply eq_None_not_Some. intros Hk. by destruct (Ho k Hk).
Qed.

(** What the base loop's thread is told of the address. *)
Lemma listenAddress_spec addr fd idle s : start_inv addr fd idle s -> listenAddress (inl tt) s = addr.
Proof.
  intros [(d & Hd & Ha & _) _ _ _ _]. unfold listenAddress, Listener_address, getLocalAddr. by rewrite Hd, Ha.
Qed.

Lemma toPort_bound addr free : toPort (bound_addr addr free) = if toPort addr =? 0 then free else toPort addr.
Proof. unfold bound_addr, toPort. by destruct (sin_port addr =? 0). Qed.

(** C30: Bringing a server up: whichever threads call [start] one after the other,
    and however often, and whatever order the base loop runs the posted [listen] in,
    no assertion fails; the address the socket is bound to is reported at every
    moment, before [listen] too, with the requested port, or, if that is 0, the one
    the kernel has assigned; once started the worker loops are those of one start and the
    server listens, or does so when the base loop next runs its queue; and the
    acceptor's destructor leaves no descriptor open. *)
Theorem server_start addr fd idle free es :
  0 <= fd -> 0 <= idle -> fd <> idle -> 0 < free < 2 ^ 16 -> start_events_ok false es = true ->
  exists s0 s, Server_new (setup_ok fd idle free) addr world0 = Some s0 /\ start_run es s0 = Some s /\
    (exists d, w_open (sworld s) !! l_fd (listener s) = Some d /\ d_opt d SO_REUSEADDR = true /\
       d_opt d SO_REUSEPORT = true /\ d_listening d = l_listening (listener s) /\
       d_local d = Some (listenAddress (inl tt) s)) /\
    toIp (listenAddress (inl tt) s) = toIp addr /\
    listenPort (inl tt) s = (if toPort addr =? 0 then free else toPort addr) /\ listenPort (inl tt) s <> 0 /\
    (existsb is_start es = true ->
       getAllLoops s = seq 0 (S (Z.to_nat (threadNum_ s))) /\
       exists s', run_pending (inl tt) s = Some s' /\ l_listening (listener s') = true) /\
    exists w, Listener_destroy (inl tt) (listener s) (sworld s) = Some w /\ w_open w = ∅.
Proof.
  intros Hf Hd Hne Hfr Hok. destruct (Server_new_inv addr fd idle free Hne) as (s0 & E0 & Hi0 & Hs0).
  set (addr' := bound_addr addr free) in *. destruct (start_run_inv addr' fd idle es s0) as (s & Es & Hi & Hw & Hs);
    [by rewrite Hs0|done|intros H; congruence|].
  exists s0, s. split; [done|]. split; [done|]. split.
  { destruct (si_desc _ _ _ _ Hi) as (d & H1 & H2 & H3 & H4 & H5). exists d. split_and!; [done..|].
    by rewrite (listenAddress_spec _ _ _ _ Hi). }
  unfold listenPort. rewrite (listenAddress_spec _ _ _ _ Hi). unfold addr'. rewrite toPort_bound.
  split; [unfold toIp, bound_addr; by destruct (sin_port addr =? 0)|]. split; [done|]. split; [destruct (Z.eqb_spec (toPort addr) 0); lia|].
  split.
  - intros Hst. rewrite Hs0 in Hs. cbn in Hs. rewrite Hst in Hs. split.
    + unfold getAllLoops. rewrite (si_loops _ _ _ _ Hi), Hs. done.
    + unfold run_pending. specialize (Hw Hs). destruct (pending s) as [|n]; [exists s; split; [done|destruct Hw; [done|lia]]|].
      destruct (run_listen_inv addr' fd idle (inl tt)
        (mkServer (started_ s) (threadNum_ s) (subLoops_ s) (initialised s) (listener s) n (sworld s)))
        as (s' & -> & _ & Hl' & _); [done|by destruct Hi; split|eauto].
  - destruct (Listener_destroy_spec addr' fd idle s Hf Hd Hi) as (w & Hw1 & Hw2 & _). eauto.
Qed.

Lemma server_start_witness :
  let es := [SetThreads 2; Start false false true (inl tt); Start true false true (inl tt); RunPending (inl tt)] in
  exists s0 s, Server_new (setup_ok 3 4 40000) (mkInetAddress 0 0) world0 = Some s0 /\ start_run es s0 = Some s /\
    listenPort (inl tt) s = 40000 /\ getAllLoops s = seq 0 (S (Z.to_nat (threadNum_ s))).
Proof.
  destruct (server_start (mkInetAddress 0 0) 3 4 40000
    [SetThreads 2; Start false false true (inl tt); Start true false true (inl tt); RunPending (inl tt)])
    as (s0 & s & H1 & H2 & _ & _ & Hp & _ & H3 & _); [lia|lia|lia|lia|reflexivity|].
  exists s0, s. split; [exact H1|]. split; [exact H2|]. split; [exact Hp|]. apply H3. reflexivity.
Defined.

(** [TcpServer.h] calls the flag safe against a repeated [start] from several threads,
    but two threads that both test it before one of them stores it start the worker
    loops twice. *)
Example start_race :
  (s ← Server_new (setup_ok 3 4 40000) (mkInetAddress 0 0) world0;
   s ← start_run [SetThreads 2; Start false false true (inl tt); Start false false true (inl tt)] s;
   Some (threadNum_ s, subLoops_ s)) = Some (2, [1; 2; 3; 4]%nat).
Proof. reflexivity. Qed.
