(* ===== verification/TcpServer.v ===== *)
(** * TcpServer: accepting, naming, distributing and removing connections

    [src/Acceptor.cpp] and [src/TcpServer.cpp].  The connections themselves are
    modelled in [TcpConnection.v]; here a connection is its name, its loop and
    how far its life has come.  The base loop and the loops of the worker threads
    interleave: every step is one functor or callback of one loop. *)
From S2P Require Import Prelude Charconv InetAddress.

(** ** Acceptor *)
Module Acceptor.

(** [opened], [closed] and [handed] record the descriptors that [accept4] and
    [open] returned, that were closed, and that went to the callback. *)
Record Acceptor := mkAcceptor {
  listening_ : bool;
  idleFd_ : Z;
  opened : list Z;
  closed : list Z;
  handed : list Z
}.

Definition EMFILE : Z := 24.
Definition ENFILE : Z := 23.

(** A system call that returns a descriptor, or fails with an errno. *)
Definition fd_result : Type := Z + Z.

Definition Acceptor_new (idle : fd_result) : Acceptor :=
  match idle with
  | inl fd => mkAcceptor false fd [fd] [] []
  | inr _ => mkAcceptor false (-1) [] [] []
  end.

Definition listen (a : Acceptor) : Acceptor := mkAcceptor true (idleFd_ a) (opened a) (closed a) (handed a).

(** [::close(fd)]; closing a negative descriptor fails and does nothing. *)
Definition close (fd : Z) (a : Acceptor) : Acceptor :=
  if 0 <=? fd then mkAcceptor (listening_ a) (idleFd_ a) (opened a) (closed a ++ [fd]) (handed a) else a.

(** A call that opens a descriptor. *)
Definition obtain (r : fd_result) (a : Acceptor) : Z * Acceptor :=
  match r with
  | inl fd => (fd, mkAcceptor (listening_ a) (idleFd_ a) (opened a ++ [fd]) (closed a) (handed a))
  | inr _ => (-1, a)
  end.

Definition set_idle (fd : Z) (a : Acceptor) : Acceptor :=
  mkAcceptor (listening_ a) fd (opened a) (closed a) (handed a).

Definition hand (fd : Z) (a : Acceptor) : Acceptor :=
  mkAcceptor (listening_ a) (idleFd_ a) (opened a) (closed a) (handed a ++ [fd]).

(** [handleRead]; the arguments are whether the callback is set and the answers
    to the first [accept], to the second one and to [open]. *)
Definition handleRead (callback : bool) (r1 r2 r3 : fd_result) (a : Acceptor) : Acceptor :=
  match r1 with
  | inl connfd =>
      let '(connfd, a) := obtain r1 a in
      if callback then hand connfd a else close connfd a
  | inr errno =>
      if (errno =? EMFILE) || (errno =? ENFILE) then
        let a := close (idleFd_ a) a in
        let '(fd, a) := obtain r2 a in
        let a := set_idle fd a in
        let a := if 0 <=? idleFd_ a then close (idleFd_ a) a else a in
        let '(fd, a) := obtain r3 a in
        set_idle fd a
      else a
  end.

(** [~Acceptor], for the descriptors. *)
Definition destroy (a : Acceptor) : Acceptor := close (idleFd_ a) a.

Definition fd_ok (r : fd_result) : bool := match r with inl fd => 0 <=? fd | inr _ => true end.

Fixpoint acceptor_run (a : Acceptor) (l : list (bool * fd_result * fd_result * fd_result)) : Acceptor :=
  match l with
  | [] => a
  | (cb, r1, r2, r3) :: l => acceptor_run (handleRead cb r1 r2 r3 a) l
  end.

(** What is open is the idle descriptor. *)
Definition balanced (a : Acceptor) : Prop :=
  opened a ≡ₚ closed a ++ handed a ++ (if 0 <=? idleFd_ a then [idleFd_ a] else []).

Lemma obtain_cases r a fd a' :
  fd_ok r = true -> obtain r a = (fd, a') ->
  (0 <= fd /\ opened a' = opened a ++ [fd] \/ fd = -1 /\ opened a' = opened a) /\
  closed a' = closed a /\ handed a' = handed a /\ idleFd_ a' = idleFd_ a.
Proof. destruct r; cbn; intros H [= <- <-]; cbn; [|auto 10]. apply Z.leb_le in H. auto 10. Qed.

Lemma close_idle a :
  balanced a -> opened (close (idleFd_ a) a) ≡ₚ closed (close (idleFd_ a) a) ++ handed (close (idleFd_ a) a).
Proof.
  unfold balanced, close. destruct (0 <=? idleFd_ a) eqn:E; cbn.
  - intros ->. rewrite <- app_assoc. by apply Permutation_app_head, Permutation_app_comm.
  - by rewrite app_nil_r.
Qed.

Lemma handleRead_balanced cb r1 r2 r3 a :
  fd_ok r1 = true -> fd_ok r2 = true -> fd_ok r3 = true -> balanced a -> balanced (handleRead cb r1 r2 r3 a).
Proof.
  intros H1 H2 H3 Hb. unfold handleRead. destruct r1 as [connfd|errno].
  - cbn in *. unfold balanced in *. destruct cb; cbn.
    + rewrite Hb. rewrite <- !app_assoc. apply Permutation_app_head, Permutation_app_head, Permutation_app_comm.
    + unfold close. cbn. rewrite H1. cbn. rewrite Hb, <- !app_assoc. apply Permutation_app_head.
      rewrite app_assoc. apply Permutation_app_comm.
  - destruct (_ || _); [|done]. apply close_idle in Hb. revert Hb. generalize (close (idleFd_ a) a). intros a1 Hb.
    destruct (obtain r2 a1) as [fd2 a2] eqn:E2. destruct (obtain_cases _ _ _ _ H2 E2) as (Ho2 & Hc2 & Hh2 & _).
    set (a3 := if 0 <=? idleFd_ (set_idle fd2 a2) then _ else _).
    assert (opened a3 ≡ₚ closed a3 ++ handed a3) as Hb3.
    { unfold a3, close. cbn. destruct Ho2 as [[Hp Ho2]|[-> Ho2]].
      - rewrite (proj2 (Z.leb_le 0 fd2) Hp). cbn. rewrite Ho2, Hc2, Hh2, Hb, <- !app_assoc.
        apply Permutation_app_head, Permutation_app_comm.
      - cbn. by rewrite Ho2, Hc2, Hh2. }
    destruct (obtain r3 a3) as [fd3 a4] eqn:E3. destruct (obtain_cases _ _ _ _ H3 E3) as (Ho3 & Hc3 & Hh3 & _).
    unfold balanced. cbn. destruct Ho3 as [[Hp Ho3]|[-> Ho3]].
    + rewrite (proj2 (Z.leb_le 0 fd3) Hp), Ho3, Hc3, Hh3, Hb3. by rewrite <- app_assoc.
    + cbn. rewrite Ho3, Hc3, Hh3, app_nil_r. done.
Qed.

(** C37: The acceptor leaks no descriptor: whatever [accept4] and [open] answer over
    any number of readiness events, running out of descriptors included, every
    descriptor it received was closed, went to the callback, or is the one kept in
    reserve; and its destructor closes that one. *)
Theorem acceptor_no_leak idle l :
  fd_ok idle = true ->
  Forall (fun '(cb, r1, r2, r3) => fd_ok r1 = true /\ fd_ok r2 = true /\ fd_ok r3 = true) l ->
  let a := acceptor_run (Acceptor_new idle) l in
  opened a ≡ₚ closed a ++ handed a ++ (if 0 <=? idleFd_ a then [idleFd_ a] else []) /\
  opened (destroy a) ≡ₚ closed (destroy a) ++ handed (destroy a).
Proof.
  intros Hi Hl. assert (balanced (acceptor_run (Acceptor_new idle) l)) as Hb; [|split; [done|by apply close_idle]].
  assert (balanced (Acceptor_new idle)) as Hb0. { unfold balanced. destruct idle as [fd|e]; cbn in *; [by rewrite Hi|done]. }
  revert Hb0. generalize (Acceptor_new idle). induction Hl as [|[[[cb r1] r2] r3] l (?&?&?) _ IH]; intros a Hb0; [done|].
  cbn. by apply IH, handleRead_balanced.
Qed.

Lemma acceptor_no_leak_witness :
  let a := acceptor_run (Acceptor_new (inl 3)) [(true, inl 7, inr 0, inr 0); (true, inr EMFILE, inl 3, inl 3)] in
  opened a ≡ₚ closed a ++ handed a ++ (if 0 <=? idleFd_ a then [idleFd_ a] else []) /\
  opened (destroy a) ≡ₚ closed (destroy a) ++ handed (destroy a).
Proof. apply (acceptor_no_leak (inl 3)); [done|]. by repeat constructor. Defined.
End Acceptor.

(** ** TcpServer *)

(** How far a connection has come: its [connectEstablished] is posted, it is
    up, it closed and its removal is posted, it left the table and its
    [connectDestroyed] is posted, it is gone from its poller. *)
Inductive phase := Posted | Open | Closing | Erased | Destroyed.

#[global] Instance phase_eq_dec : EqDecision phase.
Proof. solve_decision. Defined.

Record conn := mkConn { connName : bytes; io_loop : nat; cphase : phase }.

(** The functors of the server, by connection. *)
Inductive task := Establish (k : nat) | Remove (k : nat) | Destroy (k : nat).

#[global] Instance task_eq_dec : EqDecision task.
Proof. solve_decision. Defined.

(** Loop [0] is [baseLoop_], loop [S i] is [subLoops_[i]]; [queues] holds their
    [pendingFunctors_] and [conns] every connection ever made; [alive] turns false
    when the server is destroyed. *)
Record TcpServer := mkServer {
  name_ : bytes;
  subLoops_ : nat;
  nextConnId_ : Z;
  connections_ : gmap bytes nat;
  conns : list conn;
  queues : list (list task);
  alive : bool
}.

(** The constructor followed by [start] with [threads] worker threads. *)
Definition TcpServer_new (name : bytes) (threads : nat) : TcpServer :=
  mkServer name threads 1 ∅ [] (replicate (S threads) []) true.

Definition INT_MAX : Z := 2 ^ 31 - 1.

Definition set_conns (l : list conn) (s : TcpServer) : TcpServer :=
  mkServer (name_ s) (subLoops_ s) (nextConnId_ s) (connections_ s) l (queues s) (alive s).

Definition set_table (m : gmap bytes nat) (s : TcpServer) : TcpServer :=
  mkServer (name_ s) (subLoops_ s) (nextConnId_ s) m (conns s) (queues s) (alive s).

Definition set_phase (k : nat) (p : phase) (s : TcpServer) : TcpServer :=
  set_conns (alter (fun c => mkConn (connName c) (io_loop c) p) k (conns s)) s.

Definition set_queue (i : nat) (q : list task) (s : TcpServer) : TcpServer :=
  mkServer (name_ s) (subLoops_ s) (nextConnId_ s) (connections_ s) (conns s) (<[i := q]> (queues s)) (alive s).

(** [queueInLoop] of loop [i]. *)
Definition post (i : nat) (t : task) (s : TcpServer) : TcpServer := set_queue i (queues s !!! i ++ [t]) s.

(** [connectEstablished] and [connectDestroyed], which assert that they run on
    the connection's loop. *)
Definition connectEstablished (here k : nat) (s : TcpServer) : option TcpServer :=
  c ← conns s !! k;
  if bool_decide (io_loop c = here) && bool_decide (cphase c = Posted) then Some (set_phase k Open s) else None.

Definition connectDestroyed (here k : nat) (s : TcpServer) : option TcpServer :=
  c ← conns s !! k;
  if bool_decide (io_loop c = here) then Some (set_phase k Destroyed s) else None.

(** [removeConnectionInLoop], with its assertion that the name was there; the
    functor holds [this], so that it must not outlive the server. *)
Definition removeConnectionInLoop (k : nat) (s : TcpServer) : option TcpServer :=
  if alive s then
    c ← conns s !! k;
    _ ← connections_ s !! connName c;
    Some (post (io_loop c) (Destroy k) (set_phase k Erased (set_table (delete (connName c) (connections_ s)) s)))
  else None.

(** [removeConnection], the close callback, called on loop [here]. *)
Definition removeConnection (here k : nat) (s : TcpServer) : option TcpServer :=
  if alive s then
    if bool_decide (here = 0%nat) then removeConnectionInLoop k s else Some (post 0 (Remove k) s)
  else None.

Definition server_connName (name : bytes) (peer : InetAddress) (id : Z) : bytes :=
  name ++ take 63 (str "-" ++ toIpPort peer ++ str "#" ++ decimal id).

#[local] Arguments server_connName : simpl never.

(** Where a new connection goes, and the id in its name. *)
Definition pick_loop (s : TcpServer) : option (nat * Z) :=
  if bool_decide (subLoops_ s = 0%nat) then Some (0%nat, nextConnId_ s)
  else if nextConnId_ s <? INT_MAX
       then Some (S (Z.to_nat (nextConnId_ s mod Z.of_nat (subLoops_ s))), nextConnId_ s + 1) else None.

Definition newConnection (peer : InetAddress) (s : TcpServer) : option TcpServer :=
  '(io, id) ← pick_loop s;
  let connName := server_connName (name_ s) peer id in
  let k := length (conns s) in
  let s := mkServer (name_ s) (subLoops_ s) id (<[connName := k]> (connections_ s))
             (conns s ++ [mkConn connName io Posted]) (queues s) (alive s) in
  if bool_decide (io = 0%nat) then connectEstablished 0 k s else Some (post io (Establish k) s).

Definition subject (t : task) : nat := match t with Establish k | Remove k | Destroy k => k end.

Definition run_task (here : nat) (t : task) (s : TcpServer) : option TcpServer :=
  match t with
  | Establish k => connectEstablished here k s
  | Remove k => removeConnectionInLoop k s
  | Destroy k => connectDestroyed here k s
  end.

(** Who holds a reference to connection [k]: the table, or a functor. *)
Definition held (s : TcpServer) (k : nat) (c : conn) : bool :=
  bool_decide (connections_ s !! connName c = Some k) ||
  existsb (existsb (fun t => bool_decide (subject t = k))) (queues s).

(** The destructor of a connection whose channel is still with the poller fails
    the assertion of [~Channel]. *)
Definition registered (p : phase) : bool :=
  match p with Open | Closing | Erased => true | Posted | Destroyed => false end.

Definition settle (s : TcpServer) : option TcpServer :=
  if forallb (fun '(k, c) => negb (registered (cphase c)) || held s k c) (imap pair (conns s)) then Some s else None.

(** [~TcpServer], for the table in the order of [order]. *)
Fixpoint destroy_each (order : list nat) (s : TcpServer) : option TcpServer :=
  match order with
  | [] => Some s
  | k :: order =>
      c ← conns s !! k;
      s ← (if bool_decide (io_loop c = 0%nat) then connectDestroyed 0 k s else Some (post (io_loop c) (Destroy k) s));
      destroy_each order s
  end.

Definition server_destroy (s : TcpServer) : option TcpServer :=
  s ← destroy_each (snd <$> map_to_list (connections_ s)) s;
  Some (mkServer (name_ s) (subLoops_ s) (nextConnId_ s) ∅ (conns s) (queues s) false).

(** What the loops do: the base loop accepts a connection, a loop runs its next
    functor, connection [k] sees its end of stream on its own loop, the server is
    destroyed.  An event that cannot occur does nothing. *)
Inductive event := EvAccept (peer : InetAddress) | EvRun (i : nat) | EvClose (k : nat) | EvDestroy.

Definition server_step (e : event) (s : TcpServer) : option TcpServer :=
  match e with
  | EvAccept peer => if alive s then s ← newConnection peer s; settle s else Some s
  | EvRun i =>
      match queues s !!! i with
      | [] => Some s
      | t :: q => s ← run_task i t (set_queue i q s); settle s
      end
  | EvClose k =>
      match conns s !! k with
      | Some c =>
          if bool_decide (cphase c = Open) then s ← removeConnection (io_loop c) k (set_phase k Closing s); settle s
          else Some s
      | None => Some s
      end
  | EvDestroy => if alive s then s ← server_destroy s; settle s else Some s
  end.

Fixpoint server_run (es : list event) (s : TcpServer) : option TcpServer :=
  match es with
  | [] => Some s
  | e :: es => s ← server_step e s; server_run es s
  end.

(** ** Correctness *)

Lemma app_first_inj {A} (x : A) (a a' b b' : list A) : x ∉ a -> x ∉ a' -> a ++ x :: b = a' ++ x :: b' -> b = b'.
Proof.
  revert a'. induction a as [|y a IH]; intros [|y' a'] Ha Ha' H; simplify_list_eq; [done|set_solver|set_solver|].
  apply (IH a'); set_solver.
Qed.

(** The id in a name can be read back. *)
Lemma connName_inj name peer peer' id id' :
  addr_ok peer = true -> addr_ok peer' = true -> 0 <= id <= INT_MAX -> 0 <= id' <= INT_MAX ->
  server_connName name peer id = server_connName name peer' id' -> id = id'.
Proof.
  assert (forall p i, addr_ok p = true -> 0 <= i <= INT_MAX ->
    server_connName name p i = name ++ str "-" ++ toIpPort p ++ str "#" ++ decimal i) as Hn.
  { intros p i Hp Hi. unfold server_connName. f_equal. apply take_ge.
    destruct (ipPort_text p Hp) as [_ Hl]. pose proof (decimal_len i 10 ltac:(unfold INT_MAX in *; lia) ltac:(lia)).
    rewrite !length_app. change (length (str "-")) with 1%nat. change (length (str "#")) with 1%nat. unfold len in *. lia. }
  intros Hp Hp' Hi Hi'. rewrite !Hn by done. intros H. apply app_inv_head, app_inv_head, app_first_inj in H;
    [apply decimal_inj in H; lia|by apply ipPort_no..].
Qed.

(** The phase in which a functor is pending, and the loop it waits on. *)
Definition need (t : task) : phase :=
  match t with Establish _ => Posted | Remove _ => Closing | Destroy _ => Erased end.

Definition place (t : task) (c : conn) : nat := match t with Remove _ => 0%nat | _ => io_loop c end.

Definition in_table (p : phase) : bool := match p with Posted | Open | Closing => true | Erased | Destroyed => false end.

Definition due (cs : list conn) (i : nat) (t : task) : Prop :=
  exists c, cs !! subject t = Some c /\ cphase c = need t /\ place t c = i.

Definition tasks_due (qs : list (list task)) (cs : list conn) : Prop :=
  (forall i t, t ∈ qs !!! i <-> due cs i t) /\ (forall i, NoDup (qs !!! i)).

Record server_inv (s : TcpServer) : Prop := {
  si_alive : alive s = true;
  si_sub : subLoops_ s <> 0%nat;
  si_id : nextConnId_ s = 1 + len (conns s);
  si_max : len (conns s) < INT_MAX;
  si_queues : length (queues s) = S (subLoops_ s);
  si_loop : forall k c, conns s !! k = Some c ->
    io_loop c = S (Z.to_nat ((1 + Z.of_nat k) mod Z.of_nat (subLoops_ s)));
  si_name : forall k c, conns s !! k = Some c ->
    exists peer, addr_ok peer = true /\ connName c = server_connName (name_ s) peer (2 + Z.of_nat k);
  si_table : forall n k, connections_ s !! n = Some k <->
    exists c, conns s !! k = Some c /\ connName c = n /\ in_table (cphase c) = true;
  si_tasks : tasks_due (queues s) (conns s)
}.

Lemma due_fun cs i j t t' : due cs i t -> due cs j t' -> subject t = subject t' -> t = t' /\ i = j.
Proof. intros (c & Hc & Hp & <-) (c' & Hc' & Hp' & <-) E. destruct t, t'; cbn in *; subst; simplify_eq; try done; congruence. Qed.

Lemma due_alter cs k c p i t :
  cs !! k = Some c ->
  due (alter (fun c => mkConn (connName c) (io_loop c) p) k cs) i t <->
  (subject t <> k /\ due cs i t) \/ (subject t = k /\ need t = p /\ place t c = i).
Proof.
  intros Hc. unfold due. destruct (decide (subject t = k)) as [->|Hne].
  - rewrite list_lookup_alter_eq, Hc. cbn. assert (forall p, place t (mkConn (connName c) (io_loop c) p) = place t c) as Hpl.
    { by destruct t. }
    split.
    + intros (c' & [= <-] & E & <-). right. rewrite Hpl. cbn in E. done.
    + intros [[? _]|(_ & <- & <-)]; [done|]. eexists. split; [done|]. rewrite Hpl. done.
  - rewrite list_lookup_alter_ne by done. naive_solver.
Qed.

Lemma queue_elem (qs : list (list task)) i q j (t : task) :
  (i < length qs)%nat -> t ∈ (<[i := q]> qs : list (list task)) !!! j <-> (if decide (i = j) then t ∈ q else t ∈ qs !!! j).
Proof.
  intros Hi. destruct (decide (i = j)) as [<-|]; [by rewrite list_lookup_total_insert_eq|by rewrite list_lookup_total_insert_ne].
Qed.

Lemma queue_nonempty (qs : list (list task)) i t : t ∈ qs !!! i -> (i < length qs)%nat.
Proof.
  intros H. rewrite list_lookup_total_alt in H. destruct (qs !! i) eqn:E; [by eapply lookup_lt_Some|]. by apply not_elem_of_nil in H.
Qed.

(** The functors of all connections but [k], which has none. *)
Definition tasks_except (k : nat) (qs : list (list task)) (cs : list conn) : Prop :=
  (forall i t, t ∈ qs !!! i <-> subject t <> k /\ due cs i t) /\ (forall i, NoDup (qs !!! i)).

Lemma except_pop qs cs i t q :
  tasks_due qs cs -> qs !!! i = t :: q -> tasks_except (subject t) (<[i := q]> qs) cs.
Proof.
  intros [Hd Hn] Hq. assert (t ∈ qs !!! i) as Ht by (rewrite Hq; left). pose proof (queue_nonempty _ _ _ Ht) as Hi.
  pose proof (Hn i) as Hni. rewrite Hq in Hni. apply NoDup_cons in Hni as [Htq Hni]. split.
  - intros j t'. rewrite queue_elem by done. apply Hd in Ht as Hdt. split.
    + intros Hin. assert (due cs j t') as Hd'.
      { apply Hd. destruct (decide (i = j)) as [<-|]; [|done]. rewrite Hq. by right. }
      split; [|done]. intros E. destruct (due_fun _ _ _ _ _ Hd' Hdt E) as [-> ->]. by rewrite decide_True in Hin.
    + intros [Hne Hd']. apply Hd in Hd'. destruct (decide (i = j)) as [<-|]; [|done].
      rewrite Hq in Hd'. apply elem_of_cons in Hd' as [->|]; done.
  - intros j. destruct (decide (i = j)) as [<-|]; [by rewrite list_lookup_total_insert_eq|by rewrite list_lookup_total_insert_ne].
Qed.

Lemma except_open qs cs k c : tasks_due qs cs -> cs !! k = Some c -> cphase c = Open -> tasks_except k qs cs.
Proof.
  intros [Hd Hn] Hc Hp. split; [|done]. intros i t. rewrite Hd. split; [|tauto]. intros H. split; [|done]. intros <-.
  destruct H as (c' & Hc' & Hp' & _). simplify_eq. by destruct t; cbn in *; congruence.
Qed.

Lemma except_fresh qs cs c : tasks_due qs cs -> tasks_except (length cs) qs (cs ++ [c]).
Proof.
  intros [Hd Hn]. split; [|done]. intros i t. rewrite Hd. unfold due. split.
  - intros (c' & Hc & ?). pose proof (lookup_lt_Some _ _ _ Hc). split; [lia|]. exists c'. by rewrite lookup_app_l.
  - intros (Hne & c' & Hc & ?). exists c'. apply lookup_app_Some in Hc as [?|[Hge Hc]]; [done|].
    apply list_lookup_singleton_Some in Hc as [? _]. lia.
Qed.

Lemma due_idle qs cs k c p :
  tasks_except k qs cs -> cs !! k = Some c -> (forall t, need t <> p) ->
  tasks_due qs (alter (fun c => mkConn (connName c) (io_loop c) p) k cs).
Proof. intros [Hd Hn] Hc Hp. split; [|done]. intros i t. rewrite Hd, (due_alter _ _ c) by done. naive_solver. Qed.

Lemma due_post qs cs k c t i :
  tasks_except k qs cs -> cs !! k = Some c -> subject t = k -> place t c = i -> (i < length qs)%nat ->
  tasks_due (<[i := qs !!! i ++ [t]]> qs) (alter (fun c => mkConn (connName c) (io_loop c) (need t)) k cs).
Proof.
  intros [Hd Hn] Hc Hk Hi Hlt. split.
  - intros j t'. rewrite queue_elem, (due_alter _ _ c) by done.
    assert (subject t' = k -> need t' = need t -> t' = t) as Hinj by (destruct t, t'; cbn in *; naive_solver).
    destruct (decide (i = j)) as [<-|].
    + rewrite elem_of_app, list_elem_of_singleton, Hd. naive_solver.
    + rewrite Hd. split; [tauto|]. intros [?|(H1 & H2 & H3)]; [done|]. rewrite (Hinj H1 H2) in H3. congruence.
  - intros j. destruct (decide (i = j)) as [<-|]; [|by rewrite list_lookup_total_insert_ne].
    rewrite list_lookup_total_insert_eq by done. apply NoDup_app. split_and!; [done| |apply NoDup_singleton].
    intros x Hx%Hd. rewrite list_elem_of_singleton. intros ->. naive_solver.
Qed.

(** The table after connection [k] moved on. *)
Definition table_ok (m : gmap bytes nat) (cs : list conn) : Prop :=
  forall n k, m !! n = Some k <-> exists c, cs !! k = Some c /\ connName c = n /\ in_table (cphase c) = true.

Definition names_inj (cs : list conn) : Prop :=
  forall k k' c c', cs !! k = Some c -> cs !! k' = Some c' -> connName c = connName c' -> k = k'.

Lemma alter_conn (cs : list conn) (k : nat) p (k' : nat) c' :
  alter (fun c => mkConn (connName c) (io_loop c) p) k cs !! k' = Some c' <->
  exists c, cs !! k' = Some c /\ connName c' = connName c /\ io_loop c' = io_loop c /\
  cphase c' = (if decide (k' = k) then p else cphase c).
Proof.
  destruct (decide (k' = k)) as [->|Hne].
  - rewrite list_lookup_alter_eq, fmap_Some. split; [naive_solver|]. intros (c & Hc & E1 & E2 & E3). exists c.
    split; [done|]. destruct c'; cbn in *. by subst.
  - rewrite list_lookup_alter_ne by done. split; [naive_solver|]. intros (c & Hc & E1 & E2 & E3).
    destruct c, c'; cbn in *. by subst.
Qed.

Lemma table_keep m cs k c p :
  table_ok m cs -> cs !! k = Some c -> in_table (cphase c) = in_table p ->
  table_ok m (alter (fun c => mkConn (connName c) (io_loop c) p) k cs).
Proof.
  intros Hm Hc Hp n k'. rewrite (Hm n k'). setoid_rewrite alter_conn. split.
  - intros (c' & Hc' & <- & Ht). exists (mkConn (connName c') (io_loop c') (if decide (k' = k) then p else cphase c')).
    cbn. split; [by exists c'|]. split; [done|]. case_decide; [by simplify_eq; congruence|done].
  - intros (c'' & (c' & Hc' & E1 & E2 & E3) & <- & Ht). exists c'. split_and!; [done|done|].
    rewrite E3 in Ht. case_decide; [simplify_eq; congruence|done].
Qed.

Lemma table_erase m cs k c p :
  table_ok m cs -> names_inj cs -> cs !! k = Some c -> in_table p = false ->
  table_ok (delete (connName c) m) (alter (fun c => mkConn (connName c) (io_loop c) p) k cs).
Proof.
  intros Hm Hinj Hc Hp n k'. rewrite lookup_delete_Some, (Hm n k'). setoid_rewrite alter_conn. split.
  - intros (Hne & c' & Hc' & <- & Ht). exists c'. split; [|done]. exists c'. split_and!; [done..|].
    case_decide; [by simplify_eq|done].
  - intros (c'' & (c' & Hc' & E1 & E2 & E3) & <- & Ht). rewrite E3 in Ht. case_decide as Hk; [congruence|].
    split; [|by exists c'; rewrite E1]. intros E. apply Hk. rewrite E1 in E. symmetry in E. by eapply Hinj.
Qed.

Lemma inv_names s : server_inv s -> names_inj (conns s).
Proof.
  intros Hs k k' c c' Hc Hc' E. destruct (si_name s Hs _ _ Hc) as (p & Hp & En). destruct (si_name s Hs _ _ Hc') as (p' & Hp' & En').
  rewrite En, En' in E. pose proof (si_max s Hs) as Hm. apply lookup_lt_Some in Hc, Hc'. unfold len in Hm.
  apply connName_inj in E; [lia|done..| |]; lia.
Qed.

Lemma server_move s k p m qs :
  server_inv s -> length qs = length (queues s) ->
  table_ok m (alter (fun c => mkConn (connName c) (io_loop c) p) k (conns s)) ->
  tasks_due qs (alter (fun c => mkConn (connName c) (io_loop c) p) k (conns s)) ->
  server_inv (mkServer (name_ s) (subLoops_ s) (nextConnId_ s) m
    (alter (fun c => mkConn (connName c) (io_loop c) p) k (conns s)) qs (alive s)).
Proof.
  intros [] Hq Hm Ht. split; cbn; try done; unfold len in *; rewrite ?length_alter; try done.
  - congruence.
  - intros k' c'. rewrite alter_conn. intros (c & Hc & _ & -> & _). eauto.
  - intros k' c'. rewrite alter_conn. intros (c & Hc & -> & _). by apply (si_name0 k').
Qed.

Lemma inv_lt s k c : server_inv s -> conns s !! k = Some c -> (io_loop c < length (queues s))%nat /\ io_loop c <> 0%nat.
Proof.
  intros [] Hc. rewrite si_queues0, (si_loop0 _ _ Hc). split; [|done].
  pose proof (Z.mod_pos_bound (1 + Z.of_nat k) (Z.of_nat (subLoops_ s)) ltac:(lia)). lia.
Qed.

Lemma held_task s k c t i : t ∈ queues s !!! i -> subject t = k -> held s k c = true.
Proof.
  intros Hin Hk. apply orb_true_iff. right. apply existsb_exists. exists (queues s !!! i). split.
  - apply list_elem_of_In, list_elem_of_lookup_2 with i. apply list_lookup_lookup_total_lt. by eapply queue_nonempty.
  - apply existsb_exists. exists t. split; [by apply list_elem_of_In|]. by apply bool_decide_true.
Qed.

(** What is not gone is held by the table or by a functor. *)
Lemma inv_held s k c : server_inv s -> conns s !! k = Some c -> cphase c <> Destroyed -> held s k c = true.
Proof.
  intros Hs Hc Hp. destruct (in_table (cphase c)) eqn:Ht.
  { unfold held. rewrite bool_decide_true; [done|]. apply (si_table s Hs). by exists c. }
  apply (held_task s k c (Destroy k) (io_loop c)); [|done]. apply (si_tasks s Hs). exists c.
  split_and!; [done| |done]. destruct (cphase c); done.
Qed.

Lemma inv_settle s : server_inv s -> settle s = Some s.
Proof.
  intros Hs. unfold settle. rewrite (proj2 (forallb_forall _ _)); [done|]. intros [k c] Hin.
  apply list_elem_of_In, elem_of_lookup_imap in Hin as (k' & c' & [= <- <-] & Hc).
  destruct (decide (cphase c = Destroyed)) as [->|Hp]; [done|]. rewrite (inv_held s k c Hs Hc Hp). apply orb_true_r.
Qed.

(** A functor runs. *)
Lemma run_ok s i t q :
  server_inv s -> queues s !!! i = t :: q ->
  exists s', run_task i t (set_queue i q s) = Some s' /\ server_inv s' /\ length (conns s') = length (conns s).
Proof.
  intros Hs Hq. assert (t ∈ queues s !!! i) as Ht by (rewrite Hq; left).
  pose proof (queue_nonempty _ _ _ Ht) as Hi. pose proof (except_pop _ _ _ _ _ (si_tasks s Hs) Hq) as He.
  apply (si_tasks s Hs) in Ht as (c & Hc & Hp & Hpl). destruct (inv_lt s _ _ Hs Hc) as [Hlt Hnz].
  destruct t as [k|k|k]; cbn in *.
  - unfold connectEstablished. cbn. rewrite Hc. cbn. rewrite !bool_decide_true by done. cbn. eexists. split; [done|]. split.
    + apply (server_move s k Open); [done|cbn; by rewrite length_insert| |by apply (due_idle _ _ _ c); [done..|intros []]].
      apply (table_keep _ _ _ c); [exact (si_table s Hs)|done|by rewrite Hp].
    + cbn. by rewrite length_alter.
  - unfold removeConnectionInLoop. cbn. rewrite (si_alive s Hs), Hc. cbn.
    assert (connections_ s !! connName c = Some k) as ->. { apply (si_table s Hs). exists c. by rewrite Hp. }
    cbn. eexists. split; [done|]. split; [|cbn; by rewrite length_alter].
    apply (server_move s k Erased); [done|cbn; by rewrite !length_insert| |].
    + apply table_erase; [exact (si_table s Hs)|by apply inv_names|done..].
    + apply (due_post _ _ _ c (Destroy k)); [done..|cbn; by rewrite length_insert].
  - unfold connectDestroyed. cbn. rewrite Hc. cbn. rewrite bool_decide_true by done. eexists. split; [done|]. split.
    + apply (server_move s k Destroyed); [done|cbn; by rewrite length_insert| |by apply (due_idle _ _ _ c); [done..|intros []]].
      apply (table_keep _ _ _ c); [exact (si_table s Hs)|done|by rewrite Hp].
    + cbn. by rewrite length_alter.
Qed.

(** A connection closes. *)
Lemma close_ok s k c :
  server_inv s -> conns s !! k = Some c -> cphase c = Open ->
  exists s', removeConnection (io_loop c) k (set_phase k Closing s) = Some s' /\ server_inv s' /\
  length (conns s') = length (conns s).
Proof.
  intros Hs Hc Hp. destruct (inv_lt s _ _ Hs Hc) as [Hlt Hnz]. unfold removeConnection. cbn.
  rewrite (si_alive s Hs), bool_decide_false by done. eexists. split; [done|]. split; [|cbn; by rewrite length_alter].
  apply (server_move s k Closing); [done|cbn; by rewrite length_insert| |].
  - apply (table_keep _ _ _ c); [exact (si_table s Hs)|done|by rewrite Hp].
  - cbn. apply (due_post _ _ _ c (Remove k)); [|done..|cbn; lia]. by apply (except_open _ _ _ c); [exact (si_tasks s Hs)|..].
Qed.

(** A connection arrives. *)
Lemma accept_ok s peer :
  server_inv s -> addr_ok peer = true -> len (conns s) + 1 < INT_MAX ->
  exists s', newConnection peer s = Some s' /\ server_inv s' /\ length (conns s') = S (length (conns s)).
Proof.
  intros Hs Hp Hmax. pose proof Hs as []. unfold newConnection, pick_loop. rewrite bool_decide_false by done.
  rewrite (proj2 (Z.ltb_lt _ _)) by lia. cbn. eexists. split; [done|]. split; [|cbn; rewrite length_app; cbn; lia].
  set (io := S _). set (cn := server_connName _ _ _).
  assert (Hfresh : forall k c, conns s !! k = Some c -> connName c <> cn).
  { intros k c Hc E. destruct (si_name0 _ _ Hc) as (p' & Hp' & En). rewrite En in E. apply lookup_lt_Some in Hc.
    unfold len in *. apply connName_inj in E; [lia|done..| |]; lia. }
  assert (Hlk : forall k c, (conns s ++ [mkConn cn io Posted]) !! k = Some c <->
    conns s !! k = Some c \/ k = length (conns s) /\ c = mkConn cn io Posted).
  { intros k c. rewrite lookup_app_Some, list_lookup_singleton_Some. split.
    - intros [?|(? & ? & ->)]; [by left|right; split; [lia|done]].
    - intros [?|[-> ->]]; [by left|right; split_and!; [lia..|done]]. }
  assert (Hio : io = S (Z.to_nat ((1 + Z.of_nat (length (conns s))) mod Z.of_nat (subLoops_ s)))).
  { unfold io. by rewrite si_id0. }
  split; cbn; try done.
  - unfold len in *. rewrite length_app. cbn. lia.
  - rewrite len_app. change (len [mkConn cn io Posted]) with 1. lia.
  - by rewrite length_insert.
  - intros k c [Hc|[-> ->]]%Hlk; [by eauto|done].
  - intros k c [Hc|[-> ->]]%Hlk; [by eauto|]. exists peer. split; [done|]. cbn. unfold cn. f_equal. unfold len in *. lia.
  - intros n k. rewrite lookup_insert_Some, si_table0. setoid_rewrite Hlk. split.
    + intros [[<- <-]|(Hne & c & Hc)]; [|naive_solver]. eexists. split; [by right|done].
    + intros (c & [Hc|[-> ->]] & <- & Ht); [right|by left]. split; [|by exists c]. intros E. by apply (Hfresh _ _ Hc).
  - assert (io < length (queues s))%nat as Hlt.
    { rewrite si_queues0, Hio. pose proof (Z.mod_pos_bound (1 + Z.of_nat (length (conns s))) (Z.of_nat (subLoops_ s)) ltac:(lia)). lia. }
    pose proof (except_fresh _ _ (mkConn cn io Posted) si_tasks0) as He.
    eapply (due_post _ _ _ (mkConn cn io Posted) (Establish (length (conns s))) io) in He; [|by apply Hlk; right|done..].
    rewrite (list_alter_ext _ id _ (conns s ++ [mkConn cn io Posted])), list_alter_id in He; [done|done| |done].
    intros c Hc. apply Hlk in Hc as [Hc|[_ ->]]; [|done]. apply lookup_lt_Some in Hc. lia.
Qed.

Definition event_ok (e : event) : bool :=
  match e with EvAccept peer => addr_ok peer | EvRun _ | EvClose _ => true | EvDestroy => false end.

Lemma step_ok s e :
  server_inv s -> event_ok e = true -> len (conns s) + 1 < INT_MAX ->
  exists s', server_step e s = Some s' /\ server_inv s' /\ len (conns s') <= len (conns s) + 1.
Proof.
  intros Hs He Hm. unfold len in *. destruct e as [peer|i|k|]; cbn in *; [..|done].
  - destruct (accept_ok s peer Hs He Hm) as (s' & E & Hs' & Hl). rewrite (si_alive s Hs), E. cbn.
    exists s'. rewrite inv_settle by done. split_and!; [done..|lia].
  - destruct (queues s !!! i) as [|t q] eqn:Hq; [exists s; split_and!; [done..|lia]|].
    destruct (run_ok s i t q Hs Hq) as (s' & E & Hs' & Hl). rewrite E. cbn.
    exists s'. rewrite inv_settle by done. split_and!; [done..|lia].
  - destruct (conns s !! k) as [c|] eqn:Hc; [|exists s; split_and!; [done..|lia]].
    destruct (decide (cphase c = Open)) as [Hp|Hp]; [|rewrite bool_decide_false by done; exists s; split_and!; [done..|lia]].
    rewrite bool_decide_true by done. destruct (close_ok s k c Hs Hc Hp) as (s' & E & Hs' & Hl). rewrite E. cbn.
    exists s'. rewrite inv_settle by done. split_and!; [done..|lia].
Qed.

Lemma run_all_ok es s :
  server_inv s -> forallb event_ok es = true -> len (conns s) + len es < INT_MAX ->
  exists s', server_run es s = Some s' /\ server_inv s'.
Proof.
  revert s. induction es as [|e es IH]; intros s Hs He Hm; [by exists s|]. cbn in He. apply andb_prop in He as [He Hes].
  rewrite len_cons in Hm. pose proof (len_nonneg es). destruct (step_ok s e Hs He ltac:(lia)) as (s1 & E & Hs1 & Hl).
  cbn. rewrite E. cbn. apply IH; [done..|lia].
Qed.

Lemma task_sub i t s s' : run_task i t s = Some s' -> subLoops_ s' = subLoops_ s.
Proof.
  destruct t; cbn; unfold connectEstablished, connectDestroyed, removeConnectionInLoop; intros H.
  - destruct (conns s !! k); cbn in H; [|done]. case_match; by simplify_eq.
  - destruct (alive s); [|done]. destruct (conns s !! k); cbn in H; [|done].
    destruct (connections_ s !! _); cbn in H; by simplify_eq.
  - destruct (conns s !! k); cbn in H; [|done]. case_match; by simplify_eq.
Qed.

Lemma settle_same s s' : settle s = Some s' -> s' = s.
Proof. unfold settle. case_match; by intros [= <-]. Qed.

Lemma step_sub e s s' : event_ok e = true -> server_step e s = Some s' -> subLoops_ s' = subLoops_ s.
Proof.
  destruct e as [peer|i|k|]; cbn; intros He H; [..|done].
  - destruct (alive s); [|by simplify_eq]. apply bind_Some in H as (s1 & H & ->%settle_same).
    unfold newConnection in H. apply bind_Some in H as ([io id] & _ & H). case_bool_decide.
    + by apply (task_sub 0 (Establish (length (conns s)))) in H.
    + by simplify_eq.
  - destruct (queues s !!! i); [by simplify_eq|]. apply bind_Some in H as (s1 & H & ->%settle_same).
    by apply task_sub in H.
  - destruct (conns s !! k) as [c|]; [|by simplify_eq]. case_bool_decide; [|by simplify_eq].
    apply bind_Some in H as (s1 & H & ->%settle_same). unfold removeConnection in H. cbn in H.
    destruct (alive s); [|done]. case_bool_decide; [by apply (task_sub 0 (Remove k)) in H|by simplify_eq].
Qed.

Lemma run_sub es s s' : forallb event_ok es = true -> server_run es s = Some s' -> subLoops_ s' = subLoops_ s.
Proof.
  revert s. induction es as [|e es IH]; cbn; intros s He H; [by simplify_eq|]. apply andb_prop in He as [He Hes].
  apply bind_Some in H as (s1 & E & H). rewrite (IH s1 Hes H). by eapply step_sub.
Qed.

Lemma inv_new name threads : threads <> 0%nat -> server_inv (TcpServer_new name threads).
Proof.
  intros Ht. split; cbn; try done.
  - by rewrite length_replicate.
  - intros n k. rewrite lookup_empty. naive_solver.
  - change ([] :: replicate threads []) with (replicate (S threads) (@nil task)).
    assert (forall i, replicate (S threads) (@nil task) !!! i = []) as Hr.
    { intros i. rewrite list_lookup_total_alt. destruct (_ !! i) eqn:E; [|done]. apply lookup_replicate in E as [-> _]. done. }
    split; intros i; [intros t|]; rewrite Hr; [|apply NoDup_nil_2]. rewrite elem_of_nil. split; [done|]. intros (c & Hc & _). done.
Qed.

(** With worker threads, in every interleaving of arriving connections, closing
    connections and the functors of all loops, no assertion of the server fails
    and no connection is destroyed while its channel is registered: the run goes
    through.  Afterwards the table maps each name to the one connection that has it
    and that has not been removed, names are unique among all connections ever
    made, and the [k]-th connection runs on loop [(k + 1) mod threads]. *)
Theorem server_table name threads es :
  threads <> 0%nat -> forallb event_ok es = true -> len es < INT_MAX ->
  exists s, server_run es (TcpServer_new name threads) = Some s /\
  (forall n k, connections_ s !! n = Some k <->
    exists c, conns s !! k = Some c /\ connName c = n /\ (cphase c = Posted \/ cphase c = Open \/ cphase c = Closing)) /\
  (forall k k' c c', conns s !! k = Some c -> conns s !! k' = Some c' -> connName c = connName c' -> k = k') /\
  (forall k c, conns s !! k = Some c -> io_loop c = S (Z.to_nat ((1 + Z.of_nat k) mod Z.of_nat threads))).
Proof.
  intros Ht He Hl. destruct (run_all_ok es (TcpServer_new name threads) (inv_new _ _ Ht) He) as (s & E & Hs);
    [change (len es < INT_MAX); done|].
  exists s. split; [done|]. split; [|split; [by apply inv_names|]].
  - intros n k. rewrite (si_table s Hs). split; intros (c & Hc & Hn & Hp); exists c; split_and!; try done.
    + destruct (cphase c); naive_solver.
    + by destruct Hp as [->|[->| ->]].
  - assert (subLoops_ s = threads) as <-; [|apply Hs]. by apply run_sub in E.
Qed.

Lemma server_table_witness :
  exists s, server_run [EvAccept (mkInetAddress 2130706433 5000); EvRun 1; EvAccept (mkInetAddress 2130706433 5001); EvRun 2;
                        EvClose 0; EvRun 0; EvRun 1] (TcpServer_new (str "srv") 2) = Some s /\
  (forall n k, connections_ s !! n = Some k <->
    exists c, conns s !! k = Some c /\ connName c = n /\ (cphase c = Posted \/ cphase c = Open \/ cphase c = Closing)) /\
  (forall k k' c c', conns s !! k = Some c -> conns s !! k' = Some c' -> connName c = connName c' -> k = k') /\
  (forall k c, conns s !! k = Some c -> io_loop c = S (Z.to_nat ((1 + Z.of_nat k) mod Z.of_nat 2))).
Proof. apply server_table; [done|by vm_compute|by vm_compute]. Defined.

Lemma accept_base s peer :
  subLoops_ s = 0%nat ->
  newConnection peer s =
  Some (mkServer (name_ s) 0 (nextConnId_ s) (<[server_connName (name_ s) peer (nextConnId_ s) := length (conns s)]> (connections_ s))
    (conns s ++ [mkConn (server_connName (name_ s) peer (nextConnId_ s)) 0 Open]) (queues s) (alive s)).
Proof.
  intros E. unfold newConnection, pick_loop. rewrite bool_decide_true by done. cbn. unfold connectEstablished. cbn.
  rewrite lookup_app_r, Nat.sub_diag by lia. cbn. unfold set_phase, set_conns. cbn. rewrite E.
  by rewrite alter_app_r_alt, Nat.sub_diag by lia.
Qed.

(** Without worker threads [nextConnId_] never moves, so that a name is only as
    unique as the peer's address: when a peer's address and port come back before
    the earlier connection was removed, the table entry is overwritten, and the
    earlier connection is destroyed while its channel is registered with the poller. *)
Theorem single_loop_name_collision name peer :
  is_Some (server_run [EvAccept peer] (TcpServer_new name 0)) /\
  server_run [EvAccept peer; EvAccept peer] (TcpServer_new name 0) = None.
Proof.
  cbn [server_run server_step alive TcpServer_new]. rewrite accept_base by done. unfold settle, held. cbn.
  rewrite lookup_insert_eq, bool_decide_true by done. cbn. split; [done|].
  rewrite accept_base by done. cbn. rewrite !lookup_insert_eq, bool_decide_false by done. done.
Qed.

(** A removal that is pending when the server is destroyed runs on the freed server. *)
Theorem pending_removal_dangles :
  let s := TcpServer_new (str "srv") 1 in
  let es := [EvAccept (mkInetAddress INADDR_LOOPBACK 5000); EvRun 1; EvClose 0; EvDestroy] in
  is_Some (server_run es s) /\ server_run (es ++ [EvRun 0]) s = None.
Proof. split; [eexists|]; by vm_compute. Qed.
