(* ===== verification/ServerSession.v ===== *)
(** * ServerSession: a server and the connections it holds

    [src/TcpServer.cpp] with the connection objects of [src/TcpConnection.cpp]
    and one poller per loop.  [TcpServer.v] follows how far a connection has
    come; here each step also runs the connection's own code on the poller of its
    loop, which it shares with the other connections of that loop. *)
From S2P Require Import Prelude Buffer Channel InetAddress TcpServer TcpConnection ConnFrame.

(** ** The composed server *)

#[global] Instance poller_inhabited : Inhabited EPollPoller := populate EPollPoller_new.

(** [objs] are the connection objects, in the order of [conns]; [pollers] those of
    the loops, the base loop first. *)
Record Site := mkSite {
  srv : TcpServer.TcpServer;
  objs : list TcpConnection;
  pollers : list EPollPoller
}.

Definition Site_new (name : bytes) (threads : nat) : Site :=
  mkSite (TcpServer_new name threads) [] (replicate (S threads) EPollPoller_new).

(** The connection as it runs on its loop: with the loop's poller. *)
Definition load (p : EPollPoller) (o : TcpConnection) : TcpConnection := set_registration (p, channel_ o) o.

(** Connection [k] runs [f] on its loop. *)
Definition at_conn (k : nat) (f : TcpConnection -> option TcpConnection) (g : Site) : option Site :=
  c ← conns (srv g) !! k;
  o ← objs g !! k;
  o' ← f (load (pollers g !!! io_loop c) o);
  Some (mkSite (srv g) (<[k := o']> (objs g)) (<[io_loop c := poller_ o']> (pollers g))).

(** A connection that neither the table nor a functor refers to is destroyed, with
    the assertions of its destructors. *)
Definition settled (g : Site) (k : nat) : bool :=
  match conns (srv g) !! k, objs g !! k with
  | Some c, Some o =>
      held (srv g) k c || (if pending_ o is [] then false else true) || bool_decide (drop_connection o = Some tt)
  | _, _ => true
  end.

Definition site_settle (g : Site) : option Site :=
  if forallb (settled g) (seq 0 (length (objs g))) then Some g else None.

(** The base loop accepts a descriptor; a loop runs its next server functor;
    something happens to a connection. *)
Inductive site_event :=
| GAccept (peer : InetAddress) (fd ptr : Z) (writeCb : bool) (answer : nat -> Z -> io_result Z) (user : callback -> list act)
| GRun (i : nat) (user : callback -> list act)
| GConn (k : nat) (e : conn_event).

(** [TcpServer::newConnection], with the object it makes. *)
Definition site_accept (peer : InetAddress) (fd ptr : Z) (writeCb : bool) (answer : nat -> Z -> io_result Z)
    (user : callback -> list act) (g : Site) : option Site :=
  let k := length (conns (srv g)) in
  s ← TcpServer.newConnection peer (srv g);
  let g := mkSite s (objs g ++ [conn_new ptr fd EPollPoller_new writeCb answer]) (pollers g) in
  c ← conns s !! k;
  if bool_decide (io_loop c = 0%nat) then at_conn k (connectEstablished user) g else Some g.

(** A functor of the server on loop [i]. *)
Definition site_task (i : nat) (t : TcpServer.task) (user : callback -> list act) (g : Site) : option Site :=
  s ← TcpServer.run_task i t (srv g);
  let g := mkSite s (objs g) (pollers g) in
  match t with
  | Establish k => at_conn k (connectEstablished user) g
  | Remove _ => Some g
  | Destroy k => at_conn k (connectDestroyed user) g
  end.

(** An event of connection [k], whose close callback is [removeConnection]. *)
Definition site_conn (k : nat) (e : conn_event) (g : Site) : option Site :=
  c ← conns (srv g) !! k;
  o ← objs g !! k;
  g' ← at_conn k (conn_step e) g;
  o' ← objs g' !! k;
  if (closes_ o <? closes_ o')%nat then
    s ← TcpServer.removeConnection (io_loop c) k (set_phase k Closing (srv g'));
    Some (mkSite s (objs g') (pollers g'))
  else Some g'.

(** [~TcpServer]: the connections of the base loop are destroyed at once, the
    others by a functor on their loop. *)
Fixpoint destroy_here (order : list nat) (user : callback -> list act) (g : Site) : option Site :=
  match order with
  | [] => Some g
  | k :: order =>
      c ← conns (srv g) !! k;
      g ← (if bool_decide (io_loop c = 0%nat) then at_conn k (connectDestroyed user) g else Some g);
      destroy_here order user g
  end.

Definition site_destroy (user : callback -> list act) (g : Site) : option Site :=
  s ← server_destroy (srv g);
  g ← destroy_here (snd <$> map_to_list (connections_ (srv g))) user (mkSite s (objs g) (pollers g));
  site_settle g.

Definition site_step (e : site_event) (g : Site) : option Site :=
  match e with
  | GAccept peer fd ptr writeCb answer user => g ← site_accept peer fd ptr writeCb answer user g; site_settle g
  | GRun i user =>
      match queues (srv g) !!! i with
      | [] => Some g
      | t :: q => g ← site_task i t user (mkSite (set_queue i q (srv g)) (objs g) (pollers g)); site_settle g
      end
  | GConn k e => g ← site_conn k e g; site_settle g
  end.

Fixpoint site_run (es : list site_event) (g : Site) : option Site :=
  match es with
  | [] => Some g
  | e :: es => g ← site_step e g; site_run es g
  end.

(** ** Contracts *)

(** The kernel hands out a descriptor no connection still has; an established
    connection's events are those its contract allows; one that has left its
    poller gets no events from it. *)
Definition site_event_ok (e : site_event) (g : Site) : Prop :=
  match e with
  | GAccept peer fd _ _ answer _ =>
      addr_ok peer = true /\ (forall k l n, answer k l = IoOk n -> 0 <= n <= l) /\
      forall k c o, conns (srv g) !! k = Some c -> objs g !! k = Some o -> cphase c <> Destroyed -> fd_ (channel_ o) <> fd
  | GRun _ user => user_total user < 2 ^ 60
  | GConn k e =>
      exists c o, conns (srv g) !! k = Some c /\ objs g !! k = Some o /\ cphase c <> Posted /\
        conn_event_ok e (load (pollers g !!! io_loop c) o) /\
        match e with Established _ | PostDestroyed => False | Ready _ _ _ => cphase c <> Destroyed | _ => True end
  end.

Fixpoint site_events_ok (es : list site_event) (g : Site) : Prop :=
  match es with
  | [] => True
  | e :: es => site_event_ok e g /\ match site_step e g with Some g' => site_events_ok es g' | None => True end
  end.

(** ** The invariant *)

(** A connection that is down and still with its poller. *)
Record conn_down (o : TcpConnection) : Prop := {
  do_inv : conn_inv o;
  do_state : state_ o = kDisconnected;
  do_handling : eventHandling_ (channel_ o) = false;
  do_posted : TDestroyed ∉ pending_ o;
  do_closes : closes_ o = 1%nat
}.

(** One that has left it. *)
Record conn_gone (o : TcpConnection) : Prop := {
  go_drop : drop_connection o = Some tt;
  go_posted : TDestroyed ∉ pending_ o;
  go_ups : ups_ o = 1%nat;
  go_downs : downs_ o = 1%nat;
  go_closes : closes_ o = 1%nat
}.

(** The object is as far as the server thinks. *)
Definition fits (ph : phase) (p : EPollPoller) (o : TcpConnection) : Prop :=
  match ph with
  | Posted => exists ptr fd wcb answer,
      o = conn_new ptr fd (poller_ o) wcb answer /\ channels_ p !! fd = None /\ kernel_ p !! fd = None /\
      forall k l n, answer k l = IoOk n -> 0 <= n <= l
  | Open => conn_live (load p o)
  | Closing | Erased => conn_down (load p o)
  | Destroyed => conn_gone o
  end.

(** Each object is where its connection's phase puts it; no two that are with a
    poller share a descriptor, and the pollers know no others. *)
Record placed (fits : phase -> EPollPoller -> TcpConnection -> Prop) (g : Site) : Prop := {
  pl_objs : length (objs g) = length (conns (srv g));
  pl_pollers : length (pollers g) = length (queues (srv g));
  pl_loops : forall k c, conns (srv g) !! k = Some c -> (io_loop c < length (queues (srv g)))%nat;
  pl_fits : forall k c o, conns (srv g) !! k = Some c -> objs g !! k = Some o ->
    fits (cphase c) (pollers g !!! io_loop c) o;
  pl_fds : forall k k' c c' o o', conns (srv g) !! k = Some c -> conns (srv g) !! k' = Some c' ->
    objs g !! k = Some o -> objs g !! k' = Some o' -> cphase c <> Destroyed -> cphase c' <> Destroyed ->
    fd_ (channel_ o) = fd_ (channel_ o') -> k = k';
  pl_owned : forall i fd, is_Some (channels_ (pollers g !!! i) !! fd) \/ is_Some (kernel_ (pollers g !!! i) !! fd) ->
    exists k c o, conns (srv g) !! k = Some c /\ objs g !! k = Some o /\ io_loop c = i /\ fd_ (channel_ o) = fd /\ cphase c <> Destroyed
}.
Arguments pl_objs {fits g}.
Arguments pl_pollers {fits g}.
Arguments pl_loops {fits g}.
Arguments pl_fits {fits g}.
Arguments pl_fds {fits g}.
Arguments pl_owned {fits g}.

Record site_inv (g : Site) : Prop := {
  gi_srv : server_inv (srv g);
  gi_placed : placed fits g
}.

(** *** Objects and pollers *)

Lemma load_self o : load (poller_ o) o = o.
Proof. by destruct o. Qed.

Lemma load_load p p' o : load p (load p' o) = load p o.
Proof. done. Qed.

(** A connection does not see what others do in the poller. *)
Lemma load_inv p p' o :
  channels_ p' !! fd_ (channel_ o) = channels_ p !! fd_ (channel_ o) ->
  kernel_ p' !! fd_ (channel_ o) = kernel_ p !! fd_ (channel_ o) -> conn_inv (load p o) -> conn_inv (load p' o).
Proof. intros Hc Hk []. split; cbn in *; auto; [unfold chan_inv in *; by rewrite Hc, Hk|by rewrite Hk]. Qed.

(** A placement that only looks at the object's own descriptor, and at none once
    it is gone. *)
Class Local (fits : phase -> EPollPoller -> TcpConnection -> Prop) : Prop := {
  local_elsewhere ph p p' fd o : same_elsewhere fd p p' -> fd_ (channel_ o) <> fd -> fits ph p o -> fits ph p' o;
  local_gone p p' o : fits Destroyed p o -> fits Destroyed p' o
}.

#[global] Instance fits_local : Local fits.
Proof.
  split; [|done]. intros ph p p' fd o [_ Hs] Hne. destruct (Hs _ Hne) as [Hc Hk]. destruct ph; cbn.
  - intros (ptr & fd' & wcb & answer & E & Hfc & Hfk & Ha). exists ptr, fd', wcb, answer.
    rewrite E in Hc, Hk. cbn in Hc, Hk. by rewrite Hc, Hk.
  - intros []. split; auto. by apply (load_inv p).
  - intros []. split; auto. by apply (load_inv p).
  - intros []. split; auto. by apply (load_inv p).
  - done.
Qed.

Lemma at_conn_eq k f g c o o' :
  conns (srv g) !! k = Some c -> objs g !! k = Some o -> f (load (pollers g !!! io_loop c) o) = Some o' ->
  at_conn k f g = Some (mkSite (srv g) (<[k := o']> (objs g)) (<[io_loop c := poller_ o']> (pollers g))).
Proof. intros Hc Ho E. unfold at_conn. rewrite Hc, Ho. cbn [mbind option_bind]. by rewrite E. Qed.

(** *** Moving one connection *)

Lemma inv_site_settle g : site_inv g -> site_settle g = Some g.
Proof.
  intros I. unfold site_settle. rewrite (proj2 (forallb_forall _ _)); [done|]. intros k _. unfold settled.
  destruct (conns (srv g) !! k) as [c|] eqn:Hc; [|done]. destruct (objs g !! k) as [o|] eqn:Ho; [|done].
  destruct (decide (cphase c = Destroyed)) as [Hp|Hp]; [|by rewrite (inv_held _ k c (gi_srv g I) Hc Hp)].
  pose proof (pl_fits (gi_placed g I) k c o Hc Ho) as Hf. rewrite Hp in Hf. cbn in Hf.
  rewrite (bool_decide_true (drop_connection o = Some tt)) by apply Hf. by rewrite orb_true_r.
Qed.

Lemma poller_insert (l : list EPollPoller) i j p :
  (i < length l)%nat -> (<[i := p]> l : list EPollPoller) !!! j = if decide (i = j) then p else l !!! j.
Proof.
  intros Hi. destruct (decide (i = j)) as [<-|]; [by rewrite list_lookup_total_insert_eq|by rewrite list_lookup_total_insert_ne].
Qed.

Lemma insert_other {A} (l : list A) (k k' : nat) (x y x' : A) :
  l !! k = Some x' -> <[k := x]> l !! k' = Some y -> k' = k /\ y = x \/ k' <> k /\ l !! k' = Some y.
Proof.
  intros Hk. destruct (decide (k' = k)) as [->|]; [rewrite list_lookup_insert_eq by (by eapply lookup_lt_Some)|rewrite list_lookup_insert_ne by done]; naive_solver.
Qed.

(** Connection [k], still with its poller, moves on to phase [ph]. *)
Section move.
Context (fits : phase -> EPollPoller -> TcpConnection -> Prop) `{!Local fits} (g : Site) (s : TcpServer).
Context (k : nat) (c : TcpServer.conn) (o o' : TcpConnection) (p' : EPollPoller) (ph : phase).
Hypothesis P : placed fits g.
Hypothesis Hc : conns (srv g) !! k = Some c.
Hypothesis Ho : objs g !! k = Some o.
Hypothesis with_poller : cphase c <> Destroyed.
Hypothesis Ecs : conns s = alter (fun c => TcpServer.mkConn (connName c) (io_loop c) ph) k (conns (srv g)).
Hypothesis Eqs : length (queues s) = length (queues (srv g)).
Hypothesis Hfd : fd_ (channel_ o') = fd_ (channel_ o).
Hypothesis Hse : same_elsewhere (fd_ (channel_ o)) (pollers g !!! io_loop c) p'.
Hypothesis Hfits : fits ph p' o'.
Hypothesis Hgone : ph = Destroyed -> channels_ p' !! fd_ (channel_ o) = None /\ kernel_ p' !! fd_ (channel_ o) = None.

Let g' := mkSite s (<[k := o']> (objs g)) (<[io_loop c := p']> (pollers g)).

Lemma moved_poller i : pollers g' !!! i = if decide (io_loop c = i) then p' else pollers g !!! i.
Proof. apply poller_insert. rewrite (pl_pollers P). by apply (pl_loops P k). Qed.

Lemma moved_conn k1 c1 :
  conns s !! k1 = Some c1 <-> k1 = k /\ c1 = TcpServer.mkConn (connName c) (io_loop c) ph \/ k1 <> k /\ conns (srv g) !! k1 = Some c1.
Proof.
  rewrite Ecs. destruct (decide (k1 = k)) as [->|].
  - rewrite list_lookup_alter_eq, Hc. cbn. naive_solver.
  - rewrite list_lookup_alter_ne by done. naive_solver.
Qed.

Lemma moved_obj k1 o1 : objs g' !! k1 = Some o1 <-> k1 = k /\ o1 = o' \/ k1 <> k /\ objs g !! k1 = Some o1.
Proof.
  cbn. destruct (decide (k1 = k)) as [->|].
  - rewrite list_lookup_insert_eq by (by eapply lookup_lt_Some). naive_solver.
  - rewrite list_lookup_insert_ne by done. naive_solver.
Qed.

Lemma moved_fits k1 c1 o1 : conns s !! k1 = Some c1 -> objs g' !! k1 = Some o1 -> fits (cphase c1) (pollers g' !!! io_loop c1) o1.
Proof.
  rewrite moved_poller. intros [[-> ->]|[Hne H1]]%moved_conn [[? ->]|[? H2]]%moved_obj; [|done..|].
  - cbn. by rewrite decide_True.
  - pose proof (pl_fits P k1 c1 o1 H1 H2) as Hf. destruct (decide (io_loop c = io_loop c1)) as [E|]; [|done].
    destruct (decide (cphase c1 = Destroyed)) as [Hd|Hd]; [rewrite Hd in *; by eapply local_gone|]. rewrite <- E in Hf.
    apply (local_elsewhere _ _ _ _ _ Hse); [|done]. intros Hfd'. apply Hne. by eapply (pl_fds P k1 k).
Qed.

(** Who has a descriptor now had it before. *)
Lemma moved_from k1 c1 o1 :
  conns s !! k1 = Some c1 -> objs g' !! k1 = Some o1 -> cphase c1 <> Destroyed ->
  exists c2 o2, conns (srv g) !! k1 = Some c2 /\ objs g !! k1 = Some o2 /\ cphase c2 <> Destroyed /\ fd_ (channel_ o1) = fd_ (channel_ o2).
Proof. intros [[-> ->]|[Hne H1]]%moved_conn [[? ->]|[? H2]]%moved_obj Hp; [by exists c, o|done..|by exists c1, o1]. Qed.

Lemma moved_owned i fd :
  is_Some (channels_ (pollers g' !!! i) !! fd) \/ is_Some (kernel_ (pollers g' !!! i) !! fd) ->
  exists k1 c1 o1, conns s !! k1 = Some c1 /\ objs g' !! k1 = Some o1 /\ io_loop c1 = i /\ fd_ (channel_ o1) = fd /\ cphase c1 <> Destroyed.
Proof.
  rewrite moved_poller. setoid_rewrite moved_conn. setoid_rewrite moved_obj.
  assert ((is_Some (channels_ (pollers g !!! i) !! fd) \/ is_Some (kernel_ (pollers g !!! i) !! fd)) -> ~ (io_loop c = i /\ fd = fd_ (channel_ o)) ->
    exists k1 c1 o1, (k1 <> k /\ conns (srv g) !! k1 = Some c1) /\ (k1 <> k /\ objs g !! k1 = Some o1) /\ io_loop c1 = i /\
      fd_ (channel_ o1) = fd /\ cphase c1 <> Destroyed) as Hold.
  { intros (k1 & c1 & o1 & H1 & H2 & H3 & H4 & H5)%(pl_owned P) Hn. assert (k1 <> k) by (intros ->; apply Hn; by simplify_eq). by exists k1, c1, o1. }
  destruct (decide (io_loop c = i)) as [<-|Hi]; intros Hs; [|naive_solver].
  destruct (decide (fd = fd_ (channel_ o))) as [->|Hne].
  - destruct (decide (ph = Destroyed)) as [Hd|Hd]; [|by exists k, (TcpServer.mkConn (connName c) (io_loop c) ph), o'; naive_solver].
    destruct (Hgone Hd) as [G1 G2]. rewrite G1, G2 in Hs. by destruct Hs as [[? ?]|[? ?]].
  - destruct Hse as [_ Hs']. destruct (Hs' fd Hne) as [S1 S2]. rewrite S1, S2 in Hs. naive_solver.
Qed.

Lemma placed_move : placed fits g'.
Proof.
  split; cbn [srv g'].
  - cbn. by rewrite length_insert, Ecs, length_alter, (pl_objs P).
  - cbn. by rewrite length_insert, Eqs, (pl_pollers P).
  - intros k1 c1 [[-> ->]|[_ H1]]%moved_conn; rewrite Eqs; [exact (pl_loops P k c Hc)|by apply (pl_loops P k1)].
  - apply moved_fits.
  - intros k1 k2 c1 c2 o1 o2 H1 H2 H3 H4 P1 P2 E. destruct (moved_from _ _ _ H1 H3 P1) as (c1' & o1' & ? & ? & ? & E1).
    destruct (moved_from _ _ _ H2 H4 P2) as (c2' & o2' & ? & ? & ? & E2). eapply (pl_fds P k1 k2); eauto. congruence.
  - apply moved_owned.
Qed.
End move.

Lemma site_move g s k c o o' p' ph :
  site_inv g -> conns (srv g) !! k = Some c -> objs g !! k = Some o -> cphase c <> Destroyed ->
  server_inv s -> conns s = alter (fun c => TcpServer.mkConn (connName c) (io_loop c) ph) k (conns (srv g)) ->
  length (queues s) = length (queues (srv g)) ->
  fd_ (channel_ o') = fd_ (channel_ o) -> same_elsewhere (fd_ (channel_ o)) (pollers g !!! io_loop c) p' -> fits ph p' o' ->
  (ph = Destroyed -> channels_ p' !! fd_ (channel_ o) = None /\ kernel_ p' !! fd_ (channel_ o) = None) ->
  site_inv (mkSite s (<[k := o']> (objs g)) (<[io_loop c := p']> (pollers g))).
Proof. intros [] ? ? ? ? ? ? ? ? ? ?. split; [done|]. by apply (placed_move fits g s k c o o' p' ph). Qed.

(** Connection [k] has left its poller: nothing there changes. *)
Lemma inv_dead g k c o o' :
  site_inv g -> conns (srv g) !! k = Some c -> objs g !! k = Some o -> cphase c = Destroyed ->
  poller_ o' = pollers g !!! io_loop c -> conn_gone o' ->
  site_inv (mkSite (srv g) (<[k := o']> (objs g)) (<[io_loop c := poller_ o']> (pollers g))).
Proof.
  intros I Hc Ho Hd Hp Hg. pose proof I as [].
  destruct (inv_lt (srv g) k c gi_srv0 Hc) as [Hlt _]. rewrite <- (pl_pollers gi_placed0) in Hlt.
  rewrite (list_insert_id (pollers g)) by (rewrite Hp; by apply list_lookup_lookup_total_lt).
  split; [done|]. destruct gi_placed0. split; cbn [srv objs pollers]; [by rewrite length_insert|done|done|..].
  - intros k' c' y Hc' Hy. destruct (insert_other _ _ _ _ _ _ Ho Hy) as [[-> ->]|[_ Hy']]; [|by eauto].
    simplify_eq. by rewrite Hd.
  - intros k1 k2 c1 c2 o1 o2 H1 H2 H3 H4 P1 P2. destruct (insert_other _ _ _ _ _ _ Ho H3) as [[-> ->]|[_ H3']]; [congruence|].
    destruct (insert_other _ _ _ _ _ _ Ho H4) as [[-> ->]|[_ H4']]; [congruence|]. by eauto.
  - intros i fd Hsome. destruct (pl_owned0 _ _ Hsome) as (k0 & c0 & o0 & H1 & H2 & H3 & H4 & H5). exists k0, c0, o0.
    rewrite list_lookup_insert_ne; [done|]. intros <-. congruence.
Qed.

(** *** The server's steps *)

Definition reached (t : TcpServer.task) : phase :=
  match t with Establish _ => Open | Remove _ => Erased | Destroy _ => Destroyed end.

Lemma task_conns i t s s' :
  TcpServer.run_task i t s = Some s' ->
  conns s' = alter (fun c => TcpServer.mkConn (connName c) (io_loop c) (reached t)) (subject t) (conns s) /\
  length (queues s') = length (queues s).
Proof.
  destruct t as [k|k|k]; cbn; unfold TcpServer.connectEstablished, TcpServer.connectDestroyed, removeConnectionInLoop.
  - destruct (conns s !! k); cbn; [|done]. destruct (_ && _); by intros [= <-].
  - destruct (alive s); [|done]. destruct (conns s !! k); cbn; [|done]. destruct (connections_ s !! _); cbn; [|done].
    intros [= <-]. cbn. by rewrite length_insert.
  - destruct (conns s !! k); cbn; [|done]. case_bool_decide; by intros [= <-].
Qed.

Lemma close_conns i k s s' :
  i <> 0%nat -> removeConnection i k (set_phase k Closing s) = Some s' ->
  conns s' = alter (fun c => TcpServer.mkConn (connName c) (io_loop c) Closing) k (conns s) /\ length (queues s') = length (queues s).
Proof.
  intros Hi. unfold removeConnection. cbn. destruct (alive s); [|done]. rewrite bool_decide_false by done.
  intros [= <-]. cbn. by rewrite length_insert.
Qed.

Lemma accept_conns peer s s' :
  subLoops_ s <> 0%nat -> TcpServer.newConnection peer s = Some s' ->
  exists n i, conns s' = conns s ++ [TcpServer.mkConn n (S i) Posted] /\ length (queues s') = length (queues s).
Proof.
  intros Hs. unfold TcpServer.newConnection, pick_loop. rewrite bool_decide_false by done.
  destruct (_ <? _); cbn [mbind option_bind]; [|done]. rewrite bool_decide_false by done. intros [= <-]. cbn. rewrite length_insert. eauto.
Qed.

(** *** The connections' steps *)

(** What an object that has left its poller still does. *)
Lemma dead_step e o :
  state_ o = kDisconnected -> TDestroyed ∉ pending_ o -> conn_event_ok e o ->
  match e with Established _ | PostDestroyed | Ready _ _ _ => False | _ => True end ->
  exists o', conn_step e o = Some o' /\ channel_ o' = channel_ o /\ poller_ o' = poller_ o /\ state_ o' = kDisconnected /\
    (TDestroyed ∉ pending_ o') /\ ups_ o' = ups_ o /\ downs_ o' = downs_ o /\ closes_ o' = closes_ o.
Proof.
  intros Hs Hp Hok He. assert (forall acts c, state_ c = kDisconnected -> TDestroyed ∉ pending_ c ->
    exists c', perform acts c = Some c' /\ channel_ c' = channel_ c /\ poller_ c' = poller_ c /\ state_ c' = kDisconnected /\
      (TDestroyed ∉ pending_ c') /\ ups_ c' = ups_ c /\ downs_ c' = downs_ c /\ closes_ c' = closes_ c) as Hact.
  { intros acts c Hc Hpc. destruct (perform_down acts c Hc) as (c' & E & ? & ? & Hp' & ?). exists c'.
    destruct (perform_keeps _ _ _ E). rewrite Hp'. done. }
  destruct e as [user|revents rd user|user|a|seen m|force seen|force|]; cbn [conn_step] in *; try done.
  - destruct (pending_ o) as [|t ts] eqn:Ep; [exists o; by rewrite Ep|]. apply not_elem_of_cons in Hp as [Hne Hts].
    destruct t as [m| | | |]; cbn [TcpConnection.run_task]; [..|done].
    + unfold sendInLoop. rewrite bool_decide_true by done. by eexists.
    + unfold shutdownInLoop. destruct (negb _); by eexists.
    + unfold forceCloseInLoop. rewrite !bool_decide_false by (cbn; congruence). by eexists.
    + by apply (Hact _ (set_pending ts o)).
  - destruct (Hact [a] o Hs Hp) as (o' & E & H). cbn in E. destruct (perform_act a o); [|done]. cbn in E. simplify_eq. by eexists.
  - case_bool_decide; eexists; split; try done. cbn. split_and!; try done. intros [?|?%list_elem_of_singleton]%elem_of_app; done.
  - cbn in Hok. unfold up in Hok. destruct (close_check force seen); [intuition congruence|by exists o].
  - eexists; split; [done|]. cbn. split_and!; try done. intros [?|?%list_elem_of_singleton]%elem_of_app; [done|by destruct force].
Qed.

(** What one that is down does: nothing to its state. *)
Lemma conn_down_step e o :
  conn_down o -> conn_event_ok e o -> match e with Established _ | PostDestroyed => False | _ => True end ->
  exists o', conn_step e o = Some o' /\ conn_down o' /\ confined o o' /\ closes_ o' = closes_ o.
Proof.
  intros [I Hs Hh Hp Hc] Hok He. destruct (conn_step_ok e o I Hok) as (o' & E & I' & Hr & _). exists o'.
  destruct (step_tame e o o' Hh Hp He E) as [T1 T2 T3 T4].
  assert (state_ o' = kDisconnected) as Hs' by (rewrite Hs in Hr; destruct (state_ o'); cbn in Hr; [lia..|done]).
  pose proof (ci_downs _ I) as D1. pose proof (ci_downs _ I') as D2. rewrite Hs in D1. rewrite Hs' in D2. cbn in D1, D2.
  split_and!; [done| |done|lia]. split; [done..|congruence|auto|lia].
Qed.

Lemma established_confined user c c' : TcpConnection.connectEstablished user c = Some c' -> confined c c'.
Proof.
  unfold TcpConnection.connectEstablished. case_guard; cbn [mbind option_bind]; [|done]. intros E%perform_keeps.
  destruct E as [_ _ _ _ Hc _]. etrans; [|exact Hc].
  apply (confined_update (set_channel (tie (channel_ c)) (set_state kConnected c))).
Qed.

(** The last step: the channel leaves the poller. *)
Lemma down_destroyed user o :
  conn_down o -> exists o', TcpConnection.connectDestroyed user o = Some o' /\ conn_gone o' /\ confined o o' /\
    channels_ (poller_ o') !! fd_ (channel_ o) = None /\ kernel_ (poller_ o') !! fd_ (channel_ o) = None.
Proof.
  intros [I Hs Hh Hp Hcl]. unfold TcpConnection.connectDestroyed. rewrite bool_decide_false by congruence. cbn [mbind option_bind].
  destruct (remove_ok o I) as ([p ch] & E & _); [unfold up; rewrite Hs; by intros [|]|]. rewrite E. cbn [mbind option_bind].
  destruct (removed_ok _ _ _ _ (ci_chan _ I) Hh E) as (Hd & Hc & Hk). destruct (chan_remove_local _ _ _ _ E) as [Hl Hf].
  rewrite Hf in Hc, Hk. eexists. split; [done|]. split_and!; [|by split|done..].
  split; [by apply drop_connection_ok|done|..|done]; cbn; [rewrite (ci_ups _ I), Hs|rewrite (ci_downs _ I), Hs]; done.
Qed.

(** *** A step of the whole *)

Lemma alter_same (cs : list TcpServer.conn) k c :
  cs !! k = Some c -> alter (fun x => TcpServer.mkConn (connName x) (io_loop x) (cphase c)) k cs = cs.
Proof.
  intros Hc. rewrite <- (list_insert_id cs k c Hc) at 2. apply list_eq. intros j. destruct (decide (j = k)) as [->|].
  - rewrite list_lookup_alter_eq, Hc, list_lookup_insert_eq by (by eapply lookup_lt_Some). by destruct c.
  - by rewrite list_lookup_alter_ne, list_lookup_insert_ne.
Qed.

Lemma inv_obj g k c : site_inv g -> conns (srv g) !! k = Some c -> exists o, objs g !! k = Some o.
Proof. intros I Hc. apply lookup_lt_is_Some_2. rewrite (pl_objs (gi_placed g I)). by eapply lookup_lt_Some. Qed.

(** A descriptor no connection has is unknown to the pollers. *)
Lemma inv_free g i fd :
  site_inv g ->
  (forall k c o, conns (srv g) !! k = Some c -> objs g !! k = Some o -> cphase c <> Destroyed -> fd_ (channel_ o) <> fd) ->
  channels_ (pollers g !!! i) !! fd = None /\ kernel_ (pollers g !!! i) !! fd = None.
Proof.
  intros I Hf. assert (~ (is_Some (channels_ (pollers g !!! i) !! fd) \/ is_Some (kernel_ (pollers g !!! i) !! fd))) as Hn.
  { intros H. destruct (pl_owned (gi_placed g I) i fd H) as (k & c & o & ? & ? & _ & ? & ?). by apply (Hf k c o). }
  rewrite !eq_None_not_Some. tauto.
Qed.

Lemma inv_accept g peer fd ptr wcb answer user :
  site_inv g -> site_event_ok (GAccept peer fd ptr wcb answer user) g -> len (conns (srv g)) + 1 < INT_MAX ->
  exists g', site_accept peer fd ptr wcb answer user g = Some g' /\ site_inv g' /\ length (conns (srv g')) = S (length (conns (srv g))).
Proof.
  intros I (Hpe & Ha & Hf) Hm. pose proof I as [gi_srv0 []]. destruct (accept_ok (srv g) peer gi_srv0 Hpe Hm) as (s & E & Hs & Hl).
  destruct (accept_conns peer (srv g) s (si_sub _ gi_srv0) E) as (n & i & Ecs & Eqs). unfold site_accept. rewrite E. cbn [mbind option_bind].
  rewrite Ecs, lookup_app_r, Nat.sub_diag by lia. cbn [list_lookup lookup mbind option_bind io_loop]. rewrite bool_decide_false by done.
  eexists. split; [done|]. split; [|done]. set (o := conn_new ptr fd EPollPoller_new wcb answer). set (c := TcpServer.mkConn n (S i) Posted) in *.
  assert (forall k c' o', (conns (srv g) ++ [c]) !! k = Some c' -> (objs g ++ [o]) !! k = Some o' ->
    conns (srv g) !! k = Some c' /\ objs g !! k = Some o' \/ k = length (conns (srv g)) /\ c' = c /\ o' = o) as Hlk.
  { intros k c' o' [H1|[Hk H1]]%lookup_app_Some [H2|[Hk' H2]]%lookup_app_Some; [auto| | |].
    - apply lookup_lt_Some in H1. lia.
    - apply lookup_lt_Some in H2. lia.
    - apply list_lookup_singleton_Some in H1 as [? <-], H2 as [? <-]. right. split_and!; [lia|done..]. }
  split; [done|]. split; cbn [srv objs pollers]; rewrite ?Ecs; [rewrite !length_app; cbn; lia|congruence|..].
  - intros k c' H1. rewrite <- Ecs in H1. by apply (inv_lt s k c').
  - intros k c' o' H1 H2. destruct (Hlk k c' o' H1 H2) as [[? ?]|(-> & -> & ->)]; [by eauto|].
    cbn. exists ptr, fd, wcb, answer. destruct (inv_free g (S i) fd I Hf). done.
  - intros k k' c1 c2 o1 o2 H1 H2 H3 H4 P1 P2 Efd.
    destruct (Hlk _ _ _ H1 H3) as [[? ?]|(-> & -> & ->)], (Hlk _ _ _ H2 H4) as [[? ?]|(-> & -> & ->)]; [by eauto|..|done].
    + by destruct (Hf k c1 o1).
    + by destruct (Hf k' c2 o2).
  - intros j fd' H. destruct (pl_owned0 j fd' H) as (k & c' & o' & ? & ? & ?). exists k, c', o'. by rewrite !lookup_app_l by (by eapply lookup_lt_Some).
Qed.

Lemma inv_task g i t q user :
  site_inv g -> queues (srv g) !!! i = t :: q -> user_total user < 2 ^ 60 ->
  exists g', site_task i t user (mkSite (set_queue i q (srv g)) (objs g) (pollers g)) = Some g' /\ site_inv g' /\
    length (conns (srv g')) = length (conns (srv g)).
Proof.
  intros I Hq Hu. pose proof I as []. destruct (run_ok (srv g) i t q gi_srv0 Hq) as (s & E & Hs & Hl).
  destruct (task_conns _ _ _ _ E) as [Ecs Eqs]. cbn [conns queues set_queue] in Ecs, Eqs. rewrite length_insert in Eqs.
  assert (due (conns (srv g)) i t) as (c & Hc & Hp & _) by (apply (si_tasks _ gi_srv0); rewrite Hq; left).
  destruct (inv_obj g _ c I Hc) as [o Ho]. pose proof (pl_fits gi_placed0 _ _ _ Hc Ho) as Hf.
  unfold site_task. cbn [srv objs pollers]. rewrite E. cbn [mbind option_bind].
  assert (conns s !! subject t = Some (TcpServer.mkConn (connName c) (io_loop c) (reached t))) as Hcs.
  { by rewrite Ecs, list_lookup_alter_eq, Hc. }
  assert (forall o' p', fd_ (channel_ o') = fd_ (channel_ o) -> same_elsewhere (fd_ (channel_ o)) (pollers g !!! io_loop c) p' ->
    fits (reached t) p' o' -> (reached t = Destroyed -> channels_ p' !! fd_ (channel_ o) = None /\ kernel_ p' !! fd_ (channel_ o) = None) ->
    site_inv (mkSite s (<[subject t := o']> (objs g)) (<[io_loop c := p']> (pollers g)))) as Hmove.
  { intros o' p' ? ? ? ?. apply (site_move g s (subject t) c o o' p' (reached t)); try done. rewrite Hp. by destruct t. }
  rewrite Hp in Hf. destruct t as [k|k|k]; cbn [subject reached need fits] in *.
  - destruct Hf as (ptr & fd & wcb & answer & Eo & Hfc & Hfk & Ha).
    assert (load (pollers g !!! io_loop c) o = conn_new ptr fd (pollers g !!! io_loop c) wcb answer) as El by (by rewrite Eo).
    assert (fd_ (channel_ o) = fd) as Efd by (by rewrite Eo).
    destruct (live_established ptr fd (pollers g !!! io_loop c) wcb answer user Hfc Hfk Ha Hu) as (o' & E' & L).
    destruct (established_confined _ _ _ E') as [Hfd Hse]. unfold at_conn. cbn [srv objs pollers]. rewrite Hcs, Ho. cbn [mbind option_bind io_loop].
    rewrite El, E'. cbn [mbind option_bind]. eexists. split; [done|]. split; [|done].
    rewrite Efd in Hmove. apply Hmove; try done. by rewrite load_self.
  - eexists. split; [done|]. split; [|done]. rewrite <- (list_insert_id (objs g) k o Ho).
    destruct (inv_lt _ _ _ gi_srv0 Hc) as [Hlt _]. rewrite <- (pl_pollers gi_placed0) in Hlt.
    rewrite <- (list_insert_id (pollers g) (io_loop c) (pollers g !!! io_loop c)) by (by apply list_lookup_lookup_total_lt).
    by apply Hmove.
  - destruct (down_destroyed user _ Hf) as (o' & E' & Hg & [Hfd Hse] & Hgc & Hgk). unfold at_conn. cbn [srv objs pollers].
    rewrite Hcs, Ho. cbn [mbind option_bind io_loop]. rewrite E'. cbn [mbind option_bind].
    eexists. split; [done|]. split; [|done]. by apply Hmove.
Qed.

(** An event of a connection, by whether it calls the close callback. *)
Lemma site_conn_eq g k e c o o' :
  conns (srv g) !! k = Some c -> objs g !! k = Some o -> conn_step e (load (pollers g !!! io_loop c) o) = Some o' ->
  site_conn k e g =
    let g' := mkSite (srv g) (<[k := o']> (objs g)) (<[io_loop c := poller_ o']> (pollers g)) in
    if (closes_ o <? closes_ o')%nat then
      s ← removeConnection (io_loop c) k (set_phase k Closing (srv g)); Some (mkSite s (objs g') (pollers g'))
    else Some g'.
Proof.
  intros Hc Ho E. unfold site_conn, at_conn. rewrite Hc, Ho. cbn [mbind option_bind]. rewrite E. cbn [mbind option_bind objs].
  by rewrite list_lookup_insert_eq by (by eapply lookup_lt_Some).
Qed.

Lemma inv_stay g k c o o' :
  site_inv g -> conns (srv g) !! k = Some c -> objs g !! k = Some o -> cphase c <> Destroyed ->
  confined (load (pollers g !!! io_loop c) o) o' -> fits (cphase c) (poller_ o') o' ->
  site_inv (mkSite (srv g) (<[k := o']> (objs g)) (<[io_loop c := poller_ o']> (pollers g))).
Proof.
  intros I Hc Ho Hd [Hfd Hse] Hf. apply (site_move g (srv g) k c o o' _ (cphase c)); try done; [apply I|by rewrite (alter_same _ _ c)].
Qed.

Lemma inv_conn g k e :
  site_inv g -> site_event_ok (GConn k e) g ->
  exists g', site_conn k e g = Some g' /\ site_inv g' /\ length (conns (srv g')) = length (conns (srv g)).
Proof.
  intros I (c & o & Hc & Ho & Hnp & Hok & He). pose proof (pl_fits (gi_placed g I) _ _ _ Hc Ho) as Hf.
  assert (match e with Established _ | PostDestroyed => False | _ => True end) as He' by (by destruct e).
  destruct (decide (cphase c = Open)) as [Hp|Hno]; [|destruct (decide (cphase c = Destroyed)) as [Hp|Hnd]].
  - rewrite Hp in Hf. cbn in Hf. destruct (live_step e _ Hf Hok He') as (o' & E & Hcase). destruct (live_counts _ Hf) as [Hc0 _]. cbn in Hc0.
    pose proof (step_tame e _ o' (li_handling _ Hf) (li_posted _ Hf) He' E) as [_ _ Hcf Hpo].
    rewrite (site_conn_eq g k e c o o' Hc Ho E), Hc0. cbn [srv objs pollers].
    destruct Hcase as [[-> L]|(Hcl & I' & Hs' & Hh')]; [|rewrite Hcl]; cbn [Nat.ltb Nat.leb].
    + eexists. split; [done|]. split; [|done]. apply (inv_stay g k c o o'); try done; [by rewrite Hp|]. rewrite Hp. cbn. by rewrite load_self.
    + destruct (close_ok (srv g) k c (gi_srv g I) Hc Hp) as (s & Es & Hs & Hl). rewrite Es. cbn [mbind option_bind].
      destruct (close_conns _ _ _ _ (proj2 (inv_lt _ _ _ (gi_srv g I) Hc)) Es) as [Ecs Eqs]. destruct Hcf as [Hfd Hse].
      eexists. split; [done|]. split; [|done]. apply (site_move g s k c o o' _ Closing); try done; [by rewrite Hp|].
      cbn. rewrite load_self. split; try done. intros Hin%Hpo. by apply (li_posted _ Hf).
  - rewrite Hp in Hf. cbn in Hf. destruct (proj1 (drop_connection_ok o) (go_drop _ Hf)) as [Hs Hch].
    destruct (dead_step e (load (pollers g !!! io_loop c) o)) as (o' & E & E1 & E2 & E3 & E4 & E5 & E6 & E7); [done|by apply Hf|done|by destruct e|].
    rewrite (site_conn_eq g k e c o o' Hc Ho E), E7. cbn [closes_ load set_registration]. rewrite Nat.ltb_irrefl.
    eexists. split; [done|]. split; [|done]. apply (inv_dead g k c o o'); try done.
    destruct Hf. split; [apply drop_connection_ok; by rewrite E1|done|by rewrite ?E5, ?E6, ?E7..].
  - assert (forall p x, fits (cphase c) p x <-> conn_down (load p x)) as Hfits by (intros; by destruct (cphase c)). apply Hfits in Hf.
    destruct (conn_down_step e _ Hf Hok He') as (o' & E & Hd' & Hcf & Hcl).
    rewrite (site_conn_eq g k e c o o' Hc Ho E), Hcl. cbn [closes_ load set_registration]. rewrite Nat.ltb_irrefl.
    eexists. split; [done|]. split; [|done]. apply (inv_stay g k c o o'); try done. apply Hfits. by rewrite load_self.
Qed.

Lemma site_step_ok g e :
  site_inv g -> site_event_ok e g -> len (conns (srv g)) + 1 < INT_MAX ->
  exists g', site_step e g = Some g' /\ site_inv g' /\ len (conns (srv g')) <= len (conns (srv g)) + 1.
Proof.
  intros I He Hm. unfold len in *. destruct e as [peer fd ptr wcb answer user|i user|k e]; cbn [site_step].
  - destruct (inv_accept g peer fd ptr wcb answer user I He Hm) as (g' & -> & I' & Hl). cbn [mbind option_bind].
    exists g'. rewrite inv_site_settle by done. split_and!; [done..|lia].
  - destruct (queues (srv g) !!! i) as [|t q] eqn:Hq; [exists g; split_and!; [done..|lia]|].
    destruct (inv_task g i t q user I Hq He) as (g' & -> & I' & Hl). cbn [mbind option_bind].
    exists g'. rewrite inv_site_settle by done. split_and!; [done..|lia].
  - destruct (inv_conn g k e I He) as (g' & -> & I' & Hl). cbn [mbind option_bind].
    exists g'. rewrite inv_site_settle by done. split_and!; [done..|lia].
Qed.

Lemma site_run_ok es g :
  site_inv g -> site_events_ok es g -> len (conns (srv g)) + len es < INT_MAX -> exists g', site_run es g = Some g' /\ site_inv g'.
Proof.
  revert g. induction es as [|e es IH]; intros g I Hok Hm; [by exists g|]. destruct Hok as [He Hes]. rewrite len_cons in Hm. pose proof (len_nonneg es).
  destruct (site_step_ok g e I He ltac:(lia)) as (g1 & E & I1 & Hl). rewrite E in Hes. cbn. rewrite E. cbn. apply IH; [done..|lia].
Qed.

Lemma inv_site_new name threads : threads <> 0%nat -> site_inv (Site_new name threads).
Proof.
  intros Ht. assert (forall i, replicate (S threads) EPollPoller_new !!! i = EPollPoller_new) as Hr.
  { intros i. rewrite list_lookup_total_alt. destruct (_ !! i) eqn:E; [|done]. by apply lookup_replicate in E as [-> _]. }
  split; [by apply inv_new|]. split; cbn [srv objs pollers Site_new]; [done|cbn [queues TcpServer_new]; by rewrite !length_replicate|done..|].
  intros i fd. rewrite Hr. by intros [[? ?]|[? ?]].
Qed.

(** *** The functors run out *)

(** How many functors a connection still needs. *)
Definition owing (c : TcpServer.conn) : nat :=
  match cphase c with Posted => 1 | Closing => 2 | Erased => 1 | Open | Destroyed => 0 end.

Lemma sum_alter {A} (f : A -> nat) (h : A -> A) (l : list A) k x :
  l !! k = Some x -> (sum_list_with f (alter h k l) + f x = sum_list_with f l + f (h x))%nat.
Proof.
  revert k. induction l as [|y l IH]; intros [|k] H; [done..| |].
  - injection H as ->. cbn. lia.
  - cbn in *. specialize (IH k H). change (list_alter h k l) with (alter h k l). lia.
Qed.

Definition quiet (g : Site) : Prop := forall i, queues (srv g) !!! i = [].

Lemma at_conn_srv k f g g' : at_conn k f g = Some g' -> srv g' = srv g.
Proof. intros (c & _ & (o & _ & (o' & _ & [= <-])%bind_Some)%bind_Some)%bind_Some. done. Qed.

Lemma inv_task_owing g i t q user g' :
  site_inv g -> queues (srv g) !!! i = t :: q ->
  site_task i t user (mkSite (set_queue i q (srv g)) (objs g) (pollers g)) = Some g' ->
  S (sum_list_with owing (conns (srv g'))) = sum_list_with owing (conns (srv g)).
Proof.
  intros I Hq E. assert (due (conns (srv g)) i t) as (c & Hc & Hp & _) by (apply (si_tasks _ (gi_srv g I)); rewrite Hq; left).
  unfold site_task in E. destruct (TcpServer.run_task _ _ _) as [s|] eqn:Es; [|done]. cbn [mbind option_bind] in E.
  apply task_conns in Es as [Ecs _]. cbn [conns set_queue srv] in Ecs.
  assert (conns (srv g') = conns s) as ->.
  { destruct t; [by rewrite (at_conn_srv _ _ _ _ E)|by injection E as <-|by rewrite (at_conn_srv _ _ _ _ E)]. }
  pose proof (sum_alter owing (fun c => TcpServer.mkConn (connName c) (io_loop c) (reached t)) _ _ _ Hc) as Hsum. rewrite <- Ecs in Hsum.
  assert (owing c = S (owing (TcpServer.mkConn (connName c) (io_loop c) (reached t)))) by (unfold owing; rewrite Hp; by destruct t). lia.
Qed.

Lemma queues_empty (qs : list (list TcpServer.task)) :
  (forall i, qs !!! i = []) \/ exists i t q, qs !!! i = t :: q.
Proof.
  destruct (decide (Forall (fun q => q = []) qs)) as [Hall|Hex].
  - left. intros i. rewrite list_lookup_total_alt. destruct (_ !! i) eqn:E; [|done]. by apply (Forall_lookup_1 _ _ _ _ Hall E).
  - right. apply not_Forall_Exists in Hex; [|apply _]. apply Exists_exists in Hex as (q0 & [i Hi]%list_elem_of_lookup & Hq0).
    destruct q0 as [|t q]; [by destruct (Hq0 eq_refl)|]. exists i, t, q. by apply list_lookup_total_correct.
Qed.

(** However many functors are pending, the loops run out of them. *)
Lemma site_drains user g :
  site_inv g -> user_total user < 2 ^ 60 -> exists order g', site_run ((fun i => GRun i user) <$> order) g = Some g' /\ site_inv g' /\ quiet g'.
Proof.
  intros I Hu. remember (sum_list_with owing (conns (srv g))) as n eqn:Hn. revert g I Hn. induction n as [n IH] using lt_wf_ind. intros g I ->.
  destruct (queues_empty (queues (srv g))) as [Q|(i & t & q & Hq)]; [by exists [], g|].
  destruct (inv_task g i t q user I Hq Hu) as (g1 & E & I1 & _). pose proof (inv_task_owing g i t q user g1 I Hq E) as Ho.
  destruct (IH (sum_list_with owing (conns (srv g1))) ltac:(lia) g1 I1 eq_refl) as (order & g' & E' & I' & Q').
  exists (i :: order), g'. cbn [fmap list_fmap site_run site_step]. rewrite Hq, E. cbn [mbind option_bind]. rewrite inv_site_settle by done. done.
Qed.

(** *** What a step does to the objects *)

Lemma site_settle_same g g' : site_settle g = Some g' -> g' = g.
Proof. unfold site_settle. destruct (forallb _ _); by intros [= <-]. Qed.

Lemma at_conn_objs k f g g' :
  at_conn k f g = Some g' -> exists c o o', conns (srv g) !! k = Some c /\ objs g !! k = Some o /\
    f (load (pollers g !!! io_loop c) o) = Some o' /\ objs g' = <[k := o']> (objs g).
Proof. intros (c & Hc & (o & Ho & (o' & E & [= <-])%bind_Some)%bind_Some)%bind_Some. by exists c, o, o'. Qed.

Lemma site_step_objs e g g' :
  site_inv g -> site_step e g = Some g' ->
  match e with
  | GAccept _ fd ptr wcb answer _ => objs g' = objs g ++ [conn_new ptr fd EPollPoller_new wcb answer]
  | GRun _ user => objs g' = objs g \/ exists k p o o', objs g !! k = Some o /\ objs g' = <[k := o']> (objs g) /\
      (TcpConnection.connectEstablished user (load p o) = Some o' \/
       state_ o = kDisconnected /\ TcpConnection.connectDestroyed user (load p o) = Some o')
  | GConn k e => exists c o o', conns (srv g) !! k = Some c /\ objs g !! k = Some o /\
      conn_step e (load (pollers g !!! io_loop c) o) = Some o' /\ objs g' = <[k := o']> (objs g)
  end.
Proof.
  intros I E. destruct e as [peer fd ptr wcb answer user|i user|k e]; cbn [site_step] in E.
  - apply bind_Some in E as (g1 & E & ->%site_settle_same). unfold site_accept in E. apply bind_Some in E as (s & Es & E).
    destruct (accept_conns peer (srv g) s (si_sub _ (gi_srv g I)) Es) as (n & j & Ecs & _).
    rewrite Ecs, lookup_app_r, Nat.sub_diag in E by lia. cbn in E. by injection E as <-.
  - destruct (queues (srv g) !!! i) as [|t q] eqn:Hq; [injection E as <-; by left|]. apply bind_Some in E as (g1 & E & ->%site_settle_same).
    apply bind_Some in E as (s & Es & E). apply task_conns in Es as [Ecs _]. cbn [conns set_queue srv] in Ecs. destruct t as [k|k|k]; cbn [srv objs pollers] in E.
    + apply at_conn_objs in E as (c & o & o' & _ & Ho & E & Eo). right. exists k, (pollers g !!! io_loop c), o, o'. auto.
    + injection E as <-. by left.
    + apply at_conn_objs in E as (c & o & o' & Hc & Ho & E & Eo). right. exists k, (pollers g !!! io_loop c), o, o'. split_and!; [done..|].
      right. split; [|done]. assert (due (conns (srv g)) i (Destroy k)) as (c0 & Hc0 & Hp & _) by (apply (si_tasks _ (gi_srv g I)); rewrite Hq; left).
      pose proof (pl_fits (gi_placed g I) _ _ _ Hc0 Ho) as Hf. rewrite Hp in Hf. by destruct Hf.
  - apply bind_Some in E as (g1 & E & ->%site_settle_same). unfold site_conn in E. apply bind_Some in E as (c & Hc & E).
    apply bind_Some in E as (o & Ho & E). apply bind_Some in E as (g2 & E2 & E). apply at_conn_objs in E2 as (c' & o1 & o' & Hc' & Ho' & Es & Eo).
    exists c', o1, o'. split_and!; [done..|]. apply bind_Some in E as (o2 & _ & E). destruct (_ <? _)%nat; [|by injection E as <-].
    apply bind_Some in E as (s & _ & E). by injection E as <-.
Qed.

(** *** Destruction *)

(** After the destructor: what is open is connected and waits for its functor. *)
Definition fits_end (ph : phase) (p : EPollPoller) (o : TcpConnection) : Prop :=
  match ph with
  | Open => conn_live (load p o) /\ state_ o = kConnected
  | Destroyed => drop_connection o = Some tt /\ ups_ o = 1%nat /\ downs_ o = 1%nat
  | Posted | Closing | Erased => False
  end.

#[global] Instance fits_end_local : Local fits_end.
Proof.
  split; [|done]. intros ph p p' fd o Hs Hne. destruct ph; cbn; try done. intros [L ?]. split; [|done].
  by apply (local_elsewhere (fits := fits) Open p p' fd o Hs Hne).
Qed.

Record ending (g : Site) : Prop := {
  en_placed : placed fits_end g;
  en_tasks : forall i t, t ∈ queues (srv g) !!! i <->
    exists k c, t = Destroy k /\ conns (srv g) !! k = Some c /\ cphase c = Open /\ io_loop c = i;
  en_once : forall i, NoDup (queues (srv g) !!! i)
}.

Lemma ending_settle g : ending g -> site_settle g = Some g.
Proof.
  intros E. unfold site_settle. rewrite (proj2 (forallb_forall _ _)); [done|]. intros k _. unfold settled.
  destruct (conns (srv g) !! k) as [c|] eqn:Hc; [|done]. destruct (objs g !! k) as [o|] eqn:Ho; [|done].
  pose proof (pl_fits (en_placed g E) k c o Hc Ho) as Hf. destruct (cphase c) eqn:Hp; cbn in Hf; try done.
  - rewrite (held_task (srv g) k c (Destroy k) (io_loop c)); [done| |done]. apply (en_tasks g E). by exists k, c.
  - rewrite (bool_decide_true (drop_connection o = Some tt)) by apply Hf. by rewrite orb_true_r.
Qed.

(** A connected one is destroyed. *)
Lemma live_destroyed user o :
  conn_live o -> state_ o = kConnected ->
  exists o', TcpConnection.connectDestroyed user o = Some o' /\ drop_connection o' = Some tt /\ ups_ o' = 1%nat /\ downs_ o' = 1%nat /\
    confined o o' /\ channels_ (poller_ o') !! fd_ (channel_ o) = None /\ kernel_ (poller_ o') !! fd_ (channel_ o) = None.
Proof.
  intros L Hs. destruct (live_counts o L) as [_ Hd]. destruct L as [I _ Hh _]. unfold TcpConnection.connectDestroyed.
  rewrite bool_decide_true by done. set (o1 := count_down (conn_disableAll (set_state kDisconnected o))).
  destruct (perform_down (user OnConnection) o1 eq_refl) as (o2 & E2 & Hch & Hst & _ & Hpo). rewrite E2. cbn [mbind option_bind].
  destruct (perform_keeps _ _ _ E2) as [K1 K2 _ _ _ _]. rewrite Hch, Hpo.
  assert (exists p ch, poller_ o1 = p /\ channel_ o1 = ch /\ chan_inv p ch /\ events_ ch = 0 /\ eventHandling_ ch = false /\
    fd_ ch = fd_ (channel_ o) /\ same_elsewhere (fd_ (channel_ o)) (poller_ o) p) as (p & ch & -> & -> & Ri & Rev & Rh & Rf & Rs).
  { pose proof (chan_update_spec (poller_ o) (channel_ o) kNoneEvent (ci_chan _ I)) as R. subst o1. cbn. unfold disableAll.
    destruct (chan_update _ _) as [p ch]. destruct R as (Ri & Rs & (_ & Rf & _ & Rh & _) & Rev). eexists p, ch.
    split_and!; try done. congruence. }
  pose proof (chan_remove_spec p ch Ri) as Rm. destruct (chan_remove p ch) as [[p' ch']|] eqn:Er; [|done]. cbn [mbind option_bind].
  destruct (removed_ok _ _ _ _ Ri Rh Er) as (Hok & Hc & Hk). destruct (chan_remove_local _ _ _ _ Er) as [Hl Hf].
  rewrite Rf in Hl, Hf. rewrite Hf in Hc, Hk. eexists. split; [done|]. split_and!; [by apply drop_connection_ok|..|done|done].
  - cbn. rewrite K1. cbn. rewrite (ci_ups _ I), Hs. done.
  - cbn. rewrite K2. cbn. by rewrite Hd.
  - split; [done|]. cbn. by etrans.
Qed.

Definition awaiting (c : TcpServer.conn) : nat := if decide (cphase c = Open) then 1 else 0.

(** A functor of the destructor runs. *)
Lemma ending_task g i t q user :
  ending g -> queues (srv g) !!! i = t :: q ->
  exists g', site_task i t user (mkSite (set_queue i q (srv g)) (objs g) (pollers g)) = Some g' /\ ending g' /\
    S (sum_list_with awaiting (conns (srv g'))) = sum_list_with awaiting (conns (srv g)).
Proof.
  intros [P T N] Hq. assert (t ∈ queues (srv g) !!! i) as Hin by (rewrite Hq; left).
  pose proof (queue_nonempty _ _ _ Hin) as Hi. apply T in Hin as Ht. destruct Ht as (k & c & -> & Hc & Hp & <-).
  assert (exists o, objs g !! k = Some o) as [o Ho].
  { apply lookup_lt_is_Some_2. rewrite (pl_objs P). by eapply lookup_lt_Some. }
  pose proof (pl_fits P k c o Hc Ho) as Hf. rewrite Hp in Hf. destruct Hf as [L Hs].
  destruct (live_destroyed user _ L Hs) as (o' & E & Hd & Hu & Hdn & [Hfd Hse] & Hgc & Hgk).
  set (s := set_phase k Destroyed (set_queue (io_loop c) q (srv g))).
  assert (TcpServer.run_task (io_loop c) (Destroy k) (set_queue (io_loop c) q (srv g)) = Some s) as Es.
  { cbn. unfold TcpServer.connectDestroyed. cbn. rewrite Hc. cbn. by rewrite bool_decide_true. }
  unfold site_task. cbn [srv objs pollers]. rewrite Es. cbn [mbind option_bind].
  set (c' := TcpServer.mkConn (connName c) (io_loop c) Destroyed).
  assert (conns s !! k = Some c') as Hcs by (subst s; cbn; by rewrite list_lookup_alter_eq, Hc).
  rewrite (at_conn_eq k (TcpConnection.connectDestroyed user) (mkSite s (objs g) (pollers g)) c' o o' Hcs Ho E).
  eexists. split; [done|]. cbn [srv objs pollers].
  split; [split; cbn [srv queues conns s set_phase set_conns set_queue]|].
  - apply (placed_move fits_end g s k c o o' (poller_ o') Destroyed); try done; [by rewrite Hp|]. cbn. by rewrite length_insert.
  - intros j t. rewrite queue_elem by done. pose proof (N (io_loop c)) as Nk. rewrite Hq in Nk. apply NoDup_cons in Nk as [Nk _]. split.
    + intros Hj. assert (t ∈ queues (srv g) !!! j) as Hj' by (destruct (decide (io_loop c = j)) as [<-|]; [rewrite Hq; by right|done]).
      apply T in Hj' as (k1 & c1 & -> & H1 & H2 & H3). exists k1, c1. split; [done|]. rewrite list_lookup_alter_ne; [done|].
      intros <-. simplify_eq. by rewrite decide_True in Hj.
    + intros (k1 & c1 & -> & H1 & H2 & H3). destruct (decide (k1 = k)) as [->|Hne].
      { rewrite list_lookup_alter_eq, Hc in H1. cbn in H1. by simplify_eq. }
      rewrite list_lookup_alter_ne in H1 by done. assert (Destroy k1 ∈ queues (srv g) !!! j) as Hj by (apply T; eauto 10).
      destruct (decide (io_loop c = j)) as [<-|]; [|done]. rewrite Hq in Hj. apply elem_of_cons in Hj as [|]; [congruence|done].
  - intros j. destruct (decide (io_loop c = j)) as [<-|].
    + rewrite list_lookup_total_insert_eq by done. pose proof (N (io_loop c)) as Nk. rewrite Hq in Nk. by apply NoDup_cons in Nk as [_ ?].
    + by rewrite list_lookup_total_insert_ne.
  - pose proof (sum_alter awaiting (fun c => TcpServer.mkConn (connName c) (io_loop c) Destroyed) _ _ _ Hc) as Hsum.
    assert (awaiting c = 1%nat) as A1 by (unfold awaiting; by rewrite decide_True).
    cbn beta in Hsum. change (awaiting (TcpServer.mkConn (connName c) (io_loop c) Destroyed)) with 0%nat in Hsum.
    change (alter _ k (conns (srv g))) with (conns s) in Hsum. cbn [srv]. lia.
Qed.

(** The loops run out of them. *)
Lemma ending_drains user g :
  ending g -> exists order g', site_run ((fun i => GRun i user) <$> order) g = Some g' /\ ending g' /\ quiet g'.
Proof.
  intros E. remember (sum_list_with awaiting (conns (srv g))) as n eqn:Hn. revert g E Hn. induction n as [n IH] using lt_wf_ind. intros g E ->.
  destruct (queues_empty (queues (srv g))) as [Q|(i & t & q & Hq)]; [by exists [], g|].
  destruct (ending_task g i t q user E Hq) as (g1 & E1 & En & Hm).
  destruct (IH (sum_list_with awaiting (conns (srv g1))) ltac:(lia) g1 En eq_refl) as (order & g' & E' & I' & Q').
  exists (i :: order), g'. cbn [fmap list_fmap site_run site_step]. rewrite Hq, E1. cbn [mbind option_bind]. rewrite ending_settle by done. done.
Qed.


(** The destructor posts a functor for each connection of the table. *)
Lemma destroy_each_posts order s :
  NoDup order ->
  (forall k, k ∈ order -> exists c, conns s !! k = Some c /\ io_loop c <> 0%nat /\ (io_loop c < length (queues s))%nat) ->
  (forall k i, k ∈ order -> Destroy k ∉ queues s !!! i) -> (forall i, NoDup (queues s !!! i)) ->
  exists s', destroy_each order s = Some s' /\ conns s' = conns s /\ length (queues s') = length (queues s) /\
    (forall i, NoDup (queues s' !!! i)) /\
    forall i t, t ∈ queues s' !!! i <-> t ∈ queues s !!! i \/ exists k c, k ∈ order /\ t = Destroy k /\ conns s !! k = Some c /\ io_loop c = i.
Proof.
  revert s. induction order as [|k order IH]; intros s Hn Hl Hf Hq; cbn [destroy_each].
  { exists s. split_and!; try done. intros i t. split; [auto|]. intros [|(? & ? & ?%not_elem_of_nil & _)]; done. }
  apply NoDup_cons in Hn as [Hk Hn]. destruct (Hl k ltac:(left)) as (c & Hc & Hnz & Hlt). rewrite Hc. cbn [mbind option_bind].
  rewrite bool_decide_false by done. cbn [mbind option_bind]. set (s1 := post (io_loop c) (Destroy k) s).
  assert (forall i t, t ∈ queues s1 !!! i <-> t ∈ queues s !!! i \/ t = Destroy k /\ i = io_loop c) as H1.
  { intros i t. unfold s1, post. cbn. rewrite queue_elem by done. destruct (decide (io_loop c = i)) as [<-|].
    - rewrite elem_of_app, list_elem_of_singleton. naive_solver.
    - naive_solver. }
  destruct (IH s1) as (s' & E & E1 & E2 & E3 & E4); [done| | | |].
  - intros k' Hk'. unfold s1. cbn. rewrite length_insert. apply Hl. by right.
  - intros k' i Hk'. rewrite H1. intros [H|[[= ->] _]]; [|done]. by apply (Hf k' i); [right|].
  - intros i. unfold s1. cbn. destruct (decide (io_loop c = i)) as [<-|]; [|by rewrite list_lookup_total_insert_ne].
    rewrite list_lookup_total_insert_eq by done. apply NoDup_app. split_and!; [done| |apply NoDup_singleton].
    intros x Hx ->%list_elem_of_singleton. by apply (Hf k (io_loop c)); [left|].
  - exists s'. split; [done|]. split; [done|]. split; [rewrite E2; cbn; by rewrite length_insert|]. split; [done|].
    intros i t. rewrite E4, H1. setoid_rewrite elem_of_cons. change (conns s1) with (conns s). naive_solver.
Qed.

Lemma destroy_here_workers order user g :
  (forall k, k ∈ order -> exists c, conns (srv g) !! k = Some c /\ io_loop c <> 0%nat) -> destroy_here order user g = Some g.
Proof.
  induction order as [|k order IH]; intros Hl; [done|]. cbn. destruct (Hl k ltac:(left)) as (c & -> & Hnz). cbn [mbind option_bind].
  rewrite bool_decide_false by done. cbn [mbind option_bind]. apply IH. intros k' Hk'. apply Hl. by right.
Qed.

Lemma quiet_phases g k c : site_inv g -> quiet g -> conns (srv g) !! k = Some c -> cphase c = Open \/ cphase c = Destroyed.
Proof.
  intros I Q Hc. assert (forall t, subject t = k -> cphase c <> need t) as Hno.
  { intros t Hk Hn. assert (t ∈ queues (srv g) !!! place t c) as Hin; [|rewrite Q in Hin; set_solver].
    apply (si_tasks _ (gi_srv _ I)). exists c. by rewrite Hk. }
  pose proof (Hno (Establish k) eq_refl). pose proof (Hno (Remove k) eq_refl). pose proof (Hno (Destroy k) eq_refl).
  destruct (cphase c); cbn in *; auto; done.
Qed.

(** The table of a quiet server lists its open connections, once each. *)
Lemma quiet_table g :
  site_inv g -> quiet g ->
  let order := snd <$> map_to_list (connections_ (srv g)) in
  NoDup order /\ forall k, k ∈ order <-> exists c, conns (srv g) !! k = Some c /\ cphase c = Open.
Proof.
  intros I Q order. pose proof (si_table _ (gi_srv _ I)) as Ht. split.
  - apply NoDup_fmap_2_strong; [|apply NoDup_map_to_list]. intros [n k] [n' k'] H1%elem_of_map_to_list H2%elem_of_map_to_list. cbn. intros <-.
    apply Ht in H1 as (c & Hc & <- & _), H2 as (c' & Hc' & <- & _). by simplify_eq.
  - intros k. unfold order. rewrite list_elem_of_fmap. split.
    + intros ([n k'] & -> & H%elem_of_map_to_list). apply Ht in H as (c & Hc & _ & Hp). exists c. split; [done|].
      destruct (quiet_phases g _ c I Q Hc) as [|Hd]; [done|]. by rewrite Hd in Hp.
    + intros (c & Hc & Hp). exists (connName c, k). split; [done|]. apply elem_of_map_to_list, Ht. exists c. by rewrite Hp.
Qed.

Lemma site_destroys user g :
  site_inv g -> quiet g -> (forall k c o, conns (srv g) !! k = Some c -> objs g !! k = Some o -> cphase c = Open -> state_ o = kConnected) ->
  exists g', site_destroy user g = Some g' /\ ending g'.
Proof.
  intros I Q Hst. destruct (quiet_table g I Q) as [Hn Ho]. pose proof I as [S P].
  destruct (destroy_each_posts (snd <$> map_to_list (connections_ (srv g))) (srv g)) as (s & E & E1 & E2 & E3 & E4); [done| | | |].
  { intros k (c & Hc & _)%Ho. exists c. destruct (inv_lt _ _ _ S Hc). done. }
  { intros k i _. rewrite Q. apply not_elem_of_nil. }
  { intros i. rewrite Q. apply NoDup_nil_2. }
  set (s' := TcpServer.mkServer (name_ s) (subLoops_ s) (nextConnId_ s) ∅ (conns s) (queues s) false).
  assert (server_destroy (srv g) = Some s') as Es by (unfold server_destroy; by rewrite E).
  assert (ending (mkSite s' (objs g) (pollers g))) as En.
  { split; cbn [srv s' queues conns]; [|intros i t|done].
    - destruct P. split; cbn [srv objs pollers s' queues conns]; rewrite ?E1, ?E2; try done.
      intros k c o Hc Hob. pose proof (pl_fits0 k c o Hc Hob) as Hf. destruct (quiet_phases g k c I Q Hc) as [Hp|Hp]; rewrite Hp in *; cbn in *.
      + split; [done|]. by apply (Hst k c).
      + destruct Hf. done.
    - rewrite E4, Q, E1. split; [intros [?%not_elem_of_nil|(k & c & Hk & -> & Hc & <-)]; [done|]|].
      + apply Ho in Hk as (c' & ? & ?). simplify_eq. eauto 10.
      + intros (k & c & -> & Hc & Hp & <-). right. exists k, c. rewrite Ho. eauto 10. }
  exists (mkSite s' (objs g) (pollers g)). split; [|done]. unfold site_destroy. rewrite Es. cbn [mbind option_bind].
  rewrite destroy_here_workers; [cbn [mbind option_bind]; by apply ending_settle|].
  intros k (c & Hc & _)%Ho. exists c. cbn [srv s' conns]. rewrite E1. destruct (inv_lt _ _ _ S Hc). done.
Qed.

(** What is left then. *)
Lemma ending_end g :
  ending g -> quiet g ->
  (forall k o, objs g !! k = Some o -> drop_connection o = Some tt /\ ups_ o = 1%nat /\ downs_ o = 1%nat) /\
  forall i, channels_ (pollers g !!! i) = ∅ /\ kernel_ (pollers g !!! i) = ∅.
Proof.
  intros [P T _] Q. assert (forall k c o, conns (srv g) !! k = Some c -> objs g !! k = Some o -> cphase c = Destroyed) as Hd.
  { intros k c o Hc Ho. pose proof (pl_fits P k c o Hc Ho) as Hf. destruct (cphase c) eqn:Hp; cbn in Hf; try done.
    exfalso. apply (not_elem_of_nil (Destroy k)). rewrite <- (Q (io_loop c)). apply T. by exists k, c. }
  split.
  - intros k o Ho. assert (exists c, conns (srv g) !! k = Some c) as [c Hc].
    { apply lookup_lt_is_Some_2. rewrite <- (pl_objs P). by eapply lookup_lt_Some. }
    pose proof (pl_fits P k c o Hc Ho) as Hf. by rewrite (Hd k c o Hc Ho) in Hf.
  - intros i. split; apply map_empty; intros fd; apply eq_None_not_Some; intros Hs.
    + destruct (pl_owned P i fd (or_introl Hs)) as (k & c & o & Hc & Ho & _ & _ & Hn). by apply Hn, (Hd k c o).
    + destruct (pl_owned P i fd (or_intror Hs)) as (k & c & o & Hc & Ho & _ & _ & Hn). by apply Hn, (Hd k c o).
Qed.

(** *** The theorem *)

(** What the server's view of connection [c] says about its object [o] and the
    poller [p] of its loop. *)
Definition as_promised (c : TcpServer.conn) (p : EPollPoller) (o : TcpConnection) : Prop :=
  match cphase c with
  | Posted => ups_ o = 0%nat
  | Open => up o /\ ups_ o = 1%nat /\ downs_ o = 0%nat /\ accepted_ o = wire_ o ++ contents (outputBuffer_ o) /\
      kernel_ p !! fd_ (channel_ o) = Some (wanted (state_ o) (contents (outputBuffer_ o)), chan_ptr (channel_ o))
  | Closing | Erased => state_ o = kDisconnected /\ ups_ o = 1%nat /\ downs_ o = 1%nat /\ closes_ o = 1%nat /\
      kernel_ p !! fd_ (channel_ o) = None
  | Destroyed => ups_ o = 1%nat /\ downs_ o = 1%nat /\ closes_ o = 1%nat /\ drop_connection o = Some tt
  end.

Lemma inv_promised g k c o :
  site_inv g -> conns (srv g) !! k = Some c -> objs g !! k = Some o -> as_promised c (pollers g !!! io_loop c) o.
Proof.
  intros I Hc Ho. pose proof (pl_fits (gi_placed g I) _ _ _ Hc Ho) as Hf. unfold as_promised. set (p := pollers g !!! io_loop c) in *.
  assert (conn_down (load p o) -> state_ o = kDisconnected /\ ups_ o = 1%nat /\ downs_ o = 1%nat /\ closes_ o = 1%nat /\
    kernel_ p !! fd_ (channel_ o) = None) as Hd.
  { intros [J Hs _ _ Hcl]. pose proof (ci_ups _ J) as H1. pose proof (ci_downs _ J) as H2. rewrite Hs in H1, H2. split_and!; try done.
    apply (ci_idle _ J). unfold up. rewrite Hs. by intros [|]. }
  destruct (cphase c); cbn in Hf; auto.
  - destruct Hf as (? & ? & ? & ? & -> & _). done.
  - destruct (live_counts _ Hf) as [_ Hdn]. destruct Hf as [J U _ _]. pose proof (ci_ups _ J) as H1.
    pose proof (ci_events _ J) as Hev. split_and!; [done| |done|apply (ci_stream _ J)|].
    + destruct U as [U|U]; by rewrite U in H1.
    + change (state_ o) with (state_ (load p o)). change (outputBuffer_ o) with (outputBuffer_ (load p o)).
      rewrite <- Hev. destruct (ci_chan _ J) as [(_ & He & _)|[(_ & He & _)|(_ & _ & Hk & _)]]; [..|done];
        rewrite Hev in He; destruct U as [U|U]; rewrite U in He; cbn in He; by case_bool_decide.
  - destruct Hf. done.
Qed.

(** C14: A server with worker threads and its connections: in every interleaving of
    arriving connections, of the functors of all loops, and of readiness events,
    queued functors and calls from other threads on each connection, provided that no
    connection goes down between the check and the store of a [shutdown] or
    [forceClose] another thread makes on it (the race of [remote_forceClose_race]), no
    assertion of the server, of a connection or of a channel fails, although the
    connections of a loop share its poller.  Afterwards the table holds the
    connections that have not been removed, names are unique, and each connection is as far as the
    server thinks: an open one is registered in the poller of its loop with the
    events it wants and its bytes are on the wire or queued in order; a closing one
    was reported up and down once each and gets no more events; a destroyed one has
    left its poller and can be freed.  From there, if nothing else arrives, the
    functors the server has posted run out in some order of the loops, and what is
    left in the pollers are then the open connections.  If all of those are in state
    [kConnected], the destructor of the server and the functors it posts take them down: every connection ever made was reported
    up and down exactly once and can be freed, and the pollers are empty. *)
Theorem server_session name threads es user :
  threads <> 0%nat -> len es < INT_MAX -> site_events_ok es (Site_new name threads) -> user_total user < 2 ^ 60 ->
  exists g, site_run es (Site_new name threads) = Some g /\
  (forall n k, connections_ (srv g) !! n = Some k <->
    exists c, conns (srv g) !! k = Some c /\ connName c = n /\ in_table (cphase c) = true) /\
  (forall k k' c c', conns (srv g) !! k = Some c -> conns (srv g) !! k' = Some c' -> connName c = connName c' -> k = k') /\
  (forall k c o, conns (srv g) !! k = Some c -> objs g !! k = Some o -> as_promised c (pollers g !!! io_loop c) o) /\
  exists order g', site_run ((fun i => GRun i user) <$> order) g = Some g' /\
    (forall i, queues (srv g') !!! i = []) /\
    (forall k c, conns (srv g') !! k = Some c -> cphase c = Open \/ cphase c = Destroyed) /\
    (forall i fd, is_Some (channels_ (pollers g' !!! i) !! fd) <->
      exists k c o, conns (srv g') !! k = Some c /\ objs g' !! k = Some o /\ cphase c = Open /\ io_loop c = i /\ fd_ (channel_ o) = fd) /\
    ((forall k c o, conns (srv g') !! k = Some c -> objs g' !! k = Some o -> cphase c = Open -> state_ o = kConnected) ->
     exists g1 order' g2, site_destroy user g' = Some g1 /\ site_run ((fun i => GRun i user) <$> order') g1 = Some g2 /\
       (forall k o, objs g2 !! k = Some o -> drop_connection o = Some tt /\ ups_ o = 1%nat /\ downs_ o = 1%nat) /\
       forall i, channels_ (pollers g2 !!! i) = ∅ /\ kernel_ (pollers g2 !!! i) = ∅).
Proof.
  intros Ht Hl He Hu. destruct (site_run_ok es (Site_new name threads) (inv_site_new _ _ Ht) He) as (g & E & I); [done|].
  exists g. split; [done|]. split; [apply (si_table _ (gi_srv g I))|]. split; [apply inv_names, I|]. split; [intros k c o; by apply inv_promised|].
  destruct (site_drains user g I Hu) as (order & g' & E' & I' & Q). exists order, g'. split; [done|]. split; [exact Q|].
  assert (forall k c, conns (srv g') !! k = Some c -> cphase c = Open \/ cphase c = Destroyed) as Hph by (intros k c; by apply quiet_phases).
  split; [done|]. split.
  2: { intros Hst. destruct (site_destroys user g' I' Q Hst) as (g1 & E1 & En). destruct (ending_drains user g1 En) as (order' & g2 & E2 & En2 & Q2).
       exists g1, order', g2. split; [done|]. split; [done|]. by apply ending_end. }
  intros i fd. split.
  - intros Hs. destruct (pl_owned (gi_placed _ I') i fd (or_introl Hs)) as (k & c & o & Hc & ? & ? & ? & Hd). exists k, c, o.
    destruct (Hph k c Hc) as [|]; [done|congruence].
  - intros (k & c & o & Hc & Ho & Hp & <- & <-). pose proof (pl_fits (gi_placed _ I') _ _ _ Hc Ho) as Hf. rewrite Hp in Hf.
    pose proof (inv_promised _ _ _ _ I' Hc Ho) as Hpr. unfold as_promised in Hpr. rewrite Hp in Hpr. destruct Hpr as (_ & _ & _ & _ & Hk).
    destruct (ci_chan _ (li_inv _ Hf)) as [(_ & _ & _ & H & _)|[(_ & _ & H & _)|(_ & H & _)]]; [cbn in H; congruence|by eexists..].
Qed.

(** ** A sample session: two connections on the one worker loop; the second
    sends some bytes, the first is closed by its peer and removed. *)

Definition sample_session : list site_event :=
  [GAccept (mkInetAddress 2130706433 5000) 7 1 false two_bytes_kernel no_acts;
   GAccept (mkInetAddress 2130706433 5001) 8 2 false two_bytes_kernel no_acts;
   GRun 1 no_acts; GRun 1 no_acts;
   GConn 1 (UserAct (ASend (str "hello")));
   GConn 0 (Ready EPOLLIN (IoOk []) no_acts);
   GRun 0 no_acts; GRun 1 no_acts].

(** The contract of the events used here, as a test. *)
Definition event_okb (e : site_event) (g : Site) : bool :=
  match e with
  | GAccept peer fd _ _ _ _ => addr_ok peer && forallb (fun o => negb (fd_ (channel_ o) =? fd)) (objs g)
  | GRun _ user => user_total user <? 2 ^ 60
  | GConn k e =>
      match conns (srv g) !! k, objs g !! k with
      | Some c, Some o =>
          bool_decide (cphase c = Open) &&
          match e with
          | UserAct a => len (accepted_ o) + act_bytes a <? 2 ^ 60
          | Ready revents rd user =>
              ((revents =? EPOLLIN) || (revents =? EPOLLOUT)) &&
              bool_decide (is_Some (kernel_ (pollers g !!! io_loop c) !! fd_ (channel_ o))) &&
              match rd with
              | IoOk data => (len data <=? readCapacity (inputBuffer_ o)) && (len (buffer_ (inputBuffer_ o)) + len data <? 2 ^ 63)
              | IoErr _ => true
              end &&
              (len (accepted_ o) + 2 * user_total user <? 2 ^ 60)
          | _ => false
          end
      | _, _ => false
      end
  end.

Lemma event_okb_ok e g :
  (if e is GAccept _ _ _ _ answer _ then answer = two_bytes_kernel else True) -> event_okb e g = true -> site_event_ok e g.
Proof.
  destruct e as [peer fd ptr wcb answer user|i user|k e]; cbn -[Z.pow]; intros Hk Hb.
  - subst answer. apply andb_prop in Hb as [Hp Hf]. split; [done|]. split; [exact two_bytes_kernel_ok|]. intros k c o _ Ho _ E.
    rewrite forallb_forall in Hf. specialize (Hf o). rewrite E, Z.eqb_refl in Hf. cbn in Hf.
    assert (false = true); [|done]. by eapply Hf, list_elem_of_In, list_elem_of_lookup_2.
  - by apply Z.ltb_lt.
  - destruct (conns (srv g) !! k) as [c|] eqn:Hc; [|done]. destruct (objs g !! k) as [o|] eqn:Ho; [|done]. exists c, o.
    apply andb_prop in Hb as [Hp%bool_decide_eq_true Hb]. rewrite Hp. split_and!; try done; [|by destruct e].
    destruct e as [|revents rd user| |a| | | |]; try done; [|by apply Z.ltb_lt].
    rewrite !andb_true_iff in Hb. destruct Hb as (((Hrev & H1%bool_decide_eq_true) & H2) & H4%Z.ltb_lt).
    split_and!; try done.
    + apply orb_true_iff in Hrev as [E%Z.eqb_eq|E%Z.eqb_eq]; by rewrite E.
    + destruct rd as [|data]; [done|]. by apply andb_true_iff in H2 as [?%Z.leb_le ?%Z.ltb_lt].
Qed.

Fixpoint events_okb (es : list site_event) (g : Site) : bool :=
  match es with
  | [] => true
  | e :: es => event_okb e g && match site_step e g with Some g' => events_okb es g' | None => true end
  end.

Lemma events_okb_ok es g :
  Forall (fun e => if e is GAccept _ _ _ _ answer _ then answer = two_bytes_kernel else True) es -> events_okb es g = true -> site_events_ok es g.
Proof.
  intros Hf. revert g. induction Hf as [|e es He _ IH]; intros g; cbn; [done|]. intros [Hb Hbs]%andb_prop. split; [by apply event_okb_ok|].
  destruct (site_step e g); [by apply IH|done].
Qed.

Lemma sample_events_ok : site_events_ok sample_session (Site_new (str "srv") 1).
Proof. apply events_okb_ok; [by repeat constructor|vm_compute; reflexivity]. Qed.

Lemma server_session_witness :
  exists g, site_run sample_session (Site_new (str "srv") 1) = Some g /\
  (forall k c o, conns (srv g) !! k = Some c -> objs g !! k = Some o -> as_promised c (pollers g !!! io_loop c) o).
Proof.
  destruct (server_session (str "srv") 1 sample_session no_acts) as (g & E & _ & _ & H & _);
    [done|done|exact sample_events_ok|done|]. exists g. split; [exact E|exact H].
Defined.

(** The first connection is gone, the second still open with three bytes queued
    behind the two the kernel took, and the only one in the poller. *)
Example sample_session_end :
  (g ← site_run sample_session (Site_new (str "srv") 1);
   Some (cphase <$> conns (srv g), wire_ <$> objs g, map fst (map_to_list (channels_ (pollers g !!! 1%nat))))) =
  Some ([Destroyed; Open], [[]; str "he"], [8]).
Proof. vm_compute. reflexivity. Qed.

(** The destructor takes the second one down. *)
Example sample_shutdown :
  (g ← site_run sample_session (Site_new (str "srv") 1); g ← site_destroy no_acts g; g ← site_run [GRun 1 no_acts] g;
   Some (cphase <$> conns (srv g), downs_ <$> objs g, map fst (map_to_list (channels_ (pollers g !!! 1%nat))))) =
  Some ([Destroyed; Destroyed], [1%nat; 1%nat], []).
Proof. vm_compute. reflexivity. Qed.
