(* ===== verification/AppSession.v ===== *)
(** * AppSession: a server application and its connections

    A server application of this repository is a message callback written against
    [include/Transport.h].  Here any such callback runs in a [TcpServer]: the
    connections, their buffers and descriptors, [TcpConnection::handleRead] that
    calls it, and the application's own state, which all connections share. *)
From S2P Require Import Prelude InetAddress Transport.
From S2P Require Import Buffer Channel TcpServer TcpConnection TcpCallback ConnFrame ServerSession.

(** ** Applications *)

(** [app_callback] is the message callback, with the state of the application;
    [None] ends the process.  [app_answers w s out rest w'] specifies it: on
    unread bytes [s] in state [w] it sends [out] and leaves [rest] and [w']. *)
Class App (W : Type) := {
  app_callback : forall T, TransportOps T -> T -> Buffer -> W -> option (T * Buffer * W);
  app_answers : W -> bytes -> bytes -> bytes -> W -> Prop;
  app_follows : forall c0 t c b w c' b' w',
    follows c0 t c -> app_callback TcpConnection _ c b w = Some (c', b', w') ->
    exists t', app_callback Trace _ t b w = Some (t', b', w') /\ follows c0 t' c';
  app_retreat : forall t b w t' b' w', app_callback Trace _ t b w = Some (t', b', w') -> retreat b b';
  app_correct : forall b w out rest w', buffer_wf b -> app_answers w (contents b) out rest w' ->
    exists t b', app_callback Trace _ trace_new b w = Some (t, b', w') /\ extends trace_new t out /\ contents b' = rest
}.

Section app.
Context {W : Type} `{App W}.

(** What the callback does on a connection whose input buffer is [b]. *)
Definition app_acts (w : W) (b : Buffer) : option (list act * W) :=
  '(t, b', w') ← app_callback Trace _ trace_new b w;
  Some (tr_log t ++ [ARetrieve (length (contents b) - length (contents b'))], w').

(** These are the calls it makes when it runs on the connection itself. *)
Lemma app_acts_callback c w c' b' w' :
  buffer_wf (inputBuffer_ c) -> contents (inputBuffer_ c) <> [] ->
  app_callback TcpConnection _ c (inputBuffer_ c) w = Some (c', b', w') ->
  exists acts, app_acts w (inputBuffer_ c) = Some (acts, w') /\ perform acts c = Some (set_input b' c').
Proof.
  intros Hb Hne E. destruct (app_follows c trace_new c _ _ _ _ _ (follows_new c) E) as (t & Et & Hp & Ho & _).
  unfold app_acts. rewrite Et. cbn [mbind option_bind]. eexists. split; [done|].
  rewrite perform_app, Hp. cbn. f_equal. f_equal. pose proof (perform_input (inputBuffer_ c) _ c Ho) as Hi.
  replace (set_input (inputBuffer_ c) c) with c in Hi by (by destruct c). rewrite Hp in Hi. injection Hi as Hi.
  rewrite (f_equal inputBuffer_ Hi). symmetry. by apply retreat_retrieve; [eapply app_retreat|..].
Qed.

Lemma app_acts_correct b w out rest w' :
  buffer_wf b -> contents b <> [] -> app_answers w (contents b) out rest w' ->
  exists acts, app_acts w b = Some (acts, w') /\ forallb mild acts = true /\ sends acts = out /\ drop (takes acts) (contents b) = rest.
Proof.
  intros Hb Hne Ha. destruct (app_correct b w out rest w' Hb Ha) as (t & b' & E & (Hw & Hc & _ & _ & Ho) & Hr).
  unfold app_acts. rewrite E. cbn [mbind option_bind]. eexists. split; [done|].
  destruct t as [[] l]; [done|]. cbn in *. destruct (is_send_takes l Hw) as [Ht Hm]. destruct Ho as [Ho|[]].
  rewrite forallb_app, sends_app, takes_app, Hm, Ht, Ho. cbn. rewrite app_nil_r, Nat.add_0_r. split_and!; try done.
  pose proof (retreat_retrieve b b' (app_retreat _ _ _ _ _ _ E) Hb Hne) as Eb.
  destruct (retrieve_spec b (Z.of_nat (length (contents b) - length (contents b'))) Hb ltac:(lia)) as (_ & Cb & _).
  rewrite <- Eb, Nat2Z.id in Cb. by rewrite <- Cb.
Qed.

(** ** Events *)

(** What the read handler hands up. *)
Definition got (rd : io_result bytes) : bytes := match rd with IoOk data => data | IoErr _ => [] end.

(** The dispatch calls the read handler; it takes the connection for hung up. *)
Definition reading (revents : Z) : bool := has_bits revents (Z.lor (Z.lor EPOLLIN EPOLLPRI) EPOLLRDHUP).
Definition hangs (revents : Z) : bool := has_bits revents EPOLLHUP && negb (has_bits revents EPOLLIN).

(** The message callback runs. *)
Definition calls (revents : Z) (rd : io_result bytes) : bool := reading revents && (0 <? len (got rd)).

(** The input buffer it finds. *)
Definition input_after (o : TcpConnection) (rd : io_result bytes) : option Buffer :=
  '(_, b, _) ← readCore (inputBuffer_ o) rd 0; Some b.

Definition on_ready (w : W) (o : TcpConnection) (revents : Z) (rd : io_result bytes) : option (list act * W) :=
  if calls revents rd then b ← input_after o rd; app_acts w b else Some ([], w).

(** The connection callback of the applications, if there is one, only prints, and
    they set no write complete callback. *)
Definition message_acts (acts : list act) (cb : callback) : list act :=
  match cb with OnMessage => acts | OnConnection | OnWriteComplete => [] end.

(** What happens to the server: a client connects, a loop runs its next functor,
    a connection is reported ready, with the kernel's answer to the read. *)
Inductive net_event :=
| NAccept (peer : InetAddress) (fd ptr : Z) (answer : nat -> Z -> io_result Z)
| NRun (i : nat)
| NReady (k : nat) (revents : Z) (rd : io_result bytes).

Definition app_step (e : net_event) (gw : Site * W) : option (Site * W) :=
  let '(g, w) := gw in
  match e with
  | NAccept peer fd ptr answer => g ← site_step (GAccept peer fd ptr false answer no_acts) g; Some (g, w)
  | NRun i => g ← site_step (GRun i no_acts) g; Some (g, w)
  | NReady k revents rd =>
      o ← objs g !! k;
      '(acts, w) ← on_ready w o revents rd;
      g ← site_step (GConn k (Ready revents rd (message_acts acts))) g;
      Some (g, w)
  end.

Fixpoint app_run (es : list net_event) (gw : Site * W) : option (Site * W) :=
  match es with
  | [] => Some gw
  | e :: es => gw ← app_step e gw; app_run es gw
  end.

(** ** Specification *)

(** One conversation: the bytes read and not yet used, all bytes sent, and whether
    the peer has hung up. *)
Record chat := mkChat { ch_partial : bytes; ch_out : bytes; ch_hung : bool }.

Inductive chat_step (revents : Z) (rd : io_result bytes) : chat * W -> chat * W -> Prop :=
| chat_quiet p r hung w :
    calls revents rd = false -> chat_step revents rd (mkChat p r hung, w) (mkChat p r (hung || hangs revents), w)
| chat_read p r hung w out rest w' :
    calls revents rd = true -> app_answers w (p ++ got rd) out rest w' ->
    chat_step revents rd (mkChat p r hung, w) (mkChat rest (r ++ out) (hung || hangs revents), w').

Inductive spec_step : net_event -> list chat * W -> list chat * W -> Prop :=
| spec_accept peer fd ptr answer hs w : spec_step (NAccept peer fd ptr answer) (hs, w) (hs ++ [mkChat [] [] false], w)
| spec_functor i hs w : spec_step (NRun i) (hs, w) (hs, w)
| spec_ready k revents rd hs w ch ch' w' :
    hs !! k = Some ch -> chat_step revents rd (ch, w) (ch', w') -> spec_step (NReady k revents rd) (hs, w) (<[k := ch']> hs, w').

Inductive spec_run : list net_event -> list chat * W -> list chat * W -> Prop :=
| spec_done x : spec_run [] x x
| spec_next e es x y z : spec_step e x y -> spec_run es y z -> spec_run (e :: es) x z.

(** *** What a connection has read *)

Definition heard_in (k : nat) (e : net_event) : bytes :=
  match e with
  | NReady k' revents rd => if bool_decide (k' = k) && calls revents rd then got rd else []
  | NAccept _ _ _ _ | NRun _ => []
  end.

Definition heard (es : list net_event) (k : nat) : bytes := concat (heard_in k <$> es).

(** A relation between all that was read, what is left and all that was sent,
    kept by every answer. *)
Section conversation.
Variable P : bytes -> bytes -> bytes -> Prop.
Hypothesis P_start : P [] [] [].
Hypothesis P_answer : forall all p r w data out rest w',
  P all p r -> app_answers w (p ++ data) out rest w' -> P (all ++ data) rest (r ++ out).

Definition related (all : nat -> bytes) (hs : list chat) : Prop :=
  (forall k ch, hs !! k = Some ch -> P (all k) (ch_partial ch) (ch_out ch)) /\ forall k, (length hs <= k)%nat -> all k = [].

Lemma related_step all e hs w hs' w' :
  related all hs -> spec_step e (hs, w) (hs', w') -> related (fun k => all k ++ heard_in k e) hs'.
Proof.
  intros [Hp Hz] St. inversion St as [peer fd ptr answer hs0 w0|i hs0 w0|k revents rd hs0 w0 ch ch' w1 Hh Hc]; subst.
  - split; [|intros k; rewrite length_app; cbn; intros; rewrite Hz; [done|lia]]. intros k ch [Hk|[Hk E]]%lookup_app_Some; cbn; rewrite app_nil_r; [auto|].
    apply list_lookup_singleton_Some in E as [_ <-]. rewrite Hz by done. exact P_start.
  - split; intros; cbn; rewrite app_nil_r; auto.
  - pose proof (lookup_lt_Some _ _ _ Hh) as Hlt. split; cbn.
    + intros k1 ch1 [(<- & -> & _)|[Hne H1]]%list_lookup_insert_Some.
      * rewrite bool_decide_true by done. cbn [andb]. specialize (Hp k ch Hh).
        inversion Hc as [p r hung w0 Hca|p r hung w0 out rest w1 Hca Ha]; subst; rewrite Hca; cbn in *; [by rewrite app_nil_r|by eapply P_answer].
      * rewrite bool_decide_false by done. cbn. rewrite app_nil_r. auto.
    + intros k1. rewrite length_insert. intros Hk1. rewrite bool_decide_false by lia. cbn. rewrite app_nil_r. auto.
Qed.

Lemma spec_related es w hs w' k ch :
  spec_run es ([], w) (hs, w') -> hs !! k = Some ch -> P (heard es k) (ch_partial ch) (ch_out ch).
Proof.
  intros Hr. assert (related (fun _ => []) []) as R by (split; [intros ? ? E; by rewrite lookup_nil in E|done]).
  assert (forall es hs0 w0 all, related all hs0 -> spec_run es (hs0, w0) (hs, w') -> related (fun k => all k ++ heard es k) hs) as Hall.
  { clear es R Hr. induction es as [|e es IH]; intros hs0 w0 all R Hr; inversion Hr as [|? ? ? [hs1 w1] ? St Hr']; subst.
    - destruct R as [R1 R2]. split; intros; unfold heard; cbn; rewrite app_nil_r; auto.
    - destruct (IH _ _ _ (related_step _ _ _ _ _ _ R St) Hr') as [R1 R2]. split; intros; unfold heard in *; cbn; [|rewrite app_assoc; auto].
      rewrite app_assoc. auto. }
  intros Hk. by apply (Hall es [] w (fun _ => []) R Hr).
Qed.
End conversation.

(** ** Contracts *)

(** The kernel reports only descriptors it watches; a stream that has ended has no
    more bytes, and the connection is then no longer in [kConnected]; no
    connection sends 2^60 bytes. *)
Definition app_event_ok (e : net_event) (gw : Site * W) : Prop :=
  let '(g, w) := gw in
  match e with
  | NAccept peer fd ptr answer => site_event_ok (GAccept peer fd ptr false answer no_acts) g
  | NRun _ => True
  | NReady k revents rd =>
      exists c o, conns (srv g) !! k = Some c /\ objs g !! k = Some o /\ cphase c <> Posted /\ cphase c <> Destroyed /\
        is_Some (kernel_ (pollers g !!! io_loop c) !! fd_ (channel_ o)) /\ revents_ok revents /\ read_ok rd o /\
        (calls revents rd = true -> state_ o = kConnected) /\
        forall acts w', on_ready w o revents rd = Some (acts, w') -> len (accepted_ o) + 2 * total_send acts < 2 ^ 60
  end.

Fixpoint app_events_ok (es : list net_event) (gw : Site * W) : Prop :=
  match es with
  | [] => True
  | e :: es => app_event_ok e gw /\ match app_step e gw with Some gw' => app_events_ok es gw' | None => True end
  end.

(** ** One connection *)

(** Connection [c] is where the conversation [ch] has got to. *)
Record talk (ch : chat) (c : TcpConnection) : Prop := {
  tk_input : contents (inputBuffer_ c) = ch_partial ch;
  tk_out : accepted_ c = ch_out ch \/ broken_ c = true;
  tk_pending : pending_ c = [];
  tk_cb : writeCb_ c = false;
  tk_down : state_ c = kDisconnected -> ch_hung ch = false -> contents (outputBuffer_ c) = []
}.

Lemma close_talk acts ch c c' :
  handleClose (message_acts acts) c = Some c' -> talk ch c -> ch_hung ch = true \/ contents (outputBuffer_ c) = [] -> talk ch c'.
Proof.
  unfold handleClose. case_guard; cbn [mbind option_bind]; [|done]. cbn. intros [= <-] [] Hf. split; cbn; try done.
  intros _ Hh. destruct Hf; congruence.
Qed.

Lemma write_talk acts ch c c' : conn_inv c -> handleWrite (message_acts acts) c = Some c' -> talk ch c -> talk ch c'.
Proof.
  intros I E T. pose proof (wanted_writing c I) as Hw. unfold handleWrite in E.
  destruct (isWriting (channel_ c)); [|by injection E as <-]. symmetry in Hw. rewrite !andb_true_iff, !negb_true_iff, !bool_decide_eq_false in Hw.
  destruct Hw as [[_ Hs] _]. destruct (socket_write (contents (outputBuffer_ c)) c) as [rw c1] eqn:E1.
  assert (exists n out e, writeCore socket_write (outputBuffer_ c) 0 c = Some (n, out, e, c1)) as (n & out & e & Ew).
  { rewrite writeCore_spec, E1 by apply I. destruct rw; eauto. }
  rewrite Ew in E. cbn [mbind option_bind] in E. injection E1 as _ <-.
  destruct T as [T1 T2 T3 T4 T5]. destruct (0 <? n); [|injection E as <-; by split].
  destruct (_ =? 0); [|injection E as <-; by split]. cbn in E. rewrite T4 in E. cbn in E. injection E as <-.
  case_bool_decide; [|by split]. unfold shutdownInLoop. destruct (negb _); by split.
Qed.

(** Nothing was read, or the end of the stream. *)
Lemma read_quiet rd acts ch c c' :
  conn_inv c -> read_ok rd c -> got rd = [] -> handleRead rd (message_acts acts) c = Some c' -> talk ch c -> talk ch c'.
Proof.
  intros I Hrd Hg E T. unfold handleRead in E. pose proof (readCore_spec (inputBuffer_ c) rd 0 (ci_in _ I)) as R.
  destruct rd as [e|data]; cbn [got] in *.
  { rewrite R in E. cbn in E. injection E as <-. by destruct T. }
  subst data. destruct Hrd as [Hcap Hsz]. destruct (R Hcap Hsz) as (b & Eb & Hb & Cb). rewrite Eb in E. cbn [mbind option_bind] in E.
  rewrite app_nil_r in Cb. cbn in E. assert (talk ch (set_input b c)) as Tb by (destruct T; split; try done; by rewrite <- Cb in *).
  destruct (0 <? readableBytes _) eqn:Er; [injection E as <-; by destruct Tb|].
  apply (close_talk acts ch (set_input b c)); [done|done|right]. apply Z.ltb_ge in Er. rewrite readable_contents in Er by apply I.
  cbn in *. destruct (contents (outputBuffer_ c)) as [|y l]; [done|]. rewrite len_cons in Er. pose proof (len_nonneg l). lia.
Qed.

(** The callback finds what was left followed by what was read, and returns. *)
Lemma on_ready_returns revents rd c ch w ch' w' :
  buffer_wf (inputBuffer_ c) -> read_ok rd c -> talk ch c -> chat_step revents rd (ch, w) (ch', w') ->
  exists acts, on_ready w c revents rd = Some (acts, w') /\
    match calls revents rd with
    | false => acts = [] /\ ch' = mkChat (ch_partial ch) (ch_out ch) (ch_hung ch || hangs revents)
    | true => exists b rest, readCore (inputBuffer_ c) rd 0 = Some (len (got rd), b, 0) /\ buffer_wf b /\
        forallb mild acts = true /\ drop (takes acts) (contents b) = rest /\
        ch' = mkChat rest (ch_out ch ++ sends acts) (ch_hung ch || hangs revents)
    end.
Proof.
  intros Hb Hrd T St. unfold on_ready. inversion St as [p r hung w0 Hc|p r hung w0 out rest w1 Hc Ha]; subst; rewrite Hc; [by eexists|].
  unfold calls in Hc. apply andb_prop in Hc as [_ Hg%Z.ltb_lt]. pose proof (readCore_spec (inputBuffer_ c) rd 0 Hb) as R.
  destruct rd as [e|data]; cbn [got] in *; [by change (0 < 0) in Hg|]. destruct Hrd as [Hcap Hsz].
  destruct (R Hcap Hsz) as (b & Eb & Hb' & Cb). unfold input_after. rewrite Eb. cbn [mbind option_bind].
  rewrite (tk_input _ _ T) in Cb. cbn [ch_partial] in Cb. rewrite <- Cb in Ha.
  destruct (app_acts_correct b w out rest w' Hb') as (acts & Ea & Hm & <- & Hr); [|done|].
  - rewrite Cb. intros [_ ->]%app_nil. by change (0 < 0) in Hg.
  - exists acts. split; [exact Ea|]. by exists b, rest.
Qed.

Lemma message_total acts : user_total (message_acts acts) = total_send acts.
Proof. unfold user_total. cbn [message_acts]. change (total_send []) with 0. lia. Qed.

(** One event of an established connection is one step of its conversation. *)
Lemma ready_talk revents rd acts ch w ch' w' c c' :
  conn_live c -> on_ready w c revents rd = Some (acts, w') -> conn_event_ok (Ready revents rd (message_acts acts)) c ->
  (calls revents rd = true -> state_ c = kConnected) ->
  conn_step (Ready revents rd (message_acts acts)) c = Some c' -> talk ch c -> chat_step revents rd (ch, w) (ch', w') -> talk ch' c'.
Proof.
  intros [I U _ _] Hon (_ & Hre & Hrd & Hl) Hst E T St. cbn [conn_step] in E.
  destruct (on_ready_returns revents rd c ch w ch' w' (ci_in _ I) Hrd T St) as (acts' & Hon' & Hch).
  rewrite Hon in Hon'. injection Hon' as <-.
  destruct (conn_handleEvent_steps revents rd _ c I U Hre Hrd Hl) as (s2 & s3 & s4 & E2 & E3 & Hs & E4 & Ef & I2 & I3 & I4 & _).
  rewrite E in Ef. injection Ef as ->. set (s1 := set_channel _ c) in *. fold (hangs revents) in E2. fold (reading revents) in E3, Hs.
  assert (conn_inv s1) as I1 by (apply (inv_eventHandling (set_channel (setRevents (channel_ c) revents) c)), inv_set_channel; [done|apply I|done..]).
  set (ch1 := mkChat (ch_partial ch) (ch_out ch) (ch_hung ch || hangs revents)) in *.
  assert (talk ch1 s1) as T1.
  { destruct T. split; try done. cbn. intros ? [??]%orb_false_elim. auto. }
  assert (talk ch1 s2) as T2.
  { destruct (hangs revents) eqn:Hh; [|by injection E2 as <-]. eapply close_talk; [exact E2|done|]. left. cbn. apply orb_true_r. }
  assert (talk ch' s3) as T3.
  { unfold calls in Hch, Hst. destruct (reading revents); [|destruct Hch as [_ ->]; by injection E3 as <-]. rewrite (Hs eq_refl) in *. cbn [andb] in *.
    destruct (0 <? len (got rd)) eqn:Hg.
    - destruct Hch as (b & rest & Eb & Hb & Hm & Hr & ->). unfold handleRead in E3. change (inputBuffer_ s1) with (inputBuffer_ c) in E3.
      rewrite Eb in E3. cbn [mbind option_bind] in E3. rewrite Hg in E3. cbn [message_acts] in E3. rewrite message_total in Hl.
      destruct (perform_mild acts (set_input b s1)) as (c2 & Ep & [_ Ds Di _ Do Db Dp Dc]); [destruct I1; by split|exact (Hst eq_refl)|apply T1|done| |].
      { rewrite <- total_sends. pose proof (total_send_nonneg acts). change (accepted_ (set_input b s1)) with (accepted_ c). lia. }
      rewrite E3 in Ep. injection Ep as <-. destruct T1 as [_ T1 T1p T1c _]. split; cbn in *.
      + by rewrite Di.
      + destruct T1 as [T1|T1]; [rewrite <- T1; by destruct Do; auto|auto].
      + by rewrite Dp.
      + done.
      + congruence.
    - destruct Hch as [_ ->]. apply (read_quiet rd acts ch1 s1); try done. apply Z.ltb_ge in Hg. destruct (got rd) as [|x l]; [done|].
      rewrite len_cons in Hg. pose proof (len_nonneg l). lia. }
  assert (talk ch' s4) as T4.
  { destruct (has_bits revents EPOLLOUT); [|by injection E4 as <-]. by apply (write_talk acts _ s3 s4). }
  by destruct T4.
Qed.

(** ** The server *)

Definition app_inv (g : Site) (hs : list chat) : Prop :=
  length hs = length (objs g) /\
  forall k o ch, objs g !! k = Some o -> hs !! k = Some ch -> talk ch o /\ accepted_ o = wire_ o ++ contents (outputBuffer_ o).

Lemma app_inv_insert g g' hs k o o' ch' :
  app_inv g hs -> objs g !! k = Some o -> objs g' = <[k := o']> (objs g) ->
  talk ch' o' /\ accepted_ o' = wire_ o' ++ contents (outputBuffer_ o') -> app_inv g' (<[k := ch']> hs).
Proof.
  intros [Hl Hi] Ho Eo Ht. split; [by rewrite Eo, !length_insert|]. intros k1 o1 ch1 H1 H2. rewrite Eo in H1.
  destruct (insert_other _ _ _ _ _ _ Ho H1) as [[-> ->]|[Hne H1']].
  - rewrite list_lookup_insert_eq in H2 by (rewrite Hl; by eapply lookup_lt_Some). by injection H2 as <-.
  - rewrite list_lookup_insert_ne in H2 by done. by eauto.
Qed.

Lemma app_accept g g' hs peer fd ptr answer :
  site_inv g -> app_inv g hs -> site_step (GAccept peer fd ptr false answer no_acts) g = Some g' ->
  app_inv g' (hs ++ [mkChat [] [] false]).
Proof.
  intros I [Hl Hi] E. pose proof (site_step_objs _ _ _ I E) as Eo. cbn in Eo. split; [rewrite Eo, !length_app; cbn; lia|].
  intros k o ch H1 H2. rewrite Eo in H1. apply lookup_app_Some in H1 as [H1|[Hk H1]], H2 as [H2|[Hk' H2]]; [by eauto|..].
  - apply lookup_lt_Some in H1. lia.
  - apply lookup_lt_Some in H2. lia.
  - apply list_lookup_singleton_Some in H1 as [_ <-], H2 as [_ <-]. split; [split|]; try done. by left.
Qed.

Lemma app_functor g g' hs i : site_inv g -> app_inv g hs -> site_step (GRun i no_acts) g = Some g' -> app_inv g' hs.
Proof.
  intros I J E. destruct (site_step_objs _ _ _ I E) as [Eo|(k & p & o & o' & Ho & Eo & Hs)]; [by destruct J; split; rewrite Eo|].
  destruct (lookup_lt_is_Some_2 hs k) as [ch Hh]; [rewrite (proj1 J); by eapply lookup_lt_Some|].
  rewrite <- (list_insert_id hs k ch Hh). apply (app_inv_insert g g' hs k o o' ch J Ho Eo).
  destruct (proj2 J k o ch Ho Hh) as [[T1 T2 T3 T4 T5] Hst]. destruct Hs as [Hs|[Hd Hs]].
  - unfold TcpConnection.connectEstablished in Hs. case_guard; cbn [mbind option_bind] in Hs; [|done]. cbn in Hs. injection Hs as <-.
    split; [by split|done].
  - unfold TcpConnection.connectDestroyed in Hs. rewrite bool_decide_false in Hs by (cbn; congruence). cbn [mbind option_bind] in Hs.
    destruct (chan_remove _ _) as [pc|]; cbn in Hs; [|done]. injection Hs as <-. split; [by split|done].
Qed.

(** The kernel watches the descriptors of established connections only. *)
Lemma watched_open ph p o :
  fits ph p o -> ph <> Posted -> ph <> Destroyed -> is_Some (kernel_ p !! fd_ (channel_ o)) -> ph = Open.
Proof.
  intros Hf Hp Hd Hk. change (is_Some (kernel_ (poller_ (load p o)) !! fd_ (channel_ (load p o)))) in Hk.
  destruct ph; try done; destruct Hf as [J Hs _ _ _];
    (rewrite (ci_idle _ J) in Hk by (unfold up; rewrite Hs; by intros [|])); by destruct Hk.
Qed.

Lemma app_ready g hs w k revents rd ch ch' w' :
  site_inv g -> app_inv g hs -> app_event_ok (NReady k revents rd) (g, w) -> len (conns (srv g)) + 1 < INT_MAX ->
  hs !! k = Some ch -> chat_step revents rd (ch, w) (ch', w') ->
  exists g', app_step (NReady k revents rd) (g, w) = Some (g', w') /\ site_inv g' /\
    len (conns (srv g')) <= len (conns (srv g)) + 1 /\ app_inv g' (<[k := ch']> hs).
Proof.
  intros I J (c & o & Hc & Ho & Hnp & Hnd & Hk & Hre & Hrd & Hst & Hlen) Hm Hh St.
  pose proof (pl_fits (gi_placed g I) k c o Hc Ho) as Hf. pose proof (watched_open _ _ _ Hf Hnp Hnd Hk) as Hp.
  rewrite Hp in Hf. cbn [fits] in Hf. destruct (proj2 J k o ch Ho Hh) as [T Hs].
  destruct (on_ready_returns revents rd o ch w ch' w' (ci_in _ (li_inv _ Hf)) Hrd T St) as (acts & Hon & _).
  assert (conn_event_ok (Ready revents rd (message_acts acts)) (load (pollers g !!! io_loop c) o)) as Hok.
  { split_and!; try done. rewrite message_total. by apply (Hlen acts w'). }
  destruct (site_step_ok g (GConn k (Ready revents rd (message_acts acts))) I) as (g' & E & I' & Hl); [by exists c, o|lia|].
  exists g'. cbn [app_step]. rewrite Ho. cbn [mbind option_bind]. rewrite Hon. cbn [mbind option_bind]. rewrite E. do 3 (split; [done|]).
  destruct (site_step_objs _ _ _ I E) as (c1 & o1 & o' & Hc1 & Ho1 & Es & Eo). rewrite Hc in Hc1. injection Hc1 as <-.
  rewrite Ho in Ho1. injection Ho1 as <-. apply (app_inv_insert g g' hs k o o' ch' J Ho Eo). split.
  - eapply ready_talk; [exact Hf|exact Hon|exact Hok|exact Hst|exact Es|by destruct T|exact St].
  - destruct (live_step _ _ Hf Hok Logic.I) as (o2 & Es' & Hcase). rewrite Es in Es'. injection Es' as <-.
    apply ci_stream. by destruct Hcase as [[_ []]|(_ & ? & _)].
Qed.

Lemma app_step_ok e g hs w hs' w' :
  site_inv g -> app_inv g hs -> app_event_ok e (g, w) -> len (conns (srv g)) + 1 < INT_MAX -> spec_step e (hs, w) (hs', w') ->
  exists g', app_step e (g, w) = Some (g', w') /\ site_inv g' /\ len (conns (srv g')) <= len (conns (srv g)) + 1 /\ app_inv g' hs'.
Proof.
  intros I J Hok Hm St. inversion St as [peer fd ptr answer hs0 w0|i hs0 w0|k revents rd hs0 w0 ch ch' w1 Hh Hc]; subst.
  - destruct (site_step_ok g (GAccept peer fd ptr false answer no_acts) I Hok) as (g' & E & I' & Hl); [lia|].
    exists g'. cbn [app_step]. rewrite E. do 3 (split; [done|]). by apply (app_accept g g' hs peer fd ptr answer).
  - destruct (site_step_ok g (GRun i no_acts) I) as (g' & E & I' & Hl); [done|lia|].
    exists g'. cbn [app_step]. rewrite E. do 3 (split; [done|]). by apply (app_functor g g' _ i).
  - by apply app_ready with ch.
Qed.

Lemma app_run_ok es g hs w hs' w' :
  spec_run es (hs, w) (hs', w') -> site_inv g -> app_inv g hs -> app_events_ok es (g, w) -> len (conns (srv g)) + len es < INT_MAX ->
  exists g', app_run es (g, w) = Some (g', w') /\ site_inv g' /\ app_inv g' hs'.
Proof.
  revert g hs w. induction es as [|e es IH]; intros g hs w Hr I J Hok Hm; inversion Hr as [|? ? ? [hs1 w1] ? St Hr']; subst; [by exists g|].
  destruct Hok as [He Hes]. rewrite len_cons in Hm. pose proof (len_nonneg es).
  destruct (app_step_ok e g hs w hs1 w1 I J He ltac:(lia) St) as (g1 & E & I1 & Hl & J1). rewrite E in Hes.
  cbn [app_run]. rewrite E. cbn [mbind option_bind]. apply (IH g1 hs1 w1); try done. lia.
Qed.

(** What a connection of the server has done when its conversation is [ch]. *)
Definition serves (g : Site) (k : nat) (ch : chat) : Prop :=
  exists c o, conns (srv g) !! k = Some c /\ objs g !! k = Some o /\ as_promised c (pollers g !!! io_loop c) o /\
    contents (inputBuffer_ o) = ch_partial ch /\
    (broken_ o = true \/
     wire_ o ++ contents (outputBuffer_ o) = ch_out ch /\ (state_ o = kDisconnected -> ch_hung ch = false -> wire_ o = ch_out ch)).

(** An application in a server with worker threads: whatever the interleaving, no
    assertion fails, the application ends in the specified state, and every
    connection has done what its conversation says. *)
Lemma app_session name threads es w hs w' :
  threads <> 0%nat -> len es < INT_MAX -> app_events_ok es (Site_new name threads, w) -> spec_run es ([], w) (hs, w') ->
  exists g, app_run es (Site_new name threads, w) = Some (g, w') /\ length (objs g) = length hs /\
    forall k ch, hs !! k = Some ch -> serves g k ch.
Proof.
  intros Ht Hl Hok Hr. destruct (app_run_ok es (Site_new name threads) [] w hs w' Hr) as (g & E & I & Hlen & Hi);
    [by apply inv_site_new|by split|done|done|]. exists g. split_and!; [done|done|]. intros k ch Hh.
  destruct (lookup_lt_is_Some_2 (objs g) k) as [o Ho]; [rewrite <- Hlen; by eapply lookup_lt_Some|].
  destruct (lookup_lt_is_Some_2 (conns (srv g)) k) as [c Hc]; [rewrite <- (pl_objs (gi_placed g I)); by eapply lookup_lt_Some|].
  exists c, o. destruct (Hi k o ch Ho Hh) as [[Ti Ho' _ _ Hd] Hs]. split_and!; [done|done|by apply (inv_promised g k)|done|].
  destruct Ho' as [Ha|?]; [right|by left]. rewrite <- Hs. split; [done|]. intros Hdn Hhu. by rewrite <- Ha, Hs, (Hd Hdn Hhu), app_nil_r.
Qed.

(** The contracts as a test, for the kernel of the samples. *)
Definition net_okb (e : net_event) (gw : Site * W) : bool :=
  let '(g, w) := gw in
  match e with
  | NAccept peer fd ptr answer => event_okb (GAccept peer fd ptr false answer no_acts) g
  | NRun _ => true
  | NReady k revents rd =>
      match objs g !! k with
      | Some o =>
          (negb (calls revents rd) || bool_decide (state_ o = kConnected)) &&
          match on_ready w o revents rd with
          | Some (acts, _) => event_okb (GConn k (Ready revents rd (message_acts acts))) g
          | None => false
          end
      | None => false
      end
  end.

Fixpoint nets_okb (es : list net_event) (gw : Site * W) : bool :=
  match es with
  | [] => true
  | e :: es => net_okb e gw && match app_step e gw with Some gw' => nets_okb es gw' | None => true end
  end.

Lemma nets_okb_ok es gw :
  Forall (fun e => if e is NAccept _ _ _ answer then answer = two_bytes_kernel else True) es -> nets_okb es gw = true -> app_events_ok es gw.
Proof.
  intros Hf. revert gw. induction Hf as [|e es He _ IH]; intros [g w]; cbn [nets_okb app_events_ok]; [done|]. intros [Hb Hbs]%andb_prop.
  split; [|destruct (app_step e (g, w)); [by apply IH|done]]. destruct e as [peer fd ptr answer|i|k revents rd]; cbn [net_okb] in Hb.
  - by apply event_okb_ok.
  - done.
  - destruct (objs g !! k) as [o|] eqn:Ho; [|done]. apply andb_prop in Hb as [Hc Hb].
    destruct (on_ready w o revents rd) as [[acts w']|] eqn:Hon; [|done].
    apply event_okb_ok in Hb as (c & o1 & Hco & Ho1 & Hnp & (Hk & Hre & Hrd & Hl) & Hnd); [|done].
    rewrite Ho in Ho1. injection Ho1 as <-. exists c, o. split_and!; try done.
    + intros Hca. rewrite Hca in Hc. by apply bool_decide_eq_true in Hc.
    + intros acts1 w1 E. rewrite Hon in E. injection E as <- _. by rewrite message_total in Hl.
Qed.
End app.
