(* ===== verification/RpcSession.v ===== *)
(** * RpcSession: the RPC server on its connections

    [rpc/src/rpc_server.cpp] in a [TcpServer] with worker threads: the message
    callback runs on what [TcpConnection::handleRead] has put into the input buffer
    of each connection, and the handlers share the application state.  A callback
    is one step, so that handlers called from several loops have to exclude each
    other, as [rpc/include/rpc/rpc_server.h] asks of them. *)
From S2P Require Import Prelude Protocol Buffer FrameReader Codec ServiceRegistry Transport RpcServer InetAddress.
From S2P Require Import Channel TcpServer TcpConnection TcpCallback ConnFrame ServerSession AppSession.

(** ** The message callback follows *)

Section follows.
Context {W : Type} (s : RpcServer W) (c0 : TcpConnection).
Implicit Types (c : TcpConnection) (t : Trace).

Lemma sim_sendResponse c t id r : follows c0 t c -> sim (along c0) (sendResponse c id r) (sendResponse t id r).
Proof. intros Hf. unfold sendResponse. destruct (RawCodec.encodeResponse _ _) as [[] [body|]]; auto with sim. Qed.

Lemma sim_rejectAndClose c t id st : follows c0 t c -> sim (along c0) (rejectAndClose c id st) (rejectAndClose t id st).
Proof. intros Hf. eapply sim_bind; [by apply sim_sendResponse|]. intros c1 t1 Hf1. by apply sim_shutdown. Qed.

#[local] Hint Resolve sim_sendResponse sim_rejectAndClose : sim.

Lemma sim_handleRequest c t h body w : follows c0 t c -> sim (along_with c0) (handleRequest s c h body w) (handleRequest s t h body w).
Proof.
  intros Hf. unfold handleRequest. apply sim_same. intros [[] req]; cbn [negb].
  - apply sim_same. intros r. destruct (dispatch _ _ _ _) as [[o resp] w1]. apply sim_same. intros r1.
    eapply sim_bind; [by auto with sim|]. intros c1 t1 Hf1. by apply sim_ret.
  - eapply sim_bind; [by auto with sim|]. intros c1 t1 Hf1. by apply sim_ret.
Qed.

Lemma sim_onFrame c t h body w : follows c0 t c -> sim (along_with2 c0) (onFrame s c h body w) (onFrame s t h body w).
Proof.
  intros Hf. unfold onFrame. repeat case_match.
  1-4: eapply sim_bind; [by auto with sim|]; intros c1 t1 Hf1; by apply sim_ret.
  eapply sim_bind; [by apply sim_handleRequest|]. intros [c1 w1] [t1 w2] [Hf1 Hw]. by apply sim_ret.
Qed.

Lemma sim_onIncomplete c t buf : follows c0 t c -> sim (along c0) (onIncomplete s c buf) (onIncomplete s t buf).
Proof. intros Hf. unfold onIncomplete. destruct (_ <? _); [by apply sim_forceClose|by apply sim_ret]. Qed.

Lemma sim_onProtocolError c t buf : follows c0 t c -> sim (along c0) (onProtocolError c buf) (onProtocolError t buf).
Proof.
  intros Hf. unfold onProtocolError. destruct (_ <? _); [auto with sim|]. apply sim_same. intros [[] h]; [|auto with sim].
  apply sim_same. auto with sim.
Qed.

Lemma sim_loop fuel : forall c t buf w, follows c0 t c -> sim (along_with2 c0) (onMessage_loop fuel s c buf w) (onMessage_loop fuel s t buf w).
Proof.
  induction fuel as [|fuel IH]; intros c t buf w Hf; cbn [onMessage_loop]; [done|].
  apply sim_same. intros [result [[buf' h] body]]. destruct result.
  - do 3 (apply sim_same; intros ?). eapply sim_bind; [by apply sim_onFrame|].
    intros [[c1 w1] k] [[t1 w2] k2] [[Hf1 Hw] Hk]. cbn in *. subst. destruct k2; [by apply IH|by apply sim_ret].
  - apply sim_same. intros b. eapply sim_bind; [by apply sim_onIncomplete|]. intros c1 t1 Hf1. by apply sim_ret.
  - apply sim_same. intros b. eapply sim_bind; [by apply sim_onProtocolError|]. intros c1 t1 Hf1. by apply sim_ret.
Qed.
End follows.

(** It takes frames from the buffer by [retrieve]. *)
Lemma parse_retreat fr b result b' h body :
  parse fr (Some b) (Some zeroHeader) (Some []) = Some (result, (Some b', h, body)) -> retreat b b'.
Proof.
  unfold parse. destruct (_ <? _); [intros [= _ <-]; auto|]. intros ([ok cand] & _ & E)%bind_Some. destruct (negb ok); [injection E as _ <-; auto|].
  apply bind_Some in E as (h1 & _ & E). destruct (_ <? _); [injection E as _ <-; auto|]. destruct (_ <? _); [injection E as _ <-; auto|].
  apply bind_Some in E as (body1 & _ & [= _ <-]). eapply retreat_step; [|done]. apply Z.mod_pos_bound. lia.
Qed.

Lemma retreat_trans b1 b2 b3 : retreat b1 b2 -> retreat b2 b3 -> retreat b1 b3.
Proof. induction 1; [done|]. intros. eapply retreat_step; [done|auto]. Qed.

Lemma loop_retreat {T W} `{TransportOps T} (s : RpcServer W) fuel : forall (conn : T) buf w conn' buf' w',
  onMessage_loop fuel s conn buf w = Some (conn', buf', w') -> retreat buf buf'.
Proof.
  induction fuel as [|fuel IH]; intros conn buf w conn' buf' w' E; cbn [onMessage_loop] in E; [done|].
  apply bind_Some in E as ([result [[b h] body]] & Ep & E). destruct result; apply bind_Some in E as (b1 & -> & E); apply parse_retreat in Ep.
  - apply bind_Some in E as (h1 & _ & E). apply bind_Some in E as (body1 & _ & E). apply bind_Some in E as ([[c1 w1] []] & _ & E).
    + eapply retreat_trans; [done|]. by eapply IH.
    + by injection E as _ <- _.
  - apply bind_Some in E as (c1 & _ & [= _ <- _]). done.
  - apply bind_Some in E as (c1 & _ & [= _ <- _]). done.
Qed.

(** ** The server *)

Section service.
Context {W : Type} (s : RpcServer W).
Hypothesis wf : server_wf s.
Hypothesis limits : limit_ok s.

(** The callback's specification: the complete frames at the front of the unread
    bytes, requests with a nonzero id and a zero status byte, are answered in order,
    and the incomplete one behind them stays. *)
Definition rpc_answers (w : W) (unread out rest : bytes) (w' : W) : Prop :=
  exists fs replies, stream_all (frameReader_ s) unread = (fs, EndNeedMore rest) /\ Forall conforming fs /\ answer_all s w fs = Some (replies, w') /\
    out = concat replies /\ Z.of_nat (length fs) * reply_max < stream_max.

Definition rpc_app : App W.
Proof.
  refine {| app_callback T _ conn buf w := srv_onMessage s conn buf w; app_answers := rpc_answers |}.
  - intros c0 t c b w c' b' w' Hf E. destruct (sim_loop s c0 _ c t b w Hf _ E) as ([[t' b2] w2] & Et & [[Hf' Hb] Hw]).
    cbn in *. subst. eauto.
  - intros t b w t' b' w' E. by apply loop_retreat in E.
  - intros b w out rest w' Hb (fs & replies & Hst & _ & Ha & -> & Hroom).
    destruct (onMessage_answers s trace_new w b fs rest replies w') as (t & b' & E & X & _ & _ & Cb & _); try done. by exists t, b'.
Defined.

(** [reply] answers the frame, in whatever state the application was. *)
Definition answered (f : frame) (reply : bytes) : Prop := exists w r w', answer s w f = Some (r, w') /\ reply = respond f.1 r.

Lemma answer_all_answered fs : forall w replies w', answer_all s w fs = Some (replies, w') -> Forall2 answered fs replies.
Proof.
  induction fs as [|f fs IH]; intros w replies w' E; cbn [answer_all] in E; [by injection E as <- _|].
  apply bind_Some in E as ([r w1] & E1 & E). apply bind_Some in E as ([rs w2] & E2 & [= <- <-]). constructor; [by exists w, r, w1|by eapply IH].
Qed.

(** All a connection has read, and all it was sent. *)
Definition dialogue (all rest out : bytes) : Prop :=
  exists fs replies, stream_all (frameReader_ s) all = (fs, EndNeedMore rest) /\ Forall conforming fs /\ Forall2 answered fs replies /\ out = concat replies.

Lemma dialogue_answer all p r w data out rest w' :
  dialogue all p r -> rpc_answers w (p ++ data) out rest w' -> dialogue (all ++ data) rest (r ++ out).
Proof.
  intros (fs & rs & Hst & Hf & Hrs & ->) (fs' & rs' & Hst' & Hf' & Ha & -> & _). exists (fs ++ fs'), (rs ++ rs').
  pose proof (stream_all_app (frameReader_ s) all data) as Happ. rewrite Hst, Hst' in Happ. split; [exact Happ|].
  split; [by apply Forall_app|]. split; [apply Forall2_app; [done|by eapply answer_all_answered]|by rewrite concat_app].
Qed.
End service.

(** C1: The RPC server and its connections.  In a server with worker threads,
    clients connect, send requests (each with a nonzero id and a zero status byte)
    cut into reads at will, stop sending or vanish, and the kernel takes the output
    in pieces of its choice: in every interleaving with the functors of all loops the
    run completes with no assertion failing, and the handlers run once per request in
    the order in which the requests became complete.  On each connection what the kernel took followed by what is still
    queued is one response frame per request among the bytes it has read, in order,
    unless a write has found the peer gone; the incomplete rest stays in the input
    buffer; and a connection that goes down because its stream ended, and not by a
    hang-up, has written all of it. *)
Theorem rpc_service {W} (s : RpcServer W) (wf : server_wf s) (limits : limit_ok s) name threads es w hs w' :
  let _ := rpc_app s wf limits in
  threads <> 0%nat -> len es < INT_MAX -> app_events_ok es (Site_new name threads, w) -> spec_run es ([], w) (hs, w') ->
  exists g, app_run es (Site_new name threads, w) = Some (g, w') /\ length (objs g) = length hs /\
    forall k ch, hs !! k = Some ch -> serves g k ch /\ dialogue s (heard es k) (ch_partial ch) (ch_out ch).
Proof.
  intros A Ht Hl Hok Hr. destruct (app_session name threads es w hs w' Ht Hl Hok Hr) as (g & E & Hlen & Hs). exists g.
  split_and!; [done|done|]. intros k ch Hk. split; [by apply Hs|]. apply (spec_related (dialogue s)) with w hs w'; [|apply dialogue_answer|done|done].
  by exists [], [].
Qed.

(** ** A sample: two clients of a counting echo service on one worker thread, whose
    kernel takes two bytes per write; the first sends its request in two pieces. *)

Definition sample_frame (id : Z) : bytes := frame_bytes (Sample.request id [x2a]).
Definition sample_reply (id : Z) : bytes := respond (Sample.request id [x2a]).1 (mkResponse 0 [x2a] 0).

Definition sample_events : list net_event :=
  [NAccept (mkInetAddress 2130706433 5000) 7 1 two_bytes_kernel; NAccept (mkInetAddress 2130706433 5001) 8 2 two_bytes_kernel;
   NRun 1; NRun 1; NReady 0 EPOLLIN (IoOk (take 20 (sample_frame 1))); NReady 1 EPOLLIN (IoOk (sample_frame 2 ++ sample_frame 3 ++ [x52]));
   NReady 0 EPOLLIN (IoOk (drop 20 (sample_frame 1))); NReady 0 EPOLLOUT (IoErr 0)].

Definition sample_chats : list chat :=
  [mkChat [] (sample_reply 1) false; mkChat [x52] (sample_reply 2 ++ sample_reply 3) false].

Lemma sample_wf : server_wf Sample.server.
Proof. by vm_compute. Qed.

Lemma sample_limits : limit_ok Sample.server.
Proof. by left. Qed.

Lemma sample_ok :
  let _ := rpc_app Sample.server sample_wf sample_limits in app_events_ok sample_events (Site_new (str "RpcServer") 1, 0).
Proof. intros A. apply nets_okb_ok; [by repeat constructor|vm_compute; reflexivity]. Qed.

Lemma sample_spec :
  let _ := rpc_app Sample.server sample_wf sample_limits in spec_run sample_events ([], 0) (sample_chats, 3).
Proof.
  intros A. do 4 (eapply spec_next; [constructor|]).
  eapply spec_next; [eapply spec_ready; [done|apply (chat_read _ _ [] [] _ _ [] (take 20 (sample_frame 1)) 0); [done|]]|].
  { exists [], []. split; [by vm_compute|split; [by repeat constructor|by vm_compute]]. }
  eapply spec_next; [eapply spec_ready; [done|apply (chat_read _ _ [] [] _ _ (sample_reply 2 ++ sample_reply 3) [x52] 2); [done|]]|].
  { exists [Sample.request 2 [x2a]; Sample.request 3 [x2a]], [sample_reply 2; sample_reply 3]. split; [by vm_compute|split; [by repeat constructor|by vm_compute]]. }
  eapply spec_next; [eapply spec_ready; [done|apply (chat_read _ _ (take 20 (sample_frame 1)) [] _ _ (sample_reply 1) [] 3); [done|]]|].
  { exists [Sample.request 1 [x2a]], [sample_reply 1]. split; [by vm_compute|split; [by repeat constructor|by vm_compute]]. }
  eapply spec_next; [eapply spec_ready; [done|by apply chat_quiet]|]. apply spec_done.
Qed.

Lemma rpc_service_witness :
  let _ := rpc_app Sample.server sample_wf sample_limits in
  exists g, app_run sample_events (Site_new (str "RpcServer") 1, 0) = Some (g, 3) /\ length (objs g) = 2%nat /\
    forall k ch, sample_chats !! k = Some ch -> serves g k ch /\ dialogue Sample.server (heard sample_events k) (ch_partial ch) (ch_out ch).
Proof.
  intros A. apply (rpc_service Sample.server sample_wf sample_limits (str "RpcServer") 1 sample_events 0 sample_chats 3);
    [done|by vm_compute|exact sample_ok|exact sample_spec].
Defined.
