(* ===== verification/Connector.v ===== *)
(** * Connector: one non-blocking connection attempt at a time

    [include/Connector.h] and [src/Connector.cpp], on the loop thread, with the
    kernel's sockets: each open socket has a status that [SO_ERROR] and
    [getpeername] report.  What the two user callbacks do on the connector is a
    tree of calls, so a callback may retry, stop or destroy it while the code
    that invoked it is still running. *)
From S2P Require Import Prelude.

Inductive StateE := kDisconnected | kConnecting | kConnected | kFailed.

#[global] Instance StateE_eq_dec : EqDecision StateE.
Proof. solve_decision. Defined.

(** A socket: the handshake is going on, is complete ([self] when the socket is
    connected to itself), or has failed with a pending error. *)
Inductive sockstat := SInProgress | SConnected (self : bool) | SFailed (err : Z).

#[global] Instance sockstat_eq_dec : EqDecision sockstat.
Proof. solve_decision. Defined.

Definition ECONNREFUSED : Z := 111.
Definition ETIMEDOUT : Z := 110.
Definition ECONNABORTED : Z := 103.
Definition EISCONN : Z := 106.
Definition EINPROGRESS : Z := 115.
Definition EINTR : Z := 4.
Definition EBADF : Z := 9.

(** A call a callback makes.  [AStart] carries what the kernel answers if the
    call starts an attempt ([socket]: a descriptor or an errno; [connect]: 0 or
    an errno, and whether the socket is connected to itself) and what the error
    callback does if that fails at once. *)
Inductive cact :=
| AStart (socket : Z + Z) (err : Z) (self : bool) (on_error : list cact)
| AStop
| ADestroy.

(** The object, and what it holds in the kernel and the loop: the open sockets,
    the registered channels, the armed timers.  [attempts] counts the attempts
    begun, [stops] those cancelled; [delivered] and [errors] are the arguments
    of the two callbacks so far. *)
Record Connector := mkConnector {
  state_ : StateE;
  channel_ : option Z;
  sockfd_ : Z;
  timeoutId_ : option Z;
  deadline : bool;                 (* [timeoutSeconds_ > 0.0] *)
  alive : bool;
  sockets : gmap Z sockstat;
  registered : gset Z;
  armed : gset Z;
  nextTimer : Z;
  attempts : nat;
  stops : nat;
  delivered : list (Z * sockstat);
  errors : list Z
}.

Definition Connector_new (deadline : bool) : Connector :=
  mkConnector kDisconnected None (-1) None deadline true ∅ ∅ ∅ 0 0 0 [] [].

Definition set_state (s : StateE) (c : Connector) : Connector :=
  mkConnector s (channel_ c) (sockfd_ c) (timeoutId_ c) (deadline c) (alive c) (sockets c) (registered c) (armed c)
    (nextTimer c) (attempts c) (stops c) (delivered c) (errors c).

Definition set_sockets (m : gmap Z sockstat) (c : Connector) : Connector :=
  mkConnector (state_ c) (channel_ c) (sockfd_ c) (timeoutId_ c) (deadline c) (alive c) m (registered c) (armed c)
    (nextTimer c) (attempts c) (stops c) (delivered c) (errors c).

(** [cancelTimer] on the loop thread: the timer does not fire any more. *)
Definition cancelTimeout (c : Connector) : Connector :=
  match timeoutId_ c with
  | None => c
  | Some id =>
      mkConnector (state_ c) (channel_ c) (sockfd_ c) None (deadline c) (alive c) (sockets c) (registered c) (armed c ∖ {[id]})
        (nextTimer c) (attempts c) (stops c) (delivered c) (errors c)
  end.

(** The channel leaves the poller; the object is freed by a queued task. *)
Definition removeChannel (c : Connector) : Connector :=
  match channel_ c with
  | None => c
  | Some ch =>
      mkConnector (state_ c) None (sockfd_ c) (timeoutId_ c) (deadline c) (alive c) (sockets c) (registered c ∖ {[ch]}) (armed c)
        (nextTimer c) (attempts c) (stops c) (delivered c) (errors c)
  end.

Definition closeSockfd (c : Connector) : Connector :=
  if 0 <=? sockfd_ c then
    mkConnector (state_ c) (channel_ c) (-1) (timeoutId_ c) (deadline c) (alive c) (delete (sockfd_ c) (sockets c)) (registered c) (armed c)
      (nextTimer c) (attempts c) (stops c) (delivered c) (errors c)
  else c.

Definition release (c : Connector) : Connector := closeSockfd (removeChannel (cancelTimeout c)).

(** [getsockopt(SO_ERROR)]: the pending error, which is cleared. *)
Definition getsockopt_error (c : Connector) : Z * Connector :=
  match sockets c !! sockfd_ c with
  | Some (SFailed e) => (e, set_sockets (<[sockfd_ c := SFailed 0]> (sockets c)) c)
  | Some _ => (0, c)
  | None => (EBADF, c)
  end.

(** [getpeername] fails on a socket that is not connected. *)
Definition isSelfConnect (c : Connector) : bool :=
  if sockets c !! sockfd_ c is Some (SConnected self) then self else false.

Definition log_error (e : Z) (c : Connector) : Connector :=
  mkConnector (state_ c) (channel_ c) (sockfd_ c) (timeoutId_ c) (deadline c) (alive c) (sockets c) (registered c) (armed c)
    (nextTimer c) (attempts c) (stops c) (delivered c) (errors c ++ [e]).

(** [fail]; [callback] is what [connectErrorCallback_] does on the connector. *)
Definition fail (callback : Connector -> option Connector) (savedErrno : Z) (c : Connector) : option Connector :=
  callback (log_error savedErrno (release (set_state kFailed c))).

(** The two statements after [connect] on its normal path. *)
Definition watch (c : Connector) : Connector :=
  mkConnector (state_ c) (channel_ c) (sockfd_ c) (if deadline c then Some (nextTimer c) else timeoutId_ c) (deadline c) (alive c)
    (sockets c) (registered c ∪ {[sockfd_ c]}) (if deadline c then armed c ∪ {[nextTimer c]} else armed c)
    (nextTimer c + 1) (attempts c) (stops c) (delivered c) (errors c).

Definition open_socket (sockfd : Z) (st : sockstat) (c : Connector) : Connector :=
  mkConnector (state_ c) (Some sockfd) sockfd (timeoutId_ c) (deadline c) (alive c) (<[sockfd := st]> (sockets c)) (registered c) (armed c)
    (nextTimer c) (attempts c) (stops c) (delivered c) (errors c).

Definition connect (callback : Connector -> option Connector) (socket : Z + Z) (err : Z) (self : bool) (c : Connector) : option Connector :=
  match socket with
  | inr e => fail callback e c
  | inl sockfd =>
      if (err =? 0) || (err =? EINPROGRESS) || (err =? EINTR) || (err =? EISCONN) then
        Some (watch (open_socket sockfd (if (err =? 0) || (err =? EISCONN) then SConnected self else SInProgress) c))
      else fail callback err (open_socket sockfd (SFailed 0) c)
  end.

Definition begin_attempt (c : Connector) : Connector :=
  mkConnector kConnecting (channel_ c) (sockfd_ c) (timeoutId_ c) (deadline c) (alive c) (sockets c) (registered c) (armed c)
    (nextTimer c) (S (attempts c)) (stops c) (delivered c) (errors c).

Definition startInLoop (callback : Connector -> option Connector) (socket : Z + Z) (err : Z) (self : bool) (c : Connector)
  : option Connector :=
  match state_ c with
  | kConnecting | kConnected => Some c
  | kDisconnected | kFailed => connect callback socket err self (begin_attempt c)
  end.

Definition count_stop (c : Connector) : Connector :=
  mkConnector (state_ c) (channel_ c) (sockfd_ c) (timeoutId_ c) (deadline c) (alive c) (sockets c) (registered c) (armed c)
    (nextTimer c) (attempts c) (S (stops c)) (delivered c) (errors c).

Definition stopInLoop (c : Connector) : Connector :=
  match state_ c with
  | kConnecting => count_stop (release (set_state kDisconnected c))
  | kFailed => set_state kDisconnected c
  | _ => c
  end.

(** [~Connector]. *)
Definition destroy (c : Connector) : Connector :=
  let c := release c in
  mkConnector (state_ c) (channel_ c) (sockfd_ c) (timeoutId_ c) (deadline c) false (sockets c) (registered c) (armed c)
    (nextTimer c) (attempts c) (stops c) (delivered c) (errors c).

(** A call on the connector; [None] is a call on a destroyed object. *)
Fixpoint perform (a : cact) (c : Connector) : option Connector :=
  if negb (alive c) then None else
  match a with
  | AStart socket err self on_error =>
      startInLoop ((fix go (l : list cact) (c : Connector) : option Connector :=
        match l with [] => Some c | a :: l => c ← perform a c; go l c end) on_error) socket err self c
  | AStop => Some (stopInLoop c)
  | ADestroy => Some (destroy c)
  end.

Fixpoint perform_all (l : list cact) (c : Connector) : option Connector :=
  match l with
  | [] => Some c
  | a :: l => c ← perform a c; perform_all l c
  end.

Definition deliver (c : Connector) : Connector :=
  mkConnector kConnected (channel_ c) (-1) (timeoutId_ c) (deadline c) (alive c) (delete (sockfd_ c) (sockets c)) (registered c) (armed c)
    (nextTimer c) (attempts c) (stops c) (delivered c ++ [(sockfd_ c, default SInProgress (sockets c !! sockfd_ c))]) (errors c).

(** [finishConnect], with [newConnectionCallback_] set: the descriptor passes to
    the callback, which then does [acts]. *)
Definition finishConnect (acts : list cact) (c : Connector) : option Connector :=
  perform_all acts (deliver (removeChannel (cancelTimeout c))).

Definition handleWrite (acts : list cact) (c : Connector) : option Connector :=
  if negb (alive c) then None else
  if negb (bool_decide (state_ c = kConnecting)) then Some c else
  let '(err, c) := getsockopt_error c in
  if negb (err =? 0) then fail (perform_all acts) err c
  else if isSelfConnect c then fail (perform_all acts) ECONNREFUSED c
  else finishConnect acts c.

Definition handleError (acts : list cact) (c : Connector) : option Connector :=
  if negb (alive c) then None else
  if negb (bool_decide (state_ c = kConnecting)) then Some c else
  let '(err, c) := getsockopt_error c in
  fail (perform_all acts) (if err =? 0 then ECONNABORTED else err) c.

Definition handleTimeout (acts : list cact) (c : Connector) : option Connector :=
  if negb (alive c) then None else
  if bool_decide (state_ c = kConnecting) then fail (perform_all acts) ETIMEDOUT c else Some c.

(** The timer fires: it is not armed any more. *)
Definition fire (id : Z) (c : Connector) : Connector :=
  mkConnector (state_ c) (channel_ c) (sockfd_ c) (timeoutId_ c) (deadline c) (alive c) (sockets c) (registered c) (armed c ∖ {[id]})
    (nextTimer c) (attempts c) (stops c) (delivered c) (errors c).

(** ** Events *)

(** A call from the loop thread; the kernel finishing a handshake; the poller
    reporting the channel of a socket, whose dispatch calls the error callback
    before the write callback; the timer firing. *)
Inductive event :=
| ECall (a : cact)
| EKernel (fd : Z) (st : sockstat)
| EReady (fd : Z) (err out : bool) (acts_error acts_write : list cact)
| ETimer (id : Z) (acts : list cact).

Definition connector_step (c : Connector) (e : event) : option Connector :=
  match e with
  | ECall a => perform a c
  | EKernel fd st => Some (set_sockets (<[fd := st]> (sockets c)) c)
  | EReady fd err out acts_error acts_write =>
      c ← (if err : bool then handleError acts_error c else Some c);
      if out : bool then handleWrite acts_write c else Some c
  | ETimer id acts => handleTimeout acts (fire id c)
  end.

Fixpoint connector_run (c : Connector) (es : list event) : option Connector :=
  match es with
  | [] => Some c
  | e :: es => c ← connector_step c e; connector_run c es
  end.

(** ** Contracts *)

Definition is_destroy (a : cact) : bool := if a is ADestroy then true else false.

(** The kernel's answers: descriptors are not negative, a failing call has an
    errno. *)
Fixpoint kernel_ok (a : cact) : bool :=
  match a with
  | AStart (inl fd) _ _ l => (0 <=? fd) && forallb kernel_ok l
  | AStart (inr e) _ _ l => negb (e =? 0) && forallb kernel_ok l
  | _ => true
  end.

(** No destruction anywhere inside. *)
Fixpoint calm (a : cact) : bool :=
  match a with
  | AStart _ _ _ l => forallb calm l
  | AStop => true
  | ADestroy => false
  end.

Definition no_start (a : cact) : bool := if a is AStart _ _ _ _ then false else true.

(** A callback that touches the connector until it destroys it, if it does. *)
Fixpoint acts_ok (l : list cact) : bool :=
  match l with
  | [] => true
  | [a] => kernel_ok a && (calm a || is_destroy a)
  | a :: l => kernel_ok a && calm a && acts_ok l
  end.

Definition settled (st : sockstat) : bool :=
  match st with SInProgress => false | SConnected _ => true | SFailed e => negb (e =? 0) end.

(** Events the loop and the kernel produce.  The poller reports a registered
    channel of a socket whose handshake is over.  When one dispatch calls both
    callbacks, the error callback must leave the object alive; with [strict] it
    must not start a new attempt either. *)
Definition event_ok (strict : bool) (c : Connector) (e : event) : bool :=
  match e with
  | ECall a => alive c && acts_ok [a]
  | EKernel fd st => bool_decide (sockets c !! fd = Some SInProgress) && settled st
  | EReady fd err out acts_error acts_write =>
      bool_decide (fd ∈ registered c) && default false (settled <$> sockets c !! fd) &&
      acts_ok acts_error && acts_ok acts_write &&
      (negb (err && out) || (forallb calm acts_error && (negb strict || forallb no_start acts_error)))
  | ETimer id acts => bool_decide (id ∈ armed c) && acts_ok acts
  end.

Fixpoint events_ok (strict : bool) (c : Connector) (es : list event) : bool :=
  match es with
  | [] => true
  | e :: es => event_ok strict c e && (if connector_step c e is Some c' then events_ok strict c' es else true)
  end.

(** ** The invariant *)

(** Nothing held. *)
Record idle (c : Connector) : Prop := {
  id_channel : channel_ c = None;
  id_sockfd : sockfd_ c = -1;
  id_timeout : timeoutId_ c = None;
  id_sockets : sockets c = ∅;
  id_registered : registered c = ∅;
  id_armed : armed c = ∅
}.

(** One socket, its channel, and a timer if there is a deadline. *)
Record busy (c : Connector) (st : sockstat) : Prop := {
  bu_sockfd : 0 <= sockfd_ c;
  bu_channel : channel_ c = Some (sockfd_ c);
  bu_sockets : sockets c = {[sockfd_ c := st]};
  bu_registered : registered c = {[sockfd_ c]};
  bu_armed : armed c = (if timeoutId_ c is Some id then {[id]} else ∅);
  bu_timeout : is_Some (timeoutId_ c) <-> deadline c = true
}.

Record connector_inv (c : Connector) : Prop := {
  ci_errors : Forall (fun e => e <> 0) (errors c);
  ci_dead : alive c = false -> idle c;
  ci_idle : alive c = true -> state_ c <> kConnecting -> idle c;
  ci_busy : alive c = true -> state_ c = kConnecting -> exists st, busy c st /\ st <> SFailed 0;
  ci_count : alive c = true ->
    attempts c = (length (delivered c) + length (errors c) + stops c + (if bool_decide (state_ c = kConnecting) then 1 else 0))%nat
}.

(** What is held can be released. *)
Record contained (c : Connector) : Prop := {
  co_sockfd : 0 <= sockfd_ c \/ sockfd_ c = -1 /\ sockets c = ∅;
  co_sockets : delete (sockfd_ c) (sockets c) = ∅;
  co_registered : registered c ⊆ (if channel_ c is Some ch then {[ch]} else ∅);
  co_armed : armed c ⊆ (if timeoutId_ c is Some id then {[id]} else ∅)
}.

Lemma idle_contained c : idle c -> contained c.
Proof.
  intros [Ec Es Et Em Er Ea]. constructor; rewrite ?Ec, ?Es, ?Et, ?Em, ?Er, ?Ea; first [done|by right|by rewrite delete_empty].
Qed.

Lemma busy_contained c st : busy c st -> contained c.
Proof.
  intros [Hs Ec Em Er Ea Et]. constructor; rewrite ?Ec, ?Em, ?Er, ?Ea; first [done|by left|by rewrite delete_singleton_eq].
Qed.

Lemma fire_contained id c : contained c -> contained (fire id c).
Proof. intros []. constructor; cbn; try done. set_solver. Qed.

Lemma release_idle c : contained c -> idle (release c).
Proof.
  intros [Hs Hm Hr Ha]. unfold release, closeSockfd, removeChannel, cancelTimeout.
  assert (forall X (x : Z), X ⊆@{gset Z} {[x]} -> X ∖ {[x]} = ∅) as Hsub by set_solver.
  assert (forall X, X ⊆@{gset Z} ∅ -> X = ∅) as Hemp by set_solver.
  destruct (timeoutId_ c) as [id|] eqn:Et; cbn; destruct (channel_ c) as [ch|] eqn:Ec; cbn;
    (destruct (Z.leb_spec 0 (sockfd_ c)); [|destruct Hs as [?|[? ?]]; [lia|]]); constructor; cbn; auto.
Qed.

Lemma release_fields c :
  state_ (release c) = state_ c /\ alive (release c) = alive c /\ deadline (release c) = deadline c /\
  attempts (release c) = attempts c /\ stops (release c) = stops c /\ delivered (release c) = delivered c /\
  errors (release c) = errors c.
Proof.
  unfold release, closeSockfd, removeChannel, cancelTimeout.
  destruct (timeoutId_ c); cbn; destruct (channel_ c); cbn; by destruct (0 <=? sockfd_ c).
Qed.

Lemma inv_contained c : connector_inv c -> contained c.
Proof.
  intros H. destruct (alive c) eqn:Ea; [|apply idle_contained; by apply (ci_dead c)].
  destruct (decide (state_ c = kConnecting)) as [Es|Es]; [|apply idle_contained; by apply (ci_idle c)].
  destruct (ci_busy c H Ea Es) as (st & Hb & _). by eapply busy_contained.
Qed.

(** The state a failed attempt leaves for the error callback. *)
Definition failed (err : Z) (c : Connector) : Connector := log_error err (release (set_state kFailed c)).

Lemma failed_inv err c :
  contained c -> Forall (fun e => e <> 0) (errors c) -> alive c = true -> err <> 0 ->
  attempts c = (length (delivered c) + length (errors c) + stops c + 1)%nat ->
  connector_inv (failed err c) /\ alive (failed err c) = true /\ state_ (failed err c) = kFailed /\
  delivered (failed err c) = delivered c.
Proof.
  intros Hc He Ha Hne Hn. destruct (release_fields (set_state kFailed c)) as (Fs & Fa & _ & Fat & Fst & Fd & Fe). cbn in *.
  assert (idle (failed err c)) as Hi.
  { destruct (release_idle (set_state kFailed c)) as [? ? ? ? ? ?]; [by destruct Hc|]. by constructor. }
  split_and!; [constructor; cbn; try done| | |]; cbn; try congruence.
  - rewrite Fe. apply Forall_app. by repeat constructor.
  - intros _. rewrite Fat, Fst, Fd, Fe, Fs, length_app, Hn. rewrite (bool_decide_false (kFailed = kConnecting)) by done. cbn [length]. lia.
Qed.

Section cact_ind.
Variable P : cact -> Prop.
Hypothesis Hstart : forall socket err self l, Forall P l -> P (AStart socket err self l).
Hypothesis Hstop : P AStop.
Hypothesis Hdestroy : P ADestroy.

Fixpoint cact_ind' (a : cact) : P a :=
  match a with
  | AStart socket err self l => Hstart socket err self l
      ((fix go (l : list cact) : Forall P l :=
          match l with [] => Forall_nil_2 _ | a :: l => Forall_cons_2 _ _ _ (cact_ind' a) (go l) end) l)
  | AStop => Hstop
  | ADestroy => Hdestroy
  end.
End cact_ind.

Lemma perform_start socket err self l c :
  perform (AStart socket err self l) c = if negb (alive c) then None else startInLoop (perform_all l) socket err self c.
Proof. reflexivity. Qed.

(** What a call, or a list of them, does to a live connector. *)
Definition acted (quiet : bool) (f : Connector -> option Connector) : Prop :=
  forall c, alive c = true -> connector_inv c -> exists c', f c = Some c' /\ alive c' = true /\ connector_inv c' /\
    delivered c' = delivered c /\ (quiet = true -> state_ c <> kConnecting -> state_ c' <> kConnecting).

Lemma acted_all l : Forall (fun a => acted (no_start a) (perform a)) l -> acted (forallb no_start l) (perform_all l).
Proof.
  induction 1 as [|a l Ha _ IH]; intros c Hc Hi; [exists c; by split_and!|]. cbn [perform_all forallb].
  destruct (Ha c Hc Hi) as (c1 & -> & Hc1 & Hi1 & Hd1 & Hs1). cbn [mbind option_bind].
  destruct (IH c1 Hc1 Hi1) as (c2 & -> & Hc2 & Hi2 & Hd2 & Hs2). exists c2. split_and!; try done; [congruence|].
  intros [? ?]%andb_prop ?. auto.
Qed.

Lemma stop_acted : acted true (fun c => Some (stopInLoop c)).
Proof.
  intros c Ha Hi. eexists. split; [done|]. unfold stopInLoop. destruct (state_ c) eqn:Es.
  - split_and!; try done; congruence.
  - destruct (release_fields (set_state kDisconnected c)) as (Fs & Fa & _ & Fat & Fst & Fd & Fe). cbn in *.
    pose proof (inv_contained c Hi) as Hco. destruct (release_idle (set_state kDisconnected c)) as [? ? ? ? ? ?]; [by destruct Hco|].
    split_and!; cbn; [congruence| |congruence|congruence]. constructor; cbn; rewrite ?Fe, ?Fa, ?Fs; try done; try (intros; by constructor).
    + apply Hi.
    + intros _. rewrite Fat, Fst, Fd, (ci_count c Hi Ha), Es.
      rewrite (bool_decide_true (kConnecting = kConnecting)), (bool_decide_false (kDisconnected = kConnecting)) by done. lia.
  - split_and!; try done; congruence.
  - destruct (ci_idle c Hi Ha) as [? ? ? ? ? ?]; [congruence|]. split_and!; try done.
    constructor; cbn; try done; [apply Hi|].
    intros _. rewrite (ci_count c Hi Ha), Es. done.
Qed.

(** An attempt that goes on in the background. *)
Lemma watch_inv fd st c :
  alive c = true -> connector_inv c -> state_ c <> kConnecting -> 0 <= fd -> st <> SFailed 0 ->
  connector_inv (watch (open_socket fd st (begin_attempt c))).
Proof.
  intros Ha Hi Hs Hfd Hst. destruct (ci_idle c Hi Ha Hs) as [Ec Es Et Em Er Ear].
  constructor; cbn; try congruence; [apply Hi| |].
  - intros _ _. exists st. split; [|done]. constructor; cbn; rewrite ?Em, ?Er, ?Ear, ?Et; try done.
    + apply (left_id ∅ union).
    + destruct (deadline c); [apply (left_id ∅ union)|done].
    + destruct (deadline c); by split.
  - intros _. rewrite (ci_count c Hi Ha), (bool_decide_false (state_ c = kConnecting)), (bool_decide_true (kConnecting = kConnecting)) by done. lia.
Qed.

Lemma start_acted callback socket err self :
  match socket with inl fd => 0 <= fd | inr e => e <> 0 end -> acted false callback ->
  acted false (startInLoop callback socket err self).
Proof.
  intros Hsock Hcb c Ha Hi. unfold startInLoop.
  assert (state_ c <> kConnecting -> exists c', connect callback socket err self (begin_attempt c) = Some c' /\ alive c' = true /\
    connector_inv c' /\ delivered c' = delivered c /\ (false = true -> state_ c <> kConnecting -> state_ c' <> kConnecting)) as Hconn.
  { intros Hs. pose proof (ci_idle c Hi Ha Hs) as [Ec Es Et Em Er Ear]. pose proof (ci_count c Hi Ha) as Hn.
    rewrite (bool_decide_false (state_ c = kConnecting)) in Hn by done. unfold connect. destruct socket as [fd|e].
    - destruct ((err =? 0) || (err =? EINPROGRESS) || (err =? EINTR) || (err =? EISCONN)) eqn:Ee.
      + eexists. split; [done|]. split_and!; try done. apply watch_inv; [done|done|done|done|by destruct ((err =? 0) || (err =? EISCONN))].
      + unfold fail. destruct (failed_inv err (open_socket fd (SFailed 0) (begin_attempt c))) as (Hi' & Ha' & _ & Hd'); cbn; try done.
        * constructor; cbn; rewrite ?Em, ?Er, ?Ear; try done; [by left|]. by rewrite delete_insert_eq, delete_empty.
        * apply Hi.
        * by intros ->.
        * lia.
        * destruct (Hcb _ Ha' Hi') as (c' & E & ? & ? & Hd & _). exists c'. split; [exact E|]. split_and!; try done. by rewrite Hd, Hd'.
    - unfold fail. destruct (failed_inv e (begin_attempt c)) as (Hi' & Ha' & _ & Hd'); cbn; try done.
      * by destruct (idle_contained c (ci_idle c Hi Ha Hs)).
      * apply Hi.
      * lia.
      * destruct (Hcb _ Ha' Hi') as (c' & E & ? & ? & Hd & _). exists c'. split; [exact E|]. split_and!; try done. by rewrite Hd, Hd'. }
  destruct (state_ c) eqn:Es; try (apply Hconn; congruence); exists c; by split_and!.
Qed.

Lemma perform_acted a : calm a = true -> kernel_ok a = true -> acted (no_start a) (perform a).
Proof.
  induction a as [socket err self l IH| |] using cact_ind'; intros Hc Hk; [| |done].
  - cbn in Hc. assert (match socket with inl fd => 0 <= fd | inr e => e <> 0 end /\ forallb kernel_ok l = true) as [Hs Hl].
    { cbn in Hk. destruct socket; apply andb_prop in Hk as [Hk ?]; split; try done; [by apply Z.leb_le|by apply negb_true_iff, Z.eqb_neq in Hk]. }
    intros c Ha Hi. rewrite perform_start, Ha. cbn [negb no_start]. apply start_acted; [done| |done|done].
    assert (acted (forallb no_start l) (perform_all l)) as Hall.
    { apply acted_all. rewrite forallb_forall in Hc, Hl. rewrite Forall_forall in IH |- *. intros a Hin.
      assert (In a l) by by apply list_elem_of_In. auto. }
    intros c1 H1 H2. destruct (Hall c1 H1 H2) as (c' & ? & ? & ? & ? & _). exists c'. by split_and!.
  - intros c Ha Hi. cbn. rewrite Ha. by apply stop_acted.
Qed.

Lemma destroy_inv c : connector_inv c -> connector_inv (destroy c).
Proof.
  intros Hi. pose proof (release_idle c (inv_contained c Hi)) as [? ? ? ? ? ?].
  destruct (release_fields c) as (_ & _ & _ & _ & _ & _ & Fe). constructor; cbn; try done. rewrite Fe. apply Hi.
Qed.

(** A callback, which may end by destroying the connector. *)
Lemma acts_perform l c :
  acts_ok l = true -> alive c = true -> connector_inv c ->
  exists c', perform_all l c = Some c' /\ connector_inv c' /\ delivered c' = delivered c.
Proof.
  revert c. induction l as [|a l IH]; intros c Hl Ha Hi; [by exists c|].
  assert (calm a = true -> kernel_ok a = true -> acts_ok l = true ->
    exists c', perform_all (a :: l) c = Some c' /\ connector_inv c' /\ delivered c' = delivered c) as Hcalm.
  { intros Hc Hk Hr. cbn [perform_all]. destruct (perform_acted a Hc Hk c Ha Hi) as (c1 & -> & Ha1 & Hi1 & Hd1 & _). cbn [mbind option_bind].
    destruct (IH c1 Hr Ha1 Hi1) as (c2 & -> & Hi2 & Hd2). exists c2. split_and!; congruence || done. }
  destruct l as [|b l].
  - cbn in Hl. apply andb_prop in Hl as [Hk Hd]. destruct (calm a) eqn:Hc; [by apply Hcalm|]. destruct a; try done. cbn. rewrite Ha. cbn.
    exists (destroy c). split_and!; [done|by apply destroy_inv|]. cbn. apply release_fields.
  - cbn [acts_ok] in Hl. apply andb_prop in Hl as [[Hk Hc]%andb_prop Hr]. by apply Hcalm.
Qed.

Lemma calm_acts l c :
  forallb calm l = true -> acts_ok l = true -> alive c = true -> connector_inv c ->
  exists c', perform_all l c = Some c' /\ alive c' = true /\ connector_inv c' /\ delivered c' = delivered c /\
    (forallb no_start l = true -> state_ c <> kConnecting -> state_ c' <> kConnecting).
Proof.
  intros Hc Hl. assert (forallb kernel_ok l = true) as Hk.
  { clear Hc. induction l as [|a [|b l] IH]; [done| |]; cbn [acts_ok forallb] in *.
    - by apply andb_prop in Hl as [-> _].
    - apply andb_prop in Hl as [[-> _]%andb_prop Hl]. cbn [andb]. by apply IH. }
  apply acted_all. rewrite forallb_forall in Hc, Hk. apply Forall_forall. intros a Hin.
  assert (In a l) by by apply list_elem_of_In. apply perform_acted; auto.
Qed.

(** ** The handlers *)

(** An attempt is in flight: what the failure path needs. *)
Record attempting (c : Connector) : Prop := {
  at_contained : contained c;
  at_errors : Forall (fun e => e <> 0) (errors c);
  at_alive : alive c = true;
  at_count : attempts c = (length (delivered c) + length (errors c) + stops c + 1)%nat
}.

Lemma inv_attempting c : connector_inv c -> alive c = true -> state_ c = kConnecting -> attempting c.
Proof.
  intros Hi Ha Hs. constructor; [by apply inv_contained|apply Hi|done|].
  rewrite (ci_count c Hi Ha). by rewrite bool_decide_true.
Qed.

Lemma fail_acts acts err c :
  attempting c -> err <> 0 -> acts_ok acts = true ->
  exists c', fail (perform_all acts) err c = Some c' /\ connector_inv c' /\ delivered c' = delivered c /\
    (forallb calm acts = true -> alive c' = true /\ (forallb no_start acts = true -> state_ c' <> kConnecting)).
Proof.
  intros [Hco He Ha Hn] Hne Hl. destruct (failed_inv err c Hco He Ha Hne Hn) as (Hi & Ha' & Hs & Hd).
  unfold fail. destruct (forallb calm acts) eqn:Hc.
  - destruct (calm_acts acts _ Hc Hl Ha' Hi) as (c' & E & ? & ? & Hd' & Hq). exists c'. split; [exact E|].
    split_and!; try done; [congruence|]. intros _. split; [done|]. intros Hns. apply Hq; [done|]. by rewrite Hs.
  - destruct (acts_perform acts _ Hl Ha' Hi) as (c' & E & ? & Hd'). exists c'. split; [exact E|]. split_and!; try done. congruence.
Qed.

Lemma getsockopt_attempting c err c' :
  attempting c -> getsockopt_error c = (err, c') -> attempting c' /\ delivered c' = delivered c.
Proof.
  intros [[Hf Hs Hr Ha] He Hal Hn] E. unfold getsockopt_error in E.
  destruct (sockets c !! sockfd_ c) as [[|self|e]|] eqn:Es; injection E as <- <-; (split; [|done]); constructor; try done; constructor; cbn; try done.
  - destruct Hf as [?|[_ Hm]]; [by left|]. by rewrite Hm in Es.
  - by rewrite delete_insert_eq.
Qed.

Lemma handleError_ok acts c :
  connector_inv c -> alive c = true -> state_ c = kConnecting -> acts_ok acts = true ->
  exists c', handleError acts c = Some c' /\ connector_inv c' /\ delivered c' = delivered c /\
    (forallb calm acts = true -> alive c' = true /\ (forallb no_start acts = true -> state_ c' <> kConnecting)).
Proof.
  intros Hi Ha Hs Hl. unfold handleError. rewrite Ha, bool_decide_true by done. cbn [negb].
  destruct (getsockopt_error c) as [err c1] eqn:E. destruct (getsockopt_attempting c err c1 (inv_attempting c Hi Ha Hs) E) as [Hat <-].
  apply fail_acts; [done| |done]. destruct (Z.eqb_spec err 0); done.
Qed.

(** Success: the socket passes to the callback. *)
Lemma deliver_inv c st :
  connector_inv c -> alive c = true -> state_ c = kConnecting -> sockets c !! sockfd_ c = Some st ->
  let c' := deliver (removeChannel (cancelTimeout c)) in
  connector_inv c' /\ alive c' = true /\ delivered c' = delivered c ++ [(sockfd_ c, st)].
Proof.
  intros Hi Ha Hs Hst. pose proof (at_count c (inv_attempting c Hi Ha Hs)) as Hn.
  destruct (ci_busy c Hi Ha Hs) as (st0 & [Hfd Hch Hm Hr Hta Hto] & _).
  rewrite Hm in Hst. apply lookup_singleton_Some in Hst as [_ ->]. unfold removeChannel, cancelTimeout.
  destruct (timeoutId_ c) as [id|] eqn:Et; cbn; rewrite Hch; cbn; rewrite Hm, lookup_singleton_eq;
    (split_and!; [constructor; cbn; try done; try congruence|done|done]).
  1,4: apply Hi.
  all: try (intros _ _; constructor; cbn; rewrite ?Hr, ?Hta; try done; rewrite ?delete_singleton_eq; set_solver).
  all: intros _; rewrite length_app, (bool_decide_false (kConnected = kConnecting)) by done; cbn [length]; lia.
Qed.

(** The write handler takes a socket without a pending error for connected. *)
Lemma connector_write_ok acts c st :
  connector_inv c -> alive c = true -> state_ c = kConnecting -> sockets c !! sockfd_ c = Some st -> st <> SFailed 0 -> acts_ok acts = true ->
  exists c', handleWrite acts c = Some c' /\ connector_inv c' /\
    (delivered c' = delivered c \/ delivered c' = delivered c ++ [(sockfd_ c, st)] /\ (st = SInProgress \/ st = SConnected false)).
Proof.
  intros Hi Ha Hs Hst Hset Hl. unfold handleWrite. rewrite Ha, bool_decide_true by done. cbn [negb].
  pose proof (inv_attempting c Hi Ha Hs) as Hat. destruct (getsockopt_error c) as [err c1] eqn:E.
  destruct (getsockopt_attempting c err c1 Hat E) as [Hat1 Hd1]. unfold getsockopt_error in E. rewrite Hst in E.
  destruct (deliver_inv c st Hi Ha Hs Hst) as (Hi2 & Ha2 & Hd2).
  assert (st = SInProgress \/ st = SConnected false ->
    exists c', finishConnect acts c = Some c' /\ connector_inv c' /\
    (delivered c' = delivered c \/ delivered c' = delivered c ++ [(sockfd_ c, st)] /\ (st = SInProgress \/ st = SConnected false))) as Hfin.
  { intros Hcase. destruct (acts_perform acts _ Hl Ha2 Hi2) as (c' & E' & ? & Hd). exists c'. split; [exact E'|].
    split; [done|]. right. split; [congruence|done]. }
  destruct st as [|self|e].
  - injection E as <- <-. cbn [negb Z.eqb]. unfold isSelfConnect. rewrite Hst. apply Hfin. by left.
  - injection E as <- <-. cbn [negb Z.eqb]. unfold isSelfConnect. rewrite Hst. destruct self; [|apply Hfin; by right].
    destruct (fail_acts acts ECONNREFUSED c Hat ltac:(done) Hl) as (c' & -> & ? & ? & _). exists c'. split_and!; auto.
  - injection E as <- <-. assert (e <> 0) as He by by intros ->. rewrite (proj2 (Z.eqb_neq e 0) He). cbn [negb].
    destruct (fail_acts acts e _ Hat1 He Hl) as (c' & -> & ? & Hd & _). exists c'. split_and!; try done. left. by rewrite Hd.
Qed.

(** A registered channel or an armed timer means an attempt in flight. *)
Lemma holding_attempt c :
  connector_inv c -> (exists fd, fd ∈ registered c) \/ (exists id, id ∈ armed c) -> alive c = true /\ state_ c = kConnecting.
Proof.
  intros Hi Hh. assert (~ idle c) as Hn.
  { intros [_ _ _ _ Er Ea]. rewrite Er, Ea in Hh. set_solver. }
  destruct (alive c) eqn:Ha; [|by destruct Hn; apply (ci_dead c)]. split; [done|].
  destruct (decide (state_ c = kConnecting)); [done|]. by destruct Hn; apply (ci_idle c).
Qed.

Definition established (d : Z * sockstat) : Prop := d.2 = SConnected false.

Lemma kernel_inv c fd st :
  connector_inv c -> sockets c !! fd = Some SInProgress -> settled st = true -> connector_inv (set_sockets (<[fd := st]> (sockets c)) c).
Proof.
  intros Hi Hfd Hst. assert (~ idle c) as Hn by (intros [_ _ _ Em _ _]; by rewrite Em in Hfd).
  constructor; cbn; [apply Hi| | | |apply Hi].
  - intros Ha. destruct Hn. by apply (ci_dead c).
  - intros Ha Hs. destruct Hn. by apply (ci_idle c).
  - intros Ha Hs. destruct (ci_busy c Hi Ha Hs) as (st0 & [Hf Hch Hm Hr Hta Hto] & _). exists st. split; [|by intros ->].
    rewrite Hm in Hfd. apply lookup_singleton_Some in Hfd as [<- _].
    constructor; cbn; try done. by rewrite Hm, insert_singleton_eq.
Qed.

Lemma ready_ok strict c fd err out ae aw :
  connector_inv c -> event_ok strict c (EReady fd err out ae aw) = true ->
  exists c', connector_step c (EReady fd err out ae aw) = Some c' /\ connector_inv c' /\
    (strict = true -> Forall established (delivered c) -> Forall established (delivered c')).
Proof.
  intros Hi He. cbn in He. apply andb_prop in He as [[[[Hfd%bool_decide_eq_true Hset]%andb_prop Hae]%andb_prop Haw]%andb_prop Hboth].
  destruct (holding_attempt c Hi) as [Ha Hs]; [left; by exists fd|].
  destruct (ci_busy c Hi Ha Hs) as (st & [Hf Hch Hm Hr Hta Hto] & Hne). rewrite Hr in Hfd. apply elem_of_singleton in Hfd as ->.
  assert (sockets c !! sockfd_ c = Some st) as Hst by (by rewrite Hm, lookup_singleton_eq). rewrite Hst in Hset. cbn in Hset.
  cbn [connector_step]. destruct err.
  - destruct (handleError_ok ae c Hi Ha Hs Hae) as (c1 & -> & Hi1 & Hd1 & Hcalm). cbn [mbind option_bind]. destruct out; [|exists c1; by rewrite Hd1].
    cbn in Hboth. apply andb_prop in Hboth as [Hc Hns]. destruct (Hcalm Hc) as [Ha1 Hq]. destruct (decide (state_ c1 = kConnecting)) as [Hs1|Hs1].
    + destruct strict; [by destruct (Hq Hns)|]. destruct (ci_busy c1 Hi1 Ha1 Hs1) as (st1 & [_ _ Hm1 _ _ _] & Hne1).
      assert (sockets c1 !! sockfd_ c1 = Some st1) as Hst1 by (by rewrite Hm1, lookup_singleton_eq).
      destruct (connector_write_ok aw c1 st1 Hi1 Ha1 Hs1 Hst1 Hne1 Haw) as (c2 & -> & ? & _). by exists c2.
    + unfold handleWrite. rewrite Ha1, bool_decide_false by done. cbn. exists c1. by rewrite Hd1.
  - cbn [mbind option_bind]. destruct out; [|by exists c].
    destruct (connector_write_ok aw c st Hi Ha Hs Hst Hne Haw) as (c1 & -> & Hi1 & Hd1). exists c1. split_and!; try done.
    intros _ HF. destruct Hd1 as [-> | [-> [-> | ->]]]; [done|done|]. apply Forall_app. by repeat constructor.
Qed.

Lemma connector_step_ok strict c e :
  connector_inv c -> event_ok strict c e = true ->
  exists c', connector_step c e = Some c' /\ connector_inv c' /\
    (strict = true -> Forall established (delivered c) -> Forall established (delivered c')).
Proof.
  intros Hi He. destruct e as [a|fd st|fd err out ae aw|id acts]; [| |by apply ready_ok|].
  - cbn [event_ok] in He. apply andb_prop in He as [Ha Hl]. destruct (acts_perform [a] c Hl Ha Hi) as (c' & E & Hi' & Hd).
    exists c'. cbn [perform_all connector_step] in *. destruct (perform a c); [|done]. injection E as ->. by rewrite Hd.
  - cbn in He. apply andb_prop in He as [Hfd%bool_decide_eq_true Hst]. eexists. split; [done|]. split; [by apply kernel_inv|done].
  - cbn [event_ok] in He. apply andb_prop in He as [Hid%bool_decide_eq_true Hl].
    destruct (holding_attempt c Hi) as [Ha Hs]; [right; by exists id|]. cbn [connector_step]. unfold handleTimeout. cbn [alive fire state_].
    rewrite Ha, bool_decide_true by done. cbn [negb].
    destruct (fail_acts acts ETIMEDOUT (fire id c)) as (c' & -> & ? & Hd & _); try done.
    + destruct (inv_attempting c Hi Ha Hs) as [Hco ? ? ?]. constructor; try done. by apply fire_contained.
    + exists c'. split_and!; try done. by rewrite Hd.
Qed.

Lemma connector_run_ok strict es : forall c,
  connector_inv c -> events_ok strict c es = true -> (strict = true -> Forall established (delivered c)) ->
  exists c', connector_run c es = Some c' /\ connector_inv c' /\ (strict = true -> Forall established (delivered c')).
Proof.
  induction es as [|e es IH]; intros c Hi He Hd; [by exists c|]. cbn [events_ok connector_run] in *. apply andb_prop in He as [He Hes].
  destruct (connector_step_ok strict c e Hi He) as (c1 & E1 & Hi1 & Hd1). rewrite E1 in *. cbn [mbind option_bind]. apply IH; auto.
Qed.

Lemma Connector_new_inv d : connector_inv (Connector_new d).
Proof. constructor; cbn; try done. Qed.

(** *** A connector is spent after one delivery *)

(** Nothing destroys the connector. *)
Definition calm_event (e : event) : bool :=
  match e with
  | ECall a => calm a
  | EKernel _ _ => true
  | EReady _ _ _ acts_error acts_write => forallb calm acts_error && forallb calm acts_write
  | ETimer _ acts => forallb calm acts
  end.

(** [start] and [stop] do nothing once a connection has been delivered. *)
Lemma spent_all l c : forallb calm l = true -> alive c = true -> state_ c = kConnected -> perform_all l c = Some c.
Proof.
  intros Hl Ha Hs. induction l as [|a l IH]; [done|]. cbn [forallb perform_all] in *. apply andb_prop in Hl as [Hc Hl].
  assert (perform a c = Some c) as ->; [|by apply IH].
  destruct a; cbn; rewrite Ha; cbn; [| |done]; unfold startInLoop, stopInLoop; by rewrite Hs.
Qed.

(** At most one delivery from [c] to [c'], none if [c] had made one. *)
Record advances (c c' : Connector) : Prop := {
  ad_alive : alive c' = true;
  ad_inv : connector_inv c';
  ad_spent : state_ c = kConnected -> state_ c' = kConnected /\ delivered c' = delivered c;
  ad_delivered : delivered c' = delivered c \/ exists x, delivered c' = delivered c ++ [x] /\ state_ c' = kConnected
}.

Lemma write_advances acts c c' :
  connector_inv c -> alive c = true -> acts_ok acts = true -> forallb calm acts = true ->
  handleWrite acts c = Some c' -> advances c c'.
Proof.
  intros Hi Ha Hl Hc. unfold handleWrite. rewrite Ha. cbn [negb]. case_bool_decide as Hs; cbn [negb]; [|intros [= <-]; by split; auto].
  pose proof (inv_attempting c Hi Ha Hs) as Hat. destruct (getsockopt_error c) as [err c1] eqn:E.
  destruct (getsockopt_attempting c err c1 Hat E) as [Hat1 Hd1].
  assert (forall e c2, e <> 0 -> attempting c2 -> delivered c2 = delivered c ->
    fail (perform_all acts) e c2 = Some c' -> advances c c') as Hfail.
  { intros e c2 He Hat2 Hd2 Ef. destruct (fail_acts acts e c2 Hat2 He Hl) as (c3 & E3 & Hi3 & Hd3 & Hal).
    rewrite Ef in E3. injection E3 as <-. destruct (Hal Hc). split; [done|done|congruence|left; congruence]. }
  destruct (Z.eqb_spec err 0) as [->|He]; cbn [negb]; [|by apply Hfail].
  destruct (isSelfConnect c1); [by apply Hfail|]. unfold getsockopt_error in E.
  destruct (ci_busy c Hi Ha Hs) as (st & [_ _ Hm _ _ _] & Hne).
  assert (sockets c !! sockfd_ c = Some st) as Hst by (by rewrite Hm, lookup_singleton_eq). rewrite Hst in E.
  assert (c1 = c) as -> by (destruct st as [| |e]; injection E; [done..|intros _ ->; done]).
  destruct (deliver_inv c st Hi Ha Hs Hst) as (Hi2 & Ha2 & Hd2). unfold finishConnect.
  rewrite spent_all by done. intros [= <-]. split; [done|done|congruence|right; eauto].
Qed.

Lemma step_advances strict c e c' :
  connector_inv c -> alive c = true -> event_ok strict c e = true -> calm_event e = true ->
  connector_step c e = Some c' -> advances c c'.
Proof.
  intros Hi Ha He Hc E. destruct (connector_step_ok strict c e Hi He) as (c1 & E1 & Hi' & _).
  rewrite E in E1. injection E1 as <-. destruct e as [a|fd st|fd err out ae aw|id acts]; cbn [connector_step calm_event event_ok] in *.
  - apply andb_prop in He as [_ Hl]. destruct (calm_acts [a] c) as (c2 & E2 & Ha2 & _ & Hd2 & _); [cbn; by rewrite Hc|done..|].
    cbn [perform_all] in E2. rewrite E in E2. injection E2 as <-. split; [done|done| |by left].
    intros Hs. pose proof (spent_all [a] c) as H1. cbn [forallb perform_all] in H1. rewrite Hc, E in H1. injection H1 as ->; done.
  - injection E as <-. split; auto.
  - apply andb_prop in He as [[[[Hfd%bool_decide_eq_true _]%andb_prop Hae]%andb_prop Haw]%andb_prop _]. apply andb_prop in Hc as [Hce Hcw].
    destruct (holding_attempt c Hi) as [_ Hs]; [left; by exists fd|]. destruct err.
    + destruct (handleError_ok ae c Hi Ha Hs Hae) as (c1 & E1 & Hi1 & Hd1 & Hal). destruct (Hal Hce) as [Ha1 _].
      rewrite E1 in E. cbn in E. destruct out; [|injection E as <-; split; auto; congruence].
      destruct (write_advances aw c1 c' Hi1 Ha1 Haw Hcw E) as [? ? _ Hd]. rewrite Hd1 in Hd. split; auto; congruence.
    + cbn in E. destruct out; [by apply (write_advances aw)|injection E as <-; split; auto].
  - apply andb_prop in He as [Hid%bool_decide_eq_true Hl].
    destruct (holding_attempt c Hi) as [_ Hs]; [right; by exists id|]. unfold handleTimeout in E. cbn [alive fire state_] in E.
    rewrite Ha, bool_decide_true in E by done. cbn [negb] in E.
    destruct (fail_acts acts ETIMEDOUT (fire id c)) as (c1 & E1 & ? & Hd & Hal); try done.
    + destruct (inv_attempting c Hi Ha Hs) as [Hco ? ? ?]. constructor; try done. by apply fire_contained.
    + rewrite E in E1. injection E1 as <-. destruct (Hal Hc). split; [done|done|congruence|by left].
Qed.

(** ** Correctness *)

(** C16: A connector holds exactly what its attempt needs and reports each attempt
    once.  On every execution the loop and the kernel allow, in which the
    callbacks may stop, retry or finally destroy the connector (but the error
    callback does not destroy it while the same dispatch has still to call the
    write handler): nothing runs on a destroyed object; while an attempt is in
    flight there is one open socket with its channel registered and, with a
    deadline, one armed timer; otherwise, and after destruction, nothing is open,
    registered or armed; and every attempt was delivered, failed with a non-zero
    errno, was cancelled, or is the one in flight. *)
Theorem connector_safe d es :
  events_ok false (Connector_new d) es = true ->
  exists c, connector_run (Connector_new d) es = Some c /\
    (alive c = true -> state_ c = kConnecting -> exists st, busy c st) /\
    (alive c = false \/ state_ c <> kConnecting -> idle c) /\
    Forall (fun e => e <> 0) (errors c) /\
    (alive c = true -> attempts c = (length (delivered c) + length (errors c) + stops c +
      (if bool_decide (state_ c = kConnecting) then 1 else 0))%nat).
Proof.
  intros He. destruct (connector_run_ok false es (Connector_new d) (Connector_new_inv d) He) as (c & E & Hi & _); [done|].
  exists c. split_and!; [done| | |apply Hi|apply Hi].
  - intros Ha Hs. destruct (ci_busy c Hi Ha Hs) as (st & ? & _). by exists st.
  - intros Hor. destruct (alive c) eqn:Ha; [|by apply (ci_dead c)]. destruct Hor; [done|by apply (ci_idle c)].
Qed.

Definition retry_later : list event :=
  [ECall (AStart (inl 5) EINPROGRESS false []);
   EKernel 5 (SFailed ECONNREFUSED); EReady 5 true true [] [];
   ECall (AStart (inl 5) EINPROGRESS false []);
   EKernel 5 (SConnected false); EReady 5 false true [] [ADestroy]].

Lemma connector_safe_witness :
  exists c, connector_run (Connector_new true) retry_later = Some c /\
    (alive c = true -> state_ c = kConnecting -> exists st, busy c st) /\
    (alive c = false \/ state_ c <> kConnecting -> idle c) /\
    Forall (fun e => e <> 0) (errors c) /\
    (alive c = true -> attempts c = (length (delivered c) + length (errors c) + stops c +
      (if bool_decide (state_ c = kConnecting) then 1 else 0))%nat).
Proof. apply (connector_safe true retry_later). by vm_compute. Defined.

(** Only connected sockets are delivered: if moreover the error callback does
    not start the next attempt within a dispatch that has still to call the write
    handler, every descriptor passed to the new-connection callback has completed
    its handshake and is not connected to itself. *)
Theorem delivers_connected d es :
  events_ok true (Connector_new d) es = true ->
  exists c, connector_run (Connector_new d) es = Some c /\ Forall (fun p => p.2 = SConnected false) (delivered c).
Proof.
  intros He. destruct (connector_run_ok true es (Connector_new d) (Connector_new_inv d) He) as (c & E & _ & Hd); [done|].
  exists c. split; [done|]. by apply Hd.
Qed.

Lemma delivers_connected_witness :
  exists c, connector_run (Connector_new true) retry_later = Some c /\ Forall (fun p => p.2 = SConnected false) (delivered c).
Proof. apply (delivers_connected true retry_later). by vm_compute. Defined.

(** That the error callback does not restart the connector is needed: a refused
    connection is reported as [EPOLLERR | EPOLLOUT]; when the error callback retries at once, which the
    header allows, the write handler of the same dispatch finds the new attempt
    connecting, sees no error on its socket and delivers it as connected while
    its handshake is still going on. *)
Theorem retry_delivers_unconnected :
  exists es c, events_ok false (Connector_new true) es = true /\ connector_run (Connector_new true) es = Some c /\
    delivered c = [(6, SInProgress)] /\ errors c = [ECONNREFUSED] /\ state_ c = kConnected.
Proof.
  exists [ECall (AStart (inl 5) EINPROGRESS false []); EKernel 5 (SFailed ECONNREFUSED);
          EReady 5 true true [AStart (inl 6) EINPROGRESS false []] []].
  eexists. split; [by vm_compute|]. split; [by vm_compute|]. by vm_compute.
Qed.

(** So is the other one: an error callback that destroys the connector leaves
    the write handler of the same dispatch to run on a freed object. *)
Theorem destroy_in_error_callback_unsafe d :
  connector_run (Connector_new d)
    [ECall (AStart (inl 5) EINPROGRESS false []); EKernel 5 (SFailed ECONNREFUSED); EReady 5 true true [ADestroy] []] = None.
Proof. by destruct d; vm_compute. Qed.
