(* ===== verification/TcpClient.v ===== *)
(** * TcpClient: a connector and the connection it makes

    [include/TcpClient.h] and [src/TcpClient.cpp], on the loop thread.  A client
    makes at most one connection.  The connection object lives as long as
    [connection_] or a queued functor refers to it; when the last reference goes,
    its destructor and that of its channel check their assertions. *)
From S2P Require Import Prelude Buffer Channel Charconv Connector TcpConnection ConnFrame.

(** [orphan_] is the connection once only queued functors refer to it. *)
Record TcpClient := mkClient {
  connector_ : Connector.Connector;
  connection_ : option TcpConnection;
  orphan_ : option TcpConnection;
  nextConnId_ : Z;
  connName_ : bytes
}.

Definition TcpClient_new (deadline : bool) : TcpClient := mkClient (Connector_new deadline) None None 1 [].

(** The name of a connection: [name_] and ["-%s#%d"]. *)
Definition connection_name (name ipPort : bytes) (id : Z) : bytes :=
  name ++ take 63 (str "-" ++ ipPort ++ str "#" ++ decimal id).

(** [newConnection]: [peer] is the peer's address as the kernel reports it, or
    the dialled one; [poller], [ptr] and [answer] are the loop's poller, the
    address of the new channel and the kernel's answers to its writes. *)
Definition newConnection (name peer : bytes) (ptr fd : Z) (poller : EPollPoller) (writeCb : bool)
    (answer : nat -> Z -> io_result Z) (user : callback -> list act) (c : TcpClient) : option TcpClient :=
  conn ← connectEstablished user (conn_new ptr fd poller writeCb answer);
  Some (mkClient (connector_ c) (Some conn) (orphan_ c) (nextConnId_ c + 1) (connection_name name peer (nextConnId_ c))).

(** [removeConnection], the close callback of the connection. *)
Definition removeConnection (c : TcpClient) : TcpClient :=
  match connection_ c with
  | Some conn => mkClient (connector_ c) None (Some (queueInLoop TDestroyed conn)) (nextConnId_ c) (connName_ c)
  | None => c
  end.

Definition set_connector (k : Connector.Connector) (c : TcpClient) : TcpClient :=
  mkClient k (connection_ c) (orphan_ c) (nextConnId_ c) (connName_ c).

Definition set_connection (conn : TcpConnection) (c : TcpClient) : TcpClient :=
  mkClient (connector_ c) (Some conn) (orphan_ c) (nextConnId_ c) (connName_ c).

Definition client_disconnect (c : TcpClient) : TcpClient :=
  match connection_ c with
  | Some conn => set_connection (conn_shutdown conn) c
  | None => set_connector (stopInLoop (connector_ c)) c
  end.

Definition client_stop (c : TcpClient) : TcpClient :=
  let c := set_connector (stopInLoop (connector_ c)) c in
  match connection_ c with
  | Some conn => set_connection (conn_forceClose conn) c
  | None => c
  end.

(** A functor that refers to the orphan runs; [silent] close callback.  With the
    last functor the object goes. *)
Definition run_orphan (user : callback -> list act) (c : TcpClient) : option TcpClient :=
  match orphan_ c with
  | None => Some c
  | Some conn =>
      match pending_ conn with
      | [] => Some c
      | t :: ts =>
          conn ← run_task t user (set_pending ts conn);
          match pending_ conn with
          | [] => drop_connection conn;; Some (mkClient (connector_ c) (connection_ c) None (nextConnId_ c) (connName_ c))
          | _ => Some (mkClient (connector_ c) (connection_ c) (Some conn) (nextConnId_ c) (connName_ c))
          end
      end
  end.

(** [~TcpClient].  Queued functors may still refer to the connection. *)
Definition client_destroy (user : callback -> list act) (c : TcpClient) : option TcpClient :=
  let c := set_connector (stopInLoop (connector_ c)) c in
  match connection_ c with
  | None => Some c
  | Some conn =>
      conn ← (if conn_connected conn then connectDestroyed user conn else Some (conn_forceClose conn));
      match pending_ conn with
      | [] => drop_connection conn;; Some (mkClient (connector_ c) None (orphan_ c) (nextConnId_ c) (connName_ c))
      | _ => Some (mkClient (connector_ c) None (Some conn) (nextConnId_ c) (connName_ c))
      end
  end.

(** ** Teardown *)

Lemma disableAll_added p ch : addedToLoop_ (disableAll p ch).2 = true.
Proof. unfold disableAll, chan_update, updateChannel. repeat case_match; done. Qed.

Lemma drop_registered conn : addedToLoop_ (TcpConnection.channel_ conn) = true -> drop_connection conn = None.
Proof.
  intros Ha. unfold drop_connection, chan_destroy_ok. rewrite Ha, andb_false_r. by repeat (case_guard; cbn [mbind option_bind]).
Qed.

(** A closed client connection is torn down completely: after [handleClose] has
    taken the connection down and called [removeConnection], the queued functor
    removes the channel from the poller and the last reference goes without a
    failed assertion; the client is left without a connection. *)
Theorem closed_connection_torn_down user user' c conn :
  connection_ c = Some conn -> conn_inv conn -> up conn -> pending_ conn = [] -> eventHandling_ (TcpConnection.channel_ conn) = false ->
  user OnConnection = [] -> len (accepted_ conn) + total_send (user' OnConnection) < 2 ^ 60 ->
  exists conn', handleClose user conn = Some conn' /\ downs_ conn' = 1%nat /\
    run_orphan user' (removeConnection (set_connection conn' c)) =
      Some (mkClient (connector_ c) None None (nextConnId_ c) (connName_ c)).
Proof.
  intros Hc I U Hp Heh Hu Hl. pose proof (total_send_nonneg (user' OnConnection)).
  destruct (handleClose_ok user conn I U) as (conn' & E & I' & Hev & Hs' & Hcl & Hl').
  { rewrite Hu. change (total_send []) with 0. lia. }
  exists conn'. split; [done|]. split; [rewrite (ci_downs _ I'); by rewrite decide_True|].
  unfold handleClose in E. case_guard; [|done]. cbn [mbind option_bind] in E. rewrite Hu in E. cbn [perform mbind option_bind] in E.
  injection E as E.
  assert (pending_ conn' = [] /\ eventHandling_ (TcpConnection.channel_ conn') = false) as [Hp' Heh'].
  { rewrite <- E. cbn. split; [done|].
    pose proof (chan_update_spec (poller_ conn) (TcpConnection.channel_ conn) kNoneEvent (ci_chan _ I)) as R.
    unfold disableAll. destruct (chan_update _ _) as [p ch]. destruct R as (_ & _ & (_ & _ & _ & R2 & _) & _). cbn. by rewrite R2. }
  unfold run_orphan, removeConnection. cbn [connection_ set_connection orphan_].
  change (pending_ (queueInLoop TDestroyed conn')) with (pending_ conn' ++ [TDestroyed]). rewrite Hp'. cbn [app run_task].
  destruct (connectDestroyed_releases user' (set_pending [] (queueInLoop TDestroyed conn'))) as (c2 & -> & Hd & Hp2 & _).
  - destruct I'. split; cbn; auto. congruence.
  - right. done.
  - done.
  - rewrite Hu in Hl'. change (total_send []) with 0 in Hl'. cbn. lia.
  - cbn [mbind option_bind]. cbn in Hp2. rewrite Hp2, Hd. done.
Qed.

(** Destroying a connected client is synchronous and clean: the connection is
    reported down, its channel leaves the poller and the object is destroyed
    without a failed assertion, when no functor refers to it. *)
Theorem destroy_connected_client user c conn :
  connection_ c = Some conn -> conn_inv conn -> TcpConnection.state_ conn = kConnected -> pending_ conn = [] ->
  eventHandling_ (TcpConnection.channel_ conn) = false -> len (accepted_ conn) + total_send (user OnConnection) < 2 ^ 60 ->
  exists c', client_destroy user c = Some c' /\ connection_ c' = None /\ orphan_ c' = orphan_ c.
Proof.
  intros Hc I Hs Hp Heh Hl. unfold client_destroy. cbn. rewrite Hc. unfold conn_connected. rewrite bool_decide_true by done.
  destruct (connectDestroyed_releases user conn I (or_introl Hs) Heh Hl) as (conn' & -> & Hd & Hp' & _). cbn [mbind option_bind].
  rewrite Hp', Hp, Hd. cbn. by eexists.
Qed.

(** Destroying a client whose connection is half closed aborts: after
    [disconnect()], and until the peer closes, the destructor defers to
    [forceClose]; the queued functor takes the connection down, but with the close
    callback gone nobody removes its channel from the poller, and with the last
    reference the destructor of the channel fails its assertion. *)
Theorem destroy_disconnecting_client_aborts user c conn :
  connection_ c = Some conn -> conn_inv conn -> TcpConnection.state_ conn = kDisconnecting -> pending_ conn = [] ->
  user OnConnection = [] ->
  exists c', client_destroy user c = Some c' /\ run_orphan user c' = None.
Proof.
  intros Hc I Hs Hp Hu. unfold client_destroy. cbn. rewrite Hc. unfold conn_connected. rewrite bool_decide_false by congruence.
  unfold conn_forceClose. rewrite Hs, (bool_decide_false (kDisconnecting = kConnected)), (bool_decide_true (kDisconnecting = kDisconnecting)) by done.
  cbn [orb mbind option_bind]. set (conn1 := queueInLoop _ _).
  assert (pending_ conn1 = [TForceClose]) as Hp1 by (unfold conn1; cbn; by rewrite Hp). rewrite Hp1.
  eexists. split; [done|]. unfold run_orphan. cbn [orphan_]. rewrite Hp1. cbn [run_task]. unfold forceCloseInLoop.
  change (TcpConnection.state_ (set_pending [] conn1)) with kDisconnecting. rewrite orb_true_r.
  unfold handleClose. case_guard; [|cbn in *; tauto]. cbn [mbind option_bind]. rewrite Hu. cbn.
  rewrite drop_registered; [done|]. apply disableAll_added.
Qed.

(** ** Samples *)

Definition established : TcpConnection :=
  default (conn_new 1 5 EPollPoller_new false two_bytes_kernel)
    (conn_run [Established no_acts] (conn_new 1 5 EPollPoller_new false two_bytes_kernel)).

Lemma established_inv : conn_inv established.
Proof.
  destruct (conn_run_ok [Established no_acts] (conn_new 1 5 EPollPoller_new false two_bytes_kernel)) as (c & E & I & _).
  - by apply conn_inv_new; [..|exact two_bytes_kernel_ok].
  - vm_compute. intuition congruence.
  - unfold established. rewrite E. exact I.
Qed.

Definition up_client : TcpClient := set_connection established (TcpClient_new true).
Definition half_closed_client : TcpClient := client_disconnect up_client.

Lemma half_closed_client_inv : conn_inv (conn_shutdown established).
Proof. apply inv_conn_shutdown, established_inv. Qed.

Lemma closed_connection_torn_down_witness :
  exists conn', handleClose no_acts established = Some conn' /\ downs_ conn' = 1%nat /\
    run_orphan no_acts (removeConnection (set_connection conn' up_client)) =
      Some (mkClient (connector_ up_client) None None (nextConnId_ up_client) (connName_ up_client)).
Proof.
  apply (closed_connection_torn_down no_acts no_acts up_client established); try done; [exact established_inv|by left].
Defined.

Lemma destroy_connected_client_witness :
  exists c', client_destroy no_acts up_client = Some c' /\ connection_ c' = None /\ orphan_ c' = orphan_ up_client.
Proof. apply (destroy_connected_client no_acts up_client established); try done. exact established_inv. Defined.

Lemma destroy_disconnecting_client_aborts_witness :
  exists c', client_destroy no_acts half_closed_client = Some c' /\ run_orphan no_acts c' = None.
Proof.
  apply (destroy_disconnecting_client_aborts no_acts half_closed_client (conn_shutdown established)); try done.
  exact half_closed_client_inv.
Defined.
