(* ===== verification/ClientSession.v ===== *)
(** * ClientSession: a client from the first [connect()] to its end

    The connector, the connection it delivers and the client that owns both
    ([src/TcpClient.cpp], [src/Connector.cpp], [src/TcpConnection.cpp]) run
    together: dialling with retries, the one connection, its close and teardown,
    [disconnect], [stop] and destruction. *)
From S2P Require Import Prelude Buffer Channel Charconv Connector TcpConnection ConnFrame TcpClient.

(** ** The composed client *)

(** What [newConnection] finds when the connector delivers a descriptor: the
    addresses, the new channel's address, the loop's poller, the kernel's answers
    to the writes to come, and what the user's callback does. *)
Record Dial := mkDial {
  d_name : bytes;
  d_peer : bytes;
  d_ptr : Z;
  d_poller : EPollPoller;
  d_writeCb : bool;
  d_answer : nat -> Z -> io_result Z;
  d_user : callback -> list act
}.

(** Something happens to the connector ([connect()] included), to the connection,
    to the connection the client has let go of, or the user calls the client. *)
Inductive session_event :=
| SDial (e : Connector.event) (d : Dial)
| SConn (e : conn_event)
| SOrphan (user : callback -> list act)
| SDisconnect
| SStop.

(** The descriptor the connector has handed out, if any. *)
Definition delivery (k k' : Connector.Connector) : option Z :=
  fst <$> head (drop (length (delivered k)) (delivered k')).

(** The constructor of [TcpClient] ties the callbacks: a delivery calls
    [newConnection], the close of the connection calls [removeConnection]. *)
Definition session_step (e : session_event) (c : TcpClient) : option TcpClient :=
  match e with
  | SDial e d =>
      k ← connector_step (connector_ c) e;
      let c' := set_connector k c in
      match delivery (connector_ c) k with
      | Some fd => newConnection (d_name d) (d_peer d) (d_ptr d) fd (d_poller d) (d_writeCb d) (d_answer d) (d_user d) c'
      | None => Some c'
      end
  | SConn e =>
      match connection_ c with
      | None => Some c
      | Some conn =>
          conn' ← conn_step e conn;
          let c := set_connection conn' c in
          Some (if (closes_ conn <? closes_ conn')%nat then removeConnection c else c)
      end
  | SOrphan user => run_orphan user c
  | SDisconnect => Some (client_disconnect c)
  | SStop => Some (client_stop c)
  end.

Fixpoint session_run (es : list session_event) (c : TcpClient) : option TcpClient :=
  match es with
  | [] => Some c
  | e :: es => c ← session_step e c; session_run es c
  end.

(** ** Contracts *)

(** The loop and the kernel act within the contracts of the parts; the channel's
    descriptor is not in the poller when the connection is made. *)
Definition session_event_ok (e : session_event) (c : TcpClient) : Prop :=
  match e with
  | SDial e d =>
      Connector.event_ok false (connector_ c) e = true /\ calm_event e = true /\ user_total (d_user d) < 2 ^ 60 /\
      (forall k l n, d_answer d k l = IoOk n -> 0 <= n <= l) /\
      forall k fd, connector_step (connector_ c) e = Some k -> delivery (connector_ c) k = Some fd ->
        channels_ (d_poller d) !! fd = None /\ kernel_ (d_poller d) !! fd = None
  | SConn e =>
      match connection_ c with
      | Some conn => conn_event_ok e conn /\ match e with Established _ | PostDestroyed => False | _ => True end
      | None => True
      end
  | SOrphan user =>
      match orphan_ c with
      | Some conn => forall t, head (pending_ conn) = Some t -> len (accepted_ conn) + user_total user + task_bytes t < 2 ^ 60
      | None => True
      end
  | SDisconnect | SStop => True
  end.

Fixpoint session_events_ok (es : list session_event) (c : TcpClient) : Prop :=
  match es with
  | [] => True
  | e :: es => session_event_ok e c /\ match session_step e c with Some c' => session_events_ok es c' | None => True end
  end.

(** ** A connection the client has let go of *)

Definition conn_removable (conn : TcpConnection) : Prop :=
  conn_inv conn /\ state_ conn = kDisconnected /\ eventHandling_ (channel_ conn) = false /\
  (TDestroyed ∈ pending_ conn \/ chan_destroy_ok (channel_ conn) = true).

(** A queued functor runs on a connection that is down. *)
Lemma removable_task t ts user conn :
  conn_removable conn -> pending_ conn = t :: ts -> len (accepted_ conn) + user_total user + task_bytes t < 2 ^ 60 ->
  exists conn', run_task t user (set_pending ts conn) = Some conn' /\ conn_removable conn' /\ pending_ conn' = ts.
Proof.
  intros (I & Hs & Hh & Hd) Ep Hl.
  destruct (run_task_ok t ts user conn I Ep) as (conn' & E & I' & _); [by rewrite Hs|done|].
  exists conn'. split; [done|]. unfold conn_removable. rewrite Ep, elem_of_cons in Hd.
  assert (t = TDestroyed \/ t <> TDestroyed) as [->|Hne] by (destruct t; auto).
  - unfold user_total in Hl. pose proof (total_send_nonneg (user OnMessage)). pose proof (total_send_nonneg (user OnWriteComplete)).
    destruct (connectDestroyed_releases user (set_pending ts conn)) as (c1 & E1 & Hdrop & Hp1 & _).
    + destruct I. split; cbn; auto. congruence.
    + by right.
    + done.
    + cbn in *. lia.
    + cbn [run_task] in E. rewrite E in E1. injection E1 as <-. apply drop_connection_ok in Hdrop as [? Hok].
      split; [|done]. split_and!; auto.
      unfold chan_destroy_ok in Hok. destruct (eventHandling_ (channel_ conn')); done.
  - assert (channel_ conn' = channel_ conn /\ state_ conn' = kDisconnected /\ pending_ conn' = ts) as (Hc & Hs' & Hp').
    { destruct t; cbn [run_task] in E; [| | | |done].
      - unfold sendInLoop in E. cbn [state_ set_pending] in E. rewrite Hs, bool_decide_true in E by done. by injection E as <-.
      - injection E as <-. unfold shutdownInLoop. by destruct (negb _).
      - unfold forceCloseInLoop in E. cbn [state_ set_pending] in E. rewrite Hs in E. by injection E as <-.
      - destruct (perform_down (user OnWriteComplete) _ (Hs : state_ (set_pending ts conn) = _)) as (? & E' & ? & ? & ? & _). rewrite E in E'. by simplify_eq. }
    split; [|done]. rewrite Hc, Hp'. split_and!; [done..|]. destruct Hd as [[?|?]|?]; auto; by destruct Hne.
Qed.

Lemma removable_drop conn : conn_removable conn -> pending_ conn = [] -> drop_connection conn = Some tt.
Proof.
  intros (_ & Hs & _ & Hd) Hp. rewrite Hp in Hd. destruct Hd as [?|Hd]; [set_solver|]. by apply drop_connection_ok.
Qed.

(** ** The invariant *)

Record session_inv (c : TcpClient) : Prop := {
  se_connector : connector_inv (connector_ c);
  se_alive : alive (connector_ c) = true;
  se_spent : delivered (connector_ c) <> [] -> Connector.state_ (connector_ c) = Connector.kConnected;
  se_one : (length (delivered (connector_ c)) <= 1)%nat;
  se_id : nextConnId_ c = 1 + Z.of_nat (length (delivered (connector_ c)));
  se_live : forall conn, connection_ c = Some conn -> conn_live conn /\ delivered (connector_ c) <> [] /\ orphan_ c = None;
  se_down : forall conn, orphan_ c = Some conn ->
    conn_removable conn /\ pending_ conn <> [] /\ delivered (connector_ c) <> [] /\ connection_ c = None
}.

Lemma session_new deadline : session_inv (TcpClient_new deadline).
Proof. pose proof (Connector_new_inv deadline). split; cbn; try done. lia. Qed.

(** Stopping the connector of a client that has a connection does nothing. *)
Lemma session_stopped c : session_inv c -> session_inv (set_connector (stopInLoop (connector_ c)) c).
Proof.
  intros []. destruct (stop_acted (connector_ c)) as (k & [= <-] & Ha & Hi & Hd & _); [done..|].
  split; cbn [connector_ connection_ orphan_ nextConnId_ set_connector]; rewrite ?Hd; auto.
  intros Hne. specialize (se_spent0 Hne). unfold stopInLoop. by rewrite se_spent0.
Qed.

Lemma session_connection conn c :
  session_inv c -> is_Some (connection_ c) -> conn_live conn -> session_inv (set_connection conn c).
Proof.
  intros [] [conn0 Hc] L. destruct (se_live0 conn0 Hc) as (_ & ? & ?). split; cbn; auto; [naive_solver|]. intros conn' Ho. congruence.
Qed.

Lemma delivery_spec k k' :
  advances k k' ->
  match delivery k k' with
  | None => delivered k' = delivered k
  | Some fd => exists st, delivered k' = delivered k ++ [(fd, st)] /\ Connector.state_ k' = Connector.kConnected
  end.
Proof.
  intros [_ _ _ [E|([fd st] & E & Hs)]]; unfold delivery; rewrite E.
  - by rewrite drop_all.
  - rewrite drop_app_length. cbn. eauto.
Qed.

Lemma dial_step e d c :
  session_inv c -> session_event_ok (SDial e d) c -> exists c', session_step (SDial e d) c = Some c' /\ session_inv c'.
Proof.
  intros Hi (He & Hc & Hu & Ha & Hp). cbn [session_step].
  destruct (connector_step_ok false _ e (se_connector _ Hi) He) as (k & E & _ & _).
  pose proof (step_advances false _ e k (se_connector _ Hi) (se_alive _ Hi) He Hc E) as Hadv.
  pose proof (delivery_spec _ _ Hadv) as Hd. destruct Hadv as [Hal Hki Hsp _]. destruct Hi.
  rewrite E. cbn [mbind option_bind]. specialize (Hp k). destruct (delivery (connector_ c) k) as [fd|].
  - destruct Hd as (st & Hd & Hs). assert (delivered (connector_ c) = []) as H0.
    { destruct (delivered (connector_ c)) as [|x l] eqn:El; [done|]. destruct Hsp as [_ Hsame]; [by apply se_spent0|].
      rewrite Hsame in Hd. apply (f_equal length) in Hd. rewrite length_app in Hd. cbn in Hd. lia. }
    destruct (Hp fd E eq_refl) as [Hpc Hpk]. unfold newConnection.
    destruct (live_established (d_ptr d) fd (d_poller d) (d_writeCb d) (d_answer d) (d_user d) Hpc Hpk Ha Hu) as (conn & -> & L).
    eexists. split; [done|]. rewrite H0 in *. split; cbn [connector_ connection_ orphan_ nextConnId_ set_connector mbind option_bind]; rewrite ?Hd; try done.
    + rewrite se_id0. done.
    + intros conn' [= <-]. split_and!; try done. destruct (orphan_ c) as [o|]; [|done]. by destruct (se_down0 o eq_refl) as (_ & _ & ? & _).
    + intros o Ho. by destruct (se_down0 o Ho) as (_ & _ & ? & _).
  - eexists. split; [done|]. split; cbn [connector_ connection_ orphan_ nextConnId_ set_connector]; rewrite ?Hd; auto.
    intros Hne. by apply Hsp, se_spent0.
Qed.

Lemma conn_event_step e c :
  session_inv c -> session_event_ok (SConn e) c -> exists c', session_step (SConn e) c = Some c' /\ session_inv c'.
Proof.
  intros Hi He. cbn [session_step session_event_ok] in *. destruct (connection_ c) as [conn|] eqn:Hc; [|by exists c].
  destruct He as [He Hne]. destruct (se_live _ Hi conn Hc) as (L & Hdel & Ho). destruct (live_counts conn L) as [Hcl _].
  destruct (live_step e conn L He Hne) as (conn' & -> & Hcase). cbn [mbind option_bind]. eexists. split; [done|]. rewrite Hcl.
  destruct Hcase as [[-> L']|(-> & I' & Hs & Hh)]; cbn [Nat.ltb Nat.leb]; [apply session_connection; [done|by exists conn|done]|].
  destruct Hi. unfold removeConnection. cbn [connection_ set_connection].
  split; cbn [connector_ connection_ orphan_ nextConnId_ set_connection]; auto; [done|].
  intros o [= <-]. split_and!; [split_and!|..]; try done.
  - apply inv_queue; [done|congruence|done].
  - left. cbn. set_solver.
  - cbn. by destruct (pending_ conn').
Qed.

Lemma orphan_step user c :
  session_inv c -> session_event_ok (SOrphan user) c ->
  exists c', session_step (SOrphan user) c = Some c' /\ session_inv c' /\
    match orphan_ c with
    | Some conn => match orphan_ c' with
                   | Some conn' => pending_ conn' = tail (pending_ conn) /\ pending_ conn' <> []
                   | None => length (pending_ conn) = 1%nat
                   end
    | None => c' = c
    end.
Proof.
  intros Hi He. cbn [session_step session_event_ok] in *. unfold run_orphan. destruct (orphan_ c) as [conn|] eqn:Ho; [|by exists c].
  destruct (se_down _ Hi conn Ho) as (R & Hp & Hd & Hc). destruct (pending_ conn) as [|t ts] eqn:Ep; [done|].
  destruct (removable_task t ts user conn R Ep (He t eq_refl)) as (conn' & -> & R' & Hp'). cbn [mbind option_bind]. rewrite Hp'.
  destruct Hi. destruct ts as [|t' ts].
  - rewrite (removable_drop conn') by done. cbn [mbind option_bind]. eexists. split; [done|]. split; [|done].
    split; cbn; auto; intros; congruence.
  - eexists. split; [done|]. split; [|cbn; by rewrite Hp']. split; cbn; auto; [congruence|].
    intros o [= <-]. by rewrite Hp'.
Qed.

Lemma session_step_ok e c :
  session_inv c -> session_event_ok e c -> exists c', session_step e c = Some c' /\ session_inv c'.
Proof.
  intros Hi He. destruct e as [e d|e|user| |].
  - by apply dial_step.
  - by apply conn_event_step.
  - destruct (orphan_step user c Hi He) as (c' & ? & ? & _). eauto.
  - eexists. split; [done|]. unfold client_disconnect. destruct (connection_ c) as [conn|] eqn:Hc; [|by apply session_stopped].
    apply session_connection; [done|by exists conn|]. apply live_shutdown. by apply (se_live _ Hi).
  - eexists. split; [done|]. unfold client_stop. pose proof (session_stopped c Hi) as Hi'.
    destruct (connection_ (set_connector _ c)) as [conn|] eqn:Hc; [|done].
    apply session_connection; [done|by exists conn|]. apply live_forceClose. by apply (se_live _ Hi').
Qed.

Lemma session_run_ok es : forall c,
  session_inv c -> session_events_ok es c -> exists c', session_run es c = Some c' /\ session_inv c'.
Proof.
  induction es as [|e es IH]; intros c Hi He; cbn in *; [by exists c|]. destruct He as [He Hes].
  destruct (session_step_ok e c Hi He) as (c1 & E & Hi1). rewrite E in Hes |- *. by apply IH.
Qed.

(** ** The end of a session *)

Lemma drained user n : forall c conn,
  session_inv c -> orphan_ c = Some conn -> length (pending_ conn) = n ->
  session_events_ok (replicate n (SOrphan user)) c ->
  exists c', session_run (replicate n (SOrphan user)) c = Some c' /\ orphan_ c' = None.
Proof.
  induction n as [|n IH]; intros c conn Hi Ho Hn Hok.
  { destruct (se_down _ Hi conn Ho) as (_ & Hp & _). by destruct (pending_ conn). }
  cbn [replicate session_run session_events_ok] in *. destruct Hok as [He Hes].
  destruct (orphan_step user c Hi He) as (c1 & E & Hi1 & Hcase). rewrite E in Hes |- *. cbn [mbind option_bind]. rewrite Ho in Hcase.
  destruct (orphan_ c1) as [conn1|] eqn:Ho1.
  - destruct Hcase as [Hp _]. apply (IH c1 conn1); try done. rewrite Hp. destruct (pending_ conn); cbn in *; lia.
  - rewrite Hcase in Hn. injection Hn as <-. by exists c1.
Qed.

Lemma stop_idle c : session_inv c -> idle (stopInLoop (connector_ c)).
Proof.
  intros Hi%session_stopped. apply (Connector.ci_idle _ (se_connector _ Hi) (se_alive _ Hi)). cbn. unfold stopInLoop.
  destruct (Connector.state_ (connector_ c)) eqn:Hs; [congruence| |congruence|done].
  cbn. destruct (release_fields (Connector.set_state Connector.kDisconnected (connector_ c))) as (-> & _). done.
Qed.

Lemma destroyed user c :
  session_inv c ->
  match connection_ c with
  | Some conn => state_ conn = kConnected /\ len (accepted_ conn) + total_send (user OnConnection) < 2 ^ 60
  | None => True
  end ->
  exists c', client_destroy user c = Some c' /\ connection_ c' = None /\ idle (connector_ c').
Proof.
  intros Hi Hc. pose proof (stop_idle c Hi). unfold client_destroy. cbn [connection_ set_connector connector_].
  destruct (connection_ c) as [conn|] eqn:E; [|by eexists]. destruct Hc as [Hs Hl].
  destruct (se_live _ Hi conn E) as ([I U Hh Hp] & _). unfold conn_connected. rewrite bool_decide_true by done.
  destruct (connectDestroyed_releases user conn I (or_introl Hs) Hh Hl) as (conn' & -> & Hd & _). cbn [mbind option_bind].
  destruct (pending_ conn'); [rewrite Hd|]; by eexists.
Qed.

(** C17: The life of a client.  Whatever happens to the connector (failures, retries
    from the error callback, timeouts), to the connection, and through
    [disconnect] and [stop], as long as no callback destroys the client and the
    connection does not go down between the check and the store of a [shutdown] or
    [forceClose] on another thread: no assertion fails; the client makes at most one
    connection, and once it is made the connector holds no socket, channel or
    timer and dials no more; the connection the client owns is up and was
    reported up once; when it goes down the client lets go of it, and the
    functors queued for it remove its channel from the poller and release it;
    and destroying the client, with no connection or with one in state [kConnected]
    (that is, neither half closed by its peer nor told to close by [disconnect] or
    [stop]), succeeds and leaves nothing of an attempt behind. *)
Theorem client_session deadline es :
  session_events_ok es (TcpClient_new deadline) ->
  exists c, session_run es (TcpClient_new deadline) = Some c /\
    (length (delivered (connector_ c)) <= 1)%nat /\ nextConnId_ c = 1 + Z.of_nat (length (delivered (connector_ c))) /\
    (delivered (connector_ c) <> [] -> idle (connector_ c)) /\
    (forall conn, connection_ c = Some conn ->
       up conn /\ ups_ conn = 1%nat /\ downs_ conn = 0%nat /\ orphan_ c = None) /\
    (forall conn, orphan_ c = Some conn ->
       connection_ c = None /\ state_ conn = kDisconnected /\ downs_ conn = 1%nat /\
       forall user, session_events_ok (replicate (length (pending_ conn)) (SOrphan user)) c ->
         exists c', session_run (replicate (length (pending_ conn)) (SOrphan user)) c = Some c' /\ orphan_ c' = None) /\
    (forall user, match connection_ c with
                  | Some conn => state_ conn = kConnected /\ len (accepted_ conn) + total_send (user OnConnection) < 2 ^ 60
                  | None => True
                  end ->
       exists c', client_destroy user c = Some c' /\ connection_ c' = None /\ idle (connector_ c')).
Proof.
  intros Hok. destruct (session_run_ok es _ (session_new deadline) Hok) as (c & E & Hi). exists c.
  split; [done|]. split; [apply Hi|]. split; [apply Hi|]. split_and!.
  - intros Hne. apply (Connector.ci_idle _ (se_connector _ Hi) (se_alive _ Hi)). by rewrite (se_spent _ Hi Hne).
  - intros conn Hc. destruct (se_live _ Hi conn Hc) as (L & _ & Ho). destruct (live_counts conn L) as [_ Hd].
    destruct L as [I U _ _]. split_and!; try done. rewrite (ci_ups _ I), decide_False; [done|]. by destruct U as [-> | ->].
  - intros conn Ho. destruct (se_down _ Hi conn Ho) as ((I & Hs & _) & _ & _ & Hc). split_and!; try done.
    + by rewrite (ci_downs _ I), decide_True.
    + intros user. by apply (drained user _ c conn).
  - intros user. by apply destroyed.
Qed.

(** ** A sample session: refused once, retried by the error callback, connected,
    some bytes sent, closed by the peer. *)

Definition sample_dial : Dial := mkDial (str "client") (str "127.0.0.1:80") 7 EPollPoller_new false two_bytes_kernel no_acts.

Definition sample_session : list session_event :=
  [SDial (ECall (AStart (inl 5) EINPROGRESS false [])) sample_dial;
   SDial (EKernel 5 (SFailed ECONNREFUSED)) sample_dial;
   SDial (EReady 5 true false [AStart (inl 6) EINPROGRESS false []] []) sample_dial;
   SDial (EKernel 6 (SConnected false)) sample_dial;
   SDial (EReady 6 false true [] []) sample_dial;
   SConn (UserAct (ASend (str "hi")));
   SConn (Ready EPOLLIN (IoOk []) no_acts)].

Lemma events_ok_cons e es c c' :
  session_event_ok e c -> session_step e c = Some c' -> session_events_ok es c' -> session_events_ok (e :: es) c.
Proof. intros He E Hes. cbn. by rewrite E. Qed.

Lemma sample_dial_ok e c :
  Connector.event_ok false (connector_ c) e = true -> calm_event e = true -> session_event_ok (SDial e sample_dial) c.
Proof. intros He Hc. split_and!; try done. exact two_bytes_kernel_ok. Qed.

Lemma sample_session_ok : session_events_ok sample_session (TcpClient_new true).
Proof.
  do 5 (eapply events_ok_cons; [apply sample_dial_ok; vm_compute; reflexivity|vm_compute; reflexivity|]).
  eapply events_ok_cons; [vm_compute; intuition congruence|vm_compute; reflexivity|].
  eapply events_ok_cons; [|vm_compute; reflexivity|done].
  split; [|done]. split_and!; [vm_compute; eauto|done|vm_compute; intuition congruence|vm_compute; done].
Qed.

Lemma client_session_witness :
  exists c, session_run sample_session (TcpClient_new true) = Some c /\ (length (delivered (connector_ c)) <= 1)%nat.
Proof.
  destruct (client_session true sample_session sample_session_ok) as (c & E & H & _). exists c. split; [exact E|exact H].
Defined.

(** The peer's close left the connection with its teardown queued. *)
Example sample_session_closed :
  (c ← session_run sample_session (TcpClient_new true); conn ← orphan_ c; Some (pending_ conn)) = Some [TDestroyed].
Proof. vm_compute. reflexivity. Qed.
