(* ===== verification/Wire.v ===== *)
(** * Wire: the bench record and its fixed-layout codecs

    The record and the two fixed-layout codecs of
    [bench/serialization_bench.cpp]: the [User] struct, the little-endian
    integer helpers, the raw length-prefixed format ([rawEncode],
    [rawDecode]), the FlatBuffers-style format with its zero-copy view
    ([flatEncode], [flatDecode]), the two comparisons [sameUser] and the two
    checksums.  A decoder takes the record its out pointer refers to and
    returns the [bool] with the record afterwards, partial updates of a
    failing decode included; [None] is a read outside the input.  The objects
    [memcpy] copies are little-endian two's-complement integers, as on the
    x86-64 and AArch64 targets of the project. *)
From S2P Require Import Prelude.

(** ** The record *)

Record User := mkUser {
  u_id : Z;
  u_score : Z;
  u_active : bool;
  u_tags : list Z;
  u_name : bytes;
  u_email : bytes
}.

(** [User user;]: the member initialisers. *)
Definition defaultUser : User :=
  mkUser 42 87 true [1; 2; 3; 4] (str "alice") (str "alice@example.com").

(** Every member fits its C++ type. *)
Definition is_i32 (z : Z) : Prop := - 2 ^ 31 <= z < 2 ^ 31.
Definition user_wf (u : User) : Prop :=
  0 <= u_id u < 2 ^ 64 /\ is_i32 (u_score u) /\ Forall is_i32 (u_tags u).

(** [static_cast<int32_t>] and [static_cast<int8_t>] of an unsigned value. *)
Definition i32 (z : Z) : Z := let w := z mod 2 ^ 32 in if w <? 2 ^ 31 then w else w - 2 ^ 32.
Definition i8 (z : Z) : Z := let w := z mod 2 ^ 8 in if w <? 2 ^ 7 then w else w - 2 ^ 8.

Definition set_id (v : Z) (u : User) : User :=
  mkUser v (u_score u) (u_active u) (u_tags u) (u_name u) (u_email u).
Definition set_score (v : Z) (u : User) : User :=
  mkUser (u_id u) v (u_active u) (u_tags u) (u_name u) (u_email u).
Definition set_active (v : bool) (u : User) : User :=
  mkUser (u_id u) (u_score u) v (u_tags u) (u_name u) (u_email u).
Definition set_tags (v : list Z) (u : User) : User :=
  mkUser (u_id u) (u_score u) (u_active u) v (u_name u) (u_email u).
Definition set_name (v : bytes) (u : User) : User :=
  mkUser (u_id u) (u_score u) (u_active u) (u_tags u) v (u_email u).
Definition set_email (v : bytes) (u : User) : User :=
  mkUser (u_id u) (u_score u) (u_active u) (u_tags u) (u_name u) v.

(** [u->tags.push_back(v)] *)
Definition push_tag (v : Z) (u : User) : User := set_tags (u_tags u ++ [v]) u.

Definition sameUser (a b : User) : bool :=
  (u_id a =? u_id b) && (u_score a =? u_score b) && eqb (u_active a) (u_active b) &&
  bool_decide (u_tags a = u_tags b) && bool_decide (u_name a = u_name b) &&
  bool_decide (u_email a = u_email b).

(** ** Little-endian integers *)

(** The bytes [i], [i + 1], ... of [v], the loop of [putU32] and [putU64]. *)
Fixpoint put_le (n : nat) (i v : Z) : bytes :=
  match n with
  | O => []
  | S n => z2b (Z.land (Z.shiftr v (8 * i)) 0xFF) :: put_le n (i + 1) v
  end.
Definition putU32 (v : Z) : bytes := put_le 4 0 v.
Definition putU64 (v : Z) : bytes := put_le 8 0 v.

Fixpoint get_le (n : nat) (i : Z) (inp : bytes) (p v : Z) : option Z :=
  match n with
  | O => Some v
  | S n => b ← at_ inp (p + i); get_le n (i + 1) inp p (Z.lor v (Z.shiftl (b2z b) (8 * i)))
  end.
Definition getU32 (inp : bytes) (p : Z) : option Z := get_le 4 0 inp p 0.
Definition getU64 (inp : bytes) (p : Z) : option Z := get_le 8 0 inp p 0.

(** ** The raw format *)

Definition rawEncode (u : User) : bytes :=
  putU64 (u_id u) ++ putU32 (u32 (u_score u)) ++
  [if u_active u then z2b 1 else z2b 0] ++ [z2b (len (u_tags u))] ++
  concat ((fun tag => putU32 (u32 tag)) <$> u_tags u) ++
  putU32 (u32 (len (u_name u))) ++ u_name u ++
  putU32 (u32 (len (u_email u))) ++ u_email u.

(** [for (uint8_t i = 0; i < tagCount; ++i, p += 4)]: the record and [p]
    afterwards. *)
Fixpoint rawTags (n : nat) (inp : bytes) (p : Z) (u : User) : option (User * Z) :=
  match n with
  | O => Some (u, p)
  | S n => v ← getU32 inp p; rawTags n inp (p + 4) (push_tag (i32 v) u)
  end.

Definition rawDecode (inp : bytes) (u : User) : option (bool * User) :=
  let fin := len inp in
  if fin - 0 <? 14 then Some (false, u) else
  c12 ← at_ inp 12;
  if 64 <? b2z c12 then Some (false, u) else
  i ← getU64 inp 0;
  s ← getU32 inp 8;
  c13 ← at_ inp 13;
  let u := set_active (negb (b2z c12 =? 0)) (set_score (i32 s) (set_id i u)) in
  let tagCount := b2z c13 in
  if fin - 14 <? tagCount * 4 + 4 then Some (false, u) else
  '(u, p) ← rawTags (Z.to_nat tagCount) inp 14 (set_tags [] u);
  nameLen ← getU32 inp p;
  let p := p + 4 in
  if fin - p <? nameLen + 4 then Some (false, u) else
  nm ← slice inp p nameLen;
  let u := set_name nm u in
  let p := p + nameLen in
  emailLen ← getU32 inp p;
  let p := p + 4 in
  if fin - p <? emailLen then Some (false, u) else
  em ← slice inp p emailLen;
  Some (true, set_email em u).

(** ** The FlatBuffers-style format *)

Definition kFlatTagsOffset : Z := 16.
Definition kFlatOffsets : Z := 32.
Definition kFlatHeader : Z := 40.

(** The view [flatDecode] fills in.  [fv_tags] is the pointer into the encoded
    buffer as an offset, [None] for [nullptr]. *)
Record FlatView := mkView {
  fv_id : Z;
  fv_score : Z;
  fv_active : bool;
  fv_tags : option Z;
  fv_count : Z;
  fv_name : bytes;
  fv_email : bytes
}.

Definition emptyView : FlatView := mkView 0 0 false None 0 [] [].

(** [for (i = 0; i < u.tags.size() && i < 4; ++i) memcpy(out + 16 + 4 i, ...)] *)
Fixpoint flatTags (i : Z) (ts : list Z) (out : bytes) : option bytes :=
  match ts with
  | [] => Some out
  | t :: ts =>
      if i <? 4 then
        out ← store out (kFlatTagsOffset + i * 4) (put_le 4 0 (u32 t));
        flatTags (i + 1) ts out
      else Some out
  end.

Definition flatEncode (u : User) : option bytes :=
  let out := replicate (Z.to_nat kFlatHeader) x00 in
  out ← store out 0 (put_le 8 0 (u_id u));
  out ← store out 8 (put_le 4 0 (u32 (u_score u)));
  out ← store out 12 [if u_active u then z2b 1 else z2b 0];
  out ← store out 13 [z2b (len (u_tags u))];
  out ← flatTags 0 (u_tags u) out;
  let nameOff := u32 (len out) in
  let out := out ++ u_name u in
  let emailOff := u32 (len out) in
  let out := out ++ u_email u in
  out ← store out kFlatOffsets (put_le 4 0 nameOff);
  store out (kFlatOffsets + 4) (put_le 4 0 emailOff).

(** [in.substr(pos, n)]: at most [n] characters; [None] is the
    [std::out_of_range] thrown when [pos] is past the end. *)
Definition substr (inp : bytes) (pos n : Z) : option bytes :=
  if len inp <? pos then None else slice inp pos (Z.min n (len inp - pos)).

Definition flatDecode (inp : bytes) (v : FlatView) : option (bool * FlatView) :=
  if len inp <? kFlatHeader then Some (false, v) else
  i ← get_le 8 0 inp 0 0;
  s ← get_le 4 0 inp 8 0;
  c12 ← at_ inp 12;
  c13 ← at_ inp 13;
  let act := negb (b2z c12 =? 0) in
  let tagCount := b2z c13 in
  if 4 <? tagCount then
    Some (false, mkView i (i32 s) act (fv_tags v) (fv_count v) (fv_name v) (fv_email v)) else
  let v := mkView i (i32 s) act (Some kFlatTagsOffset) tagCount (fv_name v) (fv_email v) in
  nameOff ← get_le 4 0 inp kFlatOffsets 0;
  emailOff ← get_le 4 0 inp (kFlatOffsets + 4) 0;
  if (len inp <? nameOff) || (len inp <? emailOff) || (emailOff <? nameOff) then Some (false, v) else
  nm ← substr inp nameOff (emailOff - nameOff);
  em ← substr inp emailOff (len inp);
  Some (true, mkView i (i32 s) act (Some kFlatTagsOffset) tagCount nm em).

(** [memcpy(&tag, v.tagsBytes + i * 4, 4)] for the view of a buffer. *)
Definition viewTag (buf : bytes) (v : FlatView) (i : Z) : option Z :=
  base ← fv_tags v; w ← get_le 4 0 buf (base + i * 4) 0; Some (i32 w).

(** The loop of [sameUser(const FlatView &, const User &)]. *)
Fixpoint sameTags (buf : bytes) (v : FlatView) (i : Z) (ts : list Z) : option bool :=
  match ts with
  | [] => Some true
  | t :: ts =>
      tag ← viewTag buf v i;
      if negb (tag =? t) then Some false else sameTags buf v (i + 1) ts
  end.

Definition sameUserView (buf : bytes) (a : FlatView) (b : User) : option bool :=
  if negb (fv_id a =? u_id b) || negb (fv_score a =? u_score b) ||
     negb (eqb (fv_active a) (u_active b)) || negb (fv_count a =? len (u_tags b)) ||
     negb (bool_decide (fv_name a = u_name b)) || negb (bool_decide (fv_email a = u_email b))
  then Some false else sameTags buf a 0 (u_tags b).

(** ** Checksums *)

(** [sum += static_cast<uint64_t>(tag)]: the cast sign-extends. *)
Fixpoint sumTags (ts : list Z) (sum : Z) : Z :=
  match ts with [] => sum | t :: ts => sumTags ts (u64 (sum + u64 t)) end.

Definition rawChecksum (u : User) : Z :=
  sumTags (u_tags u)
    (u64 (u_id u + u64 (u_score u) + (if u_active u then 1 else 0) +
          len (u_name u) + len (u_email u))).

Fixpoint sumView (n : nat) (i : Z) (buf : bytes) (v : FlatView) (sum : Z) : option Z :=
  match n with
  | O => Some sum
  | S n => tag ← viewTag buf v i; sumView n (i + 1) buf v (u64 (sum + u64 tag))
  end.

Definition flatChecksum (buf : bytes) (v : FlatView) : option Z :=
  sumView (Z.to_nat (fv_count v)) 0 buf v
    (u64 (fv_id v + u64 (fv_score v) + (if fv_active v then 1 else 0) +
          len (fv_name v) + len (fv_email v))).

(** ** Integers through their little-endian bytes *)

Lemma i32_u32 z : is_i32 z -> i32 (u32 z) = z.
Proof. unfold is_i32, i32, u32. intros. rewrite Z.mod_mod by lia. zbool; dmlia. Qed.

Lemma i32_small z : is_i32 z -> i32 z = z.
Proof. unfold is_i32, i32. intros. zbool; dmlia. Qed.

Lemma i32_range z : is_i32 (i32 z).
Proof. unfold is_i32, i32. pose proof (Z.mod_pos_bound z (2 ^ 32)). zbool; lia. Qed.

Lemma u32_range z : 0 <= u32 z < 2 ^ 32.
Proof. apply Z.mod_pos_bound. lia. Qed.

Lemma put_le_len n i v : len (put_le n i v) = Z.of_nat n.
Proof. revert i. induction n as [|n IH]; intros i; [done|]. cbn [put_le]. rewrite len_cons, IH. lia. Qed.
#[export] Hint Rewrite put_le_len : rn_len.

Lemma at_here {A} (a l : list A) x i : i = len a -> at_ (a ++ x :: l) i = Some x.
Proof. intros ->. rewrite <- (Z.add_0_r (len a)), at_app_ge by lia. done. Qed.

Lemma at_mid {A} (a b l : list A) x : at_ (a ++ b ++ x :: l) (len a + len b) = Some x.
Proof. rewrite app_assoc, <- len_app. by apply at_here. Qed.

Lemma mod_pow_succ v k :
  0 <= k -> v mod 2 ^ (8 * (k + 1)) = v mod 2 ^ (8 * k) + (v / 2 ^ (8 * k)) mod 256 * 2 ^ (8 * k).
Proof.
  intros Hk. rewrite Z.mul_add_distr_l, Z.pow_add_r by lia. change (2 ^ (8 * 1)) with 256.
  rewrite Z.rem_mul_r by lia. lia.
Qed.

(** Reading [n] bytes of [v] at offset [i] completes what was read before. *)
Lemma get_le_put n : forall i v pre dn post inp,
  inp = pre ++ dn ++ put_le n i v ++ post -> len dn = i ->
  get_le n i inp (len pre) (v mod 2 ^ (8 * i)) = Some (v mod 2 ^ (8 * (i + Z.of_nat n))).
Proof.
  induction n as [|n IH]; intros i v pre dn post inp -> Hi.
  { cbn [get_le]. by rewrite Z.add_0_r. }
  pose proof (len_nonneg dn). cbn [get_le put_le app].
  rewrite <- Hi, at_mid. cbn [mbind option_bind].
  rewrite b2z_z2b, land_255, Z.mod_mod, Z.shiftr_div_pow2 by lia.
  rewrite lor_shiftl_add, <- mod_pow_succ by (lia || apply Z.mod_pos_bound; lia).
  replace (8 * (len dn + Z.of_nat (S n))) with (8 * ((len dn + 1) + Z.of_nat n)) by lia.
  eapply (IH _ _ _ (dn ++ [_]) post); [|solve_len].
  by rewrite <- !app_assoc.
Qed.

(** The form the round trips use: [v] stored at offset [p]. *)
Lemma get_le_at n inp p pre v post :
  inp = pre ++ put_le n 0 v ++ post -> p = len pre -> 0 <= v < 2 ^ (8 * Z.of_nat n) ->
  get_le n 0 inp p 0 = Some v.
Proof.
  intros -> -> Hv. pose proof (get_le_put n 0 v pre [] post _ eq_refl eq_refl) as H.
  rewrite Z.mul_0_r, Z.mod_1_r, Z.add_0_l in H. cbn [app] in H. rewrite H. f_equal. by apply Z.mod_small.
Qed.

(** In-bounds reads succeed, and the value fits. *)
Lemma get_le_range n : forall i inp p v,
  0 <= i -> 0 <= p -> p + i + Z.of_nat n <= len inp -> 0 <= v < 2 ^ (8 * i) ->
  exists w, get_le n i inp p v = Some w /\ 0 <= w < 2 ^ (8 * (i + Z.of_nat n)).
Proof.
  induction n as [|n IH]; intros i inp p v Hi Hp Hl Hv; cbn [get_le].
  { exists v. by rewrite Z.add_0_r. }
  destruct (at_is_Some inp (p + i)) as [b Hb]; [lia|]. rewrite Hb. cbn [mbind option_bind].
  replace (i + Z.of_nat (S n)) with (i + 1 + Z.of_nat n) by lia.
  pose proof (b2z_range b). apply IH; [lia..|].
  rewrite lor_shiftl_add, Z.mul_add_distr_l, Z.pow_add_r by lia. change (2 ^ (8 * 1)) with 256. nia.
Qed.

Lemma get_le_0 n inp p :
  0 <= p -> p + Z.of_nat n <= len inp ->
  exists w, get_le n 0 inp p 0 = Some w /\ 0 <= w < 2 ^ (8 * Z.of_nat n).
Proof. intros. apply get_le_range; simpl; lia. Qed.

Lemma getU32_ok inp p : 0 <= p -> p + 4 <= len inp -> exists w, getU32 inp p = Some w /\ 0 <= w < 2 ^ 32.
Proof. intros. by apply (get_le_0 4). Qed.
Lemma getU64_ok inp p : 0 <= p -> p + 8 <= len inp -> exists w, getU64 inp p = Some w /\ 0 <= w < 2 ^ 64.
Proof. intros. by apply (get_le_0 8). Qed.

Lemma lor_u64 a b : 0 <= a < 2 ^ 64 -> 0 <= b < 2 ^ 64 -> 0 <= Z.lor a b < 2 ^ 64.
Proof.
  intros Ha Hb. assert (0 <= Z.lor a b) by (apply Z.lor_nonneg; lia). split; [done|].
  destruct (Z.eq_dec (Z.lor a b) 0) as [->|]; [lia|]. apply Z.log2_lt_pow2; [lia|].
  rewrite Z.log2_lor by lia.
  assert (forall z, 0 <= z < 2 ^ 64 -> Z.log2 z < 64) as Hlog.
  { intros z Hz. destruct (Z.eq_dec z 0) as [->|]; [done|]. apply Z.log2_lt_pow2; lia. }
  pose proof (Hlog a Ha). pose proof (Hlog b Hb). lia.
Qed.

(** The members a decoder stores keep the record well formed. *)
Lemma set_id_wf v u : 0 <= v < 2 ^ 64 -> user_wf u -> user_wf (set_id v u).
Proof. unfold user_wf. cbn. tauto. Qed.
Lemma set_score_wf v u : is_i32 v -> user_wf u -> user_wf (set_score v u).
Proof. unfold user_wf. cbn. tauto. Qed.
Lemma set_active_wf v u : user_wf u -> user_wf (set_active v u).
Proof. unfold user_wf. cbn. tauto. Qed.
Lemma set_name_wf v u : user_wf u -> user_wf (set_name v u).
Proof. unfold user_wf. cbn. tauto. Qed.
Lemma set_email_wf v u : user_wf u -> user_wf (set_email v u).
Proof. unfold user_wf. cbn. tauto. Qed.
Lemma clear_tags_wf u : user_wf u -> user_wf (set_tags [] u).
Proof. intros (? & ? & _). split; [done|]. split; [done|constructor]. Qed.
Lemma push_tag_wf v u : is_i32 v -> user_wf u -> user_wf (push_tag v u).
Proof. intros ? (? & ? & ?). split; [done|]. split; [done|]. apply Forall_app. split; [done|by constructor]. Qed.

Create HintDb wire.
#[export] Hint Resolve set_id_wf set_score_wf set_active_wf set_name_wf set_email_wf clear_tags_wf push_tag_wf i32_range : wire.

(** ** The raw format round-trips, and never reads outside its input *)

(** What the one-byte tag count and the four-byte lengths can express. *)
Definition raw_fits (u : User) : Prop :=
  len (u_tags u) < 256 /\ len (u_name u) < 2 ^ 32 /\ len (u_email u) < 2 ^ 32.

Lemma rawTags_put ts : forall inp pre post u,
  inp = pre ++ concat ((fun tag => putU32 (u32 tag)) <$> ts) ++ post -> Forall is_i32 ts ->
  rawTags (length ts) inp (len pre) u = Some (set_tags (u_tags u ++ ts) u, len pre + 4 * len ts).
Proof.
  induction ts as [|t ts IH]; intros inp pre post u E Hts.
  { destruct u. cbn. by rewrite app_nil_r, Z.add_0_r. }
  apply Forall_cons_1 in Hts as [Ht Hts]. cbn [rawTags length fmap list_fmap concat] in *.
  unfold getU32 at 1. rewrite <- app_assoc in E.
  rewrite (get_le_at 4 inp (len pre) pre (u32 t) _ E eq_refl) by apply u32_range.
  cbn [mbind option_bind]. rewrite i32_u32 by done.
  replace (len pre + 4) with (len (pre ++ putU32 (u32 t))) by (unfold putU32; solve_len).
  rewrite (IH inp _ post); [|by rewrite <- app_assoc|done].
  f_equal. f_equal; [|unfold putU32; solve_len].
  unfold push_tag, set_tags. cbn. by rewrite <- app_assoc.
Qed.

Lemma concat_put_len ts : len (concat ((fun tag => putU32 (u32 tag)) <$> ts)) = 4 * len ts.
Proof.
  induction ts as [|t ts IH]; [done|]. cbn [fmap list_fmap concat].
  rewrite len_app, IH, len_cons. unfold putU32. rewrite put_le_len. lia.
Qed.

Lemma rawEncode_len u :
  len (rawEncode u) = 22 + 4 * len (u_tags u) + len (u_name u) + len (u_email u).
Proof.
  unfold rawEncode, putU32 at 1 3 4, putU64. rewrite !len_app, !put_le_len, concat_put_len, !len_cons, len_nil. lia.
Qed.

Lemma b2z_flag (b : bool) : b2z (if b then z2b 1 else z2b 0) = if b then 1 else 0.
Proof. by destruct b. Qed.

(** Decide the next comparison of the goal by linear arithmetic. *)
Ltac ltb_no :=
  match goal with |- context [?a <? ?b] => rewrite (proj2 (Z.ltb_ge a b)) by lia end.

(** The fixed fields of an encoding that starts with [rawEncode]'s header. *)
Lemma raw_header i s c k rest :
  0 <= i < 2 ^ 64 -> 0 <= s < 2 ^ 32 ->
  let inp := putU64 i ++ putU32 s ++ [c] ++ [k] ++ rest in
  getU64 inp 0 = Some i /\ getU32 inp 8 = Some s /\ at_ inp 12 = Some c /\ at_ inp 13 = Some k.
Proof.
  intros Hi Hs inp. split_and!; try done.
  - by eapply (get_le_at 8 _ 0 []).
  - by eapply (get_le_at 4 _ 8 (putU64 i)).
Qed.

(** A length-prefixed string. *)
Lemma raw_string pre s post inp p :
  inp = pre ++ putU32 (u32 (len s)) ++ s ++ post -> p = len pre -> len s < 2 ^ 32 ->
  getU32 inp p = Some (len s) /\ slice inp (p + 4) (len s) = Some s.
Proof.
  intros -> -> Hs. pose proof (len_nonneg s). rewrite u32_small by lia. split.
  - by eapply get_le_at.
  - rewrite (app_assoc pre). apply slice_app; [|done]. unfold putU32. solve_len.
Qed.

Lemma raw_roundtrip u u0 :
  user_wf u -> raw_fits u -> rawDecode (rawEncode u) u0 = Some (true, u).
Proof.
  intros (Hid & Hs & Ht) (Hc & Hn & He). pose proof (len_nonneg (u_tags u)).
  pose proof (len_nonneg (u_name u)). pose proof (len_nonneg (u_email u)).
  set (hd := putU64 (u_id u) ++ putU32 (u32 (u_score u)) ++
             [if u_active u then z2b 1 else z2b 0] ++ [z2b (len (u_tags u))]).
  set (tg := concat ((fun tag => putU32 (u32 tag)) <$> u_tags u)).
  assert (len tg = 4 * len (u_tags u)) as Htg by apply concat_put_len.
  assert (getU64 (rawEncode u) 0 = Some (u_id u) /\ getU32 (rawEncode u) 8 = Some (u32 (u_score u)) /\
    at_ (rawEncode u) 12 = Some (if u_active u then z2b 1 else z2b 0) /\
    at_ (rawEncode u) 13 = Some (z2b (len (u_tags u)))) as (Ri & Rs & R12 & R13)
    by (by apply raw_header; [|apply u32_range]).
  assert (E : rawEncode u = hd ++ tg ++ putU32 (u32 (len (u_name u))) ++ u_name u ++
              putU32 (u32 (len (u_email u))) ++ u_email u) by (unfold rawEncode, hd; by rewrite <- !app_assoc).
  destruct (raw_string (hd ++ tg) (u_name u) (putU32 (u32 (len (u_email u))) ++ u_email u)
    (rawEncode u) (14 + 4 * len (u_tags u))) as [Rn Sn];
    [by rewrite E, <- app_assoc|rewrite len_app, Htg; done|done|].
  destruct (raw_string (hd ++ tg ++ putU32 (u32 (len (u_name u))) ++ u_name u) (u_email u) []
    (rawEncode u) (14 + 4 * len (u_tags u) + 4 + len (u_name u))) as [Re Se];
    [by rewrite E, <- !app_assoc, app_nil_r|rewrite !len_app, Htg; change (len hd) with 14;
       unfold putU32; rewrite put_le_len; lia|done|].
  pose proof (rawTags_put (u_tags u) (rawEncode u) hd _
    (set_tags [] (set_active (u_active u) (set_score (u_score u) (set_id (u_id u) u0)))) E Ht) as RT.
  change (len hd) with 14 in RT.
  unfold rawDecode. rewrite rawEncode_len. ltb_no. rewrite R12, Ri, Rs, R13. cbn [mbind option_bind].
  rewrite b2z_flag, b2z_z2b, Z.mod_small, i32_u32 by (done || lia).
  destruct (u_active u) eqn:Ha; cbn [Z.ltb Z.compare Z.eqb negb]; ltb_no;
    replace (Z.to_nat (len (u_tags u))) with (length (u_tags u)) by (unfold len; lia);
    rewrite RT; cbn [mbind option_bind]; rewrite Rn; cbn [mbind option_bind];
    ltb_no; rewrite Sn; cbn [mbind option_bind]; rewrite Re; cbn [mbind option_bind];
    repeat ltb_no; rewrite Se; destruct u; cbn in Ha |- *; by subst.
Qed.

Lemma rawTags_total n : forall inp p u,
  0 <= p -> p + 4 * Z.of_nat n <= len inp ->
  exists u', rawTags n inp p u = Some (u', p + 4 * Z.of_nat n) /\ (user_wf u -> user_wf u').
Proof.
  induction n as [|n IH]; intros inp p u Hp Hl; cbn [rawTags].
  { exists u. by rewrite Z.mul_0_r, Z.add_0_r. }
  destruct (getU32_ok inp p) as (w & -> & _); [lia..|]. cbn [mbind option_bind].
  destruct (IH inp (p + 4) (push_tag (i32 w) u)) as (u' & -> & Hw); [lia..|]. exists u'.
  split; [do 2 f_equal; lia|]. auto with wire.
Qed.

(** The decoder returned: name the result and resolve what is left with the
    well-formedness hints. *)
Ltac returned := do 2 eexists; split; [reflexivity|]; auto 8 with wire.

(** Continue the option monad through the next in-bounds read. *)
Ltac read_ok :=
  cbn [mbind option_bind];
  match goal with
  | |- context [at_ ?l ?i] =>
      let b := fresh "b" in destruct (at_is_Some l i) as [b ->]; [lia|]; pose proof (b2z_range b)
  | |- context [getU64 ?l ?i] =>
      let w := fresh "w" in destruct (getU64_ok l i) as (w & -> & ?); [lia..|]
  | |- context [getU32 ?l ?i] =>
      let w := fresh "w" in destruct (getU32_ok l i) as (w & -> & ?); [lia..|]
  | |- context [get_le ?n 0 ?l ?i 0] =>
      let w := fresh "w" in destruct (get_le_0 n l i) as (w & -> & ?); [lia..|]
  | |- context [slice ?l ?i ?n] => rewrite (slice_Some l i n) by lia
  | |- context [if ?a <? ?b then _ else _] => destruct (Z.ltb_spec a b); [by returned|]
  end.

(** Whatever the input, [rawDecode] reads inside it and leaves a well-formed
    record. *)
Lemma rawDecode_safe inp u :
  exists ok u', rawDecode inp u = Some (ok, u') /\ (user_wf u -> user_wf u').
Proof.
  unfold rawDecode. pose proof (len_nonneg inp).
  destruct (Z.ltb_spec (len inp - 0) 14); [by returned|]. do 6 read_ok.
  match goal with |- context [rawTags ?n ?l ?p ?v] =>
    destruct (rawTags_total n l p v) as (u' & -> & Hu'); [lia..|] end.
  rewrite Z2Nat.id by lia. do 6 read_ok. cbn [mbind option_bind]. returned.
Qed.

(** ** The FlatBuffers-style format *)

Lemma store_eq {A} (l a b c data : list A) off :
  l = a ++ b ++ c -> off = len a -> len data = len b -> store l off data = Some (a ++ data ++ c).
Proof. intros ->. apply store_app. Qed.

(** The sixteen bytes of tags, zero-padded. *)
Definition tagArea (n : nat) (ts : list Z) : bytes :=
  concat ((fun t => put_le 4 0 (u32 t)) <$> take n ts) ++
  replicate (4 * (n - length ts)) x00.

Lemma flatTags_area n : forall i ts pre dn post,
  i = 4 - Z.of_nat n -> 0 <= i -> len pre = kFlatTagsOffset -> len dn = 4 * i ->
  flatTags i ts (pre ++ dn ++ replicate (4 * n) x00 ++ post) =
  Some (pre ++ dn ++ tagArea n ts ++ post).
Proof.
  induction n as [|n IH]; intros i ts pre dn post Hi H0 Hp Hd; (destruct ts as [|t ts]; [done|]);
    cbn [flatTags].
  { rewrite (proj2 (Z.ltb_ge i 4)) by lia. done. }
  rewrite (proj2 (Z.ltb_lt i 4)) by lia.
  replace (4 * S n)%nat with (4 + 4 * n)%nat by lia. rewrite replicate_add, <- app_assoc.
  rewrite (app_assoc pre dn), (store_app (pre ++ dn)) by (rewrite ?len_app, ?put_le_len; done || lia).
  cbn [mbind option_bind].
  replace ((pre ++ dn) ++ put_le 4 0 (u32 t) ++ replicate (4 * n) x00 ++ post)
    with (pre ++ (dn ++ put_le 4 0 (u32 t)) ++ replicate (4 * n) x00 ++ post) by by rewrite <- !app_assoc.
  rewrite IH by (rewrite ?len_app, ?put_le_len; done || lia).
  unfold tagArea. cbn [take fmap list_fmap concat length Nat.sub]. by rewrite <- !app_assoc.
Qed.

Definition flat_layout (u : User) : bytes :=
  (put_le 8 0 (u_id u) ++ put_le 4 0 (u32 (u_score u)) ++
   [if u_active u then z2b 1 else z2b 0; z2b (len (u_tags u)); x00; x00]) ++
  tagArea 4 (u_tags u) ++
  put_le 4 0 kFlatHeader ++ put_le 4 0 (u32 (kFlatHeader + len (u_name u))) ++ u_name u ++ u_email u.

Lemma tagArea_len ts : len (tagArea 4 ts) = 16.
Proof. do 4 (destruct ts as [|? ts]; [done|]). done. Qed.

Lemma flatEncode_layout u : flatEncode u = Some (flat_layout u).
Proof.
  unfold flatEncode. cbn [Z.to_nat kFlatHeader].
  rewrite (store_eq _ [] (replicate 8 x00) (replicate 32 x00)) by done. cbn [mbind option_bind].
  rewrite (store_eq _ (put_le 8 0 (u_id u)) (replicate 4 x00) (replicate 28 x00)) by done.
  cbn [mbind option_bind].
  rewrite (store_eq _ (put_le 8 0 (u_id u) ++ put_le 4 0 (u32 (u_score u))) [x00] (replicate 27 x00)) by done.
  cbn [mbind option_bind].
  set (c := if u_active u then z2b 1 else z2b 0).
  rewrite (store_eq _ (put_le 8 0 (u_id u) ++ put_le 4 0 (u32 (u_score u)) ++ [c]) [x00] (replicate 26 x00)) by done.
  cbn [mbind option_bind].
  set (hd := put_le 8 0 (u_id u) ++ put_le 4 0 (u32 (u_score u)) ++ [c; z2b (len (u_tags u)); x00; x00]).
  match goal with |- context [flatTags 0 _ ?l] =>
    change l with (hd ++ [] ++ replicate (4 * 4) x00 ++ replicate 8 x00) end.
  rewrite (flatTags_area 4) by done. cbn [mbind option_bind].
  rewrite !len_app, tagArea_len.
  rewrite (store_eq _ (hd ++ tagArea 4 (u_tags u)) (replicate 4 x00)
    (replicate 4 x00 ++ u_name u ++ u_email u)).
  2: by rewrite <- !app_assoc. 2: by rewrite len_app, tagArea_len. 2: done.
  cbn [mbind option_bind].
  rewrite (store_eq _ (hd ++ tagArea 4 (u_tags u) ++ put_le 4 0 40) (replicate 4 x00) (u_name u ++ u_email u)).
  2: by rewrite <- !app_assoc. 2: by rewrite !len_app, tagArea_len. 2: done.
  unfold flat_layout. by rewrite <- !app_assoc.
Qed.

(** At most four tags fit, and the two offsets are 32-bit. *)
Definition flat_fits (u : User) : Prop :=
  len (u_tags u) <= 4 /\ kFlatHeader + len (u_name u) + len (u_email u) < 2 ^ 32.

(** The view of an encoded record. *)
Definition view_of (u : User) : FlatView :=
  mkView (u_id u) (u_score u) (u_active u) (Some kFlatTagsOffset) (len (u_tags u)) (u_name u) (u_email u).

Lemma tagArea_middle a t b :
  len a < 4 ->
  exists rest, tagArea 4 (a ++ t :: b) = concat ((fun t => put_le 4 0 (u32 t)) <$> a) ++ put_le 4 0 (u32 t) ++ rest.
Proof.
  intros Ha. unfold tagArea. rewrite firstn_app, take_ge by solve_len.
  destruct (4 - length a)%nat as [|m] eqn:E; [solve_len|]. cbn [take].
  rewrite fmap_app, concat_app. cbn [fmap list_fmap concat]. rewrite <- !app_assoc. by eexists.
Qed.

Lemma viewTag_layout u v a t b :
  u_tags u = a ++ t :: b -> len (u_tags u) <= 4 -> is_i32 t -> fv_tags v = Some kFlatTagsOffset ->
  viewTag (flat_layout u) v (len a) = Some t.
Proof.
  intros E H4 Ht Hv. unfold viewTag. rewrite Hv. cbn [mbind option_bind].
  destruct (tagArea_middle a t b) as [rest Er]; [rewrite E in H4; pose proof (len_nonneg b); solve_len|].
  unfold flat_layout. rewrite E, Er, <- (app_assoc (concat _)), (app_assoc _ (concat _)), <- (app_assoc (put_le 4 0 (u32 t))).
  pose proof (concat_put_len a : len (concat ((fun t => put_le 4 0 (u32 t)) <$> a)) = _) as Ha.
  erewrite (get_le_at 4 _ _ _ (u32 t) _ eq_refl); [|rewrite len_app, Ha|apply u32_range].
  2: { change (16 + len a * 4 = 16 + 4 * len a). lia. }
  cbn [mbind option_bind]. by rewrite i32_u32.
Qed.

Lemma sameTags_layout u v : forall b a,
  u_tags u = a ++ b -> len (u_tags u) <= 4 -> Forall is_i32 (u_tags u) ->
  fv_tags v = Some kFlatTagsOffset -> sameTags (flat_layout u) v (len a) b = Some true.
Proof.
  induction b as [|t b IH]; intros a E H4 Hw Hv; [done|]. cbn [sameTags].
  assert (is_i32 t) by (rewrite E, Forall_app, Forall_cons in Hw; tauto).
  erewrite viewTag_layout by done. cbn [mbind option_bind]. rewrite Z.eqb_refl. cbn [negb].
  replace (len a + 1) with (len (a ++ [t])) by solve_len. apply IH; [by rewrite <- app_assoc|done..].
Qed.

Lemma sumView_layout u v : forall b a sum,
  u_tags u = a ++ b -> len (u_tags u) <= 4 -> Forall is_i32 (u_tags u) ->
  fv_tags v = Some kFlatTagsOffset -> sumView (length b) (len a) (flat_layout u) v sum = Some (sumTags b sum).
Proof.
  induction b as [|t b IH]; intros a sum E H4 Hw Hv; [done|]. cbn [sumView sumTags length].
  assert (is_i32 t) by (rewrite E, Forall_app, Forall_cons in Hw; tauto).
  erewrite viewTag_layout by done. cbn [mbind option_bind].
  replace (len a + 1) with (len (a ++ [t])) by solve_len. apply IH; [by rewrite <- app_assoc|done..].
Qed.

Lemma flat_layout_len u : len (flat_layout u) = kFlatHeader + len (u_name u) + len (u_email u).
Proof. unfold flat_layout. rewrite !len_app, tagArea_len, !put_le_len, !len_cons, len_nil. unfold kFlatHeader. lia. Qed.

Lemma flat_roundtrip u v0 :
  user_wf u -> flat_fits u -> flatDecode (flat_layout u) v0 = Some (true, view_of u).
Proof.
  intros (Hid & Hs & Ht) [H4 Hl]. pose proof (len_nonneg (u_tags u)).
  pose proof (len_nonneg (u_name u)). pose proof (len_nonneg (u_email u)).
  unfold kFlatHeader in Hl. set (inp := flat_layout u).
  assert (Hlen : len inp = 40 + len (u_name u) + len (u_email u)) by apply flat_layout_len.
  assert (get_le 8 0 inp 0 0 = Some (u_id u)) as R0 by by eapply (get_le_at 8 inp 0 []).
  assert (get_le 4 0 inp 8 0 = Some (u32 (u_score u))) as R8.
  { eapply (get_le_at 4 inp 8 (put_le 8 0 (u_id u))); [|done|apply u32_range].
    unfold inp, flat_layout. by rewrite <- !app_assoc. }
  assert (at_ inp 12 = Some (if u_active u then z2b 1 else z2b 0)) as R12 by done.
  assert (at_ inp 13 = Some (z2b (len (u_tags u)))) as R13 by done.
  set (hd := put_le 8 0 (u_id u) ++ put_le 4 0 (u32 (u_score u)) ++
    [if u_active u then z2b 1 else z2b 0; z2b (len (u_tags u)); x00; x00]).
  assert (len (hd ++ tagArea 4 (u_tags u)) = 32) as Hhd by by rewrite len_app, tagArea_len.
  assert (get_le 4 0 inp kFlatOffsets 0 = Some 40) as Rn.
  { eapply (get_le_at 4 inp _ (hd ++ tagArea 4 (u_tags u))); [|done..]. by rewrite <- app_assoc. }
  assert (get_le 4 0 inp (kFlatOffsets + 4) 0 = Some (40 + len (u_name u))) as Re.
  { eapply (get_le_at 4 inp _ ((hd ++ tagArea 4 (u_tags u)) ++ put_le 4 0 40)); [|by rewrite len_app, Hhd|change (2 ^ (8 * Z.of_nat 4)) with (2 ^ 32); lia].
    unfold inp, flat_layout. rewrite (u32_small (_ + _)) by (unfold kFlatHeader; lia). by rewrite <- !app_assoc. }
  set (h40 := (hd ++ tagArea 4 (u_tags u)) ++ put_le 4 0 40 ++ put_le 4 0 (u32 (40 + len (u_name u)))).
  assert (len h40 = 40) as H40 by (unfold h40; by rewrite len_app, Hhd).
  assert (inp = h40 ++ u_name u ++ u_email u) as Ei by (unfold inp, flat_layout, h40; by rewrite <- !app_assoc).
  unfold flatDecode, substr, kFlatHeader. rewrite R0, R8, R12, R13, Rn, Re, Hlen. cbn [mbind option_bind kFlatHeader].
  rewrite b2z_flag, b2z_z2b, Z.mod_small, i32_u32 by (done || lia).
  repeat ltb_no. cbn [orb]. repeat ltb_no.
  rewrite (slice_eq inp h40 (u_name u) (u_email u) 40) by (done || lia). cbn [mbind option_bind].
  rewrite (slice_eq inp (h40 ++ u_name u) (u_email u) []) by
    (rewrite ?app_nil_r, <- ?app_assoc, ?len_app; done || lia).
  cbn [mbind option_bind]. unfold view_of. by destruct (u_active u).
Qed.

(** The two comparisons and the two checksums agree on an encoded record. *)
Lemma flat_same u :
  user_wf u -> flat_fits u -> sameUserView (flat_layout u) (view_of u) u = Some true.
Proof.
  intros (_ & _ & Ht) [H4 _]. unfold sameUserView. cbn. rewrite !Z.eqb_refl, eqb_reflx, !bool_decide_eq_true_2 by done.
  by apply (sameTags_layout u _ _ []).
Qed.

Lemma flat_checksum u :
  user_wf u -> flat_fits u -> flatChecksum (flat_layout u) (view_of u) = Some (rawChecksum u).
Proof.
  intros (_ & _ & Ht) [H4 _]. unfold flatChecksum, rawChecksum. cbn [fv_count view_of fv_id fv_score fv_active fv_name fv_email].
  replace (Z.to_nat (len (u_tags u))) with (length (u_tags u)) by (unfold len; lia).
  by apply (sumView_layout u _ _ []).
Qed.

Lemma viewTag_safe inp v i :
  kFlatHeader <= len inp -> 0 <= i < 4 -> fv_tags v = Some kFlatTagsOffset -> is_Some (viewTag inp v i).
Proof.
  unfold kFlatHeader, viewTag, kFlatTagsOffset. intros Hl Hi ->. cbn [mbind option_bind].
  destruct (get_le_0 4 inp (16 + i * 4)) as (w & -> & _); [lia..|]. by eexists.
Qed.

Lemma sumView_safe inp v n : forall i sum,
  kFlatHeader <= len inp -> 0 <= i -> i + Z.of_nat n <= 4 -> fv_tags v = Some kFlatTagsOffset ->
  is_Some (sumView n i inp v sum).
Proof.
  induction n as [|n IH]; intros i sum Hl Hi Hn Hv; [by eexists|]. cbn [sumView].
  destruct (viewTag_safe inp v i) as [t ->]; [done|lia|done|]. apply IH; lia || done.
Qed.

Lemma sameTags_safe inp v ts : forall i,
  kFlatHeader <= len inp -> 0 <= i -> i + len ts <= 4 -> fv_tags v = Some kFlatTagsOffset ->
  is_Some (sameTags inp v i ts).
Proof.
  induction ts as [|t ts IH]; intros i Hl Hi Hn Hv; [by eexists|]. cbn [sameTags]. rewrite len_cons in Hn.
  pose proof (len_nonneg ts). destruct (viewTag_safe inp v i) as [w ->]; [done|lia|done|].
  cbn [mbind option_bind]. destruct (w =? t); [apply IH; lia || done|by eexists].
Qed.

(** What [flatDecode] guarantees about a view it returns [true] for. *)
Definition view_ok (inp : bytes) (v : FlatView) : Prop :=
  kFlatHeader <= len inp /\ fv_tags v = Some kFlatTagsOffset /\ 0 <= fv_count v <= 4.

(** Whatever the input, [flatDecode] reads inside it. *)
Lemma flatDecode_safe inp v :
  exists ok v', flatDecode inp v = Some (ok, v') /\ (ok = true -> view_ok inp v').
Proof.
  unfold flatDecode, kFlatHeader, kFlatOffsets. pose proof (len_nonneg inp).
  destruct (Z.ltb_spec (len inp) 40); [by returned|]. do 7 read_ok.
  match goal with |- context [if ?c then _ else _] => destruct c eqn:Ec end; [by returned|].
  rewrite !orb_false_iff, !Z.ltb_ge in Ec. unfold substr. repeat ltb_no. do 2 read_ok. cbn [mbind option_bind]. do 2 eexists. split; [done|]. intros _.
  split_and!; cbn; lia || done.
Qed.

(** Every later access through a view it accepted is inside the input too. *)
Lemma view_access_safe inp v :
  view_ok inp v -> is_Some (flatChecksum inp v) /\ forall u, is_Some (sameUserView inp v u).
Proof.
  intros (Hl & Ht & Hc). split; [apply sumView_safe; lia || done|]. intros u. unfold sameUserView.
  destruct (Z.eqb_spec (fv_count v) (len (u_tags u))); [|rewrite !orb_true_r; by eexists].
  destruct (_ || _); [by eexists|]. apply sameTags_safe; lia || done.
Qed.
