(* ===== verification/WireMsgpack.v ===== *)
(** * WireMsgpack: the MessagePack subset of the bench

    [mpEncode], [mpDecode] and their helpers of
    [bench/serialization_bench.cpp].  The decoders keep the cursor [p] of the
    code; [None] is a read outside the input or exhausted fuel, and the theorems show
    that neither happens.  Cursors stay within the input plus 32 bytes, far
    from the 2^64 at which [size_t] wraps. *)
From S2P Require Import Prelude Wire.

(** ** Encoding *)

Definition mpPutStr (s : bytes) : bytes := z2b (Z.lor 0xA0 (len s)) :: s.

(** [for (int i = 7; i >= 0; --i)]: the bytes of [v], most significant first. *)
Fixpoint put_be (n : nat) (v : Z) : bytes :=
  match n with
  | O => []
  | S m => z2b (Z.land (Z.shiftr v (8 * Z.of_nat m)) 0xFF) :: put_be m v
  end.

Definition mpPutUint (v : Z) : bytes :=
  if v <? 128 then [z2b v] else z2b 0xCF :: put_be 8 v.

Definition mpPutScore (score : Z) : bytes :=
  let w := score mod 2 ^ 8 in
  [if w <? 128 then z2b w else z2b 0xD0] ++ (if 128 <=? w then [z2b w] else []).

Definition mpEncode (u : User) : bytes :=
  [z2b 0x86] ++
  mpPutStr (str "id") ++ mpPutUint (u_id u) ++
  mpPutStr (str "score") ++ mpPutScore (u_score u) ++
  mpPutStr (str "active") ++ [z2b (if u_active u then 0xC3 else 0xC2)] ++
  mpPutStr (str "tags") ++ [z2b 0x94] ++ (z2b <$> u_tags u) ++
  mpPutStr (str "name") ++ mpPutStr (u_name u) ++
  mpPutStr (str "email") ++ mpPutStr (u_email u).

(** ** Decoding *)

(** The string read and the cursor after it; [Some None] is [false], which
    leaves both alone. *)
Definition mpReadStr (inp : bytes) (p : Z) : option (option (bytes * Z)) :=
  if len inp <=? p then Some None else
  c ← at_ inp p;
  let marker := b2z c in
  if negb (Z.land marker 0xE0 =? 0xA0) then Some None else
  let n := Z.land marker 0x1F in
  if len inp <? p + 1 + n then Some None else
  s ← slice inp (p + 1) n;
  Some (Some (s, p + 1 + n)).

(** The returned [bool] with the cursor afterwards.  Arrays nest, one unit of
    fuel per level. *)
Fixpoint mpSkip (fuel : nat) (inp : bytes) (p : Z) : option (bool * Z) :=
  match fuel with
  | O => None
  | S fuel =>
      if len inp <=? p then Some (false, p) else
      c ← at_ inp p;
      let marker := b2z c in
      if marker <=? 0x7F then Some (true, p + 1)
      else if Z.land marker 0xE0 =? 0xA0 then
        let p := p + (1 + Z.land marker 0x1F) in Some (p <=? len inp, p)
      else if (marker =? 0xC2) || (marker =? 0xC3) then Some (true, p + 1)
      else if marker =? 0xCF then let p := p + 9 in Some (p <=? len inp, p)
      else if marker =? 0xD0 then let p := p + 2 in Some (p <=? len inp, p)
      else if Z.land marker 0xF0 =? 0x90 then
        (fix skip_n (n : nat) (p : Z) : option (bool * Z) :=
           match n with
           | O => Some (true, p)
           | S n => '(ok, p) ← mpSkip fuel inp p; if negb ok then Some (false, p) else skip_n n p
           end) (Z.to_nat (Z.land marker 0x0F)) (p + 1)
      else Some (false, p)
  end.

(** [v = (v << 8) | in[*p + 1 + i]] for [i] from 0 to 7, in 64 bits. *)
Fixpoint get_be (n : nat) (inp : bytes) (p v : Z) : option Z :=
  match n with
  | O => Some v
  | S n => b ← at_ inp p; get_be n inp (p + 1) (Z.lor (u64 (Z.shiftl v 8)) (b2z b))
  end.

Definition mpReadUint (inp : bytes) (p : Z) : option (option (Z * Z)) :=
  if len inp <=? p then Some None else
  c ← at_ inp p;
  let marker := b2z c in
  if marker <=? 0x7F then Some (Some (marker, p + 1))
  else if marker =? 0xCF then
    if len inp <? p + 9 then Some None else
    v ← get_be 8 inp (p + 1) 0; Some (Some (v, p + 9))
  else Some None.

(** [for (size_t i = 0; i < n; ++i)] of the [tags] branch. *)
Fixpoint mpTags (n : nat) (inp : bytes) (p : Z) (u : User) : option (bool * Z * User) :=
  match n with
  | O => Some (true, p, u)
  | S n =>
      if len inp <=? p then Some (false, p, u) else
      c ← at_ inp p;
      if 0x7F <? b2z c then Some (false, p, u) else
      mpTags n inp (p + 1) (push_tag (b2z c) u)
  end.

(** The branches on [key]: whether decoding goes on, the cursor, the record. *)
Definition mpField (inp : bytes) (p : Z) (key : bytes) (u : User) : option (bool * Z * User) :=
  if bool_decide (key = str "id") then
    r ← mpReadUint inp p;
    match r with None => Some (false, p, u) | Some (v, p) => Some (true, p, set_id v u) end
  else if bool_decide (key = str "score") then
    if len inp <=? p then Some (false, p, u) else
    c ← at_ inp p;
    let marker := b2z c in
    if marker <=? 0x7F then Some (true, p + 1, set_score marker u)
    else if (marker =? 0xD0) && (p + 2 <=? len inp) then
      d ← at_ inp (p + 1); Some (true, p + 2, set_score (i8 (b2z d)) u)
    else Some (false, p, u)
  else if bool_decide (key = str "active") then
    if len inp <=? p then Some (false, p, u) else
    c ← at_ inp p;
    if negb (bool_decide (c = z2b 0xC2)) && negb (bool_decide (c = z2b 0xC3)) then Some (false, p, u)
    else Some (true, p + 1, set_active (bool_decide (c = z2b 0xC3)) u)
  else if bool_decide (key = str "tags") then
    if len inp <=? p then Some (false, p, u) else
    c ← at_ inp p;
    if negb (Z.land (b2z c) 0xF0 =? 0x90) then Some (false, p, u) else
    mpTags (Z.to_nat (Z.land (b2z c) 0x0F)) inp (p + 1) (set_tags [] u)
  else if bool_decide (key = str "name") then
    r ← mpReadStr inp p;
    match r with None => Some (false, p, u) | Some (s, p) => Some (true, p, set_name s u) end
  else if bool_decide (key = str "email") then
    r ← mpReadStr inp p;
    match r with None => Some (false, p, u) | Some (s, p) => Some (true, p, set_email s u) end
  else '(ok, p) ← mpSkip (S (length inp)) inp p; Some (ok, p, u).

(** [for (int field = 0; field < 6; ++field)] *)
Fixpoint mpFields (n : nat) (inp : bytes) (p : Z) (u : User) : option (bool * User) :=
  match n with
  | O => Some (true, u)
  | S n =>
      r ← mpReadStr inp p;
      match r with
      | None => Some (false, u)
      | Some (key, p) =>
          '(ok, p, u) ← mpField inp p key u;
          if negb ok then Some (false, u) else mpFields n inp p u
      end
  end.

Definition mpDecode (inp : bytes) (u : User) : option (bool * User) :=
  if len inp =? 0 then Some (false, u) else
  c ← at_ inp 0;
  if negb (b2z c =? 0x86) then Some (false, u) else mpFields 6 inp 1 u.

(** ** Safety: no read outside the input, and enough fuel *)

Lemma land_ones_lt a n : 0 <= n -> 0 <= Z.land a (Z.ones n) < 2 ^ n.
Proof. intros Hn. rewrite Z.land_ones by done. apply Z.mod_pos_bound. lia. Qed.

(** A read of a good cursor either fails or moves it forward. *)
Lemma mpReadStr_safe inp p :
  0 <= p -> mpReadStr inp p = Some None \/
  exists s p', mpReadStr inp p = Some (Some (s, p')) /\ p < p' <= len inp.
Proof.
  intros Hp. unfold mpReadStr. destruct (Z.leb_spec (len inp) p); [by left|].
  destruct (at_is_Some inp p) as [c ->]; [lia|]. cbn [mbind option_bind].
  destruct (negb _); [by left|]. pose proof (land_ones_lt (b2z c) 5 ltac:(lia)). change (Z.ones 5) with 0x1F in *.
  destruct (Z.ltb_spec (len inp) (p + 1 + Z.land (b2z c) 0x1F)); [by left|].
  rewrite slice_Some by lia. right. do 2 eexists. split; [done|]. lia.
Qed.

Lemma get_be_safe inp n : forall p v,
  0 <= p -> p + Z.of_nat n <= len inp -> 0 <= v < 2 ^ 64 ->
  exists w, get_be n inp p v = Some w /\ 0 <= w < 2 ^ 64.
Proof.
  induction n as [|n IH]; intros p v Hp Hl Hv; [by eexists|]. cbn [get_be].
  destruct (at_is_Some inp p) as [b ->]; [lia|]. pose proof (b2z_range b).
  apply IH; [lia..|]. apply lor_u64; [apply Z.mod_pos_bound|]; lia.
Qed.

Lemma mpReadUint_safe inp p :
  0 <= p -> mpReadUint inp p = Some None \/
  exists v p', mpReadUint inp p = Some (Some (v, p')) /\ p < p' <= len inp /\ 0 <= v < 2 ^ 64.
Proof.
  intros Hp. unfold mpReadUint. destruct (Z.leb_spec (len inp) p); [by left|].
  destruct (at_is_Some inp p) as [c ->]; [lia|]. cbn [mbind option_bind].
  pose proof (b2z_range c).
  destruct (_ <=? _); [right; repeat eexists; lia|]. destruct (_ =? _); [|by left].
  destruct (Z.ltb_spec (len inp) (p + 9)); [by left|].
  destruct (get_be_safe inp 8 (p + 1) 0) as (v & -> & ?); [lia..|]. right; repeat eexists; lia.
Qed.

Lemma byte_i32 b : is_i32 (b2z b).
Proof. pose proof (b2z_range b). unfold is_i32. lia. Qed.
Lemma i8_i32 z : is_i32 (i8 z).
Proof. unfold is_i32, i8. pose proof (Z.mod_pos_bound z (2 ^ 8)). zbool; lia. Qed.
#[export] Hint Resolve byte_i32 i8_i32 : wire.

(** A step that leaves the cursor at [p] or later and the record well formed. *)
Definition step_safe (p : Z) (u : User) (r : option (bool * Z * User)) : Prop :=
  exists ok p' u', r = Some (ok, p', u') /\ p <= p' /\ (user_wf u -> user_wf u').

Ltac stepped := do 3 eexists; split; [reflexivity|]; split; [lia|]; auto with wire.

Lemma mpTags_safe inp n : forall p u, 0 <= p -> step_safe p u (mpTags n inp p u).
Proof.
  induction n as [|n IH]; intros p u Hp; cbn [mpTags]; [stepped|].
  destruct (Z.leb_spec (len inp) p); [stepped|].
  destruct (at_is_Some inp p) as [c ->]; [lia|]. cbn [mbind option_bind].
  destruct (_ <? _); [stepped|].
  destruct (IH (p + 1) (push_tag (b2z c) u)) as (ok & p' & u' & -> & ? & ?); [lia|]. stepped.
Qed.

(** The nesting of arrays is bounded by the bytes that remain. *)
Lemma mpSkip_safe inp fuel : forall p,
  0 <= p -> (0 < fuel)%nat -> len inp - p < Z.of_nat fuel ->
  exists ok p', mpSkip fuel inp p = Some (ok, p') /\ p <= p'.
Proof.
  induction fuel as [|fuel IH]; intros p Hp H0 Hf; [lia|]. cbn [mpSkip].
  destruct (Z.leb_spec (len inp) p); [repeat eexists; lia|].
  destruct (at_is_Some inp p) as [c ->]; [lia|]. cbn [mbind option_bind].
  pose proof (land_ones_lt (b2z c) 5 ltac:(lia)). change (Z.ones 5) with 0x1F in *.
  do 5 (match goal with |- context [if ?b then _ else _] => destruct b end; [repeat eexists; lia|]).
  match goal with |- context [if ?b then _ else _] => destruct b end; [|repeat eexists; lia].
  assert (p < p + 1) as Hlt by lia. revert Hlt. generalize (p + 1).
  induction (Z.to_nat (Z.land (b2z c) 0x0F)) as [|n IHn]; intros q Hq; [repeat eexists; lia|].
  destruct (IH q) as (ok & q' & -> & ?); [lia..|]. cbn [mbind option_bind].
  destruct ok; cbn [negb]; [|repeat eexists; lia]. apply IHn. lia.
Qed.

Lemma mpField_safe inp p key u : 0 <= p -> step_safe p u (mpField inp p key u).
Proof.
  intros Hp. unfold mpField.
  destruct (bool_decide (key = str "id")).
  { destruct (mpReadUint_safe inp p Hp) as [->|(v & p' & -> & ? & ?)]; stepped. }
  destruct (bool_decide (key = str "score")).
  { destruct (Z.leb_spec (len inp) p); [stepped|].
    destruct (at_is_Some inp p) as [c ->]; [lia|]. cbn [mbind option_bind].
    destruct (_ <=? _); [stepped|]. destruct (_ =? _); [|stepped].
    destruct (Z.leb_spec (p + 2) (len inp)); [|stepped].
    destruct (at_is_Some inp (p + 1)) as [d ->]; [lia|]. stepped. }
  destruct (bool_decide (key = str "active")).
  { destruct (Z.leb_spec (len inp) p); [stepped|].
    destruct (at_is_Some inp p) as [c ->]; [lia|]. cbn [mbind option_bind].
    destruct (_ && _); stepped. }
  destruct (bool_decide (key = str "tags")).
  { destruct (Z.leb_spec (len inp) p); [stepped|].
    destruct (at_is_Some inp p) as [c ->]; [lia|]. cbn [mbind option_bind].
    destruct (negb _); [stepped|].
    destruct (mpTags_safe inp (Z.to_nat (Z.land (b2z c) 15)) (p + 1) (set_tags [] u))
      as (ok & p' & u' & -> & ? & ?); [lia|]. stepped. }
  destruct (bool_decide (key = str "name")).
  { destruct (mpReadStr_safe inp p Hp) as [->|(v & p' & -> & ?)]; stepped. }
  destruct (bool_decide (key = str "email")).
  { destruct (mpReadStr_safe inp p Hp) as [->|(v & p' & -> & ?)]; stepped. }
  destruct (mpSkip_safe inp (S (length inp)) p) as (ok & p' & -> & ?); [unfold len; lia..|]. stepped.
Qed.

Lemma mpFields_safe inp n : forall p u,
  0 <= p -> exists ok u', mpFields n inp p u = Some (ok, u') /\ (user_wf u -> user_wf u').
Proof.
  induction n as [|n IH]; intros p u Hp; [by returned|]. cbn [mpFields].
  destruct (mpReadStr_safe inp p Hp) as [->|(key & p1 & -> & ?)]; cbn [mbind option_bind]; [by returned|].
  destruct (mpField_safe inp p1 key u) as (ok & p2 & u2 & -> & ? & Hw); [lia|]. cbn [mbind option_bind].
  destruct ok; cbn [negb]; [|by returned].
  destruct (IH p2 u2) as (ok' & u' & -> & ?); [lia|]. returned.
Qed.

(** Whatever the input, [mpDecode] returns, reads inside it and leaves a
    well-formed record. *)
Lemma mpDecode_safe inp u :
  exists ok u', mpDecode inp u = Some (ok, u') /\ (user_wf u -> user_wf u').
Proof.
  unfold mpDecode. destruct (Z.eqb_spec (len inp) 0); [by returned|]. pose proof (len_nonneg inp).
  destruct (at_is_Some inp 0) as [c ->]; [lia|]. cbn [mbind option_bind].
  destruct (negb _); [by returned|]. by apply mpFields_safe.
Qed.

(** ** Round trip *)

(** What the subset can express: four small tags, a one-byte score and short
    strings. *)
Definition mp_fits (u : User) : Prop :=
  -128 <= u_score u < 128 /\ length (u_tags u) = 4%nat /\
  Forall (fun t => 0 <= t < 128) (u_tags u) /\ len (u_name u) < 32 /\ len (u_email u) < 32.

Lemma fixstr_marker n :
  0 <= n < 32 ->
  Z.land (b2z (z2b (Z.lor 0xA0 n))) 0xE0 = 0xA0 /\ Z.land (b2z (z2b (Z.lor 0xA0 n))) 0x1F = n.
Proof.
  intros Hn.
  assert (forallb (fun k => let m := b2z (z2b (Z.lor 0xA0 (Z.of_nat k))) in
    (Z.land m 0xE0 =? 0xA0) && (Z.land m 0x1F =? Z.of_nat k)) (seq 0 32) = true) as H by done.
  rewrite forallb_forall in H. specialize (H (Z.to_nat n)). cbv zeta in H.
  rewrite Z2Nat.id, andb_true_iff, !Z.eqb_eq in H by lia. apply H, in_seq. lia.
Qed.

Lemma mpReadStr_put pre s post inp p :
  inp = pre ++ mpPutStr s ++ post -> p = len pre -> len s < 32 ->
  mpReadStr inp p = Some (Some (s, len (pre ++ mpPutStr s))).
Proof.
  intros -> -> Hs. unfold mpReadStr, mpPutStr. cbn [app].
  destruct (fixstr_marker (len s)) as [E1 E2]; [pose proof (len_nonneg s); lia|].
  pose proof (len_nonneg post). pose proof (len_nonneg pre). pose proof (len_nonneg s).
  rewrite (proj2 (Z.leb_gt _ _)), at_here by (done || solve_len). cbn [mbind option_bind].
  rewrite E1, E2. cbn [Z.eqb Pos.eqb negb]. rewrite (proj2 (Z.ltb_ge _ _)) by solve_len.
  rewrite (slice_eq _ (pre ++ [z2b (Z.lor 160 (len s))]) s post); [|by rewrite <- app_assoc|by rewrite len_app|done].
  cbn [mbind option_bind]. do 3 f_equal. rewrite len_app, len_cons. lia.
Qed.

Lemma get_be_put n : forall pre v post inp,
  inp = pre ++ put_be n v ++ post -> (n <= 8)%nat -> 0 <= v < 2 ^ 64 ->
  get_be n inp (len pre) (v / 2 ^ (8 * Z.of_nat n)) = Some v.
Proof.
  induction n as [|n IH]; intros pre v post inp -> Hn Hv; cbn [get_be put_be app].
  { by rewrite Z.div_1_r. }
  rewrite at_here by done. cbn [mbind option_bind].
  set (k := 2 ^ (8 * Z.of_nat n)). assert (0 < k) by (unfold k; lia).
  set (b := z2b _). assert (b2z b = (v / k) mod 256) as ->
    by (unfold b; by rewrite b2z_z2b, land_255, Z.mod_mod, Z.shiftr_div_pow2 by lia).
  replace (2 ^ (8 * Z.of_nat (S n))) with (k * 256) by
    (unfold k; replace (8 * Z.of_nat (S n)) with (8 * Z.of_nat n + 8) by lia; rewrite Z.pow_add_r by lia; done).
  rewrite <- Z.div_div by lia.
  assert (0 <= v / k < 2 ^ 64) as Hk by (split; [apply Z.div_pos; lia|apply Z.div_lt_upper_bound; nia]).
  assert (Z.lor (u64 (Z.shiftl (v / k / 256) 8)) ((v / k) mod 256) = v / k) as ->.
  { rewrite u64_small by (rewrite Z.shiftl_mul_pow2; dmlia).
    rewrite Z.lor_comm, lor_shiftl_add by dmlia. dmlia. }
  replace (len pre + 1) with (len (pre ++ [b])) by solve_len.
  apply (IH _ v post); [|lia|done]. by rewrite <- app_assoc.
Qed.

Lemma put_be_len n v : len (put_be n v) = Z.of_nat n.
Proof. induction n as [|n IH]; [done|]. cbn [put_be]. rewrite len_cons, IH. lia. Qed.

Lemma mpReadUint_put pre v post inp p :
  inp = pre ++ mpPutUint v ++ post -> p = len pre -> 0 <= v < 2 ^ 64 ->
  mpReadUint inp p = Some (Some (v, len (pre ++ mpPutUint v))).
Proof.
  intros -> -> Hv. unfold mpReadUint, mpPutUint.
  pose proof (len_nonneg post). pose proof (len_nonneg pre).
  destruct (Z.ltb_spec v 128); cbn [app];
    (rewrite (proj2 (Z.leb_gt _ _)), at_here by (done || solve_len)); cbn [mbind option_bind].
  - rewrite b2z_z2b, Z.mod_small, (proj2 (Z.leb_le _ _)) by lia. do 3 f_equal. solve_len.
  - change (b2z (z2b 207)) with 207. cbn [Z.leb Z.compare Pos.compare Pos.compare_cont Z.eqb Pos.eqb].
    rewrite (proj2 (Z.ltb_ge _ _)) by (rewrite !len_app, len_cons, len_app, put_be_len; lia).
    replace (len pre + 1) with (len (pre ++ [z2b 207])) by solve_len.
    replace 0 with (v / 2 ^ (8 * Z.of_nat 8)) at 1 by by apply Z.div_small.
    erewrite (get_be_put 8 _ v post) by (lia || by rewrite <- app_assoc).
    cbn [mbind option_bind]. do 3 f_equal. rewrite len_app, len_cons, put_be_len. lia.
Qed.

Lemma mpTags_put ts : forall pre post inp u,
  inp = pre ++ (z2b <$> ts) ++ post -> Forall (fun t => 0 <= t < 128) ts ->
  mpTags (length ts) inp (len pre) u =
  Some (true, len (pre ++ (z2b <$> ts)), set_tags (u_tags u ++ ts) u).
Proof.
  induction ts as [|t ts IH]; intros pre post inp u E Hts; cbn [length mpTags fmap list_fmap] in *.
  { destruct u. cbn. by rewrite !app_nil_r. }
  apply Forall_cons_1 in Hts as [Ht Hts].
  rewrite (proj2 (Z.leb_gt _ _)) by (rewrite E; cbn [app]; pose proof (len_nonneg post); solve_len).
  rewrite E at 1. cbn [app]. rewrite at_here by done. cbn [mbind option_bind].
  rewrite b2z_z2b, Z.mod_small, (proj2 (Z.ltb_ge _ _)) by lia.
  replace (len pre + 1) with (len (pre ++ [z2b t])) by solve_len.
  rewrite (IH _ post) by (done || by rewrite <- app_assoc). rewrite <- app_assoc.
  unfold push_tag, set_tags. cbn. by rewrite <- app_assoc.
Qed.

(** One field of the map: its key, then its value. *)
Lemma mpFields_step n pre key val post inp p u u' :
  inp = pre ++ (mpPutStr key ++ val) ++ post -> p = len pre -> len key < 32 ->
  mpField inp (len (pre ++ mpPutStr key)) key u = Some (true, len ((pre ++ mpPutStr key) ++ val), u') ->
  mpFields (S n) inp p u = mpFields n inp (len (pre ++ mpPutStr key ++ val)) u'.
Proof.
  intros E Hp Hk Hf. cbn [mpFields].
  rewrite (mpReadStr_put pre key (val ++ post)) by (done || by rewrite E, <- !app_assoc).
  cbn [mbind option_bind]. by rewrite Hf, <- app_assoc.
Qed.

(** Resolve the comparisons with a literal key. *)
Ltac pick_key :=
  repeat match goal with |- context [bool_decide (str ?a = str ?b)] =>
    let v := eval vm_compute in (bool_decide (str a = str b)) in
    change (bool_decide (str a = str b)) with v end; cbv iota.

Lemma mpField_score pre s post inp p u :
  inp = pre ++ mpPutScore s ++ post -> p = len pre -> -128 <= s < 128 ->
  mpField inp p (str "score") u = Some (true, len (pre ++ mpPutScore s), set_score s u).
Proof.
  intros -> -> Hs. unfold mpField, mpPutScore. pose proof (len_nonneg post). pose proof (len_nonneg pre).
  pick_key.
  remember (s mod 2 ^ 8) as w eqn:Ew. assert (0 <= w < 256) by dmlia.
  destruct (Z.ltb_spec w 128), (Z.leb_spec 128 w); try lia; cbn [app];
    (rewrite (proj2 (Z.leb_gt _ _)), (at_here pre _ _ (len pre)) by (done || (rewrite len_app, !len_cons; lia))); cbn [mbind option_bind].
  - rewrite b2z_z2b, Z.mod_small, (proj2 (Z.leb_le _ _)) by lia. repeat f_equal; [solve_len|dmlia].
  - change (b2z (z2b 208)) with 208. cbn [Z.leb Z.compare Pos.compare Pos.compare_cont Z.eqb Pos.eqb andb].
    rewrite (proj2 (Z.leb_le _ _)) by (rewrite len_app, !len_cons; lia).
    rewrite at_app_ge by lia.
    change (at_ (z2b 208 :: z2b w :: post) 1) with (Some (z2b w)). cbn [mbind option_bind].
    rewrite b2z_z2b, (Z.mod_small w) by lia.
    replace (i8 w) with s by (unfold i8; rewrite Ew, Z.mod_mod by lia; zbool; dmlia). repeat f_equal; solve_len.
Qed.

Lemma mpField_active pre (b : bool) post inp p u :
  inp = pre ++ [z2b (if b then 0xC3 else 0xC2)] ++ post -> p = len pre ->
  mpField inp p (str "active") u = Some (true, len (pre ++ [z2b (if b then 0xC3 else 0xC2)]), set_active b u).
Proof.
  intros -> ->. unfold mpField. pose proof (len_nonneg post). pose proof (len_nonneg pre).
  pick_key. cbn [app].
  rewrite (proj2 (Z.leb_gt _ _)), at_here by (done || solve_len). cbn [mbind option_bind].
  rewrite len_app, len_cons, len_nil. by destruct b.
Qed.

Lemma mpField_tags pre ts post inp p u :
  inp = pre ++ ([z2b 0x94] ++ (z2b <$> ts)) ++ post -> p = len pre ->
  length ts = 4%nat -> Forall (fun t => 0 <= t < 128) ts ->
  mpField inp p (str "tags") u = Some (true, len (pre ++ [z2b 0x94] ++ (z2b <$> ts)), set_tags ts u).
Proof.
  intros E -> H4 Hts. unfold mpField. pose proof (len_nonneg post). pose proof (len_nonneg pre).
  pick_key.
  rewrite (proj2 (Z.leb_gt _ _)) by (rewrite E; cbn [app]; solve_len).
  rewrite E at 1. cbn [app]. rewrite at_here by done. cbn [mbind option_bind].
  change (Z.to_nat (Z.land (b2z (z2b 148)) 15)) with 4%nat. rewrite <- H4.
  replace (len pre + 1) with (len (pre ++ [z2b 148])) by solve_len.
  cbn [negb Z.eqb Pos.eqb Z.land b2z z2b].
  rewrite (mpTags_put ts _ post) by (done || by rewrite E, <- !app_assoc).
  by rewrite <- app_assoc.
Qed.

Lemma mpField_id pre v post inp p u :
  inp = pre ++ mpPutUint v ++ post -> p = len pre -> 0 <= v < 2 ^ 64 ->
  mpField inp p (str "id") u = Some (true, len (pre ++ mpPutUint v), set_id v u).
Proof. intros E Hp Hv. unfold mpField. pick_key. by erewrite mpReadUint_put. Qed.

Lemma mpField_name pre s post inp p u :
  inp = pre ++ mpPutStr s ++ post -> p = len pre -> len s < 32 ->
  mpField inp p (str "name") u = Some (true, len (pre ++ mpPutStr s), set_name s u).
Proof. intros E Hp Hv. unfold mpField. pick_key. by erewrite mpReadStr_put. Qed.

Lemma mpField_email pre s post inp p u :
  inp = pre ++ mpPutStr s ++ post -> p = len pre -> len s < 32 ->
  mpField inp p (str "email") u = Some (true, len (pre ++ mpPutStr s), set_email s u).
Proof. intros E Hp Hv. unfold mpField. pick_key. by erewrite mpReadStr_put. Qed.

(** [inp] split at a field: both sides are the same concatenation. *)
Ltac reassoc :=
  repeat match goal with e := _ : bytes |- _ => unfold e end; rewrite <- !app_assoc; reflexivity.

(** Decode the next field, given the lemma for its value. *)
Ltac field_step pre key val lem :=
  erewrite (mpFields_step _ pre (str key) val);
    [|reassoc|reflexivity|done|eapply lem; [reassoc|reflexivity|done..]].

Lemma mp_roundtrip u u0 :
  user_wf u -> mp_fits u -> mpDecode (mpEncode u) u0 = Some (true, u).
Proof.
  intros (Hid & _ & _) (Hs & H4 & Ht & Hn & He). unfold mpDecode.
  change (len (mpEncode u) =? 0) with false. change (at_ (mpEncode u) 0) with (Some (z2b 134)).
  cbn [mbind option_bind]. change (negb (b2z (z2b 134) =? 134)) with false. cbv iota.
  unfold mpEncode. rewrite <- (app_nil_r (mpPutStr (u_email u))). change 1 with (len [z2b 134]).
  set (e1 := mpPutStr (str "id") ++ mpPutUint (u_id u)).
  set (e2 := mpPutStr (str "score") ++ mpPutScore (u_score u)).
  set (e3 := mpPutStr (str "active") ++ [z2b (if u_active u then 0xC3 else 0xC2)]).
  set (e4 := mpPutStr (str "tags") ++ [z2b 0x94] ++ (z2b <$> u_tags u)).
  set (e5 := mpPutStr (str "name") ++ mpPutStr (u_name u)).
  field_step [z2b 134] "id" (mpPutUint (u_id u)) mpField_id.
  field_step ([z2b 134] ++ e1) "score" (mpPutScore (u_score u)) mpField_score.
  field_step (([z2b 134] ++ e1) ++ e2) "active" ([z2b (if u_active u then 0xC3 else 0xC2)]) mpField_active.
  field_step ((([z2b 134] ++ e1) ++ e2) ++ e3) "tags" ([z2b 0x94] ++ (z2b <$> u_tags u)) mpField_tags.
  field_step (((([z2b 134] ++ e1) ++ e2) ++ e3) ++ e4) "name" (mpPutStr (u_name u)) mpField_name.
  field_step ((((([z2b 134] ++ e1) ++ e2) ++ e3) ++ e4) ++ e5) "email" (mpPutStr (u_email u)) mpField_email.
  cbn [mpFields]. by destruct u.
Qed.
