(* ===== verification/WireProtobuf.v ===== *)
(** * WireProtobuf: the hand-encoded protobuf wire format of the bench

    [pbEncode], [pbDecode] and their helpers of
    [bench/serialization_bench.cpp].  A [std::string_view] is an offset and a
    length into the input, which need not lie inside it: the bounds check of
    [pbDecode] is computed in wrapping [size_t] arithmetic, so a decode has
    the outcomes of [pb_outcome]. *)
From S2P Require Import Prelude Wire.

(** ** Encoding *)

(** [while (v >= 0x80u)]; a 64-bit value needs at most nine turns. *)
Fixpoint pbVarint_loop (fuel : nat) (v : Z) : bytes :=
  match fuel with
  | O => [z2b v]
  | S fuel =>
      if 0x80 <=? v
      then z2b (Z.lor (Z.land v 0x7F) 0x80) :: pbVarint_loop fuel (Z.shiftr v 7)
      else [z2b v]
  end.
Definition pbVarint (v : Z) : bytes := pbVarint_loop 9 v.

Definition pbTag (field wireType : Z) : bytes := pbVarint (Z.lor (Z.shiftl field 3) wireType).
Definition pbString (field : Z) (s : bytes) : bytes := pbTag field 2 ++ pbVarint (len s) ++ s.
Definition pbPacked (tags : list Z) : bytes := concat ((fun tag => pbVarint (u32 tag)) <$> tags).

Definition pbEncode (u : User) : bytes :=
  pbTag 1 0 ++ pbVarint (u_id u) ++
  pbString 2 (u_name u) ++
  pbString 3 (u_email u) ++
  pbTag 4 0 ++ pbVarint (if u_active u then 1 else 0) ++
  pbTag 5 0 ++ pbVarint (u32 (u_score u)) ++
  pbTag 6 2 ++ pbVarint (len (pbPacked (u_tags u))) ++ pbPacked (u_tags u).

(** ** Decoding *)

(** [pbReadVarint] on the view of [n] bytes at [off]: the value and the cursor
    afterwards, [Some None] for [false]; [None] is a read outside the input.
    The shift takes the values 0, 7, ..., 63. *)
Fixpoint pbRead_loop (turns : nat) (inp : bytes) (off n p v shift : Z) : option (option (Z * Z)) :=
  match turns with
  | O => Some None
  | S turns =>
      if negb ((p <? n) && (shift <=? 63)) then Some None else
      byte ← at_ inp (off + p);
      let v := Z.lor v (u64 (Z.shiftl (Z.land (b2z byte) 0x7F) shift)) in
      if Z.land (b2z byte) 0x80 =? 0 then Some (Some (v, p + 1))
      else pbRead_loop turns inp off n (p + 1) v (shift + 7)
  end.
Definition pbReadVarint (inp : bytes) (off n p : Z) : option (option (Z * Z)) :=
  pbRead_loop 10 inp off n p 0 0.

Inductive pb_outcome :=
| PbReturns (ok : bool) (u : User)
| PbThrows           (* [std::length_error] from [std::string::assign] *)
| PbOutside          (* a read outside the input *)
| PbRunning.         (* still looping when the fuel ends *)

(** [std::string::max_size()] *)
Definition max_size : Z := 2 ^ 63 - 1.

(** [u->name.assign(bytes)] for the view of [n] bytes at [off]. *)
Definition pbAssign (inp : bytes) (off n : Z) (k : bytes -> pb_outcome) : pb_outcome :=
  if max_size <? n then PbThrows else
  match slice inp off n with Some s => k s | None => PbOutside end.

(** [while (q < bytes.size())] of the packed tags: [inl] is a decode that ends
    here.  Every turn reads a byte, so the input bounds the turns. *)
Fixpoint pbTags (fuel : nat) (inp : bytes) (off n q : Z) (u : User) : pb_outcome + User :=
  match fuel with
  | O => inl PbRunning
  | S fuel =>
      if negb (q <? n) then inr u else
      match pbReadVarint inp off n q with
      | None => inl PbOutside
      | Some None => inl (PbReturns false u)
      | Some (Some (v, q)) => pbTags fuel inp off n q (push_tag (i32 v) u)
      end
  end.

(** [while (p < in.size())]; [p] and [p + len] are [size_t]. *)
Fixpoint pbDecode_loop (fuel : nat) (inp : bytes) (p : Z) (u : User) : pb_outcome :=
  match fuel with
  | O => PbRunning
  | S fuel =>
      if negb (p <? len inp) then PbReturns true u else
      match pbReadVarint inp 0 (len inp) p with
      | None => PbOutside
      | Some None => PbReturns false u
      | Some (Some (key, p)) =>
          let field := u32 (Z.shiftr key 3) in
          let wire := u32 (Z.land key 0x7) in
          if wire =? 0 then
            match pbReadVarint inp 0 (len inp) p with
            | None => PbOutside
            | Some None => PbReturns false u
            | Some (Some (v, p)) =>
                pbDecode_loop fuel inp p
                  (if field =? 1 then set_id v u
                   else if field =? 4 then set_active (negb (v =? 0)) u
                   else if field =? 5 then set_score (i32 v) u
                   else u)
            end
          else if wire =? 2 then
            match pbReadVarint inp 0 (len inp) p with
            | None => PbOutside
            | Some None => PbReturns false u
            | Some (Some (n, p)) =>
                if len inp <? u64 (p + n) then PbReturns false u else
                let off := p in
                let p := u64 (p + n) in
                if field =? 2 then pbAssign inp off n (fun s => pbDecode_loop fuel inp p (set_name s u))
                else if field =? 3 then pbAssign inp off n (fun s => pbDecode_loop fuel inp p (set_email s u))
                else if field =? 6 then
                  match pbTags (S (length inp)) inp off n 0 (set_tags [] u) with
                  | inl r => r
                  | inr u => pbDecode_loop fuel inp p u
                  end
                else pbDecode_loop fuel inp p u
            end
          else if wire =? 5 then pbDecode_loop fuel inp (u64 (p + 4)) u
          else if wire =? 1 then pbDecode_loop fuel inp (u64 (p + 8)) u
          else PbReturns false u
      end
  end.

Definition pbDecode (fuel : nat) (inp : bytes) (u : User) : pb_outcome := pbDecode_loop fuel inp 0 u.

(** ** Varints *)

Lemma land_7f z : Z.land z 0x7F = z mod 128.
Proof. apply (Z.land_ones z 7). lia. Qed.

Lemma varint_bits v :
  0 <= v -> b2z (z2b (Z.lor (Z.land v 0x7F) 0x80)) = v mod 128 + 128.
Proof.
  intros Hv. rewrite land_7f. pose proof (lor_shiftl_add (v mod 128) 1 7) as E.
  change (Z.shiftl 1 7) with 128 in E. rewrite E by dmlia. rewrite b2z_z2b, Z.mod_small; dmlia.
Qed.

(** The continuation bit of a byte. *)
Lemma land_80 b : (Z.land (b2z b) 0x80 =? 0) = (b2z b <? 128).
Proof.
  pose proof (byte_all (fun z => eqb (Z.land z 0x80 =? 0) (z <? 128)) eq_refl b) as H.
  by apply eqb_prop in H.
Qed.

Lemma pbVarint_loop_len fuel v : 1 <= len (pbVarint_loop fuel v) <= Z.of_nat fuel + 1.
Proof.
  revert v. induction fuel as [|fuel IH]; intros v; cbn [pbVarint_loop]; [done|].
  destruct (_ <=? _); [|done || (rewrite len_cons, len_nil; lia)]. rewrite len_cons. specialize (IH (Z.shiftr v 7)). lia.
Qed.

(** The group a byte contributes at [shift], added to the groups before it. *)
Lemma group_add acc c shift :
  0 <= shift -> 0 <= acc < 2 ^ shift -> 0 <= c -> c * 2 ^ shift < 2 ^ 64 ->
  Z.lor acc (u64 (Z.shiftl c shift)) = acc + c * 2 ^ shift.
Proof.
  intros Hs Ha Hc Hb. rewrite u64_small by (rewrite Z.shiftl_mul_pow2 by lia; nia).
  by apply lor_shiftl_add.
Qed.

(** The last group, whose continuation bit is clear. *)
Lemma pbRead_last turns off n p pre w post shift acc :
  off + p = len pre -> p < n -> 0 <= shift <= 63 -> 0 <= w < 128 -> w * 2 ^ shift < 2 ^ 64 ->
  0 <= acc < 2 ^ shift ->
  pbRead_loop (S turns) (pre ++ z2b w :: post) off n p acc shift = Some (Some (acc + w * 2 ^ shift, p + 1)).
Proof.
  intros Hp Hn Hs Hw Hb Ha. cbn [pbRead_loop].
  rewrite (proj2 (Z.ltb_lt p n)), (proj2 (Z.leb_le shift 63)) by lia. cbn [andb negb].
  rewrite at_here by done. cbn [mbind option_bind].
  rewrite land_80, b2z_z2b, (Z.mod_small w), land_7f, (Z.mod_small w), (proj2 (Z.ltb_lt w 128)) by lia.
  by rewrite group_add by lia.
Qed.

(** Reading back the [fuel + 1] groups that remain of a value after the first
    [9 - fuel] of them. *)
Lemma pbRead_varint fuel : forall turns inp off n p pre w post shift acc,
  inp = pre ++ pbVarint_loop fuel w ++ post -> off + p = len pre ->
  p + len (pbVarint_loop fuel w) <= n -> (fuel < turns)%nat -> (fuel <= 9)%nat ->
  shift = 7 * (9 - Z.of_nat fuel) -> 0 <= w -> w * 2 ^ shift < 2 ^ 64 -> 0 <= acc < 2 ^ shift ->
  pbRead_loop turns inp off n p acc shift =
  Some (Some (acc + w * 2 ^ shift, p + len (pbVarint_loop fuel w))).
Proof.
  induction fuel as [|fuel IH];
    intros turns inp off n p pre w post shift acc -> Hp Hn Ht H9 Hs Hw Hb Ha;
    (destruct turns as [|turns]; [lia|]); cbn [pbVarint_loop] in *.
  - assert (w < 2) by (subst shift; lia). rewrite len_cons, len_nil in *. cbn [app].
    by rewrite pbRead_last by lia.
  - destruct (Z.leb_spec 0x80 w) as [Hbig|Hsmall]; cbn [app] in *; rewrite len_cons in *;
      [|rewrite len_nil in *; by rewrite pbRead_last by lia]. cbn [pbRead_loop].
    pose proof (pbVarint_loop_len fuel (Z.shiftr w 7)).
    rewrite (proj2 (Z.ltb_lt p n)), (proj2 (Z.leb_le shift 63)) by lia. cbn [andb negb].
    rewrite at_here by done. cbn [mbind option_bind].
    rewrite land_80, varint_bits, land_7f, (proj2 (Z.ltb_ge _ 128)) by dmlia.
    replace ((w mod 128 + 128) mod 128) with (w mod 128) by dmlia.
    assert (0 < 2 ^ shift) by lia. pose proof (Z.div_mod w 128 ltac:(lia)) as Hdm.
    pose proof (Z.mod_pos_bound w 128 ltac:(lia)) as Hm. pose proof (Z.div_pos w 128 Hw ltac:(lia)).
    rewrite group_add by nia.
    assert (Z.shiftr w 7 = w / 128) as Ew by (by rewrite Z.shiftr_div_pow2 by lia).
    assert (2 ^ (shift + 7) = 2 ^ shift * 128) as E2 by (by rewrite Z.pow_add_r by lia).
    set (b := z2b _). rewrite (IH turns _ off n (p + 1) (pre ++ [b]) (Z.shiftr w 7) post (shift + 7));
      rewrite ?E2, ?Ew in *; [|by rewrite <- app_assoc|solve_len|lia || nia..].
    do 3 f_equal; [nia|lia].
Qed.

Lemma pbReadVarint_put inp off n p pre v post :
  inp = pre ++ pbVarint v ++ post -> off + p = len pre -> p + len (pbVarint v) <= n ->
  0 <= v < 2 ^ 64 -> pbReadVarint inp off n p = Some (Some (v, p + len (pbVarint v))).
Proof.
  intros E Hp Hn Hv. unfold pbReadVarint.
  rewrite (pbRead_varint 9 10 inp off n p pre v post 0 0) by (done || lia). do 3 f_equal. lia.
Qed.

Lemma pbVarint_len v : 1 <= len (pbVarint v) <= 10.
Proof. apply (pbVarint_loop_len 9). Qed.

(** ** Round trip *)

(** Field numbers of the schema, whose key is one 64-bit value. *)
Lemma pb_key f w :
  0 <= f < 2 ^ 29 -> 0 <= w < 8 ->
  let key := Z.lor (Z.shiftl f 3) w in
  0 <= key < 2 ^ 64 /\ u32 (Z.shiftr key 3) = f /\ u32 (Z.land key 0x7) = w.
Proof.
  intros Hf Hw key. assert (key = w + f * 8) as ->.
  { unfold key. rewrite Z.lor_comm, lor_shiftl_add by lia. done. }
  rewrite Z.shiftr_div_pow2, (Z.land_ones _ 3) by lia. unfold u32. split; [lia|].
  split; Z.div_mod_to_equations; lia.
Qed.

(** What a varint field does to the record. *)
Definition pb_scalar (f v : Z) (u : User) : User :=
  if f =? 1 then set_id v u
  else if f =? 4 then set_active (negb (v =? 0)) u
  else if f =? 5 then set_score (i32 v) u
  else u.

(** One turn of the loop reads a key. *)
Lemma pbDecode_key f w inp pre post p :
  inp = pre ++ pbTag f w ++ post -> p = len pre -> 0 <= f < 2 ^ 29 -> 0 <= w < 8 ->
  p < len inp /\ pbReadVarint inp 0 (len inp) p = Some (Some (Z.lor (Z.shiftl f 3) w, len (pre ++ pbTag f w))).
Proof.
  intros E -> Hf Hw. destruct (pb_key f w Hf Hw) as (Hk & _).
  pose proof (pbVarint_len (Z.lor (Z.shiftl f 3) w)). pose proof (len_nonneg post).
  assert (len inp = len pre + len (pbTag f w) + len post) as El by (rewrite E, !len_app; lia).
  unfold pbTag in *. split; [lia|].
  rewrite (pbReadVarint_put _ _ _ _ pre _ post) by (done || lia). by rewrite len_app.
Qed.

Lemma pbDecode_scalar fuel f v inp pre post p u :
  inp = pre ++ (pbTag f 0 ++ pbVarint v) ++ post -> p = len pre -> 0 <= f < 2 ^ 29 -> 0 <= v < 2 ^ 64 ->
  pbDecode_loop (S fuel) inp p u = pbDecode_loop fuel inp (len (pre ++ pbTag f 0 ++ pbVarint v)) (pb_scalar f v u).
Proof.
  intros E Hp Hf Hv. destruct (pb_key f 0 Hf ltac:(lia)) as (_ & Kf & Kw).
  destruct (pbDecode_key f 0 inp pre (pbVarint v ++ post) p) as [Hlt Hr];
    [by rewrite E, <- app_assoc|done|done|lia|].
  cbn [pbDecode_loop]. rewrite (proj2 (Z.ltb_lt _ _) Hlt), Hr, Kf, Kw. cbn [negb Z.eqb].
  rewrite (pbReadVarint_put _ _ _ _ (pre ++ pbTag f 0) v post); [|by rewrite E, <- !app_assoc|done| |done].
  2: { rewrite E, !len_app. pose proof (len_nonneg post). lia. }
  by rewrite <- len_app, <- app_assoc.
Qed.

(** A length-delimited field up to the point where its contents are used. *)
Lemma pbDecode_bytes fuel f s inp pre post p u :
  inp = pre ++ (pbTag f 2 ++ pbVarint (len s) ++ s) ++ post -> p = len pre -> 0 <= f < 2 ^ 29 ->
  len inp < 2 ^ 63 ->
  let off := len (pre ++ pbTag f 2 ++ pbVarint (len s)) in
  let next := pbDecode_loop fuel inp (len (pre ++ pbTag f 2 ++ pbVarint (len s) ++ s)) in
  slice inp off (len s) = Some s /\
  pbDecode_loop (S fuel) inp p u =
    if f =? 2 then next (set_name s u)
    else if f =? 3 then next (set_email s u)
    else if f =? 6 then
      match pbTags (S (length inp)) inp off (len s) 0 (set_tags [] u) with inl r => r | inr u => next u end
    else next u.
Proof.
  intros E Hp Hf Hl off next. destruct (pb_key f 2 Hf ltac:(lia)) as (_ & Kf & Kw).
  pose proof (len_nonneg post). pose proof (len_nonneg s). pose proof (len_nonneg pre).
  assert (El : len inp = off + len s + len post) by (unfold off; rewrite E, !len_app; lia).
  assert (En : off + len s = len (pre ++ pbTag f 2 ++ pbVarint (len s) ++ s))
    by (unfold off; rewrite !len_app; lia).
  assert (0 <= off) by apply len_nonneg.
  assert (Sl : slice inp off (len s) = Some s).
  { apply (slice_eq _ (pre ++ pbTag f 2 ++ pbVarint (len s)) s post); [|done..]. by rewrite E, <- !app_assoc. }
  split; [done|]. destruct (pbDecode_key f 2 inp pre ((pbVarint (len s) ++ s) ++ post) p) as [Hlt Hr];
    [by rewrite E, <- !app_assoc|done|done|lia|].
  cbn [pbDecode_loop]. rewrite (proj2 (Z.ltb_lt _ _) Hlt), Hr, Kf, Kw. cbn [negb Z.eqb Pos.eqb].
  rewrite (pbReadVarint_put _ _ _ _ (pre ++ pbTag f 2) (len s) (s ++ post));
    [|by rewrite E, <- !app_assoc|done|rewrite <- len_app, <- app_assoc; fold off; lia|lia].
  rewrite <- len_app, <- app_assoc. fold off. rewrite u64_small by lia.
  rewrite (proj2 (Z.ltb_ge _ _)) by lia. unfold pbAssign, max_size.
  rewrite (proj2 (Z.ltb_ge (2 ^ 63 - 1) _)), Sl, En by lia. done.
Qed.

Lemma pbTags_put ts : forall fuel inp off n q pre post u,
  inp = pre ++ pbPacked ts ++ post -> off + q = len pre -> n = q + len (pbPacked ts) ->
  (length ts < fuel)%nat -> Forall is_i32 ts ->
  pbTags fuel inp off n q u = inr (set_tags (u_tags u ++ ts) u).
Proof.
  induction ts as [|t ts IH]; intros fuel inp off n q pre post u E Hq -> Hf Hts;
    (destruct fuel as [|fuel]; [simpl in Hf; lia|]); cbn [pbTags].
  { change (len (pbPacked [])) with 0. rewrite (proj2 (Z.ltb_ge _ _)) by lia. destruct u. cbn. by rewrite app_nil_r. }
  apply Forall_cons_1 in Hts as [Ht Hts]. unfold pbPacked in *. cbn [fmap list_fmap concat length] in *.
  rewrite len_app in *. pose proof (pbVarint_len (u32 t)).
  pose proof (len_nonneg (concat ((fun tag => pbVarint (u32 tag)) <$> ts))).
  rewrite (proj2 (Z.ltb_lt _ _)) by lia. cbn [negb]. rewrite <- app_assoc in E.
  pose proof (u32_range t).
  rewrite (pbReadVarint_put _ _ _ _ pre (u32 t) _ E) by lia. rewrite i32_u32 by done.
  rewrite (IH _ _ _ _ _ (pre ++ pbVarint (u32 t)) post); [|by rewrite <- app_assoc|rewrite len_app; lia|lia..|done].
  unfold push_tag, set_tags. cbn. by rewrite <- app_assoc.
Qed.

Lemma pbPacked_len ts : len ts <= len (pbPacked ts).
Proof.
  induction ts as [|t ts IH]; [done|]. unfold pbPacked in *. cbn [fmap list_fmap concat].
  rewrite len_app, len_cons. pose proof (pbVarint_len (u32 t)). lia.
Qed.

Lemma pbDecode_name fuel s inp pre post p u :
  inp = pre ++ pbString 2 s ++ post -> p = len pre -> len inp < 2 ^ 63 ->
  pbDecode_loop (S fuel) inp p u = pbDecode_loop fuel inp (len (pre ++ pbString 2 s)) (set_name s u).
Proof. intros E Hp Hl. by destruct (pbDecode_bytes fuel 2 s inp pre post p u) as [_ ->]. Qed.

Lemma pbDecode_email fuel s inp pre post p u :
  inp = pre ++ pbString 3 s ++ post -> p = len pre -> len inp < 2 ^ 63 ->
  pbDecode_loop (S fuel) inp p u = pbDecode_loop fuel inp (len (pre ++ pbString 3 s)) (set_email s u).
Proof. intros E Hp Hl. by destruct (pbDecode_bytes fuel 3 s inp pre post p u) as [_ ->]. Qed.

Lemma pbDecode_tags fuel ts inp pre post p u :
  inp = pre ++ pbString 6 (pbPacked ts) ++ post -> p = len pre -> len inp < 2 ^ 63 -> Forall is_i32 ts ->
  pbDecode_loop (S fuel) inp p u =
  pbDecode_loop fuel inp (len (pre ++ pbString 6 (pbPacked ts))) (set_tags ts u).
Proof.
  intros E Hp Hl Ht.
  destruct (pbDecode_bytes fuel 6 (pbPacked ts) inp pre post p u) as [_ ->]; [done..|].
  cbn [Z.eqb Pos.eqb]. unfold pbString in E.
  rewrite (pbTags_put ts _ _ _ _ _ (pre ++ pbTag 6 2 ++ pbVarint (len (pbPacked ts))) post); [done|..].
  - by rewrite E, <- !app_assoc.
  - lia.
  - lia.
  - pose proof (pbPacked_len ts). rewrite E, !length_app. unfold len in *. lia.
  - done.
Qed.

(** The encoding fits in memory. *)
Definition pb_fits (u : User) : Prop := len (pbEncode u) < 2 ^ 63.

Lemma pb_roundtrip u u0 fuel :
  user_wf u -> pb_fits u -> (7 <= fuel)%nat -> pbDecode fuel (pbEncode u) u0 = PbReturns true u.
Proof.
  intros (Hid & Hs & Ht) Hl Hf. destruct fuel as [|[|[|[|[|[|[|fuel]]]]]]]; try lia. clear Hf.
  unfold pb_fits in Hl. unfold pbDecode. set (inp := pbEncode u) in *.
  pose (e1 := pbTag 1 0 ++ pbVarint (u_id u)). pose (e2 := pbString 2 (u_name u)).
  pose (e3 := pbString 3 (u_email u)). pose (e4 := pbTag 4 0 ++ pbVarint (if u_active u then 1 else 0)).
  pose (e5 := pbTag 5 0 ++ pbVarint (u32 (u_score u))). pose (e6 := pbString 6 (pbPacked (u_tags u))).
  assert (E : inp = [] ++ e1 ++ e2 ++ e3 ++ e4 ++ e5 ++ e6 ++ []).
  { unfold inp, pbEncode, e1, e2, e3, e4, e5, e6, pbString. by rewrite app_nil_r, <- !app_assoc. }
  clearbody inp. change 0 with (len (@nil byte)).
  pose proof (u32_range (u_score u)).
  rewrite (pbDecode_scalar _ 1 (u_id u) inp [] _ _ _ E) by done. rewrite app_assoc in E.
  rewrite (pbDecode_name _ (u_name u) inp _ _ _ _ E) by done. rewrite app_assoc in E.
  rewrite (pbDecode_email _ (u_email u) inp _ _ _ _ E) by done. rewrite app_assoc in E.
  rewrite (pbDecode_scalar _ 4 _ inp _ _ _ _ E) by (done || by destruct (u_active u)). rewrite app_assoc in E.
  rewrite (pbDecode_scalar _ 5 _ inp _ _ _ _ E) by (done || lia). rewrite app_assoc in E.
  rewrite (pbDecode_tags _ (u_tags u) inp _ _ _ _ E) by done. rewrite app_assoc, app_nil_r in E.
  cbn [pbDecode_loop]. rewrite E at 1. unfold e6. rewrite Z.ltb_irrefl. cbn [negb]. unfold pb_scalar. cbn [Z.eqb Pos.eqb].
  rewrite i32_u32 by done. by destruct u as [? ? [] ? ? ?].
Qed.

(** ** Where the decoder is safe *)

(** Reading a varint of a view inside the input: it fails or moves the cursor
    over bytes that all but the last have the continuation bit, and the value
    is bounded by the number of bytes. *)
Lemma pbRead_safe inp off n turns : forall p acc shift,
  0 <= off -> 0 <= p -> off + n <= len inp -> 0 <= acc < 2 ^ 64 -> acc < 2 ^ shift -> 0 <= shift ->
  pbRead_loop turns inp off n p acc shift = Some None \/
  exists v p', pbRead_loop turns inp off n p acc shift = Some (Some (v, p')) /\
    p < p' <= n /\ p' <= p + Z.of_nat turns /\ 0 <= v < 2 ^ 64 /\ (shift + 7 * (p' - p) <= 63 -> v < 2 ^ (shift + 7 * (p' - p))) /\
    forall j, p <= j < p' - 1 -> exists b, at_ inp (off + j) = Some b /\ 128 <= b2z b.
Proof.
  induction turns as [|turns IH]; intros p acc shift Ho Hp Hn Ha Ha' Hs; [by left|]. cbn [pbRead_loop].
  destruct (Z.ltb_spec p n) as [Hpn|]; [|by left]. destruct (Z.leb_spec shift 63); [|by left]. cbn [andb negb].
  destruct (at_is_Some inp (off + p)) as [b Eb]; [lia|]. rewrite Eb. cbn [mbind option_bind].
  rewrite land_80, land_7f. pose proof (Z.mod_pos_bound (b2z b) 128 ltac:(lia)) as Hm.
  set (acc' := Z.lor acc (u64 (Z.shiftl (b2z b mod 128) shift))).
  assert (0 <= acc' < 2 ^ 64) as Ha1 by (apply lor_u64; [done|]; apply Z.mod_pos_bound; lia).
  assert (shift + 7 <= 63 -> acc' < 2 ^ (shift + 7)) as Ha2.
  { intros H63. unfold acc'. rewrite Z.pow_add_r by lia. change (2 ^ 7) with 128.
    rewrite group_add; [nia|lia..|].
    assert (2 ^ (shift + 7) <= 2 ^ 63) as Hle by (apply Z.pow_le_mono_r; lia).
    rewrite Z.pow_add_r in Hle by lia. change (2 ^ 7) with 128 in Hle. nia. }
  destruct (Z.ltb_spec (b2z b) 128).
  { right. exists acc', (p + 1). split_and!; [done|lia..|lia|lia| |lia]. 
    replace (shift + 7 * (p + 1 - p)) with (shift + 7) by lia. done. }
  destruct (IH (p + 1) acc' (shift + 7)) as [->|(v & p' & -> & ? & ? & ? & Hv & Hj)]; [lia..| |lia|by left|].
  { destruct (Z.le_gt_cases (shift + 7) 63); [by apply Ha2|].
    assert (2 ^ 64 <= 2 ^ (shift + 7)) by (apply Z.pow_le_mono_r; lia). lia. }
  right. exists v, p'. split_and!; [done|lia..| |].
  - intros. replace (shift + 7 * (p' - p)) with (shift + 7 + 7 * (p' - (p + 1))) by lia. apply Hv. lia.
  - intros j Hr. destruct (Z.eq_dec j p) as [->|]; [by exists b|]. apply Hj. lia.
Qed.

(** The length-delimited fields the decoder comes to declare lengths with which the
    cursor stays below 2^64.  The recursion is that of the decoder. *)
Fixpoint pb_lengths_fit (fuel : nat) (inp : bytes) (p : Z) : bool :=
  match fuel with
  | O => true
  | S fuel =>
      match pbReadVarint inp 0 (len inp) p with
      | Some (Some (key, p)) =>
          let wire := u32 (Z.land key 0x7) in
          if wire =? 0 then
            match pbReadVarint inp 0 (len inp) p with Some (Some (_, p)) => pb_lengths_fit fuel inp p | _ => true end
          else if wire =? 2 then
            match pbReadVarint inp 0 (len inp) p with
            | Some (Some (n, p)) => (p + n <? 2 ^ 64) && pb_lengths_fit fuel inp (p + n)
            | _ => true
            end
          else if wire =? 5 then pb_lengths_fit fuel inp (p + 4)
          else if wire =? 1 then pb_lengths_fit fuel inp (p + 8)
          else true
      | _ => true
      end
  end.

Lemma pbReadVarint_safe inp off n p :
  0 <= off -> 0 <= p -> off + n <= len inp ->
  pbReadVarint inp off n p = Some None \/
  exists v p', pbReadVarint inp off n p = Some (Some (v, p')) /\ p < p' <= n /\ 0 <= v < 2 ^ 64.
Proof.
  intros Ho Hp Hn. unfold pbReadVarint.
  destruct (pbRead_safe inp off n 10 p 0 0) as [->|(v & p' & -> & H1 & H2 & H3)]; [lia..|by left|].
  right. exists v, p'. split_and!; [done|lia..].
Qed.

Lemma pbTags_safe inp off n fuel : forall q u,
  0 <= off -> 0 <= q -> off + n <= len inp -> n - q < Z.of_nat fuel -> (0 < fuel)%nat ->
  user_wf u ->
  exists u', user_wf u' /\ (pbTags fuel inp off n q u = inl (PbReturns false u') \/ pbTags fuel inp off n q u = inr u').
Proof.
  induction fuel as [|fuel IH]; intros q u Ho Hq Hn Hf H0 Hu; [lia|]. cbn [pbTags].
  destruct (Z.ltb_spec q n); cbn [negb]; [|eauto].
  destruct (pbReadVarint_safe inp off n q) as [->|(v & q' & -> & ? & ?)]; [done..|eauto|].
  apply IH; [lia..|]. auto with wire.
Qed.

(** Messages with such lengths decode: the loop ends within one turn per byte,
    inside the input, and leaves a well-formed record. *)
Lemma pbDecode_loop_safe inp fuel : forall p u,
  pb_lengths_fit fuel inp p = true -> len inp < 2 ^ 63 -> 0 <= p -> len inp - p < Z.of_nat fuel -> (0 < fuel)%nat -> user_wf u ->
  exists ok u', pbDecode_loop fuel inp p u = PbReturns ok u' /\ user_wf u'.
Proof.
  induction fuel as [|fuel IH]; intros p u Hsh Hl Hp Hf H0 Hu; [lia|]. cbn [pbDecode_loop pb_lengths_fit] in *.
  destruct (Z.ltb_spec p (len inp)); cbn [negb]; [|eauto].
  destruct (pbReadVarint_safe inp 0 (len inp) p) as [->|(key & p1 & E1 & ? & ?)]; [lia..|eauto|]. rewrite E1 in *.
  destruct (_ =? 0).
  { destruct (pbReadVarint_safe inp 0 (len inp) p1) as [->|(v & p2 & E2 & ? & ?)]; [lia..|eauto|]. rewrite E2 in *.
    apply IH; [done|lia..|]. repeat case_match; auto with wire. }
  destruct (_ =? 2).
  { destruct (pbReadVarint_safe inp 0 (len inp) p1) as [->|(n & p2 & E2 & ? & ?)]; [lia..|eauto|]. rewrite E2 in *.
    apply andb_prop in Hsh as [Hn%Z.ltb_lt Hsh].
    rewrite u64_small by lia. destruct (Z.ltb_spec (len inp) (p2 + n)); [eauto|].
    unfold pbAssign, max_size. rewrite (proj2 (Z.ltb_ge _ n)), slice_Some by lia.
    destruct (_ =? 2); [apply IH; (lia || auto with wire)|]. destruct (_ =? 3); [apply IH; (lia || auto with wire)|].
    destruct (_ =? 6); [|apply IH; lia || done].
    destruct (pbTags_safe inp p2 n (S (length inp)) 0 (set_tags [] u)) as (u' & Hu' & [->| ->]);
      [unfold len in *; lia..|auto with wire|eauto|apply IH; lia || done]. }
  destruct (_ =? 5); [rewrite u64_small by lia; apply IH; lia || done|].
  destruct (_ =? 1); [rewrite u64_small by lia; apply IH; lia || done|]. eauto.
Qed.

(** ** Where it is not *)

(** A length-delimited field 7 whose length makes [p + len] wrap to 0. *)
Definition pb_spin : bytes := pbTag 7 2 ++ pbVarint (2 ^ 64 - 11).

Lemma pb_spin_runs fuel u : pbDecode fuel pb_spin u = PbRunning.
Proof.
  unfold pbDecode. induction fuel as [|fuel IH]; [done|].
  etransitivity; [|exact IH]. cbn [pbDecode_loop].
  change (pbReadVarint pb_spin 0 (len pb_spin) 0) with (Some (Some (58, 1))). cbv beta iota zeta.
  change (pbReadVarint pb_spin 0 (len pb_spin) 1) with (Some (Some (2 ^ 64 - 11, 11))). done.
Qed.

(** Packed tags whose length wraps: the first tag is read past the end. *)
Definition pb_past_end : bytes := pbTag 6 2 ++ pbVarint (2 ^ 64 - 1).

Lemma pb_past_end_reads fuel u : pbDecode (S fuel) pb_past_end u = PbOutside.
Proof. vm_compute. done. Qed.
