(* ===== verification/WireJson.v ===== *)
(** * WireJson: the fixed-schema JSON codec of the bench

    [jsonEncode] and [jsonDecode] of [bench/serialization_bench.cpp].  The
    scanner finds each key by a substring search over the whole input.  [None]
    is undefined behaviour: a read outside the input, or the overflow of the
    [int64_t] accumulator on a long run of digits. *)
From S2P Require Import Prelude Charconv HttpRequest Wire.

(** ** Encoding *)

(** [std::to_string] of an integer. *)
Definition to_string (v : Z) : bytes := if v <? 0 then "-"%byte :: decimal (- v) else decimal v.

(** The loop over [u.tags], with its separators. *)
Fixpoint jsonTags (i : Z) (tags : list Z) : bytes :=
  match tags with
  | [] => []
  | t :: tags => (if negb (i =? 0) then str "," else []) ++ to_string t ++ jsonTags (i + 1) tags
  end.

(** The literal ["key":]. *)
Definition quoted_key (key : bytes) : bytes := x22 :: key ++ x22 :: str ":".

Definition jsonEncode (u : User) : bytes :=
  str "{" ++ quoted_key (str "id") ++ to_string (u_id u) ++
  str "," ++ quoted_key (str "score") ++ to_string (u_score u) ++
  str "," ++ quoted_key (str "active") ++ (if u_active u then str "true" else str "false") ++
  str "," ++ quoted_key (str "tags") ++ str "[" ++ jsonTags 0 (u_tags u) ++
  str "]," ++ quoted_key (str "name") ++ [x22] ++ u_name u ++
  [x22] ++ str "," ++ quoted_key (str "email") ++ [x22] ++ u_email u ++ [x22] ++ str "}".

(** ** Decoding *)

(** The offset just after the first occurrence of [key]; [None] is [npos]. *)
Definition after (inp key : bytes) : option Z :=
  match search key inp with Some at0 => Some (Z.of_nat at0 + len key) | None => None end.

(** [while (p < in.size() && isdigit(in[p])) v = v * 10 + ...] *)
Fixpoint readDigits (fuel : nat) (inp : bytes) (p v : Z) : option (Z * Z) :=
  match fuel with
  | O => None
  | S fuel =>
      if negb (p <? len inp) then Some (v, p) else
      c ← at_ inp p;
      if negb (isDigit c) then Some (v, p) else
      let v := v * 10 + (b2z c - 48) in
      if int64_max <? v then None else readDigits fuel inp (p + 1) v
  end.

(** The integer read; [Some None] is [false]. *)
Definition readInt (inp key : bytes) : option (option Z) :=
  match after inp key with
  | None => Some None
  | Some at0 =>
      if len inp <=? at0 then Some None else
      c ← at_ inp at0;
      let negative := bool_decide (c = "-"%byte) in
      let p := if negative then at0 + 1 else at0 in
      '(v, _) ← readDigits (S (length inp)) inp p 0;
      Some (Some (if negative then - v else v))
  end.

Definition readString (inp key : bytes) : option (option bytes) :=
  match after inp key with
  | None => Some None
  | Some at0 =>
      if len inp <=? at0 then Some None else
      c ← at_ inp at0;
      if negb (bool_decide (c = x22)) then Some None else
      match search [x22] (drop (Z.to_nat (at0 + 1)) inp) with
      | None => Some None
      | Some n => s ← slice inp (at0 + 1) (Z.of_nat n); Some (Some s)
      end
  end.

(** [while (p < in.size() && in[p] != ']')]: one byte at least per turn. *)
Fixpoint jsonReadTags (fuel : nat) (inp : bytes) (p : Z) (u : User) : option User :=
  match fuel with
  | O => None
  | S fuel =>
      if negb (p <? len inp) then Some u else
      c ← at_ inp p;
      if bool_decide (c = "]"%byte) then Some u
      else if isDigit c then
        '(v, p) ← readDigits (S (length inp)) inp p 0;
        jsonReadTags fuel inp p (push_tag (i32 v) u)
      else jsonReadTags fuel inp (p + 1) u
  end.

Definition jsonDecode (inp : bytes) (u : User) : option (bool * User) :=
  i ← readInt inp (quoted_key (str "id"));
  match i with
  | None => Some (false, u)
  | Some id =>
      s ← readInt inp (quoted_key (str "score"));
      match s with
      | None => Some (false, u)
      | Some score =>
          let u := set_score (i32 score) (set_id (u64 id) u) in
          let found := search (quoted_key (str "active") ++ str "true") inp in
          let u := set_active (match found with Some _ => true | None => false end) u in
          let u := set_tags [] u in
          match after inp (quoted_key (str "tags") ++ str "[") with
          | None => Some (false, u)
          | Some tagsAt =>
              u ← jsonReadTags (S (length inp)) inp tagsAt u;
              n ← readString inp (quoted_key (str "name"));
              match n with
              | None => Some (false, u)
              | Some nm =>
                  let u := set_name nm u in
                  e ← readString inp (quoted_key (str "email"));
                  match e with
                  | None => Some (false, u)
                  | Some em => Some (true, set_email em u)
                  end
              end
          end
      end
  end.

(** ** Texts cut at their quotes *)

Definition unquoted (s : bytes) : Prop := Forall (fun c => c <> x22) s.

(** The text [s " s1 " s2 ...]. *)
Definition cut (l : list bytes) : bytes := concat ((fun s => x22 :: s) <$> l).

Lemma starts_with_app_l p l : starts_with p (p ++ l) = true.
Proof. apply starts_with_spec. by eexists. Qed.

Lemma search_unquoted pat s l :
  unquoted s -> search (x22 :: pat) (s ++ l) = Nat.add (length s) <$> search (x22 :: pat) l.
Proof.
  intros Hs. induction Hs as [|c s Hc _ IH]; cbn [app length].
  { by destruct (search _ l). }
  cbn [search starts_with]. rewrite bool_decide_false by done. cbn [andb]. rewrite IH. by destruct (search _ l).
Qed.

(** A quoted pattern matches at a quote only if the segment after it is the
    quoted word and the rest of the pattern follows. *)
Lemma starts_with_quoted k r : forall s rest,
  unquoted k -> unquoted s ->
  starts_with (k ++ x22 :: r) (s ++ x22 :: rest) = bool_decide (k = s) && starts_with r rest.
Proof.
  induction k as [|c k IH]; intros [|d s] rest Hk Hs; cbn [app starts_with].
  - rewrite !bool_decide_true by done. done.
  - apply Forall_cons_1 in Hs as [Hd _]. repeat (rewrite bool_decide_false by congruence). done.
  - apply Forall_cons_1 in Hk as [Hc _]. repeat (rewrite bool_decide_false by congruence). done.
  - apply Forall_cons_1 in Hs as [_ Hs], Hk as [_ Hk]. rewrite IH by done.
    destruct (decide (c = d)) as [->|]; 
      [|by rewrite (bool_decide_false (c = d)), (bool_decide_false (c :: k = d :: s)) by congruence].
    rewrite (bool_decide_true (d = d)) by done. cbn [andb]. f_equal. apply bool_decide_ext. split; congruence.
Qed.

(** The pattern ["k"r] as a word and what has to follow its closing quote. *)
Definition hit (k r s : bytes) (l : list bytes) : bool :=
  match l with [] => false | t :: l => bool_decide (k = s) && starts_with r (t ++ cut l) end.

(** The search skips whole segments. *)
Fixpoint search_cut (k r : bytes) (l : list bytes) : option nat :=
  match l with
  | [] => None
  | s :: l => if hit k r s l then Some O else Nat.add (S (length s)) <$> search_cut k r l
  end.

Lemma starts_with_unquoted k r s :
  unquoted s -> starts_with (k ++ x22 :: r) s = false.
Proof.
  revert s. induction k as [|c k IH]; intros [|d s] Hs; cbn [app starts_with]; try done;
    apply Forall_cons_1 in Hs as [Hd Hs].
  - by rewrite bool_decide_false.
  - rewrite IH by done. apply andb_false_r.
Qed.

Lemma search_cut_spec k r l :
  unquoted k -> Forall unquoted l -> search (x22 :: k ++ x22 :: r) (cut l) = search_cut k r l.
Proof.
  intros Hk Hl. induction Hl as [|s l Hs Hl IH]; [done|].
  unfold cut in *. cbn [fmap list_fmap concat app search_cut search].
  assert (starts_with (x22 :: k ++ x22 :: r) (x22 :: s ++ concat ((fun s => x22 :: s) <$> l)) = hit k r s l) as ->.
  { cbn [starts_with]. rewrite bool_decide_true by done. cbn [andb]. destruct l as [|t l]; cbn [fmap list_fmap concat hit].
    - rewrite app_nil_r. by apply starts_with_unquoted.
    - cbn [app]. by rewrite starts_with_quoted. }
  destruct (hit k r s l); [done|].
  rewrite search_unquoted, IH by done. by destruct (search_cut k r l).
Qed.

(** No segment of [l1], followed by [l2], starts a match. *)
Fixpoint misses (k r : bytes) (l1 l2 : list bytes) : Prop :=
  match l1 with
  | [] => True
  | s :: l1 => hit k r s (l1 ++ l2) = false /\ misses k r l1 l2
  end.

Lemma search_cut_misses k r l1 l2 :
  misses k r l1 l2 -> search_cut k r (l1 ++ l2) = Nat.add (length (cut l1)) <$> search_cut k r l2.
Proof.
  induction l1 as [|s l1 IH]; intros H; cbn [app].
  { by destruct (search_cut k r l2). }
  destruct H as [Hh Hm]. cbn [search_cut]. rewrite Hh, IH by done.
  unfold cut. cbn [fmap list_fmap concat app]. rewrite length_cons, length_app.
  destruct (search_cut k r l2); [|done]. cbn. f_equal. lia.
Qed.

Lemma after_cut s0 k r l1 t l2 rest :
  unquoted s0 -> unquoted k -> Forall unquoted (l1 ++ k :: t :: l2) ->
  misses k r l1 (k :: t :: l2) -> t ++ cut l2 = r ++ rest ->
  let inp := s0 ++ cut (l1 ++ k :: t :: l2) in
  let pre := s0 ++ cut l1 ++ x22 :: k ++ x22 :: r in
  after inp (x22 :: k ++ x22 :: r) = Some (len pre) /\ inp = pre ++ rest.
Proof.
  intros H0 Hk Hl Hm Et inp pre. split.
  - unfold after, inp. rewrite search_unquoted, search_cut_spec, search_cut_misses by done.
    cbn [search_cut hit]. rewrite bool_decide_true, Et, starts_with_app_l by done. cbn.
    f_equal. unfold pre. rewrite !len_app. unfold len. cbn [length]. lia.
  - unfold inp, pre, cut. rewrite fmap_app, concat_app. cbn [fmap list_fmap concat app].
    unfold cut in Et. rewrite Et, <- !app_assoc. cbn [app]. by rewrite <- !app_assoc.
Qed.

(** ** Reading numbers and strings back *)

Lemma digits_fold ds : forall v,
  all_digits ds -> 0 <= v ->
  v <= fold_left (fun a d => a * 10 + (b2z d - 48)) ds v.
Proof.
  induction ds as [|d ds IH]; intros v Hd Hv; [done|]. apply Forall_cons_1 in Hd as [Hc Hd].
  apply isDigit_spec in Hc. cbn [fold_left]. specialize (IH (v * 10 + (b2z d - 48)) Hd ltac:(lia)). lia.
Qed.

Lemma readDigits_run ds : forall fuel inp pre rest v,
  inp = pre ++ ds ++ rest -> all_digits ds -> no_digit rest -> (length ds < fuel)%nat -> 0 <= v ->
  fold_left (fun a d => a * 10 + (b2z d - 48)) ds v <= int64_max ->
  readDigits fuel inp (len pre) v =
  Some (fold_left (fun a d => a * 10 + (b2z d - 48)) ds v, len (pre ++ ds)).
Proof.
  induction ds as [|d ds IH]; intros fuel inp pre rest v -> Hd Hr Hf Hv Hm;
    (destruct fuel as [|fuel]; [simpl in Hf; lia|]); cbn [readDigits app fold_left] in *.
  - rewrite app_nil_r. destruct rest as [|c rest].
    + rewrite app_nil_r, Z.ltb_irrefl. done.
    + rewrite (proj2 (Z.ltb_lt _ _)) by (pose proof (len_nonneg rest); solve_len). cbn [negb].
      rewrite at_here by done. cbn [mbind option_bind]. cbn in Hr. by rewrite Hr.
  - apply Forall_cons_1 in Hd as [Hc Hd]. pose proof (proj1 (isDigit_spec d) Hc).
    rewrite (proj2 (Z.ltb_lt _ _)) by (pose proof (len_nonneg rest); solve_len). cbn [negb].
    rewrite at_here by done. cbn [mbind option_bind]. rewrite Hc. cbn [negb].
    pose proof (digits_fold ds (v * 10 + (b2z d - 48)) Hd ltac:(lia)).
    rewrite (proj2 (Z.ltb_ge _ _)) by lia.
    replace (len pre + 1) with (len (pre ++ [d])) by solve_len.
    rewrite (IH fuel _ (pre ++ [d]) rest); [|by rewrite <- app_assoc|done|done|simpl in Hf; lia|lia|done].
    by rewrite <- app_assoc.
Qed.

Lemma decimal_val n : 0 <= n -> digits_val (decimal n) = n.
Proof. intros Hn. apply dec_val. split; [done|]. by apply decimal_fuel. Qed.

Lemma decimal_all n : 0 <= n -> all_digits (decimal n).
Proof. apply dec_digits. Qed.

Lemma decimal_cons n : 0 <= n -> exists c ds, decimal n = c :: ds /\ isDigit c = true.
Proof.
  intros Hn. destruct (Z.eq_dec n 0) as [->|]; [by repeat eexists|].
  destruct (decimal_head n) as (c & ds & -> & Hc & _); [lia|]. exists c, ds. split; [done|]. apply isDigit_spec. lia.
Qed.

Lemma readInt_put inp key pre v rest :
  after inp key = Some (len pre) -> inp = pre ++ to_string v ++ rest -> no_digit rest ->
  - int64_max <= v <= int64_max -> readInt inp key = Some (Some v).
Proof.
  intros Ha E Hr Hv. unfold readInt. rewrite Ha. unfold to_string in E.
  assert (Hrun : forall pre' w, inp = pre' ++ decimal w ++ rest -> 0 <= w <= int64_max ->
    readDigits (S (length inp)) inp (len pre') 0 = Some (w, len (pre' ++ decimal w))).
  { intros pre' w Ei Hw. rewrite (readDigits_run (decimal w) _ _ pre' rest 0);
      [|done|by apply decimal_all; lia|done|rewrite Ei, !length_app; lia|done|];
      pose proof (decimal_val w) as Hval; unfold digits_val in Hval; rewrite Hval by lia; [done|lia]. }
  destruct (Z.ltb_spec v 0).
  - assert (len pre < len inp) by (rewrite E, !len_app, len_cons; pose proof (len_nonneg rest); pose proof (len_nonneg (decimal (- v))); lia).
    rewrite (proj2 (Z.leb_gt _ _)) by done. rewrite E at 1. cbn [app]. rewrite at_here by done.
    cbn [mbind option_bind]. rewrite bool_decide_true by done.
    replace (len pre + 1) with (len (pre ++ ["-"%byte])) by solve_len.
    rewrite (Hrun (pre ++ ["-"%byte]) (- v)); [|by rewrite <- app_assoc|lia].
    cbn [mbind option_bind]. do 2 f_equal. lia.
  - destruct (decimal_cons v) as (c & ds & Ed & Hc); [lia|].
    assert (len pre < len inp) by (rewrite E, Ed, !len_app, len_cons; pose proof (len_nonneg rest); pose proof (len_nonneg ds); lia).
    rewrite (proj2 (Z.leb_gt _ _)) by done. rewrite E at 1. rewrite Ed at 1. cbn [app]. rewrite at_here by done.
    cbn [mbind option_bind]. rewrite bool_decide_false by (by intros ->).
    by rewrite (Hrun pre v) by (done || lia).
Qed.

Lemma readString_put inp key pre s rest :
  after inp key = Some (len pre) -> inp = pre ++ x22 :: s ++ x22 :: rest -> unquoted s ->
  readString inp key = Some (Some s).
Proof.
  intros Ha E Hs. unfold readString. rewrite Ha.
  assert (len inp = len pre + 1 + len s + 1 + len rest) as El by (rewrite E; solve_len).
  pose proof (len_nonneg rest). pose proof (len_nonneg s). pose proof (len_nonneg pre).
  rewrite (proj2 (Z.leb_gt _ _)) by lia. rewrite E at 1. rewrite at_here by done. cbn [mbind option_bind].
  rewrite bool_decide_true by done. cbn [negb].
  replace (drop (Z.to_nat (len pre + 1)) inp) with (s ++ x22 :: rest).
  2: { rewrite E. change (x22 :: s ++ x22 :: rest) with ([x22] ++ s ++ x22 :: rest).
       rewrite app_assoc, drop_app_length' by solve_len. done. }
  rewrite search_unquoted by done. cbn [search starts_with]. rewrite bool_decide_true by done. cbn.
  rewrite Nat.add_0_r, (slice_eq inp (pre ++ [x22]) s (x22 :: rest)); [done| |solve_len|done].
  by rewrite E, <- app_assoc.
Qed.

Lemma jsonTags_sep i ts rest :
  i <> 0 -> no_digit (jsonTags i ts ++ "]"%byte :: rest).
Proof.
  intros Hi. destruct ts as [|t ts]; [done|]. cbn [jsonTags]. rewrite (proj2 (Z.eqb_neq i 0)) by done. done.
Qed.

(** The loop reads the tags [ts] back, wherever they are printed. *)
Definition tags_read (ts : list Z) : Prop := forall i fuel inp pre rest u,
  inp = pre ++ jsonTags i ts ++ "]"%byte :: rest -> 0 <= i -> (length (jsonTags i ts) < fuel)%nat ->
  jsonReadTags fuel inp (len pre) u = Some (set_tags (u_tags u ++ ts) u).

(** One tag with the cursor at its first digit. *)
Lemma tag_read t ts i fuel inp pre rest u :
  tags_read ts -> inp = pre ++ to_string t ++ jsonTags (i + 1) ts ++ "]"%byte :: rest -> 0 <= i ->
  0 <= t < 2 ^ 31 -> (length (to_string t ++ jsonTags (i + 1) ts) < fuel)%nat ->
  jsonReadTags fuel inp (len pre) u = Some (set_tags (u_tags u ++ t :: ts) u).
Proof.
  intros IH E Hi Ht Hf. destruct fuel as [|fuel]; [lia|]. cbn [jsonReadTags].
  unfold to_string in *. rewrite (proj2 (Z.ltb_ge t 0)) in * by lia.
  destruct (decimal_cons t) as (c & ds & Ed & Hc); [lia|].
  rewrite (proj2 (Z.ltb_lt _ _)).
  2: { rewrite E, Ed, !len_app, !len_cons. pose proof (len_nonneg ds). pose proof (len_nonneg rest).
       pose proof (len_nonneg (jsonTags (i + 1) ts)). lia. }
  cbn [negb]. rewrite E at 1. rewrite Ed at 1. cbn [app]. rewrite at_here by done. cbn [mbind option_bind].
  rewrite bool_decide_false, Hc by (by intros ->).
  rewrite (readDigits_run (decimal t) _ inp pre (jsonTags (i + 1) ts ++ "]"%byte :: rest) 0);
    [|done|apply decimal_all; lia|apply jsonTags_sep; lia|rewrite E, !length_app; lia|done|];
    pose proof (decimal_val t) as Hval; unfold digits_val in Hval; rewrite Hval by lia; [|unfold int64_max; lia].
  cbn [mbind option_bind].
  rewrite (IH (i + 1) fuel inp (pre ++ decimal t) rest); [|by rewrite E, <- !app_assoc|lia|].
  - unfold push_tag, set_tags. cbn. rewrite <- app_assoc. cbn. do 3 f_equal.
    unfold i32. rewrite Z.mod_small by lia. by rewrite (proj2 (Z.ltb_lt _ _)) by lia.
  - rewrite length_app, Ed in Hf. cbn [length] in Hf. lia.
Qed.

Lemma jsonReadTags_put ts : Forall (fun t => 0 <= t < 2 ^ 31) ts -> tags_read ts.
Proof.
  induction ts as [|t ts IH]; intros Hts i fuel inp pre rest u E Hi Hf.
  - destruct fuel as [|fuel]; [simpl in Hf; lia|]. cbn [jsonReadTags jsonTags app] in *.
    rewrite (proj2 (Z.ltb_lt _ _)) by (rewrite E; pose proof (len_nonneg rest); solve_len). cbn [negb].
    rewrite E, at_here by done. cbn. destruct u. cbn. by rewrite app_nil_r.
  - apply Forall_cons_1 in Hts as [Ht Hts]. specialize (IH Hts).
    cbn [jsonTags] in *. rewrite <- !app_assoc in E. destruct (Z.eqb_spec i 0) as [->|]; cbn [negb app] in *.
    + by eapply (tag_read t ts 0).
    + destruct fuel as [|fuel]; [lia|]. cbn [jsonReadTags].
      change (str ",") with [","%byte] in *. cbn [app] in E.
      rewrite (proj2 (Z.ltb_lt _ _)).
      2: { rewrite E, len_app, len_cons, !len_app, len_cons. pose proof (len_nonneg (to_string t)).
           pose proof (len_nonneg rest). pose proof (len_nonneg (jsonTags (i + 1) ts)). lia. }
      cbn [negb]. rewrite E at 1. rewrite at_here by done. cbn [mbind option_bind].
      change (bool_decide (","%byte = "]"%byte)) with false. change (isDigit ","%byte) with false. cbv iota.
      replace (len pre + 1) with (len (pre ++ [","%byte])) by solve_len.
      eapply (tag_read t ts i fuel _ (pre ++ [","%byte]) rest); [done|by rewrite E, <- app_assoc|lia|done|].
      simpl in Hf. lia.
Qed.

(** ** Round trip *)

(** Strings without quotes, an identifier below 2^63 and no negative tag. *)
Definition json_fits (u : User) : Prop :=
  u_id u < 2 ^ 63 /\ Forall (fun t => 0 <= t) (u_tags u) /\ unquoted (u_name u) /\ unquoted (u_email u).

(** No match before a key: each segment before it is another word, or is not
    followed by a colon. *)
Ltac miss :=
  repeat split; unfold hit; cbn [app]; apply andb_false_iff;
  first [left; vm_compute; reflexivity | right; vm_compute; reflexivity].

Section Text.
Context (i s a t n e : bytes).
Context (Hi : unquoted i) (Hs : unquoted s) (Ha : unquoted a) (Ht : unquoted t) (Hn : unquoted n) (He : unquoted e).

(** The encoding, cut at its quotes. *)
Definition segments : list bytes :=
  [str "id"; str ":" ++ i ++ str ","; str "score"; str ":" ++ s ++ str ","; str "active"; str ":" ++ a ++ str ",";
   str "tags"; str ":[" ++ t ++ str "],"; str "name"; str ":"; n; str ","; str "email"; str ":"; e; str "}"].

Definition text : bytes := str "{" ++ cut segments.

Lemma segments_unquoted : Forall unquoted segments.
Proof using All.
  unfold segments, unquoted in *. repeat constructor; rewrite ?Forall_app; split_and?; try done; by repeat constructor.
Qed.

Lemma after_key k r l1 t' l2 rest :
  segments = l1 ++ k :: t' :: l2 -> unquoted k -> misses k r l1 (k :: t' :: l2) -> t' ++ cut l2 = r ++ rest ->
  exists pre, after text (x22 :: k ++ x22 :: r) = Some (len pre) /\ text = pre ++ rest.
Proof using All.
  intros E Hk Hm Et. unfold text. rewrite E. pose proof segments_unquoted as Hu. rewrite E in Hu.
  eexists. apply (after_cut (str "{") k r l1 t' l2 rest); [by repeat constructor|done..].
Qed.

(** What follows the [m]-th segment, a key. *)
Ltac found m k r :=
  apply (after_key (str k) r (take m segments) (segments !!! S m) (drop (S (S m)) segments));
  [reflexivity|by repeat constructor|miss|cbn; by rewrite <- ?app_assoc].

Lemma text_id : exists pre,
  after text (quoted_key (str "id")) = Some (len pre) /\ text = pre ++ i ++ str "," ++ cut (drop 2 segments).
Proof using All. found 0%nat "id" (str ":"). Qed.

Lemma text_score : exists pre,
  after text (quoted_key (str "score")) = Some (len pre) /\ text = pre ++ s ++ str "," ++ cut (drop 4 segments).
Proof using All. found 2%nat "score" (str ":"). Qed.

Lemma text_tags : exists pre,
  after text (quoted_key (str "tags") ++ str "[") = Some (len pre) /\
  text = pre ++ t ++ str "]," ++ cut (drop 8 segments).
Proof using All. found 6%nat "tags" (str ":["). Qed.

Lemma text_name : exists pre,
  after text (quoted_key (str "name")) = Some (len pre) /\ text = pre ++ cut (drop 10 segments).
Proof using All. found 8%nat "name" (str ":"). Qed.

Lemma text_email : exists pre,
  after text (quoted_key (str "email")) = Some (len pre) /\ text = pre ++ cut (drop 14 segments).
Proof using All. found 12%nat "email" (str ":"). Qed.

End Text.

(** The flag is found exactly when it is [true]. *)
Lemma text_active i s t n e (b : bool) :
  Forall unquoted [i; s; t; n; e] ->
  match search (quoted_key (str "active") ++ str "true") (text i s (if b then str "true" else str "false") t n e) with
  | Some _ => true
  | None => false
  end = b.
Proof.
  intros Hu. change (quoted_key (str "active") ++ str "true") with (x22 :: str "active" ++ x22 :: str ":true").
  unfold text. rewrite search_unquoted by (by repeat constructor).
  rewrite !Forall_cons in Hu.
  rewrite search_cut_spec.
  2: by repeat constructor.
  2: { apply segments_unquoted; try tauto. destruct b; by repeat constructor. }
  destruct b.
  - rewrite <- (take_drop 4 (segments _ _ _ _ _ _)), search_cut_misses by miss. done.
  - rewrite <- (app_nil_r (segments _ _ _ _ _ _)), search_cut_misses by miss. done.
Qed.

Lemma digits_unquoted ds : all_digits ds -> unquoted ds.
Proof. intros H. apply (Forall_impl _ _ _ H). by intros c Hc ->. Qed.

Lemma to_string_unquoted v : unquoted (to_string v).
Proof.
  unfold to_string. destruct (Z.ltb_spec v 0).
  - constructor; [done|]. apply digits_unquoted, decimal_all. lia.
  - by apply digits_unquoted, decimal_all.
Qed.

Lemma jsonTags_unquoted ts : forall i, unquoted (jsonTags i ts).
Proof.
  induction ts as [|t ts IH]; intros i; cbn [jsonTags]; [constructor|]. unfold unquoted. rewrite !Forall_app.
  split_and!; [destruct (negb _); by repeat constructor|apply to_string_unquoted|apply IH].
Qed.

Lemma jsonEncode_text u :
  jsonEncode u = text (to_string (u_id u)) (to_string (u_score u)) (if u_active u then str "true" else str "false")
    (jsonTags 0 (u_tags u)) (u_name u) (u_email u).
Proof.
  unfold jsonEncode, text, segments, cut, quoted_key. cbn [fmap list_fmap concat].
  rewrite <- ?app_assoc. cbn. by rewrite <- ?app_assoc.
Qed.

Lemma wire_json_roundtrip u u0 :
  user_wf u -> json_fits u -> jsonDecode (jsonEncode u) u0 = Some (true, u).
Proof.
  intros (Hid & Hsc & Htg) (H63 & Hpos & Hn & He). rewrite jsonEncode_text.
  pose proof (to_string_unquoted (u_id u)) as Qi. pose proof (to_string_unquoted (u_score u)) as Qs.
  pose proof (jsonTags_unquoted (u_tags u) 0) as Qt.
  assert (unquoted (if u_active u then str "true" else str "false")) as Qa by (destruct (u_active u); by repeat constructor).
  unfold jsonDecode. set (inp := text _ _ _ _ _ _).
  destruct (text_id _ _ _ _ _ _ Qi Qs Qa Qt Hn He) as (p1 & A1 & E1).
  destruct (text_score _ _ _ _ _ _ Qi Qs Qa Qt Hn He) as (p2 & A2 & E2).
  destruct (text_tags _ _ _ _ _ _ Qi Qs Qa Qt Hn He) as (p3 & A3 & E3).
  destruct (text_name _ _ _ _ _ _ Qi Qs Qa Qt Hn He) as (p4 & A4 & E4).
  destruct (text_email _ _ _ _ _ _ Qi Qs Qa Qt Hn He) as (p5 & A5 & E5).
  pose proof (text_active (to_string (u_id u)) (to_string (u_score u)) (jsonTags 0 (u_tags u)) (u_name u) (u_email u)
    (u_active u) ltac:(by repeat constructor)) as A6.
  fold inp in A1, A2, A3, A4, A5, A6, E1, E2, E3, E4, E5.
  rewrite (readInt_put _ _ p1 (u_id u) _ A1 E1) by (done || unfold int64_max; lia). cbn [mbind option_bind].
  rewrite (readInt_put _ _ p2 (u_score u) _ A2 E2) by (done || unfold int64_max, is_i32 in *; lia). cbn [mbind option_bind].
  rewrite A3, A6.
  rewrite (jsonReadTags_put (u_tags u)) with (i := 0) (rest := str "," ++ cut (drop 8 (segments
    (to_string (u_id u)) (to_string (u_score u)) (if u_active u then str "true" else str "false")
    (jsonTags 0 (u_tags u)) (u_name u) (u_email u)))).
  2: { apply Forall_forall. intros t Hin. rewrite Forall_forall in Htg, Hpos.
       specialize (Htg t Hin). specialize (Hpos t Hin). unfold is_i32 in Htg. lia. }
  2: by rewrite E3. 2: done. 2: { rewrite E3, !length_app. lia. }
  cbn [mbind option_bind].
  rewrite (readString_put _ _ p4 (u_name u) _ A4 E4) by done. cbn [mbind option_bind].
  rewrite (readString_put _ _ p5 (u_email u) _ A5 E5) by done. cbn [mbind option_bind].
  rewrite i32_small, u64_small by (done || lia). by destruct u.
Qed.

(** ** Where the decoder is safe *)

(** The digits at a cursor, and whether they are those of an [int64_t]. *)
Definition digit_run (inp : bytes) (p : Z) : bytes := (scan_digits (drop (Z.to_nat p) inp)).1.
Definition number_fits (inp : bytes) (p : Z) : bool := digits_val (digit_run inp p) <=? int64_max.

(** The numbers the decoder reads: after the two keys, and between the bracket of
    the tags and the next one. *)
Definition int_fits (inp key : bytes) : bool :=
  match after inp key with
  | Some at0 => number_fits inp (if bool_decide (at_ inp at0 = Some "-"%byte) then at0 + 1 else at0)
  | None => true
  end.

Fixpoint tags_fit (fuel : nat) (inp : bytes) (p : Z) : bool :=
  match fuel, at_ inp p with
  | S fuel, Some c =>
      if bool_decide (c = "]"%byte) then true
      else if isDigit c then number_fits inp p && tags_fit fuel inp (p + len (digit_run inp p))
      else tags_fit fuel inp (p + 1)
  | _, _ => true
  end.

Definition json_numbers_fit (inp : bytes) : bool :=
  int_fits inp (quoted_key (str "id")) && int_fits inp (quoted_key (str "score")) &&
  match after inp (quoted_key (str "tags") ++ str "[") with
  | Some p => tags_fit (S (length inp)) inp p
  | None => true
  end.

Lemma digit_run_at inp p c :
  at_ inp p = Some c -> digit_run inp p = if isDigit c then c :: digit_run inp (p + 1) else [].
Proof.
  unfold at_, digit_run. zbool; [|done]. intros Hc. rewrite (drop_S _ _ _ Hc). cbn [scan_digits].
  replace (Z.to_nat (p + 1)) with (S (Z.to_nat p)) by lia. destruct (isDigit c); [|done]. by destruct (scan_digits _).
Qed.

Lemma digits_fold_ge ds : all_digits ds -> forall a, 0 <= a -> a <= fold_left (fun a d => a * 10 + (b2z d - 48)) ds a.
Proof.
  induction 1 as [|d ds Hd _ IH]; intros a Ha; cbn [fold_left]; [lia|]. apply isDigit_spec in Hd.
  specialize (IH (a * 10 + (b2z d - 48))). lia.
Qed.

Lemma digit_run_digits inp p : all_digits (digit_run inp p).
Proof. unfold digit_run. destruct (scan_digits _) as [ds rest] eqn:E. by apply scan_digits_split in E as (_ & ? & _). Qed.

(** A run of digits whose value fits is read to its end. *)
Lemma readDigits_fits inp fuel : forall p v,
  0 <= p -> 0 <= v -> len inp - p < Z.of_nat fuel -> (0 < fuel)%nat ->
  fold_left (fun a d => a * 10 + (b2z d - 48)) (digit_run inp p) v <= int64_max ->
  readDigits fuel inp p v =
    Some (fold_left (fun a d => a * 10 + (b2z d - 48)) (digit_run inp p) v, p + len (digit_run inp p)).
Proof.
  induction fuel as [|fuel IH]; intros p v Hp Hv Hf H0 Hfit; [lia|]. cbn [readDigits].
  destruct (Z.ltb_spec p (len inp)) as [Hlt|Hge]; cbn [negb].
  2: { unfold digit_run. rewrite drop_ge by (unfold len in Hge; lia). cbn. by rewrite Z.add_0_r. }
  destruct (at_is_Some inp p) as [c Ec]; [lia|]. rewrite Ec. cbn [mbind option_bind].
  rewrite (digit_run_at inp p c Ec) in *. destruct (isDigit c) eqn:Hc; cbn [negb]; [|cbn; by rewrite Z.add_0_r].
  cbn [fold_left] in *. apply isDigit_spec in Hc.
  pose proof (digits_fold_ge _ (digit_run_digits inp (p + 1)) (v * 10 + (b2z c - 48)) ltac:(lia)).
  rewrite (proj2 (Z.ltb_ge _ _)) by lia. rewrite IH by (done || lia). rewrite len_cons. do 2 f_equal. lia.
Qed.

Lemma readDigits_from inp p :
  0 <= p -> number_fits inp p = true ->
  exists v, readDigits (S (length inp)) inp p 0 = Some (v, p + len (digit_run inp p)).
Proof.
  intros Hp Hn%Z.leb_le. eexists. apply readDigits_fits; [done|lia|unfold len; lia|lia|exact Hn].
Qed.

Lemma after_nonneg inp key p : after inp key = Some p -> 0 <= p.
Proof. unfold after. destruct (search key inp); [|done]. intros [= <-]. pose proof (len_nonneg key). lia. Qed.

Lemma readInt_safe inp key : int_fits inp key = true -> is_Some (readInt inp key).
Proof.
  unfold int_fits, readInt. destruct (after inp key) as [p|] eqn:Ea; [|by eexists]. apply after_nonneg in Ea. intros Hf.
  destruct (Z.leb_spec (len inp) p); [by eexists|]. destruct (at_is_Some inp p) as [c Ec]; [lia|]. rewrite Ec in *.
  cbn [mbind option_bind]. rewrite (bool_decide_ext (Some c = Some "-"%byte) (c = "-"%byte)) in Hf by naive_solver.
  apply readDigits_from in Hf as [v ->]; [by eexists|case_bool_decide; lia].
Qed.

Lemma readString_safe inp key : is_Some (readString inp key).
Proof.
  unfold readString. destruct (after inp key) as [p|] eqn:Ea; [|by eexists]. apply after_nonneg in Ea.
  destruct (Z.leb_spec (len inp) p); [by eexists|]. destruct (at_is_Some inp p) as [c ->]; [lia|].
  cbn [mbind option_bind]. destruct (negb _); [by eexists|].
  destruct (search _ _) as [n|] eqn:En; [|by eexists]. apply search_Some in En as [En _].
  apply starts_with_spec in En as [t Et]. rewrite drop_drop in Et.
  assert (len (drop (Z.to_nat (p + 1) + n) inp) = len ([x22] ++ t)) as El by by rewrite Et.
  rewrite len_drop, len_app in El. pose proof (len_nonneg t). change (len [x22]) with 1 in El.
  rewrite slice_Some by lia. by eexists.
Qed.

Lemma jsonReadTags_safe inp fuel : forall p u,
  tags_fit fuel inp p = true -> 0 <= p -> len inp - p < Z.of_nat fuel -> (0 < fuel)%nat ->
  exists u', jsonReadTags fuel inp p u = Some u' /\ (user_wf u -> user_wf u').
Proof.
  induction fuel as [|fuel IH]; intros p u Hsh Hp Hf H0; [lia|]. cbn [jsonReadTags tags_fit] in *.
  destruct (Z.ltb_spec p (len inp)); cbn [negb]; [|eauto].
  destruct (at_is_Some inp p) as [c Ec]; [lia|]. rewrite Ec in *. cbn [mbind option_bind].
  case_bool_decide; [eauto|]. destruct (isDigit c) eqn:Hc; [|apply IH; lia || done].
  apply andb_prop in Hsh as [Hn Hsh]. destruct (readDigits_from inp p Hp Hn) as [v ->]. cbn [mbind option_bind].
  assert (1 <= len (digit_run inp p)).
  { rewrite (digit_run_at inp p c Ec), Hc, len_cons. pose proof (len_nonneg (digit_run inp (p + 1))). lia. }
  destruct (IH _ (push_tag (i32 v) u) Hsh) as (u' & -> & Hw); [lia..|]. exists u'. auto with wire.
Qed.

(** When the numbers it reads fit, [jsonDecode] returns, reads inside the input and
    leaves a well-formed record. *)
Lemma jsonDecode_safe inp u :
  json_numbers_fit inp = true -> exists ok u', jsonDecode inp u = Some (ok, u') /\ (user_wf u -> user_wf u').
Proof.
  intros Hsh. unfold json_numbers_fit in Hsh. rewrite !andb_true_iff in Hsh. destruct Hsh as [[Hid Hsc] Htags]. unfold jsonDecode.
  destruct (readInt_safe inp (quoted_key (str "id")) Hid) as [[id|] ->]; cbn [mbind option_bind]; [|by returned].
  destruct (readInt_safe inp (quoted_key (str "score")) Hsc) as [[sc|] ->]; cbn [mbind option_bind]; [|by returned].
  set (u1 := set_tags [] _).
  assert (user_wf u -> user_wf u1) as Hu1.
  { intros Hu. apply clear_tags_wf, set_active_wf, set_score_wf; [apply i32_range|].
    apply set_id_wf; [apply Z.mod_pos_bound; lia|done]. }
  destruct (after inp _) as [p|] eqn:Ea; [|by returned]. apply after_nonneg in Ea.
  destruct (jsonReadTags_safe inp (S (length inp)) p u1) as (u2 & -> & Hu2); [done..|unfold len; lia|lia|].
  cbn [mbind option_bind].
  destruct (readString_safe inp (quoted_key (str "name"))) as [[nm|] ->]; cbn [mbind option_bind]; [|by returned].
  destruct (readString_safe inp (quoted_key (str "email"))) as [[em|] ->]; cbn [mbind option_bind]; by returned.
Qed.
