(* ===== verification/WireBench.v ===== *)
(** * WireBench: the five wire formats together, and the bench's [main]

    The theorems about the codecs of [bench/serialization_bench.cpp], and the
    program that runs them: argument parsing, the round-trip check of each
    format, the loops whose sums feed the volatile sink, and the exit code.
    The measured times are not modelled. *)
From S2P Require Import Prelude HttpRequest Charconv Wire WireMsgpack WireProtobuf WireJson.

(** ** Arguments *)

(** [std::atoi]: 0 when there is no number; [None] is the undefined behaviour
    of a value outside [int]. *)
Definition atoi (s : bytes) : option Z :=
  let s := drop_while isspace s in
  let '(negative, s) :=
    match s with
    | c :: s' => if bool_decide (c = "-"%byte) then (true, s')
                 else if bool_decide (c = "+"%byte) then (false, s') else (false, s)
    | [] => (false, s)
    end in
  let v := digits_val (scan_digits s).1 in
  let v := if negative : bool then - v else v in
  if (- 2 ^ 31 <=? v) && (v <? 2 ^ 31) then Some v else None.

(** The loop over [argv]: [Some None] is the usage error. *)
Fixpoint parseArgs (argv : list bytes) (iterations repeat : Z) : option (option (Z * Z)) :=
  match argv with
  | [] => Some (Some (iterations, repeat))
  | arg :: rest =>
      match rest with
      | v :: rest' =>
          if bool_decide (arg = str "--iterations") then n ← atoi v; parseArgs rest' n repeat
          else if bool_decide (arg = str "--repeat") then n ← atoi v; parseArgs rest' iterations n
          else Some None
      | [] => Some None
      end
  end.

(** ** One format *)

(** What [main] does with a format: encode, decode into a default record and
    compare, decode and sum.  [None] is undefined behaviour; the inner [None]
    of [c_sum] is a decode that returned [false]. *)
Record Codec := mkCodec {
  c_name : bytes;
  c_encode : User -> option bytes;
  c_same : bytes -> User -> option bool;
  c_sum : bytes -> option (option Z)
}.

Definition same_after (r : option (bool * User)) (u : User) : option bool :=
  '(ok, d) ← r; Some (ok && sameUser d u).
Definition sum_after (r : option (bool * User)) : option (option Z) :=
  '(ok, d) ← r; Some (if ok : bool then Some (rawChecksum d) else None).

Definition pbResult (inp : bytes) (u : User) : option (bool * User) :=
  match pbDecode (S (length inp)) inp u with PbReturns ok u => Some (ok, u) | _ => None end.

Definition raw_codec : Codec := mkCodec (str "raw binary") (fun u => Some (rawEncode u))
  (fun e => same_after (rawDecode e defaultUser)) (fun e => sum_after (rawDecode e defaultUser)).
Definition json_codec : Codec := mkCodec (str "json") (fun u => Some (jsonEncode u))
  (fun e => same_after (jsonDecode e defaultUser)) (fun e => sum_after (jsonDecode e defaultUser)).
Definition mp_codec : Codec := mkCodec (str "msgpack") (fun u => Some (mpEncode u))
  (fun e => same_after (mpDecode e defaultUser)) (fun e => sum_after (mpDecode e defaultUser)).
Definition pb_codec : Codec := mkCodec (str "protobuf wire") (fun u => Some (pbEncode u))
  (fun e => same_after (pbResult e defaultUser)) (fun e => sum_after (pbResult e defaultUser)).
Definition flat_codec : Codec := mkCodec (str "flatbuffers-style") flatEncode
  (fun e u => '(ok, v) ← flatDecode e emptyView;
              if ok : bool then sameUserView e v u else Some false)
  (fun e => '(ok, v) ← flatDecode e emptyView;
            if ok : bool then s ← flatChecksum e v; Some (Some s) else Some None).

(** [for (int r = 0; r < repeat; ++r)]: the sink afterwards. *)
Fixpoint encodeRuns (repeat : nat) (iterations : Z) (size sink : Z) : Z :=
  match repeat with
  | O => sink
  | S repeat => encodeRuns repeat iterations size (Nat.iter (Z.to_nat iterations) (fun s => u64 (s + size)) 0)
  end.

(** [timeEncode]: the size of the encoding and the sink. *)
Definition timeEncode (iterations repeat : Z) (u : User) (c : Codec) (sink : Z) : option (Z * Z) :=
  buffer ← c_encode c u;
  Some (len buffer, encodeRuns (Z.to_nat repeat) iterations (len buffer) sink).

Fixpoint decodeLoop (n : nat) (c : Codec) (encoded : bytes) (sum : Z) : option (option Z) :=
  match n with
  | O => Some (Some sum)
  | S n =>
      r ← c_sum c encoded;
      match r with None => Some None | Some s => decodeLoop n c encoded (u64 (sum + s)) end
  end.

(** [timeDecode]: it gives up at the first failing decode. *)
Fixpoint timeDecode (repeat : nat) (iterations : Z) (c : Codec) (encoded : bytes) (sink : Z) : option Z :=
  match repeat with
  | O => Some sink
  | S repeat =>
      r ← decodeLoop (Z.to_nat iterations) c encoded 0;
      match r with None => Some sink | Some sum => timeDecode repeat iterations c encoded sum end
  end.

(** ** The program *)

(** The exit code with the printed rows (format and size) and the sink. *)
Inductive exit_state := Exit (code : Z) (rows : list (bytes * Z)) (sink : Z).

Fixpoint runCodecs (cs : list Codec) (iterations repeat : Z) (user : User)
    (rows : list (bytes * Z)) (sink : Z) : option exit_state :=
  match cs with
  | [] => Some (Exit 0 rows sink)
  | c :: cs =>
      encoded ← c_encode c user;
      same ← c_same c encoded user;
      if negb same then Some (Exit 1 [] sink) else
      '(n, sink) ← timeEncode iterations repeat user c sink;
      sink ← timeDecode (Z.to_nat repeat) iterations c encoded sink;
      runCodecs cs iterations repeat user (rows ++ [(c_name c, n)]) sink
  end.

Definition main (argv : list bytes) : option exit_state :=
  r ← parseArgs argv 200000 5;
  match r with
  | None => Some (Exit 2 [] 0)
  | Some (iterations, repeat) =>
      if (iterations <=? 0) || (repeat <=? 0) then Some (Exit 2 [] 0) else
      runCodecs [raw_codec; json_codec; mp_codec; pb_codec; flat_codec] iterations repeat defaultUser [] 0
  end.

(** ** Theorems *)

Lemma default_wf : user_wf defaultUser.
Proof. split; [done|]. split; [done|]. by repeat constructor. Qed.

Lemma default_unquoted : unquoted (u_name defaultUser) /\ unquoted (u_email defaultUser).
Proof. split; by repeat constructor. Qed.

(** C18: Each of the five formats gives back the record it encoded, into
    whatever record the decoder starts from, for the records within the limits of
    its encoder and decoder: fewer than 256 tags (raw); no quotes in the strings, no
    negative tags and an identifier below 2^63 (JSON); a one-byte score, four small
    tags and short strings (MessagePack); any record whose encoding fits in memory
    (protobuf); at most four tags (flat). *)
Theorem wire_roundtrip u u0 v0 :
  user_wf u ->
  (raw_fits u -> rawDecode (rawEncode u) u0 = Some (true, u)) /\
  (json_fits u -> jsonDecode (jsonEncode u) u0 = Some (true, u)) /\
  (mp_fits u -> mpDecode (mpEncode u) u0 = Some (true, u)) /\
  (pb_fits u -> pbDecode 7 (pbEncode u) u0 = PbReturns true u) /\
  (flat_fits u -> exists buf, flatEncode u = Some buf /\ flatDecode buf v0 = Some (true, view_of u) /\
     sameUserView buf (view_of u) u = Some true /\ flatChecksum buf (view_of u) = Some (rawChecksum u)).
Proof.
  intros Hu. split_and!; intros Hf.
  - by apply raw_roundtrip.
  - by apply wire_json_roundtrip.
  - by apply mp_roundtrip.
  - by apply pb_roundtrip.
  - exists (flat_layout u). split_and!; [apply flatEncode_layout|by apply flat_roundtrip|by apply flat_same|by apply flat_checksum].
Qed.

Lemma wire_roundtrip_witness :
  mpDecode (mpEncode defaultUser) defaultUser = Some (true, defaultUser) /\
  jsonDecode (jsonEncode defaultUser) defaultUser = Some (true, defaultUser).
Proof.
  destruct (wire_roundtrip defaultUser defaultUser emptyView default_wf) as (_ & Hj & Hm & _).
  split; [apply Hm|apply Hj].
  - split; [done|]. split; [done|]. split; [by repeat constructor|]. done.
  - split; [done|]. split; [by repeat constructor|]. apply default_unquoted.
Defined.

(** C23: No decoder reads outside its input, on any input whatever: raw,
    MessagePack (whose recursion over nested arrays also ends) and flat, with
    every later access through an accepted flat view; JSON on inputs in which the
    numbers it reads (after the keys of the identifier and the score, and among the
    tags) fit [int64_t], and protobuf on inputs in which no length-delimited field it
    comes to declares a length that carries the cursor to 2^64 or beyond.  All of
    them return. *)
Theorem wire_decode_in_bounds inp u v :
  (exists r, rawDecode inp u = Some r) /\
  (exists r, mpDecode inp u = Some r) /\
  (exists ok v', flatDecode inp v = Some (ok, v') /\
     (ok = true -> is_Some (flatChecksum inp v') /\ forall w, is_Some (sameUserView inp v' w))) /\
  (json_numbers_fit inp = true -> exists r, jsonDecode inp u = Some r) /\
  (pb_lengths_fit (S (length inp)) inp 0 = true -> len inp < 2 ^ 63 -> user_wf u ->
     exists ok u', pbDecode (S (length inp)) inp u = PbReturns ok u').
Proof.
  split_and!.
  - destruct (rawDecode_safe inp u) as (ok & u' & -> & _). eauto.
  - destruct (mpDecode_safe inp u) as (ok & u' & -> & _). eauto.
  - destruct (flatDecode_safe inp v) as (ok & v' & -> & Hv). exists ok, v'. split; [done|].
    intros Hok. by apply view_access_safe, Hv.
  - intros Hs. destruct (jsonDecode_safe inp u Hs) as (ok & u' & -> & _). eauto.
  - intros Hs Hl Hu. destruct (pbDecode_loop_safe inp (S (length inp)) 0 u) as (ok & u' & E & _);
      [done|done|lia|unfold len; lia|lia|done|]. eauto.
Qed.

(** A record with the largest identifier and a name in multi-byte characters. *)
Definition wide_user : User :=
  set_id (2 ^ 64 - 1) (set_name [xe5; xbc; xa0; xe4; xb8; x89; xe4; xb8; x89; xe4; xb8; x89] defaultUser).

Lemma wire_decode_in_bounds_witness :
  (exists ok u', pbDecode (S (length (pbEncode wide_user))) (pbEncode wide_user) defaultUser = PbReturns ok u') /\
  exists r, jsonDecode (jsonEncode defaultUser) defaultUser = Some r.
Proof.
  split.
  - apply (wire_decode_in_bounds (pbEncode wide_user) defaultUser emptyView); [reflexivity|reflexivity|exact default_wf].
  - apply (wire_decode_in_bounds (jsonEncode defaultUser) defaultUser emptyView). reflexivity.
Defined.

(** Whatever bytes they are given, the decoders store only values of the
    members' C++ types: a well-formed record stays well formed, also when the
    decode fails half way. *)
Theorem wire_decode_typed inp u :
  user_wf u ->
  (forall ok u', rawDecode inp u = Some (ok, u') -> user_wf u') /\
  (forall ok u', mpDecode inp u = Some (ok, u') -> user_wf u') /\
  (forall ok u', json_numbers_fit inp = true -> jsonDecode inp u = Some (ok, u') -> user_wf u') /\
  (forall ok u', pb_lengths_fit (S (length inp)) inp 0 = true -> len inp < 2 ^ 63 -> pbDecode (S (length inp)) inp u = PbReturns ok u' -> user_wf u').
Proof.
  intros Hu. split_and!; intros ok u'.
  - destruct (rawDecode_safe inp u) as (? & ? & -> & H). intros [= <- <-]. auto.
  - destruct (mpDecode_safe inp u) as (? & ? & -> & H). intros [= <- <-]. auto.
  - intros Hs. destruct (jsonDecode_safe inp u Hs) as (? & ? & -> & H). intros [= <- <-]. auto.
  - intros Hs Hl. unfold pbDecode. destruct (pbDecode_loop_safe inp (S (length inp)) 0 u) as (? & ? & -> & H);
      [done|done|lia|unfold len; lia|lia|done|]. intros [= <- <-]. done.
Qed.

Lemma wire_decode_typed_witness :
  forall ok u', rawDecode (rawEncode defaultUser) defaultUser = Some (ok, u') -> user_wf u'.
Proof. intros ok u'. apply (wire_decode_typed (rawEncode defaultUser) defaultUser default_wf). Defined.

(** The bounds check of [pbDecode] is computed modulo 2^64.  A length near
    2^64 passes it: packed tags are then read past the end of the input, and a
    skipped field moves the cursor back to the start, so that the decoder never
    returns. *)
Theorem pb_length_wraps fuel u :
  len pb_past_end = 11 /\ pbDecode (S fuel) pb_past_end u = PbOutside /\
  len pb_spin = 11 /\ pbDecode fuel pb_spin u = PbRunning.
Proof. split; [done|]. split; [apply pb_past_end_reads|]. split; [done|apply pb_spin_runs]. Qed.

(** ** The program's behaviour *)

Lemma iter_u64 n s : forall sum, 0 <= sum < 2 ^ 64 ->
  Nat.iter n (fun x => u64 (x + s)) sum = u64 (sum + Z.of_nat n * s).
Proof.
  induction n as [|n IH]; intros sum Hs.
  { cbn [Nat.iter nat_rect]. by rewrite Z.mul_0_l, Z.add_0_r, u64_small. }
  change (Nat.iter (S n) (fun x => u64 (x + s)) sum) with (u64 (Nat.iter n (fun x => u64 (x + s)) sum + s)).
  rewrite IH by done. unfold u64. rewrite Zplus_mod_idemp_l. f_equal. lia.
Qed.

Lemma decodeLoop_sums c e s : c_sum c e = Some (Some s) ->
  forall n sum, 0 <= sum < 2 ^ 64 -> decodeLoop n c e sum = Some (Some (u64 (sum + Z.of_nat n * s))).
Proof.
  intros Hc. induction n as [|n IH]; intros sum Hs; cbn [decodeLoop].
  { by rewrite Z.mul_0_l, Z.add_0_r, u64_small. }
  rewrite Hc. cbn [mbind option_bind]. rewrite IH by (apply Z.mod_pos_bound; lia).
  unfold u64. rewrite Zplus_mod_idemp_l. do 3 f_equal. lia.
Qed.

Lemma timeDecode_sums c e s iterations : c_sum c e = Some (Some s) -> 0 <= iterations ->
  forall n sink, timeDecode (S n) iterations c e sink = Some (u64 (iterations * s)).
Proof.
  intros Hc Hi. induction n as [|n IH]; intros sink;
    [|change (timeDecode (S (S n)) iterations c e sink) with
        (r ← decodeLoop (Z.to_nat iterations) c e 0;
         match r with None => Some sink | Some sum => timeDecode (S n) iterations c e sum end)];
    [cbn [timeDecode]|]; rewrite (decodeLoop_sums c e s Hc) by lia; cbn [mbind option_bind];
    rewrite Z.add_0_l, Z2Nat.id by done; [done|apply IH].
Qed.

(** A format that round-trips the record adds its row. *)
Lemma runCodecs_step c cs iterations repeat user rows sink e s :
  c_encode c user = Some e -> c_same c e user = Some true -> c_sum c e = Some (Some s) ->
  0 < iterations -> 0 < repeat ->
  runCodecs (c :: cs) iterations repeat user rows sink =
  runCodecs cs iterations repeat user (rows ++ [(c_name c, len e)]) (u64 (iterations * s)).
Proof.
  intros He Hs Hc Hi Hr. cbn [runCodecs]. unfold timeEncode. rewrite He. cbn [mbind option_bind]. rewrite Hs.
  cbn [mbind option_bind negb]. destruct (Z.to_nat repeat) as [|n] eqn:En; [lia|].
  rewrite (timeDecode_sums c e s) by (done || lia). done.
Qed.

(** What the bench does on any command line: it stops with code 2 on a bad
    one, and otherwise all five formats pass their round-trip check (code 1 is
    never returned), the table lists the five encoded sizes, and the sink ends
    as the number of iterations times the checksum of the record, modulo
    2^64. *)
Theorem bench_main argv :
  main argv =
  match parseArgs argv 200000 5 with
  | None => None
  | Some None => Some (Exit 2 [] 0)
  | Some (Some (iterations, repeat)) =>
      Some (if (iterations <=? 0) || (repeat <=? 0) then Exit 2 [] 0
            else Exit 0 [(str "raw binary", 60); (str "json", 94); (str "msgpack", 65);
                         (str "protobuf wire", 38); (str "flatbuffers-style", 62)]
                      (u64 (iterations * 162)))
  end.
Proof.
  unfold main. destruct (parseArgs argv 200000 5) as [[[iterations repeat]|]|]; [|done..].
  cbn [mbind option_bind]. destruct (Z.leb_spec iterations 0), (Z.leb_spec repeat 0); try done. cbn [orb].
  erewrite (runCodecs_step raw_codec) by (done || (vm_compute; reflexivity)).
  erewrite (runCodecs_step json_codec) by (done || (vm_compute; reflexivity)).
  erewrite (runCodecs_step mp_codec) by (done || (vm_compute; reflexivity)).
  erewrite (runCodecs_step pb_codec) by (done || (vm_compute; reflexivity)).
  erewrite (runCodecs_step flat_codec) by (done || (vm_compute; reflexivity)).
  reflexivity.
Qed.
