(* ===== verification/LoopTimers.v ===== *)
(** * LoopTimers: the timer interface of the event loop

    [EventLoop::runAt], [runAfter], [runEvery] and [cancelTimer]
    ([src/EventLoop.cpp]) with [TimerQueue::addTimer] and [cancel]
    ([src/TimerQueue.cpp]), from the loop's thread and from others, and the times
    at which a timer made through them runs. *)
From S2P Require Import Prelude Heap TimerQueue.

(** A [double] number of seconds: whether it is greater than zero, and its
    conversion to microseconds in [Timestamp::operator+=]. *)
Record Seconds := mkSeconds { positive : bool; micros : Z }.

(** [addTimer] with a deadline; [p] is the address [new Timer] returns. *)
Definition addTimer (inLoop : bool) (p when : Z) (interval : Seconds) (q : TimerQueue) : option (TimerId * TimerQueue) :=
  let '(id, q) := new_timer p when (positive interval) (micros interval) q in
  q ← (if inLoop then insert_timer p q else Some (set_posted (posted_ q ++ [QInsert p]) q));
  Some (id, q).

(** [addTimer] with a delay from [now]. *)
Definition addTimer_delay (inLoop : bool) (p now : Z) (delay interval : Seconds) (q : TimerQueue)
  : option (TimerId * TimerQueue) :=
  when ← timestamp_add now (micros delay); addTimer inLoop p when interval q.

Definition cancel (inLoop : bool) (id : TimerId) (q : TimerQueue) : option TimerQueue :=
  if inLoop then cancelInLoop id true q else Some (set_posted (posted_ q ++ [QCancel id true]) q).

Definition no_interval : Seconds := mkSeconds false 0.

Definition runAt (inLoop : bool) (p when : Z) (q : TimerQueue) : option (TimerId * TimerQueue) :=
  addTimer inLoop p when no_interval q.

Definition runAfter (inLoop : bool) (p now : Z) (delaySeconds : Seconds) (q : TimerQueue) : option (TimerId * TimerQueue) :=
  addTimer_delay inLoop p now delaySeconds no_interval q.

Definition runEvery (inLoop : bool) (p now : Z) (intervalSeconds : Seconds) (q : TimerQueue) : option (TimerId * TimerQueue) :=
  addTimer_delay inLoop p now intervalSeconds intervalSeconds q.

Definition cancelTimer (inLoop : bool) (id : TimerId) (q : TimerQueue) : option TimerQueue := cancel inLoop id q.

(** A call of one of the three, with the time it reads from the clock. *)
Inductive timer_call :=
| RunAt (when : Z)
| RunAfter (now : Z) (delaySeconds : Seconds)
| RunEvery (now : Z) (intervalSeconds : Seconds).

Definition start_timer (c : timer_call) (inLoop : bool) (p : Z) (q : TimerQueue) : option (TimerId * TimerQueue) :=
  match c with
  | RunAt when => runAt inLoop p when q
  | RunAfter now d => runAfter inLoop p now d q
  | RunEvery now i => runEvery inLoop p now i q
  end.

(** ** What the interface promises *)

Definition first_due (c : timer_call) : Z :=
  match c with RunAt when => when | RunAfter now s | RunEvery now s => now + micros s end.

Definition period (c : timer_call) : option Z :=
  match c with RunEvery _ s => if positive s then Some (micros s) else None | _ => None end.

(** The deadline is positive and fits, and a repetition is not in the past. *)
Definition call_ok (c : timer_call) : bool :=
  (0 <? first_due c) && (first_due c <? 2 ^ 63) &&
  match c with RunEvery _ s => (0 <=? micros s) && (micros s <? 2 ^ 62) | _ => true end.

(** The times among [nows], the successive expirations of the timerfd, at which
    a timer due at [when] runs. *)
Fixpoint fires (when : Z) (period : option Z) (nows : list Z) : list Z :=
  match nows with
  | [] => []
  | now :: nows =>
      if when <=? now then
        now :: match period with Some d => fires (now + d) period nows | None => [] end
      else fires when period nows
  end.

(** Never early, and repetitions at least one period apart. *)
Lemma fires_late nows : forall when period x, x ∈ fires when period nows -> x ∈ nows /\ (0 <= default 0 period -> when <= x).
Proof.
  induction nows as [|now nows IH]; intros when period x Hx; cbn [fires] in Hx; [set_solver|].
  destruct (Z.leb_spec when now); [|destruct (IH _ _ _ Hx); set_solver].
  apply elem_of_cons in Hx as [->|Hx]; [split; [set_solver|done]|].
  destruct period as [d|]; [|set_solver]. destruct (IH _ _ _ Hx) as [? Hd]. split; [set_solver|].
  cbn in *. intros Hpos. specialize (Hd Hpos). lia.
Qed.

Definition nows (es : list tq_event) : list Z :=
  omap (fun e => match e with EvExpire now _ => Some now | _ => None end) es.

(** The runs of timer [s] along [es], each with the time of its expiration. *)
Fixpoint firing_times (s : Z) (es : list tq_event) (q : TimerQueue) : list Z :=
  match es with
  | [] => []
  | e :: es =>
      match tq_step e q with
      | Some q' =>
          match e with
          | EvExpire now _ => const now <$> filter (fun x => x = s) (drop (length (fired_ q)) (fired_ q'))
          | _ => []
          end ++ firing_times s es q'
      | None => []
      end
  end.

(** The event does not cancel the handle. *)
Definition spares (id : TimerId) (e : tq_event) : Prop :=
  match e with
  | EvExpire _ acts => forall s, TCancel id ∉ acts s
  | EvAct a => a <> TCancel id
  | EvRemoteCancel id' => id' <> id
  | _ => True
  end.

(** No cancellation of the handle waits in the loop's queue. *)
Definition quiet (id : TimerId) (q : TimerQueue) : Prop := forall r, QCancel id r ∉ posted_ q.

(** From [q] to [q'] nothing happened to the timer [t] at [p]. *)
Definition spared (p : Z) (t : Timer) (q q' : TimerQueue) : Prop :=
  mem_ q !! p = Some t ->
  mem_ q' !! p = Some t /\ (p ∈ timers_ q -> p ∈ timers_ q') /\
  exists l, posted_ q' = posted_ q ++ l /\ forall r, QCancel (p, sequence_ t) r ∉ l.

#[global] Instance spared_preorder p t : PreOrder (spared p t).
Proof.
  split.
  - intros q Hp. split_and!; [done..|]. exists []. rewrite app_nil_r. split; [done|set_solver].
  - intros q1 q2 q3 H1 H2 Hp. destruct (H1 Hp) as (Hp2 & Ht2 & l1 & E1 & Hl1).
    destruct (H2 Hp2) as (Hp3 & Ht3 & l2 & E2 & Hl2). split_and!; [done|auto|].
    exists (l1 ++ l2). rewrite E2, E1, app_assoc. split; [done|]. intros r Hr. apply elem_of_app in Hr as [?|?]; firstorder.
Qed.

Lemma spared_same p t q q' :
  (mem_ q !! p = Some t -> mem_ q' !! p = Some t) -> timers_ q ⊆ timers_ q' -> posted_ q' = posted_ q -> spared p t q q'.
Proof. intros Hm Ht Hp H. split_and!; auto. exists []. rewrite app_nil_r. split; [done|set_solver]. Qed.

Lemma cancel_spared batch id retry q q' p t :
  tq_inv batch [] q -> cancelInLoop id retry q = Some q' -> id <> (p, sequence_ t) -> spared p t q q'.
Proof.
  intros I E Hne Hp. destruct (cancelInLoop_ok batch id retry q I) as (q1 & E1 & _ & Hce & _).
  rewrite E in E1. injection E1 as <-. destruct Hce as [Hact Hm Hpt _ _ Hpo _ _ _|_ _ _ ->|_ _ ->].
  - assert (id.1 <> p) as Hx.
    { intros Hip. rewrite (q_active _ _ _ I), elem_of_ids_of in Hact. destruct Hact as [_ Hs]. apply Hne.
      destruct id as [i s]. cbn in *. subst i. unfold seq_of in Hs. rewrite Hp in Hs. by subst. }
    rewrite Hm, lookup_delete_ne, Hpo by done. split_and!; [done|rewrite Hpt; set_solver|].
    exists []. rewrite app_nil_r. split; [done|set_solver].
  - revert Hp. by apply spared_same.
  - cbn. split_and!; [done..|]. eexists; split; [done|]. intros r Hr. destruct retry; set_solver.
Qed.

Lemma insert_spared batch extra x q q' p t :
  tq_inv batch (x :: extra) q -> insert_timer x q = Some q' -> spared p t q q'.
Proof.
  intros I E. destruct (insert_timer_ok _ _ _ _ I) as (q1 & E1 & _ & Hm & Hpt & _ & Hpo & _).
  rewrite E in E1. injection E1 as <-. apply spared_same; [by rewrite Hm| |done]. rewrite Hpt. set_solver.
Qed.

Lemma new_timer_spared x when rep delta q p t : mem_ q !! x = None -> spared p t q (new_timer x when rep delta q).2.
Proof.
  intros Hx. apply spared_same; [|done|done]. intros Hp. cbn. rewrite lookup_insert_ne; [done|]. congruence.
Qed.

Lemma act_spared batch a q q' p t :
  tq_inv batch [] q -> act_ok a q = true -> tq_perform_act a q = Some q' -> a <> TCancel (p, sequence_ t) -> spared p t q q'.
Proof.
  intros I Hok E Hne. destruct a as [x when rep delta|id]; cbn [tq_perform_act] in E.
  - apply act_ok_add in Hok as (Hx & Hw & Hd). etrans; [by apply (new_timer_spared x when rep delta)|].
    by apply (insert_spared batch [] x _ _ p t); [apply new_timer_ok|].
  - apply (cancel_spared batch id true); [done..|congruence].
Qed.

Lemma perform_spared batch acts q q' p t :
  tq_inv batch [] q -> acts_ok acts q = true -> tq_perform acts q = Some q' -> TCancel (p, sequence_ t) ∉ acts -> spared p t q q'.
Proof.
  revert q. induction acts as [|a acts IH]; intros q I Hok E Hn; cbn in *; [by injection E as <-|].
  apply andb_prop in Hok as [Ha Hacts]. apply not_elem_of_cons in Hn as [Hn1 Hn2].
  destruct (perform_act_frame batch a q I Ha) as (q1 & E1 & F). rewrite E1 in E, Hacts. cbn in E.
  transitivity q1; [by apply (act_spared batch a)|]. by apply IH; [apply F| | |].
Qed.

Lemma log_fired_inv batch s q : tq_inv batch [] q -> tq_inv batch [] (log_fired s q).
Proof. intros []. by split. Qed.

Lemma run_expired_spared batch rest acts q q' p t :
  tq_inv batch [] q -> batch_ok rest acts q = true -> run_expired rest acts q = Some q' ->
  (forall s, TCancel (p, sequence_ t) ∉ acts s) -> spared p t q q'.
Proof.
  revert q. induction rest as [|x rest IH]; intros q I Hok E Hn; cbn in *; [by injection E as <-|].
  destruct (mem_ q !! x) as [tx|] eqn:Ex; [|done]. cbn in E. apply andb_prop in Hok as [Ha Hrest].
  assert (seq_of q x = sequence_ tx) as Es by (unfold seq_of; by rewrite Ex). rewrite Es in *.
  apply (log_fired_inv _ (sequence_ tx)) in I.
  destruct (tq_perform_frame batch _ _ I Ha) as (q1 & E1 & F). rewrite E1 in E, Hrest. cbn in E.
  transitivity (log_fired (sequence_ tx) q); [by apply spared_same|].
  transitivity q1; [by apply (perform_spared batch (acts (sequence_ tx)))|]. by apply IH; [apply F| | |].
Qed.

Lemma resetTimerfd_posted when q q' : resetTimerfd when q = Some q' -> posted_ q' = posted_ q.
Proof. unfold resetTimerfd. cbn. destruct (howMuchTimeFromNow _ _); cbn; [|done]. by intros [= <-]. Qed.

Lemma insert_posted p q q' : insert_timer p q = Some q' -> posted_ q' = posted_ q.
Proof.
  unfold insert_timer. intros E. destruct (mem_ q !! p); cbn [mbind option_bind] in E; [|done].
  destruct (match timers_ q with [] => _ | _ => _ end) as [b|]; cbn [mbind option_bind] in E; [|done].
  case_guard; cbn [mbind option_bind] in E; [|done]. destruct b; [by apply resetTimerfd_posted in E|by injection E as <-].
Qed.

Lemma delete_posted p q q' : delete_timer p q = Some q' -> posted_ q' = posted_ q.
Proof. unfold delete_timer. intros E. case_guard; cbn [mbind option_bind] in E; [|done]. by injection E as <-. Qed.

Lemma reset_posted rest now q q' : reset rest now q = Some q' -> posted_ q' = posted_ q.
Proof.
  unfold reset. destruct (reset_expired rest now q) as [q1|] eqn:E1; cbn; [|done]. intros E.
  transitivity (posted_ q1).
  { destruct (timers_ q1) as [|f ?]; [by injection E as <-|]. destruct (mem_ q1 !! f) as [tf|]; cbn [mbind option_bind] in E; [|done].
    destruct (0 <? expiration_ tf); [by apply resetTimerfd_posted in E|by injection E as <-]. }
  clear E. revert q E1. induction rest as [|x rest IH]; intros q E; cbn [reset_expired] in E; [by injection E as <-|].
  destruct (mem_ q !! x) as [t|]; cbn [mbind option_bind] in E; [|done].
  destruct (if bool_decide _ then _ else _) as [q2|] eqn:E2 in E; cbn [mbind option_bind] in E; [|done].
  rewrite (IH _ E). clear E. destruct (bool_decide _); [by apply delete_posted in E2|].
  destruct (repeat_ t); [|by apply delete_posted in E2].
  destruct (restart t now); cbn [mbind option_bind] in E2; [by apply insert_posted in E2|done].
Qed.

(** An expiration leaves a timer alone that is not due or not yet in the heap, and
    posts no cancellation of one that no callback cancels. *)
Lemma handleRead_spared now acts q q' p t :
  tq_idle q -> event_ok (EvExpire now acts) q = true -> tq_handleRead now acts q = Some q' ->
  (forall s, TCancel (p, sequence_ t) ∉ acts s) -> mem_ q !! p = Some t ->
  (p ∉ timers_ q \/ now < expiration_ t -> mem_ q' !! p = Some t /\ (p ∈ timers_ q -> p ∈ timers_ q')) /\
  exists l, posted_ q' = posted_ q ++ l /\ forall r, QCancel (p, sequence_ t) r ∉ l.
Proof.
  intros [I Hc _] Hok E Hn Hp. cbn [event_ok] in Hok. apply andb_prop in Hok as [H0%Z.eqb_eq Hb].
  assert (0 < now < 2 ^ 62) as Hnow by (pose proof (q_clock _ _ _ I (reads_ q)); lia).
  unfold tq_handleRead in E. set (q0 := set_armed None _) in *. assert (tq_inv [] [] q0) as I0 by (destruct I; split; auto).
  destruct (getExpired_loop_ok (length (timers_ q0)) now q0 [] I0) as (due & q1 & E1 & I1 & Hq1 & Hpt & _ & Hd & _); [done|].
  unfold getExpired in *. cbn [app] in *. rewrite E1 in E, Hb. cbn [mbind option_bind] in E.
  rewrite batch_ids_ok in E by (intros x Hx; apply (owned_live _ _ _ _ I1); set_solver). cbn [mbind option_bind] in E.
  pose proof (start_batch due q1 I1) as I2. set (q2 := set_batch _ _ _ q1) in *.
  destruct (run_expired_ok due due acts q2 I2) as (q3 & E3 & I3 & _ & _ & _ & _); [done|done|done|].
  rewrite E3 in E. cbn [mbind option_bind] in E. set (q4 := set_batch _ _ _ q3) in *.
  assert (tq_inv due [] q4) as I4 by (destruct I3; split; auto; done).
  destruct (reset_ok due now q4 I4) as (q5 & E5 & _ & _ & _ & _ & _ & Hm5 & Ht5 & _); [done|done|].
  pose proof (reset_posted _ _ _ _ E5) as Hp5. rewrite E5 in E. cbn in E. injection E as <-.
  assert (mem_ q2 !! p = Some t) as Hp2 by (cbn; by rewrite Hq1).
  destruct (run_expired_spared due due acts q2 q3 p t I2 Hb E3 Hn Hp2) as (Hp3 & Ht3 & l & El & Hl).
  split.
  - intros Hlt. assert (p ∉ due) as Hnd.
    { intros Hx. destruct Hlt as [Hout|Hlt]; [apply Hout; change (p ∈ timers_ q0); rewrite Hpt; set_solver|].
      specialize (Hd p Hx). unfold expiry in Hd. cbn in Hd. rewrite Hp in Hd. lia. }
    cbn. rewrite Hm5 by done. split; [done|]. intros Hin. apply Ht5. cbn. apply Ht3. cbn.
    assert (p ∈ due ++ timers_ q1) as [?|?]%elem_of_app by (by rewrite <- Hpt); done.
  - exists l. split; [|done]. cbn. rewrite Hp5. cbn. rewrite El. cbn. by rewrite Hq1.
Qed.

(** How often a timer is in a batch. *)
Lemma batch_runs batch extra q p t due :
  tq_inv batch extra q -> mem_ q !! p = Some t -> NoDup due -> (forall x, x ∈ due -> is_Some (mem_ q !! x)) ->
  filter (fun x => x = sequence_ t) (seq_of q <$> due) = if bool_decide (p ∈ due) then [sequence_ t] else [].
Proof.
  intros I Hp. induction due as [|x due IH]; intros Hnd Hl; [done|].
  apply NoDup_cons in Hnd as [Hx Hnd]. cbn [fmap list_fmap]. destruct (Hl x) as [tx Htx]; [set_solver|].
  assert (seq_of q x = sequence_ tx) as -> by (unfold seq_of; by rewrite Htx).
  specialize (IH Hnd ltac:(set_solver)). destruct (decide (x = p)) as [->|Hne].
  - rewrite Hp in Htx. injection Htx as <-. rewrite filter_cons_True, IH by done.
    by rewrite (bool_decide_false _ Hx), bool_decide_true by set_solver.
  - rewrite filter_cons_False, IH by (intros Hs; by apply Hne, (q_inj _ _ _ I x p tx t)).
    apply (f_equal (fun b : bool => if b then _ else _)), bool_decide_ext. set_solver.
Qed.

Definition period_of (t : Timer) : option Z := if repeat_ t then Some (delta_ t) else None.

Lemma firing_times_dead es : forall s q,
  tq_idle q -> dead s q -> events_ok es q = true -> firing_times s es q = [].
Proof.
  induction es as [|e es IH]; intros s q I Hd Hok; [done|]. apply andb_prop in Hok as [He Hes].
  destruct (tq_step_ok e q I He) as (q' & E & I' & G). destruct (tq_step_fired e q q' I He E) as (l & Hl & Hs).
  cbn [firing_times]. rewrite E in Hes |- *. rewrite (IH s q' I' (dead_grow _ _ _ Hd G) Hes), app_nil_r.
  destruct e; try done. rewrite Hl, drop_app_length. specialize (Hs s Hd).
  assert (filter (fun x => x = s) l = []) as ->; [|done].
  clear -Hs. induction l as [|x l IH]; [done|]. rewrite filter_cons_False; [apply IH|]; set_solver.
Qed.

(** One expiration, seen from one timer. *)
Lemma expire_step now acts q q' p t :
  tq_idle q -> event_ok (EvExpire now acts) q = true -> tq_handleRead now acts q = Some q' ->
  (forall s, TCancel (p, sequence_ t) ∉ acts s) -> mem_ q !! p = Some t -> p ∈ timers_ q ->
  filter (fun x => x = sequence_ t) (drop (length (fired_ q)) (fired_ q')) =
    (if expiration_ t <=? now then [sequence_ t] else []) /\
  if expiration_ t <=? now then
    if repeat_ t then mem_ q' !! p = Some (restarted t now) /\ p ∈ timers_ q' else dead (sequence_ t) q'
  else mem_ q' !! p = Some t /\ p ∈ timers_ q'.
Proof.
  intros Hi Hok E Hn Hp Hin. pose proof (i_inv _ Hi) as I.
  destruct (handleRead_spared now acts q q' p t Hi Hok E Hn Hp) as [Hkeep _].
  destruct (tq_handleRead_ok now acts q I Hok) as (due & q1 & E1 & Hi' & G & [Hdue _ Hf Ha]).
  rewrite E in E1. injection E1 as <-. rewrite Hf, drop_app_length.
  assert (p ∈ due <-> expiration_ t <= now) as Hpd.
  { rewrite Hdue, list_elem_of_filter. unfold expiry. rewrite Hp. tauto. }
  pose proof (owned_nodup _ _ _ I) as Hnd. apply NoDup_app in Hnd as (Hnd & _ & _).
  rewrite (batch_runs [] [] q p t due I Hp); cycle 1.
  { rewrite Hdue. by apply NoDup_filter. }
  { intros x. rewrite Hdue, list_elem_of_filter. intros [_ Hx]. apply (owned_live _ _ _ _ I). set_solver. }
  rewrite (bool_decide_ext _ _ Hpd). destruct (Z.leb_spec (expiration_ t) now) as [Hle|Hlt].
  - rewrite bool_decide_true by done. split; [done|]. destruct (Ha p t (proj2 Hpd Hle) Hp) as [Hm Ht].
    assert (batch_cancels acts q due (p, sequence_ t) = false) as Hbc.
    { apply not_true_iff_false. rewrite batch_cancels_spec. intros (x & _ & Hx). by apply Hn in Hx. }
    rewrite Hbc in Hm. unfold after_batch in Hm. destruct (repeat_ t); [by rewrite Hm in *; eauto|].
    destruct (q_seq _ _ _ I p t Hp) as [_ Hs]. split; [destruct G; lia|]. intros x tx Hx Ex.
    destruct (proj2 G x tx Hx) as [(t0 & Ht0 & Es)|?]; [|lia].
    assert (x = p) as -> by (apply (q_inj _ _ _ I x p t0 t); congruence). congruence.
  - rewrite bool_decide_false by lia. destruct Hkeep; auto.
Qed.

(** One that waits for its insertion does not run. *)
Lemma expire_pending now acts q q' p t :
  tq_idle q -> event_ok (EvExpire now acts) q = true -> tq_handleRead now acts q = Some q' ->
  mem_ q !! p = Some t -> p ∉ timers_ q ->
  filter (fun x => x = sequence_ t) (drop (length (fired_ q)) (fired_ q')) = [].
Proof.
  intros Hi Hok E Hp Hout. pose proof (i_inv _ Hi) as I.
  destruct (tq_handleRead_ok now acts q I Hok) as (due & q1 & E1 & _ & _ & [Hdue _ Hf _]).
  rewrite E in E1. injection E1 as <-. rewrite Hf, drop_app_length.
  pose proof (owned_nodup _ _ _ I) as Hnd. apply NoDup_app in Hnd as (Hnd & _ & _).
  rewrite (batch_runs [] [] q p t due I Hp), bool_decide_false; [done|..].
  - rewrite Hdue, list_elem_of_filter. tauto.
  - rewrite Hdue. by apply NoDup_filter.
  - intros x. rewrite Hdue, list_elem_of_filter. intros [_ Hx]. apply (owned_live _ _ _ _ I). set_solver.
Qed.

(** The loop takes a posted functor. *)
Lemma task_spared tk ts q q' p t :
  tq_idle q -> posted_ q = tk :: ts -> tq_step EvTask q = Some q' ->
  (forall r, tk <> QCancel (p, sequence_ t) r) -> spared p t (set_posted ts q) q'.
Proof.
  intros [I _ _] Ep E Hn. cbn [tq_step] in E. rewrite Ep in E. destruct tk as [x|id retry].
  - pose proof (take_task_ok q (QInsert x) ts [x] eq_refl I Ep) as I1. by apply (insert_spared [] [] x).
  - pose proof (take_task_ok q (QCancel id retry) ts [] eq_refl I Ep) as I1.
    apply (cancel_spared [] id retry); [done..|]. intros ->. by apply (Hn retry).
Qed.

Lemma quiet_app id q l q' :
  posted_ q' = posted_ q ++ l -> (forall r, QCancel id r ∉ l) -> quiet id q -> quiet id q'.
Proof. unfold quiet. intros -> Hl Hq r Hr. apply elem_of_app in Hr as [?|?]; firstorder. Qed.

(** The other events. *)
Lemma other_step e q q' p t :
  tq_idle q -> event_ok e q = true -> tq_step e q = Some q' -> spares (p, sequence_ t) e ->
  (forall now acts, e <> EvExpire now acts) -> quiet (p, sequence_ t) q ->
  mem_ q !! p = Some t ->
  mem_ q' !! p = Some t /\ (p ∈ timers_ q -> p ∈ timers_ q') /\ quiet (p, sequence_ t) q' /\
  (e <> EvTask -> exists l, posted_ q' = posted_ q ++ l).
Proof.
  intros Hi Hok E Hsp Hne Hq Hp. destruct e as [now acts|a|x when rep delta|id|]; [by destruct (Hne now acts)|..].
  - destruct (act_spared [] a q q' p t (i_inv _ Hi) Hok E Hsp Hp) as (? & ? & l & ? & ?).
    split_and!; [done..| |by eauto]. by apply (quiet_app _ q l).
  - injection E as <-. cbn [event_ok] in Hok. apply act_ok_add in Hok as (Hx & _).
    destruct (new_timer_spared x when rep delta q p t Hx Hp) as (? & _ & _). split_and!; [done..| |by eauto].
    apply (quiet_app _ q [QInsert x]); [done| |done]. set_solver.
  - injection E as <-. split_and!; [done..| |by eauto]. apply (quiet_app _ q [QCancel id true]); [done| |done].
    intros r Hr%list_elem_of_singleton. by injection Hr as <-.
  - destruct (posted_ q) as [|tk ts] eqn:Ep; [cbn in E; rewrite Ep in E; by injection E as <-|].
    unfold quiet in Hq. rewrite Ep in Hq.
    destruct (task_spared tk ts q q' p t Hi Ep E) as (? & ? & l & ? & ?); [intros r ->; by apply (Hq r); left|done|].
    split_and!; [done..| |done]. apply (quiet_app _ (set_posted ts q) l); [done..|]. intros r Hr. apply (Hq r). by right.
Qed.

(** A timer in the heap that nobody cancels runs exactly when [fires] says. *)
Lemma schedule_kept es : forall q p t,
  tq_idle q -> events_ok es q = true -> Forall (spares (p, sequence_ t)) es -> quiet (p, sequence_ t) q ->
  mem_ q !! p = Some t -> p ∈ timers_ q ->
  firing_times (sequence_ t) es q = fires (expiration_ t) (period_of t) (nows es).
Proof.
  induction es as [|e es IH]; intros q p t Hi Hok Hs Hq Hp Hin; [done|]. apply andb_prop in Hok as [He Hes].
  apply Forall_cons in Hs as [Hse Hs]. destruct (tq_step_ok e q Hi He) as (q' & E & Hi' & _).
  cbn [firing_times]. rewrite E in Hes |- *.
  assert ((exists now acts, e = EvExpire now acts) \/ forall now acts, e <> EvExpire now acts)
    as [(now & acts & ->)|Hne] by (destruct e; naive_solver).
  - cbn [tq_step] in E. cbn [spares] in Hse.
    destruct (handleRead_spared now acts q q' p t Hi He E Hse Hp) as (_ & l & El & Hl).
    pose proof (quiet_app _ q l q' El Hl Hq) as Hq'.
    destruct (expire_step now acts q q' p t Hi He E Hse Hp Hin) as [-> Hafter].
    change (nows (EvExpire now acts :: es)) with (now :: nows es). cbn [fires].
    destruct (expiration_ t <=? now); cbn [fmap list_fmap app const]; [f_equal|by destruct Hafter; apply IH with p].
    unfold period_of. destruct (repeat_ t) eqn:Er; [|by apply firing_times_dead].
    destruct Hafter as [Hp' Hin']. specialize (IH q' p (restarted t now) Hi' Hes Hs Hq' Hp' Hin').
    unfold period_of in IH. cbn in IH. rewrite Er in IH. exact IH.
  - destruct (other_step e q q' p t Hi He E Hse) as (Hp' & Hin' & Hq' & _); [done..|].
    specialize (IH q' p t Hi' Hes Hs Hq' Hp' (Hin' Hin)). destruct e as [now acts|?|? ? ? ?|?|]; try exact IH. by destruct (Hne now acts).
Qed.

(** The events after the [n]-th turn of the loop through a posted functor. *)
Fixpoint after_tasks (n : nat) (es : list tq_event) : list tq_event :=
  match n, es with
  | O, _ => es
  | S n', EvTask :: es => after_tasks n' es
  | S _, _ :: es => after_tasks n es
  | S _, [] => []
  end.

Lemma after_tasks_0 es : after_tasks 0 es = es.
Proof. by destruct es. Qed.

Lemma posted_not_in_heap batch extra q p pre post :
  tq_inv batch extra q -> posted_ q = pre ++ QInsert p :: post -> p ∉ timers_ q.
Proof.
  intros I Ep Hin. pose proof (owned_nodup _ _ _ I) as Hnd. apply NoDup_app in Hnd as (_ & Hx & _).
  apply (Hx p Hin). unfold inserting. rewrite Ep, omap_app. set_solver.
Qed.

(** The loop takes the functor at the head of its queue: an insertion puts the timer
    in the heap, another leaves the insertion of this one in the queue. *)
Lemma task_pending pre post p t q q' :
  tq_idle q -> posted_ q = pre ++ QInsert p :: post -> mem_ q !! p = Some t -> quiet (p, sequence_ t) q ->
  tq_step EvTask q = Some q' ->
  match pre with [] => p ∈ timers_ q' | _ :: pre => exists l, posted_ q' = pre ++ QInsert p :: l end.
Proof.
  intros Hi Ep Hp Hq E. destruct pre as [|tk pre]; cbn [app] in Ep.
  - cbn [tq_step] in E. rewrite Ep in E.
    pose proof (take_task_ok q (QInsert p) post [p] eq_refl (i_inv _ Hi) Ep) as I1.
    destruct (insert_timer_ok _ _ _ _ I1) as (q1 & E1 & _ & _ & Hpt & _). rewrite E in E1. injection E1 as <-.
    rewrite Hpt. set_solver.
  - destruct (task_spared tk _ q q' p t Hi Ep E) as (_ & _ & l & -> & _); [|done|].
    + intros r ->. apply (Hq r). rewrite Ep. by left.
    + exists (post ++ l). cbn. by rewrite <- app_assoc.
Qed.

(** A timer another thread has made is on schedule from its insertion on. *)
Lemma schedule_pending es : forall pre post q p t,
  tq_idle q -> events_ok es q = true -> Forall (spares (p, sequence_ t)) es -> quiet (p, sequence_ t) q ->
  mem_ q !! p = Some t -> posted_ q = pre ++ QInsert p :: post ->
  firing_times (sequence_ t) es q = fires (expiration_ t) (period_of t) (nows (after_tasks (S (length pre)) es)).
Proof.
  induction es as [|e es IH]; intros pre post q p t Hi Hok Hs Hq Hp Ep; [done|]. apply andb_prop in Hok as [He Hes].
  apply Forall_cons in Hs as [Hse Hs]. destruct (tq_step_ok e q Hi He) as (q' & E & Hi' & _).
  cbn [firing_times]. rewrite E in Hes |- *. pose proof (posted_not_in_heap _ _ _ _ _ _ (i_inv _ Hi) Ep) as Hout.
  assert (forall l, posted_ q' = posted_ q ++ l -> posted_ q' = pre ++ QInsert p :: (post ++ l)) as Happ
    by (intros l ->; rewrite Ep; by rewrite <- app_assoc).
  destruct e as [now acts|a|x when rep delta|id|];
    [|destruct (other_step _ q q' p t Hi He E Hse) as (Hp' & _ & Hq' & Hl); [done..|]..].
  - cbn [tq_step] in E. destruct (handleRead_spared now acts q q' p t Hi He E Hse Hp) as (Hk & l & El & Hl).
    rewrite (expire_pending now acts q q' p t) by done. destruct Hk as [Hp' _]; [by left|].
    exact (IH pre _ q' p t Hi' Hes Hs (quiet_app _ q l q' El Hl Hq) Hp' (Happ l El)).
  - destruct Hl as [l El]; [done|]. exact (IH pre _ q' p t Hi' Hes Hs Hq' Hp' (Happ l El)).
  - destruct Hl as [l El]; [done|]. exact (IH pre _ q' p t Hi' Hes Hs Hq' Hp' (Happ l El)).
  - destruct Hl as [l El]; [done|]. exact (IH pre _ q' p t Hi' Hes Hs Hq' Hp' (Happ l El)).
  - pose proof (task_pending pre post p t q q' Hi Ep Hp Hq E) as Ht. destruct pre as [|tk pre].
    + cbn [length after_tasks]. rewrite after_tasks_0. exact (schedule_kept es q' p t Hi' Hes Hs Hq' Hp' Ht).
    + destruct Ht as [l El]. exact (IH pre l q' p t Hi' Hes Hs Hq' Hp' El).
Qed.

(** How many functors the loop runs until the timer is in its heap. *)
Definition turns (inLoop : bool) (q : TimerQueue) : nat := if inLoop then 0 else length (posted_ q).

Lemma addTimer_scheduled inLoop p when i q :
  tq_idle q -> mem_ q !! p = None -> 0 < when < 2 ^ 63 -> 0 <= micros i < 2 ^ 62 -> quiet (p, s_numCreated_ q + 1) q ->
  let t := mkTimer when (positive i) (micros i) (s_numCreated_ q + 1) in
  exists q1, addTimer inLoop p when i q = Some ((p, sequence_ t), q1) /\ tq_idle q1 /\
    forall es, events_ok es q1 = true -> Forall (spares (p, sequence_ t)) es ->
      firing_times (sequence_ t) es q1 = fires when (period_of t) (nows (after_tasks (turns inLoop q1) es)).
Proof.
  intros Hi Hp Hw Hm Hq t. assert (act_ok (TAdd p when (positive i) (micros i)) q = true) as Hok by (by apply act_ok_add).
  unfold addTimer. cbn [new_timer]. set (q0 := set_mem _ _).
  assert (mem_ q0 !! p = Some t) as Hp0 by (cbn; apply lookup_insert_eq). destruct inLoop.
  - destruct (tq_step_ok (EvAct (TAdd p when (positive i) (micros i))) q Hi Hok) as (q1 & E & Hi1 & _).
    cbn [tq_step tq_perform_act] in E. change (new_timer p when (positive i) (micros i) q).2 with q0 in E.
    pose proof (new_timer_ok [] [] p when (positive i) (micros i) q (i_inv _ Hi) Hp Hw Hm) as I0.
    destruct (insert_timer_ok [] [] p q0 I0) as (q1' & E1 & _ & Hme & Hpt & _ & Hpo & _).
    rewrite E in E1. injection E1 as <-. rewrite E. exists q1. split; [done|]. split; [done|]. intros es Hes Hs.
    cbn [turns]. rewrite after_tasks_0. apply (schedule_kept es q1 p t); try done; [unfold quiet; by rewrite Hpo|by rewrite Hme|rewrite Hpt; set_solver].
  - destruct (tq_step_ok (EvRemoteAdd p when (positive i) (micros i)) q Hi Hok) as (q1 & E & Hi1 & _).
    cbn [tq_step] in E. change (new_timer p when (positive i) (micros i) q).2 with q0 in E.
    set (q2 := set_posted _ q0) in *. injection E as <-. cbn [mbind option_bind].
    exists q2. split; [done|]. split; [done|]. intros es Hes Hs.
    assert (turns false q2 = S (length (posted_ q))) as -> by (cbn; by rewrite length_app, Nat.add_comm).
    apply (schedule_pending es (posted_ q) [] q2 p t); try done.
    apply (quiet_app _ q [QInsert p]); [done|set_solver|done].
Qed.

Lemma start_timer_addTimer c inLoop p q :
  call_ok c = true ->
  start_timer c inLoop p q = addTimer inLoop p (first_due c) (match c with RunEvery _ i => i | _ => no_interval end) q.
Proof.
  intros [[Hf%Z.ltb_lt Hl%Z.ltb_lt]%andb_prop _]%andb_prop.
  destruct c; [done|..]; cbn [start_timer first_due] in *; unfold runAfter, runEvery, addTimer_delay, timestamp_add, int64;
    rewrite (proj2 (Z.leb_le _ _)), (proj2 (Z.ltb_lt _ _)) by lia; done.
Qed.

(** C12: Timers run on schedule.  A timer made by [runAt], [runAfter] or [runEvery]
    and cancelled by nobody runs exactly once at the first expiration of the timerfd
    at or after its deadline, and again, if it repeats, at the first one that is at
    least an interval after its last run; whatever other timers, callbacks and
    threads do in between.  The expirations that count are those after the timer is
    in the heap: all of them when the loop's thread makes the timer, and when
    another thread does, those after the loop has run the functors posted up to and
    with the insertion, however they and the expirations interleave. *)
Theorem timers_on_schedule clock es q c inLoop p :
  clock_ok clock -> events_ok es (TimerQueue_new clock) = true -> tq_run es (TimerQueue_new clock) = Some q ->
  call_ok c = true -> mem_ q !! p = None -> quiet (p, s_numCreated_ q + 1) q ->
  exists s q1, start_timer c inLoop p q = Some ((p, s), q1) /\
    forall es', events_ok es' q1 = true -> Forall (spares (p, s)) es' ->
      (exists q2, tq_run es' q1 = Some q2) /\
      firing_times s es' q1 = fires (first_due c) (period c) (nows (after_tasks (turns inLoop q1) es')).
Proof.
  intros Hcl Hes E Hc Hp Hq. pose proof (tq_reachable_idle clock es q Hcl Hes E) as Hi.
  rewrite start_timer_addTimer by done. apply andb_prop in Hc as [[Hf%Z.ltb_lt Hl%Z.ltb_lt]%andb_prop Hm].
  set (i := match c with RunEvery _ i => i | _ => no_interval end).
  assert (0 <= micros i < 2 ^ 62) as Hi' by (destruct c; cbn; [lia..|]; apply andb_prop in Hm as [?%Z.leb_le ?%Z.ltb_lt]; done).
  destruct (addTimer_scheduled inLoop p (first_due c) i q Hi Hp (conj Hf Hl) Hi' Hq) as (q1 & E1 & Hi1 & H).
  exists (s_numCreated_ q + 1), q1. split; [done|]. intros es' Hes' Hs. split.
  - destruct (tq_run_ok es' q1 Hi1 Hes') as (q2 & ? & _). eauto.
  - specialize (H es' Hes' Hs). cbn [sequence_] in H. rewrite H. by destruct c.
Qed.

(** A one-shot timer is waiting when another thread calls [runEvery] with an
    interval of 50; the timerfd expires before the loop has taken the insertion, and
    the timer runs at 80 and 130. *)
Definition late_clock (k : nat) : Z :=
  match k with
  | 0%nat => 10 | 1%nat => 75 | 2%nat => 76 | 3%nat => 78 | 4%nat => 80 | 5%nat => 81 | 6%nat => 85 | 7%nat => 95
  | 8%nat => 96 | _ => 130
  end.

Lemma late_clock_ok : clock_ok late_clock.
Proof. intros k. unfold late_clock. by repeat (case_match; try lia). Qed.

Definition sample_before : list tq_event := [EvAct (TAdd 16 90 false 0)].
Definition sample_after : list tq_event :=
  [EvExpire 75 (fun _ => []); EvTask; EvExpire 80 (fun _ => []); EvAct (TAdd 48 77 false 0); EvExpire 95 (fun _ => []);
   EvExpire 130 (fun _ => [])].
Definition sample_reached : TimerQueue :=
  default (TimerQueue_new late_clock) (tq_run sample_before (TimerQueue_new late_clock)).
Definition sample_every : timer_call := RunEvery 20 (mkSeconds true 50).

Definition sample_called : TimerQueue :=
  (default ((0, 0), TimerQueue_new late_clock) (start_timer sample_every false 32 sample_reached)).2.

Lemma timers_on_schedule_witness :
  exists s q1, start_timer sample_every false 32 sample_reached = Some ((32, s), q1) /\
    events_ok sample_after q1 = true /\ firing_times s sample_after q1 = [80; 130].
Proof.
  destruct (timers_on_schedule late_clock sample_before sample_reached sample_every false 32)
    as (s & q1 & E1 & H); [exact late_clock_ok|vm_compute; reflexivity..|intros r; vm_compute; inversion 1|].
  exists s, q1. split; [exact E1|].
  assert (q1 = sample_called) as Hq1 by (unfold sample_called; by rewrite E1).
  assert (events_ok sample_after q1 = true) as Hok by (rewrite Hq1; vm_compute; reflexivity).
  split; [exact Hok|]. destruct (H sample_after Hok) as [_ ->]; [|rewrite Hq1; vm_compute; reflexivity].
  repeat constructor; cbn; (done || (intros; apply not_elem_of_nil)).
Defined.
