(* ===== verification/EchoApp.v ===== *)
(** * EchoApp: the example programs, on the verified library

    The message callback of [example/echo_server.cpp], the handler of
    [example/rpc_echo_server.cpp] and the request and report of
    [example/rpc_echo_client.cpp], put on top of the transport interface, the
    RPC client and server and the JSON serializer.  The [main] functions around
    them are in [Programs.v]. *)
From S2P Require Import Prelude Protocol Buffer FrameReader Codec ServiceRegistry Transport RpcServer RpcClient.
From S2P Require Import RpcEndToEnd Charconv JsonValue JsonText JsonWriter JsonParser Serializer.

(** ** [example/echo_server.cpp] *)
Section echo_server.
Context {T : Type} `{TransportLaws T}.

(** The message callback. *)
Definition echo_onMessage (conn : T) (buf : Buffer) : option (T * Buffer) :=
  '(msg, buf) ← retrieveAllAsString buf;
  conn ← send conn msg;
  Some (conn, buf).

(** Reads, each followed by the callback. *)
Fixpoint echo_reads (conn : T) (buf : Buffer) (chunks : list bytes) : option (T * Buffer) :=
  match chunks with
  | [] => Some (conn, buf)
  | c :: cs =>
      buf ← append buf c;
      '(conn, buf) ← echo_onMessage conn buf;
      echo_reads conn buf cs
  end.

Lemma retrieveAll_keeps buf m buf' : retrieveAllAsString buf = Some (m, buf') -> buffer_ buf' = buffer_ buf.
Proof.
  unfold retrieveAllAsString, retrieveAsString. intros (s & _ & [= _ <-])%bind_Some.
  unfold retrieve, retrieveAll. by case_match.
Qed.

Lemma echo_reads_spec chunks : forall conn buf total,
  t_wf conn -> connected conn = true -> len (t_out conn) + len (concat chunks) < stream_max ->
  buffer_wf buf -> contents buf = [] -> len (concat chunks) <= total -> len (buffer_ buf) <= 2 * total + 2 ^ 60 -> total < 2 ^ 60 ->
  exists conn' buf', echo_reads conn buf chunks = Some (conn', buf') /\ extends conn conn' (concat chunks) /\ contents buf' = [].
Proof.
  induction chunks as [|c cs IH]; intros conn buf total Hw Hc Hr Hb Hcb Ht Hl Hm; cbn [echo_reads concat] in *.
  { exists conn, buf. split; [done|]. split; [by apply extends_refl|done]. }
  rewrite len_app in Hr, Ht. pose proof (len_nonneg c). pose proof (len_nonneg (concat cs)).
  destruct (append_spec buf c Hb) as (b1 & -> & Hb1 & Cb1 & Lb1); [lia|]. cbn [mbind option_bind].
  rewrite Hcb in Cb1, Lb1. cbn [app] in Cb1. rewrite len_nil in Lb1. unfold kCheapPrepend in Lb1.
  unfold echo_onMessage. destruct (retrieveAllAsString_spec b1 Hb1) as (b2 & Er & Hb2 & Cb2).
  pose proof (retrieveAll_keeps _ _ _ Er) as Kb. rewrite Er. cbn [mbind option_bind]. rewrite Cb1.
  destruct (send_extends conn c Hw Hc ltac:(lia)) as (conn1 & -> & X1). cbn [mbind option_bind].
  pose proof X1 as (W1 & C1 & _ & L1 & _).
  destruct (IH conn1 b2 total) as (conn' & buf' & -> & X2 & Cb'); [done|done|lia|done|done|lia|rewrite Kb; lia|done|].
  exists conn', buf'. split; [done|]. split; [by eapply extends_trans|done].
Qed.

(** The echo server sends back exactly the bytes it received, in order, on
    whatever transport and however the reads cut the stream, and keeps none. *)
Theorem echo_stream conn chunks :
  t_wf conn -> connected conn = true -> len (t_out conn) + len (concat chunks) < stream_max ->
  exists conn' buf', echo_reads conn (Buffer_new kInitialSize) chunks = Some (conn', buf') /\
    extends conn conn' (concat chunks) /\ contents buf' = [].
Proof.
  intros Hw Hc Hr. destruct (Buffer_new_wf kInitialSize) as [Hb Cb]; [unfold kInitialSize; lia|].
  pose proof (len_nonneg (t_out conn)). unfold stream_max in *. pose proof (len_nonneg (concat chunks)).
  apply (echo_reads_spec chunks conn _ (len (concat chunks))); try done; rewrite ?Buffer_new_size; lia.
Qed.
End echo_server.

Lemma echo_stream_witness :
  exists conn' buf', echo_reads (Sink.mk true []) (Buffer_new kInitialSize) [str "he"; str "llo"] = Some (conn', buf') /\
    extends (Sink.mk true []) conn' (str "hello") /\ contents buf' = [].
Proof. apply (echo_stream (Sink.mk true []) [str "he"; str "llo"]); [exact I|reflexivity|reflexivity]. Defined.

(** ** [example/rpc_echo_server.cpp] *)

(** The two fixed answers. *)
Definition malformed_json : bytes := str "{" ++ [x22] ++ str "error" ++ [x22] ++ str ":" ++ [x22] ++ str "malformed json" ++ [x22] ++ str "}".
Definition unencodable_value : bytes := str "{" ++ [x22] ++ str "error" ++ [x22] ++ str ":" ++ [x22] ++ str "unencodable value" ++ [x22] ++ str "}".

(** The handler of Echo.Echo; it does not throw. *)
Definition echo_handler : ErasedMethod unit := fun w payload =>
  (match parse kDefaultMaxDepth payload (Some JNull) with
   | Some (true, Some request) =>
       match write kDefaultMaxDepth request (Some []) with
       | (true, Some encoded) => Some encoded
       | _ => Some unencodable_value
       end
   | Some _ => Some malformed_json
   | None => None
   end, w).

Definition echo_rpc_server : RpcServer unit :=
  let s := RpcServer_new in
  let s := mkRpcServer (registerMethod (registry_ s) (str "Echo") (str "Echo") (Some echo_handler)).2
             (frameReader_ s) (maxInputBufferSize_ s) (serializerId_ s) in
  srv_start (srv_setSerializerId s kSerializerJson).

(** ** [example/rpc_echo_client.cpp] *)

Definition request_value (payload : bytes) : JsonValue :=
  JObject (assign (str "client") (JString (str "rpc_echo_client")) (assign (str "message") (JString payload) [])).

(** The encoded request; [None] is exit code 1. *)
Definition echo_request (payload : bytes) : option Request :=
  match json_encode (mkJsonSerializer kDefaultMaxDepth) (request_value payload) (Some []) with
  | (true, Some encoded) => Some (mkRequest (str "Echo") (str "Echo") encoded)
  | _ => None
  end.

Definition newline : bytes := [x0a].

Definition status_line (response : Response) : bytes :=
  str "status=" ++ decimal (resp_status response) ++ str " payload=" ++ resp_payload response ++ newline.

Definition message_line (message : bytes) : bytes := str "message=" ++ [x22] ++ message ++ [x22] ++ newline.

(** What is printed of the response, on [std::cout] and on [std::cerr]. *)
Definition echo_report (response : Response) : option (bytes * bytes) :=
  if negb (resp_status response =? StatusCode.kOk) then Some (status_line response, []) else
  r ← json_decode (mkJsonSerializer kDefaultMaxDepth) (resp_payload response) (Some JNull);
  match r with
  | (false, _) => Some (status_line response, str "server returned a payload that is not JSON" ++ newline)
  | (true, Some (JObject fields)) =>
      match find (str "message") fields with
      | Some (JString message) => Some (status_line response ++ message_line message, [])
      | _ => Some (status_line response, [])
      end
  | (true, _) => None           (* [find] asserts that it is an object *)
  end.

(** The handler answers the request with its own encoding. *)
Lemma echo_handler_request payload encoded :
  json_encode (mkJsonSerializer kDefaultMaxDepth) (request_value payload) (Some []) = (true, Some encoded) ->
  echo_handler tt encoded = (Some encoded, tt).
Proof.
  intros E. pose proof (payload_roundtrip (mkJsonSerializer kDefaultMaxDepth) (request_value payload) [] JNull encoded eq_refl E) as D.
  cbn [decode json_serializer] in D. unfold json_decode in D. apply json_encode_inv in E as [E Hl].
  rewrite (proj2 (Z.ltb_ge _ _)) in D by done. cbn [maxDepth_] in *. unfold echo_handler. rewrite D. unfold write. by rewrite E.
Qed.

Lemma echo_result payload r :
  echo_request payload = Some r ->
  result echo_rpc_server tt r = Some (mkResponse StatusCode.kOk (Codec.payload r) kSerializerJson, tt) /\
  let response := mkResponse StatusCode.kOk (Codec.payload r) kSerializerJson in
  echo_report response = Some (status_line response ++ message_line payload, []).
Proof.
  unfold echo_request. destruct (json_encode _ _ _) as [[|] [encoded|]] eqn:E; try done. intros [= <-].
  pose proof (echo_handler_request payload encoded E) as Hh. split.
  - unfold result, dispatch. cbn [service method Codec.payload].
    match goal with |- context [?m !! makeKey ?a ?b] => change (m !! makeKey a b) with (Some echo_handler) end. cbv beta iota.
    rewrite Hh. cbn [mbind option_bind resp_payload].
    apply json_encode_inv in E as [_ Hl]. by rewrite (proj2 (Z.ltb_ge _ _)).
  - pose proof (payload_roundtrip (mkJsonSerializer kDefaultMaxDepth) (request_value payload) [] JNull encoded eq_refl E) as D.
    cbn [decode json_serializer] in D. unfold echo_report. cbn [resp_status resp_payload Codec.payload]. by rewrite D.
Qed.

(** ** The two programs, wire to wire *)
Section echo_rpc.
Context {Tc Ts : Type} `{TransportLaws Tc} `{TransportLaws Ts}.
Variable iter : gmap Z PendingCall -> list (Z * PendingCall).
Hypothesis iter_perm : forall m, iter m ≡ₚ map_to_list m.

(** The RPC echo programs do what they demonstrate: if the payload can be
    encoded and framed, the client's call, carried over the wire in arbitrary
    pieces both ways, completes once with status OK and a response from which
    the client prints the very payload it was given. *)
Theorem echo_end_to_end (conn : Ts) (st : RpcClient Tc) c buf payload r tok deadline :
  echo_request payload = Some r -> len (RawCodec.request_bytes r) <= bodyLimit (frameReader_ echo_rpc_server) ->
  reachable iter st -> spare st 1 -> connection_ st = Some c -> connected c = true ->
  buffer_wf buf -> contents buf = [] -> len (buffer_ buf) <= 2 ^ 60 ->
  t_wf conn -> connected conn = true -> room conn 1 ->
  cl_serializerId_ st = kSerializerJson -> bodyLimit (frameReader_ echo_rpc_server) <= bodyLimit (cl_frameReader_ st) ->
  let response := mkResponse StatusCode.kOk (Codec.payload r) kSerializerJson in
  over_the_wire iter echo_rpc_server tt tt conn st c buf [mkCall r tok deadline] [response] /\
  echo_report response = Some (status_line response ++ message_line payload, []).
Proof.
  intros Er Hb Hre Hsp Ec Hc Hbw Hbc Hbl Hw Hcn Hroom Hser Hlim response.
  destruct (echo_result payload r Er) as [Hres Hrep]. split; [|done].
  assert (service r = str "Echo" /\ method r = str "Echo") as [Es Em].
  { unfold echo_request in Er. destruct (json_encode _ _ _) as [[|] [?|]]; by simplify_eq. }
  pose proof (len_nonneg (Codec.payload r)). pose proof (RawCodec.request_bytes_len r) as Hrl.
  rewrite Es, Em in Hrl. change (len (str "Echo")) with 4 in Hrl.
  pose proof (bodyLimit_max (frameReader_ echo_rpc_server)).
  apply calls_end_to_end; try done.
  - by left.
  - apply Forall_singleton. cbn [c_request]. split; [|done]. unfold RawCodec.request_fits. rewrite Es, Em.
    change (len (str "Echo")) with 4. unfold RawCodec.kMaxNameLen. lia.
  - cbn. by rewrite Hres.
  - repeat constructor; cbn; try done. lia.
Qed.
End echo_rpc.

Module EchoSample.
Definition connect_events : list (event (T := Sink.t)) :=
  [EvSerializer kSerializerJson; EvConnect 7; EvConnection ClientSample.transport].

Definition client : RpcClient Sink.t :=
  match client_run map_to_list connect_events client_init with Ret (_, st) => st | Stop _ st => st end.

Lemma echo_client_reachable : reachable map_to_list client.
Proof.
  destruct (client_run map_to_list connect_events client_init) as [[buf st]|] eqn:E.
  - exists connect_events, buf. split; [|unfold client; by rewrite E]. unfold connect_events. cbn [events_ok].
    split; [by vm_compute|]. ClientSample.run_event. split; [right; done|]. ClientSample.run_event.
    split; [by split; vm_compute|]. ClientSample.run_event. exact I.
  - vm_compute in E. discriminate E.
Qed.

Definition request : Request :=
  match echo_request (str "hello rpc") with Some r => r | None => mkRequest [] [] [] end.
End EchoSample.

Lemma echo_end_to_end_witness :
  let response := mkResponse StatusCode.kOk (Codec.payload EchoSample.request) kSerializerJson in
  echo_report response = Some (status_line response ++ message_line (str "hello rpc"), []).
Proof.
  apply (echo_end_to_end map_to_list (fun _ => reflexivity _) (Sink.mk true []) EchoSample.client ClientSample.transport
    (Buffer_new kInitialSize) (str "hello rpc") EchoSample.request 1 true);
    [by vm_compute|by vm_compute|exact EchoSample.echo_client_reachable|split; by vm_compute|by vm_compute|done|by vm_compute
    |by vm_compute|by vm_compute|done|done|by vm_compute|by vm_compute|by vm_compute].
Defined.
