(* ===== verification/Programs.v ===== *)
(** * Programs: the [main] functions of the examples

    [example/echo_server.cpp], [example/http_server.cpp],
    [example/rpc_echo_server.cpp] and [example/rpc_echo_client.cpp]: how they
    read their arguments, what they print, and how they build and start their
    servers on the sockets of [Socket.v].  The callbacks are in [EchoApp.v] and
    [HttpServer.v].  The answers of the system calls are arguments; the loop that
    [main] then enters, which nothing in these programs ends, is [EventLoop]. *)
From S2P Require Import Prelude Protocol Buffer FrameReader Codec ServiceRegistry Transport RpcServer RpcClient.
From S2P Require Import RpcEndToEnd Charconv InetAddress Socket ServerStart HttpRequest HttpServer EchoApp.

(** ** What a run of [main] comes to *)

(** It returns, an exception leaves it, or it goes on with what it has built;
    each with what was printed on [std::cout] and [std::cerr]. *)
Inductive outcome (A : Type) :=
| Exits (code : Z) (out err : bytes)
| Uncaught (out : bytes)
| GoesOn (out : bytes) (a : A).
Arguments Exits {A}.
Arguments Uncaught {A}.
Arguments GoesOn {A}.

(** [std::cout << n] for an [int]. *)
Definition print_int (n : Z) : bytes := if n <? 0 then str "-" ++ decimal (- n) else decimal n.

Definition is_help (arg : bytes) : bool := bool_decide (arg = str "-h") || bool_decide (arg = str "--help").

(** The connection callback of the echo and of the HTTP server. *)
Definition connection_line (tag : bytes) (peer local : InetAddress) (up : bool) : bytes :=
  tag ++ toIpPort peer ++ str " -> " ++ toIpPort local ++ str " is " ++ (if up then str "UP" else str "DOWN") ++ newline.

Section mains.
(** [inet_pton], the answers to the calls of the constructor and to [::listen],
    and the world in which [main] starts. *)
Context (inet_pton : bytes -> option Z) (sys : setup) (listening : Socket.reply unit) (w : World).

(** ** [example/echo_server.cpp] *)

Definition echo_usage (prog : bytes) : bytes :=
  str "Usage:" ++ newline ++
  str "  " ++ prog ++ str " [numThreads]   Echo server (default: single-thread)" ++ newline ++
  newline ++ str "Examples:" ++ newline ++
  str "  " ++ prog ++ str "        Single-threaded echo on port 8080" ++ newline ++
  str "  " ++ prog ++ str " 4      Multi-threaded echo (4 workers)" ++ newline ++ newline.

Definition echo_banner : bytes := str "=== ReactorNet Echo Server Demo ===" ++ newline ++ newline.

(** From the line that makes the loop. *)
Definition echo_serve (numThreads : Z) : option (outcome Server) :=
  let listenAddr := InetAddress_new inet_pton 8080 [] false in
  s ← Server_new sys listenAddr w;
  s ← setThreadNum numThreads s;
  s ← ServerStart.start (started_ s) true false listening s;
  Some (GoesOn (echo_banner ++ str "Starting Echo server on port 8080, threads=" ++ print_int numThreads ++ newline ++
                str "Server listening on " ++ toIpPort listenAddr ++ newline) s).

Definition echo_main (argv : list bytes) : option (outcome Server) :=
  match argv with
  | prog :: arg :: _ =>
      if is_help arg then Some (Exits 0 (echo_banner ++ echo_usage prog) [])
      else match stoi arg with
           | Some numThreads => echo_serve numThreads
           | None => Some (Uncaught echo_banner)
           end
  | _ => echo_serve 0
  end.

(** ** [example/http_server.cpp] *)

Definition http_usage (prog : bytes) : bytes :=
  str "Usage:" ++ newline ++
  str "  " ++ prog ++ str " port docRoot [numThreads]" ++ newline ++
  newline ++ str "Examples:" ++ newline ++
  str "  " ++ prog ++ str " 8080 ../www        Single-threaded HTTP on port 8080" ++ newline ++
  str "  " ++ prog ++ str " 8080 ../www 4      Multi-threaded HTTP (4 workers)" ++ newline ++ newline.

Definition http_banner : bytes := str "=== ReactorNet HTTP Static Server Demo ===" ++ newline ++ newline.

(** [port] is an [int], which the constructor of the address cuts to 16 bits. *)
Definition http_serve (port : Z) (docRoot : bytes) (numThreads : Z) : option (outcome (HttpServer * Server)) :=
  let listenAddr := InetAddress_new inet_pton port [] false in
  s ← Server_new sys listenAddr w;
  s ← setThreadNum numThreads s;
  s ← ServerStart.start (started_ s) true false listening s;
  Some (GoesOn (http_banner ++ str "Starting HTTP server on port " ++ print_int port ++ str ", docRoot=" ++ docRoot ++
                str ", threads=" ++ print_int numThreads ++ newline ++
                str "Server listening on " ++ toIpPort listenAddr ++ newline) (mkHttpServer docRoot, s)).

(** [None] without a program name: [argv[0]] is then null. *)
Definition http_main (argv : list bytes) : option (outcome (HttpServer * Server)) :=
  match argv with
  | _ :: arg1 :: docRoot :: rest =>
      match stoi arg1 with
      | Some port =>
          match rest with
          | arg3 :: _ =>
              match stoi arg3 with
              | Some numThreads => http_serve port docRoot numThreads
              | None => Some (Uncaught http_banner)
              end
          | [] => http_serve port docRoot 0
          end
      | None => Some (Uncaught http_banner)
      end
  | prog :: _ => Some (Exits 1 (http_banner ++ http_usage prog) [])
  | [] => None
  end.

(** ** [example/rpc_echo_server.cpp] and [example/rpc_echo_client.cpp] *)

(** The port argument of both. *)
Inductive port_arg := Help (prog : bytes) | Throws | Port (port : Z).

Definition read_port (argv : list bytes) : port_arg :=
  match argv with
  | prog :: arg :: _ =>
      if is_help arg then Help prog
      else match stoi arg with Some n => Port (u16 n) | None => Throws end
  | _ => Port 9000
  end.

Definition rpc_server_usage (prog : bytes) : bytes :=
  str "Usage: " ++ prog ++ str " [port]" ++ newline ++
  str "  port  listen port (default: 9000; 0 picks a free one)" ++ newline.

(** [named] is the answer of [getsockname]. *)
Definition rpc_server_main (named : Socket.reply unit) (argv : list bytes) : option (outcome (RpcServer unit * Server)) :=
  match read_port argv with
  | Help prog => Some (Exits 0 (rpc_server_usage prog) [])
  | Throws => Some (Uncaught [])
  | Port port =>
      s ← Server_new sys (InetAddress_new inet_pton port (str "0.0.0.0") false) w;
      s ← ServerStart.start (started_ s) true false listening s;
      Some (GoesOn (str "RPC echo server listening on " ++ toIpPort (listenAddress named s) ++ newline)
                   (echo_rpc_server, s))
  end.

Definition rpc_client_usage (prog : bytes) : bytes := str "Usage: " ++ prog ++ str " [port] [payload]" ++ newline.

Definition read_payload (argv : list bytes) : bytes :=
  match argv with _ :: _ :: payload :: _ => payload | _ => str "hello rpc" end.

(** Up to the call: where it connects, and the request. *)
Definition rpc_client_main (argv : list bytes) : outcome (InetAddress * Request) :=
  match read_port argv with
  | Help prog => Exits 0 (rpc_client_usage prog) []
  | Throws => Uncaught []
  | Port port =>
      match echo_request (read_payload argv) with
      | None => Exits 1 [] (str "failed to encode the JSON request" ++ newline)
      | Some request => GoesOn [] (InetAddress_new inet_pton port (str "127.0.0.1") false, request)
      end
  end.
End mains.

(** After the call; the client is then destroyed on its loop, and [main] returns
    once that has been done. *)
Definition rpc_client_end (response : Response) : option (outcome Empty_set) :=
  '(out, err) ← echo_report response;
  Some (Exits 0 out err).

(** ** The servers they start *)

(** Listening on [addr] with its loops running. *)
Definition ready (addr : InetAddress) (numThreads : Z) (s : Server) : Prop :=
  (exists d, listener_desc s addr d /\ d_listening d = true) /\
  getAllLoops s = seq 0 (S (Z.to_nat numThreads)).

Lemma start_ready addr fd idle s :
  start_inv addr fd idle s -> started_ s = false ->
  exists s', ServerStart.start (started_ s) true false (inl tt) s = Some s' /\ ready addr (threadNum_ s) s' /\ start_inv addr fd idle s'.
Proof.
  intros Hi Hs. destruct (started_inv addr fd idle false s Hi) as [Hi2 Hs2]. cbv zeta in Hi2, Hs2. unfold ServerStart.start.
  set (s2 := if started_ s then s else _) in *.
  assert (threadNum_ s2 = threadNum_ s) as Ht.
  { subst s2. rewrite Hs. cbn. destruct (0 <? threadNum_ s); [|done]. by rewrite startThreads_spec. }
  clearbody s2. assert (exists s', (if l_listening (listener s2) then Some s2 else run_listen (inl tt) s2) = Some s' /\
    start_inv addr fd idle s' /\ l_listening (listener s') = true /\ started_ s' = true /\ threadNum_ s' = threadNum_ s) as (s' & -> & Hi' & Hl & Hst & Htn).
  { destruct (l_listening (listener s2)) eqn:El; [by exists s2|].
    destruct (run_listen_inv addr fd idle (inl tt) s2 eq_refl Hi2) as (s' & E & Hi' & Hl' & Hst'). exists s'.
    split_and!; [done..|congruence|]. unfold run_listen, Listener_listen in E. cbn in E. by injection E as <-. }
  exists s'. split; [done|]. split; [|done]. split.
  - destruct (si_desc _ _ _ _ Hi') as (d & Hd). exists d. split; [done|]. destruct Hd as (_ & _ & _ & _ & ->). done.
  - unfold getAllLoops. rewrite (si_loops _ _ _ _ Hi'), Hst, Htn. done.
Qed.

Section serving.
Context (inet_pton : bytes -> option Z) (fd idle free : Z) (distinct : fd <> idle).

Lemma new_ready addr n :
  exists s0 s1 s, Server_new (setup_ok fd idle free) addr world0 = Some s0 /\ setThreadNum n s0 = Some s1 /\
    ServerStart.start (started_ s1) true false (inl tt) s1 = Some s /\ ready (bound_addr addr free) n s.
Proof.
  destruct (Server_new_inv addr fd idle free distinct) as (s0 & E0 & Hi & Hs). exists s0. unfold setThreadNum. rewrite Hs.
  eexists. destruct (start_ready (bound_addr addr free) fd idle (mkServer false n (subLoops_ s0) (initialised s0) (listener s0) (pending s0) (sworld s0)))
    as (s & E & R & _); [destruct Hi; rewrite Hs in *; by split|done|].
  exists s. split_and!; try done. 
Qed.

(** The echo server: whatever the arguments, with a kernel that grants the calls,
    [main] either prints its usage and returns 0, or dies of a number it cannot
    read, or listens on port 8080 of every interface with as many worker loops as
    it was asked for. *)
Theorem echo_program argv :
  exists r, echo_main inet_pton (setup_ok fd idle free) (inl tt) world0 argv = Some r /\
  match r with
  | Exits code _ err => code = 0 /\ err = [] /\ exists prog arg rest, argv = prog :: arg :: rest /\ is_help arg = true
  | Uncaught _ => exists prog arg rest, argv = prog :: arg :: rest /\ stoi arg = None
  | GoesOn _ s => ready (mkInetAddress INADDR_ANY 8080) (match argv with _ :: arg :: _ => default 0 (stoi arg) | _ => 0 end) s
  end.
Proof.
  assert (forall n, exists out s, echo_serve inet_pton (setup_ok fd idle free) (inl tt) world0 n = Some (GoesOn out s) /\
    ready (mkInetAddress INADDR_ANY 8080) n s) as Hserve.
  { intros n. unfold echo_serve. change (InetAddress_new inet_pton 8080 [] false) with (mkInetAddress INADDR_ANY 8080).
    destruct (new_ready (mkInetAddress INADDR_ANY 8080) n) as (s0 & s1 & s & -> & E1 & E2 & R). cbn [mbind option_bind].
    rewrite E1. cbn [mbind option_bind]. rewrite E2. eexists _, s. split; [done|exact R]. }
  unfold echo_main. destruct argv as [|prog [|arg rest]].
  - destruct (Hserve 0) as (out & s & -> & R). by eexists.
  - destruct (Hserve 0) as (out & s & -> & R). by eexists.
  - destruct (is_help arg) eqn:Eh; [by eexists; split; [done|naive_solver]|].
    destruct (stoi arg) as [n|] eqn:En; [|by eexists; split; [done|naive_solver]].
    destruct (Hserve n) as (out & s & -> & R). by eexists.
Qed.
(** The HTTP server, likewise: it needs a port and a document root, and serves
    that root on the port modulo [2 ^ 16], or on a free one if that is 0. *)
Theorem http_program prog args :
  exists r, http_main inet_pton (setup_ok fd idle free) (inl tt) world0 (prog :: args) = Some r /\
  match r with
  | Exits code _ err => code = 1 /\ err = [] /\ (length args < 2)%nat
  | Uncaught _ => exists arg, arg ∈ args /\ stoi arg = None
  | GoesOn _ (h, s) => exists arg1 docRoot rest port, args = arg1 :: docRoot :: rest /\ docRoot_ h = docRoot /\ stoi arg1 = Some port /\
      ready (bound_addr (mkInetAddress INADDR_ANY (u16 port)) free) (match rest with arg3 :: _ => default 0 (stoi arg3) | [] => 0 end) s
  end.
Proof.
  assert (forall port root n, exists out s, http_serve inet_pton (setup_ok fd idle free) (inl tt) world0 port root n = Some (GoesOn out (mkHttpServer root, s)) /\
    ready (bound_addr (mkInetAddress INADDR_ANY (u16 port)) free) n s) as Hserve.
  { intros port root n. unfold http_serve. change (InetAddress_new inet_pton port [] false) with (mkInetAddress INADDR_ANY (u16 port)).
    destruct (new_ready (mkInetAddress INADDR_ANY (u16 port)) n) as (s0 & s1 & s & -> & E1 & E2 & R). cbn [mbind option_bind].
    rewrite E1. cbn [mbind option_bind]. rewrite E2. eexists _, s. split; [done|exact R]. }
  unfold http_main. destruct args as [|arg1 [|root rest]].
  - eexists. split; [done|]. split_and!; [done..|cbn; lia].
  - eexists. split; [done|]. split_and!; [done..|cbn; lia].
  - destruct (stoi arg1) as [port|] eqn:E1; [|eexists; split; [done|]; exists arg1; split; [left|done]].
    destruct rest as [|arg3 rest].
    + destruct (Hserve port root 0) as (out & s & -> & R). eexists. split; [done|]. by eexists _, _, _, _.
    + destruct (stoi arg3) as [n|] eqn:E3; [|eexists; split; [done|]; exists arg3; split; [set_solver|done]].
      destruct (Hserve port root n) as (out & s & -> & R). eexists. split; [done|]. eexists _, _, _, _. split_and!; [done..|]. cbn. by rewrite E3.
Qed.
End serving.

(** A port outside 16 bits is announced as it was given, but the server listens
    on its remainder. *)
Example http_port_announced :
  (r ← http_main (fun _ => None) (setup_ok 3 4 40000) (inl tt) world0 [str "http_server"; str "65616"; str "www"];
   if r is GoesOn out _ then Some (drop 44 out) else None) =
  Some (str "Starting HTTP server on port 65616, docRoot=www, threads=0" ++ newline ++ str "Server listening on 0.0.0.0:80" ++ newline).
Proof. vm_compute. reflexivity. Qed.

(** ** The RPC programs together *)

Section rpc_programs.
Context (inet_pton : bytes -> option Z) {Tc Ts : Type} `{TransportLaws Tc} `{TransportLaws Ts}.
Variable iter : gmap Z PendingCall -> list (Z * PendingCall).
Hypothesis iter_perm : forall m, iter m ≡ₚ map_to_list m.
(** What [inet_pton] is documented to read. *)
Hypothesis pton_any : inet_pton (str "0.0.0.0") = Some INADDR_ANY.
Hypothesis pton_loopback : inet_pton (str "127.0.0.1") = Some INADDR_LOOPBACK.

(** The port a server that was asked for [port] listens on. *)
Definition listening_port (port free : Z) : Z := if port =? 0 then free else port.

(** C32: The two RPC programs: the server comes up listening, on every interface, on
    the port it was given, or on a free one the kernel picks if that is 0, and prints
    the address it is bound to; the client, started with the port the server listens
    on, dials that port on the loopback interface, and when its payload can be
    encoded as JSON and framed its one call, carried over the wire in arbitrary
    pieces both ways, completes once with status OK; the client prints the status
    and the very payload it was given, and exits with 0. *)
Theorem rpc_programs fd idle free sargv cargv port (conn : Ts) (st : RpcClient Tc) c buf r tok deadline :
  fd <> idle -> 0 < free < 2 ^ 16 -> read_port sargv = Port port -> read_port cargv = Port (listening_port port free) ->
  echo_request (read_payload cargv) = Some r -> len (RawCodec.request_bytes r) <= bodyLimit (frameReader_ echo_rpc_server) ->
  reachable iter st -> spare st 1 -> connection_ st = Some c -> connected c = true ->
  buffer_wf buf -> contents buf = [] -> len (buffer_ buf) <= 2 ^ 60 ->
  t_wf conn -> connected conn = true -> room conn 1 ->
  cl_serializerId_ st = kSerializerJson -> bodyLimit (frameReader_ echo_rpc_server) <= bodyLimit (cl_frameReader_ st) ->
  let bound := mkInetAddress INADDR_ANY (listening_port port free) in
  (exists s d, rpc_server_main inet_pton (setup_ok fd idle free) (inl tt) world0 (inl tt) sargv =
      Some (GoesOn (str "RPC echo server listening on " ++ toIpPort bound ++ newline) (echo_rpc_server, s)) /\
    w_open (sworld s) !! fd = Some d /\ d_local d = Some bound /\ d_listening d = true) /\
  rpc_client_main inet_pton cargv = GoesOn [] (mkInetAddress INADDR_LOOPBACK (listening_port port free), r) /\
  let response := mkResponse StatusCode.kOk (Codec.payload r) kSerializerJson in
  over_the_wire iter echo_rpc_server tt tt conn st c buf [mkCall r tok deadline] [response] /\
  rpc_client_end response = Some (Exits 0 (status_line response ++ message_line (read_payload cargv)) []).
Proof.
  intros Hne Hfr Hs Hc Hr Hfit Hre Hsp Ec Hcn Hbw Hbc Hbl Hw Hcn' Hroom Hser Hlim.
  assert (u16 port = port) as Hp.
  { unfold read_port in Hs. destruct sargv as [|? [|arg ?]]; [by injection Hs as <-..|]. destruct (is_help arg); [done|].
    destruct (stoi arg); [|done]. injection Hs as <-. unfold u16. by rewrite Z.mod_mod. }
  assert (forall p ip a, u16 p = p -> bool_decide (ip = []) || bool_decide (ip = str "INADDR_ANY") = false -> inet_pton ip = Some a ->
    InetAddress_new inet_pton p ip false = mkInetAddress a p) as dial_addr.
  { intros p ip a Hu Hip Ha. unfold InetAddress_new. by rewrite Hip, Ha, Hu. }
  assert (u16 (listening_port port free) = listening_port port free) as Hp'.
  { unfold listening_port. destruct (port =? 0); [|done]. apply Z.mod_small. lia. }
  assert (bound_addr (mkInetAddress INADDR_ANY port) free = mkInetAddress INADDR_ANY (listening_port port free)) as Hb.
  { unfold bound_addr, listening_port. cbn. by destruct (port =? 0). }
  intros bound. split; [|split].
  - destruct (Server_new_inv (mkInetAddress INADDR_ANY port) fd idle free Hne) as (s0 & E0 & Hi & Hs0).
    destruct (start_ready _ _ _ s0 Hi Hs0) as (s & E1 & [(d & (Hd & Ha & _) & Hl) _] & Hi'). exists s, d.
    rewrite (proj1 (si_fds _ _ _ _ Hi')) in Hd. rewrite Hb in Ha, Hi'. split; [|done].
    unfold rpc_server_main. rewrite Hs, (dial_addr port (str "0.0.0.0") INADDR_ANY), E0 by done. cbn [mbind option_bind].
    rewrite E1. cbn [mbind option_bind]. by rewrite (listenAddress_spec _ _ _ _ Hi').
  - unfold rpc_client_main. by rewrite Hc, Hr, (dial_addr _ (str "127.0.0.1") INADDR_LOOPBACK).
  - cbv zeta. destruct (echo_end_to_end iter iter_perm conn st c buf (read_payload cargv) r tok deadline) as [Ho Hrep]; try done.
    split; [exact Ho|]. unfold rpc_client_end. by rewrite Hrep.
Qed.
End rpc_programs.

(** [inet_pton] on the two addresses used. *)
Definition sample_pton (ip : bytes) : option Z :=
  if bool_decide (ip = str "0.0.0.0") then Some INADDR_ANY
  else if bool_decide (ip = str "127.0.0.1") then Some INADDR_LOOPBACK else None.

Lemma rpc_programs_witness :
  rpc_client_main sample_pton [str "rpc_echo_client"; str "40000"] =
    GoesOn [] (mkInetAddress INADDR_LOOPBACK 40000, EchoSample.request) /\
  rpc_client_end (mkResponse StatusCode.kOk (Codec.payload EchoSample.request) kSerializerJson) =
    Some (Exits 0 (status_line (mkResponse StatusCode.kOk (Codec.payload EchoSample.request) kSerializerJson) ++
                   message_line (str "hello rpc")) []).
Proof.
  destruct (rpc_programs sample_pton map_to_list (fun _ => reflexivity _) eq_refl eq_refl 3 4 40000
    [str "rpc_echo_server"; str "0"] [str "rpc_echo_client"; str "40000"] 0 (Sink.mk true []) EchoSample.client
    ClientSample.transport (Buffer_new kInitialSize) EchoSample.request 1 true) as (_ & H1 & _ & H2);
    [done|lia|by vm_compute|by vm_compute|by vm_compute|by vm_compute|exact EchoSample.echo_client_reachable|split; by vm_compute|by vm_compute|done
    |by vm_compute|by vm_compute|by vm_compute|done|done|by vm_compute|by vm_compute|by vm_compute|].
  split; [exact H1|exact H2].
Defined.
