(* ===== verification/HttpSession.v ===== *)
(** * HttpSession: the static file server, from its command line to its responses

    [example/http_server.cpp] as it runs: the server that [main] starts, its
    connections with their buffers and descriptors, and the message callback,
    called by [TcpConnection::handleRead] on what it has read.  The files do not
    change while it runs. *)
From S2P Require Import Prelude InetAddress Socket ServerStart HttpRequest HttpResponse HttpServer Programs.
From S2P Require Import Buffer Channel Transport TcpServer TcpConnection TcpCallback ConnFrame ServerSession AppSession.

(** ** The message callback *)

Section service.
Variable file : bytes -> option bytes.
Variable h : HttpServer.

(** An exception that leaves it ends the process. *)
Definition http_callback {T} `{TransportOps T} (conn : T) (buf : Buffer) (w : unit) : option (T * Buffer * unit) :=
  r ← http_onMessage file h conn buf;
  match r with Served conn buf => Some (conn, buf, w) | Terminated => None end.

Definition along_served (c0 : TcpConnection) (a : @served TcpConnection) (b : @served Trace) : Prop :=
  match a, b with
  | Served c buf, Served t buf' => follows c0 t c /\ buf = buf'
  | Terminated, Terminated => True
  | _, _ => False
  end.

Lemma sim_http_loop c0 fuel : forall c t buf,
  follows c0 t c -> sim (along_served c0) (http_loop file fuel h c buf) (http_loop file fuel h t buf).
Proof.
  induction fuel as [|fuel IH]; intros c t buf Hf; cbn [http_loop]; [done|]. apply sim_same. intros data. apply sim_same.
  intros [[] req|]; [|by apply sim_ret..]. destruct (search _ data); [|by apply sim_ret].
  apply sim_same. intros rb. apply sim_same. intros [text ?]. eapply sim_bind; [by apply sim_send|]. intros c1 t1 Hf1. by apply IH.
Qed.

Lemma http_loop_retreat {T} `{TransportOps T} fuel : forall (conn : T) buf conn' buf',
  http_loop file fuel h conn buf = Some (Served conn' buf') -> retreat buf buf'.
Proof.
  induction fuel as [|fuel IH]; intros conn buf conn' buf' E; cbn [http_loop] in E; [done|].
  apply bind_Some in E as (data & _ & E). apply bind_Some in E as ([[] req|] & _ & E); [|by injection E as _ <-|done].
  destruct (search _ data) as [n|]; [|by injection E as _ <-]. apply bind_Some in E as (rb & _ & E). apply bind_Some in E as ([text ?] & _ & E).
  apply bind_Some in E as (c1 & _ & E). eapply retreat_step; [|by eapply IH]. lia.
Qed.

(** Nothing, or the beginning of a request. *)
Definition incomplete (rest : bytes) : Prop :=
  rest = [] \/ exists q more, request_ok q /\ rest ++ more = request_text q /\ more <> [].

(** The callback's specification: the complete requests at the front of the unread
    bytes, well-formed and with targets that begin with a slash, are answered in order, the incomplete one behind them stays. *)
Definition http_answers (w : unit) (unread out rest : bytes) (w' : unit) : Prop :=
  exists qs, Forall request_ok qs /\ Forall rooted qs /\ unread = texts qs ++ rest /\ incomplete rest /\ out = answers file h qs /\ len out < stream_max.

Lemma http_loop_served {T} `{TransportLaws T} qs rest : forall fuel (conn : T) buf,
  Forall request_ok qs -> incomplete rest -> buffer_wf buf -> contents buf = texts qs ++ rest -> (length (contents buf) < fuel)%nat ->
  t_wf conn -> connected conn = true -> len (t_out conn) + len (answers file h qs) < stream_max ->
  exists conn' buf', http_loop file fuel h conn buf = Some (Served conn' buf') /\ extends conn conn' (answers file h qs) /\ contents buf' = rest.
Proof.
  induction qs as [|q qs IH]; intros fuel conn buf Hok Hr Hb Cb Hf Hw Hc Hroom; (destruct fuel as [|fuel]; [lia|]).
  - cbn [app] in Cb. exists conn, buf. split_and!; [|by apply extends_refl|done].
    destruct Hr as [->|(q & more & Hq & Hm & Hne)]; [by apply loop_empty|apply (loop_partial file h conn buf q more); [done|done|by rewrite Cb|done]].
  - apply Forall_cons in Hok as [Hq Hqs]. unfold texts, answers in Cb, Hroom. cbn [map concat] in Cb, Hroom. rewrite <- app_assoc in Cb.
    rewrite len_app in Hroom. pose proof (len_nonneg (concat (map (http_answer file h) qs))).
    destruct (loop_request file h conn buf q _ fuel Hq Hb Cb Hw Hc) as (c1 & b1 & X1 & Hb1 & Cb1 & _ & ->); [lia|].
    destruct (IH fuel c1 b1) as (c2 & b2 & -> & X2 & Cb2); try done; try apply X1.
    + rewrite Cb1. rewrite Cb, length_app in Hf. pose proof (request_text_size q). unfold texts in *. lia.
    + destruct X1 as (_ & _ & _ & ? & _). unfold answers. lia.
    + exists c2, b2. split_and!; try done. unfold answers. cbn [map concat]. by eapply extends_trans.
Qed.

Definition http_app : App unit.
Proof.
  refine {| app_callback T _ conn buf w := http_callback conn buf w; app_answers := http_answers |}.
  - intros c0 t c b w c' b' w' Hf ([c1 b1|] & E & Er)%bind_Some; [|done]. injection Er as -> -> ->.
    destruct (sim_http_loop c0 _ c t b Hf _ E) as ([t1 b2|] & Et & Hs); [|done]. destruct Hs as [Hf' <-].
    exists t1. unfold http_callback, http_onMessage. by rewrite Et.
  - intros t b w t' b' w' ([c1 b1|] & E & Er)%bind_Some; [|done]. injection Er as -> -> ->. by apply http_loop_retreat in E.
  - intros b [] out rest [] Hb (qs & Hok & _ & Cb & Hi & -> & Hl). unfold http_callback, http_onMessage.
    destruct (http_loop_served qs rest (S (Z.to_nat (readableBytes b))) trace_new b) as (t & b' & -> & X & Cb'); try done.
    + rewrite readable_contents by done. unfold len. lia.
    + exists t, b'. done.
Defined.

(** All a connection has read, and all it was sent: for each request the answer made
    from a file under the document root. *)
Definition exchange (all rest out : bytes) : Prop :=
  exists qs, Forall request_ok qs /\ Forall (fun q => under (docRoot_ h) (c_str (docRoot_ h ++ path_ (request_value q)))) qs /\
    all = texts qs ++ rest /\ out = answers file h qs.

Lemma exchange_answer all p r w data out rest w' :
  Forall (fun c => c <> x00) (docRoot_ h) -> exchange all p r -> http_answers w (p ++ data) out rest w' -> exchange (all ++ data) rest (r ++ out).
Proof.
  intros Hz (qs & Hok & Hu & -> & ->) (qs' & Hok' & Hr' & Hd & _ & -> & _). exists (qs ++ qs'). unfold texts, answers in *.
  rewrite !map_app, !concat_app, <- app_assoc, Hd, app_assoc. split; [by apply Forall_app|]. split; [|done]. apply Forall_app. split; [done|].
  apply Forall_forall. intros q Hq. apply rooted_under; [done|by eapply list.Forall_forall in Hok'|by eapply list.Forall_forall in Hr'].
Qed.
End service.

(** C15: The HTTP server with worker threads.  [main], given a port, a document root
    and their number, listens on that port modulo 2^16, or on one the kernel picks
    if that is 0.  From then on, in every interleaving of clients that connect, send
    well-formed GET requests for targets that begin with a slash, cut into reads at
    will, stop sending or vanish, of the kernel's answers and of the functors of all
    loops, no assertion fails, and for each connection the bytes the kernel has taken
    from it followed by those still queued are the responses to the complete requests
    among the bytes it has read, each once and in order: the contents of the file it
    names, which lies under the document root, or the 404 page; the rest is kept in its input buffer; and when a connection goes down
    because its stream ended, and not by a hang-up, everything has been written. *)
Theorem http_service file inet_pton fd idle free prog args out h s es hs :
  fd <> idle -> http_main inet_pton (setup_ok fd idle free) (inl tt) world0 (prog :: args) = Some (GoesOn out (h, s)) ->
  Forall (fun c => c <> x00) (docRoot_ h) -> ServerStart.subLoops_ s <> [] -> len es < INT_MAX ->
  let start := Site_new (str "HttpServer") (length (ServerStart.subLoops_ s)) in
  let _ := http_app file h in
  app_events_ok es (start, tt) -> spec_run es ([], tt) (hs, tt) ->
  (exists arg port d, args !! 0%nat = Some arg /\ stoi arg = Some port /\ args !! 1%nat = Some (docRoot_ h) /\
    w_open (sworld s) !! l_fd (listener s) = Some d /\ d_local d = Some (bound_addr (mkInetAddress INADDR_ANY (u16 port)) free) /\ d_listening d = true) /\
  exists g, app_run es (start, tt) = Some (g, tt) /\ length (objs g) = length hs /\
  forall k ch, hs !! k = Some ch -> serves g k ch /\ exchange file h (heard es k) (ch_partial ch) (ch_out ch).
Proof.
  intros Hne Hm Hz Hsub Hl start A Hok Hr. split.
  { destruct (http_program inet_pton fd idle free Hne prog args) as (r & E & Hres). rewrite Hm in E. injection E as <-.
    destruct Hres as (arg1 & root & rest & port & -> & <- & Hp & [(d & (Hd & Ha & _) & Hlis) _]). by exists arg1, port, d. }
  destruct (app_session (str "HttpServer") (length (ServerStart.subLoops_ s)) es tt hs tt) as (g & E & Hlen & Hs);
    [by destruct (ServerStart.subLoops_ s)|done..|]. exists g. split_and!; [done|done|]. intros k ch Hk. split; [by apply Hs|].
  apply (spec_related (exchange file h)) with tt hs tt; [by exists []|intros all p r w data o rest w'; by apply exchange_answer|done|done].
Qed.

(** ** A sample: one client sends a request for the root in two pieces, then one for
    a missing file; the kernel takes two bytes per write. *)

Definition sample_args : list bytes := [str "8080"; str "/www"; str "1"].

Definition sample_started : bytes * (HttpServer * ServerStart.Server) :=
  match http_main (fun _ => None) (setup_ok 3 4 40000) (inl tt) world0 (str "http_server" :: sample_args) with
  | Some (GoesOn out hs) => (out, hs)
  | _ => ([], (sample_server, ServerStart.mkServer false 0 [] [] (mkListener 0 0 false false false) 0 world0))
  end.

Definition sample_input : bytes := texts [get_root; get_missing].

Definition sample_events : list net_event :=
  [NAccept (mkInetAddress 2130706433 5000) 7 1 two_bytes_kernel; NRun 1; NReady 0 EPOLLIN (IoOk (take 7 sample_input));
   NReady 0 EPOLLIN (IoOk (drop 7 sample_input)); NReady 0 EPOLLOUT (IoErr 0)].

Definition sample_chats : list chat := [mkChat [] (answers sample_files sample_server [get_root; get_missing]) false].

Lemma http_sample_ok :
  let _ := http_app sample_files sample_server in app_events_ok sample_events (Site_new (str "HttpServer") 1, tt).
Proof. intros A. apply nets_okb_ok; [by repeat constructor|vm_compute; reflexivity]. Qed.

Lemma http_sample_spec :
  let _ := http_app sample_files sample_server in spec_run sample_events ([], tt) (sample_chats, tt).
Proof.
  intros A. do 2 (eapply spec_next; [constructor|]).
  eapply spec_next; [eapply spec_ready; [done|apply (chat_read _ _ [] [] _ _ [] (take 7 sample_input) tt); [done|]]|].
  { exists []. split_and!; try done. right. exists get_root, (drop 7 (request_text get_root)). split_and!; try done. split_and!; [by vm_compute| |by vm_compute].
    repeat constructor; by vm_compute. }
  eapply spec_next; [eapply spec_ready; [done|apply (chat_read _ _ (take 7 sample_input) [] _ _ (answers sample_files sample_server [get_root; get_missing]) [] tt); [done|]]|].
  { exists [get_root; get_missing]. split_and!; [repeat constructor; by vm_compute|repeat constructor; by eexists|by vm_compute|by left|done|by vm_compute]. }
  eapply spec_next; [eapply spec_ready; [done|by apply chat_quiet]|]. apply spec_done.
Qed.

Lemma http_service_witness :
  let _ := http_app sample_files sample_server in
  exists g, app_run sample_events (Site_new (str "HttpServer") 1, tt) = Some (g, tt) /\ length (objs g) = 1%nat /\
    forall k ch, sample_chats !! k = Some ch -> serves g k ch /\ exchange sample_files sample_server (heard sample_events k) (ch_partial ch) (ch_out ch).
Proof.
  intros A. destruct (http_service sample_files (fun _ => None) 3 4 40000 (str "http_server") sample_args sample_started.1 sample_server
    sample_started.2.2 sample_events sample_chats) as [_ H];
    [done|by vm_compute|by repeat constructor|by vm_compute|by vm_compute|exact http_sample_ok|exact http_sample_spec|exact H].
Defined.
