(* ===== verification/EchoSession.v ===== *)
(** * EchoSession: the echo server, from its command line to the bytes it returns

    [example/echo_server.cpp] as it runs: the server that [main] starts, its
    connections with their buffers and descriptors, and the message callback,
    called by [TcpConnection::handleRead] on what it has read. *)
From S2P Require Import Prelude InetAddress Socket ServerStart EchoApp Programs.
From S2P Require Import Buffer Channel Transport TcpServer TcpConnection TcpCallback ConnFrame ServerSession AppSession.

(** ** The message callback *)

Definition echo_callback {T} `{TransportOps T} (conn : T) (buf : Buffer) (w : unit) : option (T * Buffer * unit) :=
  '(conn, buf) ← echo_onMessage conn buf; Some (conn, buf, w).

Definition echo_answers (w : unit) (unread out rest : bytes) (w' : unit) : Prop := out = unread /\ rest = [].

#[export] Instance echo_app : App unit.
Proof.
  refine {| app_callback T _ conn buf w := echo_callback conn buf w; app_answers := echo_answers |}.
  - intros c0 t c b w c' b' w' Hf. assert (sim (along_with2 c0) (echo_callback c b w) (echo_callback t b w)) as Hs.
    { eapply sim_bind; [apply sim_same; intros [msg b1]; eapply sim_bind; [by apply sim_send|]; intros c1 t1 Hf1;
        by apply (sim_ret (along_with c0)) with (a := (c1, b1)) (b := (t1, b1))|].
      intros [c1 b1] [t1 b2] [Hf1 Hb]. cbn in Hb. subst. by apply sim_ret. }
    intros E. destruct (Hs _ E) as ([[t' b1] w1] & Et & [[Hf' Hb] Hw]). cbn in *. subst. eauto.
  - intros t b w t' b' w' ([t1 b1] & E & [= _ <- _])%bind_Some. apply bind_Some in E as ([msg b2] & E & Es).
    apply bind_Some in Es as (t2 & _ & [= _ <-]). unfold retrieveAllAsString, retrieveAsString in E. apply bind_Some in E as (m & _ & [= _ <-]).
    eapply retreat_step; [|done]. rewrite Z.min_id. apply Z.mod_pos_bound. lia.
  - intros b [] out rest [] Hb [-> ->]. unfold echo_callback, echo_onMessage.
    destruct (retrieveAllAsString_spec b Hb) as (b1 & -> & _ & Cb1). cbn [mbind option_bind]. eexists _, b1. split; [done|].
    split; [|done]. split_and!; cbn; try done; rewrite ?app_nil_r; [solve_len|by left].
Defined.

(** ** The server *)

(** The conversations after an event: what is read comes back. *)
Definition echo_spec (hs : list chat) (e : net_event) : list chat :=
  match e with
  | NAccept _ _ _ _ => hs ++ [mkChat [] [] false]
  | NRun _ => hs
  | NReady k revents rd =>
      alter (fun ch => mkChat [] (ch_out ch ++ if calls revents rd then got rd else []) (ch_hung ch || hangs revents)) k hs
  end.

Lemma alter_insert {A} (f : A -> A) (l : list A) k x : l !! k = Some x -> alter f k l = <[k := f x]> l.
Proof. revert k. induction l as [|y l IH]; intros [|k]; cbn; try done; [by intros [= ->]|]. intros E. f_equal. by apply IH. Qed.

Lemma echo_spec_step e hs :
  Forall (fun ch => ch_partial ch = []) hs -> (forall k revents rd, e = NReady k revents rd -> (k < length hs)%nat) ->
  spec_step e (hs, tt) (echo_spec hs e, tt) /\ Forall (fun ch => ch_partial ch = []) (echo_spec hs e).
Proof.
  intros Hp Hk. destruct e as [peer fd ptr answer|i|k revents rd]; cbn [echo_spec].
  - split; [constructor|]. apply Forall_app. split; [done|by repeat constructor].
  - split; [constructor|done].
  - destruct (lookup_lt_is_Some_2 hs k) as [[p r hung] Hh]; [by eapply Hk|]. rewrite (alter_insert _ _ _ _ Hh). cbn [ch_out ch_hung].
    pose proof (proj1 (Forall_lookup _ _) Hp k _ Hh) as E. cbn in E. subst p. split; [|by apply Forall_insert].
    eapply spec_ready; [done|]. destruct (calls revents rd) eqn:Hc; [by apply chat_read|]. rewrite app_nil_r. by apply chat_quiet.
Qed.

Lemma echo_spec_run es g hs :
  site_inv g -> app_inv g hs -> Forall (fun ch => ch_partial ch = []) hs -> app_events_ok es (g, tt) -> len (conns (srv g)) + len es < INT_MAX ->
  spec_run es (hs, tt) (foldl echo_spec hs es, tt).
Proof.
  revert g hs. induction es as [|e es IH]; intros g hs I J Hp Hok Hm; cbn [foldl]; [constructor|]. destruct Hok as [He Hes].
  rewrite len_cons in Hm. pose proof (len_nonneg es). destruct (echo_spec_step e hs Hp) as [St Hp'].
  { intros k revents rd ->. destruct He as (c & o & _ & Ho & _). rewrite (proj1 J). by eapply lookup_lt_Some. }
  destruct (app_step_ok e g hs tt _ tt I J He ltac:(lia) St) as (g1 & E & I1 & Hl & J1). rewrite E in Hes.
  eapply spec_next; [exact St|]. apply (IH g1); try done. lia.
Qed.

(** C13: The echo server with worker threads.  [main], given their number (without it
    the program is single-threaded, and not covered), listens on port 8080.
    From then on, in every interleaving of clients that connect, send, stop
    sending or vanish, of the kernel's answers and of the functors of all loops, no
    assertion fails, and for each connection the bytes the kernel has taken from it
    followed by those still queued are exactly the bytes it has read, in order,
    unless a write has found the peer gone; a connection with bytes queued is
    registered for writing; and when a connection goes down because its stream
    ended, and not by a hang-up, all of them have been written before. *)
Theorem echo_server inet_pton fd idle free argv out s es :
  fd <> idle -> echo_main inet_pton (setup_ok fd idle free) (inl tt) world0 argv = Some (GoesOn out s) ->
  ServerStart.subLoops_ s <> [] -> len es < INT_MAX ->
  let start := Site_new (str "EchoServer") (length (ServerStart.subLoops_ s)) in
  app_events_ok es (start, tt) ->
  (exists d, w_open (sworld s) !! l_fd (listener s) = Some d /\ d_local d = Some (mkInetAddress INADDR_ANY 8080) /\ d_listening d = true) /\
  exists g, app_run es (start, tt) = Some (g, tt) /\ length (objs g) = length (foldl echo_spec [] es) /\
  forall k ch, foldl echo_spec [] es !! k = Some ch -> serves g k ch /\ ch_out ch = heard es k /\ ch_partial ch = [].
Proof.
  intros Hne Hm Hsub Hl start Hok. split.
  { destruct (echo_program inet_pton fd idle free Hne argv) as (r & E & Hr). rewrite Hm in E. injection E as <-.
    destruct Hr as [(d & (Hd & Ha & _) & Hlis) _]. by exists d. }
  assert (length (ServerStart.subLoops_ s) <> 0%nat) as Ht by (by destruct (ServerStart.subLoops_ s)).
  pose proof (echo_spec_run es start [] (inv_site_new _ _ Ht) ltac:(by split) ltac:(constructor) Hok Hl) as Hr.
  destruct (app_session _ _ es tt _ tt Ht Hl Hok Hr) as (g & E & Hlen & Hs). exists g. split_and!; [done|done|].
  intros k ch Hk. split; [by apply Hs|].
  apply (spec_related (fun all p r => r = all /\ p = [])) with tt (foldl echo_spec [] es) tt; [done| |done|done].
  intros all p r w data o rest w' [-> ->] [-> ->]. done.
Qed.

(** ** A sample run: two clients of a server with one worker thread; the kernel
    takes two bytes per write; the first client sends five bytes and stops. *)

Definition sample_run : list net_event :=
  [NAccept (mkInetAddress 2130706433 5000) 7 1 two_bytes_kernel; NAccept (mkInetAddress 2130706433 5001) 8 2 two_bytes_kernel;
   NRun 1; NRun 1; NReady 0 EPOLLIN (IoOk (str "hello")); NReady 1 EPOLLIN (IoOk (str "ab"));
   NReady 0 EPOLLIN (IoOk []); NReady 0 EPOLLOUT (IoErr 0); NReady 0 EPOLLOUT (IoErr 0); NReady 0 EPOLLIN (IoOk []); NRun 0; NRun 1].

Definition sample_argv : list bytes := [str "echo_server"; str "1"].

Definition sample_main : bytes * ServerStart.Server :=
  match echo_main (fun _ => None) (setup_ok 3 4 40000) (inl tt) world0 sample_argv with
  | Some (GoesOn out s) => (out, s)
  | _ => ([], ServerStart.mkServer false 0 [] [] (mkListener 0 0 false false false) 0 world0)
  end.

Lemma echo_server_witness :
  exists g, app_run sample_run (Site_new (str "EchoServer") (length (ServerStart.subLoops_ sample_main.2)), tt) = Some (g, tt) /\
  length (objs g) = length (foldl echo_spec [] sample_run) /\
  forall k ch, foldl echo_spec [] sample_run !! k = Some ch -> serves g k ch /\ ch_out ch = heard sample_run k /\ ch_partial ch = [].
Proof.
  apply (echo_server (fun _ => None) 3 4 40000 sample_argv sample_main.1 sample_main.2 sample_run);
    [done|reflexivity|vm_compute; discriminate|by vm_compute|].
  apply nets_okb_ok; [by repeat constructor|vm_compute; reflexivity].
Defined.

(** The first client got its five bytes back before the server closed; the second
    is still connected. *)
Example sample_run_end :
  ('(g, _) ← app_run sample_run (Site_new (str "EchoServer") 1, tt); Some (cphase <$> conns (srv g), wire_ <$> objs g)) =
  Some ([Destroyed; Open], [str "hello"; str "ab"]).
Proof. vm_compute. reflexivity. Qed.
