(* ===== verification/LoopLifecycle.v ===== *)
(** * LoopLifecycle: how an event loop is built and torn down

    The constructors and destructors of [src/EventLoop.cpp],
    [src/TimerQueue.cpp] and [src/EPollPoller.cpp], whose order matters because
    the timer queue and the wakeup channel unregister themselves from the
    poller.  [None] is an abort, a failed assertion or the use of
    a deleted poller. *)
From S2P Require Import Prelude Socket.

(** ** One thread with at most one loop *)

(** What the loop owns: the poller ([None] once deleted) with the descriptors
    registered in it, and whether its two channels are added. *)
Record Loop := mkLoop {
  poller_ : option (gset Z);
  epollfd_ : Z;
  timerfd_ : Z;
  timerAdded : bool;
  timers_ : list nat;
  wakeupFd_ : Z;
  wakeupAdded : bool
}.

(** The thread: [t_loopInThisThread], open descriptors, deleted timers. *)
Record Thread := mkThread { t_loop : option nat; t_open : gset Z; t_freed : list nat }.

(** [eventfd], [timerfd_create], [epoll_create1]: abort on failure. *)
Definition create (r : reply Z) (t : Thread) : option (Z * Thread) :=
  match r with
  | inl fd => Some (fd, mkThread (t_loop t) ({[fd]} ∪ t_open t) (t_freed t))
  | inr _ => None
  end.

(** [::close] of a descriptor that is open. *)
Definition close_fd (fd : Z) (t : Thread) : option Thread :=
  if bool_decide (fd ∈ t_open t) then Some (mkThread (t_loop t) (t_open t ∖ {[fd]}) (t_freed t)) else None.

(** [Channel::enableReading] / [disableAll] and [Channel::remove], which reach
    the poller through the loop. *)
Definition register (fd : Z) (p : option (gset Z)) : option (option (gset Z)) :=
  s ← p; Some (Some ({[fd]} ∪ s)).
Definition unregister (fd : Z) (p : option (gset Z)) : option (option (gset Z)) :=
  s ← p; Some (Some (s ∖ {[fd]})).

(** The constructor: [this] is the loop's address. *)
Definition Loop_new (this : nat) (rp rt rw : reply Z) (t : Thread) : option (Loop * Thread) :=
  '(ep, t) ← create rp t;
  '(tf, t) ← create rt t;                                   (* TimerQueue::TimerQueue *)
  p ← register tf (Some ∅);
  '(wf, t) ← create rw t;
  match t_loop t with
  | Some _ => None
  | None =>
      let t := mkThread (Some this) (t_open t) (t_freed t) in
      p ← register wf p;
      Some (mkLoop p ep tf true [] wf true, t)
  end.

(** [~TimerQueue], with the assertion of [~Channel]. *)
Definition TimerQueue_destroy (l : Loop) (t : Thread) : option (Loop * Thread) :=
  p ← register (timerfd_ l) (poller_ l);                    (* disableAll *)
  p ← unregister (timerfd_ l) p;
  t ← close_fd (timerfd_ l) t;
  Some (mkLoop p (epollfd_ l) (timerfd_ l) false [] (wakeupFd_ l) (wakeupAdded l),
        mkThread (t_loop t) (t_open t) (t_freed t ++ timers_ l)).

Definition Loop_destroy (l : Loop) (t : Thread) : option (Loop * Thread) :=
  '(l, t) ← TimerQueue_destroy l t;
  p ← register (wakeupFd_ l) (poller_ l);
  p ← unregister (wakeupFd_ l) p;
  let l := mkLoop p (epollfd_ l) (timerfd_ l) (timerAdded l) (timers_ l) (wakeupFd_ l) false in
  t ← close_fd (wakeupFd_ l) t;
  t ← close_fd (epollfd_ l) t;                              (* delete poller_ *)
  let l := mkLoop None (epollfd_ l) (timerfd_ l) (timerAdded l) (timers_ l) (wakeupFd_ l) (wakeupAdded l) in
  let t := mkThread None (t_open t) (t_freed t) in
  if timerAdded l || wakeupAdded l then None else Some (l, t).

(** [TimerQueue::addTimerInLoop] as far as ownership goes. *)
Definition own_timer (n : nat) (l : Loop) : Loop :=
  mkLoop (poller_ l) (epollfd_ l) (timerfd_ l) (timerAdded l) (timers_ l ++ [n]) (wakeupFd_ l) (wakeupAdded l).

(** C31: A loop's life on its thread: a second loop on the same thread aborts; the
    destructor, run with any timers pending, never touches the poller after
    deleting it nor leaves a channel registered, closes the three descriptors
    it opened and no other, deletes every timer it owns exactly once and frees
    the thread for a new loop. *)
Theorem loop_lifecycle this ep tf wf ns t :
  t_loop t = None -> ep ∉ t_open t -> tf ∉ t_open t -> wf ∉ t_open t -> ep <> tf -> ep <> wf -> tf <> wf ->
  exists l t1, Loop_new this (inl ep) (inl tf) (inl wf) t = Some (l, t1) /\
    t_loop t1 = Some this /\ poller_ l = Some {[tf; wf]} /\
    (forall that r1 r2 r3, Loop_new that r1 r2 r3 t1 = None) /\
    exists l' t2, Loop_destroy (foldl (fun l n => own_timer n l) l ns) t1 = Some (l', t2) /\
      poller_ l' = None /\ t_open t2 = t_open t /\ t_freed t2 = t_freed t ++ ns /\ t_loop t2 = None.
Proof.
  intros Ht Hep Htf Hwf H1 H2 H3. unfold Loop_new, create, register. cbn. rewrite Ht. eexists _, _. split; [done|]. cbn.
  split; [done|]. split; [f_equal; set_solver|]. split.
  { intros that [] [] []; done. }
  match goal with |- context [foldl _ ?l ns] => set (l0 := l) end.
  assert (foldl (fun l n => own_timer n l) l0 ns =
    mkLoop (poller_ l0) (epollfd_ l0) (timerfd_ l0) (timerAdded l0) (timers_ l0 ++ ns) (wakeupFd_ l0) (wakeupAdded l0)) as ->.
  { generalize l0. clear. induction ns as [|n ns IH]; intros l; cbn; [by destruct l; cbn; rewrite app_nil_r|].
    rewrite IH. cbn. by rewrite <- app_assoc. }
  unfold l0. clear l0. unfold Loop_destroy, TimerQueue_destroy, close_fd, register, unregister. cbn.
  rewrite bool_decide_true by set_solver. cbn. rewrite bool_decide_true by set_solver. cbn.
  rewrite bool_decide_true by set_solver. cbn. eexists _, _. split; [done|]. cbn. split_and!; try done. set_solver.
Qed.

Lemma loop_lifecycle_witness :
  exists l t1, Loop_new 1 (inl 3) (inl 4) (inl 5) (mkThread None ∅ []) = Some (l, t1) /\
    exists l' t2, Loop_destroy (foldl (fun l n => own_timer n l) l [7%nat; 8%nat]) t1 = Some (l', t2) /\
      t_open t2 = ∅ /\ t_freed t2 = [7%nat; 8%nat].
Proof.
  destruct (loop_lifecycle 1 3 4 5 [7%nat; 8%nat] (mkThread None ∅ [])) as (l & t1 & E & _ & _ & _ & l' & t2 & E' & _ & Ho & Hf & _);
    [reflexivity|cbn; set_solver|cbn; set_solver|cbn; set_solver|lia|lia|lia|].
  exists l, t1. split; [exact E|]. exists l', t2. split; [exact E'|]. split; [exact Ho|exact Hf].
Defined.
